(* ===== verification/_CoqProject ===== *)
-Q . S2P
Prelude.v
Parse.v
Environment.v
Consts.v
Vars.v
Builder.v
Reference.v
Decoder.v
Offchain.v
Justification.v
Rotate.v
Subchain.v
Types.v
Codec.v
Redis.v
Fetcher.v
Hints.v
Announcements.v
DataRoot.v
Circuits.v
Finality.v
GadgetTests.v
CircuitTests.v
Indexer.v
HintTypes.v
Operator.v
Search.v
Contract.v
Events.v
Tools.v
System.v
Progress.v
Programs.v
Pipeline.v
