(* ===== verification/Prelude.v ===== *)
(** * VectorX: a verification development

    VectorX is a light client for Avail on an EVM chain.  A contract stores the
    hash of the latest Avail header it trusts, the hashes of Avail's authority
    sets, and, for ranges of blocks, the Merkle roots of their state and data
    roots.  Two circuits prove the steps it takes: [HeaderRange] moves to a later
    header that the current authority set has justified with GRANDPA, [Rotate]
    learns the next authority set from the header that ends an epoch.  Off-chain
    programs feed them: hints fetch headers and justifications from an Avail node
    and from Redis, an indexer fills Redis with justifications, an operator decides
    what to prove, and an event indexer follows the contract.

    ** Parts of the program and files

    - Prelude: notation, the result type [outcome] of Rust code ([Ret], [Err],
      [Panic], [OutOfFuel]) with its monad, checked and truncating integer
      arithmetic, loops, byte encodings, the lemmas and tactics shared by all.
    - Parse: what the programs use of [str::parse]; Environment: the settings and
      the constructors that read the environment ([get_loop_delay_mins],
      [get_update_delay_blocks], [get_ethereum_rpc], [RedisClient::new],
      [RpcDataFetcher::new]), over the classes [Environment] and [Clients].
    - Consts (circuits/consts.rs) and Vars (circuits/vars.rs): constants and
      circuit variables.
    - Builder: the interfaces [Hashing] and [CircuitBuilder] of the third-party
      code under the circuits, with their laws; Reference: an instance of both on
      which the witnesses evaluate.
    - Decoder (circuits/builder/decoder.rs, header.rs), Justification
      (justification.rs), Rotate (rotate.rs), Subchain (subchain_verification.rs):
      the gadgets.  A gadget is a function to [option]: [None] is an unsatisfiable
      circuit.  A hint is a function argument, quantified over: the prover chooses.
    - Offchain, Types, Codec, Redis, Fetcher (circuits/input/mod.rs and types.rs):
      pure helpers, data, its decoders, [RedisClient] over the interface [RedisServer], and
      [RpcDataFetcher] over the interface [AvailNode].  [Fetcher.chain] is the
      abstract chain, and [Fetcher.serves] says that a node answers from it.
    - Hints: [get_justification_data], [get_justification_from_block],
      [get_header_rotate] (circuits/input/mod.rs) and the three hints; HintTypes:
      that what they return has the sizes of the variables' types.
    - Announcements: where a header's encoding holds the GRANDPA logs, and that a
      rotation that reads one of them installs the announced set.
    - DataRoot: [check_data_commitment] of circuits/input/mod.rs.
    - Circuits (circuits/header_range.rs, rotate.rs, dummy_header_range.rs,
      dummy_rotate.rs): the circuits put together, and the dummies.
    - Finality: what finality proofs of an honest node contain, and that hints and
      circuits accept them.
    - GadgetTests and CircuitTests: the unit tests of the gadgets
      (circuits/builder/), of the circuits, of the dummies and of the data fetcher
      (circuits/input/mod.rs) as programs.  What a test fixes to data of Avail's
      networks is an argument, and a test returns what it prints.
    - Indexer (bin/indexer.rs), Operator (bin/vectorx.rs), Events (bin/events.rs),
      Tools (bin/fill_block_range.rs, bin/genesis.rs): the programs.
    - Search: the operator's search past the head of the chain.
    - Contract (contracts/src/VectorX.sol): the state, every entry point as a
      function to a result type, and public histories as a step relation.
@SYSTEM@    - Progress: rounds of the operator against the contract, with the gateway that
      fulfils the requests ([operator_round] is [run_round], then [deliver]).
    - Programs: the binaries of bin/ with the constants they are built with, and the
      [main] functions.  The operator's is a program that submits requests as it
      goes ([traced]), for any number of iterations of its endless loop.
    - Pipeline: [indexer_main], [operator_main], the hints, the gateway and the
      contract as one system: each iteration of the operator runs over the contract
      that the requests of the iterations before have left ([closed_loop]) and over a
      store that the indexer has filled ([indexed]).

    ** What the theorems show

    - Soundness of the circuits for every prover: [Subchain.verify_subchain_sound],
      [Subchain.subchain_binding], [Circuits.header_range_sound],
      [Justification.simple_justification_iff], [justification_supermajority],
      [Rotate.rotate_iff], [epoch_end_header_iff], [authorities_inside_header].
      They hold for every value of the sizes that the circuit's types fix
      ([justification_bounds], [rotate_bounds], [subchain_bounds]), any [u32] as the
      number of authorities included; where the circuit's count or position is not
      what it should be, the conclusion says so ([miscounted]; logs of the padded
      array).
    - The circuits as built: [Programs.deployed_range_circuits] puts soundness,
      completeness, the bound on the range and the dummies' agreement together at
      256 and 512 blocks.
    - Completeness with honest hints: [Subchain.verify_subchain_complete],
      [Hints.hint_satisfies_circuit], [Circuits.header_range_served],
      [Circuits.rotate_served], [Finality.rotation_accepted],
      [Finality.header_range_accepted], [Indexer.indexed_range_accepted].
    - Agreement of two implementations: [Circuits.dummy_header_range_agrees],
      [Justification.commitment_is_authority_set_hash],
      [Offchain.precommit_decoders_agree].
    - State: [Contract.history_append_only], [committed_ranges_tile],
      [known_sets_contiguous], [commit_not_replayed], [bulk_update_stores];
      [Indexer.index_invariant]; [Redis.blocks_in_range_spec];
      [Events.events_indexed_to_cursor].
    - Searches, with termination: [Fetcher.last_justified_block_spec],
      [find_justifications_spec], [Operator.header_range_decision_terminates].
    - The whole: [System.light_client_safe] is the safety of the light client:
      whatever the public calls, the contract stores what the chain holds, or a prover
      has exploited one of the circuits' two gaps ([exploited]): a justification whose
      votes the threshold does not count, or a rotation that reads its keys where the
      chain's header has no GRANDPA log ([Announcements.reads_log]).  Assumed are a
      gateway that answers only for proofs of the circuits ([sound_gateway]), GRANDPA's
      safety for the justifications used and the absence of second preimages among
      the data used ([sound_evidence]), a chain that announces its sets
      ([Announcements.announcing]) in headers of the documented format, sets that fit
      the circuits, and range keys without collisions ([keys_distinct]);
      [System.requested_range_committed] is the progress of one request, and
      [Progress.operator_catches_up] that of the loop: rounds bring the contract to
      the latest epoch, with a bound on their number.  [Pipeline.pipeline_catches_up]
      is the same of the programs themselves, from the justifications that the indexer
      receives to the contract.
    - Types: [HintTypes.hints_well_typed]; decoding: [Indexer.justifications_decoded].
    - Programs: [operator_main_requests], [rotation_submitted],
      [fill_main_moves_contract]; [Environment.settings_spec] and
      [Parse.parse_uint_spec], [parse_uint_pretty] for what they read;
      [DataRoot.check_data_commitment_spec].
    - Composition: [Operator.header_range_request_sound], [rotate_request_iff],
      [requested_range_provable]; [Tools.fill_block_range_accepted].
    - The project's own tests: [GadgetTests.header_tests_pass], [gadget_tests_pass],
      [CircuitTests.prove_header_range_run], [rotate_tests_pass],
      [fetcher_tests_pass] say for which chains they pass and what they return;
      [epoch_tests_end] that the two with a loop end.
    - Round trips: [Decoder.decode_header_roundtrip],
      [Rotate.epoch_end_header_complete].
    - Where the code falls short: [Justification.padding_slots_are_counted],
      [full_set_one_signature]; [Rotate.log_in_padding_accepted];
      [Hints.hint_exact_two_thirds], [Fetcher.find_justifications_single_block],
      [Indexer.indexer_counts_foreign_votes], [Events.contract_events_missed],
      [Search.search_past_head_panics].

    ** Conventions and bounds

    Integers are [Z] with their range as hypotheses ([is_u32], [is_u64]).  In the
    circuits the product of two [u32] variables is taken modulo [2 ^ 32]; sums and
    differences are specified where they do not overflow, and the bounds of each
    theorem keep them there; field elements are taken modulo the order of the field.  In the programs [+], [-] and [*] are checked:
    overflow panics, as in a debug build; the theorems about runs that return hold
    of a release build too, since no overflow occurs in them.  Casts [as u32]
    truncate.  Hashes are functions; binding statements name the collision they
    would need.

    Recursion that is not structural has fuel, and a theorem for each shows that it
    is enough: [Fetcher.SEARCH_FUEL] is 34, two more than the probes of a binary
    search over 32-bit numbers ([last_justified_block_spec]); batches of headers
    and the loop over epochs have the length of their range
    ([get_block_headers_range_spec], [find_justifications_spec]); the operator's
    search for a justified block has the size of the commitment tree plus two
    ([header_range_decision_terminates]); a batch of events moves at least one
    block ([Events.index_round_terminates]); the Merkle loops have the number of
    leaves ([get_merkle_root_spec]); the two tests that walk over epochs take their fuel as
    an argument ([epoch_tests_end]).

    A node, a server, a contract or an Ethereum provider answers the same to the
    same question within a run; time passes between runs, as in
    [Events.index_rounds], where each round has providers of its own.  The
    concurrent fetch of a batch of headers joins in order, so that it is a list of
    calls.

    ** Not modelled

    - Proof generation and verification (plonky2x, the Succinct gateway):
      interfaces with named hypotheses.  [register_generators] only lists
      serializers.
    - serde_json's, alloy's and Avail's header codecs are parameters, with laws where
      a theorem needs them.  The derived codecs of types.rs follow the documented
      SCALE format (Codec); hexadecimal strings are a parameter.
      Unicode's upper case, which [source_chain_name] is put in, is a parameter.
    - Logging, sleeping, command line parsing (the [main] functions take the values
      of their arguments), the entry points of plonky2x and of wallets and providers
      (parameters of [Clients]); the contract's deployment scripts and tests.
    - Three unit tests: [test_circuit_function_header_range] and
      [test_rotate_serialization], and the end of [test_verify_subchain], write circuits
      with plonky2x's registries and read them back; [test_system_chain] prints two
      answers of the node.
    - Trait declarations repeat the signatures of the functions that implement them.
    - In the contract: the upgrade machinery of the base contract, [msg.value] and
      gas; a payable call forwards its value to the gateway unread. *)

From stdpp Require Export base option list list_numbers numbers strings.
From Stdlib Require Export ZArith Lia.

(** Everything below computes on [Z]; [nat] only counts list positions. *)
#[global] Open Scope Z_scope.

(** ** Values

    Rust's [u8], [u32], [u64] and the circuit's field elements are integers
    [Z]; the types below are names for the reader, and the ranges are explicit
    hypotheses where a statement needs them. *)
Abbreviation byte := Z (only parsing).
Abbreviation U32 := Z (only parsing).
Abbreviation U64 := Z (only parsing).
Abbreviation Felt := Z (only parsing).
Abbreviation bytes := (list Z) (only parsing).
Abbreviation Bytes32 := (list Z) (only parsing).

Definition is_u8 (b : Z) : Prop := 0 ≤ b < 2 ^ 8.
Definition is_u32 (n : Z) : Prop := 0 ≤ n < 2 ^ 32.
Definition is_u64 (n : Z) : Prop := 0 ≤ n < 2 ^ 64.

#[export] Instance is_u8_dec b : Decision (is_u8 b).
Proof. unfold is_u8; apply _. Defined.
#[export] Instance is_u32_dec n : Decision (is_u32 n).
Proof. unfold is_u32; apply _. Defined.
#[export] Instance is_u64_dec n : Decision (is_u64 n).
Proof. unfold is_u64; apply _. Defined.

(** ** Scope, notations and hint databases *)
Declare Scope vectorx_scope.
Delimit Scope vectorx_scope with vx.
#[global] Open Scope vectorx_scope.

(** [l.[a to b]] is Rust's [l[a..b]] on an array that is long enough. *)
Definition slice {A} (l : list A) (a b : nat) : list A := take (b - a) (drop a l).
Notation "l .[ a 'to' b ]" := (slice l a b)
  (at level 1, format "l .[ a  'to'  b ]") : vectorx_scope.

Create HintDb vectorx discriminated.
Create Rewrite HintDb vectorx.

(** ** Loops

    [for_loop f l s] is [for x in l { s = f(s, x)?; }]: the first failing
    iteration makes the whole loop fail. *)
Fixpoint for_loop {A S} (f : S → A → option S) (l : list A) (s : S) : option S :=
  match l with
  | [] => Some s
  | x :: l' => s' ← f s x; for_loop f l' s'
  end.

(** [while cond { body }], cut off after [fuel] iterations: [None] says that the
    fuel ran out, and a termination lemma says that it does not. *)
Fixpoint while_loop {S} (fuel : nat) (cond : S → bool) (body : S → S) (s : S) : option S :=
  if cond s then
    match fuel with
    | O => None
    | Datatypes.S fuel' => while_loop fuel' cond body (body s)
    end
  else Some s.

(** Consecutive batches of [k] elements, as [chunks(k)] yields them. *)
Fixpoint chunks_aux {A} (fuel k : nat) (l : list A) : list (list A) :=
  match fuel with
  | O => []
  | S fuel' =>
      match l with
      | [] => []
      | _ => take k l :: chunks_aux fuel' k (drop k l)
      end
  end.
Definition chunks {A} (k : nat) (l : list A) : list (list A) :=
  chunks_aux (length l) k l.

(** ** Outcomes of Rust code

    The result of running a function that may return an [Err], panic, or not
    terminate within the fuel of its model. *)
Inductive outcome (A : Type) :=
  | Ret (a : A)
  | Err (msg : string)
  | Panic (msg : string)
  | OutOfFuel.
Arguments Ret {A} a.
Arguments Err {A} msg.
Arguments Panic {A} msg.
Arguments OutOfFuel {A}.

#[export] Instance outcome_ret : MRet outcome := @Ret.
#[export] Instance outcome_bind : MBind outcome := λ A B f o,
  match o with
  | Ret a => f a
  | Err m => Err m
  | Panic m => Panic m
  | OutOfFuel => OutOfFuel
  end.

#[export] Instance outcome_eq_dec {A} `{EqDecision A} : EqDecision (outcome A).
Proof. solve_decision. Defined.

(** [assert!(c)]. *)
Definition assert (c : bool) (msg : string) : outcome unit :=
  if c then Ret () else Panic msg.

(** [o.unwrap()], [o.expect(msg)] on an option. *)
Definition expect {A} (o : option A) (msg : string) : outcome A :=
  match o with Some a => Ret a | None => Panic msg end.

(** [r.unwrap()] on a result: an [Err] becomes a panic. *)
Definition unwrap {A} (o : outcome A) : outcome A :=
  match o with Err m => Panic m | _ => o end.

(** [&l[a..b]], which panics out of range. *)
Definition slice_checked {A} (l : list A) (a b : nat) : outcome (list A) :=
  if decide (a ≤ b ≤ length l)%nat then Ret (slice l a b) else Panic "index out of range".

(** Unsigned arithmetic of [w] bits with the overflow checks of a debug build. *)
Definition checked_add (w : Z) (a b : Z) : outcome Z :=
  if decide (a + b < 2 ^ w) then Ret (a + b) else Panic "attempt to add with overflow".
Definition checked_sub (a b : Z) : outcome Z :=
  if decide (b ≤ a) then Ret (a - b) else Panic "attempt to subtract with overflow".

Definition checked_mul (w : Z) (a b : Z) : outcome Z :=
  if decide (a * b < 2 ^ w) then Ret (a * b) else Panic "attempt to multiply with overflow".

(** [n as u32]. *)
Definition as_u32 (n : Z) : U32 := n mod 2 ^ 32.

(** [loop { body }], where the body ends with [inl] the next state or with [inr]
    the value of [break]; cut off after [fuel] iterations. *)
Fixpoint loop {S R} (fuel : nat) (body : S → outcome (S + R)) (s : S) : outcome R :=
  match fuel with
  | O => OutOfFuel
  | Datatypes.S fuel' =>
      next ← body s;
      match next with inl s' => loop fuel' body s' | inr r => Ret r end
  end.

(** Runs a function over the elements of a list with a state, in order. *)
Fixpoint foldM {A S} (f : S → A → outcome S) (l : list A) (s : S) : outcome S :=
  match l with
  | [] => Ret s
  | x :: l' => s' ← f s x; foldM f l' s'
  end.

(** A value computed by a fuelled loop. *)
Definition fuelled {A} (o : option A) : outcome A :=
  match o with Some a => Ret a | None => OutOfFuel end.

(** Runs [f] on every element in order, as [iter().map(f).collect()] does with
    the calls that may fail. *)
Fixpoint traverse {A B} (f : A → outcome B) (l : list A) : outcome (list B) :=
  match l with
  | [] => Ret []
  | x :: l' => y ← f x; ys ← traverse f l'; Ret (y :: ys)
  end.

(** ** Bytes and bits *)
Fixpoint le_encode (k : nat) (n : Z) : bytes :=
  match k with
  | O => []
  | S k' => n mod 2 ^ 8 :: le_encode k' (n / 2 ^ 8)
  end.

Fixpoint le_decode (bs : bytes) : Z :=
  match bs with
  | [] => 0
  | b :: bs' => b + 2 ^ 8 * le_decode bs'
  end.

Definition be_decode (bs : bytes) : Z := le_decode (reverse bs).

Fixpoint bits_of (w : nat) (n : Z) : list bool :=
  match w with
  | O => []
  | S w' => Z.odd n :: bits_of w' (n / 2)
  end.

Fixpoint bits_value (bs : list bool) : Z :=
  match bs with
  | [] => 0
  | b :: bs' => Z.b2z b + 2 * bits_value bs'
  end.

(** ** Tactics *)

(** Opens every option bind of the hypotheses and every equation of options. *)
Ltac bind_inv :=
  repeat match goal with
  | H : _ ≫= _ = Some _ |- _ =>
      apply bind_Some in H as (? & ? & H)
  | H : Some _ = Some _ |- _ => injection H as H; try subst
  | H : None = Some _ |- _ => discriminate H
  | H : Some _ = None |- _ => discriminate H
  end.

(** Opens every outcome bind of the hypotheses. *)
Ltac outcome_inv :=
  repeat match goal with
  | H : ?o ≫= _ = Ret _ |- _ =>
      let E := fresh "E" in destruct o eqn:E; cbn [mbind outcome_bind] in H; try discriminate H
  | H : Ret _ = Ret _ |- _ => injection H as H; try subst
  end.

(** Runs an option bind whose head is known. *)
Ltac bind_run H := rewrite H; cbn [mbind option_bind].

(** Linear arithmetic with division and modulo unfolded. *)
Ltac zarith := Z.div_mod_to_equations; lia.

(** Discharges a decidable hypothesis at a concrete input by evaluation. *)
Ltac by_decide := apply (bool_decide_unpack _); vm_compute; exact I.

(** ** Generic lemmas *)

(** *** Slices *)
Lemma length_slice {A} (l : list A) a b :
  (a ≤ b)%nat → (b ≤ length l)%nat → length (l.[a to b]) = (b - a)%nat.
Proof. intros. unfold slice. rewrite length_take, length_drop. lia. Qed.

Lemma slice_app_l {A} (l k : list A) a b :
  (b ≤ length l)%nat → (l ++ k).[a to b] = l.[a to b].
Proof.
  intros. unfold slice. destruct (decide (a ≤ length l)%nat).
  - rewrite drop_app_le, take_app_le by (rewrite ?length_drop; lia). done.
  - rewrite !(proj2 (Nat.sub_0_le b a)) by lia. done.
Qed.

Lemma slice_app_r {A} (l k : list A) a b :
  (length l ≤ a)%nat →
  (l ++ k).[a to b] = k.[a - length l to b - length l].
Proof.
  intros. unfold slice. rewrite drop_app_ge by lia.
  f_equal. lia.
Qed.

Lemma slice_full {A} (l : list A) n : n = length l → l.[0 to n] = l.
Proof. intros ->. unfold slice. by rewrite drop_0, Nat.sub_0_r, firstn_all. Qed.

Lemma slice_at {A} (p l s : list A) a b :
  a = length p → b = (length p + length l)%nat → (p ++ l ++ s).[a to b] = l.
Proof.
  intros -> ->. rewrite slice_app_r, slice_app_l by lia.
  replace (length p - length p)%nat with 0%nat by lia. apply slice_full. lia.
Qed.

Lemma slice_prefix {A} (l s : list A) b : b = length l → (l ++ s).[0 to b] = l.
Proof. intros ->. by apply (slice_at []). Qed.

Lemma slice_split {A} (l : list A) a b c :
  (a ≤ b)%nat → (b ≤ c)%nat → l.[a to c] = l.[a to b] ++ l.[b to c].
Proof.
  intros. unfold slice. replace (c - a)%nat with ((b - a) + (c - b))%nat by lia.
  replace (drop b l) with (drop (b - a) (drop a l)).
  2: { rewrite drop_drop. f_equal. lia. }
  generalize (drop a l); intros k. generalize (b - a)%nat; intros n.
  revert k; induction n; intros [|x k]; simpl; [done..|by rewrite take_nil|].
  by f_equal.
Qed.

Lemma slice_slice {A} (l : list A) a b c d :
  (c ≤ d)%nat → (a + d ≤ b)%nat → (l.[a to b]).[c to d] = l.[a + c to a + d].
Proof.
  intros. unfold slice. rewrite skipn_firstn_comm, drop_drop, take_take. f_equal; lia.
Qed.

Lemma slice_lookup_total {A} `{!Inhabited A} (l : list A) a b i :
  (a + i < b)%nat → l.[a to b] !!! i = l !!! (a + i)%nat.
Proof.
  intros. rewrite !list_lookup_total_alt. unfold slice.
  rewrite lookup_take_lt by lia. by rewrite lookup_drop.
Qed.

Lemma slice_Forall {A} (P : A → Prop) (l : list A) a b : Forall P l → Forall P l.[a to b].
Proof. intros. by apply Forall_take, Forall_drop. Qed.

Lemma slice_head {A} `{!Inhabited A} (l : list A) : (1 ≤ length l)%nat → l.[0 to 1] = [l !!! 0%nat].
Proof. by destruct l; simpl; [lia|]. Qed.

(** *** Batches *)
Lemma chunks_aux_app {A} fuel k (c l : list A) :
  (0 < k)%nat → length c = k →
  chunks_aux (S fuel) k (c ++ l) = c :: chunks_aux fuel k l.
Proof.
  intros Hk Hc. cbn [chunks_aux]. destruct (c ++ l) eqn:E.
  { apply app_eq_nil in E as [-> ->]. simpl in Hc. lia. }
  rewrite <- E. by rewrite <- Hc, take_app_length, drop_app_length.
Qed.

Lemma chunks_aux_enough {A} f1 f2 k (l : list A) :
  (0 < k)%nat → (length l ≤ f1)%nat → (length l ≤ f2)%nat →
  chunks_aux f1 k l = chunks_aux f2 k l.
Proof.
  revert f2 l; induction f1 as [|f1 IH]; intros f2 l Hk H1 H2.
  { destruct l; [|simpl in *; lia]. by destruct f2. }
  destruct f2 as [|f2]; destruct l as [|x l]; simpl in H1, H2; try lia; [done..|].
  cbn [chunks_aux]. f_equal. destruct k as [|k]; [lia|].
  apply IH; rewrite ?length_drop; simpl; lia.
Qed.

(** A first batch of [k] elements splits off. *)
Lemma chunks_app {A} k (c l : list A) :
  (0 < k)%nat → length c = k → chunks k (c ++ l) = c :: chunks k l.
Proof.
  intros Hk Hc. unfold chunks. rewrite length_app, Hc.
  replace (k + length l)%nat with (S (k - 1 + length l)) by lia.
  rewrite chunks_aux_app by done. f_equal.
  apply chunks_aux_enough; lia.
Qed.

Lemma length_chunks {A} n k (l : list A) :
  (0 < k)%nat → length l = (n * k)%nat → length (chunks k l) = n.
Proof.
  intros Hk. revert l; induction n as [|n IH]; intros l Hl.
  { by destruct l. }
  rewrite <- (take_drop k l), chunks_app by (rewrite ?length_take; lia).
  cbn [length]. f_equal. apply IH. rewrite length_drop. lia.
Qed.

(** The batches of consecutive numbers are consecutive numbers. *)
Lemma chunks_seq {B} (f : nat → B) n k a :
  (0 < k)%nat →
  chunks k (map f (seq a (n * k)))
  = map (λ i, map f (seq (a + i * k) k)) (seq 0 n).
Proof.
  intros Hk. revert a; induction n as [|n IH]; intros a; [done|].
  cbn [Nat.mul]. rewrite seq_app, map_app, chunks_app by (rewrite ?length_map, ?length_seq; done).
  cbn [seq map]. f_equal; [by rewrite Nat.add_0_r|].
  rewrite IH, <- seq_shift, map_map. apply map_ext. intros i. do 2 f_equal. lia.
Qed.

(** *** Little-endian bytes *)
Lemma length_le_encode k n : length (le_encode k n) = k.
Proof. revert n; induction k; intros; unfold le_encode; simpl; auto. Qed.

Lemma le_encode_u8 k n : Forall is_u8 (le_encode k n).
Proof.
  revert n; induction k; intros; unfold le_encode; constructor; auto.
  unfold is_u8. apply Z.mod_pos_bound. lia.
Qed.

Lemma le_decode_bound bs :
  Forall is_u8 bs → 0 ≤ le_decode bs < 2 ^ (8 * Z.of_nat (length bs)).
Proof.
  induction 1 as [|b bs Hb _ IH]; [simpl; lia|].
  cbn [le_decode length]. unfold is_u8 in Hb.
  replace (8 * Z.of_nat (S (length bs))) with (8 + 8 * Z.of_nat (length bs)) by lia.
  rewrite Z.pow_add_r by lia. nia.
Qed.

Lemma le_decode_encode k n :
  le_decode (le_encode k n) = n mod 2 ^ (8 * Z.of_nat k).
Proof.
  revert n; induction k as [|k IH]; intros n.
  { rewrite Z.mod_1_r. done. }
  cbn [le_encode le_decode]. rewrite IH.
  replace (8 * Z.of_nat (S k)) with (8 + 8 * Z.of_nat k) by lia.
  rewrite Z.pow_add_r by lia.
  rewrite Z.rem_mul_r by lia. done.
Qed.

Lemma le_decode_app l k :
  le_decode (l ++ k) = le_decode l + 2 ^ (8 * Z.of_nat (length l)) * le_decode k.
Proof.
  induction l as [|b l IH]; [simpl; lia|].
  cbn [le_decode length app]. rewrite IH.
  replace (8 * Z.of_nat (S (length l))) with (8 + 8 * Z.of_nat (length l)) by lia.
  rewrite Z.pow_add_r by lia. nia.
Qed.

Lemma le_decode_zeros k : le_decode (replicate k 0) = 0.
Proof. induction k; simpl in *; lia. Qed.

Lemma le_encode_decode bs :
  Forall is_u8 bs → le_encode (length bs) (le_decode bs) = bs.
Proof.
  induction 1 as [|b bs Hb _ IH]; [done|].
  cbn [length le_decode le_encode]. unfold is_u8 in Hb. f_equal.
  - rewrite (Z.mul_comm (2 ^ 8)), Z.mod_add by lia. apply Z.mod_small. lia.
  - rewrite (Z.mul_comm (2 ^ 8)), Z.div_add by lia.
    rewrite Z.div_small by lia. exact IH.
Qed.

(** *** Bits *)
Lemma length_bits_of w n : length (bits_of w n) = w.
Proof. revert n; induction w; intros; unfold bits_of; simpl; auto. Qed.

Lemma drop_bits_of a w n :
  drop a (bits_of (a + w) n) = bits_of w (n / 2 ^ Z.of_nat a).
Proof.
  revert n; induction a as [|a IH]; intros n.
  { rewrite Z.div_1_r. done. }
  cbn [Nat.add bits_of drop]. rewrite IH, Z.div_div by lia.
  do 2 f_equal. rewrite Nat2Z.inj_succ, Z.pow_succ_r by lia. done.
Qed.

Lemma take_bits_of k w n : (k ≤ w)%nat → take k (bits_of w n) = bits_of k n.
Proof.
  revert w n; induction k as [|k IH]; intros w n Hk; [done|].
  destruct w as [|w]; [lia|]. cbn [bits_of take]. rewrite IH by lia. done.
Qed.

Lemma bits_value_of w n : bits_value (bits_of w n) = n mod 2 ^ Z.of_nat w.
Proof.
  revert n; induction w as [|w IH]; intros n.
  { rewrite Z.mod_1_r. done. }
  cbn [bits_of bits_value]. rewrite IH, Nat2Z.inj_succ, Z.pow_succ_r by lia.
  rewrite Z.rem_mul_r by lia.
  rewrite <- Z.bit0_odd, Z.bit0_mod. lia.
Qed.

(** The value of a window of bits is a quotient and a remainder. *)
Lemma bits_value_slice w n a b :
  (a ≤ b)%nat → (b ≤ w)%nat →
  bits_value ((bits_of w n).[a to b])
  = (n / 2 ^ Z.of_nat a) mod 2 ^ Z.of_nat (b - a).
Proof.
  intros Hab Hb. unfold slice.
  replace w with (a + (w - a))%nat by lia.
  rewrite drop_bits_of, take_bits_of by lia. apply bits_value_of.
Qed.

Lemma bits_of_app j w n :
  bits_of (j + w) n = bits_of j n ++ bits_of w (n / 2 ^ Z.of_nat j).
Proof.
  rewrite <- (take_drop j (bits_of (j + w) n)).
  rewrite take_bits_of, drop_bits_of by lia. done.
Qed.

Lemma bits_of_mod w n m : (Z.of_nat w ≤ m) → bits_of w (n mod 2 ^ m) = bits_of w n.
Proof.
  revert n m; induction w as [|w IH]; intros n m Hm; [done|].
  cbn [bits_of].
  assert (2 ^ m = 2 * 2 ^ (m - 1)) as E.
  { rewrite <- Z.pow_succ_r by lia. f_equal. lia. }
  rewrite E, Z.rem_mul_r by (try apply Z.pow_nonzero; lia).
  f_equal.
  - rewrite Z.odd_add_mul_2, Zmod_odd. by destruct (Z.odd n).
  - rewrite (Z.mul_comm 2), Z.div_add by lia.
    rewrite (Z.div_small (n mod 2)) by (apply Z.mod_pos_bound; lia).
    rewrite Z.add_0_l. apply IH. lia.
Qed.

(** *** Loops *)
Lemma for_loop_app {A S} (f : S → A → option S) l k s :
  for_loop f (l ++ k) s = (s' ← for_loop f l s; for_loop f k s').
Proof.
  revert s; induction l as [|x l IH]; intros s; [done|].
  cbn [for_loop app]. destruct (f s x) as [s'|]; [apply IH|done].
Qed.

(** Rule for a counted loop: an invariant indexed by the iteration. *)
Lemma for_loop_ind {S} (P : nat → S → Prop) (f : S → nat → option S) a n s s' :
  P a s →
  (∀ i s1 s2, (a ≤ i < a + n)%nat → P i s1 → f s1 i = Some s2 → P (1 + i)%nat s2) →
  for_loop f (seq a n) s = Some s' → P (a + n)%nat s'.
Proof.
  revert a s; induction n as [|n IH]; intros a s H0 Hstep Hrun.
  { simpl in Hrun. simplify_eq. by rewrite Nat.add_0_r. }
  cbn [seq for_loop] in Hrun. apply bind_Some in Hrun as (s1 & H1 & Hrun).
  replace (a + Datatypes.S n)%nat with (Datatypes.S a + n)%nat by lia.
  eapply IH; [| |exact Hrun].
  - eapply (Hstep a); [lia|exact H0|exact H1].
  - intros i t1 t2 Hi. apply Hstep. lia.
Qed.

(** Total correctness of a counted loop. *)
Lemma for_loop_run {S} (P : nat → S → Prop) (f : S → nat → option S) a n s :
  P a s →
  (∀ i s1, (a ≤ i < a + n)%nat → P i s1 → ∃ s2, f s1 i = Some s2 ∧ P (1 + i)%nat s2) →
  ∃ s', for_loop f (seq a n) s = Some s' ∧ P (a + n)%nat s'.
Proof.
  revert a s; induction n as [|n IH]; intros a s H0 Hstep.
  { exists s. by rewrite Nat.add_0_r. }
  destruct (Hstep a s) as (s2 & H2 & HP); [lia|done|].
  destruct (IH (Datatypes.S a) s2) as (s' & Hs' & HP'); [done| |].
  { intros i s1 Hi. apply Hstep. lia. }
  exists s'. cbn [seq for_loop]. rewrite H2. cbn [mbind option_bind].
  split; [done|]. by replace (a + Datatypes.S n)%nat with (Datatypes.S a + n)%nat by lia.
Qed.

(** A [mapM] whose every call succeeds, with what holds of each result. *)
Lemma mapM_run {A B} (f : A → option B) (Q : nat → B → Prop) l :
  (∀ i x, l !! i = Some x → ∃ y, f x = Some y ∧ Q i y) →
  ∃ ys, mapM f l = Some ys ∧ ∀ i y, ys !! i = Some y → Q i y.
Proof.
  revert Q; induction l as [|x l IH]; intros Q Hl; [by exists []|].
  destruct (Hl 0%nat x) as (y & Hy & HQ); [done|].
  destruct (IH (λ i, Q (S i))) as (ys & Hys & HQs); [intros i; apply (Hl (S i))|].
  exists (y :: ys). split; [by simpl; rewrite Hy, Hys|].
  intros [|i] z Hz; [by injection Hz as <-|by apply HQs].
Qed.

(** *** While loops *)

(** A variant that decreases bounds the iterations, an invariant holds at the
    end and the condition is false there. *)
Lemma while_loop_total {S} (I : S → Prop) (variant : S → nat) cond (body : S → S) fuel s :
  I s → (variant s ≤ fuel)%nat →
  (∀ s, I s → cond s = true → I (body s) ∧ (variant (body s) < variant s)%nat) →
  ∃ s', while_loop fuel cond body s = Some s' ∧ I s' ∧ cond s' = false.
Proof.
  intros HI Hf Hstep. revert s HI Hf.
  induction fuel as [|fuel IH]; intros s HI Hf; cbn [while_loop].
  - destruct (cond s) eqn:E; [|eauto]. destruct (Hstep s HI E). lia.
  - destruct (cond s) eqn:E; [|eauto]. destruct (Hstep s HI E).
    apply IH; [done|lia].
Qed.

(** *** Loops with [break] *)

(** A variant that decreases bounds the iterations; [Q] holds of the result. *)
Lemma loop_total {S R} (I : S → Prop) (Q : R → Prop) (variant : S → nat)
    (body : S → outcome (S + R)) fuel s :
  I s → (variant s < fuel)%nat →
  (∀ s, I s → (∃ s', body s = Ret (inl s') ∧ I s' ∧ (variant s' < variant s)%nat)
              ∨ ∃ r, body s = Ret (inr r) ∧ Q r) →
  ∃ r, loop fuel body s = Ret r ∧ Q r.
Proof.
  intros HI Hf Hstep. revert s HI Hf.
  induction fuel as [|fuel IH]; intros s HI Hf; [lia|]. cbn [loop].
  destruct (Hstep s HI) as [(s' & -> & HI' & Hv)|(r & -> & HQ)]; cbn [mbind outcome_bind].
  - apply IH; [done|lia].
  - eauto.
Qed.

(** Stdlib's [map], looked up. *)
Lemma lookup_map {A B} (f : A → B) l i : map f l !! i = f <$> l !! i.
Proof. apply list_lookup_fmap. Qed.

(** *** Checked arithmetic *)
Lemma checked_add_Ret w a b : a + b < 2 ^ w → checked_add w a b = Ret (a + b).
Proof. intros. unfold checked_add. by rewrite decide_True. Qed.

Lemma checked_sub_Ret a b : b ≤ a → checked_sub a b = Ret (a - b).
Proof. intros. unfold checked_sub. by rewrite decide_True. Qed.

Lemma checked_mul_Ret w a b : a * b < 2 ^ w → checked_mul w a b = Ret (a * b).
Proof. intros. unfold checked_mul. by rewrite decide_True. Qed.

Lemma checked_mul_inv w a b r : checked_mul w a b = Ret r → r = a * b ∧ a * b < 2 ^ w.
Proof. unfold checked_mul. case_decide; naive_solver. Qed.

Lemma checked_add_inv w a b r : checked_add w a b = Ret r → r = a + b ∧ a + b < 2 ^ w.
Proof. unfold checked_add. case_decide; naive_solver. Qed.

Lemma checked_sub_inv a b r : checked_sub a b = Ret r → r = a - b ∧ b ≤ a.
Proof. unfold checked_sub. case_decide; naive_solver. Qed.

(** *** Inversion of computations that return *)
Lemma assert_Ret (b : bool) msg {A} (k : outcome A) r :
  (_ ← assert b msg; k) = Ret r ↔ b = true ∧ k = Ret r.
Proof. destruct b; cbn; naive_solver. Qed.

Lemma expect_Ret {A B} (o : option A) msg (k : A → outcome B) r :
  (x ← expect o msg; k x) = Ret r ↔ ∃ x, o = Some x ∧ k x = Ret r.
Proof. destruct o; cbn; naive_solver. Qed.

Lemma bind_Ret {A B} (o : outcome A) (k : A → outcome B) r :
  (x ← o; k x) = Ret r ↔ ∃ x, o = Ret x ∧ k x = Ret r.
Proof. destruct o; cbn; naive_solver. Qed.

Lemma as_u32_id n : is_u32 n → as_u32 n = n.
Proof. apply Z.mod_small. Qed.

Lemma as_u32_length {A} (l : list A) (k : nat) :
  (length l ≤ k)%nat → Z.of_nat k < 2 ^ 32 → as_u32 (Z.of_nat (length l)) = Z.of_nat (length l).
Proof. intros. apply as_u32_id. unfold is_u32. lia. Qed.

(** *** Intervals *)
Lemma drop_seqZ k a n : drop k (seqZ a n) = seqZ (a + Z.of_nat k) (n - Z.of_nat k).
Proof.
  destruct (decide (Z.of_nat k ≤ n)).
  - replace n with (Z.of_nat k + (n - Z.of_nat k)) at 1 by lia.
    rewrite seqZ_app by lia. rewrite drop_app_length'; [done|]. rewrite length_seqZ. lia.
  - rewrite drop_ge by (rewrite length_seqZ; lia). by rewrite seqZ_nil by lia.
Qed.

Lemma take_seqZ k a n : take k (seqZ a n) = seqZ a (Z.min (Z.of_nat k) n).
Proof.
  destruct (decide (Z.of_nat k ≤ n)).
  - replace n with (Z.of_nat k + (n - Z.of_nat k)) at 1 by lia.
    rewrite seqZ_app by lia. rewrite take_app_length'; [f_equal; lia|]. rewrite length_seqZ. lia.
  - rewrite take_ge by (rewrite length_seqZ; lia). f_equal. lia.
Qed.

(** *** Outcomes *)
Lemma traverse_Ret {A B} (f : A → outcome B) l k :
  traverse f l = Ret k ↔ Forall2 (λ x y, f x = Ret y) l k.
Proof.
  split.
  - revert k; induction l as [|x l IH]; intros k Hr; cbn [traverse] in Hr.
    + injection Hr as <-. constructor.
    + outcome_inv. constructor; auto.
  - induction 1 as [|x y l k Hx _ IH]; [done|].
    cbn [traverse]. rewrite Hx. cbn [mbind outcome_bind]. by rewrite IH.
Qed.

Lemma traverse_map {A B} (f : A → outcome B) (g : A → B) l :
  Forall (λ x, f x = Ret (g x)) l → traverse f l = Ret (map g l).
Proof.
  intros Hl. apply traverse_Ret. induction Hl; constructor; auto.
Qed.

(** *** Computations without fuel *)
Definition in_fuel {A} (o : outcome A) : Prop := o ≠ OutOfFuel.

Lemma in_fuel_Ret {A} (a : A) : in_fuel (Ret a).
Proof. done. Qed.
Lemma in_fuel_Err {A} m : in_fuel (A:=A) (Err m).
Proof. done. Qed.
Lemma in_fuel_Panic {A} m : in_fuel (A:=A) (Panic m).
Proof. done. Qed.
Lemma in_fuel_bind {A B} (o : outcome A) (f : A → outcome B) :
  in_fuel o → (∀ a, in_fuel (f a)) → in_fuel (a ← o; f a).
Proof. unfold in_fuel. destruct o; cbn; auto. Qed.
Lemma in_fuel_assert b m : in_fuel (assert b m).
Proof. by destruct b. Qed.
Lemma in_fuel_expect {A} (o : option A) m : in_fuel (expect o m).
Proof. by destruct o. Qed.
Lemma in_fuel_unwrap {A} (o : outcome A) : in_fuel o → in_fuel (unwrap o).
Proof. unfold in_fuel. by destruct o. Qed.
Lemma in_fuel_add w a b : in_fuel (checked_add w a b).
Proof. unfold checked_add. by case_decide. Qed.
Lemma in_fuel_sub a b : in_fuel (checked_sub a b).
Proof. unfold checked_sub. by case_decide. Qed.
Lemma in_fuel_mul w a b : in_fuel (checked_mul w a b).
Proof. unfold checked_mul. by case_decide. Qed.
Lemma in_fuel_traverse {A B} (f : A → outcome B) l :
  (∀ a, in_fuel (f a)) → in_fuel (traverse f l).
Proof.
  intros Hf. induction l as [|x l IH]; cbn [traverse]; [done|].
  apply in_fuel_bind; [done|]. intros y. by apply in_fuel_bind.
Qed.
Lemma in_fuel_foldM {A S} (f : S → A → outcome S) l s :
  (∀ s a, in_fuel (f s a)) → in_fuel (foldM f l s).
Proof.
  intros Hf. revert s; induction l as [|x l IH]; intros s; cbn [foldM]; [done|].
  apply in_fuel_bind; auto.
Qed.

(** A loop whose body has fuel and decreases a variant ends in time. *)
Lemma in_fuel_loop {S R} (variant : S → nat) (body : S → outcome (S + R)) fuel s :
  (variant s < fuel)%nat → (∀ s, in_fuel (body s)) →
  (∀ s s', body s = Ret (inl s') → (variant s' < variant s)%nat) →
  in_fuel (loop fuel body s).
Proof.
  intros Hf Hb Hv. revert s Hf; induction fuel as [|fuel IH]; intros s Hf; [lia|].
  cbn [loop]. specialize (Hb s). specialize (Hv s).
  destruct (body s) as [[s'|r]| | |]; cbn [mbind outcome_bind]; [|done..].
  apply IH. specialize (Hv s' eq_refl). lia.
Qed.

(** What a successful loop guarantees: an invariant up to the last iteration. *)
Lemma loop_inv {S R} (I : S → Prop) (body : S → outcome (S + R)) fuel s r :
  I s → (∀ s s', I s → body s = Ret (inl s') → I s') →
  loop fuel body s = Ret r → ∃ s', I s' ∧ body s' = Ret (inr r).
Proof.
  intros HI Hstep. revert s HI; induction fuel as [|fuel IH]; intros s HI; cbn [loop]; [done|].
  destruct (body s) as [[s'|r']| | |] eqn:E; cbn [mbind outcome_bind]; try done.
  - apply IH. by eapply Hstep.
  - intros [= ->]. by exists s.
Qed.

Create HintDb fuel discriminated.
#[export] Hint Resolve in_fuel_Ret in_fuel_Err in_fuel_Panic in_fuel_assert
  in_fuel_expect in_fuel_add in_fuel_sub in_fuel_mul : fuel.

(** Goes through the binds, loops over lists and cases of a computation. *)
Ltac in_fuel :=
  intros; repeat first
    [ solve [eauto 2 with fuel]
    | apply in_fuel_bind; intros
    | apply in_fuel_unwrap
    | apply in_fuel_traverse; intros
    | apply in_fuel_foldM; intros
    | case_match ].

#[global] Arguments le_encode : simpl never.
#[global] Arguments bits_of : simpl never.

#[export] Hint Rewrite length_le_encode @length_replicate @length_app length_bits_of
  : vectorx.
#[export] Hint Resolve le_encode_u8 slice_Forall : vectorx.
