(* ===== verification/Parse.v ===== *)
(** * Numbers and booleans in text

    [str::parse] of the Rust standard library for unsigned integers and booleans,
    as the programs use it on environment variables, against the numbers that
    digits denote; and the decimal format of a number. *)

From stdpp Require Import strings pretty.
From Stdlib Require Import Ascii.
From S2P Require Import Prelude.

(** ** Operations *)
Definition digit_of (a : ascii) : option Z :=
  let code := Z.of_N (N_of_ascii a) in
  if decide (48 ≤ code ≤ 57) then Some (code - 48) else None.

(** The loop of [from_str_radix] in base 10: [checked_mul], then [checked_add]. *)
Fixpoint parse_digits (width : Z) (s : string) (acc : Z) : option Z :=
  match s with
  | EmptyString => Some acc
  | String a s' =>
      if decide (acc * 10 < 2 ^ width) then
        d ← digit_of a;
        if decide (acc * 10 + d < 2 ^ width) then parse_digits width s' (acc * 10 + d) else None
      else None
  end.

(** [parse::<u32>] and [parse::<u64>]: a leading plus sign is allowed. *)
Definition parse_uint (width : Z) (s : string) : option Z :=
  match s with
  | EmptyString => None
  | String a s' =>
      if decide (a = "+"%char) then
        match s' with EmptyString => None | _ => parse_digits width s' 0 end
      else parse_digits width s 0
  end.

Definition parse_bool (s : string) : option bool :=
  if decide (s = "true") then Some true else if decide (s = "false") then Some false else None.

(** ** Specification *)

(** The number that digits denote after those of [acc]. *)
Fixpoint digits_value (s : string) (acc : Z) : option Z :=
  match s with
  | EmptyString => Some acc
  | String a s' => d ← digit_of a; digits_value s' (acc * 10 + d)
  end.

Definition denotes (s : string) (n : Z) : Prop :=
  ∃ digits, (s = digits ∨ s = "+" +:+ digits) ∧ digits ≠ "" ∧ digits_value digits 0 = Some n.

(** ** Helper lemmas *)
Lemma digit_of_range a d : digit_of a = Some d → 0 ≤ d ≤ 9.
Proof. unfold digit_of. case_decide; [intros [= <-]; lia|done]. Qed.

Lemma digits_value_ge s acc n : 0 ≤ acc → digits_value s acc = Some n → acc ≤ n.
Proof.
  revert acc. induction s as [|a s IH]; intros acc Hacc Hv; cbn in Hv; [by injection Hv as <-|].
  apply bind_Some in Hv as (d & Hd%digit_of_range & Hv). apply IH in Hv; lia.
Qed.

(** Checking every step is checking the result. *)
Lemma parse_digits_run width s acc n :
  0 ≤ acc < 2 ^ width → parse_digits width s acc = Some n ↔ digits_value s acc = Some n ∧ n < 2 ^ width.
Proof.
  revert acc. induction s as [|a s IH]; intros acc Hacc; cbn.
  { split; [intros [= <-]; split; [done|lia]|by intros [[= <-] _]]. }
  split.
  - case_decide; [|done]. intros (d & Hd & Hv)%bind_Some. case_decide; [|done].
    pose proof (digit_of_range a d Hd). apply IH in Hv; [|lia]. by rewrite Hd.
  - intros [(d & Hd & Hv)%bind_Some Hn]. pose proof (digit_of_range a d Hd).
    pose proof (digits_value_ge s (acc * 10 + d) n ltac:(lia) Hv).
    rewrite decide_True by lia. rewrite Hd. cbn. rewrite decide_True by lia.
    apply IH; [lia|done].
Qed.

Lemma parse_uint_run width s n :
  0 ≤ width → parse_uint width s = Some n ↔ denotes s n ∧ n < 2 ^ width.
Proof.
  intros Hw. assert (0 ≤ 0 < 2 ^ width) as H0 by (split; [done|by apply Z.pow_pos_nonneg]).
  unfold denotes, parse_uint. destruct s as [|a s].
  { split; [done|]. intros [(digits & [<-|?] & Hne & _) _]; done. }
  case_decide as Ha.
  - subst a. split.
    + destruct s as [|b s]; [done|]. intros [Hv Hn]%parse_digits_run; [|done].
      split; [|done]. exists (String b s). split; [by right|done].
    + intros [(digits & [<-|E] & Hne & Hv) Hn].
      * cbn in Hv. done.
      * injection E as ->. destruct digits as [|b digits]; [done|]. by apply parse_digits_run.
  - rewrite parse_digits_run by done. split.
    + intros [Hv Hn]. split; [|done]. exists (String a s). split; [by left|done].
    + intros [(digits & [<-|E] & Hne & Hv) Hn]; [done|]. by injection E as ->.
Qed.

(** The decimal format denotes its number. *)
Lemma digit_of_char x : (x < 10)%N → digit_of (pretty_N_char x) = Some (Z.of_N x).
Proof.
  intros Hx. assert (x = 0 ∨ x = 1 ∨ x = 2 ∨ x = 3 ∨ x = 4 ∨ x = 5 ∨ x = 6 ∨ x = 7 ∨ x = 8 ∨ x = 9)%N
    as Hcases by lia. destruct_or! Hcases; by subst.
Qed.

Lemma value_pretty_go x s : digits_value (pretty_N_go x s) 0 = digits_value s (Z.of_N x).
Proof.
  revert s. induction (N.lt_wf_0 x) as [x _ IH]. intros s.
  destruct (decide (x = 0)%N) as [->|Hx]; [done|].
  rewrite pretty_N_go_step, IH by (try apply N.div_lt; lia). cbn.
  rewrite digit_of_char by (apply N.mod_lt; done). cbn. f_equal.
  pose proof (N.div_mod x 10 ltac:(done)). lia.
Qed.

Lemma pretty_N_nonempty (x : N) : pretty x ≠ "".
Proof.
  unfold pretty, pretty_N. case_decide as Hx; [done|]. intros E.
  pose proof (value_pretty_go x "") as Hv. rewrite E in Hv. cbn in Hv. injection Hv as Hv. lia.
Qed.

(** ** Properties *)

(** Parsing an unsigned integer succeeds exactly on the decimal numbers that
    fit, with an optional plus sign: digit by digit with an overflow check in every
    step, it is no stricter and no laxer than a check of the result. *)
Theorem parse_uint_spec width s n :
  0 ≤ width → parse_uint width s = Some n ↔ denotes s n ∧ n < 2 ^ width.
Proof. apply parse_uint_run. Qed.

(** A number that fits is parsed back from its decimal format. *)
Theorem parse_uint_pretty width (x : N) :
  0 ≤ width → Z.of_N x < 2 ^ width → parse_uint width (pretty x) = Some (Z.of_N x).
Proof.
  intros Hw Hx. apply parse_uint_run; [done|]. split; [|done]. exists (pretty x).
  split; [by left|]. split; [apply pretty_N_nonempty|]. unfold pretty, pretty_N.
  case_decide as E; [by subst|apply value_pretty_go].
Qed.

(** ** Witnesses *)
Lemma parse_uint_spec_witness :
  parse_uint 32 "+0180" = Some 180 ∧ denotes "+0180" 180 ∧ parse_uint 32 "4294967296" = None.
Proof.
  split; [vm_compute; reflexivity|]. split; [|vm_compute; reflexivity].
  apply (parse_uint_spec 32 "+0180" 180); [lia|vm_compute; reflexivity].
Defined.

Lemma parse_uint_pretty_witness : parse_uint 64 (pretty 18446744073709551615%N) = Some (2 ^ 64 - 1).
Proof. apply (parse_uint_pretty 64 18446744073709551615); lia. Defined.
