(* ===== verification/Environment.v ===== *)
(** * The programs' environment

    Environment variables, as [std::env::var] reads them after dotenv has loaded the
    file, the constructors of third-party clients that take their values, and the
    settings that the programs read from them. *)

From stdpp Require Import strings pretty.
From S2P Require Import Prelude Parse.

(** A variable that is missing or not Unicode is [None]. *)
Class Environment := { env_var : string → option string }.

(** Constructors from a URL, an address or a key; [None] and [false] are errors. *)
Class Clients := {
  avail_client_new : string → bool;
  redis_client_open : string → bool;
  provider_try_from : string → bool;
  parse_address : string → option bytes;
  wallet_from_str : string → option Z;
}.

(** ** Operations *)
Section Operations.
Context `{Environment}.

(** [get_loop_delay_mins] and [get_update_delay_blocks] of bin/vectorx.rs. *)
Definition get_loop_delay_mins : outcome U64 :=
  match env_var "LOOP_DELAY_MINS" with
  | Some v => expect (parse_uint 64 v) "invalid LOOP_DELAY_MINS"
  | None => Ret 15
  end.

Definition get_update_delay_blocks : outcome U32 :=
  match env_var "UPDATE_DELAY_BLOCKS" with
  | Some v => expect (parse_uint 32 v) "invalid UPDATE_DELAY_BLOCKS"
  | None => Ret 180
  end.

(** [get_ethereum_rpc] of bin/events.rs. *)
Definition get_ethereum_rpc (chain_id : U64) : option string :=
  env_var ("RPC_" +:+ pretty chain_id).

Context `{Clients}.

(** [RedisClient::new]. *)
Definition RedisClient_new : outcome unit :=
  redis_url ← expect (env_var "REDIS_URL") "REDIS_URL must be set";
  assert (redis_client_open redis_url) "Redis client not created".

(** [RpcDataFetcher::new], with the URL and the chain id that it keeps. *)
Definition RpcDataFetcher_new : outcome (string * string) :=
  url ← expect (env_var "AVAIL_URL") "AVAIL_URL must be set";
  _ ← assert (avail_client_new url) "called `Result::unwrap()` on an `Err` value";
  _ ← RedisClient_new;
  avail_chain_id ← expect (env_var "AVAIL_CHAIN_ID") "AVAIL_CHAIN_ID must be set";
  Ret (url, avail_chain_id).
End Operations.

(** ** Properties *)
Section Properties.
Context `{Environment}.

(** A setting: its default, or the number that the variable holds. *)
Definition setting (width : Z) (name : string) (default n : Z) : Prop :=
  (env_var name = None ∧ n = default) ∨ ∃ v, env_var name = Some v ∧ denotes v n ∧ n < 2 ^ width.

Lemma setting_run width name default msg n :
  0 ≤ width →
  match env_var name with Some v => expect (parse_uint width v) msg | None => Ret default end = Ret n
  ↔ setting width name default n.
Proof.
  intros Hw. unfold setting. destruct (env_var name) as [v|]; [|naive_solver].
  pose proof (parse_uint_run width v n Hw) as Hrun. destruct (parse_uint width v); naive_solver.
Qed.

(** The URLs of different chains are in different variables. *)
Lemma rpc_variable_inj (chain_id chain_id' : U64) :
  "RPC_" +:+ pretty chain_id = "RPC_" +:+ pretty chain_id' → chain_id = chain_id'.
Proof. intros E. injection E as E. by apply (inj pretty). Qed.

(** The operator's settings are the numbers that the environment holds, and 15
    minutes and 180 blocks where it is silent; anything else panics. *)
Theorem settings_spec minutes blocks :
  (get_loop_delay_mins = Ret minutes ↔ setting 64 "LOOP_DELAY_MINS" 15 minutes)
  ∧ (get_update_delay_blocks = Ret blocks ↔ setting 32 "UPDATE_DELAY_BLOCKS" 180 blocks).
Proof. split; by apply setting_run. Qed.
End Properties.
