(* ===== verification/Consts.v ===== *)
(** * The constants of circuits/consts.rs

    Sizes are [nat], because they count array positions. *)

From S2P Require Import Prelude.

Definition DATA_ROOT_OFFSET_FROM_END : U32 := 32.
Definition HEADERS_PER_MAP : nat := 8.
Definition MAX_HEADER_CHUNK_SIZE : nat := 280.
Definition BLAKE2B_CHUNK_SIZE_BYTES : nat := 128.
Definition MAX_HEADER_SIZE : nat := MAX_HEADER_CHUNK_SIZE * BLAKE2B_CHUNK_SIZE_BYTES.
Definition HASH_SIZE : nat := 32.
Definition PUBKEY_LENGTH : nat := 32.
Definition WEIGHT_LENGTH : nat := 8.
Definition VALIDATOR_LENGTH : nat := PUBKEY_LENGTH + WEIGHT_LENGTH.
Definition DELAY_LENGTH : nat := 4.
Definition CONSENSUS_ENGINE_ID_PREFIX_LENGTH : nat := 6.
Definition MAX_COMPACT_UINT_BYTES : nat := 5.
Definition MAX_PREFIX_LENGTH : nat :=
  CONSENSUS_ENGINE_ID_PREFIX_LENGTH + MAX_COMPACT_UINT_BYTES + 1 + MAX_COMPACT_UINT_BYTES.
Definition ENCODED_PRECOMMIT_LENGTH : nat := 53.
Definition MAX_AUTHORITY_SET_SIZE : nat := 300.
Definition MAX_SUBARRAY_SIZE : nat :=
  MAX_AUTHORITY_SET_SIZE * VALIDATOR_LENGTH + DELAY_LENGTH.

(** [consts] unfolds the sizes so that [lia] sees numbers. *)
Ltac consts := unfold DATA_ROOT_OFFSET_FROM_END, HEADERS_PER_MAP, MAX_SUBARRAY_SIZE,
  MAX_HEADER_SIZE, MAX_HEADER_CHUNK_SIZE, BLAKE2B_CHUNK_SIZE_BYTES, HASH_SIZE,
  VALIDATOR_LENGTH, PUBKEY_LENGTH, WEIGHT_LENGTH, DELAY_LENGTH,
  MAX_PREFIX_LENGTH, CONSENSUS_ENGINE_ID_PREFIX_LENGTH, MAX_COMPACT_UINT_BYTES,
  ENCODED_PRECOMMIT_LENGTH, MAX_AUTHORITY_SET_SIZE in *.
