(* ===== verification/Vars.v ===== *)
(** * The circuit's data: circuits/vars.rs

    A circuit variable is modelled by the value it is assigned.  A fixed-size
    array is a list; its length, which the Rust type states, is the
    well-formedness predicate [wf_*] of the record that holds it. *)

From S2P Require Import Prelude Consts.

(** [EDDSASignatureVariable]: the compressed point [r] and the scalar [s]. *)
Record EDDSASignature := { sig_r : Bytes32; sig_s : Z }.

Record EncodedHeader := {
  header_bytes : bytes;
  header_size : U32;
}.

Record Header := {
  block_number : U32;
  parent_hash : Bytes32;
  state_root : Bytes32;
  data_root : Bytes32;
}.

Record Precommit := {
  pc_block_hash : Bytes32;
  pc_block_number : U32;
  pc_justification_round : U64;
  pc_authority_set_id : U64;
}.

Record Justification := {
  encoded_precommit : bytes;
  validator_signed : list bool;
  signatures : list EDDSASignature;
  pubkeys : list Bytes32;
  num_authorities : U32;
}.

Record Rotate := {
  epoch_end_block_number : U32;
  target_header : EncodedHeader;
  target_header_num_authorities : Felt;
  next_authority_set_start_position : Felt;
  new_pubkeys : list Bytes32;
}.

Record SubchainVerification := {
  target_header_hash : Bytes32;
  state_root_merkle_root : Bytes32;
  data_root_merkle_root : Bytes32;
}.

#[export] Instance EDDSASignature_eq_dec : EqDecision EDDSASignature.
Proof. solve_decision. Defined.
#[export] Instance EncodedHeader_eq_dec : EqDecision EncodedHeader.
Proof. solve_decision. Defined.
#[export] Instance Header_eq_dec : EqDecision Header.
Proof. solve_decision. Defined.
#[export] Instance SubchainVerification_eq_dec : EqDecision SubchainVerification.
Proof. solve_decision. Defined.

(** What the Rust types of the records state. *)
Record wf_header (MAX_HEADER_SIZE : nat) (h : EncodedHeader) : Prop := {
  wf_header_bytes : length (header_bytes h) = MAX_HEADER_SIZE;
  wf_header_size : is_u32 (header_size h);
}.

Record wf_justification (MAX_NUM_AUTHORITIES : nat) (j : Justification) : Prop := {
  wf_encoded_precommit : length (encoded_precommit j) = ENCODED_PRECOMMIT_LENGTH;
  wf_validator_signed : length (validator_signed j) = MAX_NUM_AUTHORITIES;
  wf_signatures : length (signatures j) = MAX_NUM_AUTHORITIES;
  wf_pubkeys : length (pubkeys j) = MAX_NUM_AUTHORITIES;
  wf_num_authorities : is_u32 (num_authorities j);
}.

Record wf_rotate (MAX_HEADER_SIZE MAX_AUTHORITY_SET_SIZE : nat) (r : Rotate) : Prop := {
  wf_target_header : wf_header MAX_HEADER_SIZE (target_header r);
  wf_new_pubkeys : length (new_pubkeys r) = MAX_AUTHORITY_SET_SIZE;
}.
