(* ===== verification/Builder.v ===== *)
(** * The interfaces of the libraries the circuits are written against

    Two type classes name the third-party code: [Hashing] (sha2, sp_core's
    Blake2b and ed25519_dalek) and [CircuitBuilder] (plonky2x).  Their [...Laws]
    companions state the documented behaviour the circuits rely on, each law on
    the inputs for which the documentation promises it and nothing outside.

    A gadget that only computes is a function of its inputs.  A gadget that
    constrains returns an [option]: [None] says that no proof exists for these
    values. *)

From S2P Require Import Prelude Consts Vars.

(** ** Hash functions and signatures *)
Class Hashing := {
  (** [sha2::Sha256]: all the bytes passed to [update], then [finalize]. *)
  Sha256 : bytes → Bytes32;
  (** [sp_core::blake2_256], the hash of an encoded header. *)
  blake2_256 : bytes → Bytes32;
  (** [VerifyingKey::from_bytes] succeeds: the bytes are a point of the curve. *)
  ed25519_valid_key : Bytes32 → bool;
  (** [VerifyingKey::verify], with the key, the message and the 64-byte signature. *)
  ed25519_verify : Bytes32 → bytes → bytes → bool;
}.

Class HashingLaws `{Hashing} := {
  length_Sha256 m : length (Sha256 m) = HASH_SIZE;
  length_blake2_256 m : length (blake2_256 m) = HASH_SIZE;
}.

(** ** Reference functions the laws of the builder are stated with *)

(** The root of the binary tree of SHA-256 over the given leaves, which are not
    hashed themselves; [2 ^ depth] leaves. *)
Fixpoint merkle_root `{Hashing} (depth : nat) (leaves : list Bytes32) : Bytes32 :=
  match depth with
  | O => default [] (head leaves)
  | S d =>
      let half := (2 ^ d)%nat in
      Sha256 (merkle_root d (take half leaves) ++ merkle_root d (drop half leaves))
  end.

Definition zero32 : Bytes32 := replicate HASH_SIZE 0.

(** Leaves from position [n] on are replaced by the empty leaf. *)
Definition enable_leaves (n : nat) (leaves : list Bytes32) : list Bytes32 :=
  take n leaves ++ replicate (length leaves - n) zero32.

(** A balanced binary reduction of [2 ^ depth] results. *)
Fixpoint tree_reduce {O} (reduce : O → O → option O) (depth : nat) (l : list O) : option O :=
  match depth with
  | O => head l
  | S d =>
      let half := (2 ^ d)%nat in
      left ← tree_reduce reduce d (take half l);
      right ← tree_reduce reduce d (drop half l);
      reduce left right
  end.

(** ** The circuit builder *)
Class CircuitBuilder := {
  (** The order of [L::Field]. *)
  order : Z;

  (* Booleans and equality. *)
  is_equal : ∀ {A} `{EqDecision A}, A → A → bool;
  is_zero : Felt → bool;
  b_and : bool → bool → bool;
  b_or : bool → bool → bool;
  b_not : bool → bool;
  select : ∀ {A}, bool → A → A → A;
  assert_is_equal : ∀ {A} `{EqDecision A}, A → A → option unit;

  (* Field elements. *)
  add : Felt → Felt → Felt;
  le_sum : list bool → Felt;
  as_bool_targets : byte → list bool;
  to_variable : byte → Felt;
  select_array_random_gate : ∀ {A}, list A → Felt → option A;
  get_fixed_subarray : nat → bytes → Felt → bytes → option bytes;

  (* Unsigned integers. *)
  U32_from_variables : Felt → option U32;
  U32_decode : bytes → U32;
  U64_decode : bytes → U64;
  U32_add : U32 → U32 → U32;
  U32_sub : U32 → U32 → U32;
  U32_mul : U32 → U32 → U32;
  U32_lt : U32 → U32 → bool;
  U32_gt : U32 → U32 → bool;

  (* Hashes and signatures. *)
  curta_sha256 : bytes → Bytes32;
  sha256 : bytes → Bytes32;
  curta_blake2b_variable : bytes → U32 → option Bytes32;
  curta_eddsa_verify_sigs_conditional :
    list bool → option (list U32) → list bytes → list EDDSASignature →
    list Bytes32 → option unit;
  get_root_from_hashed_leaves : list Bytes32 → Felt → Bytes32;

  (* Map-reduce over batches of [B] inputs. *)
  mapreduce : ∀ {Ctx I O},
    nat → Ctx → list I → (Ctx → list I → option O) →
    (Ctx → O → O → option O) → option O;
}.

(** The signature bytes behind an [EDDSASignatureVariable]. *)
Definition signature_bytes (s : EDDSASignature) : bytes :=
  sig_r s ++ le_encode 32 (sig_s s).

(** What the conditional batch verification accepts: every active slot carries
    a valid signature over its message, cut to its length. *)
Definition signatures_ok `{Hashing} (active : list bool) (lens : list U32)
    (messages : list bytes) (sigs : list EDDSASignature) (pks : list Bytes32) : Prop :=
  ∀ i len m s pk,
    active !! i = Some true → lens !! i = Some len → messages !! i = Some m →
    sigs !! i = Some s → pks !! i = Some pk →
    ed25519_verify pk (take (Z.to_nat len) m) (signature_bytes s) = true.

Class CircuitBuilderLaws `{Hashing, CircuitBuilder} := {
  order_large : 2 ^ 40 < order;

  is_equal_spec {A} `{EqDecision A} (a b : A) : is_equal a b = bool_decide (a = b);
  is_zero_spec v : is_zero v = bool_decide (v = 0);
  and_spec a b : b_and a b = a && b;
  or_spec a b : b_or a b = a || b;
  not_spec a : b_not a = negb a;
  select_spec {A} c (a b : A) : select c a b = if c then a else b;
  assert_is_equal_spec {A} `{EqDecision A} (a b : A) :
    assert_is_equal a b = if decide (a = b) then Some () else None;

  add_spec a b : add a b = (a + b) mod order;
  le_sum_spec bs : (length bs ≤ 40)%nat → le_sum bs = bits_value bs;
  as_bool_targets_spec b : is_u8 b → as_bool_targets b = reverse (bits_of 8 b);
  to_variable_spec b : is_u8 b → to_variable b = b;
  select_array_spec {A} (l : list A) i :
    0 ≤ i < Z.of_nat (length l) → select_array_random_gate l i = l !! Z.to_nat i;
  get_fixed_subarray_spec n l start seed :
    0 ≤ start → start + Z.of_nat n ≤ Z.of_nat (length l) →
    get_fixed_subarray n l start seed
    = Some (l.[Z.to_nat start to Z.to_nat start + n]);

  U32_from_variables_spec v :
    0 ≤ v → U32_from_variables v = if decide (is_u32 v) then Some v else None;
  U32_decode_spec bs : Forall is_u8 bs → length bs = 4%nat → U32_decode bs = be_decode bs;
  U64_decode_spec bs : Forall is_u8 bs → length bs = 8%nat → U64_decode bs = be_decode bs;
  U32_add_spec a b : 0 ≤ a → 0 ≤ b → a + b < 2 ^ 32 → U32_add a b = a + b;
  U32_sub_spec a b : 0 ≤ b ≤ a → a < 2 ^ 32 → U32_sub a b = a - b;
  (* The product of two [u32] variables keeps its low 32 bits, without a check. *)
  U32_mul_spec a b : is_u32 a → is_u32 b → U32_mul a b = (a * b) mod 2 ^ 32;
  U32_lt_spec a b : is_u32 a → is_u32 b → U32_lt a b = bool_decide (a < b);
  U32_gt_spec a b : is_u32 a → is_u32 b → U32_gt a b = bool_decide (b < a);

  curta_sha256_spec m : curta_sha256 m = Sha256 m;
  sha256_spec m : sha256 m = Sha256 m;
  curta_blake2b_variable_spec m n :
    0 ≤ n ≤ Z.of_nat (length m) →
    curta_blake2b_variable m n = Some (blake2_256 (take (Z.to_nat n) m));
  curta_eddsa_spec active lens messages sigs pks :
    curta_eddsa_verify_sigs_conditional active (Some lens) messages sigs pks = Some ()
    ↔ signatures_ok active lens messages sigs pks;
  get_root_spec d leaves n :
    length leaves = (2 ^ d)%nat → 0 ≤ n ≤ Z.of_nat (length leaves) →
    get_root_from_hashed_leaves leaves n
    = merkle_root d (enable_leaves (Z.to_nat n) leaves);

  mapreduce_spec {Ctx I O} B d (ctx : Ctx) (inputs : list I)
      (map : Ctx → list I → option O) reduce :
    (0 < B)%nat → length inputs = (2 ^ d * B)%nat →
    mapreduce B ctx inputs map reduce
    = (outs ← mapM (map ctx) (chunks B inputs); tree_reduce (reduce ctx) d outs);
}.

(** [circuit] replaces the unconditional gadgets of the goal by what they
    compute. *)
Ltac circuit := rewrite ?is_equal_spec, ?is_zero_spec, ?and_spec, ?or_spec, ?not_spec,
  ?select_spec, ?curta_sha256_spec, ?sha256_spec.

(** *** The balanced reduction *)

(** Rule for a reduction that succeeded: [P a d o] says what the result [o] of
    the subtree of [2 ^ d] leaves from leaf [a] on satisfies. *)
Lemma tree_reduce_ind {O} (P : nat → nat → O → Prop) (reduce : O → O → option O) :
  (∀ a d l r o, P a d l → P (a + 2 ^ d)%nat d r → reduce l r = Some o → P a (S d) o) →
  ∀ d a outs out,
    length outs = (2 ^ d)%nat → (∀ i o, outs !! i = Some o → P (a + i)%nat 0%nat o) →
    tree_reduce reduce d outs = Some out → P a d out.
Proof.
  intros Hstep d. induction d as [|d IH]; intros a outs out Hlen Hleaf Hrun.
  { cbn [tree_reduce] in Hrun. rewrite head_lookup in Hrun.
    rewrite <- (Nat.add_0_r a). by apply Hleaf. }
  cbn [tree_reduce] in Hrun. apply bind_Some in Hrun as (l & Hl & Hrun).
  apply bind_Some in Hrun as (r & Hr & Hrun). cbn [Nat.pow] in Hlen.
  apply (Hstep a d l r); [| |done].
  - eapply IH; [| |exact Hl]; [rewrite length_take; lia|].
    intros i o Hi. apply lookup_take_Some in Hi as [? ?]. by apply Hleaf.
  - eapply IH; [| |exact Hr]; [rewrite length_drop; lia|].
    intros i o Hi. rewrite lookup_drop in Hi. rewrite <- Nat.add_assoc. by apply Hleaf.
Qed.

(** A reduction whose every step succeeds, succeeds. *)
Lemma tree_reduce_run {O} (P : nat → nat → O → Prop) (reduce : O → O → option O) :
  (∀ a d l r, P a d l → P (a + 2 ^ d)%nat d r → ∃ o, reduce l r = Some o ∧ P a (S d) o) →
  ∀ d a outs,
    length outs = (2 ^ d)%nat → (∀ i o, outs !! i = Some o → P (a + i)%nat 0%nat o) →
    ∃ out, tree_reduce reduce d outs = Some out ∧ P a d out.
Proof.
  intros Hstep d. induction d as [|d IH]; intros a outs Hlen Hleaf.
  { destruct outs as [|o outs]; [done|]. exists o. split; [done|].
    rewrite <- (Nat.add_0_r a). by apply Hleaf. }
  cbn [Nat.pow] in Hlen.
  destruct (IH a (take (2 ^ d) outs)) as (l & Hl & HPl).
  { rewrite length_take. lia. }
  { intros i o Hi. apply lookup_take_Some in Hi as [? ?]. by apply Hleaf. }
  destruct (IH (a + 2 ^ d)%nat (drop (2 ^ d) outs)) as (r & Hr & HPr).
  { rewrite length_drop. lia. }
  { intros i o Hi. rewrite lookup_drop in Hi. rewrite <- Nat.add_assoc. by apply Hleaf. }
  cbn [tree_reduce]. rewrite Hl. cbn [mbind option_bind]. rewrite Hr. by apply Hstep.
Qed.

Section AssertFacts.
Context `{CircuitBuilderLaws}.

Lemma assert_is_equal_Some {A} `{EqDecision A} (a b : A) u :
  assert_is_equal a b = Some u ↔ a = b.
Proof. rewrite assert_is_equal_spec. destruct u. case_decide; naive_solver. Qed.

Lemma assert_is_equal_refl {A} `{EqDecision A} (a : A) :
  assert_is_equal a a = Some ().
Proof. by apply assert_is_equal_Some. Qed.

(** An assertion that a boolean holds, followed by the rest of the circuit. *)
Lemma assert_true_bind {A} (b : bool) (k : option A) r :
  (_ ← assert_is_equal b true; k) = Some r ↔ b = true ∧ k = Some r.
Proof. rewrite assert_is_equal_spec. destruct b; simpl; naive_solver. Qed.

Lemma order_gt_u32 : 2 ^ 32 < order.
Proof. pose proof order_large. lia. Qed.

Lemma add_small a b : 0 ≤ a → 0 ≤ b → a + b < order → add a b = a + b.
Proof. intros. rewrite add_spec. apply Z.mod_small. lia. Qed.
End AssertFacts.
