(* ===== verification/Reference.v ===== *)
(** * A concrete instance of the library interfaces

    Evaluates the witnesses of the theorems that quantify over the libraries:
    a toy digest and a toy signature scheme, and a builder that computes exactly
    what the laws of [CircuitBuilder] promise.  Nothing else uses it. *)

From S2P Require Import Prelude Consts Vars Builder.

Module Ref.

(** A 24-bit polynomial checksum, cheap to evaluate, padded to 32 bytes. *)
Definition digest (salt : Z) (m : bytes) : Bytes32 :=
  le_encode 3 (foldl (λ acc b, Z.land (acc * 31 + b + 1) 16777215) salt m)
    ++ replicate 29 0.

#[export] Instance hashing : Hashing := {
  Sha256 := digest 7;
  blake2_256 := digest 11;
  ed25519_valid_key pk := bool_decide (length pk = 32%nat);
  (* A signature repeats the digest of key and message, then 32 zero bytes. *)
  ed25519_verify pk m s := bool_decide (s = digest 13 (pk ++ m) ++ replicate 32 0);
}.

#[export] Instance hashing_laws : HashingLaws.
Proof. by split; intros; unfold Sha256, blake2_256, hashing, digest; rewrite length_app, length_le_encode. Qed.

(** The signature of a message under a key. *)
Definition sign (pk : Bytes32) (m : bytes) : EDDSASignature :=
  {| sig_r := digest 13 (pk ++ m); sig_s := 0 |}.

Lemma sign_verifies pk m : ed25519_verify pk m (signature_bytes (sign pk m)) = true.
Proof. apply bool_decide_eq_true_2. done. Qed.

(** Signing one message under every key of a list. *)
Lemma sign_all_verifies keys m i s pk :
  map (λ pk, sign pk m) keys !! i = Some s → keys !! i = Some pk →
  ed25519_verify pk m (signature_bytes s) = true.
Proof.
  intros Hs Hpk. rewrite list_lookup_fmap, Hpk in Hs.
  injection Hs as <-. apply sign_verifies.
Qed.

(** The order of the Goldilocks field. *)
Definition goldilocks : Z := 2 ^ 64 - 2 ^ 32 + 1.

Definition slot_ok (lens : list U32) (messages : list bytes)
    (sigs : list EDDSASignature) (pks : list Bytes32) (i : nat) (a : bool) : bool :=
  match a, lens !! i, messages !! i, sigs !! i, pks !! i with
  | true, Some len, Some m, Some s, Some pk =>
      ed25519_verify pk (take (Z.to_nat len) m) (signature_bytes s)
  | _, _, _, _, _ => true
  end.

Definition verify_sigs (active : list bool) (lens : option (list U32))
    (messages : list bytes) (sigs : list EDDSASignature) (pks : list Bytes32) : option unit :=
  let lens := default (map (λ m, Z.of_nat (length m)) messages) lens in
  if decide (Forall (eq true) (imap (slot_ok lens messages sigs pks) active)) then Some () else None.

#[export] Instance builder : CircuitBuilder := {
  order := goldilocks;
  is_equal A _ a b := bool_decide (a = b);
  is_zero v := bool_decide (v = 0);
  b_and := andb;
  b_or := orb;
  b_not := negb;
  select A c a b := if c then a else b;
  assert_is_equal A _ a b := if decide (a = b) then Some () else None;
  add a b := (a + b) mod goldilocks;
  le_sum := bits_value;
  as_bool_targets b := reverse (bits_of 8 b);
  to_variable b := b;
  select_array_random_gate A l i := l !! Z.to_nat i;
  get_fixed_subarray n l start _ :=
    if decide (start + Z.of_nat n ≤ Z.of_nat (length l))
    then Some (l.[Z.to_nat start to Z.to_nat start + n]) else None;
  U32_from_variables v := if decide (is_u32 v) then Some v else None;
  U32_decode := be_decode;
  U64_decode := be_decode;
  U32_add a b := (a + b) mod 2 ^ 32;
  U32_sub a b := (a - b) mod 2 ^ 32;
  U32_mul a b := (a * b) mod 2 ^ 32;
  U32_lt a b := bool_decide (a < b);
  U32_gt a b := bool_decide (b < a);
  curta_sha256 := Sha256;
  sha256 := Sha256;
  curta_blake2b_variable m n :=
    if decide (n ≤ Z.of_nat (length m)) then Some (blake2_256 (take (Z.to_nat n) m))
    else None;
  curta_eddsa_verify_sigs_conditional := verify_sigs;
  get_root_from_hashed_leaves leaves n :=
    merkle_root (Nat.log2 (length leaves)) (enable_leaves (Z.to_nat n) leaves);
  mapreduce Ctx I O B ctx inputs map reduce :=
    outs ← mapM (map ctx) (chunks B inputs);
    tree_reduce (reduce ctx) (Nat.log2 (length outs)) outs;
}.

Lemma verify_sigs_ok active lens messages sigs pks :
  verify_sigs active (Some lens) messages sigs pks = Some ()
  ↔ signatures_ok active lens messages sigs pks.
Proof.
  unfold verify_sigs, signatures_ok. cbn [default from_option].
  transitivity (Forall (eq true) (imap (slot_ok lens messages sigs pks) active)).
  { case_decide; naive_solver. }
  rewrite Forall_lookup. setoid_rewrite list_lookup_imap. unfold slot_ok. split.
  - intros Hall i len m s pk Ha Hl Hm Hs Hp.
    specialize (Hall i). rewrite Ha, Hl, Hm, Hs, Hp in Hall. symmetry. by apply Hall.
  - intros Hall i b Hb. destruct (active !! i) as [[]|] eqn:Ha; [|naive_solver..].
    simpl in Hb. simplify_eq. repeat case_match; try done. symmetry. by eapply Hall.
Qed.

Lemma mapreduce_ok {Ctx I O} B d (ctx : Ctx) (inputs : list I)
    (map : Ctx → list I → option O) (reduce : Ctx → O → O → option O) :
  (0 < B)%nat → length inputs = (2 ^ d * B)%nat →
  mapreduce B ctx inputs map reduce
  = (outs ← mapM (map ctx) (chunks B inputs); tree_reduce (reduce ctx) d outs).
Proof.
  intros HB Hlen. unfold mapreduce, builder.
  destruct (mapM _ _) as [outs|] eqn:E; [|done]. cbn [mbind option_bind].
  apply length_mapM in E. rewrite (length_chunks (2 ^ d)) in E by done.
  by rewrite <- E, Nat.log2_pow2 by lia.
Qed.

#[export] Instance builder_laws : CircuitBuilderLaws.
Proof.
  split; intros; try reflexivity.
  - unfold get_fixed_subarray, builder. by rewrite decide_True by lia.
  - apply Z.mod_small. lia.
  - apply Z.mod_small. lia.
  - unfold curta_blake2b_variable, builder. by rewrite decide_True by lia.
  - apply verify_sigs_ok.
  - unfold get_root_from_hashed_leaves, builder. by rewrite H, Nat.log2_pow2 by lia.
  - apply mapreduce_ok; done.
Qed.

End Ref.
