(* ===== verification/Decoder.v ===== *)
(** * SCALE decoding in the circuit: circuits/builder/decoder.rs, header.rs *)

From S2P Require Import Prelude Consts Vars Builder Reference.

(** ** The operations of [DecodingMethods] and [HeaderMethods] *)
Section Operations.
Context `{CircuitBuilder}.

Definition decode_compact_int (compact_bytes : bytes) : option (U32 * Felt) :=
  (* LE bits within each byte, flattened. *)
  let bool_targets := concat (map (λ x, reverse (as_bool_targets x)) compact_bytes) in
  let compress_mode := le_sum bool_targets.[0 to 2] in
  let zero_mode_value := le_sum bool_targets.[2 to 8] in
  let one_mode_value := le_sum bool_targets.[2 to 16] in
  let two_mode_value := le_sum bool_targets.[2 to 32] in
  let three_mode_value := le_sum bool_targets.[8 to 40] in
  value ← select_array_random_gate
    [zero_mode_value; one_mode_value; two_mode_value; three_mode_value] compress_mode;
  let is_mode_three := is_equal compress_mode 3 in
  let encoded_byte_length := le_sum bool_targets.[2 to 8] in
  let is_encoded_length_zero := is_equal encoded_byte_length 0 in
  let is_valid_encoded_length_check := b_and is_mode_three is_encoded_length_zero in
  _ ← assert_is_equal is_mode_three is_valid_encoded_length_check;
  Some (value, compress_mode).

Definition get_compact_int_byte_length (compress_mode : Felt) : option Felt :=
  select_array_random_gate [1; 2; 4; 5] compress_mode.

Definition decode_header (header : EncodedHeader) (header_hash : Bytes32) : option Header :=
  let hb := header_bytes header in
  let parent_hash := hb.[0 to HASH_SIZE] in
  let block_number_bytes := hb.[HASH_SIZE to HASH_SIZE + MAX_COMPACT_UINT_BYTES] in
  '(block_number, compress_mode) ← decode_compact_int block_number_bytes;
  let all_possible_state_roots :=
    [hb.[33 to 33 + HASH_SIZE]; hb.[34 to 34 + HASH_SIZE];
     hb.[36 to 36 + HASH_SIZE]; hb.[37 to 37 + HASH_SIZE]] in
  state_root ← select_array_random_gate all_possible_state_roots compress_mode;
  let data_root_start := U32_sub (header_size header) DATA_ROOT_OFFSET_FROM_END in
  (* A header of size 0 has its data root read at 0. *)
  let header_is_zero_size := is_zero (header_size header) in
  let data_root_start := select header_is_zero_size 0 data_root_start in
  data_root ← get_fixed_subarray HASH_SIZE hb data_root_start header_hash;
  Some {| block_number := block_number; parent_hash := parent_hash;
          state_root := state_root; data_root := data_root |}.

Definition decode_precommit (precommit : bytes) : option Precommit :=
  (* The first byte is the message type, Precommit. *)
  let precommit_first_byte := to_variable (precommit !!! 0%nat) in
  _ ← assert_is_equal precommit_first_byte 1;
  let block_hash := precommit.[1 to 33] in
  let block_number_bytes := reverse precommit.[33 to 37] in
  let justification_round_bytes := reverse precommit.[37 to 45] in
  let authority_set_id_bytes := reverse precommit.[45 to 53] in
  Some {| pc_block_hash := block_hash;
          pc_block_number := U32_decode block_number_bytes;
          pc_justification_round := U64_decode justification_round_bytes;
          pc_authority_set_id := U64_decode authority_set_id_bytes |}.

Definition hash_encoded_header (header : EncodedHeader) : option Bytes32 :=
  curta_blake2b_variable (header_bytes header) (header_size header).
End Operations.

(** ** The formats *)

(** SCALE's compact integers, https://docs.substrate.io/reference/scale-codec. *)
Module Scale.
Definition compact_mode (n : U32) : Felt :=
  if decide (n < 2 ^ 6) then 0 else
  if decide (n < 2 ^ 14) then 1 else
  if decide (n < 2 ^ 30) then 2 else 3.

Definition compact_encode (n : U32) : bytes :=
  if decide (n < 2 ^ 6) then le_encode 1 (4 * n) else
  if decide (n < 2 ^ 14) then le_encode 2 (4 * n + 1) else
  if decide (n < 2 ^ 30) then le_encode 4 (4 * n + 2) else
  3 :: le_encode 4 n.
End Scale.

(** The number that the five bytes of a compact integer hold, by mode. *)
Definition compact_payload (mode N : Z) : Z :=
  match mode with
  | 0 => (N / 2 ^ 2) mod 2 ^ 6
  | 1 => (N / 2 ^ 2) mod 2 ^ 14
  | 2 => (N / 2 ^ 2) mod 2 ^ 30
  | _ => (N / 2 ^ 8) mod 2 ^ 32
  end.

(** The message that GRANDPA voters sign. *)
Definition encode_precommit (p : Precommit) : bytes :=
  1 :: pc_block_hash p ++ le_encode 4 (pc_block_number p)
    ++ le_encode 8 (pc_justification_round p) ++ le_encode 8 (pc_authority_set_id p).

Record precommit_ok (p : Precommit) : Prop := {
  ok_block_hash : length (pc_block_hash p) = HASH_SIZE;
  ok_block_hash_u8 : Forall is_u8 (pc_block_hash p);
  ok_block_number : is_u32 (pc_block_number p);
  ok_round : is_u64 (pc_justification_round p);
  ok_set_id : is_u64 (pc_authority_set_id p);
}.

(** ** Helper lemmas *)

Lemma compact_mode_range n : 0 ≤ Scale.compact_mode n < 4.
Proof. unfold Scale.compact_mode. repeat case_decide; lia. Qed.

Lemma length_compact_encode n :
  (1 ≤ length (Scale.compact_encode n) ≤ MAX_COMPACT_UINT_BYTES)%nat.
Proof.
  unfold Scale.compact_encode. consts.
  repeat case_decide; cbn [length]; rewrite ?length_le_encode; lia.
Qed.

Lemma compact_encode_u8 n : Forall is_u8 (Scale.compact_encode n).
Proof.
  unfold Scale.compact_encode.
  repeat case_decide; auto with vectorx. constructor; auto with vectorx. done.
Qed.

(** Padding an encoding to five bytes does not change the number it holds. *)
Lemma le_decode_pad k n j :
  0 ≤ n < 2 ^ (8 * Z.of_nat k) → le_decode (le_encode k n ++ replicate j 0) = n.
Proof.
  intros. rewrite le_decode_app, le_decode_zeros, le_decode_encode.
  rewrite Z.mod_small by done. lia.
Qed.

Section Laws.
Context `{CircuitBuilderLaws}.

Lemma bool_targets_bits bs :
  Forall is_u8 bs →
  concat (map (λ x, reverse (as_bool_targets x)) bs)
  = bits_of (8 * length bs) (le_decode bs).
Proof.
  induction 1 as [|b bs Hb _ IH]; [done|].
  cbn [map concat le_decode length]. rewrite IH, as_bool_targets_spec by done.
  rewrite reverse_involutive.
  replace (8 * S (length bs))%nat with (8 + 8 * length bs)%nat by lia.
  unfold is_u8 in Hb. rewrite bits_of_app. f_equal.
  - rewrite <- (bits_of_mod 8 (b + _) 8) by lia. f_equal.
    rewrite (Z.mul_comm (2 ^ 8)), Z.mod_add, Z.mod_small by lia. done.
  - f_equal. change (Z.of_nat 8) with 8.
    rewrite (Z.mul_comm (2 ^ 8)), Z.div_add, Z.div_small by lia. lia.
Qed.

(** Every window of bits that the decoder sums. *)
Lemma le_sum_window w n a b :
  (a ≤ b ≤ w)%nat → (b - a ≤ 40)%nat →
  le_sum (bits_of w n).[a to b] = (n / 2 ^ Z.of_nat a) mod 2 ^ Z.of_nat (b - a).
Proof.
  intros Hab Hlen. rewrite le_sum_spec, bits_value_slice by
    (rewrite ?length_slice; rewrite ?length_bits_of; lia).
  done.
Qed.

(** What [decode_compact_int] computes, on every input: the mode is the two
    low bits, the payload is taken by mode, and the circuit is unsatisfiable
    exactly when a mode-3 prefix announces more than four bytes. *)
Lemma decode_compact_int_run bs :
  Forall is_u8 bs → length bs = MAX_COMPACT_UINT_BYTES →
  decode_compact_int bs =
    let N := le_decode bs in
    let mode := N mod 4 in
    if decide (mode = 3 ∧ (N / 4) mod 64 ≠ 0) then None
    else Some (compact_payload mode N, mode).
Proof.
  intros Hbs Hlen. unfold decode_compact_int.
  rewrite bool_targets_bits, Hlen by done. cbv zeta.
  set (N := le_decode bs). consts.
  rewrite !le_sum_window by lia.
  cbn [Nat.sub Nat.mul Nat.add Z.of_nat]. change (2 ^ Z.of_nat 2) with 4.
  change (N / 2 ^ 0) with (N / 1). rewrite Z.div_1_r.
  assert (0 ≤ N mod 4 < 4) as Hm by (apply Z.mod_pos_bound; lia).
  rewrite select_array_spec by (cbn [length]; lia).
  circuit. assert (N mod 4 = 0 ∨ N mod 4 = 1 ∨ N mod 4 = 2 ∨ N mod 4 = 3)
    as [E|[E|[E|E]]] by lia; rewrite E.
  all: rewrite assert_is_equal_spec, (bool_decide_decide (_ = 3)).
  1-3: rewrite (decide_False (P := _ = 3)) by lia;
    rewrite (decide_False (P := _ ∧ _)) by lia; reflexivity.
  rewrite (decide_True (P := 3 = 3)) by done. cbn [andb].
  change (2 ^ Z.of_nat 6) with 64.
  destruct (decide ((N / 4) mod 64 = 0)) as [E0|E0].
  - rewrite (bool_decide_eq_true_2 _ E0), (decide_False (P := _ ∧ _)) by naive_solver.
    reflexivity.
  - rewrite (bool_decide_eq_false_2 _ E0), (decide_True (P := _ ∧ _)) by done.
    reflexivity.
Qed.

Lemma get_compact_int_byte_length_run mode :
  0 ≤ mode < 4 →
  get_compact_int_byte_length mode = [1; 2; 4; 5] !! Z.to_nat mode.
Proof. intros. apply select_array_spec. cbn [length]. lia. Qed.

(** Decoding reads a compact integer off the front of any bytes. *)
Lemma decode_compact_int_prefix n t :
  is_u32 n → Forall is_u8 t →
  length (Scale.compact_encode n ++ t) = MAX_COMPACT_UINT_BYTES →
  decode_compact_int (Scale.compact_encode n ++ t) = Some (n, Scale.compact_mode n).
Proof.
  intros Hn Ht Hlen. rewrite decode_compact_int_run by
    (try apply Forall_app_2; auto using compact_encode_u8).
  cbv zeta. rewrite le_decode_app. unfold is_u32 in Hn.
  pose proof (le_decode_bound t Ht) as [HT _]. clear Hlen Ht.
  generalize dependent (le_decode t); intros T HT.
  unfold Scale.compact_encode, Scale.compact_mode.
  destruct (decide (n < 2 ^ 6)); [|destruct (decide (n < 2 ^ 14));
    [|destruct (decide (n < 2 ^ 30))]].
  all: cbn [le_decode length]; rewrite ?le_decode_encode, ?length_le_encode.
  all: cbn [Z.of_nat Pos.of_succ_nat Pos.succ].
  all: rewrite ?(Z.mod_small _ (2 ^ (8 * _))) by lia.
  all: match goal with |- context [decide (?N mod 4 = 3 ∧ _)] =>
    match goal with |- _ = Some (_, ?k) =>
      replace (N mod 4) with k by zarith
    end end.
  all: rewrite decide_False by zarith; cbn [compact_payload]; do 2 f_equal; zarith.
Qed.

Lemma get_compact_int_byte_length_encode n :
  get_compact_int_byte_length (Scale.compact_mode n)
  = Some (Z.of_nat (length (Scale.compact_encode n))).
Proof.
  rewrite get_compact_int_byte_length_run by apply compact_mode_range.
  unfold Scale.compact_mode, Scale.compact_encode. by repeat case_decide.
Qed.
End Laws.

(** ** Headers *)

(** An encoded Avail header followed by the padding of its array: parent hash,
    compact block number, state root, the rest of the body, and the data root in
    the last 32 bytes. *)
Record header_layout (h : EncodedHeader) (f : Header) (body padding : bytes) : Prop := {
  layout_bytes : header_bytes h =
    parent_hash f ++ Scale.compact_encode (block_number f) ++ state_root f
      ++ body ++ data_root f ++ padding;
  layout_size : header_size h =
    Z.of_nat (length (header_bytes h)) - Z.of_nat (length padding);
  layout_size_u32 : is_u32 (header_size h);
  layout_u8 : Forall is_u8 (header_bytes h);
  layout_number : is_u32 (block_number f);
  layout_parent : length (parent_hash f) = HASH_SIZE;
  layout_state_root : length (state_root f) = HASH_SIZE;
  layout_data_root : length (data_root f) = HASH_SIZE;
}.

Section Headers.
Context `{CircuitBuilderLaws}.

(** The candidate state roots are listed by the length of the block number. *)
Lemma state_root_candidates (hb : bytes) n :
  [hb.[33 to 33 + HASH_SIZE]; hb.[34 to 34 + HASH_SIZE];
   hb.[36 to 36 + HASH_SIZE]; hb.[37 to 37 + HASH_SIZE]]
    !! Z.to_nat (Scale.compact_mode n)
  = Some (let k := (HASH_SIZE + length (Scale.compact_encode n))%nat in
          hb.[k to k + HASH_SIZE]).
Proof. unfold Scale.compact_mode, Scale.compact_encode. by repeat case_decide. Qed.

Lemma decode_header_layout h f body padding hash :
  header_layout h f body padding → decode_header h hash = Some f.
Proof.
  intros [Hb Hsize Hu32 Hu8 Hn Hp Hs Hd]. unfold decode_header.
  pose proof (length_compact_encode (block_number f)) as Hk.
  set (enc := Scale.compact_encode (block_number f)) in *.
  assert (Z.of_nat (length (header_bytes h)) = 96 + Z.of_nat (length enc)
    + Z.of_nat (length body) + Z.of_nat (length padding)) as Hlen.
  { rewrite Hb, !length_app, Hp, Hs, Hd. consts. lia. }
  set (rest := state_root f ++ body ++ data_root f ++ padding) in *.
  assert ((header_bytes h).[HASH_SIZE to HASH_SIZE + MAX_COMPACT_UINT_BYTES]
    = enc ++ take (MAX_COMPACT_UINT_BYTES - length enc) rest) as ->.
  { rewrite Hb. unfold slice. rewrite <- Hp, drop_app_length.
    rewrite take_app_ge by lia. f_equal. f_equal. lia. }
  unfold enc at 1. rewrite decode_compact_int_prefix; [|done| |]; fold enc.
  2: { apply Forall_take. rewrite Hb in Hu8. by apply Forall_app in Hu8 as [_ [_ ?]%Forall_app]. }
  2: { rewrite length_app, length_take. unfold rest. rewrite length_app, Hs. consts. lia. }
  cbn [mbind option_bind].
  rewrite select_array_spec by (pose proof (compact_mode_range (block_number f)); cbn [length]; lia).
  rewrite state_root_candidates. fold enc. cbn [mbind option_bind]. cbv zeta.
  circuit. unfold DATA_ROOT_OFFSET_FROM_END.
  rewrite bool_decide_eq_false_2 by lia.
  unfold is_u32 in Hu32. rewrite U32_sub_spec by lia.
  rewrite get_fixed_subarray_spec by (consts; lia).
  cbn [mbind option_bind]. f_equal. destruct f as [n ph sr dr]; simpl in *. f_equal.
  - rewrite Hb. unfold slice. rewrite drop_0, <- Hp, Nat.sub_0_r, take_app_length. done.
  - rewrite Hb, app_assoc. unfold rest. apply slice_at; rewrite length_app, Hp; [done|].
    by rewrite Hs.
  - rewrite Hb. unfold rest. rewrite !(app_assoc _ _ (dr ++ padding)), !app_assoc.
    rewrite <- app_assoc. apply slice_at.
    all: rewrite !length_app, ?Hp, ?Hs, ?Hd; consts; lia.
Qed.
End Headers.

(** ** Precommit messages *)
Section Precommits.
Context `{CircuitBuilderLaws}.

Lemma U32_decode_reverse bs :
  Forall is_u8 bs → length bs = 4%nat → U32_decode (reverse bs) = le_decode bs.
Proof.
  intros. rewrite U32_decode_spec by (rewrite ?length_reverse; by try apply Forall_reverse).
  unfold be_decode. by rewrite reverse_involutive.
Qed.

Lemma U64_decode_reverse bs :
  Forall is_u8 bs → length bs = 8%nat → U64_decode (reverse bs) = le_decode bs.
Proof.
  intros. rewrite U64_decode_spec by (rewrite ?length_reverse; by try apply Forall_reverse).
  unfold be_decode. by rewrite reverse_involutive.
Qed.

(** What [decode_precommit] computes on the bytes of a message. *)
Lemma decode_precommit_run bs :
  Forall is_u8 bs → length bs = ENCODED_PRECOMMIT_LENGTH →
  decode_precommit bs =
    if decide (bs !!! 0%nat = 1) then
      Some {| pc_block_hash := bs.[1 to 33];
              pc_block_number := le_decode bs.[33 to 37];
              pc_justification_round := le_decode bs.[37 to 45];
              pc_authority_set_id := le_decode bs.[45 to 53] |}
    else None.
Proof.
  unfold ENCODED_PRECOMMIT_LENGTH. intros Hbs Hlen. unfold decode_precommit.
  rewrite to_variable_spec by (apply Forall_lookup_total_1; [done|lia]).
  rewrite assert_is_equal_spec. case_decide; [|done]. cbn [mbind option_bind].
  rewrite U32_decode_reverse, !U64_decode_reverse by
    (auto with vectorx; rewrite length_slice; lia).
  done.
Qed.

Lemma le_decode_slice bs a b k :
  Forall is_u8 bs → (a ≤ b)%nat → (b ≤ length bs)%nat → (b - a)%nat = k →
  0 ≤ le_decode bs.[a to b] < 2 ^ (8 * Z.of_nat k)
  ∧ le_encode k (le_decode bs.[a to b]) = bs.[a to b].
Proof.
  intros Hbs Ha Hb <-. rewrite <- (length_slice bs a b) at 1 2 by lia.
  split; [apply le_decode_bound|apply le_encode_decode]; auto with vectorx.
Qed.
End Precommits.

Lemma encode_precommit_fields p :
  length (pc_block_hash p) = HASH_SIZE →
  (encode_precommit p).[1 to 33] = pc_block_hash p
  ∧ (encode_precommit p).[33 to 37] = le_encode 4 (pc_block_number p)
  ∧ (encode_precommit p).[37 to 45] = le_encode 8 (pc_justification_round p)
  ∧ (encode_precommit p).[45 to 53] = le_encode 8 (pc_authority_set_id p).
Proof.
  unfold HASH_SIZE. intros Hh. unfold encode_precommit. repeat split.
  - apply (slice_at [1]); simpl; lia.
  - rewrite app_comm_cons. apply slice_at; simpl; rewrite ?length_le_encode; lia.
  - rewrite app_comm_cons, app_assoc.
    apply slice_at; simpl; rewrite ?length_app, ?length_le_encode; lia.
  - rewrite app_comm_cons, !app_assoc, <- (app_nil_r (_ ++ le_encode 8 (pc_authority_set_id p))).
    rewrite <- app_assoc. apply slice_at; simpl; rewrite ?length_app, ?length_le_encode; lia.
Qed.

Lemma encode_precommit_hash_length p :
  length (encode_precommit p) = ENCODED_PRECOMMIT_LENGTH → length (pc_block_hash p) = HASH_SIZE.
Proof.
  unfold encode_precommit, ENCODED_PRECOMMIT_LENGTH, HASH_SIZE. cbn [length].
  rewrite !length_app, !length_le_encode. lia.
Qed.

Lemma length_encode_precommit p :
  length (pc_block_hash p) = HASH_SIZE → length (encode_precommit p) = ENCODED_PRECOMMIT_LENGTH.
Proof.
  unfold encode_precommit, ENCODED_PRECOMMIT_LENGTH, HASH_SIZE. cbn [length].
  rewrite !length_app, !length_le_encode. lia.
Qed.

Lemma encode_precommit_u8 p :
  Forall is_u8 (pc_block_hash p) → Forall is_u8 (encode_precommit p).
Proof.
  intros. unfold encode_precommit. constructor; [done|].
  repeat apply Forall_app_2; auto with vectorx.
Qed.

Lemma decode_precommit_correct `{CircuitBuilderLaws} bs p :
  Forall is_u8 bs → length bs = ENCODED_PRECOMMIT_LENGTH →
  decode_precommit bs = Some p ↔ precommit_ok p ∧ bs = encode_precommit p.
Proof.
  intros Hbs Hlen. rewrite decode_precommit_run by done.
  unfold ENCODED_PRECOMMIT_LENGTH in Hlen.
  destruct (le_decode_slice bs 33 37 4) as [Hn En]; [done|lia..|].
  destruct (le_decode_slice bs 37 45 8) as [Hr Er]; [done|lia..|].
  destruct (le_decode_slice bs 45 53 8) as [Hi Ei]; [done|lia..|]. split.
  - case_decide as H1'; [|done]. intros [= <-]. split.
    + split; cbn [pc_block_hash pc_block_number pc_justification_round pc_authority_set_id];
        auto with vectorx. rewrite length_slice by lia. done.
    + unfold encode_precommit.
      cbn [pc_block_hash pc_block_number pc_justification_round pc_authority_set_id].
      rewrite En, Er, Ei, <- !slice_split, <- H1' by lia.
      rewrite <- (slice_full bs 53) at 1 by done.
      rewrite (slice_split bs 0 1 53), slice_head by lia. done.
  - intros [[Hh _ Hnum Hround Hid] ->]. clear Hn En Hr Er Hi Ei.
    unfold is_u32, is_u64 in *. rewrite decide_True by done.
    destruct (encode_precommit_fields p Hh) as (-> & -> & -> & ->).
    rewrite !le_decode_encode, !Z.mod_small by lia. by destruct p.
Qed.

(** ** Properties *)
Section Properties.
Context `{CircuitBuilderLaws}.

(** [decode_compact_int] on every five bytes.  The mode is the two low
    bits of the first byte, the value is the payload of that mode, and the
    circuit has no proof exactly when a mode-3 prefix announces a payload of
    more than four bytes. *)
Theorem decode_compact_int_spec bs :
  Forall is_u8 bs → length bs = MAX_COMPACT_UINT_BYTES →
  decode_compact_int bs =
    let N := le_decode bs in
    let mode := N mod 4 in
    if decide (mode = 3 ∧ (N / 4) mod 64 ≠ 0) then None
    else Some (compact_payload mode N, mode).
Proof. apply decode_compact_int_run. Qed.

(** The decoder inverts SCALE's compact encoding of every [u32], whatever
    bytes follow the encoding, and the byte length computed from the decoded
    mode is the length of the encoding. *)
Theorem compact_int_roundtrip n t :
  is_u32 n → Forall is_u8 t →
  length (Scale.compact_encode n ++ t) = MAX_COMPACT_UINT_BYTES →
  ∃ mode, decode_compact_int (Scale.compact_encode n ++ t) = Some (n, mode)
    ∧ get_compact_int_byte_length mode
      = Some (Z.of_nat (length (Scale.compact_encode n))).
Proof.
  intros. exists (Scale.compact_mode n).
  split; [by apply decode_compact_int_prefix|apply get_compact_int_byte_length_encode].
Qed.

(** C35: decoding an encoded header, padded to the size of its array, gives
    back its parent hash, block number, state root and data root, for every
    length of the compact block number and of the body. *)
Theorem decode_header_roundtrip h f body padding hash :
  header_layout h f body padding → decode_header h hash = Some f.
Proof. apply decode_header_layout. Qed.

(** A 53-byte message decodes to [p] exactly when it is the encoding of
    the precommit [p]: the message type is checked and no two messages decode
    to the same precommit. *)
Theorem decode_precommit_iff bs p :
  Forall is_u8 bs → length bs = ENCODED_PRECOMMIT_LENGTH →
  decode_precommit bs = Some p ↔ precommit_ok p ∧ bs = encode_precommit p.
Proof. apply decode_precommit_correct. Qed.
End Properties.

(** ** Witnesses *)
Import Ref.

Lemma decode_compact_int_spec_witness :
  decode_compact_int [2; 0; 1; 0; 0] = Some (16384, 2)
  ∧ decode_compact_int [7; 0; 0; 0; 64] = None.
Proof. split; (rewrite decode_compact_int_spec; [vm_compute; done|by_decide|done]). Defined.

Lemma compact_int_roundtrip_witness :
  ∃ mode, decode_compact_int (Scale.compact_encode 16383 ++ [9; 9; 9]) = Some (16383, mode)
    ∧ get_compact_int_byte_length mode = Some 2.
Proof. apply (compact_int_roundtrip 16383 [9; 9; 9]); [by_decide|by_decide|done]. Defined.

(** A header of 140 bytes in an array of 150. *)
Definition sample_fields : Header := {|
  block_number := 300; parent_hash := replicate 32 1;
  state_root := replicate 32 2; data_root := replicate 32 4 |}.
Definition sample_header : EncodedHeader := {|
  header_bytes := replicate 32 1 ++ Scale.compact_encode 300 ++ replicate 32 2
    ++ replicate 42 3 ++ replicate 32 4 ++ replicate 10 0;
  header_size := 140 |}.

Lemma decode_header_roundtrip_witness :
  decode_header sample_header [] = Some sample_fields.
Proof.
  apply (decode_header_roundtrip _ _ (replicate 42 3) (replicate 10 0)).
  split; by_decide.
Defined.

(** The message of test_decode_precommit. *)
Definition sample_precommit : bytes :=
  [1; 38; 27; 45; 113; 196; 242; 16; 36; 228; 137; 117; 93; 79; 157; 136; 222; 239; 71;
   241; 37; 152; 13; 194; 159; 190; 169; 38; 234; 124; 89; 223; 233; 161; 217; 4; 0; 75;
   58; 0; 0; 0; 0; 0; 0; 42; 1; 0; 0; 0; 0; 0; 0].

Lemma decode_precommit_iff_witness :
  decode_precommit sample_precommit =
    Some {| pc_block_hash := sample_precommit.[1 to 33]; pc_block_number := 317857;
            pc_justification_round := 14923; pc_authority_set_id := 298 |}.
Proof.
  apply decode_precommit_iff; [by_decide|done|].
  split; [split; by_decide|vm_compute; reflexivity].
Defined.
