(* ===== verification/Offchain.v ===== *)
(** * Pure helpers of the off-chain code: circuits/input/mod.rs

    The functions of the data fetcher that neither the chain nor Redis takes part
    in: signature checks, the authority set hash, and the decoder of precommit
    messages. *)

From S2P Require Import Prelude Consts Vars Builder Reference Decoder.

(** ** Operations *)
Section Operations.
Context `{Hashing}.

Definition verify_signature (pubkey_bytes signed_message signature : bytes) : outcome unit :=
  _ ← assert (ed25519_valid_key pubkey_bytes) "called `Result::unwrap()` on an `Err` value";
  let verified := ed25519_verify pubkey_bytes signed_message signature in
  if negb verified then Panic "Signature is not valid" else Ret ().

(** The chained hash of the authority set. *)
Definition compute_authority_set_hash (authorities : list Bytes32) : bytes :=
  foldl (λ hash_so_far authority, Sha256 (hash_so_far ++ authority)) [] authorities.
End Operations.

Module Input.
(** [input::decode_precommit]. *)
Definition decode_precommit (precommit : bytes) : outcome (Bytes32 * U32 * U64 * U64) :=
  first ← expect (precommit !! 0%nat) "index out of bounds";
  _ ← assert (bool_decide (first = 1)) "assertion failed";
  block_hash ← slice_checked precommit 1 33;
  block_number ← slice_checked precommit 33 37;
  let block_number := le_decode block_number in
  round ← slice_checked precommit 37 45;
  let round := le_decode round in
  authority_set_id ← slice_checked precommit 45 53;
  let authority_set_id := le_decode authority_set_id in
  Ret (block_hash, block_number, round, authority_set_id).
End Input.

(** The tuple that the off-chain decoder returns, for a decoded precommit. *)
Definition precommit_tuple (p : Precommit) : Bytes32 * U32 * U64 * U64 :=
  (pc_block_hash p, pc_block_number p, pc_justification_round p, pc_authority_set_id p).

(** ** Helper lemmas *)
Section Hashes.
Context `{Hashing}.

Lemma compute_authority_set_hash_snoc auths a :
  compute_authority_set_hash (auths ++ [a])
  = Sha256 (compute_authority_set_hash auths ++ a).
Proof. unfold compute_authority_set_hash. by rewrite foldl_app. Qed.

Lemma length_authority_set_hash `{!HashingLaws} auths :
  length (compute_authority_set_hash auths) = if decide (auths = []) then 0%nat else HASH_SIZE.
Proof.
  destruct auths as [|a auths _] using rev_ind; [done|].
  rewrite compute_authority_set_hash_snoc, length_Sha256.
  rewrite decide_False; [done|]. by destruct auths.
Qed.

(** The messages hashed for a prefix of [l] and for a prefix of [k] are two
    different messages with one digest. *)
Definition collision_within (l k : list Bytes32) : Prop :=
  ∃ l' a k' b,
    l' ++ [a] `prefix_of` l ∧ k' ++ [b] `prefix_of` k
    ∧ compute_authority_set_hash l' ++ a ≠ compute_authority_set_hash k' ++ b
    ∧ Sha256 (compute_authority_set_hash l' ++ a)
      = Sha256 (compute_authority_set_hash k' ++ b).

Lemma collision_within_snoc l a k b :
  collision_within l k → collision_within (l ++ [a]) (k ++ [b]).
Proof.
  intros (l' & x & k' & y & Hl & Hk & ?). exists l', x, k', y.
  split; [by apply prefix_app_r|]. split; [by apply prefix_app_r|done].
Qed.

(** Two authority sets with the same hash are equal, or a collision of SHA-256
    is at hand. *)
Lemma authority_set_hash_binding `{!HashingLaws} l k :
  Forall (λ a, length a = PUBKEY_LENGTH) l → Forall (λ a, length a = PUBKEY_LENGTH) k →
  compute_authority_set_hash l = compute_authority_set_hash k →
  l = k ∨ collision_within l k.
Proof.
  revert k; induction l as [|a l IH] using rev_ind; intros k Hl Hk E.
  { destruct k as [|b k _] using rev_ind; [by left|].
    apply (f_equal length) in E. rewrite !length_authority_set_hash in E.
    rewrite decide_True, decide_False in E by (done || by destruct k). done. }
  destruct k as [|b k _] using rev_ind.
  { apply (f_equal length) in E. rewrite !length_authority_set_hash in E.
    rewrite decide_False, decide_True in E by (done || by destruct l). done. }
  rewrite !compute_authority_set_hash_snoc in E.
  apply Forall_app in Hl as [Hl [Ha _]%Forall_cons].
  apply Forall_app in Hk as [Hk [Hb _]%Forall_cons].
  destruct (decide (compute_authority_set_hash l ++ a = compute_authority_set_hash k ++ b))
    as [E'|Hne]; [|right; exists l, a, k, b; auto].
  apply app_inj_2 in E' as [E' ->]; [|by rewrite Ha, Hb].
  destruct (IH k) as [->|]; auto using collision_within_snoc.
Qed.
End Hashes.

(** ** Properties *)

(** The decoder of the circuit and the decoder of the data fetcher agree on
    every 53-byte message: the circuit is unsatisfiable exactly when the fetcher
    panics, and otherwise both return the same four fields. *)
Theorem precommit_decoders_agree `{CircuitBuilderLaws} bs :
  Forall is_u8 bs → length bs = ENCODED_PRECOMMIT_LENGTH →
  Input.decode_precommit bs =
    match decode_precommit bs with
    | Some p => Ret (precommit_tuple p)
    | None => Panic "assertion failed"
    end.
Proof.
  intros Hbs Hlen. rewrite decode_precommit_run by done.
  unfold ENCODED_PRECOMMIT_LENGTH in Hlen. unfold Input.decode_precommit.
  destruct bs as [|b bs]; [done|]. cbn [lookup list_lookup expect mbind outcome_bind].
  cbn [lookup_total list_lookup_total]. unfold assert. rewrite bool_decide_decide.
  case_decide; [|done]. cbn [mbind outcome_bind]. unfold slice_checked.
  rewrite !decide_True by (rewrite Hlen; lia). done.
Qed.

(** The authority set hash commits to the authorities and their order: two
    lists of 32-byte public keys with the same hash are equal, unless they
    exhibit two different messages, hashed on the way for a prefix of one and a
    prefix of the other, with the same SHA-256 digest. *)
Theorem authority_set_hash_commits `{HashingLaws} l k :
  Forall (λ a, length a = PUBKEY_LENGTH) l → Forall (λ a, length a = PUBKEY_LENGTH) k →
  compute_authority_set_hash l = compute_authority_set_hash k →
  l = k ∨ collision_within l k.
Proof. apply authority_set_hash_binding. Qed.

(** ** Witnesses *)
Import Ref.

Lemma precommit_decoders_agree_witness :
  Input.decode_precommit sample_precommit
  = Ret (sample_precommit.[1 to 33], 317857, 14923, 298).
Proof. rewrite precommit_decoders_agree; [vm_compute; done|by_decide|done]. Defined.

Lemma authority_set_hash_commits_witness :
  let l := [replicate 32 1; replicate 32 2] in l = l ∨ collision_within l l.
Proof. apply authority_set_hash_commits; [by_decide|by_decide|done]. Defined.
