(* ===== verification/Justification.v ===== *)
(** * GRANDPA justifications in the circuit: circuits/builder/justification.rs

    [GrandpaJustificationVerifier]: the authority set commitment, the voting
    threshold and the verification of a simple justification.  A hint is an
    untrusted oracle, a function from the inputs the circuit writes to it. *)

From S2P Require Import Prelude Consts Vars Builder Reference Decoder Offchain.

(** ** Operations *)
Section Operations.
Context `{CircuitBuilder}.

(** The body of the loop of [compute_authority_set_commitment], on the pair of
    [authority_enabled] and [commitment_so_far]. *)
Definition commitment_step (num_active_authorities : Felt) (signers : list Bytes32)
    (s : bool * Bytes32) (i : nat) : bool * Bytes32 :=
  let '(authority_enabled, commitment_so_far) := s in
  let curr_idx := Z.of_nat i in
  let at_end := is_equal curr_idx num_active_authorities in
  let not_at_end := b_not at_end in
  let authority_enabled := b_and authority_enabled not_at_end in
  let input_to_hash := commitment_so_far ++ signers !!! i in
  let chained_hash := curta_sha256 input_to_hash in
  (authority_enabled, select authority_enabled chained_hash commitment_so_far).

Definition compute_authority_set_commitment (MAX_NUM_AUTHORITIES : nat)
    (num_active_authorities : Felt) (authority_set_signers : list Bytes32)
  : option Bytes32 :=
  let invalid_num_authorities := is_equal num_active_authorities 0 in
  _ ← assert_is_equal invalid_num_authorities false;
  let s := foldl (commitment_step num_active_authorities authority_set_signers)
    (true, curta_sha256 (authority_set_signers !!! 0%nat))
    (seq 1 (MAX_NUM_AUTHORITIES - 1)) in
  Some (snd s).

Definition count_signed (MAX_NUM_AUTHORITIES : nat) (validator_signed : list bool) : U32 :=
  foldl (λ num_signed i, U32_add num_signed (Z.b2z (validator_signed !!! i)))
    0 (seq 0 MAX_NUM_AUTHORITIES).

Definition verify_voting_threshold (MAX_NUM_AUTHORITIES : nat)
    (num_active_authorities : U32) (validator_signed : list bool)
    (threshold_numerator threshold_denominator : U32) : option unit :=
  let num_signed := count_signed MAX_NUM_AUTHORITIES validator_signed in
  let scaled_num_signed := U32_mul num_signed threshold_denominator in
  let scaled_threshold := U32_mul num_active_authorities threshold_numerator in
  let is_valid_num_signed := U32_gt scaled_num_signed scaled_threshold in
  assert_is_equal is_valid_num_signed true.

Definition verify_simple_justification (MAX_NUM_AUTHORITIES : nat)
    (hint : U32 → U64 → Justification)
    (block_number : U32) (block_hash : Bytes32)
    (authority_set_id : U64) (authority_set_hash : Bytes32) : option unit :=
  let justification := hint block_number authority_set_id in
  computed_authority_set_commitment ←
    compute_authority_set_commitment MAX_NUM_AUTHORITIES
      (num_authorities justification) (pubkeys justification);
  _ ← assert_is_equal authority_set_hash computed_authority_set_commitment;
  decoded_precommit ← decode_precommit (encoded_precommit justification);
  _ ← assert_is_equal (pc_block_number decoded_precommit) block_number;
  _ ← assert_is_equal (pc_authority_set_id decoded_precommit) authority_set_id;
  _ ← assert_is_equal (pc_block_hash decoded_precommit) block_hash;
  let message_byte_lengths :=
    replicate MAX_NUM_AUTHORITIES (Z.of_nat ENCODED_PRECOMMIT_LENGTH) in
  let messages := replicate MAX_NUM_AUTHORITIES (encoded_precommit justification) in
  _ ← curta_eddsa_verify_sigs_conditional (validator_signed justification)
    (Some message_byte_lengths) messages (signatures justification)
    (pubkeys justification);
  verify_voting_threshold MAX_NUM_AUTHORITIES (num_authorities justification)
    (validator_signed justification) 2 3.
End Operations.

(** ** What a justification proves *)

Definition count_true (l : list bool) : nat := length (filter (eq true) l).

(** The statement that [verify_simple_justification] checks about the hinted
    justification, on values. *)
Record justification_valid `{Hashing} (j : Justification) (block_number : U32)
    (block_hash : Bytes32) (authority_set_id : U64) (authority_set_hash : Bytes32) : Prop := {
  valid_nonempty : num_authorities j ≠ 0;
  valid_commitment : authority_set_hash =
    compute_authority_set_hash (take (Z.to_nat (num_authorities j)) (pubkeys j));
  valid_message : ∃ round, is_u64 round ∧ encoded_precommit j = encode_precommit
    {| pc_block_hash := block_hash; pc_block_number := block_number;
       pc_justification_round := round; pc_authority_set_id := authority_set_id |};
  valid_signatures : ∀ i s pk,
    validator_signed j !! i = Some true → signatures j !! i = Some s →
    pubkeys j !! i = Some pk →
    ed25519_verify pk (encoded_precommit j) (signature_bytes s) = true;
  (* The circuit computes the left side in a [u32]. *)
  valid_threshold :
    (2 * num_authorities j) mod 2 ^ 32 < 3 * Z.of_nat (count_true (validator_signed j));
}.

(** The threshold of [j] does not count the votes of its set: doubling its number
    of authorities leaves a [u32], or a slot past its authorities is marked as
    signed. *)
Definition miscounted (j : Justification) : Prop :=
  2 ^ 31 ≤ num_authorities j
  ∨ true ∈ drop (Z.to_nat (num_authorities j)) (validator_signed j).

#[export] Instance miscounted_dec j : Decision (miscounted j).
Proof. unfold miscounted. apply _. Defined.

(** The set of the first [n] authorities has a supermajority of valid signatures
    on [message]: more than two thirds of them signed it. *)
Definition supermajority_signed `{Hashing} (auths : list Bytes32) (message : bytes)
    (signed : list bool) (sigs : list EDDSASignature) : Prop :=
  2 * Z.of_nat (length auths) < 3 * Z.of_nat (count_true (take (length auths) signed))
  ∧ ∀ i pk s, auths !! i = Some pk → signed !! i = Some true → sigs !! i = Some s →
    ed25519_verify pk message (signature_bytes s) = true.

(** A justification assembled from the keys of an authority set, none of which
    signed, and from other keys and their signatures in the remaining slots. *)
Definition padded_with (auths others : list Bytes32) (sigs : list EDDSASignature)
    (p : Precommit) : Justification := {|
  encoded_precommit := encode_precommit p;
  validator_signed := replicate (length auths) false ++ replicate (length others) true;
  signatures := replicate (length auths) {| sig_r := []; sig_s := 0 |} ++ sigs;
  pubkeys := auths ++ others;
  num_authorities := Z.of_nat (length auths);
|}.

(** A justification by one of the keys of a set that fills the array: the number
    of authorities is [2 ^ 31], and only slot [i] is marked as signed. *)
Definition signed_once (auths : list Bytes32) (i : nat) (s : EDDSASignature)
    (p : Precommit) : Justification := {|
  encoded_precommit := encode_precommit p;
  validator_signed := <[i := true]> (replicate (length auths) false);
  signatures := replicate (length auths) s;
  pubkeys := auths;
  num_authorities := 2 ^ 31;
|}.

(** ** Helper lemmas *)
Section Commitment.
Context `{CircuitBuilderLaws}.

Lemma take_S_lookup_total (l : list Bytes32) i :
  (i < length l)%nat → take (S i) l = take i l ++ [l !!! i].
Proof. intros. by apply take_S_r, list_lookup_lookup_total_lt. Qed.

(** The loop's state after position [i]: enabled while the end was not reached,
    with the hash of the keys before it. *)
Lemma commitment_loop n signers k :
  1 ≤ n → (1 + k ≤ length signers)%nat →
  foldl (commitment_step n signers) (true, curta_sha256 (signers !!! 0%nat)) (seq 1 k)
  = (bool_decide (Z.of_nat k < n),
     compute_authority_set_hash (take (Z.to_nat n `min` (1 + k)) signers)).
Proof.
  intros Hn. induction k as [|k IH]; intros Hk.
  { cbn [seq foldl]. rewrite bool_decide_eq_true_2 by lia.
    replace (Z.to_nat n `min` (1 + 0))%nat with 1%nat by lia.
    destruct signers as [|a l]; [simpl in Hk; lia|]. circuit. done. }
  rewrite seq_S, foldl_app, IH by lia. cbn [foldl commitment_step].
  circuit. destruct (decide (Z.of_nat (1 + k) < n)) as [Hlt|Hge].
  - rewrite (bool_decide_eq_true_2 (Z.of_nat k < n)) by lia.
    rewrite (bool_decide_eq_false_2 (Z.of_nat (1 + k) = n)) by lia.
    rewrite (bool_decide_eq_true_2 (Z.of_nat (S k) < n)) by lia. cbn [negb andb].
    f_equal. rewrite <- compute_authority_set_hash_snoc. f_equal.
    replace (Z.to_nat n `min` (1 + k))%nat with (1 + k)%nat by lia.
    replace (Z.to_nat n `min` (1 + S k))%nat with (S (1 + k)) by lia.
    symmetry. apply take_S_lookup_total. lia.
  - assert (bool_decide (Z.of_nat k < n) && negb (bool_decide (Z.of_nat (1 + k) = n)) = false)
      as ->.
    { rewrite !bool_decide_decide. repeat case_decide; done || lia. }
    rewrite bool_decide_eq_false_2 by lia. f_equal. f_equal. f_equal. lia.
Qed.

Lemma compute_authority_set_commitment_run MAX n signers :
  0 ≤ n → (1 ≤ MAX)%nat → length signers = MAX →
  compute_authority_set_commitment MAX n signers =
    if decide (n = 0) then None
    else Some (compute_authority_set_hash (take (Z.to_nat n) signers)).
Proof.
  intros Hn HMAX Hlen. unfold compute_authority_set_commitment.
  rewrite is_equal_spec, assert_is_equal_spec. destruct (decide (n = 0)) as [->|Hne]; [done|].
  rewrite bool_decide_eq_false_2 by done. rewrite decide_True by done.
  cbn [mbind option_bind]. rewrite commitment_loop by lia. cbn [snd]. do 2 f_equal.
  destruct (decide (Z.to_nat n ≤ length signers)%nat).
  - f_equal. lia.
  - rewrite !take_ge by lia. done.
Qed.
End Commitment.

Section Threshold.
Context `{CircuitBuilderLaws}.

Lemma count_true_app l k : count_true (l ++ k) = (count_true l + count_true k)%nat.
Proof. unfold count_true. by rewrite filter_app, length_app. Qed.

Lemma count_true_bound l : (count_true l ≤ length l)%nat.
Proof. apply length_filter. Qed.

Lemma count_true_cons b l : count_true (b :: l) = ((if b then 1 else 0) + count_true l)%nat.
Proof. by destruct b. Qed.

Lemma count_true_none l : (∀ i, l !! i ≠ Some true) → count_true l = 0%nat.
Proof.
  induction l as [|b l IH]; intros Hl; [done|].
  rewrite count_true_cons, IH by (intros i; apply (Hl (S i))).
  destruct b; [by destruct (Hl 0%nat)|done].
Qed.

Lemma count_true_replicate n : count_true (replicate n true) = n.
Proof. induction n as [|n IH]; [done|]. cbn [replicate]. by rewrite count_true_cons, IH. Qed.

Lemma count_true_replicate_false n : count_true (replicate n false) = 0%nat.
Proof. apply count_true_none. intros i Hi. by apply lookup_replicate in Hi as [? _]. Qed.

Lemma count_signed_run MAX signed k :
  Z.of_nat MAX < 2 ^ 32 → length signed = MAX → (k ≤ MAX)%nat →
  foldl (λ n i, U32_add n (Z.b2z (signed !!! i))) 0 (seq 0 k)
  = Z.of_nat (count_true (take k signed)).
Proof.
  intros HMAX Hlen. induction k as [|k IH]; intros Hk; [done|].
  rewrite seq_S, foldl_app, IH by lia. cbn [foldl Nat.add].
  rewrite (take_S_r signed k (signed !!! k)) by (apply list_lookup_lookup_total_lt; lia).
  rewrite count_true_app.
  pose proof (count_true_bound (take k signed)) as Hb. rewrite length_take in Hb.
  destruct (signed !!! k); cbn [Z.b2z].
  - rewrite U32_add_spec by lia. change (count_true [true]) with 1%nat. lia.
  - rewrite U32_add_spec by lia. change (count_true [false]) with 0%nat. lia.
Qed.

Lemma verify_voting_threshold_run MAX n signed num den :
  length signed = MAX →
  is_u32 n → is_u32 num → is_u32 den →
  Z.of_nat MAX < 2 ^ 32 → Z.of_nat MAX * den < 2 ^ 32 →
  verify_voting_threshold MAX n signed num den = Some ()
  ↔ (n * num) mod 2 ^ 32 < Z.of_nat (count_true signed) * den.
Proof.
  intros Hlen Hn Hnum Hden HMAX HMAXd. unfold verify_voting_threshold, count_signed.
  rewrite (count_signed_run MAX) by done. rewrite take_ge by lia.
  pose proof (count_true_bound signed) as Hb. rewrite Hlen in Hb.
  assert (0 ≤ Z.of_nat (count_true signed) * den < 2 ^ 32) by (unfold is_u32 in *; nia).
  assert (is_u32 (Z.of_nat (count_true signed))) by (unfold is_u32; lia).
  rewrite !U32_mul_spec by done.
  rewrite (Z.mod_small (_ * den)) by done.
  rewrite U32_gt_spec by (done || apply Z.mod_pos_bound; done).
  rewrite assert_is_equal_Some, bool_decide_eq_true. done.
Qed.
End Threshold.

Section Verification.
Context `{CircuitBuilderLaws}.

(** The sizes of the circuit's types: a justification of the circuit's arrays,
    whose capacity times three fits a [u32], with a message of bytes. *)
Record justification_bounds (MAX : nat) (j : Justification) : Prop := {
  bounds_max : (1 ≤ MAX)%nat;
  bounds_max_u32 : 3 * Z.of_nat MAX < 2 ^ 32;
  bounds_wf : wf_justification MAX j;
  bounds_u8 : Forall is_u8 (encoded_precommit j);
}.

(** Decoding a message and comparing its fields pins the message down. *)
Lemma decode_precommit_fields bs bn bh id :
  Forall is_u8 bs → length bs = ENCODED_PRECOMMIT_LENGTH → is_u32 bn → is_u64 id →
  (∃ p, decode_precommit bs = Some p ∧ pc_block_number p = bn
        ∧ pc_authority_set_id p = id ∧ pc_block_hash p = bh)
  ↔ ∃ round, is_u64 round ∧ bs = encode_precommit
      {| pc_block_hash := bh; pc_block_number := bn;
         pc_justification_round := round; pc_authority_set_id := id |}.
Proof.
  intros Hbs Hlen Hbn Hid. split.
  - intros (p & Hp & <- & <- & <-). apply decode_precommit_correct in Hp as [[] ->]; [|done..].
    exists (pc_justification_round p). split; [done|]. by destruct p.
  - intros (round & Hround & ->).
    match goal with |- context [encode_precommit ?p] => exists p end. split; [|done].
    apply decode_precommit_correct; [done..|]. split; [|done].
    pose proof (encode_precommit_hash_length _ Hlen) as Hh. cbn in Hh.
    split; [done| |done..].
    apply Forall_cons in Hbs as [_ Hbs]. by apply Forall_app in Hbs as [? _].
Qed.

Lemma signatures_ok_iff MAX j :
  wf_justification MAX j →
  signatures_ok (validator_signed j)
    (replicate MAX (Z.of_nat ENCODED_PRECOMMIT_LENGTH))
    (replicate MAX (encoded_precommit j)) (signatures j) (pubkeys j)
  ↔ ∀ i s pk, validator_signed j !! i = Some true → signatures j !! i = Some s →
      pubkeys j !! i = Some pk →
      ed25519_verify pk (encoded_precommit j) (signature_bytes s) = true.
Proof.
  intros [He Hv Hs Hp _]. unfold signatures_ok.
  assert (take (Z.to_nat (Z.of_nat ENCODED_PRECOMMIT_LENGTH)) (encoded_precommit j)
    = encoded_precommit j) as Ht by (apply take_ge; consts; lia).
  split.
  - intros Hok i s pk Hi Hsi Hpi. rewrite <- Ht at 1.
    assert (i < MAX)%nat by (apply lookup_lt_Some in Hi; lia).
    eapply Hok; eauto; by apply lookup_replicate_2.
  - intros Hok i len m s pk Hi Hlen Hm Hsi Hpi.
    apply lookup_replicate in Hlen as [-> _]. apply lookup_replicate in Hm as [-> _].
    rewrite Ht. eauto.
Qed.

Lemma verify_simple_justification_run MAX hint bn bh id sh :
  justification_bounds MAX (hint bn id) → is_u32 bn → is_u64 id →
  verify_simple_justification MAX hint bn bh id sh = Some ()
  ↔ justification_valid (hint bn id) bn bh id sh.
Proof.
  intros [HMAX HMAX3 Hwf Hu8] Hbn Hid. unfold verify_simple_justification.
  generalize dependent (hint bn id); intros j Hwf Hu8.
  destruct (wf_num_authorities _ _ Hwf) as [Hn0 Hn1].
  rewrite compute_authority_set_commitment_run by (done || apply Hwf).
  pose proof (decode_precommit_fields (encoded_precommit j) bn bh id Hu8
    (wf_encoded_precommit _ _ Hwf) Hbn Hid) as Hmsg.
  pose proof (verify_voting_threshold_run MAX (num_authorities j) (validator_signed j) 2 3
    (wf_validator_signed _ _ Hwf)) as Hthr.
  rewrite (Z.mul_comm (num_authorities j)), (Z.mul_comm _ 3) in Hthr. pose proof (signatures_ok_iff MAX j Hwf) as Hsig.
  rewrite <- curta_eddsa_spec in Hsig. split.
  - intros Hrun. case_decide; [done|]. cbn [mbind option_bind] in Hrun.
    apply bind_Some in Hrun as ([] & E1 & Hrun). apply assert_is_equal_Some in E1.
    apply bind_Some in Hrun as (p & E2 & Hrun).
    apply bind_Some in Hrun as ([] & E3 & Hrun). apply assert_is_equal_Some in E3.
    apply bind_Some in Hrun as ([] & E4 & Hrun). apply assert_is_equal_Some in E4.
    apply bind_Some in Hrun as ([] & E5 & Hrun). apply assert_is_equal_Some in E5.
    apply bind_Some in Hrun as ([] & E6 & Hrun).
    split; [done|done| | |].
    + apply Hmsg. eauto.
    + by apply Hsig.
    + apply Hthr in Hrun; (done || unfold is_u32; lia).
  - intros [Hne Hc Hm Hs Ht]. rewrite decide_False by done. cbn [mbind option_bind].
    rewrite Hc, assert_is_equal_refl. cbn [mbind option_bind].
    apply Hmsg in Hm as (p & -> & <- & <- & <-). cbn [mbind option_bind].
    rewrite !assert_is_equal_refl. cbn [mbind option_bind].
    rewrite (proj2 Hsig Hs). cbn [mbind option_bind].
    apply Hthr; (done || unfold is_u32; lia).
Qed.

(** A valid justification whose votes are counted is one of a supermajority. *)
Lemma valid_supermajority MAX j bn bh id sh :
  justification_bounds MAX j → justification_valid j bn bh id sh → ¬ miscounted j →
  supermajority_signed (take (Z.to_nat (num_authorities j)) (pubkeys j)) (encoded_precommit j)
    (validator_signed j) (signatures j).
Proof.
  intros [_ _ [_ Hv _ Hp [Hn _]] _] [_ Hc Hm Hs Ht] Hmis.
  assert (num_authorities j < 2 ^ 31) by (apply Z.nle_gt; intros ?; apply Hmis; by left).
  rewrite Z.mod_small in Ht by lia.
  rewrite <- (take_drop (Z.to_nat (num_authorities j)) (validator_signed j)) in Ht.
  rewrite count_true_app in Ht.
  assert (count_true (drop (Z.to_nat (num_authorities j)) (validator_signed j)) = 0%nat) as Ez.
  { apply count_true_none. intros i Hi. rewrite lookup_drop in Hi.
    apply Hmis. right. apply list_elem_of_lookup. exists i. by rewrite lookup_drop. }
  split.
  - rewrite length_take, Hp. destruct (decide (Z.to_nat (num_authorities j) ≤ MAX)%nat).
    + rewrite Nat.min_l by done. lia.
    + rewrite Nat.min_r by lia. rewrite (take_ge (validator_signed j)) in * by lia. lia.
  - intros i pk s Hpk Hi Hsi. eapply Hs; [done|done|].
    by apply lookup_take_Some in Hpk as [? _].
Qed.
End Verification.

(** ** Properties *)
Section Properties.
Context `{CircuitBuilderLaws}.

(** The commitment that the circuit computes over the first [n] slots of the
    padded array is the authority set hash that the data fetcher computes over
    those keys; it is unsatisfiable for [n = 0], and any [n] at or above the
    capacity of the array stands for the whole array. *)
Theorem commitment_is_authority_set_hash MAX n signers :
  0 ≤ n → (1 ≤ MAX)%nat → length signers = MAX →
  compute_authority_set_commitment MAX n signers =
    if decide (n = 0) then None
    else Some (compute_authority_set_hash (take (Z.to_nat n) signers)).
Proof. apply compute_authority_set_commitment_run. Qed.

(** The voting threshold accepts exactly when the number of slots marked as
    signed, times the denominator, exceeds the number of authorities times the
    numerator, a product that the circuit reduces modulo [2 ^ 32]. *)
Theorem voting_threshold_iff MAX n signed num den :
  length signed = MAX → is_u32 n → is_u32 num → is_u32 den →
  Z.of_nat MAX < 2 ^ 32 → Z.of_nat MAX * den < 2 ^ 32 →
  verify_voting_threshold MAX n signed num den = Some ()
  ↔ (n * num) mod 2 ^ 32 < Z.of_nat (count_true signed) * den.
Proof. apply verify_voting_threshold_run. Qed.

(** C8: the circuit of [verify_simple_justification] has a proof exactly when
    the hinted justification is valid: the commitment is that of its first
    authorities, the message is a precommit for this block, hash and set id, each
    slot marked as signed carries a valid signature of that message, and three
    times the slots marked as signed exceed twice the number of authorities, a
    product taken modulo [2 ^ 32].  The number of authorities is any [u32]. *)
Theorem simple_justification_iff MAX hint bn bh id sh :
  justification_bounds MAX (hint bn id) → is_u32 bn → is_u64 id →
  verify_simple_justification MAX hint bn bh id sh = Some ()
  ↔ justification_valid (hint bn id) bn bh id sh.
Proof. apply verify_simple_justification_run. Qed.

(** C24: an accepted justification, whatever the hint filled it with, is a precommit
    for the block, and either it carries valid signatures from more than two
    thirds of an authority set that hashes to the trusted hash, or it is one of
    the two kinds that the threshold does not count: with a number of authorities
    of [2 ^ 31] or more, or with a slot marked as signed past its authorities. *)
Theorem justification_supermajority MAX hint bn bh id sh :
  let j := hint bn id in
  justification_bounds MAX j → is_u32 bn → is_u64 id →
  verify_simple_justification MAX hint bn bh id sh = Some () →
  ∃ auths, compute_authority_set_hash auths = sh ∧ ∃ round,
    encoded_precommit j = encode_precommit
      {| pc_block_hash := bh; pc_block_number := bn;
         pc_justification_round := round; pc_authority_set_id := id |}
    ∧ (supermajority_signed auths (encoded_precommit j) (validator_signed j) (signatures j)
       ∨ miscounted j).
Proof.
  intros j Hb Hbn Hid Hrun.
  apply verify_simple_justification_run in Hrun as Hv; [|done..].
  exists (take (Z.to_nat (num_authorities j)) (pubkeys j)).
  split; [by rewrite (valid_commitment _ _ _ _ _ Hv)|].
  destruct (valid_message _ _ _ _ _ Hv) as (round & _ & Hm). exists round. split; [done|].
  destruct (decide (miscounted j)); [by right|left]. by eapply valid_supermajority.
Qed.

(** C36: nothing but the hint keeps the slots past the authorities unmarked.
    Keys outside the authority set, placed in those slots with signatures of
    their own, satisfy the circuit for any block hash, although no authority
    signed: the threshold counts all the slots and the commitment covers only
    the first ones. *)
Theorem padding_slots_are_counted auths others sigs p :
  auths ≠ [] → precommit_ok p → length sigs = length others →
  2 * Z.of_nat (length auths) < 3 * Z.of_nat (length others) →
  3 * Z.of_nat (length auths + length others) < 2 ^ 32 →
  (∀ i s pk, sigs !! i = Some s → others !! i = Some pk →
    ed25519_verify pk (encode_precommit p) (signature_bytes s) = true) →
  verify_simple_justification (length auths + length others)
    (λ _ _, padded_with auths others sigs p)
    (pc_block_number p) (pc_block_hash p) (pc_authority_set_id p)
    (compute_authority_set_hash auths) = Some ()
  ∧ ∀ i, (i < length auths)%nat →
      validator_signed (padded_with auths others sigs p) !! i = Some false.
Proof.
  intros Hne Hok Hlen Hmaj Hbound Hsig.
  assert (length auths ≠ 0%nat) by (by destruct auths).
  pose proof Hok as [Hh Hhu8 Hbn Hround Hid]. split.
  - apply verify_simple_justification_run; [split|done|done|split]; cbn [padded_with
      encoded_precommit validator_signed signatures pubkeys num_authorities]; try lia.
    + split; cbn -[encode_precommit]; rewrite ?length_app, ?length_replicate;
        unfold is_u32; try lia.
      by apply length_encode_precommit.
    + by apply encode_precommit_u8.
    + by rewrite Nat2Z.id, take_app_length.
    + exists (pc_justification_round p). split; [done|by destruct p].
    + intros i s pk Hi Hs Hpk.
      apply lookup_app_Some in Hi as [Hi|[Hge Hi]];
        [by apply lookup_replicate in Hi as [? _]|].
      rewrite length_replicate in Hge, Hi.
      rewrite lookup_app_r in Hs by (rewrite ?length_replicate; lia).
      rewrite lookup_app_r in Hpk by lia.
      rewrite length_replicate in Hs. eauto.
    + rewrite count_true_app, count_true_replicate, count_true_replicate_false.
      rewrite Z.mod_small; lia.
  - intros i Hi. cbn. rewrite lookup_app_l by (rewrite length_replicate; lia).
    by apply lookup_replicate_2.
Qed.

(** The threshold doubles the number of authorities in a [u32].  For a set
    that fills the array, [2 ^ 31] authorities stand for all its keys and double
    to zero, so that one signature of one of them satisfies the circuit. *)
Theorem full_set_one_signature auths i s pk p :
  precommit_ok p → 3 * Z.of_nat (length auths) < 2 ^ 32 → auths !! i = Some pk →
  ed25519_verify pk (encode_precommit p) (signature_bytes s) = true →
  verify_simple_justification (length auths) (λ _ _, signed_once auths i s p)
    (pc_block_number p) (pc_block_hash p) (pc_authority_set_id p)
    (compute_authority_set_hash auths) = Some ()
  ∧ count_true (validator_signed (signed_once auths i s p)) = 1%nat.
Proof.
  intros Hok Hmax Hi Hsig. pose proof (lookup_lt_Some _ _ _ Hi) as Hlt.
  assert (count_true (<[i:=true]> (replicate (length auths) false)) = 1%nat) as Hone.
  { rewrite insert_take_drop by (by rewrite length_replicate).
    rewrite take_replicate, drop_replicate, count_true_app, count_true_cons.
    by rewrite !count_true_replicate_false. }
  split; [|done]. pose proof Hok as [Hh Hhu8 Hbn Hround Hid].
  apply verify_simple_justification_run; [split|done|done|split]; cbn [signed_once
    encoded_precommit validator_signed signatures pubkeys num_authorities]; try lia.
  - split; cbn -[encode_precommit Z.pow]; rewrite ?length_insert, ?length_replicate;
      unfold is_u32; try lia.
    by apply length_encode_precommit.
  - by apply encode_precommit_u8.
  - by rewrite take_ge by lia.
  - exists (pc_justification_round p). split; [done|by destruct p].
  - intros k s' pk' Hk Hs Hpk. apply lookup_replicate in Hs as [-> _].
    apply list_lookup_insert_Some in Hk as [(-> & _ & _)|[_ Hk]];
      [by simplify_eq|by apply lookup_replicate in Hk as [? _]].
  - rewrite Hone. done.
Qed.
End Properties.

(** ** Witnesses *)
Import Ref.

(** A justification of the sample message: three of four authorities, in an
    array of five slots. *)
Definition sample_keys : list Bytes32 := map (λ i, replicate 32 (Z.of_nat i)) (seq 1 5).
Definition sample_justification : Justification := {|
  encoded_precommit := sample_precommit;
  validator_signed := [true; false; true; true; false];
  signatures := map (λ pk, sign pk sample_precommit) sample_keys;
  pubkeys := sample_keys;
  num_authorities := 4 |}.
Definition sample_hash : Bytes32 := compute_authority_set_hash (take 4 sample_keys).

Lemma sample_bounds : justification_bounds 5 sample_justification.
Proof. split; try by_decide. split; by_decide. Qed.

Lemma commitment_is_authority_set_hash_witness :
  compute_authority_set_commitment 5 4 sample_keys = Some sample_hash
  ∧ compute_authority_set_commitment 5 0 sample_keys = None
  ∧ compute_authority_set_commitment 5 9 sample_keys
    = Some (compute_authority_set_hash sample_keys).
Proof.
  split_and!; (rewrite commitment_is_authority_set_hash; [vm_compute; reflexivity|by_decide..]).
Defined.

Lemma voting_threshold_iff_witness :
  verify_voting_threshold 5 4 [true; false; true; true; false] 2 3 = Some ()
  ∧ ¬ verify_voting_threshold 5 3 [true; false; true; false; false] 2 3 = Some ().
Proof. split; (rewrite voting_threshold_iff; by_decide). Defined.

Lemma simple_justification_iff_witness :
  verify_simple_justification 5 (λ _ _, sample_justification) 317857
    sample_precommit.[1 to 33] 298 sample_hash = Some ().
Proof.
  apply simple_justification_iff; [apply sample_bounds|by_decide|by_decide|].
  split; [by_decide|by_decide|exists 14923; split; by_decide| |by_decide].
  intros i s pk _. apply sign_all_verifies.
Defined.

Lemma justification_supermajority_witness :
  ∃ auths, compute_authority_set_hash auths = sample_hash ∧ ∃ round,
    sample_precommit = encode_precommit
      {| pc_block_hash := sample_precommit.[1 to 33]; pc_block_number := 317857;
         pc_justification_round := round; pc_authority_set_id := 298 |}
    ∧ supermajority_signed auths sample_precommit
        (validator_signed sample_justification) (signatures sample_justification).
Proof.
  destruct (justification_supermajority 5 (λ _ _, sample_justification) 317857
    sample_precommit.[1 to 33] 298 sample_hash)
    as (auths & Hauths & round & Hm & [Hsup|Hmis]);
    [apply sample_bounds|by_decide|by_decide|vm_compute; reflexivity| |].
  - by exists auths; split; [|exists round].
  - exfalso. revert Hmis. by_decide.
Defined.

(** Two foreign keys outvote one authority. *)
Lemma padding_slots_are_counted_witness :
  let p := {| pc_block_hash := sample_precommit.[1 to 33]; pc_block_number := 317857;
              pc_justification_round := 14923; pc_authority_set_id := 298 |} in
  let others := [replicate 32 8; replicate 32 9] in
  verify_simple_justification 3
    (λ _ _, padded_with [replicate 32 1] others
      (map (λ pk, sign pk (encode_precommit p)) others) p)
    317857 sample_precommit.[1 to 33] 298
    (compute_authority_set_hash [replicate 32 1]) = Some ().
Proof.
  intros p others.
  apply (padding_slots_are_counted [replicate 32 1] others _ p);
    [done|split; by_decide|done|by_decide|by_decide|].
  intros i s pk. apply sign_all_verifies.
Defined.

(** One of three keys, in an array of three slots. *)
Lemma full_set_one_signature_witness :
  let p := {| pc_block_hash := sample_precommit.[1 to 33]; pc_block_number := 317857;
              pc_justification_round := 14923; pc_authority_set_id := 298 |} in
  let pk := replicate 32 2 in
  verify_simple_justification 3
    (λ _ _, signed_once (take 3 sample_keys) 1 (sign pk (encode_precommit p)) p)
    317857 sample_precommit.[1 to 33] 298
    (compute_authority_set_hash (take 3 sample_keys)) = Some ().
Proof.
  intros p pk.
  apply (full_set_one_signature (take 3 sample_keys) 1 (sign pk (encode_precommit p)) pk p);
    [split; by_decide|by_decide|reflexivity|apply sign_verifies].
Defined.
