(* ===== verification/Rotate.v ===== *)
(** * Authority set rotation in the circuit: circuits/builder/rotate.rs

    [RotateMethods]: the checks on the consensus log of an epoch end header and
    the extraction of the next authority set. *)

From S2P Require Import Prelude Consts Vars Builder Reference Decoder Offchain Justification.

(** ** Operations *)
Section Operations.
Context `{CircuitBuilder}.

Definition verify_consensus_log (subarray : bytes) : option unit :=
  (* Skip 1 byte; the Consensus flag; the consensus engine id. *)
  let header_consensus_flag := subarray !!! 1%nat in
  _ ← assert_is_equal header_consensus_flag 4;
  assert_is_equal subarray.[2 to 6] [70; 82; 78; 75].

Definition verify_scheduled_change_message_length_and_flag (subarray : bytes) : option Felt :=
  let prefix_cursor := Z.of_nat CONSENSUS_ENGINE_ID_PREFIX_LENGTH in
  let encoded_scheduled_change_message_length :=
    subarray.[CONSENSUS_ENGINE_ID_PREFIX_LENGTH
              to CONSENSUS_ENGINE_ID_PREFIX_LENGTH + MAX_COMPACT_UINT_BYTES] in
  (* The message length itself is discarded. *)
  '(_, compress_mode) ← decode_compact_int encoded_scheduled_change_message_length;
  byte_length ← get_compact_int_byte_length compress_mode;
  let prefix_cursor := add prefix_cursor byte_length in
  header_schedule_change_flag ← select_array_random_gate subarray prefix_cursor;
  _ ← assert_is_equal header_schedule_change_flag 1;
  Some (add prefix_cursor 1).

Definition verify_encoded_num_authorities (subarray : bytes) (prefix_cursor : Felt)
    (header_hash : Bytes32) (untrusted_authority_set_size : Felt) : option Felt :=
  encoded_authority_set_size ←
    get_fixed_subarray MAX_COMPACT_UINT_BYTES subarray prefix_cursor header_hash;
  '(decoded_authority_set_size, compress_mode) ←
    decode_compact_int encoded_authority_set_size;
  num_authorities_u32 ← U32_from_variables untrusted_authority_set_size;
  _ ← assert_is_equal decoded_authority_set_size num_authorities_u32;
  byte_length ← get_compact_int_byte_length compress_mode;
  Some (add prefix_cursor byte_length).

Definition expected_weight_bytes : bytes := [1; 0; 0; 0; 0; 0; 0; 0].
Definition expected_delay_bytes : bytes := [0; 0; 0; 0].

(** The body of the loop of [verify_epoch_end_header], on [validator_disabled]. *)
Definition validator_step (num_authorities : Felt) (new_pubkeys : list Bytes32)
    (enc_validator_subarray : bytes) (validator_disabled : bool) (i : nat) : option bool :=
  let idx := (i * VALIDATOR_LENGTH)%nat in
  let curr_validator := Z.of_nat (i + 1) in
  let extracted_pubkey := enc_validator_subarray.[idx to idx + PUBKEY_LENGTH] in
  let pubkey_match := is_equal extracted_pubkey (new_pubkeys !!! i) in
  let pubkey_check := b_or pubkey_match validator_disabled in
  _ ← assert_is_equal pubkey_check true;
  let extracted_weight :=
    enc_validator_subarray.[idx + PUBKEY_LENGTH to idx + VALIDATOR_LENGTH] in
  let weight_match := is_equal extracted_weight expected_weight_bytes in
  let weight_check := b_or weight_match validator_disabled in
  _ ← assert_is_equal weight_check true;
  let at_end := is_equal curr_validator num_authorities in
  let validator_disabled := select at_end true validator_disabled in
  let not_at_end := b_not at_end in
  let extracted_delay :=
    enc_validator_subarray.[idx + VALIDATOR_LENGTH to idx + VALIDATOR_LENGTH + DELAY_LENGTH] in
  let delay_match := is_equal extracted_delay expected_delay_bytes in
  let delay_check := b_or delay_match not_at_end in
  _ ← assert_is_equal delay_check true;
  Some validator_disabled.

Definition verify_epoch_end_header (MAX_AUTHORITY_SET_SIZE MAX_SUBARRAY_SIZE : nat)
    (header : EncodedHeader) (header_hash : Bytes32) (num_authorities : Felt)
    (start_position : Felt) (new_pubkeys : list Bytes32) : option unit :=
  let num_authorities_zero := is_zero num_authorities in
  _ ← assert_is_equal num_authorities_zero false;
  let cursor := start_position in
  prefix_subarray ←
    get_fixed_subarray MAX_PREFIX_LENGTH (header_bytes header) cursor header_hash;
  _ ← verify_consensus_log prefix_subarray;
  prefix_idx_after_scheduled_change_flag ←
    verify_scheduled_change_message_length_and_flag prefix_subarray;
  total_prefix_length ←
    verify_encoded_num_authorities prefix_subarray
      prefix_idx_after_scheduled_change_flag header_hash num_authorities;
  let cursor := add cursor total_prefix_length in
  enc_validator_subarray ←
    get_fixed_subarray MAX_SUBARRAY_SIZE (header_bytes header) cursor header_hash;
  _ ← for_loop (validator_step num_authorities new_pubkeys enc_validator_subarray)
    (seq 0 MAX_AUTHORITY_SET_SIZE) false;
  Some ().

Definition rotate (MAX_AUTHORITY_SET_SIZE MAX_SUBARRAY_SIZE : nat)
    (hint : U32 → U64 → Justification)
    (current_authority_set_id : U64) (current_authority_set_hash : Bytes32)
    (rotate : Rotate) : option Bytes32 :=
  (* The assert_eq! on the const generics, when the circuit is built. *)
  if decide (MAX_SUBARRAY_SIZE = MAX_AUTHORITY_SET_SIZE * VALIDATOR_LENGTH + DELAY_LENGTH)%nat
  then
    target_header_hash ← hash_encoded_header (target_header rotate);
    _ ← verify_simple_justification MAX_AUTHORITY_SET_SIZE hint
      (epoch_end_block_number rotate) target_header_hash
      current_authority_set_id current_authority_set_hash;
    _ ← verify_epoch_end_header MAX_AUTHORITY_SET_SIZE MAX_SUBARRAY_SIZE
      (target_header rotate) target_header_hash
      (target_header_num_authorities rotate)
      (next_authority_set_start_position rotate) (new_pubkeys rotate);
    compute_authority_set_commitment MAX_AUTHORITY_SET_SIZE
      (target_header_num_authorities rotate) (new_pubkeys rotate)
  else None.
End Operations.

(** ** The scheduled change log *)

Definition compact_length (mode : Z) : nat :=
  match mode with 0 => 1 | 1 => 2 | 2 => 4 | _ => 5 end.

(** The value and the byte length of the compact integer at the front of five
    bytes. *)
Definition compact_read (bs : bytes) : option (Z * nat) :=
  let N := le_decode bs in
  let mode := N mod 4 in
  if decide (mode = 3 ∧ (N / 4) mod 64 ≠ 0) then None
  else Some (compact_payload mode N, compact_length mode).

Definition encode_authority (pk : Bytes32) : bytes := pk ++ expected_weight_bytes.
Definition encode_authorities (pks : list Bytes32) : bytes := concat (map encode_authority pks).

(** The bytes from [start] on begin with a GRANDPA scheduled-change log that
    announces [num] authorities, whose encoding begins at [pos]. *)
Record log_prefix (hb : bytes) (start : nat) (num : Z) (pos : nat) : Prop := {
  prefix_consensus : hb !!! (start + 1)%nat = 4;
  prefix_engine : hb.[start + 2 to start + 6] = [70; 82; 78; 75];
  prefix_lengths : ∃ message_length k1 k2,
    compact_read hb.[start + 6 to start + 11] = Some (message_length, k1)
    ∧ hb !!! (start + 6 + k1)%nat = 1
    ∧ compact_read hb.[start + 7 + k1 to start + 12 + k1] = Some (num, k2)
    ∧ pos = (start + 7 + k1 + k2)%nat;
}.

(** ** Helper lemmas *)

Lemma compact_length_bound mode : (1 ≤ compact_length mode ≤ MAX_COMPACT_UINT_BYTES)%nat.
Proof. consts. unfold compact_length. repeat case_match; lia. Qed.

Lemma compact_read_bound bs v k :
  compact_read bs = Some (v, k) → is_u32 v ∧ (1 ≤ k ≤ MAX_COMPACT_UINT_BYTES)%nat.
Proof.
  unfold compact_read. case_decide; [done|]. intros [= <- <-].
  split; [|apply compact_length_bound].
  unfold is_u32, compact_payload. repeat case_match;
    match goal with |- context [?x mod ?m] => pose proof (Z.mod_pos_bound x m) end; lia.
Qed.

Section Prefix.
Context `{CircuitBuilderLaws}.

(** Reading back the encoding of a number gives the number and the length. *)
Lemma compact_read_encode n t :
  is_u32 n → Forall is_u8 t →
  length (Scale.compact_encode n ++ t) = MAX_COMPACT_UINT_BYTES →
  compact_read (Scale.compact_encode n ++ t) = Some (n, length (Scale.compact_encode n)).
Proof.
  intros Hn Ht Hlen.
  assert (Forall is_u8 (Scale.compact_encode n ++ t)) as Hu8
    by (apply Forall_app_2; auto using compact_encode_u8).
  pose proof (decode_compact_int_prefix n t Hn Ht Hlen) as Hd.
  rewrite decode_compact_int_run in Hd by done.
  unfold compact_read. cbv zeta in *. case_decide; [done|].
  injection Hd as -> ->. do 2 f_equal.
  unfold Scale.compact_mode, Scale.compact_encode. by repeat case_decide.
Qed.

(** The two gadgets that read a compact integer, together. *)
Lemma compact_gadgets {A} bs (f : Z → Felt → option A) :
  Forall is_u8 bs → length bs = MAX_COMPACT_UINT_BYTES →
  ('(v, mode) ← decode_compact_int bs; k ← get_compact_int_byte_length mode; f v k)
  = ('(v, k) ← compact_read bs; f v (Z.of_nat k)).
Proof.
  intros Hbs Hlen. rewrite decode_compact_int_run by done. unfold compact_read. cbv zeta.
  case_decide; [done|]. cbn [mbind option_bind].
  assert (0 ≤ le_decode bs mod 4 < 4) as Hm by (apply Z.mod_pos_bound; lia).
  rewrite get_compact_int_byte_length_run by done.
  generalize dependent (le_decode bs mod 4); intros m _ Hm.
  assert (m = 0 ∨ m = 1 ∨ m = 2 ∨ m = 3) as [->|[->|[->| ->]]] by lia; done.
Qed.

Lemma verify_consensus_log_run sub :
  verify_consensus_log sub = Some ()
  ↔ sub !!! 1%nat = 4 ∧ sub.[2 to 6] = [70; 82; 78; 75].
Proof.
  unfold verify_consensus_log. rewrite bind_Some.
  setoid_rewrite assert_is_equal_Some. naive_solver.
Qed.

Lemma scheduled_change_run sub :
  Forall is_u8 sub → length sub = MAX_PREFIX_LENGTH →
  verify_scheduled_change_message_length_and_flag sub
  = '(_, k) ← compact_read sub.[6 to 11];
    if decide (sub !!! (6 + k)%nat = 1) then Some (Z.of_nat (7 + k)) else None.
Proof.
  consts. intros Hu8 Hlen. unfold verify_scheduled_change_message_length_and_flag. consts.
  change (6 + 5)%nat with 11%nat.
  rewrite (compact_gadgets sub.[6 to 11]) by
    (auto with vectorx; rewrite length_slice by lia; done).
  destruct (compact_read _) as [[v k]|] eqn:E; [|done]. cbn [mbind option_bind].
  apply compact_read_bound in E as [_ Hk]. consts. pose proof order_large.
  rewrite !(add_small (Z.of_nat 6)) by lia.
  replace (Z.of_nat 6 + Z.of_nat k) with (Z.of_nat (6 + k)) by lia.
  rewrite select_array_spec by lia. rewrite Nat2Z.id.
  rewrite (list_lookup_lookup_total_lt sub) by lia. cbn [mbind option_bind].
  rewrite assert_is_equal_spec. case_decide; [|done]. cbn [mbind option_bind].
  rewrite add_small by lia. f_equal. lia.
Qed.

Lemma encoded_num_authorities_run sub c hash num :
  Forall is_u8 sub → length sub = MAX_PREFIX_LENGTH →
  (c + MAX_COMPACT_UINT_BYTES ≤ MAX_PREFIX_LENGTH)%nat → 0 ≤ num →
  verify_encoded_num_authorities sub (Z.of_nat c) hash num
  = '(v, k) ← compact_read sub.[c to c + 5];
    if decide (v = num) then Some (Z.of_nat (c + k)) else None.
Proof.
  consts. intros Hu8 Hlen Hc Hnum. unfold verify_encoded_num_authorities. consts.
  rewrite get_fixed_subarray_spec, Nat2Z.id by lia. cbn [mbind option_bind].
  rewrite U32_from_variables_spec by done.
  transitivity ('(v, mode) ← decode_compact_int sub.[c to c + 5];
    k ← get_compact_int_byte_length mode;
    if decide (v = num) then Some (add (Z.of_nat c) k) else None).
  { destruct (decode_compact_int _) as [[v mode]|] eqn:E; [|done]. cbn [mbind option_bind].
    rewrite decode_compact_int_run in E by
      (auto with vectorx; rewrite length_slice by lia; consts; lia).
    cbv zeta in E.
    pose proof (compact_read_bound sub.[c to c + 5]) as Hb. unfold compact_read in Hb.
    cbv zeta in Hb. case_decide; [done|]. injection E as <- <-.
    destruct (Hb _ _ eq_refl) as [Hv _].
    destruct (decide (is_u32 num)) as [Hu|Hu]; cbn [mbind option_bind].
    - rewrite assert_is_equal_spec. case_decide; [done|].
      cbn [mbind option_bind]. by destruct (get_compact_int_byte_length _).
    - destruct (get_compact_int_byte_length _); [|done]. cbn [mbind option_bind].
      by rewrite decide_False by (intros E'; apply Hu; by rewrite <- E'). }
  rewrite compact_gadgets by (auto with vectorx; rewrite length_slice by lia; consts; lia).
  destruct (compact_read _) as [[v k]|] eqn:E; [|done]. cbn [mbind option_bind].
  apply compact_read_bound in E as [_ Hk]. consts. pose proof order_large.
  case_decide; [|done]. rewrite add_small by lia. f_equal. lia.
Qed.
End Prefix.

(** What the loop checks about slot [i] of the encoded authority set. *)
Definition validator_ok (num : Z) (pks : list Bytes32) (enc : bytes) (i : nat) : Prop :=
  (Z.of_nat i < num →
    enc.[i * 40 to i * 40 + 32] = pks !!! i
    ∧ enc.[i * 40 + 32 to i * 40 + 40] = expected_weight_bytes)
  ∧ (Z.of_nat i + 1 = num → enc.[i * 40 + 40 to i * 40 + 44] = expected_delay_bytes).

Section Validators.
Context `{CircuitBuilderLaws}.

Lemma validator_step_run num pks enc i d :
  validator_step num pks enc (bool_decide (num ≤ Z.of_nat i)) i = Some d
  ↔ d = bool_decide (num ≤ Z.of_nat (S i)) ∧ validator_ok num pks enc i.
Proof.
  unfold validator_step, validator_ok. consts. cbv zeta. circuit.
  change (32 + 8)%nat with 40%nat. rewrite <- !Nat.add_assoc.
  change (40 + 4)%nat with 44%nat.
  rewrite !assert_true_bind, !orb_true_iff, negb_true_iff, !bool_decide_eq_true,
    bool_decide_eq_false.
  assert ((if bool_decide (Z.of_nat (i + 1) = num) then true
           else bool_decide (num ≤ Z.of_nat i)) = bool_decide (num ≤ Z.of_nat (S i))) as ->.
  { rewrite !bool_decide_decide. repeat case_decide; done || lia. }
  replace (Z.of_nat (i + 1)) with (Z.of_nat i + 1) by lia.
  destruct (decide (num ≤ Z.of_nat i)); destruct (decide (Z.of_nat i + 1 = num));
    split; intros; destruct_and?; simplify_eq; split_and!; auto; try lia; intuition auto.
  all: left; match goal with H : _ < _ → _ ∧ _ |- _ => apply H end; lia.
Qed.

Lemma validator_loop_run num pks enc k d :
  1 ≤ num →
  for_loop (validator_step num pks enc) (seq 0 k) false = Some d
  ↔ d = bool_decide (num ≤ Z.of_nat k) ∧ ∀ i, (i < k)%nat → validator_ok num pks enc i.
Proof.
  intros Hnum. revert d; induction k as [|k IH]; intros d.
  { cbn [seq for_loop]. rewrite bool_decide_eq_false_2 by lia. naive_solver lia. }
  rewrite seq_S, for_loop_app, bind_Some. setoid_rewrite IH. cbn [for_loop Nat.add]. split.
  - intros (d' & [-> Hok] & Hd). apply bind_Some in Hd as (d2 & Hd & [= <-]).
    apply validator_step_run in Hd as [-> Hk]. split; [done|].
    intros i Hi. destruct (decide (i = k)) as [->|]; [done|apply Hok; lia].
  - intros [-> Hok]. eexists. split; [split; [done|auto]|].
    assert (validator_step num pks enc (bool_decide (num ≤ Z.of_nat k)) k
      = Some (bool_decide (num ≤ Z.of_nat (S k)))) as -> by (apply validator_step_run; auto).
    done.
Qed.
End Validators.

Lemma length_encode_authorities pks :
  Forall (λ a, length a = PUBKEY_LENGTH) pks →
  length (encode_authorities pks) = (length pks * 40)%nat.
Proof.
  induction 1 as [|a l Ha _ IH]; [done|]. unfold encode_authorities in *.
  cbn [map concat length]. unfold encode_authority at 1.
  rewrite !length_app, IH, Ha. consts. cbn. lia.
Qed.

Lemma encode_authorities_snoc l a :
  encode_authorities (l ++ [a]) = encode_authorities l ++ encode_authority a.
Proof.
  unfold encode_authorities. rewrite map_app, concat_app. cbn [map concat].
  by rewrite app_nil_r.
Qed.

(** A run of encoded authorities, slot by slot. *)
Lemma authorities_by_slot (hb : bytes) pos pks m :
  Forall (λ a, length a = PUBKEY_LENGTH) pks → (m ≤ length pks)%nat →
  (pos + m * 40 ≤ length hb)%nat →
  hb.[pos to pos + m * 40] = encode_authorities (take m pks)
  ↔ ∀ i, (i < m)%nat →
      hb.[pos + i * 40 to pos + i * 40 + 32] = pks !!! i
      ∧ hb.[pos + i * 40 + 32 to pos + i * 40 + 40] = expected_weight_bytes.
Proof.
  intros Hpks. induction m as [|m IH]; intros Hm Hlen.
  { unfold slice. rewrite Nat.add_0_r, Nat.sub_diag. split; [lia|done]. }
  assert (length (pks !!! m) = 32%nat) as Hlm
    by (apply (Forall_lookup_total_1 (λ a, length a = 32%nat)); [done|lia]).
  rewrite (take_S_lookup_total pks m), encode_authorities_snoc by lia.
  rewrite (slice_split hb pos (pos + m * 40)) by lia.
  rewrite (slice_split hb (pos + m * 40) (pos + m * 40 + 32)) by lia.
  replace (pos + S m * 40)%nat with (pos + m * 40 + 40)%nat by lia.
  unfold encode_authority. split.
  - intros E. apply app_inj_1 in E as [E1 E2].
    2: { rewrite length_slice, length_encode_authorities by (try apply Forall_take; auto; lia).
         rewrite length_take. lia. }
    apply app_inj_1 in E2 as [E2 E3]; [|rewrite length_slice, Hlm by lia; lia].
    intros i Hi. destruct (decide (i = m)) as [->|]; [done|].
    by apply IH; [lia|lia| |lia].
  - intros Hslots. destruct (Hslots m) as [-> ->]; [lia|]. f_equal.
    apply IH; [lia|lia|]. intros i Hi. apply Hslots. lia.
Qed.

(** The encoded authorities at [pos]: those of the first [num] slots of the
    array, and the zero delay after them unless [num] exceeds the array. *)
Definition authorities_at (hb : bytes) (pos : nat) (num : Z) (pks : list Bytes32) : Prop :=
  let auths := take (Z.to_nat num) pks in
  hb.[pos to pos + length auths * 40] = encode_authorities auths
  ∧ (num ≤ Z.of_nat (length pks) →
     hb.[pos + length auths * 40 to pos + length auths * 40 + 4] = expected_delay_bytes).

Lemma log_prefix_pos hb start num pos :
  log_prefix hb start num pos → (start + 9 ≤ pos ≤ start + MAX_PREFIX_LENGTH)%nat.
Proof.
  intros [_ _ (ml & k1 & k2 & H1 & _ & H2 & ->)].
  apply compact_read_bound in H1 as [_ H1]. apply compact_read_bound in H2 as [_ H2].
  consts. lia.
Qed.

Lemma log_prefix_num hb start num pos : log_prefix hb start num pos → is_u32 num.
Proof. intros [_ _ (ml & k1 & k2 & _ & _ & H2 & _)]. by apply compact_read_bound in H2 as [? _]. Qed.

(** The bytes determine what the prefix announces and where the keys begin. *)
Lemma log_prefix_fun hb start num pos num' pos' :
  log_prefix hb start num pos → log_prefix hb start num' pos' → num = num' ∧ pos = pos'.
Proof.
  intros [_ _ (ml & k1 & k2 & H1 & _ & H2 & ->)] [_ _ (ml' & k1' & k2' & H1' & _ & H2' & ->)].
  rewrite H1 in H1'. injection H1' as <- <-. rewrite H2 in H2'. by injection H2' as <- <-.
Qed.

Lemma encode_authorities_inj l k :
  Forall (λ a, length a = PUBKEY_LENGTH) l → Forall (λ a, length a = PUBKEY_LENGTH) k →
  encode_authorities l = encode_authorities k → l = k.
Proof.
  unfold encode_authorities, encode_authority. intros Hl. revert k.
  induction Hl as [|a l Ha _ IH]; intros [|b k] Hk E; [done|..]; cbn [map concat] in E.
  1, 2: apply (f_equal length) in E; rewrite !length_app in E; cbn in E; lia.
  apply Forall_cons in Hk as [Hb Hk]. rewrite <- !app_assoc in E.
  apply app_inj_1 in E as [<- E]; [|congruence]. apply app_inj_1 in E as [_ E]; [|done].
  f_equal. by apply IH.
Qed.




Section EpochEnd.
Context `{CircuitBuilderLaws}.

(** The three checks on the prefix of the log, together. *)
Lemma prefix_run hb start hash num t :
  Forall is_u8 hb → (start + MAX_PREFIX_LENGTH ≤ length hb)%nat → 0 ≤ num →
  let sub := hb.[start to start + MAX_PREFIX_LENGTH] in
  (_ ← verify_consensus_log sub;
   c ← verify_scheduled_change_message_length_and_flag sub;
   verify_encoded_num_authorities sub c hash num) = Some t
  ↔ ∃ pos, log_prefix hb start num pos ∧ t = Z.of_nat (pos - start).
Proof.
  intros Hu8 Hlen Hnum sub.
  assert (length sub = MAX_PREFIX_LENGTH) as Hsub by (unfold sub; rewrite length_slice; lia).
  assert (Forall is_u8 sub) as Hsubu8 by (unfold sub; auto with vectorx).
  rewrite scheduled_change_run by done. consts.
  assert (∀ i, (i < 17)%nat → sub !!! i = hb !!! (start + i)%nat) as Hat
    by (intros; apply slice_lookup_total; lia).
  assert (∀ a b, (a ≤ b ≤ 17)%nat → sub.[a to b] = hb.[start + a to start + b]) as Hsl
    by (intros; apply slice_slice; lia).
  rewrite (Hsl 6%nat 11%nat) by lia. rewrite bind_Some. split.
  - intros ([] & Hlog & Hrest). apply verify_consensus_log_run in Hlog as [Hflag Hid].
    rewrite Hat in Hflag by lia. rewrite Hsl in Hid by lia.
    destruct (compact_read hb.[start + 6 to start + 11]) as [[ml k1]|] eqn:E1; [|done].
    cbn [mbind option_bind] in Hrest. pose proof (compact_read_bound _ _ _ E1) as [_ Hk1]. consts.
    rewrite Hat in Hrest by lia. case_decide as Hone; [|done]. cbn [mbind option_bind] in Hrest.
    rewrite encoded_num_authorities_run, Hsl in Hrest by (done || consts; lia).
    destruct (compact_read hb.[start + (7 + k1) to _]) as [[v k2]|] eqn:E2; [|done].
    cbn [mbind option_bind] in Hrest. case_decide; [|done]. simplify_eq. exists (start + 7 + k1 + k2)%nat.
    split; [|lia]. split; [done|done|]. exists ml, k1, k2. split_and!; [done| | |done].
    + by rewrite <- Nat.add_assoc.
    + rewrite <- E2. f_equal. f_equal; lia.
  - intros (pos & [Hflag Hid (ml & k1 & k2 & E1 & Hone & E2 & ->)] & ->). exists ().
    rewrite verify_consensus_log_run, Hat, Hsl, E1 by lia. split; [done|].
    cbn [mbind option_bind]. pose proof (compact_read_bound _ _ _ E1) as [_ Hk1]. consts.
    rewrite Hat by lia. rewrite Nat.add_assoc, decide_True by done. cbn [mbind option_bind].
    rewrite encoded_num_authorities_run, Hsl by (done || consts; lia).
    replace (start + (7 + k1))%nat with (start + 7 + k1)%nat by lia.
    replace (start + (7 + k1 + 5))%nat with (start + 12 + k1)%nat by lia.
    rewrite E2. cbn [mbind option_bind]. rewrite decide_True by done. f_equal. lia.
Qed.

Lemma validators_iff hb pos num pks enc :
  Forall (λ a, length a = PUBKEY_LENGTH) pks → 1 ≤ num →
  (pos + length pks * 40 + 4 ≤ length hb)%nat →
  enc = hb.[pos to pos + (length pks * 40 + 4)] →
  (∀ i, (i < length pks)%nat → validator_ok num pks enc i) ↔ authorities_at hb pos num pks.
Proof.
  intros Hpks Hnum Hlen ->. unfold authorities_at. cbv zeta.
  assert (∀ a b, (a ≤ b ≤ length pks * 40 + 4)%nat →
    (hb.[pos to pos + (length pks * 40 + 4)]).[a to b] = hb.[pos + a to pos + b]) as Hsl
    by (intros; apply slice_slice; lia).
  assert (take (Z.to_nat num) pks = take (Z.to_nat num `min` length pks) pks) as ->.
  { destruct (decide (Z.to_nat num ≤ length pks)%nat); [f_equal; lia|].
    by rewrite !take_ge by lia. }
  rewrite length_take, Nat.min_l by lia.
  rewrite authorities_by_slot by (done || lia). unfold validator_ok. split.
  - intros Hok. split.
    + intros i Hi. destruct (Hok i) as [[Hk Hw] _]; [lia|lia|].
      rewrite Hsl in Hk, Hw by lia. by rewrite !Nat.add_assoc in *.
    + intros Hcap. destruct (Hok (Z.to_nat num - 1)%nat) as [_ Hd]; [lia|].
      rewrite <- Hd, Hsl by lia. f_equal; lia.
  - intros [Hslots Hdelay] i Hi. rewrite !Hsl, !Nat.add_assoc by lia. split.
    + intros Hin. apply Hslots. lia.
    + intros Hend. rewrite <- Hdelay by lia. f_equal; lia.
Qed.

(** The ranges in which every read of the circuit stays inside the header array. *)
Record rotate_bounds (MAX : nat) (h : EncodedHeader) (start : Felt) (num : Felt)
    (pks : list Bytes32) : Prop := {
  rb_u8 : Forall is_u8 (header_bytes h);
  rb_size : Z.of_nat (length (header_bytes h)) < 2 ^ 32;
  rb_start : 0 ≤ start;
  rb_room : start + Z.of_nat MAX_PREFIX_LENGTH + Z.of_nat (MAX * VALIDATOR_LENGTH + DELAY_LENGTH)
    ≤ Z.of_nat (length (header_bytes h));
  rb_num : 0 ≤ num;
  rb_keys : length pks = MAX;
  rb_keys_length : Forall (λ a, length a = PUBKEY_LENGTH) pks;
}.

Lemma verify_epoch_end_header_run MAX h hash num start pks :
  rotate_bounds MAX h start num pks →
  verify_epoch_end_header MAX (MAX * VALIDATOR_LENGTH + DELAY_LENGTH) h hash num start pks
    = Some ()
  ↔ num ≠ 0 ∧ ∃ pos, log_prefix (header_bytes h) (Z.to_nat start) num pos
      ∧ authorities_at (header_bytes h) pos num pks.
Proof.
  intros [Hu8 Hsize Hstart Hroom Hnum Hkeys Hlens]. unfold verify_epoch_end_header.
  circuit. rewrite assert_is_equal_spec.
  destruct (decide (num = 0)) as [->|Hne]; [naive_solver|].
  rewrite bool_decide_eq_false_2, decide_True by done. cbn [mbind option_bind].
  rewrite get_fixed_subarray_spec by (consts; lia). cbn [mbind option_bind].
  set (hb := header_bytes h) in *. set (s := Z.to_nat start) in *.
  assert (s + MAX_PREFIX_LENGTH ≤ length hb)%nat as Hs by (consts; lia).
  pose proof (prefix_run hb s hash num) as Hprefix. cbv zeta in Hprefix.
  set (sub := hb.[s to s + MAX_PREFIX_LENGTH]) in *.
  pose proof order_large as Ho.
  assert (∀ pos, log_prefix hb s num pos →
    get_fixed_subarray (MAX * VALIDATOR_LENGTH + DELAY_LENGTH) hb
      (add start (Z.of_nat (pos - s))) hash
    = Some hb.[pos to pos + (MAX * VALIDATOR_LENGTH + DELAY_LENGTH)]) as Henc.
  { intros pos Hpos%log_prefix_pos. consts.
    rewrite add_small by lia. rewrite get_fixed_subarray_spec by lia.
    do 2 f_equal; lia. }
  assert (∀ pos, log_prefix hb s num pos →
    (∃ d, for_loop (validator_step num pks
        hb.[pos to pos + (MAX * VALIDATOR_LENGTH + DELAY_LENGTH)]) (seq 0 MAX) false = Some d)
    ↔ authorities_at hb pos num pks) as Hloop.
  { intros pos Hpos%log_prefix_pos.
    rewrite <- validators_iff by (done || consts; lia). consts.
    setoid_rewrite validator_loop_run; [|lia]. rewrite <- Hkeys. naive_solver. }
  split.
  - intros Hrun. split; [done|].
    apply bind_Some in Hrun as ([] & H1' & Hrun). apply bind_Some in Hrun as (c & H2' & Hrun).
    apply bind_Some in Hrun as (t & H3' & Hrun).
    destruct (proj1 (Hprefix t Hu8 Hs Hnum)) as (pos & Hpos & ->).
    { rewrite H1'. cbn [mbind option_bind]. by rewrite H2'. }
    exists pos. split; [done|]. rewrite Henc in Hrun by done. cbn [mbind option_bind] in Hrun.
    apply bind_Some in Hrun as (d & Hd & _). apply Hloop; eauto.
  - intros [_ (pos & Hpos & Hauth)].
    assert ((∃ t, t = Z.of_nat (pos - s))) as [t Ht] by eauto.
    pose proof (proj2 (Hprefix t Hu8 Hs Hnum) (ex_intro _ pos (conj Hpos Ht))) as Hrun.
    apply bind_Some in Hrun as ([] & H1' & Hrun). apply bind_Some in Hrun as (c & H2' & H3').
    rewrite H1'. cbn [mbind option_bind]. rewrite H2'. cbn [mbind option_bind].
    rewrite H3'. cbn [mbind option_bind]. subst t. rewrite Henc by done.
    cbn [mbind option_bind]. apply Hloop in Hauth as [d ->]; done.
Qed.
End EpochEnd.

(** ** Encoding of the log, as the runtime writes it *)

(** The message of a scheduled change: the flag, the authorities, the delay. *)
Definition scheduled_change_message (keys : list Bytes32) : bytes :=
  [1] ++ Scale.compact_encode (Z.of_nat (length keys)) ++ encode_authorities keys
    ++ expected_delay_bytes.

(** The consensus digest item of a message: tag, engine id, length, message. *)
Definition consensus_log (message : bytes) : bytes :=
  [4] ++ [70; 82; 78; 75] ++ Scale.compact_encode (Z.of_nat (length message)) ++ message.

(** The log of a change to [keys] follows the byte at [start]. *)
Definition log_layout (hb : bytes) (start : nat) (keys : list Bytes32) : Prop :=
  ∃ before skipped after,
    hb = before ++ [skipped] ++ consensus_log (scheduled_change_message keys) ++ after
    ∧ length before = start.

Section Layout.
Context `{CircuitBuilderLaws}.

Lemma consensus_log_u8 keys :
  Forall (Forall is_u8) keys → Forall is_u8 (consensus_log (scheduled_change_message keys)).
Proof.
  intros Hkeys. unfold consensus_log, scheduled_change_message.
  rewrite !Forall_app.
  assert (Forall is_u8 (encode_authorities keys)) as Ha; [|split_and!; auto using compact_encode_u8; by_decide].
  induction Hkeys as [|k keys Hk _ IH]; [constructor|].
  unfold encode_authorities, encode_authority. cbn [map concat].
  rewrite !Forall_app. split_and!; [done|by_decide|exact IH].
Qed.

Lemma compact_read_at (hb p t : bytes) n a :
  hb = p ++ Scale.compact_encode n ++ t → length p = a → is_u32 n → Forall is_u8 t →
  (4 ≤ length t)%nat →
  compact_read hb.[a to a + 5] = Some (n, length (Scale.compact_encode n)).
Proof.
  intros -> <- Hn Ht Hlen. pose proof (length_compact_encode n) as Hk. consts.
  rewrite slice_app_r by lia. rewrite Nat.sub_diag.
  replace (length p + 5 - length p)%nat with 5%nat by lia.
  assert ((Scale.compact_encode n ++ t).[0 to 5]
    = Scale.compact_encode n ++ take (5 - length (Scale.compact_encode n)) t) as ->.
  { unfold slice. rewrite drop_0, Nat.sub_0_r. by rewrite take_app_ge by lia. }
  apply compact_read_encode; [done|by apply Forall_take|].
  rewrite length_app, length_take. consts. lia.
Qed.

Lemma log_layout_prefix hb start keys pks :
  Forall is_u8 hb → log_layout hb start keys →
  Forall (λ a, length a = PUBKEY_LENGTH) keys →
  is_u32 (Z.of_nat (length (scheduled_change_message keys))) →
  is_u32 (Z.of_nat (length keys)) →
  take (length keys) pks = keys →
  ∃ pos, log_prefix hb start (Z.of_nat (length keys)) pos
    ∧ authorities_at hb pos (Z.of_nat (length keys)) pks.
Proof.
  intros Hu8 (before & skipped & after & Hhb & Hstart) Hkeys Hml Hn Htake.
  set (m := Scale.compact_encode (Z.of_nat (length (scheduled_change_message keys)))) in *.
  set (c := Scale.compact_encode (Z.of_nat (length keys))) in *.
  assert (hb = (before ++ [skipped; 4; 70; 82; 78; 75]) ++ m ++ [1] ++ c
    ++ encode_authorities keys ++ expected_delay_bytes ++ after) as E.
  { rewrite Hhb. unfold consensus_log, scheduled_change_message.
    rewrite <- !app_assoc. done. }
  clear Hhb. pose proof Hu8 as Hparts. rewrite E in Hparts.
  rewrite !Forall_app in Hparts.
  destruct Hparts as (_ & _ & H1' & Hc & Hka & Hde & Haf).
  pose proof (length_encode_authorities keys Hkeys) as Hlk.
  assert (length (before ++ [skipped; 4; 70; 82; 78; 75]) = (start + 6)%nat) as Hp
    by (rewrite length_app, Hstart; done).
  exists (start + 7 + length m + length c)%nat. split; [split|].
  - rewrite E, <- !app_assoc. rewrite list_lookup_total_alt, lookup_app_r by lia.
    by replace (start + 1 - length before)%nat with 1%nat by lia.
  - rewrite E, <- !app_assoc, slice_app_r by lia.
    replace (start + 2 - length before)%nat with 2%nat by lia.
    by replace (start + 6 - length before)%nat with 6%nat by lia.
  - exists (Z.of_nat (length (scheduled_change_message keys))), (length m), (length c).
    split_and!; [| | |done].
    + replace (start + 11)%nat with (start + 6 + 5)%nat by lia.
      eapply compact_read_at; [exact E|exact Hp|done| |].
      * rewrite !Forall_app. auto.
      * rewrite !length_app. simpl. lia.
    + rewrite E, list_lookup_total_alt, lookup_app_r by lia.
      rewrite lookup_app_r by lia. rewrite Hp.
      by replace (start + 6 + length m - (start + 6) - length m)%nat with 0%nat by lia.
    + replace (start + 12 + length m)%nat with (start + 7 + length m + 5)%nat by lia.
      eapply (compact_read_at _ ((before ++ [skipped; 4; 70; 82; 78; 75]) ++ m ++ [1]));
        [rewrite E, <- !app_assoc; done| |done| |].
      * rewrite !length_app in *. simpl in *. lia.
      * rewrite !Forall_app. auto.
      * rewrite !length_app. simpl. lia.
  - unfold authorities_at. cbv zeta. rewrite Nat2Z.id, Htake, <- Hlk. split; [|intros _].
    + replace hb with (((before ++ [skipped; 4; 70; 82; 78; 75]) ++ m ++ [1] ++ c)
        ++ encode_authorities keys ++ expected_delay_bytes ++ after)
        by (rewrite E, <- !app_assoc; done).
      apply slice_at; rewrite !length_app in *; simpl in *; lia.
    + replace hb with (((before ++ [skipped; 4; 70; 82; 78; 75]) ++ m ++ [1] ++ c
        ++ encode_authorities keys) ++ expected_delay_bytes ++ after)
        by (rewrite E, <- !app_assoc; done).
      apply slice_at; rewrite !length_app in *; simpl in *; lia.
Qed.
(** A header with the log of a change to [keys] passes the checks for them. *)
Lemma verify_epoch_end_header_layout MAX h hash start pks keys :
  rotate_bounds MAX h start (Z.of_nat (length keys)) pks → keys ≠ [] →
  log_layout (header_bytes h) (Z.to_nat start) keys → take (length keys) pks = keys →
  verify_epoch_end_header MAX (MAX * VALIDATOR_LENGTH + DELAY_LENGTH) h hash
    (Z.of_nat (length keys)) start pks = Some ().
Proof.
  intros Hb Hne Hlog Htake. apply verify_epoch_end_header_run; [done|].
  split; [destruct keys; [done|]; simpl; lia|].
  pose proof Hb as [Hu8 Hsize _ _ _ _ Hlens].
  assert (Forall (λ a, length a = PUBKEY_LENGTH) keys) as Hkeys
    by (rewrite <- Htake; by apply Forall_take).
  assert (length (scheduled_change_message keys) ≤ length (header_bytes h))%nat as Hfit.
  { destruct Hlog as (? & ? & ? & -> & _). unfold consensus_log.
    rewrite !length_app. lia. }
  assert (length keys ≤ length (scheduled_change_message keys))%nat as Hfit'.
  { unfold scheduled_change_message. rewrite !length_app.
    rewrite length_encode_authorities by done. lia. }
  apply log_layout_prefix; unfold is_u32; (done || lia).
Qed.
End Layout.

(** ** Properties *)
Section Properties.
Context `{CircuitBuilderLaws}.

(** What [rotate] outputs. *)
Lemma rotate_run MAX hint id sh r new_hash :
  let bn := epoch_end_block_number r in
  let h := target_header r in
  let num := target_header_num_authorities r in
  justification_bounds MAX (hint bn id) → is_u32 bn → is_u64 id →
  rotate_bounds MAX h (next_authority_set_start_position r) num (new_pubkeys r) →
  0 ≤ header_size h ≤ Z.of_nat (length (header_bytes h)) →
  rotate MAX (MAX * VALIDATOR_LENGTH + DELAY_LENGTH) hint id sh r = Some new_hash
  ↔ justification_valid (hint bn id) bn
      (blake2_256 (take (Z.to_nat (header_size h)) (header_bytes h))) id sh
    ∧ num ≠ 0
    ∧ (∃ pos, log_prefix (header_bytes h)
         (Z.to_nat (next_authority_set_start_position r)) num pos
       ∧ authorities_at (header_bytes h) pos num (new_pubkeys r))
    ∧ new_hash = compute_authority_set_hash (take (Z.to_nat num) (new_pubkeys r)).
Proof.
  intros bn h num Hj Hbn Hid Hr Hsize. unfold rotate. rewrite decide_True by done.
  unfold hash_encoded_header. fold h. rewrite curta_blake2b_variable_spec by done.
  cbn [mbind option_bind]. fold bn num.
  rewrite compute_authority_set_commitment_run by (apply Hj || apply Hr).
  rewrite bind_Some. split.
  - intros ([] & Hjust & Hrun). apply bind_Some in Hrun as ([] & Hhead & Hrun).
    apply verify_simple_justification_run in Hjust; [|done..].
    apply verify_epoch_end_header_run in Hhead as [Hne Hlog]; [|done].
    rewrite decide_False in Hrun by done. by injection Hrun as <-.
  - intros (Hjust & Hne & Hlog & ->). exists (). split.
    + by apply verify_simple_justification_run.
    + rewrite (proj2 (verify_epoch_end_header_run _ _ _ _ _ _ Hr)) by done.
      cbn [mbind option_bind]. by rewrite decide_False by done.
Qed.

(** The checks on an epoch end header succeed exactly when the bytes from
    the start position on are a GRANDPA consensus log with a scheduled change to
    a positive number of authorities, the encoded keys are those of the array in
    the same order, every weight is one and the delay is zero. *)
Theorem epoch_end_header_iff MAX h hash num start pks :
  rotate_bounds MAX h start num pks →
  verify_epoch_end_header MAX (MAX * VALIDATOR_LENGTH + DELAY_LENGTH) h hash num start pks
    = Some ()
  ↔ num ≠ 0 ∧ ∃ pos, log_prefix (header_bytes h) (Z.to_nat start) num pos
      ∧ authorities_at (header_bytes h) pos num pks.
Proof. apply verify_epoch_end_header_run. Qed.

(** A header that holds the log of a change to [keys], as the runtime
    encodes it, passes the checks for those keys at the position of that log,
    whatever the lengths of its compact integers and the padding of the array. *)
Theorem epoch_end_header_complete MAX h hash start pks keys :
  rotate_bounds MAX h start (Z.of_nat (length keys)) pks → keys ≠ [] →
  log_layout (header_bytes h) (Z.to_nat start) keys → take (length keys) pks = keys →
  verify_epoch_end_header MAX (MAX * VALIDATOR_LENGTH + DELAY_LENGTH) h hash
    (Z.of_nat (length keys)) start pks = Some ().
Proof. apply verify_epoch_end_header_layout. Qed.



(** C28: nothing keeps the log inside the hashed header.  With any header that the
    current set justified, and any keys in a log behind it, in the unhashed rest
    of the array, the circuit outputs the authority set hash of those keys. *)
Theorem log_in_padding_accepted MAX hint id sh bn hdr keys room :
  let hb := hdr ++ [0] ++ consensus_log (scheduled_change_message keys) ++ replicate room 0 in
  let r := {| epoch_end_block_number := bn;
              target_header :=
                {| header_bytes := hb; header_size := Z.of_nat (length hdr) |};
              target_header_num_authorities := Z.of_nat (length keys);
              next_authority_set_start_position := Z.of_nat (length hdr);
              new_pubkeys := keys ++ replicate (MAX - length keys) zero32 |} in
  justification_bounds MAX (hint bn id) → is_u32 bn → is_u64 id →
  justification_valid (hint bn id) bn (blake2_256 hdr) id sh →
  Forall is_u8 hdr → keys ≠ [] → (length keys ≤ MAX)%nat →
  Forall (λ k, length k = PUBKEY_LENGTH ∧ Forall is_u8 k) keys →
  (MAX_PREFIX_LENGTH + MAX * VALIDATOR_LENGTH + DELAY_LENGTH ≤ room)%nat →
  Z.of_nat (length hb) < 2 ^ 32 →
  rotate MAX (MAX * VALIDATOR_LENGTH + DELAY_LENGTH) hint id sh r
  = Some (compute_authority_set_hash keys).
Proof.
  intros hb r Hj Hbn Hid Hv Hhdr Hne Hcap Hkeys Hroom Hfit.
  assert (take (length keys) (new_pubkeys r) = keys) as Htake by apply take_app_length.
  assert (log_layout hb (length hdr) keys) as Hlay
    by (exists hdr, 0, (replicate room 0); done).
  apply Forall_and in Hkeys as [Hlen Hku8].
  assert (length (scheduled_change_message keys) < length hb)%nat as Hml.
  { unfold hb, consensus_log. rewrite !length_app. simpl. lia. }
  assert (length keys ≤ length (scheduled_change_message keys))%nat as Hfit'.
  { unfold scheduled_change_message. rewrite !length_app, length_encode_authorities by done. lia. }
  assert (Forall is_u8 hb) as Hu8.
  { apply Forall_app_2, Forall_app_2, Forall_app_2; [done|by_decide| |by apply Forall_replicate].
    by apply consensus_log_u8. }
  assert (rotate_bounds MAX (target_header r) (next_authority_set_start_position r)
    (target_header_num_authorities r) (new_pubkeys r)) as Hb.
  { split; [done|done|cbn; lia| |cbn; lia| |].
    - cbn [r target_header header_bytes next_authority_set_start_position].
      unfold hb. rewrite !length_app, length_replicate. lia.
    - cbn. rewrite length_app, length_replicate. lia.
    - apply Forall_app_2; [done|]. by apply Forall_replicate. }
  apply rotate_run; [done..| |].
  { cbn [r target_header header_bytes header_size]. unfold hb. rewrite !length_app. lia. }
  cbn [r target_header header_bytes header_size epoch_end_block_number
    target_header_num_authorities next_authority_set_start_position].
  rewrite !Nat2Z.id, Htake. split_and!; [|by destruct keys| |done].
  - unfold hb. by rewrite take_app_length.
  - apply log_layout_prefix; unfold is_u32; (done || lia).
Qed.
End Properties.

(** ** Witnesses *)
Import Ref.

(** A header of 240 bytes in an array of 280, whose log at position 97 announces
    the first two keys; the array of keys has three slots. *)
Definition epoch_header : EncodedHeader := {|
  header_bytes := replicate 97 7 ++ [4]
    ++ consensus_log (scheduled_change_message (take 2 sample_keys))
    ++ replicate (240 - 98 - 93) 9 ++ replicate 40 0;
  header_size := 240 |}.
Definition epoch_keys : list Bytes32 := take 2 sample_keys ++ [replicate 32 0].

Lemma epoch_bounds : rotate_bounds 3 epoch_header 97 2 epoch_keys.
Proof. split; by_decide. Qed.

Lemma epoch_end_header_iff_witness :
  verify_epoch_end_header 3 124 epoch_header [] 2 97 epoch_keys = Some ()
  ∧ ¬ verify_epoch_end_header 3 124 epoch_header [] 2 97 (rev epoch_keys) = Some ().
Proof.
  split; [|vm_compute; discriminate].
  apply (epoch_end_header_iff 3); [apply epoch_bounds|]. split; [done|].
  exists 107%nat. split; [split|split].
  - by_decide.
  - by_decide.
  - exists 86, 2%nat, 1%nat. split_and!; by_decide.
  - by_decide.
  - intros _. by_decide.
Defined.

Lemma epoch_end_header_complete_witness :
  verify_epoch_end_header 3 124 epoch_header [] 2 97 epoch_keys = Some ().
Proof.
  apply (epoch_end_header_complete 3 epoch_header [] 97 epoch_keys (take 2 sample_keys));
    [apply epoch_bounds|done| |by_decide].
  eexists (replicate 97 7), 4, _. split; [reflexivity|by_decide].
Defined.


(** The keys of the current set, all three of which sign the hashed header. *)
Definition current_keys : list Bytes32 := drop 2 sample_keys.
Definition epoch_precommit : bytes := encode_precommit {|
  pc_block_hash := blake2_256 (take 240 (header_bytes epoch_header));
  pc_block_number := 50; pc_justification_round := 3; pc_authority_set_id := 6 |}.
Definition epoch_justification : Justification := {|
  encoded_precommit := epoch_precommit;
  validator_signed := [true; true; true];
  signatures := map (λ pk, sign pk epoch_precommit) current_keys;
  pubkeys := current_keys;
  num_authorities := 3 |}.

Lemma epoch_justification_bounds : justification_bounds 3 epoch_justification.
Proof. split; try by_decide. split; by_decide. Qed.

Lemma epoch_justification_valid :
  justification_valid epoch_justification 50
    (blake2_256 (take 240 (header_bytes epoch_header))) 6 (compute_authority_set_hash current_keys).
Proof.
  split; [done|vm_compute; reflexivity| | |by_decide].
  - exists 3. split; [by_decide|vm_compute; reflexivity].
  - intros i s pk _. apply sign_all_verifies.
Qed.


(** The same justification installs a key of nobody, announced behind the header. *)
Lemma log_in_padding_accepted_witness :
  let hdr := take 240 (header_bytes epoch_header) in
  let nobody := replicate 32 99 in
  rotate 3 124 (λ _ _, epoch_justification) 6 (compute_authority_set_hash current_keys)
    {| epoch_end_block_number := 50;
       target_header :=
         {| header_bytes := hdr ++ [0] ++ consensus_log (scheduled_change_message [nobody])
              ++ replicate 141 0;
            header_size := 240 |};
       target_header_num_authorities := 1;
       next_authority_set_start_position := 240;
       new_pubkeys := [nobody; zero32; zero32] |}
  = Some (compute_authority_set_hash [nobody]).
Proof.
  intros hdr nobody.
  apply (log_in_padding_accepted 3 (λ _ _, epoch_justification) 6 _ 50 hdr [nobody] 141);
    [exact epoch_justification_bounds|by_decide|by_decide|exact epoch_justification_valid|by_decide..].
Defined.
