(* ===== verification/Subchain.v ===== *)
(** * Subchain verification in the circuit: circuits/builder/subchain_verification.rs

    [verify_subchain] walks the headers from a trusted block to a target block
    with a map-reduce circuit: every map job checks one batch of
    [HEADERS_PER_MAP] headers, every reduce step joins two neighbouring
    segments.  The headers come from a hint, which is an arbitrary function
    here: soundness holds for every hint, completeness for an honest one. *)

From stdpp Require Import sets.
From S2P Require Import Prelude Consts Vars Builder Reference Decoder.

(** ** Data *)
Record SubchainVerificationCtx := {
  global_start_block : U32;
  global_end_block : U32;
}.

Record MapReduceSubchain := {
  num_blocks : Felt;
  start_block : U32;
  start_header_hash : Bytes32;
  start_parent : Bytes32;
  end_block : U32;
  end_header_hash : Bytes32;
  state_merkle_root : Bytes32;
  data_merkle_root : Bytes32;
}.

(** The variables that the loop of the map stage assigns. *)
Record map_state := {
  block_nums : list U32;
  block_hashes : list Bytes32;
  block_parent_hashes : list Bytes32;
  block_state_roots : list Bytes32;
  block_data_roots : list Bytes32;
  end_block_num : U32;
  end_hash : Bytes32;
  num_headers : Felt;
  curr_block_noop : bool;
  nb_enabled_leaves : Felt;
}.

#[export] Instance EncodedHeader_inhabited : Inhabited EncodedHeader :=
  populate {| header_bytes := []; header_size := 0 |}.

(** ** Operations *)

(** [usize::next_power_of_two]. *)
Definition next_power_of_two (n : nat) : nat := (2 ^ Nat.log2_up n)%nat.

Section Operations.
Context `{CircuitBuilder}.

Definition map_init (is_batch_disabled : bool) : map_state := {|
  block_nums := []; block_hashes := []; block_parent_hashes := [];
  block_state_roots := []; block_data_roots := [];
  end_block_num := 0; end_hash := zero32; num_headers := 0;
  curr_block_noop := is_batch_disabled; nb_enabled_leaves := 0 |}.

(** One iteration of the loop over the headers of a batch. *)
Definition map_step (map_ctx : SubchainVerificationCtx) (headers : list EncodedHeader)
    (s : map_state) (i : nat) : option map_state :=
  let header : EncodedHeader := headers !!! i in
  hash ← hash_encoded_header header;
  let block_hashes := block_hashes s ++ [hash] in
  header_variable ← decode_header header hash;
  let block_nums := block_nums s ++ [block_number header_variable] in
  let block_parent_hashes := block_parent_hashes s ++ [parent_hash header_variable] in
  let block_state_roots := block_state_roots s ++ [state_root header_variable] in
  let block_data_roots := block_data_roots s ++ [data_root header_variable] in
  _ ← (if bool_decide (0 < i)%nat then
         let hashes_linked :=
           is_equal (A:=Bytes32) (block_parent_hashes !!! i) (block_hashes !!! (i - 1)%nat) in
         let expected_block_num := U32_add (block_nums !!! (i - 1)%nat) 1 in
         let nums_sequential := is_equal (A:=U32) (block_nums !!! i) expected_block_num in
         let header_correctly_linked := b_and hashes_linked nums_sequential in
         let link_check := b_or (curr_block_noop s) header_correctly_linked in
         assert_is_equal link_check true
       else Some ());
  let noop := curr_block_noop s in
  let is_final_block := is_equal (block_number header_variable) (global_end_block map_ctx) in
  Some {|
    block_nums := block_nums; block_hashes := block_hashes;
    block_parent_hashes := block_parent_hashes;
    block_state_roots := block_state_roots; block_data_roots := block_data_roots;
    end_block_num := select noop (end_block_num s) (block_number header_variable);
    end_hash := select noop (end_hash s) hash;
    num_headers := add (num_headers s) (select noop 0 1);
    nb_enabled_leaves := add (nb_enabled_leaves s) (select noop 0 1);
    curr_block_noop := b_or noop is_final_block |}.

(** The map stage, on the relative numbers of its batch. *)
Definition map_batch (hint : U32 → U32 → U32 → list EncodedHeader)
    (map_ctx : SubchainVerificationCtx) (map_relative_block_nums : list U32)
    : option MapReduceSubchain :=
  let batch_start_block :=
    U32_add (global_start_block map_ctx) (map_relative_block_nums !!! 0%nat) in
  let batch_end_block :=
    U32_add (global_start_block map_ctx)
      (map_relative_block_nums !!! (HEADERS_PER_MAP - 1)%nat) in
  let headers := hint batch_start_block batch_end_block (global_end_block map_ctx) in
  let is_batch_disabled := U32_lt (global_end_block map_ctx) batch_start_block in
  s ← for_loop (map_step map_ctx headers) (seq 0 HEADERS_PER_MAP) (map_init is_batch_disabled);
  let first_block_nb_check := is_equal (A:=U32) (block_nums s !!! 0%nat) batch_start_block in
  let first_block_nb_check := b_or first_block_nb_check is_batch_disabled in
  _ ← assert_is_equal first_block_nb_check true;
  let last_block_nb_check := is_equal (end_block_num s) batch_end_block in
  let last_block_nb_check := b_or last_block_nb_check (curr_block_noop s) in
  _ ← assert_is_equal last_block_nb_check true;
  Some {|
    num_blocks := num_headers s;
    start_block := block_nums s !!! 0%nat;
    start_header_hash := block_hashes s !!! 0%nat;
    start_parent := block_parent_hashes s !!! 0%nat;
    end_block := end_block_num s;
    end_header_hash := end_hash s;
    state_merkle_root := get_root_from_hashed_leaves (block_state_roots s) (nb_enabled_leaves s);
    data_merkle_root := get_root_from_hashed_leaves (block_data_roots s) (nb_enabled_leaves s) |}.

(** The reduce stage. *)
Definition reduce_segments (_ : SubchainVerificationCtx) (left right : MapReduceSubchain)
    : option MapReduceSubchain :=
  let are_subchains_linked := is_equal (end_header_hash left) (start_parent right) in
  let expected_left_end_block_number := U32_sub (start_block right) 1 in
  let are_subchains_sequential := is_equal (end_block left) expected_left_end_block_number in
  let are_subchains_linked := b_and are_subchains_linked are_subchains_sequential in
  let is_right_subchain_inactive := is_zero (num_blocks right) in
  let is_subchain_link_valid := b_or is_right_subchain_inactive are_subchains_linked in
  _ ← assert_is_equal is_subchain_link_valid true;
  Some {|
    num_blocks := add (num_blocks left) (num_blocks right);
    start_block := start_block left;
    start_header_hash := start_header_hash left;
    start_parent := start_parent left;
    end_block := select is_right_subchain_inactive (end_block left) (end_block right);
    end_header_hash :=
      select is_right_subchain_inactive (end_header_hash left) (end_header_hash right);
    state_merkle_root := sha256 (state_merkle_root left ++ state_merkle_root right);
    data_merkle_root := sha256 (data_merkle_root left ++ data_merkle_root right) |}.

Definition verify_subchain (MAX_NUM_HEADERS : nat)
    (hint : U32 → U32 → U32 → list EncodedHeader)
    (trusted_block : U32) (trusted_header_hash : Bytes32) (target_block : U32)
    : option SubchainVerification :=
  let ctx := {| global_start_block := trusted_block; global_end_block := target_block |} in
  let num_map_jobs := next_power_of_two (MAX_NUM_HEADERS / HEADERS_PER_MAP) in
  let relative_block_nums := map Z.of_nat (seq 1 (num_map_jobs * HEADERS_PER_MAP)) in
  output ← mapreduce HEADERS_PER_MAP ctx relative_block_nums (map_batch hint) reduce_segments;
  _ ← assert_is_equal trusted_header_hash (start_parent output);
  _ ← assert_is_equal target_block (end_block output);
  Some {|
    target_header_hash := end_header_hash output;
    state_root_merkle_root := state_merkle_root output;
    data_root_merkle_root := data_merkle_root output |}.
End Operations.

(** ** Chains of headers *)

(** A header with its hash and its decoded fields. *)
Record block := { bk_header : EncodedHeader; bk_hash : Bytes32; bk_fields : Header }.

#[export] Instance block_eq_dec : EqDecision block.
Proof. solve_decision. Defined.
#[export] Instance block_inhabited : Inhabited block :=
  populate {| bk_header := inhabitant; bk_hash := [];
              bk_fields := {| block_number := 0; parent_hash := []; state_root := []; data_root := [] |} |}.

Abbreviation bk_number b := (block_number (bk_fields b)).
Abbreviation bk_parent b := (parent_hash (bk_fields b)).
Abbreviation bk_state_root b := (state_root (bk_fields b)).
Abbreviation bk_data_root b := (data_root (bk_fields b)).

(** What the map stage derives from one encoded header. *)
Definition decode_block `{CircuitBuilder} (h : EncodedHeader) : option block :=
  hash ← hash_encoded_header h;
  fields ← decode_header h hash;
  Some {| bk_header := h; bk_hash := hash; bk_fields := fields |}.

(** The size stays within the array, as the gadget that hashes it requires. *)
Definition size_ok (h : EncodedHeader) : Prop :=
  is_u32 (header_size h) ∧ header_size h ≤ Z.of_nat (length (header_bytes h)).

(** A block whose hash and fields are those of its header. *)
Definition authentic `{CircuitBuilder} (b : block) : Prop :=
  decode_block (bk_header b) = Some b ∧ size_ok (bk_header b).

(** [linked n h bs]: the blocks [bs] follow the block of number [n] and hash [h],
    each with the next number and the hash of its predecessor as parent. *)
Fixpoint linked (n : U32) (h : Bytes32) (bs : list block) : Prop :=
  match bs with
  | [] => True
  | b :: bs' => bk_parent b = h ∧ bk_number b = n + 1 ∧ linked (n + 1) (bk_hash b) bs'
  end.

#[export] Instance linked_dec n h bs : Decision (linked n h bs).
Proof. revert n h; induction bs; simpl; apply _. Defined.

(** The number and the hash that a chain ends in, with a default. *)
Definition last_number (n : U32) (bs : list block) : U32 :=
  from_option (λ b, bk_number b) n (last bs).
Definition last_hash (h : Bytes32) (bs : list block) : Bytes32 :=
  from_option bk_hash h (last bs).

(** Leaves padded with empty leaves. *)
Definition padded (size : nat) (leaves : list Bytes32) : list Bytes32 :=
  leaves ++ replicate (size - length leaves) zero32.

(** ** Facts on chains *)
Lemma last_number_snoc n bs b : last_number n (bs ++ [b]) = bk_number b.
Proof. unfold last_number. by rewrite last_snoc. Qed.

Lemma last_hash_snoc h bs b : last_hash h (bs ++ [b]) = bk_hash b.
Proof. unfold last_hash. by rewrite last_snoc. Qed.

Lemma last_hash_cons h b bs : last_hash h (b :: bs) = last_hash (bk_hash b) bs.
Proof. unfold last_hash. rewrite last_cons. by destruct (last bs). Qed.

Lemma last_hash_app h bs cs : last_hash h (bs ++ cs) = last_hash (last_hash h bs) cs.
Proof. unfold last_hash. rewrite last_app. by destruct (last cs). Qed.

Lemma last_number_app n bs cs : last_number n (bs ++ cs) = last_number (last_number n bs) cs.
Proof. unfold last_number. rewrite last_app. by destruct (last cs). Qed.

Lemma linked_app n h bs cs :
  linked n h (bs ++ cs)
  ↔ linked n h bs ∧ linked (n + Z.of_nat (length bs)) (last_hash h bs) cs.
Proof.
  revert n h; induction bs as [|b bs IH]; intros n h; cbn [linked app length].
  { rewrite Z.add_0_r. naive_solver. }
  rewrite IH, last_hash_cons.
  replace (n + 1 + Z.of_nat (length bs)) with (n + Z.of_nat (S (length bs))) by lia.
  naive_solver.
Qed.

Lemma linked_take n h bs k : linked n h bs → linked n h (take k bs).
Proof. rewrite <- (take_drop k bs) at 1. by rewrite linked_app; intros [? _]. Qed.

Lemma linked_lookup n h bs i b :
  linked n h bs → bs !! i = Some b → bk_number b = n + 1 + Z.of_nat i.
Proof.
  revert n h i; induction bs as [|c bs IH]; intros n h [|i] Hl Hi; try done.
  - injection Hi as ->. cbn [linked] in Hl. lia.
  - cbn [linked] in Hl. destruct Hl as (_ & _ & Hl).
    rewrite (IH _ _ _ Hl Hi). lia.
Qed.

Lemma linked_last_number n h bs m :
  bs ≠ [] → linked n h bs → last_number m bs = n + Z.of_nat (length bs).
Proof.
  destruct bs as [|b bs _] using rev_ind; [done|]. intros _ Hl.
  rewrite last_number_snoc, length_app. apply linked_app in Hl as [_ Hl].
  cbn [linked length] in *. lia.
Qed.

(** The parent of the first block is the only one the links leave open. *)
Lemma linked_head n h bs b :
  linked n h bs → head bs = Some b → h = bk_parent b.
Proof. destruct bs; naive_solver. Qed.

Lemma length_padded size l : (length l ≤ size)%nat → length (padded size l) = size.
Proof. intros. unfold padded. rewrite length_app, length_replicate. lia. Qed.

Lemma padded_app k j l r :
  length l = k → padded (k + j) (l ++ r) = l ++ padded j r.
Proof. intros <-. unfold padded. rewrite length_app, <- app_assoc. do 3 f_equal. lia. Qed.

Lemma padded_full k l : length l = k → padded k l = l.
Proof. intros <-. unfold padded. by rewrite Nat.sub_diag, app_nil_r. Qed.

Lemma padded_split k j l :
  (length l ≤ k)%nat → padded (k + j) l = padded k l ++ padded j [].
Proof.
  intros. unfold padded. rewrite <- app_assoc. f_equal. cbn [app length].
  rewrite <- replicate_add. f_equal. lia.
Qed.

Lemma merkle_root_append `{Hashing} d l r :
  length l = (2 ^ d)%nat →
  merkle_root (S d) (l ++ r) = Sha256 (merkle_root d l ++ merkle_root d r).
Proof. intros E. cbn [merkle_root]. by rewrite <- E, take_app_length, drop_app_length. Qed.

(** The empty leaves that the builder puts in place of the disabled ones. *)
Lemma enable_leaves_padded (l : list Bytes32) n :
  (n ≤ length l)%nat → enable_leaves n l = padded (length l) (take n l).
Proof. intros. unfold enable_leaves, padded. by rewrite length_take, Nat.min_l. Qed.

(** ** The map stage *)

(** The state of the loop after the blocks [bs], of which the first [count] are
    up to the target. *)
Definition state_after (count : nat) (bs : list block) : map_state := {|
  block_nums := map (λ b, bk_number b) bs;
  block_hashes := map bk_hash bs;
  block_parent_hashes := map (λ b, bk_parent b) bs;
  block_state_roots := map (λ b, bk_state_root b) bs;
  block_data_roots := map (λ b, bk_data_root b) bs;
  end_block_num := last_number 0 (take count bs);
  end_hash := last_hash zero32 (take count bs);
  num_headers := Z.of_nat (count `min` length bs);
  curr_block_noop := bool_decide (count ≤ length bs)%nat;
  nb_enabled_leaves := Z.of_nat (count `min` length bs) |}.

Record arrays (s : map_state) (bs : list block) : Prop := {
  arr_nums : block_nums s = map (λ b, bk_number b) bs;
  arr_hashes : block_hashes s = map bk_hash bs;
  arr_parents : block_parent_hashes s = map (λ b, bk_parent b) bs;
  arr_state_roots : block_state_roots s = map (λ b, bk_state_root b) bs;
  arr_data_roots : block_data_roots s = map (λ b, bk_data_root b) bs;
}.

Lemma state_after_arrays count bs : arrays (state_after count bs) bs.
Proof. by split. Qed.

(** Appending to the arrays, and reading the last two entries. *)
Lemma lookup_total_snoc {A} `{!Inhabited A} (l : list A) x i :
  i = length l → (l ++ [x]) !!! i = x.
Proof. intros ->. by rewrite list_lookup_total_middle. Qed.

Lemma lookup_total_before_snoc {A} `{!Inhabited A} (f : block → A) bs x d i :
  i = length bs → (0 < i)%nat →
  (map f bs ++ [x]) !!! (i - 1)%nat = from_option f d (last bs).
Proof.
  intros ->. destruct bs as [|b bs _] using rev_ind; [simpl; lia|]. intros _.
  rewrite last_snoc, map_app, <- app_assoc. cbn [map from_option app].
  apply list_lookup_total_middle. rewrite length_map, length_app. simpl. lia.
Qed.

Section MapStage.
Context `{CircuitBuilderLaws}.
Context (ctx : SubchainVerificationCtx).

(** The state after pushing one more block. *)
Definition push (s : map_state) (b : block) : map_state := {|
  block_nums := block_nums s ++ [bk_number b];
  block_hashes := block_hashes s ++ [bk_hash b];
  block_parent_hashes := block_parent_hashes s ++ [bk_parent b];
  block_state_roots := block_state_roots s ++ [bk_state_root b];
  block_data_roots := block_data_roots s ++ [bk_data_root b];
  end_block_num := if curr_block_noop s then end_block_num s else bk_number b;
  end_hash := if curr_block_noop s then end_hash s else bk_hash b;
  num_headers := add (num_headers s) (if curr_block_noop s then 0 else 1);
  nb_enabled_leaves := add (nb_enabled_leaves s) (if curr_block_noop s then 0 else 1);
  curr_block_noop := curr_block_noop s || bool_decide (bk_number b = global_end_block ctx) |}.

Lemma push_arrays s bs b : arrays s bs → arrays (push s b) (bs ++ [b]).
Proof. intros [E1 E2 E3 E4 E5]. split; cbn; by rewrite ?E1, ?E2, ?E3, ?E4, ?E5, map_app. Qed.

Lemma map_step_run headers s bs i :
  arrays s bs → i = length bs →
  map_step ctx headers s i =
    (b ← decode_block (headers !!! i);
     if decide (i = 0%nat ∨ curr_block_noop s = true
                ∨ bk_parent b = last_hash [] bs
                  ∧ bk_number b = U32_add (last_number 0 bs) 1)
     then Some (push s b) else None).
Proof.
  intros [E1 E2 E3 E4 E5] Hi. unfold map_step, decode_block.
  destruct (hash_encoded_header _) as [hash|]; [|done]. cbn [mbind option_bind].
  destruct (decode_header _ hash) as [f|]; [|done]. cbn [mbind option_bind bk_fields bk_hash].
  circuit. set (next := Some _).
  assert (next = Some (push s {| bk_header := headers !!! i; bk_hash := hash; bk_fields := f |}))
    as Hnext by done.
  destruct (decide (i = 0%nat)) as [->|Hne].
  { rewrite bool_decide_eq_false_2 by lia. cbn [mbind option_bind].
    rewrite decide_True by auto. done. }
  rewrite bool_decide_eq_true_2 by lia. rewrite E1, E2, E3.
  rewrite (lookup_total_snoc (A:=Bytes32) _ _ i), (lookup_total_snoc (A:=U32) _ _ i)
    by by rewrite length_map.
  rewrite (lookup_total_before_snoc _ bs _ 0), (lookup_total_before_snoc _ bs _ []) by lia.
  fold (last_hash [] bs) (last_number 0 bs). rewrite assert_is_equal_spec.
  rewrite Hnext. destruct (curr_block_noop s); cbn [orb].
  { rewrite !decide_True by auto. done. }
  rewrite <- bool_decide_and.
  destruct (decide (parent_hash f = last_hash [] bs ∧ block_number f = U32_add (last_number 0 bs) 1))
    as [Hl|Hl].
  - rewrite bool_decide_eq_true_2, !decide_True by auto. done.
  - rewrite bool_decide_eq_false_2 by done. rewrite !decide_False by naive_solver. done.
Qed.

(** A block pushed at its place in the numbering. *)
Lemma push_state_after start count bs b :
  count = Z.to_nat (global_end_block ctx + 1 - start) →
  (length bs ≤ HEADERS_PER_MAP)%nat →
  ((length bs < count)%nat → bk_number b = start + Z.of_nat (length bs)) →
  push (state_after count bs) b = state_after count (bs ++ [b]).
Proof.
  intros Hcount Hlen Hnum. pose proof order_large. consts.
  unfold push, state_after. rewrite !map_app, length_app.
  cbn [map length curr_block_noop end_block_num end_hash num_headers nb_enabled_leaves
    block_nums block_hashes block_parent_hashes block_state_roots block_data_roots].
  destruct (decide (count ≤ length bs)%nat) as [Hle|Hlt].
  - rewrite !(bool_decide_eq_true_2 (count ≤ _)%nat) by lia. rewrite !take_app_le by lia.
    rewrite !add_small by lia. cbn [orb]. f_equal; lia.
  - rewrite (bool_decide_eq_false_2 (count ≤ length bs)%nat) by lia. cbn [orb].
    rewrite Hnum, !add_small by lia. rewrite (take_ge (bs ++ [b])) by (rewrite length_app; simpl; lia).
    rewrite last_number_snoc, last_hash_snoc, Hnum by lia. f_equal; try lia.
    apply bool_decide_ext. lia.
Qed.
End MapStage.

(** ** Segments

    [segment Q trusted target a d out bs]: [out] is the result of the subtree of
    [2 ^ d] map jobs behind the first [a] blocks, and [bs] are the blocks of that
    range up to the target. *)
Record segment `{Hashing, CircuitBuilder} (Q : block → Prop) (trusted target : U32) (a d : nat)
    (out : MapReduceSubchain) (bs : list block) : Prop := {
  seg_length : length bs =
    ((HEADERS_PER_MAP * 2 ^ d) `min` (Z.to_nat (target - trusted) - a))%nat;
  seg_all : Forall Q bs;
  seg_linked : linked (trusted + Z.of_nat a) (start_parent out) bs;
  seg_num : num_blocks out = Z.of_nat (length bs);
  seg_start : bs ≠ [] → start_block out = trusted + Z.of_nat a + 1;
  seg_end : end_block out = last_number 0 bs;
  seg_end_hash : end_header_hash out = last_hash zero32 bs;
  seg_state : state_merkle_root out =
    merkle_root (3 + d) (padded (HEADERS_PER_MAP * 2 ^ d)%nat (map (λ b, bk_state_root b) bs));
  seg_data : data_merkle_root out =
    merkle_root (3 + d) (padded (HEADERS_PER_MAP * 2 ^ d)%nat (map (λ b, bk_data_root b) bs));
}.

(** The blocks that the headers decode to. *)
Abbreviation decoded := (Forall2 (λ h b, decode_block h = Some b)).

Lemma decode_block_header `{CircuitBuilder} h b : decode_block h = Some b → bk_header b = h.
Proof. unfold decode_block. intros. bind_inv. done. Qed.

Lemma decoded_authentic `{CircuitBuilder} hs bs :
  decoded hs bs → Forall size_ok hs → Forall authentic bs.
Proof.
  induction 1 as [|h b hs bs Hb _ IH]; intros Hs; constructor; apply Forall_cons in Hs as [? ?].
  - unfold authentic. by rewrite (decode_block_header _ _ Hb).
  - auto.
Qed.

Lemma decoded_elem `{CircuitBuilder} hs bs :
  decoded hs bs → Forall (λ b, bk_header b ∈ hs) bs.
Proof.
  intros Hdec. apply Forall_forall. intros b [i Hi]%list_elem_of_lookup_1.
  destruct (Forall2_lookup_r _ _ _ _ _ Hdec Hi) as (h & Hh & Hb).
  rewrite (decode_block_header _ _ Hb). by eapply list_elem_of_lookup_2.
Qed.

(** A header that a hint returned. *)
Definition from_hint (hint : U32 → U32 → U32 → list EncodedHeader) (h : EncodedHeader) : Prop :=
  ∃ first last max, h ∈ hint first last max.

Section Batch.
Context `{CircuitBuilderLaws}.
Context (hint : U32 → U32 → U32 → list EncodedHeader).
Context (trusted target : U32) (a : nat).
Context (Htrusted : 0 ≤ trusted) (Htarget : is_u32 target).
Context (Hroom : trusted + Z.of_nat (a + HEADERS_PER_MAP) < 2 ^ 32).

Let ctx := {| global_start_block := trusted; global_end_block := target |}.
Let start := trusted + Z.of_nat a + 1.
Let count := (Z.to_nat (target - trusted) - a)%nat.
Let headers := hint start (trusted + Z.of_nat (a + HEADERS_PER_MAP)) target.
Let rels := map Z.of_nat (seq (1 + a) HEADERS_PER_MAP).

(** The number of the first block is right, unless the batch is disabled. *)
Definition first_ok (bs : list block) : Prop :=
  count = 0%nat ∨ ∀ b, head bs = Some b → bk_number b = start.

Definition first_parent (bs : list block) : Bytes32 :=
  from_option (λ b, bk_parent b) [] (head bs).

Lemma first_ok_app bs b : first_ok (bs ++ [b]) → first_ok bs.
Proof. unfold first_ok. destruct bs; naive_solver. Qed.

(** A step that passes its link check extends the chain. *)
Lemma chain_step bs b :
  (length bs < HEADERS_PER_MAP)%nat →
  first_ok (bs ++ [b]) → linked (start - 1) (first_parent bs) (take count bs) →
  (length bs = 0%nat ∨ (count ≤ length bs)%nat
   ∨ bk_parent b = last_hash [] bs ∧ bk_number b = U32_add (last_number 0 bs) 1) →
  ((length bs < count)%nat → bk_number b = start + Z.of_nat (length bs))
  ∧ linked (start - 1) (first_parent (bs ++ [b])) (take count (bs ++ [b])).
Proof.
  intros Hlen Hok Hl Hstep. consts.
  destruct (decide (count ≤ length bs)%nat) as [Hle|Hlt].
  { split; [lia|]. rewrite take_app_le by done. destruct bs; [|done].
    rewrite take_nil. done. }
  rewrite (take_ge (bs ++ [b])) by (rewrite length_app; simpl; lia).
  rewrite take_ge in Hl by lia. destruct bs as [|c bs'] eqn:E.
  { destruct Hok as [|Hok]; [lia|]. rewrite (Hok b) by done. cbn. rewrite (Hok b) by done.
    split_and!; [lia|done|lia|done]. }
  rewrite <- E in *. assert (bs ≠ []) as Hne by by rewrite E.
  destruct Hstep as [Hz|[|[Hp Hn]]]; [by rewrite E in Hz|lia|].
  rewrite (linked_last_number _ _ _ 0 Hne Hl) in Hn.
  unfold is_u32 in Htarget. unfold start in *.
  rewrite U32_add_spec in Hn by lia. split; [lia|].
  apply linked_app. assert (first_parent (bs ++ [b]) = first_parent bs) as -> by by rewrite E.
  split; [done|]. cbn [linked]. rewrite Hp, Hn.
  split_and!; [|lia|done]. rewrite E. by rewrite !last_hash_cons.
Qed.

(** A batch is disabled when no block of it is up to the target. *)
Lemma disabled_spec : U32_lt target start = bool_decide (count ≤ 0)%nat.
Proof.
  consts. unfold is_u32, start, count in *.
  rewrite U32_lt_spec by (unfold is_u32; lia). apply bool_decide_ext. lia.
Qed.

Lemma map_init_state : map_init (U32_lt target start) = state_after count [].
Proof.
  unfold map_init, state_after. rewrite take_nil, disabled_spec.
  cbn [length map]. f_equal; lia.
Qed.

(** What the loop establishes. *)
Lemma loop_sound s :
  length headers = HEADERS_PER_MAP →
  for_loop (map_step ctx headers) (seq 0 HEADERS_PER_MAP)
    (map_init (U32_lt target start)) = Some s →
  ∃ bs, decoded headers bs ∧ arrays s bs ∧
    (first_ok bs → s = state_after count bs
                   ∧ linked (start - 1) (first_parent bs) (take count bs)).
Proof.
  intros Hlen Hrun.
  eapply (for_loop_ind (λ i s, ∃ bs, decoded (take i headers) bs ∧ arrays s bs ∧
    (first_ok bs → s = state_after count bs
                   ∧ linked (start - 1) (first_parent bs) (take count bs)))) in Hrun.
  { by rewrite take_ge in Hrun by (rewrite Hlen; lia). }
  - exists []. split_and!; [constructor|done|]. intros _. split; [apply map_init_state|].
    by rewrite take_nil.
  - intros i s1 s2 Hi (bs & Hdec & Harr & Hinv) Hstep.
    assert (length bs = i) as Hbs.
    { apply Forall2_length in Hdec. rewrite length_take, Hlen in Hdec. lia. }
    rewrite (map_step_run _ _ _ bs) in Hstep by done.
    apply bind_Some in Hstep as (b & Hb & Hstep). case_decide as Hcond; [|done].
    injection Hstep as <-. exists (bs ++ [b]). split_and!.
    + rewrite (take_S_r _ _ (headers !!! i)).
      * apply Forall2_app; [done|]. by repeat constructor.
      * apply list_lookup_lookup_total_lt. lia.
    + by apply push_arrays.
    + intros Hok. destruct (Hinv (first_ok_app _ _ Hok)) as [-> Hl].
      destruct (chain_step bs b) as [Hnum Hl']; [lia|done|done| |].
      { destruct Hcond as [|[Hn|]]; [lia| |auto]. apply bool_decide_eq_true in Hn. auto. }
      split; [|done]. apply (push_state_after _ start); [|lia|done].
      unfold count, start, ctx. cbn. lia.
Qed.
(** What a map job returns from the final state of its loop. *)
Definition batch_result (s : map_state) : MapReduceSubchain := {|
  num_blocks := num_headers s;
  start_block := block_nums s !!! 0%nat;
  start_header_hash := block_hashes s !!! 0%nat;
  start_parent := block_parent_hashes s !!! 0%nat;
  end_block := end_block_num s;
  end_header_hash := end_hash s;
  state_merkle_root := get_root_from_hashed_leaves (block_state_roots s) (nb_enabled_leaves s);
  data_merkle_root := get_root_from_hashed_leaves (block_data_roots s) (nb_enabled_leaves s) |}.

Lemma map_batch_run out :
  map_batch hint ctx rels = Some out ↔
  ∃ s, for_loop (map_step ctx headers) (seq 0 HEADERS_PER_MAP)
         (map_init (U32_lt target start)) = Some s
    ∧ (block_nums s !!! 0%nat = start ∨ count = 0%nat)
    ∧ (end_block_num s = trusted + Z.of_nat (a + HEADERS_PER_MAP) ∨ curr_block_noop s = true)
    ∧ out = batch_result s.
Proof.
  unfold map_batch. cbn [global_start_block global_end_block ctx].
  assert (rels !!! 0%nat = Z.of_nat (1 + a)) as -> by done.
  assert (rels !!! (HEADERS_PER_MAP - 1)%nat = Z.of_nat (7 + (1 + a))) as -> by done.
  rewrite !U32_add_spec by (consts; lia).
  replace (trusted + Z.of_nat (1 + a)) with start by (unfold start; lia).
  replace (trusted + Z.of_nat (7 + (1 + a))) with (trusted + Z.of_nat (a + HEADERS_PER_MAP))
    by (consts; lia).
  fold headers. rewrite bind_Some. f_equiv. intros s. f_equiv. circuit.
  rewrite !assert_true_bind, disabled_spec, !orb_true_iff, !bool_decide_eq_true.
  change (Some _ = Some out) with (Some (batch_result s) = Some out).
  split; intros (? & ? & ?); split_and!; try done; try naive_solver lia.
Qed.

(** The result of the job, when the loop ended in the state of a chain. *)
Lemma batch_segment Q bs :
  length bs = HEADERS_PER_MAP → first_ok bs →
  Forall Q bs →
  linked (start - 1) (first_parent bs) (take count bs) →
  segment Q trusted target a 0 (batch_result (state_after count bs)) (take count bs).
Proof.
  intros Hlen Hok Hauth Hl. assert (length bs = 8%nat) as Hlen8 by done.
  assert (∀ f : block → Bytes32, merkle_root 3 (padded 8 (map f (take count bs)))
    = get_root_from_hashed_leaves (map f bs) (Z.of_nat (count `min` length bs))) as Hroot.
  { intros f. rewrite (get_root_spec 3) by (rewrite ?length_map; simpl; lia).
    rewrite Nat2Z.id, enable_leaves_padded by (rewrite length_map; lia).
    rewrite length_map, Hlen8. f_equal. f_equal. rewrite firstn_map. f_equal.
    destruct (decide (count ≤ 8)%nat); [f_equal; lia|].
    by rewrite !take_ge by lia. }
  assert (first_parent bs = map (λ b, bk_parent b) bs !!! 0%nat) as Hfp by by destruct bs.
  split; cbn [num_blocks start_block start_parent end_block end_header_hash
    state_merkle_root data_merkle_root batch_result state_after block_nums
    block_parent_hashes end_block_num end_hash num_headers nb_enabled_leaves
    block_state_roots block_data_roots].
  - rewrite length_take, Hlen. unfold count. rewrite Nat.mul_1_r. lia.
  - by apply Forall_take.
  - rewrite <- Hfp. replace (trusted + Z.of_nat a) with (start - 1) by (unfold start; lia). done.
  - rewrite length_take. done.
  - intros Hne. destruct Hok as [E|Hok]; [by rewrite E in Hne|].
    destruct bs as [|b bs]; [done|]. cbn. rewrite (Hok b) by done. done.
  - done.
  - done.
  - symmetry. apply Hroot.
  - symmetry. apply Hroot.
Qed.

Lemma map_batch_sound Q out :
  length headers = HEADERS_PER_MAP → (∀ bs, decoded headers bs → Forall Q bs) →
  map_batch hint ctx rels = Some out →
  ∃ bs, segment Q trusted target a 0 out bs.
Proof.
  intros Hlen HQ Hrun. apply map_batch_run in Hrun as (s & Hloop & Hfirst & _ & ->).
  destruct (loop_sound s Hlen Hloop) as (bs & Hdec & Harr & Hinv).
  assert (length bs = HEADERS_PER_MAP) as Hbs by by rewrite <- (Forall2_length _ _ _ Hdec).
  assert (first_ok bs) as Hok.
  { destruct Hfirst as [Hfirst|]; [right; intros b Hb|by left].
    rewrite (arr_nums _ _ Harr) in Hfirst. by destruct bs; simplify_eq/=. }
  destruct (Hinv Hok) as [-> Hl]. exists (take count bs).
  apply batch_segment; auto.
Qed.

(** The link of an honest chain at position [i]. *)
Lemma linked_at n h bs i b :
  linked n h (take count bs) → bs !! i = Some b → (i < count)%nat →
  bk_parent b = last_hash h (take i bs) ∧ bk_number b = n + Z.of_nat i + 1.
Proof.
  intros Hl Hb Hi. pose proof (lookup_lt_Some _ _ _ Hb) as Hlt.
  apply (linked_take _ _ _ (S i)) in Hl. rewrite take_take, Nat.min_l in Hl by lia.
  rewrite (take_S_r _ _ b) in Hl by done. apply linked_app in Hl as [_ (Hp & Hn & _)].
  rewrite length_take in Hn. split; [done|lia].
Qed.

Lemma last_hash_default h h' bs : bs ≠ [] → last_hash h bs = last_hash h' bs.
Proof. destruct bs as [|b bs]; [done|]. intros _. by rewrite !last_hash_cons. Qed.

(** The link check passes at every position of an honest batch. *)
Lemma honest_link h bs i b :
  length bs = HEADERS_PER_MAP → linked (start - 1) h (take count bs) → bs !! i = Some b →
  i = 0%nat ∨ bool_decide (count ≤ i)%nat = true
  ∨ bk_parent b = last_hash [] (take i bs)
    ∧ bk_number b = U32_add (last_number 0 (take i bs)) 1.
Proof.
  intros Hbs Hl Hb. pose proof (lookup_lt_Some _ _ _ Hb) as Hlt.
  destruct (decide (i = 0%nat)); [auto|]. destruct (decide (count ≤ i)%nat).
  { right; left. by apply bool_decide_eq_true. }
  right; right. destruct (linked_at _ _ _ _ _ Hl Hb) as [-> ->]; [lia|].
  assert (take i bs ≠ []) as Hne by (destruct bs, i; done).
  split; [by apply last_hash_default|].
  assert (linked (start - 1) h (take i bs)) as Hli.
  { apply (linked_take _ _ _ i) in Hl. by rewrite take_take, Nat.min_l in Hl by lia. }
  rewrite (linked_last_number _ _ _ 0 Hne Hli), length_take.
  consts. unfold start. rewrite U32_add_spec by lia. lia.
Qed.

(** Honest headers: they decode, and those up to the target are linked. *)
Lemma map_batch_complete bs h :
  decoded headers bs → Forall size_ok headers → length bs = HEADERS_PER_MAP →
  linked (start - 1) h (take count bs) →
  ∃ out, map_batch hint ctx rels = Some out
    ∧ segment authentic trusted target a 0 out (take count bs).
Proof.
  intros Hdec Hsize Hbs Hl.
  assert (first_ok bs) as Hok.
  { destruct (decide (count = 0)%nat); [by left|right]. intros b Hb. rewrite head_lookup in Hb.
    destruct (linked_at _ _ _ _ _ Hl Hb); lia. }
  assert (linked (start - 1) (first_parent bs) (take count bs)) as Hl'.
  { destruct (take count bs) as [|b l] eqn:E; [done|].
    destruct bs as [|c bs'], count; simplify_eq/=. naive_solver. }
  destruct (for_loop_run (λ i s, s = state_after count (take i bs)) (map_step ctx headers)
    0 HEADERS_PER_MAP (map_init (U32_lt target start))) as (s & Hrun & ->).
  { apply map_init_state. }
  { intros i s Hi ->. destruct (lookup_lt_is_Some_2 bs i) as [b Hb]; [lia|].
    rewrite (map_step_run _ _ _ (take i bs))
      by (apply state_after_arrays || (rewrite length_take; lia)).
    destruct (Forall2_lookup_r _ _ _ _ _ Hdec Hb) as (hd & Hhd & Hdb).
    rewrite (list_lookup_total_correct _ _ _ Hhd), Hdb. cbn [mbind option_bind].
    pose proof (honest_link _ _ _ _ Hbs Hl Hb) as Hlink.
    rewrite decide_True by (cbn; rewrite length_take; by replace (i `min` length bs)%nat with i by lia).
    eexists. split; [done|]. cbn [Nat.add]. rewrite (take_S_r _ _ b) by done.
    apply (push_state_after _ start).
    - unfold count, start. cbn. lia.
    - rewrite length_take. lia.
    - rewrite length_take. intros. destruct (linked_at _ _ _ _ _ Hl Hb); lia. }
  rewrite take_ge in Hrun by lia. exists (batch_result (state_after count bs)). split.
  - apply map_batch_run. eexists. split_and!; [exact Hrun| | |done].
    + destruct Hok as [|Hok]; [by right|left]. destruct bs; [done|]. by apply Hok.
    + destruct (decide (count ≤ length bs)%nat); [right; by apply bool_decide_eq_true|left].
      cbn [state_after end_block_num].
      rewrite (linked_last_number (start - 1) h) by (done || by rewrite take_ge by lia; destruct bs).
      rewrite length_take. unfold start. lia.
  - apply batch_segment; try done. by eapply decoded_authentic.
Qed.
End Batch.

(** ** The reduce stage *)
Section Reduce.
Context `{CircuitBuilderLaws}.
Context (trusted target : U32) (a d : nat).
Context (Htrusted : 0 ≤ trusted) (Htarget : is_u32 target) {Q : block → Prop}.

Let width := (HEADERS_PER_MAP * 2 ^ d)%nat.

Lemma width_pos : (0 < width)%nat.
Proof. unfold width. consts. pose proof (Nat.pow_nonzero 2 d). lia. Qed.

(** When the right segment is not empty the left one is full, and when it is
    empty the left one holds everything up to the target. *)
Lemma segment_lengths l r bsl bsr :
  segment Q trusted target a d l bsl → segment Q trusted target (a + width) d r bsr →
  length (bsl ++ bsr) = ((2 * width) `min` (Z.to_nat (target - trusted) - a))%nat
  ∧ (bsr ≠ [] → length bsl = width) ∧ (length bsl ≤ width)%nat.
Proof.
  intros [Hl _ _ _ _ _ _ _ _] [Hr _ _ _ _ _ _ _ _]. fold width in Hl, Hr.
  rewrite length_app, Hl, Hr. pose proof width_pos. split; [lia|]. split; [|lia].
  intros Hne. assert (0 < length bsr)%nat by (destruct bsr; simpl; [done|lia]). lia.
Qed.

Lemma segment_root (f : block → Bytes32) bsl bsr :
  (bsr ≠ [] → length bsl = width) → (length bsl ≤ width)%nat → (length bsr ≤ width)%nat →
  Sha256 (merkle_root (3 + d) (padded width (map f bsl))
          ++ merkle_root (3 + d) (padded width (map f bsr)))
  = merkle_root (3 + S d) (padded (HEADERS_PER_MAP * 2 ^ S d)%nat (map f (bsl ++ bsr))).
Proof.
  intros Hfull Hl Hr. replace (HEADERS_PER_MAP * 2 ^ S d)%nat with (width + width)%nat
    by (unfold width; simpl; lia).
  replace (3 + S d)%nat with (S (3 + d)) by lia.
  rewrite <- merkle_root_append.
  2: { rewrite length_padded by (rewrite length_map; lia).
       unfold width. rewrite Nat.pow_add_r. done. }
  do 2 f_equal. rewrite map_app. destruct bsr as [|b bsr].
  - cbn [map]. rewrite app_nil_r, padded_split by (rewrite length_map; lia). done.
  - assert (length (map f bsl) = width) by (rewrite length_map; by apply Hfull).
    by rewrite padded_app, padded_full.
Qed.

Definition joined (left right : MapReduceSubchain) (inactive : bool) : MapReduceSubchain := {|
  num_blocks := add (num_blocks left) (num_blocks right);
  start_block := start_block left;
  start_header_hash := start_header_hash left;
  start_parent := start_parent left;
  end_block := if inactive then end_block left else end_block right;
  end_header_hash := if inactive then end_header_hash left else end_header_hash right;
  state_merkle_root := Sha256 (state_merkle_root left ++ state_merkle_root right);
  data_merkle_root := Sha256 (data_merkle_root left ++ data_merkle_root right) |}.

(** Joining succeeds exactly when the right segment is empty or follows the left. *)
Lemma reduce_segments_run ctx l r bsl bsr :
  segment Q trusted target a d l bsl → segment Q trusted target (a + width) d r bsr →
  reduce_segments ctx l r =
    if decide (bsr = [] ∨ last_hash zero32 bsl = start_parent r)
    then Some (joined l r (bool_decide (bsr = []))) else None.
Proof.
  intros Hl Hr. destruct (segment_lengths _ _ _ _ Hl Hr) as (_ & Hfull & _).
  destruct Hl as [_ _ Hll _ _ Hle Hlh _ _], Hr as [Hrlen _ _ Hrn Hrs _ _ _ _].
  fold width in Hrlen.
  unfold reduce_segments. circuit.
  assert (bool_decide (num_blocks r = 0) = bool_decide (bsr = [])) as ->.
  { apply bool_decide_ext. rewrite Hrn. destruct bsr; simpl; split; try done; lia. }
  rewrite assert_is_equal_spec.
  change (Some {| num_blocks := _ |}) with (Some (joined l r (bool_decide (bsr = [])))).
  rewrite Hlh, Hle.
  destruct (decide (bsr = [])) as [->|Hne].
  { rewrite bool_decide_eq_true_2 by done. cbn [orb]. by rewrite !decide_True by auto. }
  rewrite (bool_decide_eq_false_2 (bsr = [])) by done. cbn [orb].
  specialize (Hfull Hne). specialize (Hrs Hne). pose proof width_pos.
  assert (bsl ≠ []) as Hlne by (intros ->; simpl in Hfull; lia).
  rewrite (linked_last_number _ _ _ 0 Hlne Hll), Hfull, Hrs.
  assert (0 < length bsr)%nat by (destruct bsr; simpl; [done|lia]).
  unfold is_u32 in Htarget. rewrite U32_sub_spec by lia.
  rewrite (bool_decide_eq_true_2 (_ = _ + _ - 1)) by lia. rewrite andb_true_r.
  destruct (decide (last_hash zero32 bsl = start_parent r)) as [E|E].
  - rewrite bool_decide_eq_true_2 by done. by rewrite !decide_True by auto.
  - rewrite bool_decide_eq_false_2 by done. by rewrite !decide_False by naive_solver.
Qed.

(** The joined result describes the joined segment. *)
Lemma joined_segment l r bsl bsr :
  segment Q trusted target a d l bsl → segment Q trusted target (a + width) d r bsr →
  (bsr = [] ∨ last_hash zero32 bsl = start_parent r) →
  segment Q trusted target a (S d) (joined l r (bool_decide (bsr = []))) (bsl ++ bsr).
Proof.
  intros Hl Hr Hlink. destruct (segment_lengths _ _ _ _ Hl Hr) as (Hlen & Hfull & Hle).
  destruct Hl as [_ Hla Hll Hln Hls Hlend Hlh Hlst Hld], Hr as [Hrlen Hra Hrl Hrn Hrs Hrend Hrh Hrst Hrd].
  fold width in Hrlen, Hlst, Hld, Hrst, Hrd. pose proof width_pos. pose proof order_gt_u32.
  split; cbn [num_blocks start_block start_parent end_block end_header_hash
    state_merkle_root data_merkle_root joined].
  - rewrite Hlen. unfold width. simpl. lia.
  - by apply Forall_app.
  - apply linked_app. split; [done|]. destruct bsr as [|b bsr]; [done|].
    destruct Hlink as [|Hlink]; [done|]. specialize (Hfull ltac:(done)).
    rewrite (last_hash_default _ zero32), Hlink, Hfull by (intros ->; simpl in Hfull; lia).
    replace (trusted + Z.of_nat a + Z.of_nat width) with (trusted + Z.of_nat (a + width)) by lia.
    done.
  - rewrite Hln, Hrn, length_app. unfold is_u32 in Htarget.
    rewrite add_small by (rewrite ?length_app in Hlen; lia). lia.
  - intros Hne. apply Hls. intros ->. destruct bsr; [done|].
    specialize (Hfull ltac:(done)). simpl in Hfull. lia.
  - rewrite last_number_app, <- Hlend. case_bool_decide as E; [by rewrite E|].
    rewrite Hrend. by destruct bsr as [|? ? _] using rev_ind; rewrite ?last_number_snoc.
  - rewrite last_hash_app, <- Hlh. case_bool_decide as E; [by rewrite E|].
    rewrite Hrh. by apply last_hash_default.
  - rewrite Hlst, Hrst. apply segment_root; [done..|]. lia.
  - rewrite Hld, Hrd. apply segment_root; [done..|]. lia.
Qed.
End Reduce.

(** ** The whole tree *)

(** The depth of the tree of map jobs. *)
Definition jobs_depth (MAX_NUM_HEADERS : nat) : nat := Nat.log2_up (MAX_NUM_HEADERS / HEADERS_PER_MAP).
Abbreviation jobs MAX := (next_power_of_two (MAX / HEADERS_PER_MAP)).

(** The headers of a job, as the hint returns them. *)
Definition job_headers (hint : U32 → U32 → U32 → list EncodedHeader)
    (trusted target : U32) (i : nat) : list EncodedHeader :=
  hint (trusted + Z.of_nat (HEADERS_PER_MAP * i) + 1)
       (trusted + Z.of_nat (HEADERS_PER_MAP * i + HEADERS_PER_MAP)) target.

(** The ranges of the public inputs, and what the type of the hint's output
    states.  The sizes stay within the arrays: the hash gadget is specified for
    no other size. *)
Record subchain_bounds (MAX : nat) (hint : U32 → U32 → U32 → list EncodedHeader)
    (trusted target : U32) : Prop := {
  sb_trusted : 0 ≤ trusted;
  sb_room : trusted + Z.of_nat (HEADERS_PER_MAP * jobs MAX) < 2 ^ 32;
  sb_target : is_u32 target;
  sb_hint i : (i < jobs MAX)%nat →
    length (job_headers hint trusted target i) = HEADERS_PER_MAP;
  sb_sizes i : (i < jobs MAX)%nat → Forall size_ok (job_headers hint trusted target i);
}.

(** The hint returns the headers of [chain], and after its end headers that
    still decode. *)
Definition honest_hint `{CircuitBuilder} (MAX : nat)
    (hint : U32 → U32 → U32 → list EncodedHeader) (trusted target : U32)
    (chain : list block) : Prop :=
  ∀ i, (i < jobs MAX)%nat → ∃ padding,
    decoded (job_headers hint trusted target i)
      (take HEADERS_PER_MAP (drop (HEADERS_PER_MAP * i) chain) ++ padding).

(** What the outputs of the circuit say of a chain. *)
Record commits_to `{Hashing} (MAX : nat) (out : SubchainVerification)
    (trusted_hash : Bytes32) (chain : list block) : Prop := {
  ct_target : target_header_hash out = last_hash trusted_hash chain;
  ct_state : state_root_merkle_root out = merkle_root (3 + jobs_depth MAX)
    (padded (HEADERS_PER_MAP * jobs MAX)%nat (map (λ b, bk_state_root b) chain));
  ct_data : data_root_merkle_root out = merkle_root (3 + jobs_depth MAX)
    (padded (HEADERS_PER_MAP * jobs MAX)%nat (map (λ b, bk_data_root b) chain));
}.

Section Tree.
Context `{CircuitBuilderLaws}.
Context (MAX : nat) (hint : U32 → U32 → U32 → list EncodedHeader).
Context (trusted target : U32) (Hb : subchain_bounds MAX hint trusted target).

Let ctx := {| global_start_block := trusted; global_end_block := target |}.
Let rels (i : nat) : list U32 := map Z.of_nat (seq (1 + HEADERS_PER_MAP * i) HEADERS_PER_MAP).

Lemma verify_subchain_unfold hash out :
  verify_subchain MAX hint trusted hash target = Some out ↔
  ∃ outs o, mapM (map_batch hint ctx) (map rels (seq 0 (jobs MAX))) = Some outs
    ∧ tree_reduce (reduce_segments ctx) (jobs_depth MAX) outs = Some o
    ∧ hash = start_parent o ∧ target = end_block o
    ∧ out = {| target_header_hash := end_header_hash o;
               state_root_merkle_root := state_merkle_root o;
               data_root_merkle_root := data_merkle_root o |}.
Proof.
  unfold verify_subchain. fold ctx.
  rewrite (mapreduce_spec _ (jobs_depth MAX)); [|consts; lia|].
  2: { rewrite length_map, length_seq. done. }
  rewrite chunks_seq by (consts; lia).
  replace (map _ (seq 0 _)) with (map rels (seq 0 (jobs MAX))).
  2: { apply map_ext. intros i. unfold rels. do 2 f_equal. lia. }
  rewrite bind_Some. split.
  - intros (o & Ho & Hrun). apply bind_Some in Ho as (outs & Houts & Ho).
    apply bind_Some in Hrun as ([] & E1%assert_is_equal_Some & Hrun).
    apply bind_Some in Hrun as ([] & E2%assert_is_equal_Some & Hrun).
    exists outs, o. split_and!; congruence.
  - intros (outs & o & Houts & Ho & -> & E & ->). exists o. rewrite Houts.
    cbn [mbind option_bind]. split; [done|].
    rewrite <- E, !assert_is_equal_refl. done.
Qed.

(** The invariant of the tree in units of jobs. *)
Lemma reduce_step_sound Q a d l r o :
  (∃ bs, segment Q trusted target (HEADERS_PER_MAP * a) d l bs) →
  (∃ bs, segment Q trusted target (HEADERS_PER_MAP * (a + 2 ^ d)) d r bs) →
  reduce_segments ctx l r = Some o →
  ∃ bs, segment Q trusted target (HEADERS_PER_MAP * a) (S d) o bs.
Proof.
  intros [bsl Hl] [bsr Hr] Hrun. destruct Hb. rewrite Nat.mul_add_distr_l in Hr.
  rewrite (reduce_segments_run _ _ _ _ sb_trusted0 sb_target0 _ _ _ _ _ Hl Hr) in Hrun.
  case_decide; [|done]. injection Hrun as <-. eexists. by eapply joined_segment.
Qed.

Lemma verify_subchain_segment Q hash out :
  (∀ i bs, (i < jobs MAX)%nat → decoded (job_headers hint trusted target i) bs → Forall Q bs) →
  verify_subchain MAX hint trusted hash target = Some out →
  ∃ o bs, segment Q trusted target 0 (jobs_depth MAX) o bs
    ∧ hash = start_parent o ∧ target = end_block o
    ∧ out = {| target_header_hash := end_header_hash o;
               state_root_merkle_root := state_merkle_root o;
               data_root_merkle_root := data_merkle_root o |}.
Proof.
  intros HQ (outs & o & Houts & Ho & Eh & Et & ->)%verify_subchain_unfold.
  apply mapM_Some in Houts.
  assert (∃ bs, segment Q trusted target (HEADERS_PER_MAP * 0) (jobs_depth MAX) o bs) as [bs Hseg].
  { eapply (tree_reduce_ind (λ a d o, ∃ bs, segment Q trusted target (HEADERS_PER_MAP * a) d o bs));
      [exact (reduce_step_sound Q)| | |exact Ho].
    - apply Forall2_length in Houts. by rewrite length_map, length_seq in Houts.
    - intros i oi Hi. destruct (Forall2_lookup_r _ _ _ _ _ Houts Hi) as (ri & Hri & Hmap).
      change (map rels) with (fmap (M:=list) rels) in Hri.
      rewrite list_lookup_fmap in Hri. apply fmap_Some in Hri as (k & Hk & ->).
      apply lookup_seq in Hk as [-> Hk]. destruct Hb as [Ht0 Hroom Htg Hh Hs].
      eapply (map_batch_sound hint trusted target (HEADERS_PER_MAP * i));
        [done|done| |by apply Hh|intros bs; by apply HQ|done].
      consts. lia. }
  exists o, bs. by rewrite Nat.mul_0_r in Hseg.
Qed.
(** Completeness: an honest chain. *)
Context (hash : Bytes32) (chain : list block).
Context (Hchain : linked trusted hash chain).
Context (Hlength : Z.of_nat (length chain) = target - trusted).

Lemma linked_drop k : linked (trusted + Z.of_nat k) (last_hash hash (take k chain)) (drop k chain).
Proof.
  destruct (decide (k ≤ length chain)%nat); [|by rewrite drop_ge by lia].
  rewrite <- (take_drop k chain) in Hchain. apply linked_app in Hchain as [_ Hl].
  by rewrite length_take, Nat.min_l in Hl by lia.
Qed.

Lemma job_complete i :
  honest_hint MAX hint trusted target chain → (i < jobs MAX)%nat →
  ∃ o, map_batch hint ctx (rels i) = Some o
    ∧ segment authentic trusted target (HEADERS_PER_MAP * i) 0 o
        (take HEADERS_PER_MAP (drop (HEADERS_PER_MAP * i) chain)).
Proof.
  intros Hhint Hi. destruct (Hhint i Hi) as [padding Hdec].
  destruct Hb as [Ht0 Hroom Htg Hh Hs]. set (a := (HEADERS_PER_MAP * i)%nat) in *.
  set (bs := take HEADERS_PER_MAP (drop a chain)) in *.
  assert (length (bs ++ padding) = HEADERS_PER_MAP) as Hlen
    by (rewrite <- (Forall2_length _ _ _ Hdec); by apply Hh).
  assert (length bs = HEADERS_PER_MAP `min` (length chain - a))%nat as Hbs
    by (unfold bs; by rewrite length_take, length_drop).
  assert (take (Z.to_nat (target - trusted) - a) (bs ++ padding) = bs) as Htake.
  { replace (Z.to_nat (target - trusted)) with (length chain) by lia.
    rewrite length_app in Hlen. destruct (decide (HEADERS_PER_MAP ≤ length chain - a)%nat).
    - assert (padding = []) as -> by (apply length_zero_iff_nil; lia).
      rewrite app_nil_r. apply take_ge. lia.
    - apply take_app_length'. lia. }
  destruct (map_batch_complete hint trusted target a Ht0 Htg) with (bs ++ padding)
    (last_hash hash (take a chain)) as (o & Ho & Hseg); [|done|by apply Hs|done| |].
  { unfold a. consts. lia. }
  { rewrite Htake. replace (trusted + Z.of_nat a + 1 - 1) with (trusted + Z.of_nat a) by lia.
    apply linked_take, linked_drop. }
  exists o. split; [done|]. by rewrite Htake in Hseg.
Qed.

Lemma reduce_step_complete a d l r :
  segment authentic trusted target (HEADERS_PER_MAP * a) d l
    (take (HEADERS_PER_MAP * 2 ^ d) (drop (HEADERS_PER_MAP * a) chain)) →
  segment authentic trusted target (HEADERS_PER_MAP * (a + 2 ^ d)) d r
    (take (HEADERS_PER_MAP * 2 ^ d) (drop (HEADERS_PER_MAP * (a + 2 ^ d)) chain)) →
  ∃ o, reduce_segments ctx l r = Some o
    ∧ segment authentic trusted target (HEADERS_PER_MAP * a) (S d) o
        (take (HEADERS_PER_MAP * 2 ^ S d) (drop (HEADERS_PER_MAP * a) chain)).
Proof.
  intros Hl Hr. destruct Hb as [Ht0 Hroom Htg Hh Hs].
  rewrite Nat.mul_add_distr_l in Hr. pose proof (width_pos d) as Hw.
  set (x := (HEADERS_PER_MAP * a)%nat) in *. set (w := (HEADERS_PER_MAP * 2 ^ d)%nat) in *.
  assert (take w (drop (x + w) chain) = [] ∨
    last_hash zero32 (take w (drop x chain)) = start_parent r) as Hlink.
  { destruct (take w (drop (x + w) chain)) as [|b bs] eqn:E; [by left|right].
    rewrite (linked_head _ _ _ b (seg_linked _ _ _ _ _ _ _ Hr)) by done.
    pose proof (linked_take _ _ _ w (linked_drop (x + w))) as Hc. rewrite E in Hc.
    destruct Hc as [Hc _]. rewrite Hc.
    rewrite <- (take_take_drop chain x w), last_hash_app. apply last_hash_default.
    intros Hnil. apply (f_equal length) in E, Hnil.
    rewrite length_take, length_drop in E, Hnil. simpl in E, Hnil. lia. }
  rewrite (reduce_segments_run _ _ _ _ Ht0 Htg _ _ _ _ _ Hl Hr), decide_True by done.
  eexists. split; [done|].
  replace (HEADERS_PER_MAP * 2 ^ S d)%nat with (w + w)%nat by (unfold w; simpl; lia).
  rewrite <- (take_take_drop (drop x chain) w w), drop_drop. by apply joined_segment.
Qed.

Lemma verify_subchain_complete_run :
  chain ≠ [] → (length chain ≤ HEADERS_PER_MAP * jobs MAX)%nat →
  honest_hint MAX hint trusted target chain →
  ∃ out, verify_subchain MAX hint trusted hash target = Some out
    ∧ commits_to MAX out hash chain.
Proof.
  intros Hne Hfit Hhint.
  destruct (mapM_run (map_batch hint ctx) (λ i o,
    segment authentic trusted target (HEADERS_PER_MAP * i) 0 o
      (take HEADERS_PER_MAP (drop (HEADERS_PER_MAP * i) chain)))
    (map rels (seq 0 (jobs MAX)))) as (outs & Houts & Hsegs).
  { intros i x Hx. change (map rels) with (fmap (M:=list) rels) in Hx.
    rewrite list_lookup_fmap in Hx. apply fmap_Some in Hx as (k & Hk & ->).
    apply lookup_seq in Hk as [-> Hk]. by apply job_complete. }
  destruct (tree_reduce_run (λ a d o, segment authentic trusted target (HEADERS_PER_MAP * a) d o
      (take (HEADERS_PER_MAP * 2 ^ d) (drop (HEADERS_PER_MAP * a) chain)))
    (reduce_segments ctx) reduce_step_complete (jobs_depth MAX) 0 outs) as (o & Ho & Hseg).
  { apply length_mapM in Houts. by rewrite length_map, length_seq in Houts. }
  { intros i o Ho. rewrite Nat.mul_1_r. by apply Hsegs. }
  rewrite Nat.mul_0_r, drop_0, take_ge in Hseg by done.
  destruct Hseg as [_ _ Hl _ _ Hend Hendh Hst Hd].
  eexists. split.
  - apply verify_subchain_unfold. exists outs, o. split_and!; [done|done| | |done].
    + destruct chain as [|b bs]; [done|]. rewrite (linked_head _ _ _ b Hl) by done.
      by destruct Hchain as [-> _].
    + rewrite Hend, (linked_last_number _ _ _ 0 Hne Hchain). lia.
  - split; [|done|done]. cbn [target_header_hash]. rewrite Hendh. by apply last_hash_default.
Qed.
End Tree.

(** ** Binding

    The hash of the target header fixes the whole chain behind it. *)

(** The bytes of a header that are hashed. *)
Definition preimage (b : block) : bytes :=
  take (Z.to_nat (header_size (bk_header b))) (header_bytes (bk_header b)).

(** A header as long as the fields at its front, as every real header is. *)
Definition MIN_HEADER_SIZE : Z := 69.
Definition long (b : block) : Prop := MIN_HEADER_SIZE ≤ header_size (bk_header b).

Definition header_collision `{Hashing} (c1 c2 : list block) : Prop :=
  ∃ b1 b2, b1 ∈ c1 ∧ b2 ∈ c2 ∧ preimage b1 ≠ preimage b2
    ∧ blake2_256 (preimage b1) = blake2_256 (preimage b2).

Lemma slice_take {A} (l : list A) n a b : (b ≤ n)%nat → (take n l).[a to b] = l.[a to b].
Proof.
  intros. unfold slice. rewrite skipn_firstn_comm, take_take. f_equal. lia.
Qed.

Section Binding.
Context `{CircuitBuilderLaws}.

Lemma authentic_hash b : authentic b → bk_hash b = blake2_256 (preimage b).
Proof.
  intros [Hd [Hu Hs]]. unfold decode_block, hash_encoded_header in Hd.
  unfold is_u32 in Hu. rewrite curta_blake2b_variable_spec in Hd by lia.
  cbn [mbind option_bind] in Hd. apply bind_Some in Hd as (f & _ & Hd).
  by injection Hd as <-.
Qed.

(** The fields of a long header depend only on the hashed bytes. *)
Lemma decode_header_take h hash :
  size_ok h → MIN_HEADER_SIZE ≤ header_size h →
  decode_header h hash = decode_header
    {| header_bytes := take (Z.to_nat (header_size h)) (header_bytes h);
       header_size := header_size h |} hash.
Proof.
  intros [Hu Hs] Hl. unfold decode_header, MIN_HEADER_SIZE, is_u32 in *. consts.
  cbn [header_bytes header_size].
  rewrite !slice_take by lia. circuit. rewrite bool_decide_eq_false_2 by lia.
  rewrite U32_sub_spec by lia. rewrite !get_fixed_subarray_spec by (rewrite ?length_take; lia).
  by rewrite slice_take by lia.
Qed.

Lemma authentic_fields b1 b2 :
  authentic b1 → authentic b2 → long b2 → preimage b1 = preimage b2 →
  bk_fields b1 = bk_fields b2.
Proof.
  intros H1' H2' Hlong E. pose proof (authentic_hash _ H1') as Eh.
  rewrite E, <- (authentic_hash _ H2') in Eh.
  destruct H1' as [Hd1 [Hu1 Hs1]], H2' as [Hd2 [Hu2 Hs2]].
  assert (header_size (bk_header b1) = header_size (bk_header b2)) as Es.
  { apply (f_equal length) in E. unfold preimage in E. rewrite !length_take in E.
    unfold is_u32 in *. lia. }
  unfold decode_block in Hd1, Hd2.
  apply bind_Some in Hd1 as (h1 & _ & (f1 & Hf1 & Hd1)%bind_Some).
  apply bind_Some in Hd2 as (h2 & _ & (f2 & Hf2 & Hd2)%bind_Some).
  injection Hd1 as E1. injection Hd2 as E2. unfold long in Hlong.
  rewrite decode_header_take in Hf1 by (lia || done).
  rewrite decode_header_take in Hf2 by (lia || done).
  unfold preimage in E. rewrite E, Es in Hf1. rewrite <- E1, <- E2 in *. cbn in *.
  subst h1. rewrite Hf1 in Hf2. by injection Hf2.
Qed.

Lemma chain_binding n h1 h2 c1 c2 :
  length c1 = length c2 → Forall authentic c1 → Forall authentic c2 → Forall long c2 →
  linked n h1 c1 → linked n h2 c2 → last_hash h1 c1 = last_hash h2 c2 →
  map bk_fields c1 = map bk_fields c2 ∨ header_collision c1 c2.
Proof.
  revert c2; induction c1 as [|b1 c1 IH] using rev_ind; intros c2 Hlen Ha1 Ha2 Hlong Hl1 Hl2 E.
  { destruct c2; [by left|done]. }
  destruct c2 as [|b2 c2 _] using rev_ind; [rewrite length_app in Hlen; simpl in Hlen; lia|].
  rewrite !length_app in Hlen. apply Forall_app in Ha1 as [Ha1 [Hb1 _]%Forall_cons].
  apply Forall_app in Ha2 as [Ha2 [Hb2 _]%Forall_cons].
  apply Forall_app in Hlong as [Hlong [Hlb _]%Forall_cons].
  apply linked_app in Hl1 as [Hl1 (Hp1 & _)]. apply linked_app in Hl2 as [Hl2 (Hp2 & _)].
  rewrite !last_hash_snoc in E.
  destruct (decide (preimage b1 = preimage b2)) as [Ep|Hne].
  - pose proof (authentic_fields _ _ Hb1 Hb2 Hlb Ep) as Ef.
    destruct (IH c2) as [IH'|(x & y & ? & ? & ?)]; [simpl in Hlen; lia|done..| | |].
    + rewrite <- Hp1, <- Hp2. by rewrite Ef.
    + left. rewrite !map_app, IH'. cbn. by rewrite Ef.
    + right. exists x, y. set_solver.
  - right. exists b1, b2. rewrite <- !authentic_hash by done. set_solver.
Qed.

(** Fields decide the commitments. *)
Lemma commits_to_fields MAX out h c1 c2 :
  map bk_fields c1 = map bk_fields c2 → last_hash h c1 = last_hash h c2 →
  commits_to MAX out h c1 → commits_to MAX out h c2.
Proof.
  intros Ef Eh [Ht Hs Hd].
  assert (∀ g : Header → Bytes32, map (λ b, g (bk_fields b)) c1 = map (λ b, g (bk_fields b)) c2)
    as Eg by (intros g; by rewrite <- !(map_map bk_fields g), Ef).
  split; [by rewrite Ht|by rewrite Hs, (Eg state_root)|by rewrite Hd, (Eg data_root)].
Qed.

(** The chain behind an accepted run. *)
Lemma verify_subchain_chain MAX hint trusted target hash out :
  subchain_bounds MAX hint trusted target → trusted < target →
  verify_subchain MAX hint trusted hash target = Some out →
  ∃ chain, Forall authentic chain ∧ linked trusted hash chain
    ∧ Z.of_nat (length chain) = target - trusted
    ∧ (length chain ≤ HEADERS_PER_MAP * jobs MAX)%nat
    ∧ commits_to MAX out hash chain
    ∧ Forall (λ b, from_hint hint (bk_header b)) chain.
Proof.
  intros Hb Hlt Hrun. apply (verify_subchain_segment MAX hint trusted target Hb
    (λ b, authentic b ∧ from_hint hint (bk_header b))) in Hrun
    as (o & bs & Hseg & -> & Hend & ->).
  2: { intros i bs Hi Hdec. apply Forall_and. split.
    - eapply decoded_authentic; [done|]. by apply (sb_sizes _ _ _ _ Hb).
    - apply (Forall_impl _ _ _ (decoded_elem _ _ Hdec)). intros b Hin. by eexists _, _, _. }
  destruct Hseg as [Hlen [Ha Hhint]%Forall_and Hl _ _ He Heh Hs Hd]. rewrite Z.add_0_r in Hl.
  assert (0 < HEADERS_PER_MAP * 2 ^ jobs_depth MAX)%nat as Hpos by apply width_pos.
  assert (bs ≠ []) as Hne by (intros ->; simpl in Hlen; lia).
  rewrite He, (linked_last_number _ _ _ 0 Hne Hl) in Hend.
  exists bs. split_and!; [done|done|lia| | |done].
  - rewrite Hlen. unfold jobs_depth, next_power_of_two. lia.
  - split; [|done|done]. cbn. rewrite Heh. by apply last_hash_default.
Qed.
End Binding.

(** ** Properties *)
Section Properties.
Context `{CircuitBuilderLaws}.
Context (MAX : nat) (hint : U32 → U32 → U32 → list EncodedHeader).
Context (trusted target : U32) (Hb : subchain_bounds MAX hint trusted target).

(** C2: soundness of [verify_subchain] for every hint.  An accepted run past
    the trusted block has behind it exactly [target - trusted] headers, no more
    than the map jobs hold, each with the next block number and the hash of its
    predecessor, the first one following the trusted hash; the output is the hash
    of the last one and the Merkle roots of their state and data roots, padded
    with empty leaves. *)
Theorem verify_subchain_sound hash out :
  trusted < target → verify_subchain MAX hint trusted hash target = Some out →
  ∃ chain, Forall authentic chain ∧ linked trusted hash chain
    ∧ Z.of_nat (length chain) = target - trusted
    ∧ (length chain ≤ HEADERS_PER_MAP * jobs MAX)%nat
    ∧ commits_to MAX out hash chain.
Proof.
  intros Hlt Hrun. apply verify_subchain_chain in Hrun as (used & ? & ? & ? & ? & ? & _); [|done..].
  by exists used.
Qed.

(** Completeness of [verify_subchain].  For every linked chain of headers
    from the trusted block to a target that the map jobs reach, a hint that
    returns these headers makes the circuit satisfiable, and the output commits to
    the chain. *)
Theorem verify_subchain_complete hash chain :
  chain ≠ [] → linked trusted hash chain → Z.of_nat (length chain) = target - trusted →
  (length chain ≤ HEADERS_PER_MAP * jobs MAX)%nat →
  honest_hint MAX hint trusted target chain →
  ∃ out, verify_subchain MAX hint trusted hash target = Some out
    ∧ commits_to MAX out hash chain.
Proof. intros. by apply verify_subchain_complete_run. Qed.

(** C10: the target header hash fixes the commitments.  Whatever the hint
    returned, an accepted run with the target hash of a real chain commits to
    that chain's state and data roots, unless a header the run used and a header
    of the real chain are different preimages of one BLAKE2b hash. *)
Theorem subchain_binding hash out h real :
  trusted < target → verify_subchain MAX hint trusted hash target = Some out →
  Forall authentic real → Forall long real → linked trusted h real →
  Z.of_nat (length real) = target - trusted →
  last_hash h real = target_header_hash out →
  commits_to MAX out hash real
  ∨ ∃ used, Forall authentic used ∧ linked trusted hash used
      ∧ Z.of_nat (length used) = target - trusted ∧ header_collision used real.
Proof.
  intros Hlt Hrun Ha Hlong Hl Hlen Hlast.
  apply verify_subchain_chain in Hrun as (used & Hau & Hlu & Hlenu & _ & Hct & _); [|done..].
  pose proof (ct_target _ _ _ _ Hct) as Ht. rewrite Ht in Hlast.
  destruct (chain_binding trusted hash h used real) as [Ef|Hcol];
    [lia|done..|left|right; by exists used].
  eapply commits_to_fields; [exact Ef| |exact Hct]. rewrite <- Hlast.
  apply last_hash_default. intros ->. simpl in Hlen. lia.
Qed.

(** A target that is not past the trusted block is rejected, with the one
    exception of target 0: there every job is disabled and the output is the
    empty hash with the roots of empty leaves. *)
Theorem verify_subchain_stale hash out :
  target ≤ trusted → verify_subchain MAX hint trusted hash target = Some out →
  target = 0 ∧ target_header_hash out = zero32 ∧ commits_to MAX out zero32 [].
Proof.
  intros Hle Hrun.
  apply (verify_subchain_segment _ _ _ _ Hb (λ _, True)) in Hrun
    as (o & bs & [Hlen _ _ _ _ He Heh Hs Hd] & _ & Hend & ->);
    [|intros; by apply Forall_true].
  assert (bs = []) as -> by (apply length_zero_iff_nil; lia).
  rewrite He in Hend. split; [done|]. split; [done|]. by split.
Qed.
End Properties.

(** ** Witnesses *)
Import Ref.

(** A chain of [k] headers of 110 bytes. *)
Fixpoint sample_chain (k : nat) (n : U32) (h : Bytes32) : list block :=
  match k with
  | O => []
  | S k' =>
      let enc := Scale.compact_encode (n + 1) in
      let hd := {| header_bytes := h ++ enc ++ replicate 32 (n mod 7) ++
                     replicate (14 - length enc) 5 ++ replicate 32 (n mod 5);
                   header_size := 110 |} in
      let b := default inhabitant (decode_block hd) in
      b :: sample_chain k' (n + 1) (bk_hash b)
  end.

Definition empty_header : EncodedHeader :=
  {| header_bytes := replicate 110 0; header_size := 0 |}.

(** Returns the headers of a chain from block [base + 1] on, padded to 8. *)
Definition chain_hint (base : U32) (chain : list block) (first last max : U32)
    : list EncodedHeader :=
  take 8 (drop (Z.to_nat (first - base - 1)) (map bk_header chain)
          ++ replicate 8 empty_header).

Definition trusted_hash : Bytes32 := replicate 32 9.
Definition chain11 : list block := sample_chain 11 60 trusted_hash.

Lemma chain_hint_sizes first last max : Forall size_ok (chain_hint 60 chain11 first last max).
Proof.
  unfold chain_hint. apply Forall_take, Forall_app_2; [apply Forall_drop|].
  - by_decide.
  - by_decide.
Qed.

Lemma chain11_bounds target :
  is_u32 target → subchain_bounds 16 (chain_hint 60 chain11) 60 target.
Proof.
  intros. split; [lia|by_decide|done| |intros; apply chain_hint_sizes].
  intros. unfold job_headers, chain_hint. rewrite length_take, length_app, length_replicate. consts. lia.
Qed.

Definition chain11_output : SubchainVerification :=
  default {| target_header_hash := []; state_root_merkle_root := []; data_root_merkle_root := [] |}
    (verify_subchain 16 (chain_hint 60 chain11) 60 trusted_hash 71).

Lemma verify_subchain_sound_witness :
  ∃ chain, Forall authentic chain ∧ linked 60 trusted_hash chain
    ∧ Z.of_nat (length chain) = 71 - 60 ∧ (length chain ≤ HEADERS_PER_MAP * jobs 16)%nat
    ∧ commits_to 16 chain11_output trusted_hash chain.
Proof.
  apply (verify_subchain_sound 16 (chain_hint 60 chain11)).
  - by apply chain11_bounds.
  - lia.
  - vm_compute. reflexivity.
Defined.

Lemma verify_subchain_complete_witness :
  ∃ out, verify_subchain 16 (chain_hint 60 chain11) 60 trusted_hash 71 = Some out
    ∧ commits_to 16 out trusted_hash chain11.
Proof.
  apply verify_subchain_complete.
  - by apply chain11_bounds.
  - done.
  - by_decide.
  - by_decide.
  - by_decide.
  - intros i Hi. change (jobs 16) with 2%nat in Hi.
    destruct i as [|[|i]]; [| |lia].
    + exists []. by_decide.
    + exists (replicate 5 (default inhabitant (decode_block empty_header))). by_decide.
Defined.

Lemma chain11_authentic : Forall authentic chain11.
Proof. by_decide. Qed.

Lemma subchain_binding_witness :
  commits_to 16 chain11_output trusted_hash chain11
  ∨ ∃ used, Forall authentic used ∧ linked 60 trusted_hash used
      ∧ Z.of_nat (length used) = 71 - 60 ∧ header_collision used chain11.
Proof.
  apply (subchain_binding 16 (chain_hint 60 chain11) 60 71) with trusted_hash.
  - by apply chain11_bounds.
  - lia.
  - vm_compute. reflexivity.
  - apply chain11_authentic.
  - by_decide.
  - by_decide.
  - done.
  - vm_compute. reflexivity.
Defined.

Definition stale_output : SubchainVerification := {|
  target_header_hash := zero32;
  state_root_merkle_root := merkle_root 4 (replicate 16 zero32);
  data_root_merkle_root := merkle_root 4 (replicate 16 zero32) |}.

Lemma verify_subchain_stale_witness :
  0 = 0 ∧ target_header_hash stale_output = zero32 ∧ commits_to 16 stale_output zero32 [].
Proof.
  apply (verify_subchain_stale 16 (chain_hint 60 chain11) 60 0) with trusted_hash.
  - by apply chain11_bounds.
  - lia.
  - vm_compute. reflexivity.
Defined.
