(* ===== verification/Types.v ===== *)
(** * The off-chain data: circuits/input/types.rs

    The records of the data fetcher.  Their fields carry a prefix, because Rust
    reuses field names between structs. *)

From S2P Require Import Prelude.

Record HeaderRotateData := {
  hr_header_bytes : bytes;
  hr_header_size : nat;
  hr_num_authorities : nat;
  hr_start_position : nat;
  hr_end_position : nat;
  hr_new_authority_set_hash : bytes;
  hr_padded_pubkeys : list Bytes32;
}.

Record StoredJustificationData := {
  st_block_number : U32;
  st_signed_message : bytes;
  st_pubkeys : list bytes;
  st_signatures : list bytes;
  st_validator_signed : list bool;
  st_num_authorities : nat;
}.

Record CircuitJustification := {
  cj_authority_set_id : U64;
  cj_signed_message : bytes;
  cj_validator_signed : list bool;
  cj_pubkeys : list Bytes32;
  cj_signatures : list bytes;
  cj_num_authorities : nat;
  cj_current_authority_set_hash : bytes;
}.

Record SimpleJustificationData := {
  sd_pubkeys : list Bytes32;
  sd_signatures : list bytes;
  sd_validator_signed : list bool;
  sd_signed_message : bytes;
  sd_voting_weight : U64;
  sd_num_authorities : U64;
}.

(** [types::Precommit], the vote of a GRANDPA voter. *)
Record Vote := { target_hash : Bytes32; target_number : U32 }.

Record SignedPrecommit := {
  sp_precommit : Vote;
  sp_signature : bytes;
  sp_id : Bytes32;
}.

Record Commit := {
  cm_target_hash : Bytes32;
  cm_target_number : U32;
  cm_precommits : list SignedPrecommit;
}.

(** Over the type of Avail's headers, [avail_subxt::primitives::Header]. *)
Record GrandpaJustification (Header : Type) := {
  gj_round : U64;
  gj_commit : Commit;
  gj_votes_ancestries : list Header;
}.
Arguments Build_GrandpaJustification {Header}.
Arguments gj_round {Header}.
Arguments gj_commit {Header}.
Arguments gj_votes_ancestries {Header}.

Inductive SignerMessage :=
  | DummyMessage (n : U32)
  | PrecommitMessage (p : Vote).

(** The SCALE encoding that the derived [Encode] gives a [SignerMessage]: the
    index of the variant, then its fields. *)
Definition encode_vote (p : Vote) : bytes := target_hash p ++ le_encode 4 (target_number p).
Definition encode_signer_message (m : SignerMessage) : bytes :=
  match m with
  | DummyMessage n => 0 :: le_encode 4 n
  | PrecommitMessage p => 1 :: encode_vote p
  end.

(** [Encode::encode(&(&message, &round, &authority_set_id))]. *)
Definition encode_signed_message (m : SignerMessage) (round : U64) (authority_set_id : U64) : bytes :=
  encode_signer_message m ++ le_encode 8 round ++ le_encode 8 authority_set_id.

#[export] Instance StoredJustificationData_eq_dec : EqDecision StoredJustificationData.
Proof. solve_decision. Defined.
#[export] Instance Vote_eq_dec : EqDecision Vote.
Proof. solve_decision. Defined.
