(* ===== verification/Codec.v ===== *)
(** * Decoding justifications: circuits/input/types.rs

    The derived [Decode] instances of the records, and the [Deserialize] instance of
    [GrandpaJustification], in the SCALE format that parity-scale-codec documents:
    the fields in the order of their declaration, integers in little endian, byte
    arrays as they are, a vector after its compact length.  The codec of Avail's
    headers is a parameter. *)

From S2P Require Import Prelude Consts Vars Builder Decoder Types.

(** ** Decoders

    A decoder takes a value off the front of its input; an [Err] is [None]. *)
Definition decoder (A : Type) : Type := bytes → option (A * bytes).
#[export] Instance decoder_ret : MRet decoder := λ A a bs, Some (a, bs).
#[export] Instance decoder_bind : MBind decoder := λ A B f d bs,
  match d bs with Some (a, rest) => f a rest | None => None end.
Definition check (b : bool) : decoder unit := λ bs, if b then Some ((), bs) else None.

Definition take_bytes (n : nat) : decoder bytes := λ bs,
  if decide (n ≤ length bs)%nat then Some (take n bs, drop n bs) else None.

Definition decode_uint (n : nat) : decoder Z :=
  bs ← take_bytes n;
  mret (le_decode bs).

(** [Compact<u32>]; an encoding with more bytes than needed is refused. *)
Definition decode_compact : decoder U32 :=
  prefix ← decode_uint 1;
  if decide (prefix mod 4 = 0) then mret (prefix / 4) else
  if decide (prefix mod 4 = 1) then
    next ← decode_uint 1;
    let n := (prefix + 2 ^ 8 * next) / 4 in
    _ ← check (bool_decide (2 ^ 6 - 1 < n));
    mret n
  else if decide (prefix mod 4 = 2) then
    next ← decode_uint 3;
    let n := (prefix + 2 ^ 8 * next) / 4 in
    _ ← check (bool_decide (2 ^ 14 - 1 < n));
    mret n
  else
    _ ← check (bool_decide (prefix / 4 = 0));
    n ← decode_uint 4;
    _ ← check (bool_decide (2 ^ 30 - 1 < n));
    mret n.

Fixpoint decode_items {A} (d : decoder A) (n : nat) : decoder (list A) :=
  match n with
  | O => mret []
  | S n' =>
      x ← d;
      l ← decode_items d n';
      mret (x :: l)
  end.

Definition decode_vec {A} (d : decoder A) : decoder (list A) :=
  n ← decode_compact;
  decode_items d (Z.to_nat n).

(** [Vec<u8>]. *)
Definition decode_bytes : decoder bytes :=
  n ← decode_compact;
  take_bytes (Z.to_nat n).

(** ** The records *)
Definition decode_vote : decoder Vote :=
  target_hash ← take_bytes 32;
  target_number ← decode_uint 4;
  mret {| target_hash := target_hash; target_number := target_number |}.

Definition decode_signed_precommit : decoder SignedPrecommit :=
  precommit ← decode_vote;
  signature ← take_bytes 64;
  id ← take_bytes 32;
  mret {| sp_precommit := precommit; sp_signature := signature; sp_id := id |}.

Definition decode_commit : decoder Commit :=
  target_hash ← take_bytes 32;
  target_number ← decode_uint 4;
  precommits ← decode_vec decode_signed_precommit;
  mret {| cm_target_hash := target_hash; cm_target_number := target_number;
          cm_precommits := precommits |}.

Record FinalityProof (Header : Type) := {
  fp_block : Bytes32;
  fp_justification : bytes;
  fp_unknown_headers : list Header;
}.
Arguments Build_FinalityProof {Header}.
Arguments fp_block {Header}.
Arguments fp_justification {Header}.
Arguments fp_unknown_headers {Header}.

Section Headers.
Context {Header : Type} (decode_header : decoder Header).

Definition decode_justification : decoder (GrandpaJustification Header) :=
  round ← decode_uint 8;
  commit ← decode_commit;
  votes_ancestries ← decode_vec decode_header;
  mret {| gj_round := round; gj_commit := commit; gj_votes_ancestries := votes_ancestries |}.

Definition decode_finality_proof : decoder (FinalityProof Header) :=
  block ← take_bytes 32;
  justification ← decode_bytes;
  unknown_headers ← decode_vec decode_header;
  mret {| fp_block := block; fp_justification := justification;
          fp_unknown_headers := unknown_headers |}.

(** [Decode::decode(&mut bytes)]: what follows the value is ignored. *)
Definition decode_slice {A} (d : decoder A) (bs : bytes) : option A := fst <$> d bs.

(** The justification in an encoded finality proof. *)
Definition proof_justification (encoded_finality_proof : bytes) : option (GrandpaJustification Header) :=
  finality_proof ← decode_slice decode_finality_proof encoded_finality_proof;
  decode_slice decode_justification (fp_justification finality_proof).
End Headers.

(** ** The format *)
Definition encode_vec {A} (enc : A → bytes) (l : list A) : bytes :=
  Scale.compact_encode (Z.of_nat (length l)) ++ concat (map enc l).
Definition encode_signed_precommit (sp : SignedPrecommit) : bytes :=
  encode_vote (sp_precommit sp) ++ sp_signature sp ++ sp_id sp.
Definition encode_commit (c : Commit) : bytes :=
  cm_target_hash c ++ le_encode 4 (cm_target_number c) ++ encode_vec encode_signed_precommit (cm_precommits c).

Record wf_vote (p : Vote) : Prop := {
  wv_hash : length (target_hash p) = 32%nat;
  wv_number : is_u32 (target_number p);
}.
Record wf_signed_precommit (sp : SignedPrecommit) : Prop := {
  ws_vote : wf_vote (sp_precommit sp);
  ws_signature : length (sp_signature sp) = 64%nat;
  ws_id : length (sp_id sp) = 32%nat;
}.
(** What the Rust types of a justification state. *)
Record wf_grandpa_justification {Header} (j : GrandpaJustification Header) : Prop := {
  wg_round : is_u64 (gj_round j);
  wg_hash : length (cm_target_hash (gj_commit j)) = 32%nat;
  wg_number : is_u32 (cm_target_number (gj_commit j));
  wg_votes : Forall wf_signed_precommit (cm_precommits (gj_commit j));
  wg_count : is_u32 (Z.of_nat (length (cm_precommits (gj_commit j))));
}.

Section HeaderFormat.
Context {Header : Type} (encode_header : Header → bytes).

Definition encode_justification (j : GrandpaJustification Header) : bytes :=
  le_encode 8 (gj_round j) ++ encode_commit (gj_commit j)
  ++ encode_vec encode_header (gj_votes_ancestries j).

Definition encode_finality_proof (p : FinalityProof Header) : bytes :=
  fp_block p ++ (Scale.compact_encode (Z.of_nat (length (fp_justification p))) ++ fp_justification p)
  ++ encode_vec encode_header (fp_unknown_headers p).
End HeaderFormat.

(** ** Helper lemmas: a decoder that takes [bs] off any input and returns [a] *)
Definition takes {A} (d : decoder A) (bs : bytes) (a : A) : Prop :=
  ∀ rest, d (bs ++ rest) = Some (a, rest).

Lemma takes_ret {A} (a : A) : takes (mret a) [] a.
Proof. by intros rest. Qed.

Lemma takes_bind {A B} (d : decoder A) (f : A → decoder B) bs bs' a b :
  takes d bs a → takes (f a) bs' b → takes (x ← d; f x) (bs ++ bs') b.
Proof.
  intros Hd Hf rest. unfold mbind, decoder_bind. rewrite <- app_assoc, Hd. apply Hf.
Qed.

(** The last field. *)
Lemma takes_map {A B} (d : decoder A) (f : A → B) bs a :
  takes d bs a → takes (x ← d; mret (f x)) bs (f a).
Proof. intros Hd rest. unfold mbind, decoder_bind. by rewrite Hd. Qed.

Lemma takes_slice {A} (d : decoder A) bs a : takes d bs a → decode_slice d bs = Some a.
Proof. intros Hd. unfold decode_slice. rewrite <- (app_nil_r bs), Hd. done. Qed.

Lemma take_bytes_takes n bs : length bs = n → takes (take_bytes n) bs bs.
Proof.
  intros <- rest. unfold take_bytes. rewrite decide_True by (rewrite length_app; lia).
  by rewrite take_app_length, drop_app_length.
Qed.

Lemma decode_uint_takes k n : 0 ≤ n < 2 ^ (8 * Z.of_nat k) → takes (decode_uint k) (le_encode k n) n.
Proof.
  intros Hn. rewrite <- (Z.mod_small n (2 ^ (8 * Z.of_nat k))) at 2 by done.
  rewrite <- le_decode_encode. apply takes_map, take_bytes_takes, length_le_encode.
Qed.

(** A little-endian number, as its first byte and the rest. *)
Lemma le_encode_S k n : le_encode (S k) n = le_encode 1 (n mod 2 ^ 8) ++ le_encode k (n / 2 ^ 8).
Proof. unfold le_encode; fold le_encode. cbn [app]. by rewrite Z.mod_mod by lia. Qed.

Lemma check_takes (b : bool) {A} (d : decoder A) bs a :
  b = true → takes d bs a → takes (_ ← check b; d) bs a.
Proof. intros ->. done. Qed.

(** The two byte and four byte forms. *)
Lemma compact_parts k m n :
  0 ≤ m < 4 → 0 ≤ n → 4 * n + m < 2 ^ (8 * Z.of_nat (S k)) →
  let p := (4 * n + m) mod 2 ^ 8 in let next := (4 * n + m) / 2 ^ 8 in
  0 ≤ p < 2 ^ 8 ∧ p mod 4 = m ∧ 0 ≤ next < 2 ^ (8 * Z.of_nat k) ∧ (p + 2 ^ 8 * next) / 4 = n.
Proof.
  intros Hm Hn Hfit p next.
  pose proof (Z.div_mod (4 * n + m) (2 ^ 8) ltac:(lia)) as E. fold p next in E.
  assert (0 ≤ p < 2 ^ 8) as Hp by (apply Z.mod_pos_bound; lia).
  split_and!; [lia|lia| | | |].
  - replace p with (m + (n - 2 ^ 6 * next) * 4) by lia. rewrite Z.mod_add by lia. by apply Z.mod_small.
  - apply Z.div_pos; lia.
  - rewrite Nat2Z.inj_succ, Z.mul_succ_r, Z.pow_add_r in Hfit by lia.
    unfold next. apply Z.div_lt_upper_bound; lia.
  - symmetry. apply (Z.div_unique _ _ _ m); lia.
Qed.

Lemma decode_compact_takes n : is_u32 n → takes decode_compact (Scale.compact_encode n) n.
Proof.
  intros [Hn Hmax]. unfold Scale.compact_encode.
  case_decide; [|case_decide; [|case_decide]].
  - rewrite <- (app_nil_r (le_encode 1 _)). eapply takes_bind; [apply decode_uint_takes; lia|].
    rewrite (Z.mul_comm 4), Z.mod_mul, Z.div_mul, decide_True by lia. apply takes_ret.
  - destruct (compact_parts 1 1 n) as (Hp & Em & Hnext & E); [lia..|].
    rewrite le_encode_S. eapply takes_bind; [by apply decode_uint_takes|]. rewrite Em.
    rewrite decide_False, decide_True by lia. rewrite <- (app_nil_r (le_encode 1 _)).
    eapply takes_bind; [by apply decode_uint_takes|]. rewrite E.
    apply check_takes, takes_ret. apply bool_decide_eq_true. lia.
  - destruct (compact_parts 3 2 n) as (Hp & Em & Hnext & E); [lia..|].
    rewrite le_encode_S. eapply takes_bind; [by apply decode_uint_takes|]. rewrite Em.
    rewrite decide_False, decide_False, decide_True by lia. rewrite <- (app_nil_r (le_encode 3 _)).
    eapply takes_bind; [by apply decode_uint_takes|]. rewrite E.
    apply check_takes, takes_ret. apply bool_decide_eq_true. lia.
  - change (3 :: ?l) with (le_encode 1 3 ++ l).
    eapply takes_bind; [apply decode_uint_takes; lia|]. rewrite !decide_False by discriminate.
    apply check_takes; [done|]. rewrite <- (app_nil_r (le_encode 4 _)). eapply takes_bind; [by apply decode_uint_takes|].
    apply check_takes, takes_ret. apply bool_decide_eq_true. lia.
Qed.

Lemma decode_items_takes {A} (d : decoder A) enc l :
  Forall (λ x, takes d (enc x) x) l → takes (decode_items d (length l)) (concat (map enc l)) l.
Proof.
  induction 1 as [|x l Hx _ IH]; [apply takes_ret|]. cbn [length decode_items map concat].
  eapply takes_bind; [exact Hx|]. by apply takes_map.
Qed.

Lemma decode_vec_takes {A} (d : decoder A) enc l :
  is_u32 (Z.of_nat (length l)) → Forall (λ x, takes d (enc x) x) l →
  takes (decode_vec d) (encode_vec enc l) l.
Proof.
  intros Hl Hd. eapply takes_bind; [by apply decode_compact_takes|].
  rewrite Nat2Z.id. by apply decode_items_takes.
Qed.

Lemma decode_bytes_takes bs :
  is_u32 (Z.of_nat (length bs)) →
  takes decode_bytes (Scale.compact_encode (Z.of_nat (length bs)) ++ bs) bs.
Proof.
  intros Hl. eapply takes_bind; [by apply decode_compact_takes|].
  rewrite Nat2Z.id. by apply take_bytes_takes.
Qed.

Lemma decode_vote_takes p : wf_vote p → takes decode_vote (encode_vote p) p.
Proof.
  destruct p as [h n]. intros [Hh Hn]. eapply takes_bind; [by apply take_bytes_takes|].
  by apply (takes_map _ (λ n, {| target_hash := h; target_number := n |})), decode_uint_takes.
Qed.

Lemma decode_signed_precommit_takes sp :
  wf_signed_precommit sp → takes decode_signed_precommit (encode_signed_precommit sp) sp.
Proof.
  destruct sp as [v s i]. intros [Hv Hs Hi]. eapply takes_bind; [by apply decode_vote_takes|].
  eapply takes_bind; [by apply take_bytes_takes|].
  by apply (takes_map _ (λ i, {| sp_precommit := v; sp_signature := s; sp_id := i |})), take_bytes_takes.
Qed.

(** ** Justifications, with their ancestries *)
Section Takes.
Context {Header : Type} (decode_header : decoder Header) (encode_header : Header → bytes).

(** Headers that the decoder reads back. *)
Record decodable (hs : list Header) : Prop := {
  dc_headers : Forall (λ h, takes decode_header (encode_header h) h) hs;
  dc_count : is_u32 (Z.of_nat (length hs));
}.

Lemma decode_headers_takes hs :
  decodable hs → takes (decode_vec decode_header) (encode_vec encode_header hs) hs.
Proof. intros [Hhs Hn]. by apply decode_vec_takes. Qed.

Lemma decode_justification_takes j :
  decodable (gj_votes_ancestries j) → wf_grandpa_justification j →
  takes (decode_justification decode_header) (encode_justification encode_header j) j.
Proof.
  destruct j as [r [h n ps] hs]. intros Hhs [Hr Hh Hn Hps Hl]. cbn in Hr, Hh, Hn, Hps, Hl.
  eapply takes_bind; [by apply decode_uint_takes|]. eapply takes_bind.
  - eapply takes_bind; [by apply take_bytes_takes|]. eapply takes_bind; [by apply decode_uint_takes|].
    apply (takes_map _ (λ ps, {| cm_target_hash := h; cm_target_number := n; cm_precommits := ps |})).
    apply decode_vec_takes; [done|]. eapply Forall_impl; [exact Hps|]. apply decode_signed_precommit_takes.
  - apply (takes_map _ (λ hs, {| gj_round := r;
      gj_commit := {| cm_target_hash := h; cm_target_number := n; cm_precommits := ps |};
      gj_votes_ancestries := hs |})).
    by apply decode_headers_takes.
Qed.

Lemma decode_finality_proof_takes p :
  length (fp_block p) = 32%nat → is_u32 (Z.of_nat (length (fp_justification p))) →
  decodable (fp_unknown_headers p) →
  takes (decode_finality_proof decode_header) (encode_finality_proof encode_header p) p.
Proof.
  destruct p as [b j hs]. intros Hb Hj Hhs. cbn in Hb, Hj, Hhs.
  eapply takes_bind; [by apply take_bytes_takes|]. eapply takes_bind; [by apply decode_bytes_takes|].
  apply (takes_map _ (λ hs, {| fp_block := b; fp_justification := j; fp_unknown_headers := hs |})).
  by apply decode_headers_takes.
Qed.
End Takes.
