(* ===== verification/Redis.v ===== *)
(** * The Redis client: [RedisClient] of circuits/input/mod.rs

    The server is an interface, [RedisServer]: JSON documents, sorted sets and
    plain keys.  The operations of the client pass the store along, as the
    commands change it. *)

From stdpp Require Import pretty gmap sets sorting.
From S2P Require Import Prelude Types Reference.

(** ** The server *)
Class RedisServer := {
  store : Type;
  (** [get_async_connection] succeeds, by attempt. *)
  get_async_connection : nat → bool;

  (** JSON.SET and JSON.GET with path [$], and serde's reader of the reply.  A
      reply for a missing key is not a list of documents. *)
  reply : Type;
  json_set : string → StoredJustificationData → store → option store;
  json_get : string → store → option reply;
  serde_from_slice : reply → option (list StoredJustificationData);

  (** ZADD, ZSCORE and ZRANGEBYSCORE; members are strings. *)
  zadd : string → string → Z → store → option store;
  zscore : string → string → store → option Z;
  zrangebyscore : string → Z → Z → store → option (list string);
  from_redis_value : string → option U32;

  (** SET and GET. *)
  set : string → U64 → store → option store;
  get : string → store → option U64;

  (** The [hex] crate, the [{:#x}] format of an address, and alloy's packed ABI
      encoding of a (uint32, uint32, bytes32). *)
  hex_encode : bytes → string;
  format_address : bytes → string;
  abi_encode_packed_range : U32 → U32 → Bytes32 → bytes;
}.

(** Documented behaviour of the commands. *)
Class RedisLaws `{RedisServer} := {
  json_set_get k v s s' : json_set k v s = Some s' →
    ∃ r, json_get k s' = Some r ∧ serde_from_slice r = Some [v];
  json_set_other k v s s' k' : json_set k v s = Some s' → k ≠ k' →
    json_get k' s' = json_get k' s;
  json_set_zscore k v s s' k' m : json_set k v s = Some s' → k ≠ k' →
    zscore k' m s' = zscore k' m s;
  zadd_zscore k m x s s' : zadd k m x s = Some s' → zscore k m s' = Some x;
  zadd_zscore_other k m x s s' m' : zadd k m x s = Some s' → m ≠ m' →
    zscore k m' s' = zscore k m' s;
  zadd_json k m x s s' k' : zadd k m x s = Some s' → k ≠ k' →
    json_get k' s' = json_get k' s;
  zrangebyscore_spec k a b s l : zrangebyscore k a b s = Some l →
    NoDup l
    ∧ (∀ m, m ∈ l ↔ ∃ x, zscore k m s = Some x ∧ a ≤ x ≤ b)
    ∧ ∀ i j m n x y, (i < j)%nat → l !! i = Some m → l !! j = Some n →
        zscore k m s = Some x → zscore k n s = Some y → x ≤ y;
  from_redis_value_pretty n : is_u32 n → from_redis_value (pretty n) = Some n;
  set_get k v s s' : set k v s = Some s' → get k s' = Some v;
  set_get_other k v s s' k' : set k v s = Some s' → k ≠ k' → get k' s' = get k' s;
  set_zscore k v s s' k' m : set k v s = Some s' → k ≠ k' → zscore k' m s' = zscore k' m s;
  zadd_get k m x s s' k' : zadd k m x s = Some s' → k ≠ k' → get k' s' = get k' s;
  zadd_zscore_key k m x s s' k' m' : zadd k m x s = Some s' → k ≠ k' →
    zscore k' m' s' = zscore k' m' s;
}.

(** ** Data *)
Record DataCommitmentRange := {
  range_start : U32;
  range_end : U32;
  range_data_commitment : bytes;
}.

(** ** Operations *)
Definition MAX_RECONNECT_ATTEMPTS : nat := 3.

Section Operations.
Context `{RedisServer}.

(** The loop of [get_connection], over the attempts left. *)
Fixpoint connect_loop (attempts : list nat) : outcome unit :=
  match attempts with
  | [] => Err "Failed to connect to Redis after multiple attempts!"
  | i :: attempts' => if get_async_connection i then Ret () else connect_loop attempts'
  end.
Definition get_connection : outcome unit := connect_loop (seq 0 MAX_RECONNECT_ATTEMPTS).

Definition justification_key (avail_chain_id : string) (block_number : U32) : string :=
  avail_chain_id +:+ ":justification:" +:+ pretty block_number.
Definition blocks_key (avail_chain_id : string) : string :=
  avail_chain_id +:+ ":justification:blocks".

Definition add_justification (avail_chain_id : string)
    (justification : StoredJustificationData) (s : store) : outcome store :=
  _ ← unwrap get_connection;
  s ← expect (json_set (justification_key avail_chain_id (st_block_number justification))
                justification s) "Failed to set key";
  expect (zadd (blocks_key avail_chain_id) (pretty (st_block_number justification))
            (st_block_number justification) s) "Failed to add key to sorted set".

Definition get_justification (avail_chain_id : string) (block_number : U32) (s : store)
    : outcome StoredJustificationData :=
  _ ← unwrap get_connection;
  serialized_justification ←
    expect (json_get (justification_key avail_chain_id block_number) s) "Failed to get key";
  match serde_from_slice serialized_justification with
  | Some justification => expect (justification !! 0%nat) "index out of bounds"
  | None => Err "Failed to deserialize justification"
  end.

Definition get_blocks_in_range (avail_chain_id : string) (start end_ : U32) (s : store)
    : outcome (list U32) :=
  _ ← unwrap get_connection;
  expect (members ← zrangebyscore (blocks_key avail_chain_id) start end_ s;
          mapM from_redis_value members) "Failed to get keys".

Definition cursor_key (ethereum_chain_id : U64) (address : bytes) : string :=
  pretty ethereum_chain_id +:+ ":" +:+ format_address address +:+ ":cursor".

Definition get_contract_cursor (ethereum_chain_id : U64) (address : bytes) (s : store)
    : outcome (option U64) :=
  _ ← unwrap get_connection;
  Ret (get (cursor_key ethereum_chain_id address) s).

Definition set_contract_cursor (ethereum_chain_id : U64) (address : bytes) (cursor : U64)
    (s : store) : outcome store :=
  _ ← unwrap get_connection;
  expect (set (cursor_key ethereum_chain_id address) cursor s) "Failed to set key".

Definition ranges_key (chain_id : U64) (address : bytes) : string :=
  pretty chain_id +:+ ":" +:+ ("0x" +:+ hex_encode address) +:+ ":ranges".

Definition add_data_commitment_range (chain_id : U64) (address : bytes)
    (range : DataCommitmentRange) (s : store) : outcome store :=
  _ ← unwrap get_connection;
  data_commitment ← (if decide (length (range_data_commitment range) = 32%nat)
                     then Ret (range_data_commitment range)
                     else Panic "called `Result::unwrap()` on an `Err` value");
  let range_data :=
    abi_encode_packed_range (range_start range) (range_end range) data_commitment in
  expect (zadd (ranges_key chain_id address) (hex_encode range_data) (range_end range) s)
    "Failed to set key".
End Operations.

(** ** Helper lemmas *)

(** Decimal numbers start with a digit. *)
Lemma pretty_N_go_digit x d t :
  ∃ d' t', pretty_N_go x (String (pretty_N_char d) t) = String (pretty_N_char d') t'.
Proof.
  revert d t. induction (N.lt_wf_0 x) as [x _ IH]; intros d t.
  assert (x = 0 ∨ 0 < x)%N as [->|?] by lia; [by eauto|].
  rewrite pretty_N_go_step by done. apply IH. by apply N.div_lt.
Qed.

Lemma pretty_digit (n : Z) :
  0 ≤ n → ∃ d t, pretty n = String (pretty_N_char d) t.
Proof.
  intros Hn. destruct n as [|p|p]; [by exists 0%N, ""| |lia].
  change (pretty (Z.pos p)) with (pretty (N.pos p)). unfold pretty, pretty_N.
  rewrite decide_False by done. rewrite pretty_N_go_step by done. apply pretty_N_go_digit.
Qed.

Lemma pretty_not_blocks (n : Z) : 0 ≤ n → pretty n ≠ "blocks".
Proof.
  intros (d & t & ->)%pretty_digit. unfold pretty_N_char. by repeat case_match.
Qed.

Lemma justification_key_inj c m n : justification_key c m = justification_key c n → m = n.
Proof. unfold justification_key. intros E. by simplify_eq. Qed.

Lemma justification_key_not_blocks c n : 0 ≤ n → justification_key c n ≠ blocks_key c.
Proof.
  unfold justification_key, blocks_key. intros Hn E.
  apply (inj (String.append c)) in E. apply (pretty_not_blocks n Hn).
  apply (inj (String.append ":justification:")). done.
Qed.

Section Laws.
Context `{RedisLaws}.

Lemma connect_loop_spec attempts :
  connect_loop attempts = Ret () ↔ ∃ i, i ∈ attempts ∧ get_async_connection i = true.
Proof.
  induction attempts as [|i l IH]; cbn [connect_loop].
  { split; [done|]. intros (i & Hi & _). by apply not_elem_of_nil in Hi. }
  destruct (get_async_connection i) eqn:E.
  - split; [|done]. intros _. exists i. split; [by left|done].
  - rewrite IH. setoid_rewrite elem_of_cons. naive_solver congruence.
Qed.
(** Adding a justification makes it the one stored for its block, adds the block
    to the index and leaves everything else. *)
Record added (c : string) (j : StoredJustificationData) (s s' : store) : Prop := {
  added_get : ∃ r, json_get (justification_key c (st_block_number j)) s' = Some r
    ∧ serde_from_slice r = Some [j];
  added_other n : n ≠ st_block_number j →
    json_get (justification_key c n) s' = json_get (justification_key c n) s;
  added_score : zscore (blocks_key c) (pretty (st_block_number j)) s'
    = Some (st_block_number j);
  added_score_other m : m ≠ pretty (st_block_number j) →
    zscore (blocks_key c) m s' = zscore (blocks_key c) m s;
}.

Lemma add_justification_added c j s s' :
  is_u32 (st_block_number j) → add_justification c j s = Ret s' →
  get_connection = Ret () ∧ added c j s s'.
Proof.
  intros Hn Hadd. unfold add_justification in Hadd.
  destruct get_connection as [[]| | |] eqn:Hc; cbn in Hadd; try discriminate. split; [done|].
  destruct (json_set _ j s) as [s1|] eqn:E1; cbn in Hadd; [|discriminate].
  destruct (zadd _ _ _ s1) as [s2|] eqn:E2; cbn in Hadd; [|discriminate].
  injection Hadd as ->. unfold is_u32 in Hn.
  assert (∀ n, json_get (justification_key c n) s' = json_get (justification_key c n) s1) as Hj.
  { intros n. destruct (decide (justification_key c n = blocks_key c)) as [E|].
    - exfalso. unfold justification_key, blocks_key in E. apply (inj (String.append c)) in E.
      assert (pretty n = "blocks") as Hp by (by apply (inj (String.append ":justification:"))).
      destruct (decide (0 ≤ n)); [by apply (pretty_not_blocks n)|].
      destruct n as [|p|p]; [lia|lia|]. done.
    - by eapply zadd_json. }
  split.
  - rewrite Hj. by eapply json_set_get.
  - intros n Hne. rewrite Hj. eapply json_set_other; [done|].
    intros E. by apply justification_key_inj in E.
  - by eapply zadd_zscore.
  - intros m Hm. rewrite (zadd_zscore_other _ _ _ _ _ _ E2) by done.
    eapply json_set_zscore; [done|]. apply justification_key_not_blocks. lia.
Qed.

Lemma get_justification_stored c n s r j :
  get_connection = Ret () → json_get (justification_key c n) s = Some r →
  serde_from_slice r = Some [j] → get_justification c n s = Ret j.
Proof.
  intros Hc Hr Hj. unfold get_justification. rewrite Hc. cbn. rewrite Hr. cbn. by rewrite Hj.
Qed.

(** ** The stores that the indexer builds *)
Definition absent (c : string) (n : U32) (s : store) : Prop :=
  ∀ r, json_get (justification_key c n) s = Some r → serde_from_slice r = None.

Inductive reachable (c : string) : store → Prop :=
  | reachable_empty s :
      (∀ n, absent c n s) →
      (∀ m, zscore (blocks_key c) m s = None) → reachable c s
  | reachable_add j s s' :
      reachable c s → is_u32 (st_block_number j) →
      add_justification c j s = Ret s' → reachable c s'.

Definition stored (c : string) (n : U32) (s : store) : Prop :=
  ∃ r j, json_get (justification_key c n) s = Some r ∧ serde_from_slice r = Some [j]
    ∧ st_block_number j = n.

(** The index lists exactly the stored justifications, each under its number. *)
Lemma reachable_index c s :
  reachable c s → ∀ m x, zscore (blocks_key c) m s = Some x
    ↔ m = pretty x ∧ is_u32 x ∧ stored c x s.
Proof.
  induction 1 as [s Hj Hz|j s s' _ IH Hn Hadd]; intros m x.
  { rewrite Hz. split; [done|]. intros (_ & _ & (r & k & Hr & Hk & _)). by rewrite (Hj x r Hr) in Hk. }
  apply add_justification_added in Hadd as [_ [(r & Hr & Hs) Hother Hscore Hscoreo]]; [|done].
  destruct (decide (x = st_block_number j)) as [->|Hne].
  - split.
    + intros Hx. destruct (decide (m = pretty (st_block_number j))) as [->|Hm].
      * split_and!; [done|done|]. by exists r, j.
      * rewrite Hscoreo in Hx by done. apply IH in Hx as [? _]. done.
    + intros (-> & _ & _). done.
  - assert (stored c x s' ↔ stored c x s) as -> by (unfold stored; by rewrite Hother).
    destruct (decide (m = pretty (st_block_number j))) as [->|Hm].
    + rewrite Hscore. split; [naive_solver|]. intros (E & _). by apply (inj pretty) in E.
    + rewrite Hscoreo by done. apply IH.
Qed.

(** Whatever can be read was stored. *)
Lemma reachable_stored c s n j :
  reachable c s → get_connection = Ret () → get_justification c n s = Ret j → stored c n s.
Proof.
  intros Hreach Hc Hget. unfold get_justification in Hget. rewrite Hc in Hget. cbn in Hget.
  destruct (json_get (justification_key c n) s) as [r|] eqn:Hr; [|done]. cbn in Hget.
  destruct (serde_from_slice r) as [l|] eqn:Hl; [|done]. clear Hget j.
  revert r Hr l Hl; induction Hreach as [s Hj _|j s s' _ IH Hn Hadd]; intros r Hr l Hl.
  { by rewrite (Hj n r Hr) in Hl. }
  apply add_justification_added in Hadd as [_ [(r' & Hr' & Hs) Hother _ _]]; [|done].
  unfold stored. destruct (decide (n = st_block_number j)) as [->|Hne]; [by exists r', j|].
  rewrite Hother in Hr by done. destruct (IH r Hr l Hl) as (r0 & j0 & ?).
  exists r0, j0. by rewrite Hother.
Qed.

(** Every block of the index parses back to its number. *)
Lemma reachable_parse c s m x n :
  reachable c s → zscore (blocks_key c) m s = Some x → from_redis_value m = Some n → n = x.
Proof.
  intros Hr Hx Hn. apply reachable_index in Hx as (-> & Hx & _); [|done].
  rewrite from_redis_value_pretty in Hn by done. by injection Hn.
Qed.

Lemma get_blocks_in_range_run c a b s l :
  get_blocks_in_range c a b s = Ret l →
  get_connection = Ret () ∧ ∃ ms, zrangebyscore (blocks_key c) a b s = Some ms
    ∧ Forall2 (λ m n, from_redis_value m = Some n) ms l.
Proof.
  unfold get_blocks_in_range. destruct get_connection as [[]| | |]; cbn; try discriminate.
  destruct (zrangebyscore _ a b s) as [ms|]; cbn; [|discriminate].
  destruct (mapM from_redis_value ms) as [l'|] eqn:E; cbn; [|discriminate].
  intros [= ->]. apply mapM_Some in E. eauto.
Qed.
End Laws.

(** ** Properties *)
Section Properties.
Context `{RedisLaws}.

(** A justification that was added is the one read back for its block, and
    every other block keeps what was stored for it. *)
Theorem justification_roundtrip c j s s' :
  is_u32 (st_block_number j) → add_justification c j s = Ret s' →
  get_justification c (st_block_number j) s' = Ret j
  ∧ ∀ n, n ≠ st_block_number j → get_justification c n s' = get_justification c n s.
Proof.
  intros Hn Hadd. apply add_justification_added in Hadd as [Hc [(r & Hr & Hs) Ho _ _]]; [|done].
  split; [by eapply get_justification_stored|].
  intros n Hne. unfold get_justification. rewrite Hc. cbn. by rewrite Ho.
Qed.

(** C32: after any sequence of additions, the blocks found in a range are the
    numbers of the range for which a justification can be read, in increasing
    order and without repetition. *)
Theorem blocks_in_range_spec c a b s l :
  reachable c s → get_blocks_in_range c a b s = Ret l →
  (∀ n, n ∈ l ↔ a ≤ n ≤ b ∧ is_u32 n
        ∧ ∃ j, st_block_number j = n ∧ get_justification c n s = Ret j)
  ∧ ∀ i k m n, (i < k)%nat → l !! i = Some m → l !! k = Some n → m < n.
Proof.
  intros Hreach Hrun. apply get_blocks_in_range_run in Hrun as (Hc & ms & Hz & Hms).
  apply zrangebyscore_spec in Hz as (Hnd & Hin & Hsort).
  assert (∀ m, m ∈ ms → ∃ n, zscore (blocks_key c) m s = Some n ∧ a ≤ n ≤ b) as Hscores
    by (intros m Hm; by apply Hin).
  assert (∀ i n, l !! i = Some n →
    ∃ m, ms !! i = Some m ∧ zscore (blocks_key c) m s = Some n ∧ a ≤ n ≤ b) as Hl.
  { intros i n Hi. destruct (Forall2_lookup_r _ _ _ _ _ Hms Hi) as (m & Hm & Hp).
    destruct (Hscores m) as (x & Hx & Hab); [by eapply list_elem_of_lookup_2|].
    rewrite (reachable_parse _ _ _ _ _ Hreach Hx Hp). eauto. }
  split.
  - intros n. rewrite list_elem_of_lookup. split.
    + intros (i & Hi). destruct (Hl i n Hi) as (m & _ & Hx & Hab).
      apply reachable_index in Hx as (_ & Hu & r & j & Hr & Hs & Hj); [|done].
      split_and!; [lia|lia|done|]. exists j. split; [done|]. by eapply get_justification_stored.
    + intros (Hab & Hu & j & Hj & Hget).
      apply (reachable_stored _ _ _ _ Hreach Hc) in Hget as Hst.
      assert (zscore (blocks_key c) (pretty n) s = Some n) as Hx
        by by apply reachable_index.
      assert (pretty n ∈ ms) as Hm by (apply Hin; eauto).
      apply list_elem_of_lookup_1 in Hm as [i Hi].
      destruct (Forall2_lookup_l _ _ _ _ _ Hms Hi) as (k & Hk & Hp).
      rewrite from_redis_value_pretty in Hp by done. injection Hp as <-. eauto.
  - intros i k m n Hik Hi Hk. destruct (Hl i m Hi) as (mi & Hmi & Hxi & _).
    destruct (Hl k n Hk) as (mk & Hmk & Hxk & _).
    pose proof (Hsort _ _ _ _ _ _ Hik Hmi Hmk Hxi Hxk).
    enough (m ≠ n) by lia. intros ->.
    apply reachable_index in Hxi as [-> _]; [|done]. apply reachable_index in Hxk as [-> _]; [|done].
    pose proof (NoDup_lookup _ _ _ _ Hnd Hmi Hmk). lia.
Qed.
(** The cursor that was set is the one read back, and the cursors under other
    keys keep their value. *)
Theorem cursor_roundtrip id addr n s s' :
  set_contract_cursor id addr n s = Ret s' →
  get_contract_cursor id addr s' = Ret (Some n)
  ∧ ∀ id' addr', cursor_key id' addr' ≠ cursor_key id addr →
      get_contract_cursor id' addr' s' = get_contract_cursor id' addr' s.
Proof.
  unfold set_contract_cursor, get_contract_cursor.
  destruct get_connection as [[]| | |]; cbn; try discriminate.
  destruct (set _ n s) as [s1|] eqn:E; cbn; [|discriminate]. intros [= ->].
  split; [by rewrite (set_get _ _ _ _ E)|].
  intros id' addr' Hk. by rewrite (set_get_other _ _ _ _ _ E).
Qed.
End Properties.

(** ** A concrete server, for the witnesses *)
Module RefRedis.

Record db := {
  documents : gmap string StoredJustificationData;
  zsets : gmap string (gmap string Z);
  keys : gmap string U64;
}.

(** The members of a sorted set with scores between [a] and [b], by score. *)
Definition by_score (p q : string * Z) : Prop := snd p ≤ snd q.
#[export] Instance by_score_dec : RelDecision by_score.
Proof. unfold by_score. intros p q. apply _. Defined.
#[export] Instance by_score_total : Total by_score.
Proof. unfold by_score. intros p q. lia. Qed.
#[export] Instance by_score_trans : Transitive by_score.
Proof. unfold by_score. intros p q r. lia. Qed.

Definition range_of (a b : Z) (z : gmap string Z) : list (string * Z) :=
  merge_sort by_score (map_to_list (filter (λ p : string * Z, a ≤ snd p ≤ b) z)).

(** Reads a decimal number. *)
Definition digit (c : Ascii.ascii) : option N :=
  let d := (Ascii.N_of_ascii c - 48)%N in
  if decide (c = pretty_N_char d) then Some d else None.
Fixpoint parse_from (acc : N) (m : string) : option N :=
  match m with
  | EmptyString => Some acc
  | String c m' => d ← digit c; parse_from (10 * acc + d) m'
  end.
Definition parse (m : string) : option U32 := Z.of_N <$> parse_from 0 m.

Lemma digit_char d : (d < 10)%N → digit (pretty_N_char d) = Some d.
Proof.
  intros. assert (d = 0 ∨ d = 1 ∨ d = 2 ∨ d = 3 ∨ d = 4 ∨ d = 5 ∨ d = 6 ∨ d = 7 ∨ d = 8 ∨ d = 9)%N
    as Hd by lia. by repeat destruct Hd as [->|Hd]; subst.
Qed.

Lemma parse_go x t : parse_from 0 (pretty_N_go x t) = parse_from x t.
Proof.
  revert t. induction (N.lt_wf_0 x) as [x _ IH]; intros t.
  assert (x = 0 ∨ 0 < x)%N as [->|?] by lia; [done|].
  rewrite pretty_N_go_step by done. rewrite IH by by apply N.div_lt.
  cbn [parse_from]. rewrite digit_char by by apply N.mod_lt. cbn [mbind option_bind].
  f_equal. pose proof (N.div_mod x 10). lia.
Qed.

Lemma parse_pretty n : 0 ≤ n → parse (pretty n) = Some n.
Proof.
  intros Hn. destruct n as [|p|p]; [done| |lia].
  change (pretty (Z.pos p)) with (pretty (N.pos p)). unfold parse, pretty, pretty_N.
  rewrite decide_False by done. by rewrite parse_go.
Qed.

Definition char_of (b : Z) : Ascii.ascii := Ascii.ascii_of_N (Z.to_N b).

#[export] Instance server : RedisServer := {
  store := db;
  get_async_connection i := bool_decide (i = 1%nat);
  reply := option StoredJustificationData;
  json_set k v s := Some {| documents := <[k:=v]> (documents s); zsets := zsets s; keys := keys s |};
  json_get k s := Some (documents s !! k);
  serde_from_slice r := (λ j, [j]) <$> r;
  zadd k m x s := Some {| documents := documents s; keys := keys s;
    zsets := <[k := <[m := x]> (default ∅ (zsets s !! k))]> (zsets s) |};
  zscore k m s := z ← zsets s !! k; z !! m;
  zrangebyscore k a b s := Some (map fst (range_of a b (default ∅ (zsets s !! k))));
  from_redis_value := parse;
  set k v s := Some {| documents := documents s; zsets := zsets s; keys := <[k:=v]> (keys s) |};
  get k s := keys s !! k;
  hex_encode bs := foldr (λ b t, String (char_of b) t) "" bs;
  format_address bs := foldr (λ b t, String (char_of b) t) "" bs;
  abi_encode_packed_range a b c := le_encode 4 a ++ le_encode 4 b ++ c;
}.

Lemma elem_of_range a b z m x :
  (m, x) ∈ range_of a b z ↔ z !! m = Some x ∧ a ≤ x ≤ b.
Proof.
  unfold range_of. rewrite merge_sort_Permutation, elem_of_map_to_list.
  by rewrite map_lookup_filter_Some.
Qed.

Lemma NoDup_range a b z : NoDup (map fst (range_of a b z)).
Proof.
  unfold range_of. change (map fst) with (fmap (M:=list) (fst (A:=string) (B:=Z))).
  rewrite merge_sort_Permutation. apply NoDup_fst_map_to_list.
Qed.

Lemma range_sorted a b z i j m n x y :
  (i < j)%nat → map fst (range_of a b z) !! i = Some m → map fst (range_of a b z) !! j = Some n →
  z !! m = Some x → z !! n = Some y → x ≤ y.
Proof.
  change (map fst) with (fmap (M:=list) (fst (A:=string) (B:=Z))).
  intros Hij Hm Hn Hx Hy.
  apply list_lookup_fmap_Some in Hm as ((m' & x') & -> & Hi).
  apply list_lookup_fmap_Some in Hn as ((n' & y') & -> & Hj).
  pose proof (list_elem_of_lookup_2 _ _ _ Hi) as Hi'. apply elem_of_range in Hi' as [Hi' _].
  pose proof (list_elem_of_lookup_2 _ _ _ Hj) as Hj'. apply elem_of_range in Hj' as [Hj' _].
  cbn in *. simplify_eq.
  assert (StronglySorted by_score (range_of a b z)) as Hs
    by (apply Sorted_StronglySorted, Sorted_merge_sort; apply _).
  rewrite <- (take_drop_middle _ _ _ Hi) in Hs. apply StronglySorted_app in Hs as (_ & _ & Hs).
  apply StronglySorted_cons in Hs as [Hs _].
  rewrite <- (take_drop_middle _ _ _ Hi), lookup_app_r in Hj by (rewrite length_take; lia).
  rewrite length_take, Nat.min_l in Hj by (apply lookup_lt_Some in Hi; lia).
  destruct (j - i)%nat as [|k] eqn:E; [lia|]. cbn in Hj.
  apply (proj1 (Forall_lookup _ _) Hs) in Hj. done.
Qed.

#[export] Instance server_laws : RedisLaws.
Proof.
  split; cbn; intros; simplify_eq/=.
  all: rewrite ?lookup_insert_eq, ?lookup_insert_ne by done; eauto.
  - cbn. by rewrite lookup_insert_eq.
  - cbn. rewrite lookup_insert_ne by done. by destruct (zsets s !! k).
  - split_and!.
    + apply NoDup_range.
    + intros m. split.
      * intros ((m' & x) & -> & Hx)%list_elem_of_fmap. apply elem_of_range in Hx as [Hx ?].
        exists x. destruct (zsets s !! k) as [z|] eqn:E; cbn in *; [done|].
        by rewrite lookup_empty in Hx.
      * intros (x & Hx & Hab). apply list_elem_of_fmap. exists (m, x). split; [done|].
        apply elem_of_range. destruct (zsets s !! k); [done|done].
    + intros i j m n x y Hij Hm Hn Hx Hy. destruct (zsets s !! k) as [z|] eqn:E; [|done].
      by eapply range_sorted.
  - unfold is_u32 in *. apply parse_pretty. lia.
Qed.

Definition empty : store (RedisServer := server) := {| documents := ∅; zsets := ∅; keys := ∅ |}.
End RefRedis.

(** ** Witnesses *)
Import RefRedis.

Definition stored_at (n : U32) : StoredJustificationData := {|
  st_block_number := n; st_signed_message := [1]; st_pubkeys := []; st_signatures := [];
  st_validator_signed := []; st_num_authorities := 0 |}.

(** The store after adding justifications for some blocks. *)
Definition store_of (ns : list U32) : store :=
  match foldM (λ s n, add_justification "avail" (stored_at n) s) ns empty with
  | Ret s => s
  | _ => empty
  end.

Lemma justification_roundtrip_witness :
  get_justification "avail" 120 (store_of [7; 120]) = Ret (stored_at 120)
  ∧ ∀ n, n ≠ 120 → get_justification "avail" n (store_of [7; 120])
      = get_justification "avail" n (store_of [7]).
Proof.
  apply (justification_roundtrip "avail" (stored_at 120)); [by_decide|vm_compute; reflexivity].
Defined.

Lemma store_of_reachable : reachable "avail" (store_of [7; 120; 15]).
Proof.
  apply (reachable_add _ (stored_at 15) (store_of [7; 120]));
    [|by_decide|vm_compute; reflexivity].
  apply (reachable_add _ (stored_at 120) (store_of [7])); [|by_decide|vm_compute; reflexivity].
  apply (reachable_add _ (stored_at 7) empty); [|by_decide|vm_compute; reflexivity].
  apply reachable_empty; [|done]. intros n r [= <-]. done.
Qed.

Lemma blocks_in_range_spec_witness :
  (∀ n, n ∈ [7; 15] ↔ 5 ≤ n ≤ 100 ∧ is_u32 n
    ∧ ∃ j, st_block_number j = n ∧ get_justification "avail" n (store_of [7; 120; 15]) = Ret j)
  ∧ ∀ i k m n, (i < k)%nat → [7; 15] !! i = Some m → [7; 15] !! k = Some n → m < n.
Proof.
  apply (blocks_in_range_spec "avail" 5 100).
  - apply store_of_reachable.
  - vm_compute. reflexivity.
Defined.

Lemma cursor_roundtrip_witness :
  get_contract_cursor 1 [65; 66] {| documents := ∅; zsets := ∅; keys := {[ "1:AB:cursor" := 9 ]} |}
    = Ret (Some 9)
  ∧ ∀ id' addr', cursor_key id' addr' ≠ cursor_key 1 [65; 66] →
      get_contract_cursor id' addr'
        {| documents := ∅; zsets := ∅; keys := {[ "1:AB:cursor" := 9 ]} |}
      = get_contract_cursor id' addr' empty.
Proof. apply (cursor_roundtrip 1 [65; 66] 9 empty). vm_compute. reflexivity. Defined.
