(* ===== verification/Fetcher.v ===== *)
(** * The data fetcher: [RpcDataFetcher] of circuits/input/mod.rs

    The Avail node is an interface, [AvailNode], that answers the same to the
    same question: a snapshot of a chain.  Every operation reconnects first, as
    the code does, and a failure the code does not handle is a [Panic]. *)

From stdpp Require Import sorting.
From S2P Require Import Prelude Consts Builder Reference Decoder Subchain Offchain Types Codec Redis.

(** ** The node *)
Inductive DigestItem :=
  | Consensus (engine : bytes) (value : bytes)
  | OtherItem (encoded : bytes).

Class AvailNode := {
  (** Avail's header, with the fields and methods that the code uses. *)
  AvailHeader : Type;
  number : AvailHeader → U32;
  av_parent_hash : AvailHeader → Bytes32;
  av_state_root : AvailHeader → Bytes32;
  av_data_root : AvailHeader → Bytes32;
  digest_logs : AvailHeader → list DigestItem;
  encode : AvailHeader → bytes;
  hash : AvailHeader → Bytes32;
  encode_log : DigestItem → bytes;
  (** [Compact(n).encode()]. *)
  encode_compact : U32 → bytes;

  (** Health of the connection and of a new one, by attempt. *)
  system_health : nat → bool;
  new_client : nat → bool;

  (** RPC calls. *)
  chain_get_block_hash : U32 → option Bytes32;
  chain_get_header : Bytes32 → option AvailHeader;
  chain_get_finalized_head : Bytes32;
  current_set_id : Bytes32 → option U64;
  grandpa_authorities : Bytes32 → list (Bytes32 * U64);
  (** grandpa_proveFinality: the bytes of an [EncodedFinalityProof]. *)
  request_finality_proof : U32 → option bytes;

  (** The SCALE decoder of headers. *)
  decode_avail_header : decoder AvailHeader;
}.

(** The justification in the answer of grandpa_proveFinality, if all of it decodes. *)
Definition grandpa_proveFinality `{AvailNode} (block_number : U32)
    : option (GrandpaJustification AvailHeader) :=
  encoded_finality_proof ← request_finality_proof block_number;
  proof_justification decode_avail_header encoded_finality_proof.

(** ** Merkle trees *)

(** [usize::count_ones]. *)
Definition count_ones (n : nat) : nat := length (filter (eq true) (bits_of 64 (Z.of_nat n))).

Section Merkle.
Context `{Hashing}.

(** One level of the tree. *)
Definition next_level (nodes : list bytes) : list bytes :=
  map (λ i, Sha256 (nodes !!! (2 * i)%nat ++ nodes !!! (2 * i + 1)%nat))
    (seq 0 (length nodes / 2)).

Definition get_merkle_root (leaves : list bytes) : outcome bytes :=
  if decide (leaves = []) then Ret [] else
  leaves ← fuelled (while_loop (length leaves)
    (λ l, negb (bool_decide (count_ones (length l) = 1%nat))) (λ l, l ++ [zero32]) leaves);
  nodes ← fuelled (while_loop (length leaves)
    (λ nodes, bool_decide (1 < length nodes)%nat) next_level leaves);
  expect (nodes !! 0%nat) "index out of bounds".
End Merkle.

(** ** Calls to the node *)
Definition MAX_CONCURRENT_WS_REQUESTS : Z := 200.

Section Calls.
Context `{AvailNode}.

(** The loop of [refresh_ws_connection], over the attempts left. *)
Fixpoint refresh_loop (attempts : list nat) : outcome unit :=
  match attempts with
  | [] => Err "Failed to connect to Avail client after multiple attempts!"
  | i :: attempts' =>
      if system_health i then Ret ()
      else if new_client i then Ret ()
      else refresh_loop attempts'
  end.
Definition refresh_ws_connection : outcome unit :=
  refresh_loop (seq 0 MAX_RECONNECT_ATTEMPTS).

Definition get_block_hash (block_number : U32) : outcome Bytes32 :=
  expect (chain_get_block_hash block_number) "called `Option::unwrap()` on a `None` value".

Definition get_header (block_number : U32) : outcome AvailHeader :=
  block_hash ← get_block_hash block_number;
  expect (chain_get_header block_hash) "called `Option::unwrap()` on a `None` value".

Definition get_head : outcome AvailHeader :=
  _ ← unwrap refresh_ws_connection;
  let head_block_hash := chain_get_finalized_head in
  expect (chain_get_header head_block_hash) "called `Option::unwrap()` on a `None` value".

Definition get_authority_set_id (block_number : U32) : outcome U64 :=
  _ ← unwrap refresh_ws_connection;
  block_hash ← get_block_hash block_number;
  expect (current_set_id block_hash) "called `Option::unwrap()` on a `None` value".

Definition get_authorities (block_number : U32) : outcome (list Bytes32) :=
  _ ← unwrap refresh_ws_connection;
  block_hash ← get_block_hash block_number;
  foldM (λ authorities '(pub_key, weight),
           _ ← assert (bool_decide (weight = 1)) "The weight of the authority is not 1!";
           Ret (authorities ++ [pub_key]))
    (grandpa_authorities block_hash) [].

(** The body of the loop of [get_block_headers_range], on [headers] and
    [curr_block]. *)
Definition headers_batch (end_block_number : U32) (s : list AvailHeader * U32)
    : outcome (list AvailHeader * U32 + list AvailHeader) :=
  let '(headers, curr_block) := s in
  if decide (curr_block ≤ end_block_number) then
    next ← checked_add 32 curr_block MAX_CONCURRENT_WS_REQUESTS;
    let end_block := Z.min (next - 1) end_block_number in
    last ← checked_add 32 end_block 1;
    headers_batch ← traverse get_header (seqZ curr_block (last - curr_block));
    Ret (inl (headers ++ headers_batch, next))
  else Ret (inr headers).

Definition get_block_headers_range (start_block_number end_block_number : U32)
    : outcome (list AvailHeader) :=
  _ ← unwrap refresh_ws_connection;
  loop (S (Z.to_nat (end_block_number + 1 - start_block_number)))
    (headers_batch end_block_number) ([], start_block_number).

Definition get_merkle_root_commitments `{Hashing} (header_range_commitment_tree_size : U32)
    (start_block end_block : U32) : outcome (bytes * bytes) :=
  _ ← assert (bool_decide (count_ones (Z.to_nat header_range_commitment_tree_size) = 1%nat))
        "assertion failed: is_power_of_two";
  range ← checked_sub end_block start_block;
  _ ← assert (bool_decide (range ≤ header_range_commitment_tree_size)) "Range too large!";
  first ← checked_add 32 start_block 1;
  headers ← get_block_headers_range first end_block;
  let padding :=
    replicate (Z.to_nat header_range_commitment_tree_size - length headers) zero32 in
  let data_root_leaves := map av_data_root headers ++ padding in
  let state_root_leaves := map av_state_root headers ++ padding in
  state_root ← get_merkle_root state_root_leaves;
  data_root ← get_merkle_root data_root_leaves;
  Ret (state_root, data_root).

(** [RpcDataFetcher::compute_authority_set_hash]; [H256::from_slice] panics on
    the empty hash of an empty set. *)
Definition fetch_authority_set_hash `{Hashing} (block_number : U32) : outcome Bytes32 :=
  authorities ← get_authorities block_number;
  let hash_so_far := compute_authority_set_hash authorities in
  _ ← assert (bool_decide (length hash_so_far = 32%nat)) "assertion failed: from_slice";
  Ret hash_so_far.

(** ** Epochs *)

(** One probe of the binary search, on [low] and [high]; [inr] is [break] or the
    end of the loop. *)
Definition search_step (target_authority_set_id : U64) (s : U32 * U32)
    : outcome (U32 * U32 + U32) :=
  let '(low, high) := s in
  if decide (low ≤ high) then
    sum ← checked_add 32 low high;
    let mid := sum / 2 in
    mid_authority_set_id ← get_authority_set_id mid;
    next_id ← checked_add 64 target_authority_set_id 1;
    match mid_authority_set_id ?= next_id with
    | Eq =>
        if decide (mid = 0) then Ret (inr mid) else
        prev ← checked_sub mid 1;
        prev_authority_set_id ← get_authority_set_id prev;
        if decide (prev_authority_set_id = target_authority_set_id) then Ret (inr mid)
        else Ret (inl (low, prev))
    | Lt => next ← checked_add 32 mid 1; Ret (inl (next, high))
    | Gt => prev ← checked_sub mid 1; Ret (inl (low, prev))
    end
  else Ret (inr 0).

(** Halving an interval of [u32]s takes at most 33 probes. *)
Definition SEARCH_FUEL : nat := 34.

Definition last_justified_block (target_authority_set_id : U64) : outcome U32 :=
  _ ← unwrap refresh_ws_connection;
  head_block ← get_head;
  loop SEARCH_FUEL (search_step target_authority_set_id) (0, number head_block).

(** The loop of [find_justifications_in_range], on [curr_block], [curr_era] and
    [epoch_end_blocks]. *)
Definition era_step (end_block : U32) (s : U32 * U64 * list U32)
    : outcome (U32 * U64 * list U32 + list U32) :=
  let '(curr_block, curr_era, epoch_end_blocks) := s in
  if decide (curr_block < end_block) then
    epoch_end_block ← last_justified_block curr_era;
    if decide (epoch_end_block = 0) then Ret (inr epoch_end_blocks) else
    if decide (epoch_end_block ≤ end_block) then
      next_era ← checked_add 64 curr_era 1;
      Ret (inl (epoch_end_block, next_era, epoch_end_blocks ++ [epoch_end_block]))
    else Ret (inr epoch_end_blocks)
  else Ret (inr epoch_end_blocks).

Definition find_justifications_in_range `{RedisServer} (avail_chain_id : string)
    (start_block end_block : U32) (s : store) : outcome (list U32) :=
  _ ← unwrap refresh_ws_connection;
  redis_blocks ← get_blocks_in_range avail_chain_id start_block end_block s;
  before ← checked_sub start_block 1;
  start_era ← get_authority_set_id before;
  epoch_end_blocks ← loop (S (S (Z.to_nat (end_block - start_block)))) (era_step end_block)
    (start_block, start_era, []);
  Ret (merge_sort Z.le (redis_blocks ++ epoch_end_blocks)).
End Calls.

(** ** Merkle roots *)

Lemma count_true_bits_0 w n :
  0 ≤ n < 2 ^ Z.of_nat w → length (filter (eq true) (bits_of w n)) = 0%nat ↔ n = 0.
Proof.
  revert n; induction w as [|w IH]; intros n Hn; [simpl in *; lia|].
  unfold bits_of; fold bits_of. rewrite Nat2Z.inj_succ, Z.pow_succ_r in Hn by lia.
  rewrite filter_cons. specialize (IH (n / 2)).
  pose proof (Z.div_mod n 2). rewrite Zmod_odd in *.
  destruct (Z.odd n); [rewrite decide_True by done|rewrite decide_False by done].
  - cbn [length]. lia.
  - rewrite IH by lia. lia.
Qed.

(** A number with one bit set is a power of two. *)
Lemma count_true_bits_1 w n :
  0 ≤ n < 2 ^ Z.of_nat w →
  length (filter (eq true) (bits_of w n)) = 1%nat ↔ ∃ k, (k < w)%nat ∧ n = 2 ^ Z.of_nat k.
Proof.
  revert n; induction w as [|w IH]; intros n Hn.
  { simpl in Hn. split; [done|]. intros (k & ? & _). lia. }
  unfold bits_of; fold bits_of. rewrite Nat2Z.inj_succ, Z.pow_succ_r in Hn by lia.
  rewrite filter_cons. specialize (IH (n / 2)). pose proof (count_true_bits_0 w (n / 2)) as H0.
  pose proof (Z.div_mod n 2) as Hdiv. rewrite Zmod_odd in *.
  destruct (Z.odd n); [rewrite decide_True by done|rewrite decide_False by done].
  - cbn [length]. transitivity (n / 2 = 0); [rewrite <- H0 by lia; lia|]. split.
    + intros E. exists 0%nat. simpl. lia.
    + intros (k & Hk & ->). destruct k as [|k]; [done|exfalso].
      rewrite Nat2Z.inj_succ, Z.pow_succ_r in Hdiv by lia. lia.
  - rewrite IH by lia. split.
    + intros (k & Hk & E). exists (S k). rewrite Nat2Z.inj_succ, Z.pow_succ_r by lia. lia.
    + intros (k & Hk & E). destruct k as [|k]; [simpl in E; lia|].
      exists k. rewrite Nat2Z.inj_succ, Z.pow_succ_r in E by lia. split; [lia|]. lia.
Qed.

Lemma count_ones_spec n :
  Z.of_nat n < 2 ^ 64 → count_ones n = 1%nat ↔ ∃ k, n = (2 ^ k)%nat.
Proof.
  intros Hn. unfold count_ones. rewrite count_true_bits_1 by (simpl in *; lia). split.
  - intros (k & _ & E). exists k. apply Nat2Z.inj. by rewrite Nat2Z.inj_pow.
  - intros (k & ->). exists k. rewrite Nat2Z.inj_pow in Hn |- *. split; [|done].
    apply Nat2Z.inj_lt, (Z.pow_lt_mono_r_iff 2); [lia..|]. done.
Qed.

Lemma log2_up_bounds n : (0 < n)%nat → (n ≤ 2 ^ Nat.log2_up n)%nat ∧
  ∀ k, (n ≤ 2 ^ k)%nat → (Nat.log2_up n ≤ k)%nat.
Proof.
  intros Hn. split.
  - destruct (decide (n = 1)%nat) as [->|]; [done|]. pose proof (Nat.log2_up_spec n). lia.
  - intros k Hk. apply Nat.log2_up_le_pow2; lia.
Qed.

(** The first loop extends the leaves to the next power of two. *)
Lemma extend_leaves (leaves : list bytes) :
  leaves ≠ [] → Z.of_nat (length leaves) < 2 ^ 62 →
  while_loop (length leaves)
    (λ l, negb (bool_decide (count_ones (length l) = 1%nat))) (λ l, l ++ [zero32]) leaves
  = Some (padded (2 ^ Nat.log2_up (length leaves))%nat leaves).
Proof.
  intros Hne Hlen. set (n := length leaves) in *. set (k := Nat.log2_up n).
  assert (0 < n)%nat as Hn by (unfold n; destruct leaves; simpl; [done|lia]).
  destruct (log2_up_bounds n Hn) as [Hk Hmin]. fold k in Hk, Hmin.
  assert (2 ^ k < 2 * n)%nat as Hk2.
  { destruct (decide (n = 1)%nat) as [E|]; [unfold k; rewrite E; simpl; lia|].
    pose proof (Nat.log2_up_spec n) as Hs. fold k in Hs.
    destruct k as [|k']; [simpl in *; lia|]. cbn [Nat.pred Nat.pow] in *. lia. }
  destruct (while_loop_total (λ l, ∃ j, l = leaves ++ replicate j zero32 ∧ (n + j ≤ 2 ^ k)%nat)
    (λ l, 2 ^ k - length l)%nat
    (λ l, negb (bool_decide (count_ones (length l) = 1%nat))) (λ l, l ++ [zero32]) n leaves)
    as (l & -> & (j & -> & Hj) & Hend).
  - exists 0%nat. by rewrite app_nil_r, Nat.add_0_r.
  - lia.
  - intros l (j & -> & Hj) Hc. rewrite negb_true_iff, bool_decide_eq_false in Hc.
    rewrite length_app, length_replicate in Hc. fold n in Hc.
    assert (n + j ≠ 2 ^ k)%nat as Hne'.
    { intros E. apply Hc. rewrite E. apply count_ones_spec; [|by exists k].
      rewrite <- E. lia. }
    rewrite !length_app, length_replicate. fold n.
    split; [|cbn; lia]. exists (S j). rewrite <- app_assoc. split; [|lia].
    by rewrite <- replicate_S_end.
  - rewrite negb_false_iff, bool_decide_eq_true in Hend.
    rewrite length_app, length_replicate in Hend. fold n in Hend.
    apply count_ones_spec in Hend as (i & Hi); [|lia].
    assert (i = k) as ->.
    { apply Nat.le_antisymm; [|apply Hmin; lia].
      apply (Nat.pow_le_mono_r_iff 2); lia. }
    unfold padded. fold n. do 3 f_equal. lia.
Qed.

Section MerkleFacts.
Context `{Hashing}.

Lemma next_level_cons2 x y l : next_level (x :: y :: l) = Sha256 (x ++ y) :: next_level l.
Proof.
  unfold next_level. cbn [length].
  replace (S (S (length l)) / 2)%nat with (S (length l / 2))
    by by rewrite <- !Nat.div2_div.
  cbn [seq map]. f_equal. rewrite <- seq_shift, map_map. apply map_ext. intros i.
  replace (2 * S i)%nat with (S (S (2 * i))) by lia. done.
Qed.

Lemma next_level_app m l r :
  length l = (2 * m)%nat → next_level (l ++ r) = next_level l ++ next_level r.
Proof.
  revert l; induction m as [|m IH]; intros l Hl; [by destruct l|].
  destruct l as [|x [|y l]]; simpl in Hl; [lia|lia|].
  cbn [app]. rewrite !next_level_cons2. cbn [app]. f_equal. apply IH. lia.
Qed.

Lemma length_next_level l : length (next_level l) = (length l / 2)%nat.
Proof. unfold next_level. by rewrite length_map, length_seq. Qed.

(** Hashing one level leaves the root of the tree. *)
Lemma merkle_root_next_level d l :
  length l = (2 ^ S d)%nat → merkle_root (S d) l = merkle_root d (next_level l).
Proof.
  revert l; induction d as [|d IH]; intros l Hl.
  { destruct l as [|x [|y [|z l]]]; simpl in Hl; try lia. done. }
  cbn [Nat.pow] in Hl. set (half := (2 ^ S d)%nat).
  assert (length (take half l) = half) as Ht by (rewrite length_take; unfold half; simpl; lia).
  assert (length (drop half l) = half) as Hd by (rewrite length_drop; unfold half; simpl; lia).
  transitivity (Sha256 (merkle_root (S d) (take half l) ++ merkle_root (S d) (drop half l)));
    [done|].
  assert (next_level l = next_level (take half l) ++ next_level (drop half l)) as ->.
  { rewrite <- (next_level_app (2 ^ d)) by (rewrite Ht; unfold half; simpl; lia).
    by rewrite take_drop. }
  rewrite merkle_root_append; [by rewrite !IH|].
  rewrite length_next_level, Ht. unfold half. cbn [Nat.pow]. rewrite Nat.mul_comm.
  by apply Nat.div_mul.
Qed.

(** The second loop computes the root. *)
Lemma reduce_levels d fuel l :
  (d ≤ fuel)%nat → length l = (2 ^ d)%nat →
  while_loop fuel (λ nodes, bool_decide (1 < length nodes)%nat) next_level l
  = Some [merkle_root d l].
Proof.
  revert fuel l; induction d as [|d IH]; intros fuel l Hf Hl.
  - destruct l as [|x [|y l]]; simpl in Hl; try lia. by destruct fuel.
  - destruct fuel as [|fuel]; [lia|]. cbn [while_loop].
    pose proof (Nat.pow_nonzero 2 d). rewrite bool_decide_eq_true_2 by (rewrite Hl; simpl; lia).
    rewrite merkle_root_next_level by done. apply IH; [lia|].
    rewrite length_next_level, Hl. cbn [Nat.pow]. rewrite Nat.mul_comm. by apply Nat.div_mul.
Qed.

Lemma get_merkle_root_run leaves :
  leaves ≠ [] → Z.of_nat (length leaves) < 2 ^ 62 →
  let d := Nat.log2_up (length leaves) in
  get_merkle_root leaves = Ret (merkle_root d (padded (2 ^ d)%nat leaves)).
Proof.
  intros Hne Hlen d. unfold get_merkle_root. rewrite decide_False by done.
  rewrite extend_leaves by done. cbn [fuelled mbind outcome_bind]. fold d.
  assert (length (padded (2 ^ d)%nat leaves) = (2 ^ d)%nat) as Hp.
  { apply length_padded. apply log2_up_bounds. destruct leaves; simpl; [done|lia]. }
  rewrite (reduce_levels d); [done| |done].
  rewrite Hp. pose proof (Nat.pow_gt_lin_r 2 d). lia.
Qed.

(** On a full level no padding is added. *)
Lemma get_merkle_root_pow d leaves :
  length leaves = (2 ^ d)%nat → Z.of_nat (length leaves) < 2 ^ 62 →
  get_merkle_root leaves = Ret (merkle_root d leaves).
Proof.
  intros Hd Hlen. rewrite get_merkle_root_run; [| |done].
  2: { intros ->. simpl in Hd. pose proof (Nat.pow_nonzero 2 d). lia. }
  rewrite Hd, Nat.log2_up_pow2 by lia. by rewrite padded_full.
Qed.
End MerkleFacts.

(** ** Chains that the node serves *)

(** A chain up to its finalized head: headers, authority set ids and authorities
    by block number. *)
Record chain `{AvailNode} := {
  ch_head : U32;
  header_at : U32 → AvailHeader;
  set_id : U32 → U64;
  authorities_of : U32 → list Bytes32;
}.

Record serves `{AvailNode} (c : chain) : Prop := {
  sv_connected : refresh_ws_connection = Ret ();
  sv_block n : 0 ≤ n ≤ ch_head c → ∃ h,
    chain_get_block_hash n = Some h ∧ chain_get_header h = Some (header_at c n)
    ∧ current_set_id h = Some (set_id c n)
    ∧ grandpa_authorities h = map (λ pk, (pk, 1)) (authorities_of c n);
  sv_head : chain_get_header chain_get_finalized_head = Some (header_at c (ch_head c));
  sv_number n : 0 ≤ n ≤ ch_head c → number (header_at c n) = n;
  sv_range : 0 ≤ ch_head c < 2 ^ 31;
}.

(** GRANDPA's authority set ids: they start at 0 and grow by at most one per
    block. *)
Record epochs `{AvailNode} (c : chain) : Prop := {
  ep_genesis : set_id c 0 = 0;
  ep_step n : 0 ≤ n < ch_head c → set_id c n ≤ set_id c (n + 1) ≤ set_id c n + 1;
}.

(** The block in which the authority set after [target] starts: the last one
    that [target] justifies. *)
Definition last_justified `{AvailNode} (c : chain) (target : U64) (n : U32) : Prop :=
  0 < n ≤ ch_head c ∧ set_id c n = target + 1 ∧ set_id c (n - 1) = target.

Definition epoch_end `{AvailNode} (c : chain) (n : U32) : Prop :=
  last_justified c (set_id c (n - 1)) n.

(** *** Calls *)
Section Served.
Context `{AvailNode} (c : chain) (Hc : serves c).

Lemma get_block_hash_run n :
  0 ≤ n ≤ ch_head c → ∃ h, get_block_hash n = Ret h
    ∧ chain_get_header h = Some (header_at c n) ∧ current_set_id h = Some (set_id c n)
    ∧ grandpa_authorities h = map (λ pk, (pk, 1)) (authorities_of c n).
Proof.
  intros Hn. destruct (sv_block c Hc n Hn) as (h & Hh & ?). exists h.
  unfold get_block_hash. by rewrite Hh.
Qed.

Lemma get_header_run n : 0 ≤ n ≤ ch_head c → get_header n = Ret (header_at c n).
Proof.
  intros (h & Hh & E & _)%get_block_hash_run. unfold get_header. rewrite Hh. cbn. by rewrite E.
Qed.

Lemma get_head_run : get_head = Ret (header_at c (ch_head c)).
Proof. unfold get_head. rewrite (sv_connected c Hc). cbn. by rewrite (sv_head c Hc). Qed.

Lemma get_authority_set_id_run n :
  0 ≤ n ≤ ch_head c → get_authority_set_id n = Ret (set_id c n).
Proof.
  intros (h & Hh & _ & E & _)%get_block_hash_run. unfold get_authority_set_id.
  rewrite (sv_connected c Hc). cbn. rewrite Hh. cbn. by rewrite E.
Qed.

Lemma get_authorities_run n :
  0 ≤ n ≤ ch_head c → get_authorities n = Ret (authorities_of c n).
Proof.
  intros (h & Hh & _ & _ & E)%get_block_hash_run. unfold get_authorities.
  rewrite (sv_connected c Hc). cbn. rewrite Hh. cbn. rewrite E.
  assert (∀ l acc, foldM (λ authorities '(pub_key, weight),
    _ ← assert (bool_decide (weight = 1)) "The weight of the authority is not 1!";
    Ret (authorities ++ [pub_key])) (map (λ pk : Bytes32, (pk, 1)) l) acc = Ret (acc ++ l))
    as Hfold.
  { induction l as [|x l IH]; intros acc; [by rewrite app_nil_r|].
    change (x :: l) with ([x] ++ l). by rewrite app_assoc, <- IH. }
  apply (Hfold _ []).
Qed.

Lemma get_block_headers_range_run a b :
  0 ≤ a → b ≤ ch_head c →
  get_block_headers_range a b = Ret (map (header_at c) (seqZ a (b + 1 - a))).
Proof.
  intros Ha Hb. unfold get_block_headers_range. rewrite (sv_connected c Hc). cbn [unwrap mbind outcome_bind].
  assert (∀ fuel hs a, 0 ≤ a → (Z.to_nat (b + 1 - a) < fuel)%nat →
    loop fuel (headers_batch b) (hs, a) = Ret (hs ++ map (header_at c) (seqZ a (b + 1 - a))))
    as Hloop; [|apply (Hloop _ []); [done|lia]].
  clear a Ha. pose proof (sv_range c Hc). unfold headers_batch, MAX_CONCURRENT_WS_REQUESTS.
  induction fuel as [|fuel IH]; intros hs a Ha Hf; [lia|]. cbn [loop].
  case_decide as Hab.
  2: { cbn. rewrite seqZ_nil by lia. by rewrite app_nil_r. }
  rewrite !checked_add_Ret by lia. cbn [mbind outcome_bind].
  rewrite checked_add_Ret by lia. cbn [mbind outcome_bind].
  set (m := Z.min (a + 200 - 1) b + 1 - a).
  rewrite (traverse_map _ (header_at c)).
  2: { apply Forall_forall. intros n Hn. apply elem_of_seqZ in Hn. apply get_header_run.
       unfold m in Hn. lia. }
  cbn [mbind outcome_bind]. rewrite IH by lia. rewrite <- app_assoc, <- map_app. do 3 f_equal.
  destruct (decide (a + 200 ≤ b)).
  - replace (b + 1 - a) with (m + (b + 1 - (a + 200))) by (unfold m; lia).
    rewrite seqZ_app by (unfold m; lia). do 2 f_equal. unfold m. lia.
  - rewrite (seqZ_nil (a + 200)) by lia. rewrite app_nil_r. f_equal. unfold m. lia.
Qed.
End Served.

(** *** Epochs *)
Section Epochs.
Context `{AvailNode} (c : chain) (Hc : serves c) (He : epochs c).

Lemma set_id_mono m n : 0 ≤ m ≤ n → n ≤ ch_head c → set_id c m ≤ set_id c n.
Proof.
  intros Hm Hn. replace n with (m + Z.of_nat (Z.to_nat (n - m))) in * by lia.
  induction (Z.to_nat (n - m)) as [|k IH]; [by rewrite Z.add_0_r|].
  etrans; [apply IH; lia|].
  replace (m + Z.of_nat (S k)) with (m + Z.of_nat k + 1) by lia. apply (ep_step c He). lia.
Qed.

Lemma set_id_nonneg n : 0 ≤ n ≤ ch_head c → 0 ≤ set_id c n.
Proof. intros. rewrite <- (ep_genesis c He). apply set_id_mono; lia. Qed.

(** Set ids grow no faster than block numbers. *)
Lemma set_id_bound n : 0 ≤ n ≤ ch_head c → set_id c n ≤ n.
Proof.
  intros Hn. replace n with (Z.of_nat (Z.to_nat n)) in * by lia.
  induction (Z.to_nat n) as [|k IH].
  { change (Z.of_nat 0) with 0. rewrite (ep_genesis c He). lia. }
  replace (Z.of_nat (S k)) with (Z.of_nat k + 1) in * by lia.
  pose proof (ep_step c He (Z.of_nat k)). lia.
Qed.

(** A set id between those of two blocks is crossed in between. *)
Lemma set_id_crossing target n :
  0 ≤ target → 0 ≤ n ≤ ch_head c → target < set_id c n →
  ∃ p, last_justified c target p ∧ p ≤ n.
Proof.
  intros Ht Hn. replace n with (Z.of_nat (Z.to_nat n)) in * by lia.
  induction (Z.to_nat n) as [|k IH]; intros Hlt.
  { change (Z.of_nat 0) with 0 in Hlt. rewrite (ep_genesis c He) in Hlt. lia. }
  replace (Z.of_nat (S k)) with (Z.of_nat k + 1) in * by lia.
  destruct (decide (target < set_id c (Z.of_nat k))) as [|Hle].
  - destruct IH as (p & Hp & ?); [lia|done|]. exists p. split; [done|lia].
  - exists (Z.of_nat k + 1). pose proof (ep_step c He (Z.of_nat k)).
    split; [|lia]. unfold last_justified.
    replace (Z.of_nat k + 1 - 1) with (Z.of_nat k) by lia. lia.
Qed.

(** Where a probe lands relative to the block searched for. *)
Lemma last_justified_order target p m :
  last_justified c target p → 0 ≤ m ≤ ch_head c →
  (set_id c m ≤ target ↔ m < p) ∧ (target < set_id c m ↔ p ≤ m).
Proof.
  intros (Hp & E1 & E2) Hm.
  destruct (decide (p ≤ m)).
  - pose proof (set_id_mono p m). lia.
  - pose proof (set_id_mono m (p - 1)). lia.
Qed.

Lemma last_justified_unique target p q :
  last_justified c target p → last_justified c target q → p = q.
Proof.
  intros Hp Hq. pose proof (last_justified_order target p q Hp) as H1.
  pose proof (last_justified_order target q p Hq) as H2.
  destruct Hp as (? & ? & ?), Hq as (? & ? & ?). lia.
Qed.

Definition search_variant (s : U32 * U32) : nat :=
  let '(low, high) := s in Z.to_nat (Z.log2 (2 * (high - low + 1))).

(** Halving a non-empty interval decreases the variant. *)
Lemma search_variant_lt low high low' high' :
  low ≤ high → low' ≤ high' + 1 → 2 * (high' - low' + 1) ≤ high - low + 1 →
  (search_variant (low', high') < search_variant (low, high))%nat.
Proof.
  intros H1 H2 H3. unfold search_variant.
  rewrite (Z.log2_double (high - low + 1)) by lia.
  pose proof (Z.log2_le_mono _ _ H3). pose proof (Z.log2_nonneg (2 * (high' - low' + 1))). lia.
Qed.

(** The block searched for stays in the interval, or every set id is at most the
    target and the upper end has not moved. *)
Definition search_inv (target : U64) (s : U32 * U32) : Prop :=
  let '(low, high) := s in
  0 ≤ low ≤ high + 1 ∧ high ≤ ch_head c ∧
  if decide (target < set_id c (ch_head c))
  then ∃ p, last_justified c target p ∧ low ≤ p ≤ high
  else high = ch_head c.

Definition search_result (target : U64) (n : U32) : Prop :=
  if decide (target < set_id c (ch_head c)) then last_justified c target n else n = 0.

Lemma search_step_run target s :
  0 ≤ target → target + 1 < 2 ^ 64 → search_inv target s →
  (∃ s', search_step target s = Ret (inl s') ∧ search_inv target s'
         ∧ (search_variant s' < search_variant s)%nat)
  ∨ ∃ n, search_step target s = Ret (inr n) ∧ search_result target n.
Proof.
  intros Ht0 Ht64 Hinv. destruct s as [low high]. destruct Hinv as (Hlow & Hhigh & Hcase).
  pose proof (sv_range c Hc) as Hr. unfold search_step, search_result, search_inv.
  assert (∀ m, 0 ≤ m ≤ ch_head c → set_id c m ≤ set_id c (ch_head c)) as Hmono
    by (intros; apply set_id_mono; lia).
  destruct (decide (low ≤ high)) as [Hle|].
  2: { right. exists 0. split; [done|]. destruct (decide (target < _)); [|done].
       destruct Hcase as (p & _ & ?). lia. }
  rewrite (checked_add_Ret 32 low high) by lia. cbn [mbind outcome_bind].
  set (mid := (low + high) / 2). assert (low ≤ mid ≤ high) as Hmid by (unfold mid; zarith).
  assert (2 * (mid - low) ≤ high - low) as Hl by (unfold mid; zarith).
  assert (2 * (high - mid) ≤ high - low + 1) as Hh by (unfold mid; zarith).
  clearbody mid. specialize (Hmono mid ltac:(lia)).
  rewrite (get_authority_set_id_run c Hc mid) by lia. cbn [mbind outcome_bind].
  rewrite (checked_add_Ret 64 target 1) by lia. cbn [mbind outcome_bind].
  destruct (decide (target < set_id c (ch_head c))) as [Hlt|Hge].
  - destruct Hcase as (p & Hp & Hpi).
    destruct (last_justified_order target p mid Hp) as [Ho1 Ho2]; [lia|].
    assert (0 < p ∧ set_id c p = target + 1 ∧ set_id c (p - 1) = target) as (Hp0 & Hp1 & Hp2)
      by (destruct Hp; lia).
    destruct (set_id c mid ?= target + 1) eqn:Ecmp.
    + apply Z.compare_eq in Ecmp. rewrite (decide_False (P := mid = 0)) by lia.
      rewrite (checked_sub_Ret mid 1) by lia. cbn [mbind outcome_bind].
      rewrite (get_authority_set_id_run c Hc (mid - 1)) by lia. cbn [mbind outcome_bind].
      destruct (decide (set_id c (mid - 1) = target)) as [Eprev|Eprev].
      * right. exists mid. split; [done|]. split; [lia|done].
      * left. exists (low, mid - 1). split; [done|].
        assert (p ≠ mid) by (intros ->; done).
        split; [|apply search_variant_lt; lia]. split; [lia|]. split; [lia|].
        exists p. split; [done|lia].
    + rewrite Z.compare_lt_iff in Ecmp.
      rewrite (checked_add_Ret 32 mid 1) by lia. cbn [mbind outcome_bind].
      left. exists (mid + 1, high). split; [done|].
      split; [|apply search_variant_lt; lia]. split; [lia|]. split; [lia|].
      exists p. split; [done|lia].
    + rewrite Z.compare_gt_iff in Ecmp. assert (p ≠ mid) by (intros ->; lia).
      rewrite (checked_sub_Ret mid 1) by lia. cbn [mbind outcome_bind].
      left. exists (low, mid - 1). split; [done|].
      split; [|apply search_variant_lt; lia]. split; [lia|]. split; [lia|].
      exists p. split; [done|lia].
  - rewrite (proj2 (Z.compare_lt_iff (set_id c mid) (target + 1))) by lia.
    rewrite (checked_add_Ret 32 mid 1) by lia. cbn [mbind outcome_bind].
    left. exists (mid + 1, high). split; [done|].
    split; [|apply search_variant_lt; lia]. split; [lia|]. split; [lia|done].
Qed.

Lemma last_justified_block_run target :
  0 ≤ target → target + 1 < 2 ^ 64 →
  ∃ n, last_justified_block target = Ret n ∧ search_result target n.
Proof.
  intros Ht0 Ht64. unfold last_justified_block.
  rewrite (sv_connected c Hc), (get_head_run c Hc). cbn [unwrap mbind outcome_bind].
  pose proof (sv_range c Hc) as Hr. rewrite (sv_number c Hc) by lia.
  apply (loop_total (search_inv target) _ search_variant).
  - split; [lia|]. split; [lia|]. case_decide as Hlt; [|done].
    destruct (set_id_crossing target (ch_head c)) as (p & Hp & ?); [lia|lia|done|].
    exists p. split; [done|]. destruct Hp. lia.
  - unfold search_variant, SEARCH_FUEL. pose proof (Z.log2_le_mono (2 * (ch_head c - 0 + 1)) (2 ^ 33)).
    rewrite Z.log2_pow2 in * by lia. lia.
  - intros s Hs. by apply search_step_run.
Qed.
(** The search finds the last justified block of a set that has ended. *)
Lemma last_justified_block_found target n :
  last_justified c target n → 0 ≤ target → target + 1 < 2 ^ 64 →
  last_justified_block target = Ret n.
Proof.
  intros Hlast Ht0 Ht64. destruct (last_justified_block_run target) as (m & Hm & Hres); [done..|].
  rewrite Hm. f_equal. destruct Hlast as (Hn & E1 & E2) eqn:E. clear E.
  unfold search_result in Hres. pose proof (set_id_mono n (ch_head c)).
  rewrite decide_True in Hres by lia. by apply (last_justified_unique target).
Qed.
End Epochs.

(** *** Justified blocks of a range *)
Section Ranges.
Context `{AvailNode} (c : chain) (Hc : serves c) (He : epochs c).

(** The blocks [l] are the epoch ends from [a] to before [b], in order. *)
Definition epoch_ends_between (a b : U32) (l : list U32) : Prop :=
  NoDup l ∧ ∀ n, n ∈ l ↔ a ≤ n < b ∧ epoch_end c n.

(** Between two blocks of one set id there is no epoch end. *)
Lemma no_epoch_end m n k :
  0 ≤ m → set_id c m = set_id c n → n ≤ ch_head c → m < k ≤ n → ¬ epoch_end c k.
Proof.
  intros Hm E Hn Hk (Hk0 & E1 & _).
  pose proof (set_id_mono c He m (k - 1)). pose proof (set_id_mono c He k n). lia.
Qed.

Lemma epoch_ends_extend a b e l :
  0 < a ≤ b → epoch_ends_between a b l → last_justified c (set_id c (b - 1)) e → b ≤ e →
  epoch_ends_between a (e + 1) (l ++ [e]).
Proof.
  intros Hab [Hnd Hl] He1 Hbe. split.
  - apply NoDup_app. split_and!; [done| |apply NoDup_singleton].
    intros n Hn ->%list_elem_of_singleton. apply Hl in Hn. lia.
  - intros n. rewrite elem_of_app, list_elem_of_singleton, Hl.
    assert (epoch_end c e) as Hee.
    { unfold epoch_end. destruct He1 as (? & ? & E). by rewrite E. }
    split; [intros [[? ?]| ->]; (split; [lia|done])|].
    intros [Hn Hen]. destruct (decide (n < b)); [left; split; [lia|done]|].
    destruct (decide (n = e)); [by right|exfalso]. destruct He1 as (? & ? & E).
    apply (no_epoch_end (b - 1) (e - 1) n); try lia; done.
Qed.

(** No epoch end follows when the search finds none, or one past the end. *)
Lemma epoch_ends_stop a b stop l :
  0 < a ≤ b → b - 1 ≤ ch_head c → epoch_ends_between a b l →
  (∀ e, last_justified c (set_id c (b - 1)) e → stop < e) → b ≤ stop + 1 →
  epoch_ends_between a (stop + 1) l.
Proof.
  intros Hab Hb [Hnd Hl] Hstop Hle. split; [done|]. intros n. rewrite Hl.
  split; intros [Hn Hen]; (split; [lia|done]) || (split; [|done]).
  destruct (decide (n < b)); [lia|exfalso].
  destruct (decide (set_id c (n - 1) = set_id c (b - 1))) as [E|E].
  - unfold epoch_end in Hen. rewrite E in Hen. apply Hstop in Hen. lia.
  - pose proof Hen as (Hn0 & _ & _). pose proof (set_id_mono c He (b - 1) (n - 1)).
    pose proof (set_id_nonneg c He (b - 1)).
    destruct (set_id_crossing c He (set_id c (b - 1)) (n - 1)) as (e & He1 & ?); [lia..|].
    apply Hstop in He1. lia.
Qed.

Definition era_inv (start stop : U32) (s : U32 * U64 * list U32) : Prop :=
  let '(curr, era, l) := s in
  ∃ b, start ≤ b ∧ b - 1 ≤ ch_head c ∧ era = set_id c (b - 1)
    ∧ epoch_ends_between start b l
    ∧ (curr = b ∧ l = [] ∧ curr < stop ∨ curr = b - 1 ∧ l ≠ [] ∧ curr ≤ stop).

Definition era_variant (stop : U32) (s : U32 * U64 * list U32) : nat :=
  let '(curr, _, l) := s in
  Z.to_nat (stop + 1 - curr - match l with [] => 0 | _ => 1 end).

Lemma era_step_run start stop s :
  0 < start → set_id c (ch_head c) + 1 < 2 ^ 64 → era_inv start stop s →
  (∃ s', era_step stop s = Ret (inl s') ∧ era_inv start stop s'
         ∧ (era_variant stop s' < era_variant stop s)%nat)
  ∨ ∃ l, era_step stop s = Ret (inr l) ∧ epoch_ends_between start (stop + 1) l.
Proof.
  intros Hs0 Hmax Hinv. destruct s as [[curr era] l].
  destruct Hinv as (b & Hsb & Hb & -> & Hl & Hcurr). unfold era_step.
  destruct (decide (curr < stop)) as [Hlt|].
  2: { right. exists l. split; [done|]. replace (stop + 1) with b by lia. done. }
  pose proof (set_id_nonneg c He (b - 1)). pose proof (set_id_mono c He (b - 1) (ch_head c)).
  destruct (last_justified_block_run c Hc He (set_id c (b - 1))) as (e & -> & Hres); [lia..|].
  cbn [mbind outcome_bind]. unfold search_result in Hres.
  destruct (decide (set_id c (b - 1) < set_id c (ch_head c))) as [Hid|Hid].
  - assert (0 < e) by apply Hres. rewrite (decide_False (P := e = 0)) by lia.
    assert (b ≤ e) as Hbe.
    { destruct (last_justified_order c He _ e (b - 1) Hres); lia. }
    destruct (decide (e ≤ stop)).
    + rewrite checked_add_Ret by lia. cbn [mbind outcome_bind]. left.
      eexists. split; [done|]. split.
      * exists (e + 1). destruct Hres as (? & Hid' & ?).
        split_and!; [lia|lia| | |].
        -- rewrite <- Hid'. f_equal. lia.
        -- apply (epoch_ends_extend start b); (done || lia).
        -- right. split_and!; [lia|by destruct l|lia].
      * unfold era_variant. destruct l; cbn [app]; destruct Hcurr as [(? & ? & ?)|(? & ? & ?)]; try done; lia.
    + right. exists l. split; [done|]. apply (epoch_ends_stop _ b); [lia|done|done| |lia].
      intros e' He'. rewrite (last_justified_unique c He _ _ _ He' Hres). lia.
  - rewrite (decide_True (P := e = 0)) by done. right. exists l. split; [done|].
    apply (epoch_ends_stop _ b); [lia|done|done| |lia].
    intros e' (? & ? & _). pose proof (set_id_mono c He e' (ch_head c)). lia.
Qed.

Lemma era_loop_run start stop :
  0 < start < stop → start - 1 ≤ ch_head c → set_id c (ch_head c) + 1 < 2 ^ 64 →
  ∃ l, loop (S (S (Z.to_nat (stop - start)))) (era_step stop) (start, set_id c (start - 1), [])
       = Ret l ∧ epoch_ends_between start (stop + 1) l.
Proof.
  intros Hs Hh Hmax. apply (loop_total (era_inv start stop) _ (era_variant stop)).
  - exists start. split_and!; [lia|done|done| |left; split_and!; (done || lia)].
    split; [apply NoDup_nil_2|]. intros n. rewrite elem_of_nil. split; [done|lia].
  - cbn. lia.
  - intros s. apply era_step_run; [lia|done].
Qed.
End Ranges.

(** ** Properties *)

(** [get_merkle_root] terminates and returns the root of the binary SHA-256
    tree over the leaves, padded with empty leaves to the next power of two; no
    leaves give the empty root. *)
Theorem get_merkle_root_spec `{Hashing} leaves :
  Z.of_nat (length leaves) < 2 ^ 62 →
  get_merkle_root leaves =
    if decide (leaves = []) then Ret [] else
    let d := Nat.log2_up (length leaves) in
    Ret (merkle_root d (padded (2 ^ d)%nat leaves)).
Proof.
  intros Hlen. case_decide as E; [by rewrite E|]. by apply get_merkle_root_run.
Qed.

Section Properties.
Context `{AvailNode} (c : chain) (Hc : serves c).

(** The headers of a range are fetched in batches, but come back as one list:
    the header of every block of the range, once, in order. *)
Theorem get_block_headers_range_spec a b :
  0 ≤ a → b ≤ ch_head c →
  get_block_headers_range a b = Ret (map (header_at c) (seqZ a (b + 1 - a))).
Proof. by apply get_block_headers_range_run. Qed.

Lemma get_merkle_root_commitments_run `{Hashing} d start stop :
  (d < 31)%nat → 0 ≤ start ≤ stop → stop ≤ ch_head c → stop - start ≤ 2 ^ Z.of_nat d →
  let headers := map (header_at c) (seqZ (start + 1) (stop - start)) in
  get_merkle_root_commitments (2 ^ Z.of_nat d) start stop
  = Ret (merkle_root d (padded (2 ^ d)%nat (map av_state_root headers)),
         merkle_root d (padded (2 ^ d)%nat (map av_data_root headers))).
Proof.
  intros Hd Hs Hh Hfit headers. pose proof (sv_range c Hc). unfold get_merkle_root_commitments.
  assert (2 ^ Z.of_nat d = Z.of_nat (2 ^ d)) as Epow by by rewrite Nat2Z.inj_pow.
  assert (Z.of_nat (2 ^ d) < 2 ^ 31) as Hpow
    by (rewrite <- Epow; apply Z.pow_lt_mono_r; lia).
  rewrite Epow in *. rewrite Nat2Z.id.
  rewrite (bool_decide_eq_true_2 (count_ones _ = _)) by (apply count_ones_spec; [lia|by exists d]).
  cbn [assert mbind outcome_bind]. rewrite checked_sub_Ret by lia. cbn [mbind outcome_bind].
  rewrite bool_decide_eq_true_2 by lia. cbn [assert mbind outcome_bind].
  rewrite checked_add_Ret by lia. cbn [mbind outcome_bind].
  rewrite (get_block_headers_range_run c Hc) by lia. cbn [mbind outcome_bind].
  replace (stop + 1 - (start + 1)) with (stop - start) by lia. fold headers.
  assert (length headers = Z.to_nat (stop - start)) as Hlen
    by (unfold headers; by rewrite length_map, length_seqZ).
  assert (∀ f : AvailHeader → Bytes32,
    map f headers ++ replicate (2 ^ d - length headers) zero32 = padded (2 ^ d)%nat (map f headers)) as Hpad
    by (intros f; unfold padded; by rewrite length_map).
  rewrite !Hpad. rewrite !(get_merkle_root_pow d) by
    (rewrite ?length_padded; rewrite ?length_map; lia).
  done.
Qed.

(** The commitments of a range are the Merkle roots of the state and data
    roots of its headers, from the block after the start to the end, padded with
    empty leaves to the size of the tree. *)
Theorem get_merkle_root_commitments_spec `{Hashing} d start stop :
  (d < 31)%nat → 0 ≤ start ≤ stop → stop ≤ ch_head c → stop - start ≤ 2 ^ Z.of_nat d →
  let headers := map (header_at c) (seqZ (start + 1) (stop - start)) in
  get_merkle_root_commitments (2 ^ Z.of_nat d) start stop
  = Ret (merkle_root d (padded (2 ^ d)%nat (map av_state_root headers)),
         merkle_root d (padded (2 ^ d)%nat (map av_data_root headers))).
Proof. apply get_merkle_root_commitments_run. Qed.

(** C22: the binary search terminates without overflow and returns the block in
    which the next authority set starts, or 0 when the target set has not ended by
    the finalized head. *)
Theorem last_justified_block_spec target :
  epochs c → 0 ≤ target → target + 1 < 2 ^ 64 →
  ∃ n, last_justified_block target = Ret n
    ∧ (target < set_id c (ch_head c) → last_justified c target n)
    ∧ (set_id c (ch_head c) ≤ target → n = 0).
Proof.
  intros He H0 H64. destruct (last_justified_block_run c Hc He target H0 H64) as (n & Hn & Hres).
  exists n. split; [done|]. unfold search_result in Hres.
  destruct (decide (target < set_id c (ch_head c))); split; intros; (done || lia).
Qed.

(** The search of a range merges two lists. *)
Lemma find_justifications_run `{RedisServer} id start stop s redis_blocks :
  epochs c → 0 < start < stop → start - 1 ≤ ch_head c → set_id c (ch_head c) + 1 < 2 ^ 64 →
  get_blocks_in_range id start stop s = Ret redis_blocks →
  ∃ l ends, find_justifications_in_range id start stop s = Ret l
    ∧ Sorted Z.le l ∧ l ≡ₚ redis_blocks ++ ends ∧ NoDup ends
    ∧ ∀ n, n ∈ ends ↔ start ≤ n ≤ stop ∧ epoch_end c n.
Proof.
  intros He Hs Hh Hmax Hredis. unfold find_justifications_in_range.
  rewrite (sv_connected c Hc). cbn [unwrap mbind outcome_bind]. rewrite Hredis. cbn [mbind outcome_bind].
  rewrite checked_sub_Ret by lia. cbn [mbind outcome_bind].
  rewrite (get_authority_set_id_run c Hc) by lia. cbn [mbind outcome_bind].
  destruct (era_loop_run c Hc He start stop Hs Hh Hmax) as (ends & -> & Hnd & Hends).
  cbn [mbind outcome_bind]. eexists _, ends. split; [done|]. split_and!.
  - apply Sorted_merge_sort. apply _.
  - apply merge_sort_Permutation.
  - done.
  - intros n. rewrite Hends. f_equiv. lia.
Qed.

(** C31: the justified blocks of a range of at least two blocks, [start < stop], are,
    sorted, the blocks that Redis lists and the epoch ends of the range, both ends
    included.  A range of one block is [find_justifications_single_block]. *)
Theorem find_justifications_spec `{RedisServer} id start stop s redis_blocks :
  epochs c → 0 < start < stop → start - 1 ≤ ch_head c → set_id c (ch_head c) + 1 < 2 ^ 64 →
  get_blocks_in_range id start stop s = Ret redis_blocks →
  ∃ l ends, find_justifications_in_range id start stop s = Ret l
    ∧ Sorted Z.le l ∧ l ≡ₚ redis_blocks ++ ends ∧ NoDup ends
    ∧ ∀ n, n ∈ ends ↔ start ≤ n ≤ stop ∧ epoch_end c n.
Proof. apply find_justifications_run. Qed.

(** In a range of one block the loop over the epochs does not run, so the
    block is missed when it is an epoch end that Redis does not list. *)
Theorem find_justifications_single_block `{RedisServer} id block s redis_blocks :
  0 < block → block - 1 ≤ ch_head c →
  get_blocks_in_range id block block s = Ret redis_blocks →
  find_justifications_in_range id block block s = Ret (merge_sort Z.le redis_blocks).
Proof.
  intros Hs Hh Hredis. unfold find_justifications_in_range.
  rewrite (sv_connected c Hc). cbn [unwrap mbind outcome_bind]. rewrite Hredis. cbn [mbind outcome_bind].
  rewrite checked_sub_Ret by lia. cbn [mbind outcome_bind].
  rewrite (get_authority_set_id_run c Hc) by lia. cbn [mbind outcome_bind].
  cbn [loop era_step]. rewrite decide_False by lia. cbn. by rewrite app_nil_r.
Qed.
End Properties.

(** ** A concrete node, for the witnesses *)
Module RefNode.
Import Ref.

Record header := {
  h_parent : Bytes32;
  h_number : U32;
  h_state_root : Bytes32;
  h_extrinsics_root : Bytes32;
  h_logs : list DigestItem;
  h_extension : bytes;
  h_data_root : Bytes32;
}.

Definition log_bytes (l : DigestItem) : bytes :=
  match l with
  | Consensus engine value =>
      4 :: engine ++ Scale.compact_encode (Z.of_nat (length value)) ++ value
  | OtherItem encoded => encoded
  end.

Definition header_encode (h : header) : bytes :=
  h_parent h ++ Scale.compact_encode (h_number h) ++ h_state_root h ++ h_extrinsics_root h
  ++ Scale.compact_encode (Z.of_nat (length (h_logs h))) ++ concat (map log_bytes (h_logs h))
  ++ h_extension h ++ h_data_root h.

Definition header_hash (h : header) : Bytes32 := blake2_256 (header_encode h).

(** A block: its header, and the set id and authorities in its state. *)
Record block_data := { bd_header : header; bd_id : U64; bd_authorities : list Bytes32 }.

#[export] Instance header_inhabited : Inhabited header := populate
  {| h_parent := []; h_number := 0; h_state_root := []; h_extrinsics_root := [];
     h_logs := []; h_extension := []; h_data_root := [] |}.
#[export] Instance block_data_inhabited : Inhabited block_data :=
  populate {| bd_header := inhabitant; bd_id := 0; bd_authorities := [] |}.

Section Node.
Context (blocks : list block_data) (proofs : U32 → option (GrandpaJustification header)).

Definition find_block (h : Bytes32) : option block_data :=
  snd <$> list_find (λ b, header_hash (bd_header b) = h) blocks.

(** A finality proof without unknown headers. *)
Definition encode_proof (j : GrandpaJustification header) : bytes :=
  encode_finality_proof header_encode
    {| fp_block := cm_target_hash (gj_commit j);
       fp_justification := encode_justification header_encode j; fp_unknown_headers := [] |}.

#[local] Instance node : AvailNode := {
  AvailHeader := header;
  number := h_number;
  av_parent_hash := h_parent;
  av_state_root := h_state_root;
  av_data_root := h_data_root;
  digest_logs := h_logs;
  encode := header_encode;
  hash := header_hash;
  encode_log := log_bytes;
  encode_compact := Scale.compact_encode;
  system_health i := bool_decide (i = 2%nat);
  new_client i := false;
  chain_get_block_hash n :=
    if decide (0 ≤ n) then (λ b, header_hash (bd_header b)) <$> blocks !! Z.to_nat n else None;
  chain_get_header h := bd_header <$> find_block h;
  chain_get_finalized_head := header_hash (bd_header (blocks !!! (length blocks - 1)%nat));
  current_set_id h := bd_id <$> find_block h;
  grandpa_authorities h :=
    from_option (λ b, map (λ pk, (pk, 1)) (bd_authorities b)) [] (find_block h);
  request_finality_proof n := encode_proof <$> proofs n;
  decode_avail_header _ := None;
}.

Definition ref_chain : chain := {|
  ch_head := Z.of_nat (length blocks) - 1;
  header_at n := bd_header (blocks !!! Z.to_nat n) : AvailHeader;
  set_id n := bd_id (blocks !!! Z.to_nat n);
  authorities_of n := bd_authorities (blocks !!! Z.to_nat n) |}.

Lemma find_block_at i b :
  NoDup (map (λ b, header_hash (bd_header b)) blocks) → blocks !! i = Some b →
  find_block (header_hash (bd_header b)) = Some b.
Proof.
  intros Hnd Hi. unfold find_block.
  destruct (list_find_elem_of (λ b', header_hash (bd_header b') = header_hash (bd_header b)) blocks b)
    as [[j b'] Hj]; [by eapply list_elem_of_lookup_2|done|].
  rewrite Hj. cbn. f_equal. apply list_find_Some in Hj as (Hj & Eh & _).
  assert (j = i) as ->.
  { eapply (NoDup_lookup _ _ _ (header_hash (bd_header b)) Hnd).
    - change (map ?f) with (fmap (M:=list) f). rewrite list_lookup_fmap, Hj. by apply (f_equal Some) in Eh.
    - change (map ?f) with (fmap (M:=list) f). by rewrite list_lookup_fmap, Hi. }
  by simplify_eq.
Qed.

Lemma ref_number_u32 :
  Forall (λ b, is_u32 (h_number (bd_header b))) blocks →
  ∀ h hd, chain_get_header h = Some hd → is_u32 (number hd).
Proof.
  intros Hu h hd Hh. change (bd_header <$> find_block h = Some hd) in Hh.
  apply fmap_Some in Hh as (b & Hb & ->). unfold find_block in Hb.
  apply fmap_Some in Hb as ([i b'] & Hi & ->). apply list_find_Some in Hi as (Hi & _ & _).
  rewrite Forall_lookup in Hu. by eapply Hu.
Qed.

Lemma ref_serves :
  (0 < length blocks < 1000)%nat →
  NoDup (map (λ b, header_hash (bd_header b)) blocks) →
  Forall (λ i, h_number (bd_header (blocks !!! i)) = Z.of_nat i) (seq 0 (length blocks)) →
  serves ref_chain.
Proof.
  intros Hlen Hnd Hnum.
  assert (∀ n, 0 ≤ n ≤ ch_head ref_chain → blocks !! Z.to_nat n = Some (blocks !!! Z.to_nat n)) as Hat.
  { intros n Hn. cbn in Hn. apply list_lookup_lookup_total_lt. lia. }
  split.
  - done.
  - intros n Hn. cbn [chain_get_block_hash node]. rewrite decide_True by lia. rewrite (Hat n Hn).
    eexists. split; [done|]. cbn [chain_get_header current_set_id grandpa_authorities node].
    rewrite (find_block_at (Z.to_nat n)) by auto. done.
  - cbn [chain_get_header chain_get_finalized_head node]. rewrite (find_block_at (length blocks - 1)); [|done|].
    + cbn. do 3 f_equal. lia.
    + apply list_lookup_lookup_total_lt. lia.
  - intros n Hn. cbn in Hn. cbn. rewrite Forall_lookup in Hnum.
    rewrite (Hnum (Z.to_nat n) (Z.to_nat n)) by (apply lookup_seq; lia). lia.
  - cbn. lia.
Qed.

Lemma ref_epochs :
  bd_id (blocks !!! 0%nat) = 0 →
  Forall (λ i, bd_id (blocks !!! i) ≤ bd_id (blocks !!! S i) ≤ bd_id (blocks !!! i) + 1)
    (seq 0 (length blocks - 1)) →
  epochs ref_chain.
Proof.
  intros H0 Hstep. split; [done|]. intros n Hn. cbn in *.
  rewrite Forall_lookup in Hstep. replace (Z.to_nat (n + 1)) with (S (Z.to_nat n)) by lia.
  apply (Hstep (Z.to_nat n) (Z.to_nat n)). apply lookup_seq. lia.
Qed.
End Node.

(** A chain of plain headers: the parent of each is the hash of the one before. *)
Fixpoint build (parent : Bytes32) (n : U32) (l : list (U64 * list Bytes32 * list DigestItem))
    : list block_data :=
  match l with
  | [] => []
  | (id, auths, logs) :: l' =>
      let h := {| h_parent := parent; h_number := n; h_state_root := replicate 32 (n mod 7);
                  h_extrinsics_root := replicate 32 1; h_logs := logs; h_extension := [];
                  h_data_root := replicate 32 (n mod 5) |} in
      {| bd_header := h; bd_id := id; bd_authorities := auths |}
      :: build (header_hash h) (n + 1) l'
  end.
End RefNode.

(** ** Witnesses *)
Import Ref RefNode RefRedis.

(** Twelve blocks in which set 0 ends at block 4 and set 1 at block 9. *)
Definition blocks12 : list block_data :=
  build zero32 0 (map (λ id, (id, [zero32], [])) [0; 0; 0; 0; 1; 1; 1; 1; 1; 2; 2; 2]).
#[local] Instance node12 : AvailNode := node blocks12 (λ _, None).
Definition chain12 : chain := ref_chain blocks12 (λ _, None).

Lemma chain12_serves : serves chain12.
Proof. apply ref_serves; [|by_decide|by_decide]. change (length blocks12) with 12%nat. lia. Qed.

Lemma chain12_epochs : epochs chain12.
Proof. apply ref_epochs; [done|by_decide]. Qed.

Definition leaves5 : list Bytes32 := map (λ i, replicate 32 (Z.of_nat i)) (seq 1 5).

Lemma get_merkle_root_spec_witness :
  get_merkle_root leaves5 = Ret (merkle_root 3 (leaves5 ++ replicate 3 zero32))
  ∧ get_merkle_root [] = Ret [].
Proof. split; (rewrite get_merkle_root_spec; [vm_compute; reflexivity|done]). Defined.

Lemma get_block_headers_range_spec_witness :
  get_block_headers_range 3 5
  = Ret (map (λ i, bd_header (blocks12 !!! i) : AvailHeader) [3; 4; 5]%nat).
Proof.
  rewrite (get_block_headers_range_spec chain12 chain12_serves) by (vm_compute; done).
  vm_compute. reflexivity.
Defined.

Lemma get_merkle_root_commitments_spec_witness :
  get_merkle_root_commitments 8 3 9
  = Ret (merkle_root 3 (padded 8 (map (λ i, replicate 32 (i mod 7)) [4; 5; 6; 7; 8; 9])),
         merkle_root 3 (padded 8 (map (λ i, replicate 32 (i mod 5)) [4; 5; 6; 7; 8; 9]))).
Proof.
  etransitivity.
  - apply (get_merkle_root_commitments_spec chain12 chain12_serves 3); by_decide || lia.
  - vm_compute. reflexivity.
Defined.

Lemma last_justified_block_spec_witness :
  (∃ n, last_justified_block 1 = Ret n
    ∧ (1 < set_id chain12 (ch_head chain12) → last_justified chain12 1 n)
    ∧ (set_id chain12 (ch_head chain12) ≤ 1 → n = 0))
  ∧ last_justified_block 1 = Ret 9 ∧ last_justified_block 2 = Ret 0.
Proof.
  split; [|by vm_compute].
  apply (last_justified_block_spec chain12 chain12_serves); [apply chain12_epochs|lia|lia].
Defined.

(** Redis lists blocks 6 and 9; block 9 is an epoch end as well. *)
Definition store69 : store := {|
  documents := ∅; keys := ∅;
  zsets := {[ "avail:justification:blocks" := <["9" := 9]> {[ "6" := 6 ]} ]} |}.

Lemma find_justifications_spec_witness :
  (∃ l ends, find_justifications_in_range "avail" 2 10 store69 = Ret l
    ∧ Sorted Z.le l ∧ l ≡ₚ [6; 9] ++ ends ∧ NoDup ends
    ∧ ∀ n, n ∈ ends ↔ 2 ≤ n ≤ 10 ∧ epoch_end chain12 n)
  ∧ find_justifications_in_range "avail" 2 10 store69 = Ret [4; 6; 9; 9].
Proof.
  split; [|by vm_compute].
  apply (find_justifications_spec chain12 chain12_serves);
    [apply chain12_epochs|lia|vm_compute; done|vm_compute; done|vm_compute; reflexivity].
Defined.

Lemma find_justifications_single_block_witness :
  find_justifications_in_range "avail" 4 4 store69 = Ret (merge_sort Z.le [])
  ∧ epoch_end chain12 4.
Proof.
  split; [|by_decide].
  apply (find_justifications_single_block chain12 chain12_serves);
    [lia|vm_compute; done|vm_compute; reflexivity].
Defined.
