(* ===== verification/Hints.v ===== *)
(** * The hints of the circuits

    The data that the circuits are given: justifications and rotations
    ([get_justification_data], [get_justification_from_block] and
    [get_header_rotate] of circuits/input/mod.rs), and the three hints that
    deliver it, [HintSimpleJustification] (circuits/builder/justification.rs),
    [HeaderRangeFetcherHint] (circuits/builder/subchain_verification.rs) and
    [RotateHint] (circuits/rotate.rs). *)

From stdpp Require Import gmap.
From S2P Require Import Prelude Consts Vars Builder Reference Decoder Offchain Justification.
From S2P Require Import Rotate Subchain Types Redis Fetcher.

(** The padding that plonky2x defines for unused slots. *)
Class DummyValues := {
  DUMMY_PUBLIC_KEY : Bytes32;
  DUMMY_SIGNATURE : bytes;
}.

Abbreviation slot := (bool * Bytes32 * bytes)%type (only parsing).

(** ** Justifications *)
Section Justifications.
Context `{Hashing, DummyValues, AvailNode, RedisServer} (avail_chain_id : string).

(** [CompressedEdwardsY::from_slice(..).unwrap()]. *)
Definition key_from_slice (bs : bytes) : outcome Bytes32 :=
  if decide (length bs = 32%nat) then Ret bs
  else Panic "called `Result::unwrap()` on an `Err` value".

(** Verifies the votes of a justification and maps each voter to its signature. *)
Definition collect_signatures (signed_message : bytes) (precommits : list SignedPrecommit)
    : outcome (gmap Bytes32 bytes) :=
  foldM (λ signatures precommit,
      _ ← verify_signature (sp_id precommit) signed_message (sp_signature precommit);
      Ret (<[sp_id precommit := sp_signature precommit]> signatures))
    precommits ∅.

(** The slot of one authority: whether it signed, its key, its signature. *)
Definition authority_slot (pubkey_bytes_to_signature : gmap Bytes32 bytes) (pubkey_bytes : Bytes32)
    : slot :=
  match pubkey_bytes_to_signature !! pubkey_bytes with
  | Some valid_signature => (true, pubkey_bytes, valid_signature)
  | None => (false, pubkey_bytes, DUMMY_SIGNATURE)
  end.

(** The justification of an epoch end block, from grandpa_proveFinality. *)
Definition finality_justification (VALIDATOR_SET_SIZE_MAX : nat) (block_number : U32)
    : outcome SimpleJustificationData :=
  justification ← expect (grandpa_proveFinality block_number)
                    "called `Result::unwrap()` on an `Err` value";
  before ← checked_sub block_number 1;
  authority_set_id ← get_authority_set_id before;
  authorities_pubkey_bytes ← get_authorities before;
  _ ← assert (bool_decide (length authorities_pubkey_bytes ≤ VALIDATOR_SET_SIZE_MAX)%nat)
        "Too many authorities";
  first ← expect (cm_precommits (gj_commit justification) !! 0%nat) "index out of bounds";
  let signed_message := encode_signed_message (PrecommitMessage (sp_precommit first))
    (gj_round justification) authority_set_id in
  pubkey_bytes_to_signature ←
    collect_signatures signed_message (cm_precommits (gj_commit justification));
  let slots := map (authority_slot pubkey_bytes_to_signature) authorities_pubkey_bytes in
  Ret {| sd_pubkeys := map (λ s, snd (fst s)) slots;
         sd_signatures := map snd slots;
         sd_validator_signed := map (λ s, fst (fst s)) slots;
         sd_signed_message := signed_message;
         sd_voting_weight := Z.of_nat (count_true (map (λ s, fst (fst s)) slots));
         sd_num_authorities := Z.of_nat (length authorities_pubkey_bytes) |}.

(** The justification of any other block, as the indexer stored it. *)
Definition stored_justification (block_number : U32) (s : store)
    : outcome SimpleJustificationData :=
  stored ← get_justification avail_chain_id block_number s;
  pubkeys ← traverse key_from_slice (st_pubkeys stored);
  Ret {| sd_pubkeys := pubkeys;
         sd_signatures := st_signatures stored;
         sd_validator_signed := st_validator_signed stored;
         sd_signed_message := st_signed_message stored;
         sd_voting_weight := Z.of_nat (count_true (st_validator_signed stored));
         sd_num_authorities := Z.of_nat (st_num_authorities stored) |}.

Definition get_justification_data (VALIDATOR_SET_SIZE_MAX : nat) (block_number : U32) (s : store)
    : outcome SimpleJustificationData :=
  _ ← unwrap refresh_ws_connection;
  curr_authority_set_id ← get_authority_set_id block_number;
  before ← checked_sub block_number 1;
  prev_authority_set_id ← get_authority_set_id before;
  next ← checked_add 64 prev_authority_set_id 1;
  if decide (curr_authority_set_id = next)
  then finality_justification VALIDATOR_SET_SIZE_MAX block_number
  else stored_justification block_number s.

(** One iteration of the loop that copies the authorities' slots; the signature
    must convert to a [[u8; 64]]. *)
Definition copy_slot (data : SimpleJustificationData) (i : nat) : outcome slot :=
  pubkey ← expect (sd_pubkeys data !! i) "index out of bounds";
  signature ← expect (sd_signatures data !! i) "index out of bounds";
  _ ← assert (bool_decide (length signature = 64%nat))
        "called `Result::unwrap()` on an `Err` value";
  signed ← expect (sd_validator_signed data !! i) "index out of bounds";
  Ret (signed, pubkey, signature).

Definition get_justification_from_block (VALIDATOR_SET_SIZE_MAX : nat) (block_number : U32)
    (s : store) : outcome CircuitJustification :=
  data ← get_justification_data VALIDATOR_SET_SIZE_MAX block_number s;
  before ← checked_sub block_number 1;
  current_authority_set_id ← get_authority_set_id before;
  let current_authority_set_hash := compute_authority_set_hash (sd_pubkeys data) in
  weight ← checked_mul 64 (sd_voting_weight data) 3;
  required ← checked_mul 64 (sd_num_authorities data) 2;
  _ ← assert (bool_decide (required ≤ weight))
        "Not enough voting power";
  let num_authorities := Z.to_nat (sd_num_authorities data) in
  slots ← traverse (copy_slot data) (seq 0 num_authorities);
  let slots := slots ++
    replicate (VALIDATOR_SET_SIZE_MAX - num_authorities) (false, DUMMY_PUBLIC_KEY, DUMMY_SIGNATURE) in
  Ret {| cj_authority_set_id := current_authority_set_id;
         cj_signed_message := sd_signed_message data;
         cj_validator_signed := map (λ s, fst (fst s)) slots;
         cj_pubkeys := map (λ s, snd (fst s)) slots;
         cj_signatures := map snd slots;
         cj_num_authorities := num_authorities;
         cj_current_authority_set_hash := current_authority_set_hash |}.

(** The circuit's form of a 64-byte signature. *)
Definition eddsa_signature (sig : bytes) : EDDSASignature :=
  {| sig_r := sig.[0 to 32]; sig_s := le_decode sig.[32 to 64] |}.

(** [HintSimpleJustification::hint]. *)
Definition HintSimpleJustification (NUM_AUTHORITIES : nat) (s : store)
    (block_number : U32) (authority_set_id : U64) : outcome Vars.Justification :=
  justification_data ← unwrap (get_justification_from_block NUM_AUTHORITIES block_number s);
  _ ← assert (bool_decide (cj_authority_set_id justification_data = authority_set_id))
        "Authority set id does not match";
  let encoded_precommit := cj_signed_message justification_data in
  _ ← assert (bool_decide (length encoded_precommit = ENCODED_PRECOMMIT_LENGTH))
        "Encoded precommit is not the correct length";
  _ ← foldM (λ _ i,
        signed ← expect (cj_validator_signed justification_data !! i) "index out of bounds";
        if negb signed then Ret () else
        pubkey ← expect (cj_pubkeys justification_data !! i) "index out of bounds";
        signature ← expect (cj_signatures justification_data !! i) "index out of bounds";
        verify_signature pubkey encoded_precommit signature)
      (seq 0 (cj_num_authorities justification_data)) ();
  Ret {| encoded_precommit := encoded_precommit;
         validator_signed := cj_validator_signed justification_data;
         signatures := map eddsa_signature (cj_signatures justification_data);
         pubkeys := cj_pubkeys justification_data;
         num_authorities := as_u32 (Z.of_nat (cj_num_authorities justification_data)) |}.
End Justifications.

(** ** Header ranges *)
Section HeaderRange.
Context `{AvailNode}.

(** An encoded header in its padded array. *)
Definition encoded_header (HEADER_LENGTH : nat) (header : AvailHeader) : outcome EncodedHeader :=
  let bs := encode header in
  _ ← assert (bool_decide (length bs ≤ HEADER_LENGTH)%nat)
        "header size is greater than the maximum header size";
  Ret {| header_bytes := bs ++ replicate (HEADER_LENGTH - length bs) 0;
         header_size := as_u32 (Z.of_nat (length bs)) |}.

(** [HeaderRangeFetcherHint::hint]. *)
Definition HeaderRangeFetcherHint (HEADER_LENGTH NUM_HEADERS : nat)
    (start_block last_block max_block : U32) : outcome (list EncodedHeader) :=
  let last_block := Z.min last_block max_block in
  headers ← (if decide (start_block ≤ last_block)
             then get_block_headers_range start_block last_block else Ret []);
  header_variables ← traverse (encoded_header HEADER_LENGTH) headers;
  Ret (header_variables ++
    replicate (NUM_HEADERS - length headers)
      {| header_bytes := replicate HEADER_LENGTH 0; header_size := 0 |}).
End HeaderRange.

(** ** Rotations *)
Section Rotations.
Context `{Hashing, DummyValues, AvailNode}.

(** The checks on the value of the consensus log. *)
Definition check_authority (new_authorities : list Bytes32) (cursor : nat) (ic : nat * bytes)
    : outcome nat :=
  let '(i, authority_chunk) := ic in
  let pubkey := authority_chunk.[0 to PUBKEY_LENGTH] in
  let weight := authority_chunk.[PUBKEY_LENGTH to VALIDATOR_LENGTH] in
  authority ← expect (new_authorities !! i) "index out of bounds";
  _ ← assert (bool_decide (pubkey = authority)) "assertion failed";
  _ ← assert (bool_decide (weight = expected_weight_bytes)) "assertion failed";
  Ret (cursor + VALIDATOR_LENGTH)%nat.

(** [chunks_exact(k)]: whole chunks only. *)
Definition chunks_exact {A} (k : nat) (l : list A) : list (list A) :=
  filter (λ c, length c = k) (chunks k l).

Definition check_scheduled_change (new_authorities : list Bytes32) (value : bytes) : outcome unit :=
  flag ← expect (value !! 0%nat) "index out of bounds";
  _ ← assert (bool_decide (flag = 1)) "assertion failed";
  let encoded_num_authorities_len :=
    length (encode_compact (as_u32 (Z.of_nat (length new_authorities)))) in
  let cursor := (1 + encoded_num_authorities_len)%nat in
  authorities_bytes ← slice_checked value cursor (length value);
  let authority_chunks := chunks_exact VALIDATOR_LENGTH authorities_bytes in
  cursor ← foldM (check_authority new_authorities)
             (zip (seq 0 (length authority_chunks)) authority_chunks) cursor;
  delay ← slice_checked value cursor (length value);
  foldM (λ _ i, d ← expect (delay !! i) "index out of bounds";
                assert (bool_decide (d = 0)) "assertion failed") (seq 0 DELAY_LENGTH) ().

(** The loop over the logs: the position before the log of the scheduled
    change, [None] when there is none. *)
Fixpoint find_log (new_authorities : list Bytes32) (position : nat) (logs : list DigestItem)
    : outcome (option nat) :=
  match logs with
  | [] => Ret None
  | log :: logs' =>
      match log with
      | Consensus consensus_id value =>
          if decide (consensus_id = [70; 82; 78; 75]) then
            _ ← check_scheduled_change new_authorities value;
            Ret (Some position)
          else find_log new_authorities (position + length (encode_log log)) logs'
      | OtherItem _ => find_log new_authorities (position + length (encode_log log)) logs'
      end
  end.

Definition get_header_rotate (HEADER_LENGTH VALIDATOR_SET_SIZE_MAX : nat) (epoch_end_block : U32)
    : outcome HeaderRotateData :=
  epoch_end_block_authority_set_id ← get_authority_set_id epoch_end_block;
  before ← checked_sub epoch_end_block 1;
  prev_authority_set_id ← get_authority_set_id before;
  prev_id ← checked_sub epoch_end_block_authority_set_id 1;
  _ ← assert (bool_decide (prev_id = prev_authority_set_id)) "assertion failed";
  header ← get_header epoch_end_block;
  let bs := encode header in
  let header_size := length bs in
  _ ← assert (bool_decide (header_size ≤ HEADER_LENGTH)%nat)
        "header size is greater than HEADER_LENGTH";
  let header_bytes := bs ++ replicate (HEADER_LENGTH - header_size) 0 in
  new_authorities ← get_authorities epoch_end_block;
  let num_authorities := length new_authorities in
  let encoded_num_authorities_len := length (encode_compact (as_u32 (Z.of_nat num_authorities))) in
  let scheduled_change_message_length :=
    (1 + encoded_num_authorities_len + (40 * num_authorities) + DELAY_LENGTH)%nat in
  let encoded_scheduled_change_message_length_size :=
    length (encode_compact (as_u32 (Z.of_nat scheduled_change_message_length))) in
  let number_encoded := encode_compact epoch_end_block in
  let position := (HASH_SIZE + length number_encoded + HASH_SIZE + HASH_SIZE)%nat in
  found ← find_log new_authorities position (digest_logs header);
  position ← expect found "did not find corresponding consensus log";
  let padded_pubkeys := new_authorities ++
    replicate (VALIDATOR_SET_SIZE_MAX - num_authorities) DUMMY_PUBLIC_KEY in
  let prefix_length := (CONSENSUS_ENGINE_ID_PREFIX_LENGTH
    + encoded_scheduled_change_message_length_size + 1 + encoded_num_authorities_len)%nat in
  let end_position := (position + prefix_length + (32 + 8) * num_authorities + 4)%nat in
  Ret {| hr_header_bytes := header_bytes;
         hr_header_size := header_size;
         hr_num_authorities := num_authorities;
         hr_start_position := position;
         hr_end_position := end_position;
         hr_new_authority_set_hash := compute_authority_set_hash new_authorities;
         hr_padded_pubkeys := padded_pubkeys |}.

(** [RotateHint::hint]. *)
Definition RotateHint (HEADER_LENGTH MAX_AUTHORITY_SET_SIZE : nat) (authority_set_id : U64)
    : outcome Vars.Rotate :=
  epoch_end_block_nb ← last_justified_block authority_set_id;
  rotate_data ← get_header_rotate HEADER_LENGTH MAX_AUTHORITY_SET_SIZE epoch_end_block_nb;
  _ ← assert (bool_decide (hr_num_authorities rotate_data ≤ MAX_AUTHORITY_SET_SIZE)%nat)
        "The number of authorities is greater than the maximum authority set size.";
  Ret {| epoch_end_block_number := epoch_end_block_nb;
         target_header := {| header_bytes := hr_header_bytes rotate_data;
                             header_size := as_u32 (Z.of_nat (hr_header_size rotate_data)) |};
         target_header_num_authorities := Z.of_nat (hr_num_authorities rotate_data);
         next_authority_set_start_position := Z.of_nat (hr_start_position rotate_data);
         new_pubkeys := hr_padded_pubkeys rotate_data |}.
End Rotations.

(** ** The format of headers, as Avail documents it *)

(** A header's hash and its SCALE encoding, with the data root at the end. *)
Record header_format `{Hashing, AvailNode} (h : AvailHeader) : Prop := {
  hf_hash : hash h = blake2_256 (encode h);
  hf_layout : ∃ extrinsics_root extension,
    encode h = av_parent_hash h ++ Scale.compact_encode (number h) ++ av_state_root h
      ++ extrinsics_root ++ Scale.compact_encode (Z.of_nat (length (digest_logs h)))
      ++ concat (map encode_log (digest_logs h)) ++ extension ++ av_data_root h
    ∧ length extrinsics_root = HASH_SIZE;
  hf_u8 : Forall is_u8 (encode h);
  hf_number : is_u32 (number h);
  hf_parent : length (av_parent_hash h) = HASH_SIZE;
  hf_state_root : length (av_state_root h) = HASH_SIZE;
  hf_data_root : length (av_data_root h) = HASH_SIZE;
}.

(** The headers of a chain are in the format, each fits an array of [L] bytes and
    names its predecessor's hash. *)
Record chain_format `{Hashing, AvailNode} (L : nat) (c : chain) : Prop := {
  cf_header n : 0 ≤ n ≤ ch_head c → header_format (header_at c n);
  cf_fits n : 0 ≤ n ≤ ch_head c → (length (encode (header_at c n)) ≤ L)%nat;
  cf_array : Z.of_nat L < 2 ^ 32;
  cf_linked n : 0 ≤ n < ch_head c →
    av_parent_hash (header_at c (n + 1)) = hash (header_at c n);
}.

(** The encodings of compact integers and of consensus logs. *)
Record log_format `{AvailNode} : Prop := {
  lf_compact n : is_u32 n → encode_compact n = Scale.compact_encode n;
  lf_consensus engine value : encode_log (Consensus engine value)
    = [4] ++ engine ++ Scale.compact_encode (Z.of_nat (length value)) ++ value;
}.

(** ** Header ranges *)
Section HeaderRangeFacts.
Context `{CircuitBuilderLaws, AvailNode}.
Context (L : nat) (c : chain) (Hc : serves c) (Hf : chain_format L c).

Definition padded_header (h : AvailHeader) : EncodedHeader :=
  {| header_bytes := encode h ++ replicate (L - length (encode h)) 0;
     header_size := Z.of_nat (length (encode h)) |}.

Definition header_fields (h : AvailHeader) : Header :=
  {| block_number := number h; parent_hash := av_parent_hash h;
     state_root := av_state_root h; data_root := av_data_root h |}.

(** The block of a served header, as the circuit sees it. *)
Definition served_block (n : U32) : block :=
  let h := header_at c n in
  {| bk_header := padded_header h; bk_hash := hash h; bk_fields := header_fields h |}.

Lemma encoded_header_run h :
  (length (encode h) ≤ L)%nat → Z.of_nat L < 2 ^ 32 → encoded_header L h = Ret (padded_header h).
Proof.
  intros Hle HL. unfold encoded_header. rewrite bool_decide_eq_true_2 by done.
  by rewrite (as_u32_length _ L).
Qed.

Lemma padded_header_bytes h :
  (length (encode h) ≤ L)%nat → length (header_bytes (padded_header h)) = L.
Proof. intros. cbn. rewrite length_app, length_replicate. lia. Qed.

Lemma padded_header_layout h :
  header_format h → (length (encode h) ≤ L)%nat → Z.of_nat L < 2 ^ 32 →
  ∃ body, header_layout (padded_header h) (header_fields h) body
            (replicate (L - length (encode h)) 0).
Proof.
  intros [_ (xr & ext & Henc & Hxr) Hu8 Hn Hp Hs Hd] Hle HL.
  exists (xr ++ Scale.compact_encode (Z.of_nat (length (digest_logs h)))
    ++ concat (map encode_log (digest_logs h)) ++ ext). split; try done.
  - cbn [padded_header header_bytes parent_hash block_number state_root data_root header_fields].
    rewrite Henc at 1. by rewrite <- !app_assoc.
  - cbn. rewrite length_app, length_replicate. lia.
  - cbn. unfold is_u32. lia.
  - cbn. apply Forall_app_2; [done|]. by apply Forall_replicate.
Qed.

Lemma served_block_decodes n :
  0 ≤ n ≤ ch_head c → decode_block (padded_header (header_at c n)) = Some (served_block n).
Proof.
  intros Hn. pose proof (cf_header L c Hf n Hn) as Hh. pose proof (cf_fits L c Hf n Hn) as Hfit.
  destruct (padded_header_layout _ Hh Hfit (cf_array L c Hf)) as [body Hl].
  unfold decode_block, hash_encoded_header.
  rewrite curta_blake2b_variable_spec.
  2: { cbn. rewrite length_app, length_replicate. lia. }
  cbn [mbind option_bind]. rewrite (decode_header_layout _ _ _ _ _ Hl). cbn [mbind option_bind].
  unfold served_block. do 2 f_equal. cbn [padded_header header_bytes header_size].
  by rewrite Nat2Z.id, take_app_length, (hf_hash _ Hh).
Qed.

Lemma padded_header_size_ok n :
  0 ≤ n ≤ ch_head c → size_ok (padded_header (header_at c n)).
Proof.
  intros Hn. pose proof (cf_fits L c Hf n Hn) as Hfit. pose proof (cf_array L c Hf).
  split; cbn; [unfold is_u32; lia|]. rewrite length_app. lia.
Qed.

(** The headers of a served range are linked. *)
Lemma served_linked n k :
  0 ≤ n → n + Z.of_nat k ≤ ch_head c →
  linked n (hash (header_at c n)) (map served_block (seqZ (n + 1) (Z.of_nat k))).
Proof.
  revert n; induction k as [|k IH]; intros n Hn Hk; [done|].
  rewrite seqZ_cons by lia. cbn [map linked served_block bk_fields header_fields
    parent_hash block_number bk_hash]. split_and!.
  - apply (cf_linked L c Hf). lia.
  - apply (sv_number c Hc). lia.
  - replace (Z.succ (n + 1)) with (n + 1 + 1) by lia.
    replace (Z.pred (Z.of_nat (S k))) with (Z.of_nat k) by lia. apply IH; lia.
Qed.

Definition empty_encoded_header : EncodedHeader :=
  {| header_bytes := replicate L 0; header_size := 0 |}.

(** A padding header decodes, to fields that nothing reads. *)
Lemma empty_header_decodes :
  (MIN_HEADER_SIZE ≤ Z.of_nat L)%Z → ∃ b, decode_block empty_encoded_header = Some b.
Proof.
  unfold MIN_HEADER_SIZE. intros HL. unfold decode_block, hash_encoded_header.
  rewrite curta_blake2b_variable_spec by (cbn; lia). cbn [mbind option_bind].
  unfold decode_header. cbn [empty_encoded_header header_bytes header_size]. consts.
  assert (∀ a b, (a ≤ b)%nat → (b ≤ L)%nat → (replicate L 0).[a to b] = replicate (b - a) 0) as Hsl.
  { intros a b Ha Hb. unfold slice. rewrite drop_replicate, take_replicate. f_equal. lia. }
  rewrite (Hsl 32 (32 + 5))%nat by lia.
  assert (decode_compact_int (replicate (32 + 5 - 32) 0) = Some (0, 0)) as ->.
  { rewrite decode_compact_int_run by (consts; by_decide || done). reflexivity. }
  cbn [mbind option_bind]. rewrite select_array_spec by (cbn; lia).
  cbn [lookup list_lookup mbind option_bind Z.to_nat].
  circuit. rewrite bool_decide_eq_true_2 by done.
  rewrite get_fixed_subarray_spec by (rewrite ?length_replicate; lia). cbn [mbind option_bind]. eauto.
Qed.

(** What the hint returns for a batch. *)
Lemma HeaderRangeFetcherHint_run first last max :
  0 ≤ first → max ≤ ch_head c →
  let count := Z.min last max + 1 - first in
  HeaderRangeFetcherHint L HEADERS_PER_MAP first last max =
  Ret (map bk_header (map served_block (seqZ first count))
       ++ replicate (HEADERS_PER_MAP - Z.to_nat count) empty_encoded_header).
Proof.
  intros Hfirst Hmax count. unfold HeaderRangeFetcherHint.
  assert ((if decide (first ≤ Z.min last max)
           then get_block_headers_range first (Z.min last max) else Ret [])
    = Ret (map (header_at c) (seqZ first count))) as ->.
  { case_decide; [|by rewrite seqZ_nil by (unfold count; lia)].
    apply (get_block_headers_range_run c Hc); lia. }
  cbn [mbind outcome_bind].
  rewrite (traverse_map _ padded_header).
  2: { apply Forall_forall. intros h Hh. apply list_elem_of_fmap in Hh as (n & -> & Hn).
       apply elem_of_seqZ in Hn. apply encoded_header_run; [|apply (cf_array L c Hf)].
       apply (cf_fits L c Hf). unfold count in Hn. lia. }
  cbn [mbind outcome_bind]. rewrite !map_map, length_map, length_seqZ. done.
Qed.
End HeaderRangeFacts.

(** ** Justifications *)

(** The circuit's form of a signature keeps its bytes. *)
Lemma signature_bytes_eddsa sig :
  length sig = 64%nat → Forall is_u8 sig → signature_bytes (eddsa_signature sig) = sig.
Proof.
  intros Hlen Hu8. unfold signature_bytes, eddsa_signature. cbn [sig_r sig_s].
  replace 32%nat with (length sig.[32 to 64]) at 2 by (rewrite length_slice; lia).
  rewrite le_encode_decode by auto with vectorx.
  rewrite <- slice_split by lia. by apply slice_full.
Qed.

Lemma foldM_check {A} (f : A → outcome unit) l :
  foldM (λ _ i, f i) l () = Ret () → Forall (λ i, f i = Ret ()) l.
Proof.
  induction l as [|x l IH]; intros Hrun; [constructor|]. cbn [foldM] in Hrun.
  destruct (f x) as [[]| | |] eqn:E; try discriminate Hrun. constructor; auto.
Qed.

(** What the hint guarantees of the justification that it returns. *)
Record hinted_justification `{Hashing} (MAX : nat) (j : Vars.Justification) (sigs : list bytes)
  : Prop := {
  hj_message : length (encoded_precommit j) = ENCODED_PRECOMMIT_LENGTH;
  hj_signatures : signatures j = map eddsa_signature sigs;
  hj_num : (Z.to_nat (num_authorities j) ≤ length (validator_signed j))%nat
    ∧ 0 ≤ num_authorities j;
  hj_lengths : num_authorities j ≤ Z.of_nat MAX →
    length (validator_signed j) = MAX ∧ length sigs = MAX ∧ length (pubkeys j) = MAX;
  hj_padding i : num_authorities j ≤ Z.of_nat i → validator_signed j !! i ≠ Some true;
  hj_sizes i sig : Z.of_nat i < num_authorities j → sigs !! i = Some sig → length sig = 64%nat;
  hj_verified i pk sig : validator_signed j !! i = Some true →
    pubkeys j !! i = Some pk → sigs !! i = Some sig →
    ed25519_verify pk (encoded_precommit j) sig = true;
}.

Section JustificationFacts.
Context `{Hashing, DummyValues, AvailNode, RedisServer} (avail_chain_id : string).

Lemma copy_slot_size data i s : copy_slot data i = Ret s → length (snd s) = 64%nat.
Proof.
  unfold copy_slot. rewrite expect_Ret. intros (pk & _ & (sig & _ & Hrun)%expect_Ret).
  apply assert_Ret in Hrun as [Hlen Hrun]. apply expect_Ret in Hrun as (b & _ & [= <-]).
  by apply bool_decide_eq_true in Hlen.
Qed.

(** The slots that [get_justification_from_block] lays out. *)
Lemma get_justification_from_block_run MAX n s cj :
  get_justification_from_block avail_chain_id MAX n s = Ret cj →
  ∃ slots, let all := slots ++ replicate (MAX - length slots) (false, DUMMY_PUBLIC_KEY, DUMMY_SIGNATURE) in
    cj_num_authorities cj = length slots
    ∧ Forall (λ s : slot, length (snd s) = 64%nat) slots
    ∧ cj_validator_signed cj = map (λ s, fst (fst s)) all
    ∧ cj_pubkeys cj = map (λ s, snd (fst s)) all
    ∧ cj_signatures cj = map snd all.
Proof.
  unfold get_justification_from_block. rewrite bind_Ret. intros (data & _ & Hrun).
  apply bind_Ret in Hrun as (? & _ & Hrun). apply bind_Ret in Hrun as (id & _ & Hrun).
  apply bind_Ret in Hrun as (? & _ & Hrun). apply bind_Ret in Hrun as (? & _ & Hrun).
  apply assert_Ret in Hrun as [_ Hrun]. apply bind_Ret in Hrun as (slots & Hslots & [= <-]).
  apply traverse_Ret in Hslots. pose proof (Forall2_length _ _ _ Hslots) as Hlen.
  rewrite length_seq in Hlen. exists slots. cbn. rewrite Hlen. split_and!; try done.
  rewrite Forall_lookup. intros i sl Hi.
  destruct (Forall2_lookup_r _ _ _ _ _ Hslots Hi) as (k & _ & Hk). by eapply copy_slot_size.
Qed.

Lemma HintSimpleJustification_run MAX s n id j :
  HintSimpleJustification avail_chain_id MAX s n id = Ret j →
  ∃ cj, get_justification_from_block avail_chain_id MAX n s = Ret cj
    ∧ (Z.of_nat (length (validator_signed j)) < 2 ^ 32 →
       hinted_justification MAX j (cj_signatures cj)).
Proof.
  unfold HintSimpleJustification. rewrite bind_Ret. intros (cj & Hcj & Hrun).
  assert (get_justification_from_block avail_chain_id MAX n s = Ret cj) as Hcj'
    by (by destruct (get_justification_from_block _ _ _ _)). clear Hcj.
  apply assert_Ret in Hrun as [_ Hrun]. apply assert_Ret in Hrun as [Hmsg Hrun].
  apply bool_decide_eq_true in Hmsg. apply bind_Ret in Hrun as ([] & Hver & [= <-]).
  exists cj. split; [done|]. cbn [validator_signed]. intros Hu32.
  destruct (get_justification_from_block_run _ _ _ _ Hcj') as (slots & Hnum & Hsize & Hvs & Hpk & Hsig).
  set (all := slots ++ _) in *.
  rewrite Hvs, length_map in Hu32. unfold all in Hu32. rewrite length_app in Hu32.
  rewrite as_u32_id by (unfold is_u32; lia).
  assert (∀ i sl, (length slots ≤ i)%nat → all !! i = Some sl → fst (fst sl) = false) as Hpad.
  { intros i sl Hi Hl. unfold all in Hl. rewrite lookup_app_r in Hl by done.
    by apply lookup_replicate in Hl as [-> _]. }
  change (map ?f) with (fmap (M:=list) f) in *.
  apply foldM_check in Hver. rewrite Forall_lookup in Hver.
  split; cbn [encoded_precommit signatures validator_signed pubkeys num_authorities];
    rewrite ?Hnum, ?Nat2Z.id; try done.
  - rewrite Hvs, length_fmap. unfold all. rewrite length_app. lia.
  - intros Hle. rewrite Hvs, Hpk, Hsig, !length_fmap. unfold all.
    rewrite length_app, length_replicate. lia.
  - intros i Hi. rewrite Hvs, list_lookup_fmap. destruct (all !! i) as [sl|] eqn:E; [|done].
    cbn. rewrite (Hpad i sl); [done|lia|done].
  - intros i sig Hi. rewrite Hsig, list_lookup_fmap. unfold all. rewrite lookup_app_l by lia.
    rewrite fmap_Some. intros (sl & Hsl & ->). rewrite Forall_lookup in Hsize. by eapply Hsize.
  - intros i pk sig Hb Hk Hs. destruct (decide (i < length slots)%nat) as [Hlt|].
    + specialize (Hver i i). rewrite Hnum, Hb, Hk, Hs in Hver. cbn in Hver.
      specialize (Hver ltac:(apply lookup_seq; lia)). unfold verify_signature in Hver.
      apply assert_Ret in Hver as [_ Hver]. by destruct (ed25519_verify pk _ sig).
    + rewrite Hvs, list_lookup_fmap in Hb. destruct (all !! i) as [sl|] eqn:E; [|done].
      cbn in Hb. rewrite (Hpad i sl) in Hb; [done|lia|done].
Qed.
End JustificationFacts.

Section JustificationCircuit.
Context `{CircuitBuilderLaws}.

Lemma hinted_bounds MAX j sigs :
  hinted_justification MAX j sigs → (1 ≤ MAX)%nat → 3 * Z.of_nat MAX < 2 ^ 32 →
  num_authorities j ≤ Z.of_nat MAX → Forall is_u8 (encoded_precommit j) →
  justification_bounds MAX j.
Proof.
  intros [Hm Hsig [_ Hn0] Hlen _ _ _] HM HM32 Hn Hu8. destruct (Hlen Hn) as (? & ? & ?).
  split; [done|done| |done]. split; [done|done| |done|unfold is_u32; lia].
  by rewrite Hsig, length_map.
Qed.

(** The signatures that the hint checked are those that the circuit checks. *)
Lemma hinted_signatures MAX j sigs :
  hinted_justification MAX j sigs → Forall (Forall is_u8) sigs →
  ∀ i s pk, validator_signed j !! i = Some true → signatures j !! i = Some s →
    pubkeys j !! i = Some pk →
    ed25519_verify pk (encoded_precommit j) (signature_bytes s) = true.
Proof.
  intros [_ Hsig _ _ Hpad Hsize Hver] Hu8 i s pk Hb Hs Hk.
  rewrite Hsig in Hs. change (map ?f) with (fmap (M:=list) f) in Hs.
  apply list_lookup_fmap_Some in Hs as (sig & -> & Hi).
  assert (Z.of_nat i < num_authorities j) as Hlt
    by (destruct (decide (num_authorities j ≤ Z.of_nat i)); [by destruct (Hpad i)|lia]).
  rewrite signature_bytes_eddsa; [by eapply Hver|by eapply Hsize|].
  rewrite Forall_lookup in Hu8. by eapply Hu8.
Qed.

Lemma hinted_accepted MAX j sigs bn bh id round :
  hinted_justification MAX j sigs → (1 ≤ MAX)%nat → 3 * Z.of_nat MAX < 2 ^ 32 →
  0 < num_authorities j ≤ Z.of_nat MAX →
  Forall is_u8 (encoded_precommit j) → Forall (Forall is_u8) sigs →
  is_u32 bn → is_u64 id → is_u64 round →
  encoded_precommit j = encode_precommit
    {| pc_block_hash := bh; pc_block_number := bn;
       pc_justification_round := round; pc_authority_set_id := id |} →
  2 * num_authorities j < 3 * Z.of_nat (count_true (validator_signed j)) →
  justification_valid j bn bh id
    (compute_authority_set_hash (take (Z.to_nat (num_authorities j)) (pubkeys j))).
Proof.
  intros Hj HM HM32 Hn Hu8 Hsu8 Hbn Hid Hr Hm Ht. split; [lia|done| | |].
  - by exists round.
  - by eapply hinted_signatures.
  - rewrite Z.mod_small; lia.
Qed.
End JustificationCircuit.

(** ** Properties of the justification hint *)
Section JustificationProperties.
Context `{CircuitBuilderLaws, DummyValues, AvailNode, RedisServer} (avail_chain_id : string).

(** C19: a justification that the hint returns for a block, whatever it holds,
    satisfies the circuit for a block hash and an authority set hash exactly when
    it has an authority, the set hash is the commitment of its own authorities,
    its message is a precommit for that block, hash and set id, and more than two
    thirds of the authorities signed it.  The signatures need no further check:
    the hint verified them. *)
Theorem hint_satisfies_circuit MAX s bn id j cj bh sh :
  HintSimpleJustification avail_chain_id MAX s bn id = Ret j →
  get_justification_from_block avail_chain_id MAX bn s = Ret cj →
  (1 ≤ MAX)%nat → 3 * Z.of_nat MAX < 2 ^ 32 → length (validator_signed j) = MAX →
  Forall is_u8 (encoded_precommit j) → Forall (Forall is_u8) (cj_signatures cj) →
  is_u32 bn → is_u64 id →
  verify_simple_justification MAX (λ _ _, j) bn bh id sh = Some ()
  ↔ 0 < num_authorities j
    ∧ sh = compute_authority_set_hash (take (Z.to_nat (num_authorities j)) (pubkeys j))
    ∧ (∃ round, is_u64 round ∧ encoded_precommit j = encode_precommit
        {| pc_block_hash := bh; pc_block_number := bn;
           pc_justification_round := round; pc_authority_set_id := id |})
    ∧ 2 * num_authorities j < 3 * Z.of_nat (count_true (validator_signed j)).
Proof.
  intros Hrun Hcj HM HM32 Hlen Hu8 Hsu8 Hbn Hid.
  apply HintSimpleJustification_run in Hrun as (cj' & Hcj' & Hj).
  rewrite Hcj in Hcj'. injection Hcj' as <-. specialize (Hj ltac:(lia)).
  pose proof (hj_num _ _ _ Hj) as Hn.
  assert (num_authorities j ≤ Z.of_nat MAX) as Hcap by lia.
  assert (justification_bounds MAX j) as Hb by (by eapply hinted_bounds).
  destruct (wf_num_authorities _ _ (bounds_wf _ _ Hb)) as [Hn0 _].
  rewrite verify_simple_justification_run by done. split.
  - intros [Hne Hc Hm _ Ht]. rewrite Z.mod_small in Ht by lia. split_and!; [lia|done..].
  - intros (Hpos & -> & (round & Hr & Hm) & Ht). by eapply hinted_accepted.
Qed.

(** At exactly two thirds of the authorities the hint still returns the
    justification, but no authority set hash satisfies the circuit. *)
Theorem hint_exact_two_thirds MAX s bn id j bh sh :
  HintSimpleJustification avail_chain_id MAX s bn id = Ret j →
  (1 ≤ MAX)%nat → 3 * Z.of_nat MAX < 2 ^ 32 → length (validator_signed j) = MAX →
  Forall is_u8 (encoded_precommit j) → is_u32 bn → is_u64 id →
  2 * num_authorities j = 3 * Z.of_nat (count_true (validator_signed j)) →
  verify_simple_justification MAX (λ _ _, j) bn bh id sh = None.
Proof.
  intros Hrun HM HM32 Hlen Hu8 Hbn Hid Heq.
  apply HintSimpleJustification_run in Hrun as (cj & _ & Hj). specialize (Hj ltac:(lia)).
  assert (num_authorities j ≤ Z.of_nat MAX) as Hn by (pose proof (hj_num _ _ _ Hj); lia).
  destruct (verify_simple_justification _ _ _ _ _ _) as [[]|] eqn:E; [exfalso|done].
  apply verify_simple_justification_run in E; [|by eapply hinted_bounds|done|done].
  destruct E as [_ _ _ _ Ht]. rewrite Z.mod_small in Ht by lia. lia.
Qed.
End JustificationProperties.

(** ** The header range hint is honest *)
Section HonestRange.
Context `{CircuitBuilderLaws, AvailNode}.
Context (L : nat) (c : chain) (Hc : serves c) (Hf : chain_format L c).
Context (HL : MIN_HEADER_SIZE ≤ Z.of_nat L).

(** The value that the circuit reads from the hint's stream. *)
Definition range_hint (first last max : U32) : list EncodedHeader :=
  match HeaderRangeFetcherHint L HEADERS_PER_MAP first last max with
  | Ret headers => headers
  | _ => []
  end.

(** The blocks after [trusted], up to [target]. *)
Definition served_chain (trusted target : U32) : list block :=
  map (served_block L c) (seqZ (trusted + 1) (target - trusted)).

Lemma length_served_chain trusted target :
  length (served_chain trusted target) = Z.to_nat (target - trusted).
Proof. unfold served_chain. by rewrite length_map, length_seqZ. Qed.

(** The batch of a job: the headers of its blocks up to the target, then padding. *)
Lemma job_headers_run trusted target i :
  0 ≤ trusted → target ≤ ch_head c →
  job_headers range_hint trusted target i =
    map bk_header (take HEADERS_PER_MAP (drop (HEADERS_PER_MAP * i) (served_chain trusted target)))
    ++ replicate (HEADERS_PER_MAP - (length (served_chain trusted target) - HEADERS_PER_MAP * i))
         (empty_encoded_header L).
Proof.
  intros Ht Htg. unfold job_headers, range_hint.
  rewrite (HeaderRangeFetcherHint_run L c Hc Hf) by (consts; lia).
  rewrite length_served_chain. unfold served_chain.
  rewrite skipn_map, firstn_map, drop_seqZ, take_seqZ. consts. f_equal.
  - do 2 f_equal. f_equal; lia.
  - f_equal. lia.
Qed.

Lemma served_chain_decodes trusted target :
  0 ≤ trusted → target ≤ ch_head c →
  Forall (λ b, decode_block (bk_header b) = Some b ∧ size_ok (bk_header b))
    (served_chain trusted target).
Proof.
  intros Ht Htg. unfold served_chain. apply Forall_map, Forall_forall.
  intros n Hn%elem_of_seqZ. split.
  - apply (served_block_decodes L c Hf). lia.
  - apply (padded_header_size_ok L c Hf). lia.
Qed.

Lemma range_hint_honest MAX trusted target :
  0 ≤ trusted → target ≤ ch_head c →
  honest_hint MAX range_hint trusted target (served_chain trusted target).
Proof.
  intros Ht Htg i Hi. destruct (empty_header_decodes L) as [e He]; [done|].
  eexists (replicate _ e). rewrite job_headers_run by done. apply Forall2_app.
  - pose proof (served_chain_decodes trusted target Ht Htg) as Hdec.
    apply (Forall_drop _ (HEADERS_PER_MAP * i)), (Forall_take _ HEADERS_PER_MAP) in Hdec.
    induction Hdec as [|b bs [Hb _] _ IH]; constructor; done.
  - by apply Forall2_replicate.
Qed.

Lemma range_hint_bounds MAX trusted target :
  0 ≤ trusted → target ≤ ch_head c →
  trusted + Z.of_nat (HEADERS_PER_MAP * jobs MAX) < 2 ^ 32 → 0 ≤ target →
  subchain_bounds MAX range_hint trusted target.
Proof.
  intros Ht Htg Hroom Htg0. pose proof (sv_range c Hc). pose proof (cf_array L c Hf).
  split; [done|done|unfold is_u32; lia| |]; intros i Hi; rewrite job_headers_run by done.
  - rewrite length_app, length_map, length_replicate, length_take, length_drop.
    consts. lia.
  - apply Forall_app_2.
    + apply Forall_map, Forall_take, Forall_drop.
      eapply Forall_impl; [by apply served_chain_decodes|]. by intros b [_ ?].
    + apply Forall_replicate. unfold size_ok, is_u32. cbn. rewrite length_replicate. lia.
Qed.

(** With this hint the circuit accepts every range of the chain that it reaches. *)
Lemma verify_subchain_served MAX trusted target :
  0 ≤ trusted < target → target ≤ ch_head c →
  trusted + Z.of_nat (HEADERS_PER_MAP * jobs MAX) < 2 ^ 32 →
  target - trusted ≤ Z.of_nat (HEADERS_PER_MAP * jobs MAX) →
  ∃ out, verify_subchain MAX range_hint trusted (hash (header_at c trusted)) target = Some out
    ∧ commits_to MAX out (hash (header_at c trusted)) (served_chain trusted target).
Proof.
  intros Ht Htg Hroom Hfit.
  apply verify_subchain_complete_run.
  - apply range_hint_bounds; lia.
  - unfold served_chain. replace (target - trusted) with (Z.of_nat (Z.to_nat (target - trusted))) by lia.
    apply (served_linked L c Hc Hf); lia.
  - rewrite length_served_chain. lia.
  - intros E. apply (f_equal length) in E. rewrite length_served_chain in E. simpl in E. lia.
  - rewrite length_served_chain. lia.
  - apply range_hint_honest; lia.
Qed.
End HonestRange.

(** ** Rotations *)
Section RotationFacts.
Context `{Hashing, DummyValues, AvailNode} (Hlog : log_format).

Lemma length_encode_authority pk :
  length pk = PUBKEY_LENGTH → length (encode_authority pk) = VALIDATOR_LENGTH.
Proof. intros E. unfold encode_authority. rewrite length_app, E. done. Qed.

Lemma chunks_exact_authorities keys :
  Forall (λ k, length k = PUBKEY_LENGTH) keys →
  chunks_exact VALIDATOR_LENGTH (encode_authorities keys ++ expected_delay_bytes)
  = map encode_authority keys.
Proof.
  intros Hk. unfold chunks_exact, encode_authorities.
  induction Hk as [|k keys Hk _ IH]; [done|].
  cbn [map concat]. rewrite <- app_assoc.
  rewrite chunks_app by (rewrite ?length_encode_authority by done; consts; lia).
  rewrite filter_cons, decide_True by by apply length_encode_authority.
  f_equal. exact IH.
Qed.

(** The loop over the chunks accepts the encoded authorities. *)
Lemma check_authorities_run keys i all cursor :
  Forall (λ k, length k = PUBKEY_LENGTH) keys →
  drop i all = keys →
  foldM (check_authority all) (zip (seq i (length keys)) (map encode_authority keys)) cursor
  = Ret (cursor + VALIDATOR_LENGTH * length keys)%nat.
Proof.
  intros Hk. revert i cursor; induction Hk as [|k keys Hk _ IH]; intros i cursor Hd.
  { cbn. f_equal. lia. }
  assert (check_authority all cursor (i, encode_authority k)
    = Ret (cursor + VALIDATOR_LENGTH)%nat) as Hstep.
  { unfold check_authority. assert (all !! i = Some k) as ->.
    { by rewrite <- (Nat.add_0_r i), <- lookup_drop, Hd. }
    assert ((encode_authority k).[0 to PUBKEY_LENGTH] = k) as ->.
    { unfold encode_authority. rewrite slice_app_l by lia. by apply slice_full. }
    assert ((encode_authority k).[PUBKEY_LENGTH to VALIDATOR_LENGTH] = expected_weight_bytes) as ->.
    { unfold encode_authority. rewrite slice_app_r by lia. by rewrite Hk. }
    cbn [expect mbind outcome_bind]. by rewrite !bool_decide_eq_true_2 by done. }
  cbn [length seq map zip_with foldM]. rewrite Hstep. cbn [mbind outcome_bind].
  rewrite IH; [f_equal; lia|].
  replace (S i) with (i + 1)%nat by lia. by rewrite <- drop_drop, Hd.
Qed.

Lemma slice_checked_suffix {A} (l r : list A) n :
  n = length l → slice_checked (l ++ r) n (length (l ++ r)) = Ret r.
Proof.
  intros ->. unfold slice_checked. rewrite length_app, decide_True by lia.
  rewrite slice_app_r, Nat.sub_diag by lia. f_equal. apply slice_full. lia.
Qed.

Lemma check_scheduled_change_run keys :
  Forall (λ k, length k = PUBKEY_LENGTH) keys → is_u32 (Z.of_nat (length keys)) →
  check_scheduled_change keys (scheduled_change_message keys) = Ret ().
Proof.
  intros Hk Hu. unfold check_scheduled_change. rewrite as_u32_id by done.
  rewrite (lf_compact Hlog) by done.
  set (cl := Scale.compact_encode _).
  assert (scheduled_change_message keys !! 0%nat = Some 1) as -> by done.
  cbn [expect mbind outcome_bind]. rewrite bool_decide_eq_true_2 by done. cbn [assert mbind outcome_bind].
  assert (scheduled_change_message keys = ([1] ++ cl) ++ encode_authorities keys ++ expected_delay_bytes)
    as -> by by rewrite <- app_assoc.
  rewrite slice_checked_suffix by done. cbn [mbind outcome_bind].
  rewrite chunks_exact_authorities, length_map by done.
  rewrite check_authorities_run by done. cbn [mbind outcome_bind].
  rewrite app_assoc, slice_checked_suffix; [done|].
  rewrite length_app, length_encode_authorities by done. simpl. lia.
Qed.

(** No log before is a GRANDPA log. *)
Definition not_grandpa (l : DigestItem) : Prop :=
  match l with
  | Consensus engine _ => engine ≠ [70; 82; 78; 75]
  | OtherItem _ => True
  end.

Lemma find_log_run keys position before after :
  Forall (λ k, length k = PUBKEY_LENGTH) keys → is_u32 (Z.of_nat (length keys)) →
  Forall not_grandpa before →
  find_log keys position
    (before ++ Consensus [70; 82; 78; 75] (scheduled_change_message keys) :: after)
  = Ret (Some (position + length (concat (map encode_log before)))%nat).
Proof.
  intros Hk Hu Hb. revert position; induction Hb as [|l before Hl _ IH]; intros position.
  - cbn [app find_log]. rewrite decide_True by done.
    rewrite check_scheduled_change_run by done. cbn. do 2 f_equal. lia.
  - cbn [app find_log map concat]. destruct l as [engine value|bs].
    + rewrite decide_False by done. rewrite IH, length_app. do 2 f_equal. lia.
    + rewrite IH, length_app. do 2 f_equal. lia.
Qed.

(** An epoch end header, with the log of the change to [keys] as its first
    GRANDPA log, and fewer than 64 logs. *)
Definition announces (h : AvailHeader) (keys : list Bytes32) : Prop :=
  ∃ before after,
    digest_logs h = before ++ Consensus [70; 82; 78; 75] (scheduled_change_message keys) :: after
    ∧ Forall not_grandpa before ∧ (length (digest_logs h) < 64)%nat.

Definition log_position (h : AvailHeader) (before : list DigestItem) : nat :=
  (96 + length (Scale.compact_encode (number h)) + length (concat (map encode_log before)))%nat.

(** The byte before the log is where the hint points. *)
Lemma header_log_layout h keys before after padding :
  header_format h →
  digest_logs h = before ++ Consensus [70; 82; 78; 75] (scheduled_change_message keys) :: after →
  (length (digest_logs h) < 64)%nat →
  log_layout (encode h ++ padding) (log_position h before) keys.
Proof.
  intros [_ (xr & ext & Henc & Hxr) _ _ Hp Hs _] Hl Hlen. rewrite Henc.
  rewrite Hl at 2. rewrite map_app, concat_app. cbn [map concat].
  rewrite (lf_consensus Hlog).
  assert (∃ b, Scale.compact_encode (Z.of_nat (length (digest_logs h))) = [b]) as [b ->].
  { unfold Scale.compact_encode. rewrite decide_True by lia. by eexists. }
  set (front := av_parent_hash h ++ Scale.compact_encode (number h) ++ av_state_root h ++ xr).
  set (tail := concat (map encode_log after) ++ ext ++ av_data_root h ++ padding).
  set (pre := front ++ [b] ++ concat (map encode_log before)).
  assert (length pre = S (log_position h before)) as Hpre.
  { unfold pre, front, log_position. rewrite !length_app, Hp, Hs, Hxr. consts. simpl. lia. }
  destruct pre as [|x pre' _] eqn:E using rev_ind; [done|].
  rewrite length_app in Hpre. simpl in Hpre.
  exists pre', x, tail. split; [|lia].
  transitivity (pre ++ consensus_log (scheduled_change_message keys) ++ tail).
  - unfold pre, front, tail, consensus_log. rewrite <- !app_assoc. done.
  - subst pre. rewrite E, <- app_assoc. done.
Qed.
Lemma log_position_bound h before after :
  header_format h → digest_logs h = before ++ after →
  (log_position h before ≤ length (encode h))%nat.
Proof.
  intros [_ (xr & ext & Henc & Hxr) _ _ Hp Hs _] Hl. rewrite Henc, Hl, map_app, concat_app.
  unfold log_position. rewrite !length_app, Hp, Hs, Hxr. consts. lia.
Qed.
End RotationFacts.

(** ** The rotation hint is honest *)
Section HonestRotation.
Context `{CircuitBuilderLaws, DummyValues, AvailNode}.
Context (L MAX : nat) (c : chain) (Hc : serves c) (He : epochs c) (Hf : chain_format L c).
Context (Hlog : log_format).

(** The data of a rotation at block [n]. *)
Definition rotation (n : U32) (position : nat) : Vars.Rotate :=
  let keys := authorities_of c n in
  {| epoch_end_block_number := n;
     target_header := padded_header L (header_at c n);
     target_header_num_authorities := Z.of_nat (length keys);
     next_authority_set_start_position := Z.of_nat position;
     new_pubkeys := keys ++ replicate (MAX - length keys) DUMMY_PUBLIC_KEY |}.

(** An epoch end whose header announces the authorities of its state. *)
Record rotates (n : U32) : Prop := {
  ro_epoch_end : epoch_end c n;
  ro_announces : announces (header_at c n) (authorities_of c n);
  ro_keys : Forall (λ k, length k = PUBKEY_LENGTH) (authorities_of c n);
  ro_nonempty : authorities_of c n ≠ [];
  ro_max : (length (authorities_of c n) ≤ MAX)%nat;
}.

Lemma get_header_rotate_run n :
  rotates n → 40 * Z.of_nat MAX < 2 ^ 31 →
  ∃ d position, get_header_rotate L MAX n = Ret d
    ∧ hr_header_bytes d = header_bytes (padded_header L (header_at c n))
    ∧ Z.of_nat (hr_header_size d) = header_size (padded_header L (header_at c n))
    ∧ hr_num_authorities d = length (authorities_of c n)
    ∧ hr_start_position d = position
    ∧ hr_padded_pubkeys d = new_pubkeys (rotation n position)
    ∧ hr_new_authority_set_hash d = compute_authority_set_hash (authorities_of c n)
    ∧ log_layout (header_bytes (padded_header L (header_at c n))) position (authorities_of c n)
    ∧ (position ≤ length (encode (header_at c n)))%nat.
Proof.
  intros [(Hn & Hid & _) (before & after & Hlogs & Hbefore & Hlen) Hkeys _ Hmax] HM.
  pose proof (cf_header L c Hf n ltac:(lia)) as Hh.
  exists {|
    hr_header_bytes := header_bytes (padded_header L (header_at c n));
    hr_header_size := length (encode (header_at c n));
    hr_num_authorities := length (authorities_of c n);
    hr_start_position := log_position (header_at c n) before;
    hr_end_position := log_position (header_at c n) before
      + (CONSENSUS_ENGINE_ID_PREFIX_LENGTH
         + length (encode_compact (as_u32 (Z.of_nat (1
             + length (encode_compact (as_u32 (Z.of_nat (length (authorities_of c n)))))
             + 40 * length (authorities_of c n) + DELAY_LENGTH))))
         + 1 + length (encode_compact (as_u32 (Z.of_nat (length (authorities_of c n))))))
      + (32 + 8) * length (authorities_of c n) + 4;
    hr_new_authority_set_hash := compute_authority_set_hash (authorities_of c n);
    hr_padded_pubkeys := new_pubkeys (rotation n (log_position (header_at c n) before)) |},
    (log_position (header_at c n) before).
  split; [|split_and!; try done; [by eapply header_log_layout|by eapply log_position_bound]].
  unfold get_header_rotate. pose proof (sv_range c Hc).
  rewrite (get_authority_set_id_run c Hc n) by lia. cbn [mbind outcome_bind].
  rewrite (checked_sub_Ret n 1) by lia. cbn [mbind outcome_bind].
  rewrite (get_authority_set_id_run c Hc (n - 1)) by lia. cbn [mbind outcome_bind].
  pose proof (set_id_nonneg c He (n - 1)).
  rewrite (checked_sub_Ret (set_id c n) 1) by lia. cbn [mbind outcome_bind].
  rewrite (bool_decide_eq_true_2 (set_id c n - 1 = _)) by lia. cbn [assert mbind outcome_bind].
  rewrite (get_header_run c Hc n) by lia. cbn [mbind outcome_bind].
  rewrite bool_decide_eq_true_2 by (apply (cf_fits L c Hf); lia). cbn [assert mbind outcome_bind].
  rewrite (get_authorities_run c Hc n) by lia. cbn [mbind outcome_bind].
  rewrite Hlogs, find_log_run; [|done|done|unfold is_u32; lia|done].
  cbn [mbind outcome_bind expect].
  rewrite (lf_compact Hlog n) by (unfold is_u32; lia).
  replace (HASH_SIZE + length (Scale.compact_encode n) + HASH_SIZE + HASH_SIZE
    + length (concat (map encode_log before)))%nat with (log_position (header_at c n) before);
    [done|].
  unfold log_position. rewrite (sv_number c Hc) by lia. consts. lia.
Qed.

Lemma RotateHint_run id n :
  0 ≤ id → id + 1 < 2 ^ 64 → last_justified c id n → rotates n → 40 * Z.of_nat MAX < 2 ^ 31 →
  ∃ position, RotateHint L MAX id = Ret (rotation n position)
    ∧ log_layout (header_bytes (padded_header L (header_at c n))) position (authorities_of c n)
    ∧ (position ≤ length (encode (header_at c n)))%nat.
Proof.
  intros Hid0 Hid Hlast Hro HM. unfold RotateHint.
  rewrite (last_justified_block_found c Hc He id n) by done.
  cbn [mbind outcome_bind].
  destruct (get_header_rotate_run n Hro HM) as (d & p & -> & E1 & E2 & E3 & E4 & E5 & _ & Hlay & Hpos).
  cbn [mbind outcome_bind]. rewrite bool_decide_eq_true_2 by (rewrite E3; apply Hro).
  cbn [assert mbind outcome_bind]. exists p. split; [|by split].
  assert (is_u32 (header_size (padded_header L (header_at c n)))) as Hs.
  { destruct Hro as [(Hn & _) _ _ _ _].
    apply (padded_header_size_ok L c Hf n). lia. }
  unfold rotation. rewrite E1, E2, E3, E4, E5, as_u32_id by done. by destruct (padded_header L (header_at c n)).
Qed.

(** The bounds of the circuit, when the header array leaves room behind the log. *)
Lemma rotation_bounds n position :
  rotates n → length DUMMY_PUBLIC_KEY = PUBKEY_LENGTH →
  (position + MAX_PREFIX_LENGTH + (MAX * VALIDATOR_LENGTH + DELAY_LENGTH) ≤ L)%nat →
  let r := rotation n position in
  rotate_bounds MAX (target_header r) (next_authority_set_start_position r)
    (target_header_num_authorities r) (new_pubkeys r).
Proof.
  intros Hro Hdummy Hroom r. pose proof (cf_array L c Hf).
  assert (0 ≤ n ≤ ch_head c) as Hn by (destruct (ro_epoch_end n Hro); lia).
  pose proof (cf_fits L c Hf n Hn). pose proof (hf_u8 _ (cf_header L c Hf n Hn)).
  assert (length (header_bytes (target_header r)) = L) as Hlen by by apply padded_header_bytes.
  split.
  - cbn. apply Forall_app_2; [done|]. by apply Forall_replicate.
  - rewrite Hlen. lia.
  - cbn. lia.
  - rewrite Hlen. cbn [next_authority_set_start_position r rotation]. lia.
  - cbn. lia.
  - cbn. rewrite length_app, length_replicate. pose proof (ro_max n Hro). lia.
  - cbn. apply Forall_app_2; [apply Hro|]. by apply Forall_replicate.
Qed.
End HonestRotation.

(** ** A concrete chain *)
Import Ref RefNode RefRedis.

(** The format of a chain of [RefNode], checked by evaluation. *)
Section RefFormat.
Context (blocks : list block_data) (proofs : U32 → option (GrandpaJustification RefNode.header)).
#[local] Instance format_node : AvailNode := node blocks proofs.

Record plain_header (L : nat) (h : RefNode.header) : Prop := {
  ph_u8 : Forall is_u8 (header_encode h);
  ph_fits : (length (header_encode h) ≤ L)%nat;
  ph_number : is_u32 (h_number h);
  ph_parent : length (h_parent h) = HASH_SIZE;
  ph_state_root : length (h_state_root h) = HASH_SIZE;
  ph_extrinsics_root : length (h_extrinsics_root h) = HASH_SIZE;
  ph_data_root : length (h_data_root h) = HASH_SIZE;
}.

#[export] Instance plain_header_decision L h : Decision (plain_header L h).
Proof.
  refine (cast_if (decide (Forall is_u8 (header_encode h) ∧ (length (header_encode h) ≤ L)%nat
    ∧ is_u32 (h_number h) ∧ length (h_parent h) = HASH_SIZE ∧ length (h_state_root h) = HASH_SIZE
    ∧ length (h_extrinsics_root h) = HASH_SIZE ∧ length (h_data_root h) = HASH_SIZE))).
  - destruct_and!; by split.
  - intros []. naive_solver.
Defined.

Lemma plain_header_format L h : plain_header L h → header_format (h : AvailHeader).
Proof.
  intros []. split; try done. cbn. by exists (h_extrinsics_root h), (h_extension h).
Qed.

Lemma ref_chain_format L :
  Z.of_nat L < 2 ^ 32 →
  Forall (λ i, plain_header L (bd_header (blocks !!! i))) (seq 0 (length blocks)) →
  Forall (λ i, h_parent (bd_header (blocks !!! S i)) = header_hash (bd_header (blocks !!! i)))
    (seq 0 (length blocks - 1)) →
  chain_format L (ref_chain blocks proofs).
Proof.
  intros HL Hp Hlinks. rewrite Forall_lookup in Hp, Hlinks.
  assert (∀ n, 0 ≤ n ≤ Z.of_nat (length blocks) - 1 →
    plain_header L (bd_header (blocks !!! Z.to_nat n))) as Hat.
  { intros n Hn. apply (Hp (Z.to_nat n) (Z.to_nat n)), lookup_seq. lia. }
  split; [..|done|]; intros n Hn; cbn in *.
  - eapply plain_header_format, Hat. lia.
  - apply Hat. lia.
  - replace (Z.to_nat (n + 1)) with (S (Z.to_nat n)) by lia.
    apply (Hlinks (Z.to_nat n) (Z.to_nat n)), lookup_seq. lia.
Qed.

Lemma ref_log_format : log_format.
Proof. by split. Qed.
End RefFormat.

#[export] Instance sample_dummies : DummyValues :=
  {| DUMMY_PUBLIC_KEY := zero32; DUMMY_SIGNATURE := replicate 64 0 |}.

(** Five blocks.  Set 0, of three authorities, ends at block 2, whose header
    announces two. *)
Module Sample.
Definition old_keys : list Bytes32 := map (λ i, replicate 32 (Z.of_nat i)) [1; 2; 3]%nat.
Definition new_keys : list Bytes32 := map (λ i, replicate 32 (Z.of_nat i)) [4; 5]%nat.
Definition blocks : list block_data :=
  build zero32 0 [(0, old_keys, []); (0, old_keys, []);
    (1, new_keys, [OtherItem [6; 66; 65; 66; 69; 4; 1];
                   Consensus [70; 82; 78; 75] (scheduled_change_message new_keys)]);
    (1, new_keys, []); (1, new_keys, [])].

(** A finality proof of block 2 with the votes of some voters. *)
Definition vote2 : Vote :=
  {| target_hash := header_hash (bd_header (blocks !!! 2%nat)); target_number := 2 |}.
Definition message2 : bytes := encode_signed_message (PrecommitMessage vote2) 5 0.
Definition proof2 (voters : list Bytes32) (n : U32)
    : option (GrandpaJustification RefNode.header) :=
  if decide (n = 2) then Some {| gj_round := 5; gj_commit := {|
    cm_target_hash := target_hash vote2; cm_target_number := 2;
    cm_precommits := map (λ pk, {| sp_precommit := vote2;
      sp_signature := signature_bytes (sign pk message2); sp_id := pk |}) voters |};
    gj_votes_ancestries := [] |}
  else None.
Definition node_of (voters : list Bytes32) : AvailNode := node blocks (proof2 voters).
Definition chain_of (voters : list Bytes32) : chain (H := node_of voters) :=
  ref_chain blocks (proof2 voters).

Lemma chain_serves voters : serves (chain_of voters).
Proof. apply ref_serves; [|by_decide|by_decide]. change (length blocks) with 5%nat. lia. Qed.
Lemma chain_epochs voters : epochs (chain_of voters).
Proof. apply ref_epochs; [done|by_decide]. Qed.
Lemma chain_formatted voters : chain_format 400 (chain_of voters).
Proof. apply ref_chain_format; [done|by_decide|by_decide]. Qed.
End Sample.

(** ** Witnesses *)

(** The justification of block 2, with the votes of some voters, in an array of
    four slots. *)
Definition hinted (voters : list Bytes32) : outcome Vars.Justification :=
  HintSimpleJustification (H1 := Sample.node_of voters) "avail" 4 empty 2 0.

Definition hinted_block (voters : list Bytes32) : CircuitJustification :=
  match get_justification_from_block (H1 := Sample.node_of voters) "avail" 4 2 empty with
  | Ret cj => cj
  | _ => {| cj_authority_set_id := 0; cj_signed_message := []; cj_validator_signed := [];
            cj_pubkeys := []; cj_signatures := []; cj_num_authorities := 0;
            cj_current_authority_set_hash := [] |}
  end.
Definition hinted_or (voters : list Bytes32) : Vars.Justification :=
  match hinted voters with
  | Ret j => j
  | _ => {| encoded_precommit := []; validator_signed := []; signatures := []; pubkeys := [];
            num_authorities := 0 |}
  end.

Lemma hint_satisfies_circuit_witness :
  verify_simple_justification 4 (λ _ _, hinted_or Sample.old_keys) 2
    (header_hash (bd_header (Sample.blocks !!! 2%nat))) 0
    (compute_authority_set_hash (take 3 (pubkeys (hinted_or Sample.old_keys)))) = Some ().
Proof.
  apply (hint_satisfies_circuit (H3 := Sample.node_of Sample.old_keys) "avail" 4 empty 2 0
    (hinted_or Sample.old_keys) (hinted_block Sample.old_keys));
    [by_decide || (vm_compute; reflexivity)..|].
  split_and!; [by_decide|reflexivity| |by_decide].
  exists 5. split; [by_decide|vm_compute; reflexivity].
Defined.

Lemma hint_exact_two_thirds_witness :
  verify_simple_justification 4 (λ _ _, hinted_or (take 2 Sample.old_keys)) 2
    (header_hash (bd_header (Sample.blocks !!! 2%nat))) 0
    (compute_authority_set_hash Sample.old_keys) = None.
Proof.
  apply (hint_exact_two_thirds (H3 := Sample.node_of (take 2 Sample.old_keys)) "avail" 4 empty 2 0);
    by_decide || (vm_compute; reflexivity).
Defined.
