(* ===== verification/Announcements.v ===== *)
(** * Announcements of authority sets in the headers of a chain

    Where the scheduled changes stand in a header's encoding, and that a rotation
    which reads one of them installs the set that the chain announces. *)

From S2P Require Import Prelude Consts Vars Builder Reference Decoder Offchain Justification.
From S2P Require Import Rotate Fetcher Hints.

Definition grandpa_engine : bytes := [70; 82; 78; 75].

(** ** Logs by position *)
Section Positions.
Context `{AvailNode}.

(** The offset of digest item [i] in the encoding of header [h], behind the parent
    hash, the number, the state root, the extrinsics root and the number of items. *)
Definition log_offset (h : AvailHeader) (i : nat) : nat :=
  (96 + length (Scale.compact_encode (number h))
   + length (Scale.compact_encode (Z.of_nat (length (digest_logs h))))
   + length (concat (map encode_log (take i (digest_logs h)))))%nat.

(** The byte after [start] is the first of a GRANDPA item of the header's digest. *)
Definition reads_item (h : AvailHeader) (start : nat) (i : nat) : bool :=
  match digest_logs h !! i with
  | Some (Consensus engine _) =>
      bool_decide (engine = grandpa_engine ∧ (start + 1)%nat = log_offset h i)
  | _ => false
  end.

Definition reads_log (h : AvailHeader) (start : nat) : bool :=
  existsb (reads_item h start) (seq 0 (length (digest_logs h))).

Lemma reads_log_Some h start :
  reads_log h start = true →
  ∃ before v after,
    digest_logs h = before ++ Consensus grandpa_engine v :: after
    ∧ (start + 1 = 96 + length (Scale.compact_encode (number h))
        + length (Scale.compact_encode (Z.of_nat (length (digest_logs h))))
        + length (concat (map encode_log before)))%nat.
Proof.
  intros (i & _ & Hi)%existsb_exists. unfold reads_item in Hi.
  destruct (digest_logs h !! i) as [[engine v|]|] eqn:E; [|done..].
  apply bool_decide_eq_true in Hi as [-> Hpos].
  exists (take i (digest_logs h)), v, (drop (S i) (digest_logs h)).
  split; [by rewrite take_drop_middle|exact Hpos].
Qed.
End Positions.

(** ** A chain that announces its sets *)

(** What a digest item of block [n] may be: a GRANDPA message with flag 1 is the
    scheduled change to the authorities after the block, where the epoch ends. *)
Definition announces_set `{AvailNode} (c : chain) (n : U32) (l : DigestItem) : Prop :=
  match l with
  | Consensus engine v =>
      engine = grandpa_engine →
      match v with
      | [] => False
      | flag :: _ =>
          flag = 1 → epoch_end c n ∧ v = scheduled_change_message (authorities_of c n)
      end
  | OtherItem _ => True
  end.

#[export] Instance announces_set_dec `{AvailNode} c n l : Decision (announces_set c n l).
Proof.
  unfold announces_set, epoch_end, last_justified.
  destruct l as [engine [|flag v]|]; apply _.
Defined.

(** The chain announces its sets, each of at most [MA] keys of 32 bytes. *)
Record announcing `{AvailNode} (MA : nat) (c : chain) : Prop := {
  an_logs n : 0 ≤ n ≤ ch_head c → Forall (announces_set c n) (digest_logs (header_at c n));
  an_fit n : 0 ≤ n ≤ ch_head c → (length (authorities_of c n) ≤ MA)%nat;
  an_keys n : 0 ≤ n ≤ ch_head c → Forall (λ k, length k = PUBKEY_LENGTH) (authorities_of c n);
}.

Section Reading.
Context `{CircuitBuilderLaws, AvailNode}.

(** The item whose first byte follows [start], in the bytes of the header. *)
Lemma reads_log_layout h start (Hlog : log_format) :
  header_format h → reads_log h start = true →
  ∃ v before skipped after, Consensus grandpa_engine v ∈ digest_logs h
    ∧ encode h = before ++ [skipped] ++ consensus_log v ++ after
    ∧ length before = start ∧ (4 ≤ length after)%nat.
Proof.
  intros [_ (xr & ext & Henc & Hxr) _ _ Hp Hs Hd] (logs & v & rest & El & Hpos)%reads_log_Some.
  set (pre := av_parent_hash h ++ Scale.compact_encode (number h) ++ av_state_root h ++ xr
    ++ Scale.compact_encode (Z.of_nat (length (digest_logs h))) ++ concat (map encode_log logs)).
  set (post := concat (map encode_log rest) ++ ext ++ av_data_root h).
  assert (length pre = S start) as Hpre.
  { unfold pre. rewrite !length_app, Hp, Hs, Hxr. consts. lia. }
  assert (encode h = pre ++ consensus_log v ++ post) as E.
  { rewrite Henc. unfold pre, post, consensus_log. rewrite El at 2. rewrite map_app, concat_app.
    cbn [map concat]. rewrite (lf_consensus Hlog). by rewrite <- !app_assoc. }
  clearbody pre. destruct pre as [|x pre' _] using rev_ind; [done|].
  rewrite length_app in Hpre. simpl in Hpre. exists v, pre', x, post. split_and!.
  - rewrite El. apply elem_of_app. right. by left.
  - by rewrite E, <- app_assoc.
  - lia.
  - unfold post. rewrite !length_app, Hd. consts. lia.
Qed.

(** A prefix that the circuit accepts there has the flag of the message. *)
Lemma log_prefix_flag before skipped v after num pos :
  let hb := before ++ [skipped] ++ consensus_log v ++ after in
  Forall is_u8 hb → Z.of_nat (length hb) < 2 ^ 32 → (4 ≤ length after)%nat →
  log_prefix hb (length before) num pos → v = [] ∨ ∃ w, v = 1 :: w.
Proof.
  intros hb Hu8 Hfit Hafter [_ _ (ml & k1 & k2 & Hread & Hone & _)].
  destruct v as [|flag w]; [by left|right]. exists w. f_equal.
  set (m := Scale.compact_encode (Z.of_nat (length (flag :: w)))) in *.
  assert (hb = (before ++ [skipped; 4; 70; 82; 78; 75]) ++ m ++ (flag :: w) ++ after) as E.
  { unfold hb, consensus_log. by rewrite <- !app_assoc. }
  assert (length (before ++ [skipped; 4; 70; 82; 78; 75]) = (length before + 6)%nat) as Hp
    by (by rewrite length_app).
  clearbody hb. pose proof Hu8 as Hparts. rewrite E in Hparts, Hfit.
  rewrite !Forall_app in Hparts. rewrite !length_app in Hfit.
  destruct Hparts as (_ & _ & Hv & Ha).
  replace (length before + 11)%nat with (length before + 6 + 5)%nat in Hread by lia.
  rewrite (compact_read_at hb _ ((flag :: w) ++ after) _ _ E Hp) in Hread.
  - injection Hread as _ <-.
    change (Scale.compact_encode _) with m in Hone. rewrite E, app_assoc in Hone.
    rewrite lookup_total_app_r in Hone by (rewrite length_app, Hp; lia).
    by rewrite length_app, Hp, Nat.sub_diag in Hone.
  - unfold is_u32. lia.
  - by apply Forall_app_2.
  - rewrite length_app. lia.
Qed.

(** A rotation that reads a log of its header installs the announced set. *)
Lemma announced_rotation L MA (c : chain) n hb size start num pos pks (Hlog : log_format) :
  chain_format L c → announcing MA c → 0 ≤ n ≤ ch_head c →
  Forall is_u8 hb → Z.of_nat (length hb) < 2 ^ 32 → take size hb = encode (header_at c n) →
  reads_log (header_at c n) start = true →
  length pks = MA → Forall (λ k, length k = PUBKEY_LENGTH) pks →
  log_prefix hb start num pos → authorities_at hb pos num pks →
  epoch_end c n ∧ take (Z.to_nat num) pks = authorities_of c n.
Proof.
  intros Hf Ha Hn Hu8 Hfit Hhb Hreads Hlen Hpks Hprefix Hat.
  destruct (reads_log_layout _ start Hlog (cf_header L c Hf n Hn) Hreads)
    as (v & before & skipped & after & Hin & E & <- & Hafter).
  assert (hb = before ++ [skipped] ++ consensus_log v ++ after ++ drop size hb) as Ehb.
  { rewrite <- (take_drop size hb) at 1. rewrite Hhb, E. by rewrite <- !app_assoc. }
  pose proof (an_logs MA c Ha n Hn) as Hlogs. rewrite Forall_forall in Hlogs.
  specialize (Hlogs _ Hin eq_refl).
  destruct (log_prefix_flag before skipped v (after ++ drop size hb) num pos) as [->|[w ->]];
    rewrite <- ?Ehb; try done; [rewrite length_app; lia|].
  destruct (Hlogs eq_refl) as [Hend Ev]. split; [done|]. rewrite Ev in Ehb.
  set (keys := authorities_of c n) in *. pose proof (an_keys MA c Ha n Hn) as Hkeys.
  pose proof (an_fit MA c Ha n Hn) as Hcap. fold keys in Hkeys, Hcap.
  assert (length keys ≤ length (scheduled_change_message keys) ≤ length hb)%nat as Hm.
  { rewrite Ehb. unfold consensus_log. rewrite !length_app.
    unfold scheduled_change_message at 1. rewrite !length_app, length_encode_authorities by done. lia. }
  destruct (log_layout_prefix hb (length before) keys keys) as (pos' & Hprefix' & Hat');
    [done|by exists before, skipped, (after ++ drop size hb)|done|unfold is_u32; lia
    |unfold is_u32; lia|by apply take_ge|].
  destruct (log_prefix_fun _ _ _ _ _ _ Hprefix Hprefix') as [-> ->].
  destruct Hat as [Hat _]. destruct Hat' as [Hat' _]. rewrite !Nat2Z.id in *.
  rewrite (take_ge keys) in Hat' by done. rewrite length_take, Nat.min_l in Hat by lia.
  apply encode_authorities_inj; [by apply Forall_take|done|by rewrite <- Hat, <- Hat'].
Qed.
End Reading.
