(* ===== verification/DataRoot.v ===== *)
(** * [RpcDataFetcher::check_data_commitment] of circuits/input/mod.rs

    A diagnostic for the assumption behind [DATA_ROOT_OFFSET_FROM_END]: it looks for
    the data root of a header in the header's encoding and prints its position. *)

From S2P Require Import Prelude Consts Vars Builder Reference Decoder Offchain Justification.
From S2P Require Import Rotate Subchain Types Redis Fetcher Hints.

(** What it prints. *)
Record DataRootReport := {
  dr_data_root : bytes;
  dr_encoded_header : bytes;
  dr_index : Z;
}.

(** ** Operations *)

(** [as i32]. *)
Definition as_i32 (n : Z) : Z :=
  let m := n mod 2 ^ 32 in if decide (m < 2 ^ 31) then m else m - 2 ^ 32.

(** The loop over the positions, which stops at the first match. *)
Fixpoint search_data_root (encoded data_root : bytes) (positions : list nat) : outcome Z :=
  match positions with
  | [] => Ret (-1)
  | i :: positions' =>
      window ← slice_checked encoded i (i + HASH_SIZE);
      if decide (window = data_root) then Ret (as_i32 (Z.of_nat i))
      else search_data_root encoded data_root positions'
  end.

Definition check_data_commitment `{AvailNode} (block : U32) : outcome DataRootReport :=
  _ ← unwrap refresh_ws_connection;
  header ← get_header block;
  let data_root := av_data_root header in
  let encoded := encode header in
  last ← checked_sub (Z.of_nat (length encoded)) (Z.of_nat HASH_SIZE);
  index ← search_data_root encoded data_root (seq 0 (Z.to_nat last + 1));
  Ret {| dr_data_root := data_root; dr_encoded_header := encoded; dr_index := index |}.

(** ** Helper lemmas *)
Lemma as_i32_small n : 0 ≤ n < 2 ^ 31 → as_i32 n = n.
Proof. intros. unfold as_i32. rewrite Z.mod_small by lia. by rewrite decide_True by lia. Qed.

(** The search finds the first of the positions, if there is one among them. *)
Lemma search_data_root_run encoded root a k m :
  (a + k + HASH_SIZE ≤ length encoded)%nat → Z.of_nat (length encoded) < 2 ^ 31 →
  (a ≤ m < a + k + 1)%nat → encoded.[m to m + HASH_SIZE] = root →
  ∃ i, (a ≤ i ≤ m)%nat ∧ search_data_root encoded root (seq a (k + 1)) = Ret (Z.of_nat i)
    ∧ encoded.[i to i + HASH_SIZE] = root
    ∧ ∀ j, (a ≤ j < i)%nat → encoded.[j to j + HASH_SIZE] ≠ root.
Proof.
  intros Hlen Hmax. revert a Hlen. induction k as [|k IH]; intros a Hlen Hm Hroot.
  all: cbn [Nat.add seq search_data_root]; unfold slice_checked; rewrite decide_True by lia;
    cbn [mbind outcome_bind]; case_decide as E.
  1, 3: exists a; rewrite as_i32_small by lia; split_and!; [lia|lia|done|done|lia].
  - replace m with a in Hroot by lia. done.
  - destruct (IH (S a)) as (i & Hi & Hrun & Ei & Hfirst); [lia| |done|].
    { destruct (decide (m = a)) as [->|]; [done|lia]. }
    exists i. split_and!; [lia|lia|done|done|]. intros j Hj.
    destruct (decide (j = a)) as [->|]; [done|]. apply Hfirst. lia.
Qed.

(** ** Properties *)

(** On a served chain the report gives the first position of the data root in
    the header's encoding, and that is at or before the place at the end where the
    circuit reads it. *)
Theorem check_data_commitment_spec `{Hashing, AvailNode} L c block :
  serves c → chain_format L c → Z.of_nat L < 2 ^ 31 → 0 ≤ block ≤ ch_head c →
  let h := header_at c block in let encoded := encode h in
  ∃ i, check_data_commitment block =
      Ret {| dr_data_root := av_data_root h; dr_encoded_header := encoded; dr_index := Z.of_nat i |}
    ∧ (i + HASH_SIZE ≤ length encoded)%nat ∧ encoded.[i to i + HASH_SIZE] = av_data_root h
    ∧ (∀ j, (j < i)%nat → encoded.[j to j + HASH_SIZE] ≠ av_data_root h)
    ∧ encoded.[length encoded - HASH_SIZE to length encoded] = av_data_root h.
Proof.
  intros Hc Hf HL Hb h encoded. pose proof (cf_header L c Hf block Hb) as Hh.
  pose proof (cf_fits L c Hf block Hb) as Hfit. fold h in Hh, Hfit. fold encoded in Hfit.
  assert (∃ front, encoded = front ++ av_data_root h) as [front Efront].
  { destruct (hf_layout _ Hh) as (er & ext & E & _). unfold encoded. rewrite E, !app_assoc. by eexists. }
  pose proof (hf_data_root _ Hh) as Hroot.
  assert (length encoded = length front + HASH_SIZE)%nat as Hlen
    by (rewrite Efront, length_app; lia).
  assert (encoded.[length front to length front + HASH_SIZE] = av_data_root h) as Hend.
  { rewrite Efront, <- (app_nil_r (av_data_root h)) at 1. apply slice_at; lia. }
  destruct (search_data_root_run encoded (av_data_root h) 0 (length front) (length front))
    as (i & Hi & Hrun & Ei & Hfirst); [lia|lia|lia|done|].
  exists i. split.
  - unfold check_data_commitment. rewrite (sv_connected c Hc). cbn [unwrap mbind outcome_bind].
    rewrite (get_header_run c Hc) by done. cbn [mbind outcome_bind]. fold h encoded.
    rewrite checked_sub_Ret by lia. cbn [mbind outcome_bind].
    replace (Z.to_nat (Z.of_nat (length encoded) - Z.of_nat HASH_SIZE)) with (length front) by lia.
    by rewrite Hrun.
  - split_and!; [lia|done|intros; apply Hfirst; lia|].
    replace (length encoded - HASH_SIZE)%nat with (length front) by lia. by rewrite Hlen.
Qed.

(** ** Witnesses *)
Import Ref RefNode RefRedis Sample.

Lemma check_data_commitment_spec_witness :
  ∃ i, check_data_commitment (H := node_of old_keys) 3 =
      Ret {| dr_data_root := h_data_root (header_at (chain_of old_keys) 3);
             dr_encoded_header := encode (AvailNode := node_of old_keys) (header_at (chain_of old_keys) 3);
             dr_index := Z.of_nat i |}.
Proof.
  destruct (check_data_commitment_spec (H0 := node_of old_keys) 400 (chain_of old_keys) 3)
    as (i & Hrun & _).
  - apply chain_serves.
  - apply chain_formatted.
  - lia.
  - by_decide.
  - by exists i.
Defined.
