(* ===== verification/Circuits.v ===== *)
(** * The circuits and their dummies

    [HeaderRangeCircuit] (circuits/header_range.rs) and [RotateCircuit]
    (circuits/rotate.rs) put the gadgets together; [DummyHeaderRange] and
    [DummyRotate] (circuits/dummy_header_range.rs, dummy_rotate.rs) compute the
    same outputs without a proof. *)

From S2P Require Import Prelude Consts Vars Builder Reference Decoder Offchain Justification.
From S2P Require Import Rotate Subchain Types Redis Fetcher Hints.

(** ** The circuits *)
Module HeaderRangeCircuit.
Section Define.
Context `{CircuitBuilder}.

(** The outputs: target header hash, state and data root commitments. *)
Definition define (MAX_AUTHORITY_SET_SIZE MAX_NUM_HEADERS : nat)
    (header_hint : U32 → U32 → U32 → list EncodedHeader)
    (justification_hint : U32 → U64 → Vars.Justification)
    (trusted_block : U32) (trusted_header_hash : Bytes32) (authority_set_id : U64)
    (authority_set_hash : Bytes32) (target_block : U32) : option (Bytes32 * Bytes32 * Bytes32) :=
  subchain_output ←
    verify_subchain MAX_NUM_HEADERS header_hint trusted_block trusted_header_hash target_block;
  _ ← verify_simple_justification MAX_AUTHORITY_SET_SIZE justification_hint target_block
        (target_header_hash subchain_output) authority_set_id authority_set_hash;
  Some (target_header_hash subchain_output, state_root_merkle_root subchain_output,
        data_root_merkle_root subchain_output).
End Define.
End HeaderRangeCircuit.

Module RotateCircuit.
Section Define.
Context `{CircuitBuilder}.

Definition define (MAX_AUTHORITY_SET_SIZE MAX_SUBARRAY_SIZE : nat)
    (rotate_hint : U64 → Vars.Rotate) (justification_hint : U32 → U64 → Vars.Justification)
    (authority_set_id : U64) (authority_set_hash : Bytes32) : option Bytes32 :=
  let rotate_var := rotate_hint authority_set_id in
  rotate MAX_AUTHORITY_SET_SIZE MAX_SUBARRAY_SIZE justification_hint
    authority_set_id authority_set_hash rotate_var.
End Define.
End RotateCircuit.

(** ** The dummies *)
Module DummyHeaderRange.
Section Run.
Context `{Hashing, AvailNode}.

Definition run (HEADER_RANGE_COMMITMENT_TREE_SIZE : U32) (input_bytes : bytes) : outcome bytes :=
  trusted_block ← slice_checked input_bytes 0 4;
  let trusted_block := be_decode trusted_block in
  _trusted_header_hash ← slice_checked input_bytes 4 36;
  _authority_set_id ← slice_checked input_bytes 36 44;
  _authority_set_hash ← slice_checked input_bytes 44 76;
  target_block ← slice_checked input_bytes 76 80;
  let target_block := be_decode target_block in
  target_header ← get_header target_block;
  '(state_merkle_root, data_merkle_root) ←
    get_merkle_root_commitments HEADER_RANGE_COMMITMENT_TREE_SIZE trusted_block target_block;
  Ret (hash target_header ++ state_merkle_root ++ data_merkle_root).
End Run.
End DummyHeaderRange.

Module DummyRotate.
Section Run.
Context `{Hashing, AvailNode}.

Definition run (input_bytes : bytes) : outcome bytes :=
  authority_set_id ← slice_checked input_bytes 0 8;
  let authority_set_id := be_decode authority_set_id in
  _authority_set_hash ← slice_checked input_bytes 8 40;
  epoch_end_block_number ← last_justified_block authority_set_id;
  fetch_authority_set_hash epoch_end_block_number.
End Run.
End DummyRotate.

(** ** Inputs, packed as the EVM sees them *)
Definition be_encode (k : nat) (n : Z) : bytes := reverse (le_encode k n).

Definition header_range_input (trusted : U32) (trusted_hash : Bytes32) (id : U64)
    (set_hash : Bytes32) (target : U32) : bytes :=
  be_encode 4 trusted ++ trusted_hash ++ be_encode 8 id ++ set_hash ++ be_encode 4 target.
Definition rotate_input (id : U64) (set_hash : Bytes32) : bytes := be_encode 8 id ++ set_hash.

(** ** Helper lemmas *)
Lemma length_be_encode k n : length (be_encode k n) = k.
Proof. unfold be_encode. by rewrite length_reverse, length_le_encode. Qed.

Lemma be_decode_encode k n :
  0 ≤ n < 2 ^ (8 * Z.of_nat k) → be_decode (be_encode k n) = n.
Proof.
  intros. unfold be_decode, be_encode. rewrite reverse_involutive, le_decode_encode.
  by apply Z.mod_small.
Qed.

(** A field of a packed input. *)
Lemma slice_checked_at {A} (p l s : list A) a b :
  a = length p → b = (length p + length l)%nat → slice_checked (p ++ l ++ s) a b = Ret l.
Proof.
  intros Ha Hb. unfold slice_checked. rewrite decide_True by (rewrite !length_app; lia).
  by rewrite slice_at.
Qed.

Lemma jobs_pow MAX : (HEADERS_PER_MAP * jobs MAX)%nat = (2 ^ (3 + jobs_depth MAX))%nat.
Proof. unfold next_power_of_two, jobs_depth. by rewrite Nat.pow_add_r. Qed.

Lemma dummy_header_range_input size trusted th id sh target `{Hashing, AvailNode} :
  is_u32 trusted → is_u32 target → length th = 32%nat → length sh = 32%nat →
  DummyHeaderRange.run size (header_range_input trusted th id sh target) =
  (target_header ← get_header target;
   '(state, data) ← get_merkle_root_commitments size trusted target;
   Ret (hash target_header ++ state ++ data)).
Proof.
  intros Ht Htg Hth Hsh. unfold DummyHeaderRange.run, header_range_input.
  remember (be_encode 4 trusted) as t eqn:Et. remember (be_encode 8 id) as i eqn:Ei.
  remember (be_encode 4 target) as g eqn:Eg.
  assert (length t = 4%nat ∧ length i = 8%nat ∧ length g = 4%nat) as (Elt & Eli & Elg)
    by (subst; split_and!; apply length_be_encode).
  assert (∀ p l s a b, t ++ th ++ i ++ sh ++ g = p ++ l ++ s → a = length p →
    b = (length p + length l)%nat → slice_checked (t ++ th ++ i ++ sh ++ g) a b = Ret l) as Hat
    by (intros p l s a b ->; apply slice_checked_at).
  rewrite (Hat [] t (th ++ i ++ sh ++ g) 0%nat 4%nat), (Hat t th (i ++ sh ++ g) 4%nat 36%nat),
    (Hat (t ++ th) i (sh ++ g) 36%nat 44%nat), (Hat (t ++ th ++ i) sh g 44%nat 76%nat),
    (Hat (t ++ th ++ i ++ sh) g [] 76%nat 80%nat)
    by (rewrite <- ?app_assoc, ?app_nil_r; rewrite ?length_app; cbn [length]; done || lia).
  cbn [mbind outcome_bind]. rewrite Et, Eg. unfold is_u32 in *.
  by rewrite !be_decode_encode by (simpl; lia).
Qed.

Lemma dummy_rotate_input id sh `{Hashing, AvailNode} :
  is_u64 id → length sh = 32%nat →
  DummyRotate.run (rotate_input id sh) =
  (n ← last_justified_block id; fetch_authority_set_hash n).
Proof.
  intros Hid Hsh. unfold DummyRotate.run, rotate_input.
  pose proof (length_be_encode 8 id) as Hl.
  assert (slice_checked (be_encode 8 id ++ sh) 0 8 = Ret (be_encode 8 id)) as ->
    by (apply (slice_checked_at [] _ sh); rewrite ?Hl; done).
  assert (slice_checked (be_encode 8 id ++ sh) 8 40 = Ret sh) as ->.
  { rewrite <- (app_nil_r sh) at 1. apply slice_checked_at; lia. }
  cbn [mbind outcome_bind]. by rewrite be_decode_encode by (unfold is_u64 in Hid; simpl; lia).
Qed.

(** ** Served chains *)
Section Served.
Context `{CircuitBuilderLaws, !HashingLaws, DummyValues, AvailNode}.
Context (L : nat) (c : chain) (Hc : serves c) (Hf : chain_format L c).

Lemma last_hash_served trusted target h :
  0 ≤ trusted < target → last_hash h (served_chain L c trusted target) = hash (header_at c target).
Proof.
  intros Ht. unfold served_chain.
  replace (target - trusted) with (target - trusted - 1 + 1) by lia.
  rewrite seqZ_app, map_app by lia.
  change (seqZ (trusted + 1 + (target - trusted - 1)) 1) with [trusted + 1 + (target - trusted - 1)].
  cbn [map]. rewrite last_hash_snoc. cbn. do 2 f_equal. lia.
Qed.

(** The roots of the served chain are those that the fetcher commits to. *)
Lemma served_commitments MAX trusted target out h :
  0 ≤ trusted < target → target ≤ ch_head c → (3 + jobs_depth MAX < 31)%nat →
  target - trusted ≤ Z.of_nat (HEADERS_PER_MAP * jobs MAX) →
  commits_to MAX out h (served_chain L c trusted target) →
  get_merkle_root_commitments (2 ^ Z.of_nat (3 + jobs_depth MAX)) trusted target
  = Ret (state_root_merkle_root out, data_root_merkle_root out).
Proof.
  intros Ht Htg Hd Hfit [_ Hs Hdr]. rewrite jobs_pow in Hfit, Hs, Hdr.
  rewrite Nat2Z.inj_pow in Hfit.
  rewrite (get_merkle_root_commitments_run c Hc) by lia.
  rewrite Hs, Hdr. unfold served_chain. by rewrite !map_map.
Qed.

(** A reachable range has roots that commit to it. *)
Lemma served_outputs MAX trusted target :
  MIN_HEADER_SIZE ≤ Z.of_nat L → 0 ≤ trusted < target → target ≤ ch_head c →
  trusted + Z.of_nat (HEADERS_PER_MAP * jobs MAX) < 2 ^ 32 →
  target - trusted ≤ Z.of_nat (HEADERS_PER_MAP * jobs MAX) →
  ∃ sr dr, commits_to MAX {| target_header_hash := hash (header_at c target);
      state_root_merkle_root := sr; data_root_merkle_root := dr |}
    (hash (header_at c trusted)) (served_chain L c trusted target).
Proof.
  intros HL Ht Htg Hroom Hfit.
  destruct (verify_subchain_served L c Hc Hf HL MAX trusted target) as ([h sr dr] & _ & Hct); [done..|].
  pose proof (ct_target _ _ _ _ Hct) as Htarget. rewrite last_hash_served in Htarget by done.
  cbn in Htarget. subst h. by exists sr, dr.
Qed.

Lemma header_range_run MA MAX jh trusted id sh target h sr dr :
  MIN_HEADER_SIZE ≤ Z.of_nat L → 0 ≤ trusted < target → target ≤ ch_head c →
  trusted + Z.of_nat (HEADERS_PER_MAP * jobs MAX) < 2 ^ 32 →
  target - trusted ≤ Z.of_nat (HEADERS_PER_MAP * jobs MAX) →
  justification_bounds MA (jh target id) → is_u64 id →
  let out := {| target_header_hash := h; state_root_merkle_root := sr;
                data_root_merkle_root := dr |} in
  let th := hash (header_at c trusted) in
  HeaderRangeCircuit.define MA MAX (range_hint L) jh trusted th id sh target = Some (h, sr, dr)
  ↔ justification_valid (jh target id) target (hash (header_at c target)) id sh
    ∧ commits_to MAX out th (served_chain L c trusted target).
Proof.
  intros HL Ht Htg Hroom Hfit Hjb Hid out th. unfold HeaderRangeCircuit.define.
  destruct (verify_subchain_served L c Hc Hf HL MAX trusted target)
    as (o & Ho & Hct); [done..|].
  fold th in Ho, Hct. rewrite Ho. cbn [mbind option_bind].
  pose proof (ct_target _ _ _ _ Hct) as Htarget. rewrite last_hash_served in Htarget by done.
  rewrite Htarget. pose proof (sv_range c Hc).
  assert (is_u32 target) as Hu by (unfold is_u32; lia). rewrite bind_Some. split.
  - intros ([] & Hj & [= <- <- <-]). apply verify_simple_justification_run in Hj; [|done..].
    split; [done|]. unfold out. rewrite <- Htarget. by destruct o.
  - intros [Hj Hct']. exists (). split; [by apply verify_simple_justification_run|].
    destruct Hct as [_ E2 E3], Hct' as [E1' E2' E3']. cbn in E1', E2', E3'.
    rewrite last_hash_served in E1' by done. rewrite E1', E2', E3', E2, E3. done.
Qed.

(** The dummy on a served range outputs what commits to it. *)
Lemma dummy_header_range_run MAX trusted target id sh h sr dr :
  0 ≤ trusted < target → target ≤ ch_head c → (3 + jobs_depth MAX < 31)%nat →
  target - trusted ≤ Z.of_nat (HEADERS_PER_MAP * jobs MAX) → length sh = 32%nat →
  let th := hash (header_at c trusted) in
  commits_to MAX {| target_header_hash := h; state_root_merkle_root := sr;
                    data_root_merkle_root := dr |} th (served_chain L c trusted target) →
  DummyHeaderRange.run (2 ^ Z.of_nat (3 + jobs_depth MAX)) (header_range_input trusted th id sh target)
  = Ret (h ++ sr ++ dr).
Proof.
  intros Ht Htg Hd Hfit Hsh th Hct. pose proof (sv_range c Hc).
  rewrite dummy_header_range_input; [|unfold is_u32; lia|unfold is_u32; lia| |done].
  2: { unfold th. rewrite (hf_hash _ (cf_header L c Hf trusted ltac:(lia))). apply length_blake2_256. }
  rewrite (get_header_run c Hc) by lia. cbn [mbind outcome_bind].
  rewrite (served_commitments MAX trusted target _ _ Ht Htg Hd Hfit Hct).
  cbn [mbind outcome_bind state_root_merkle_root data_root_merkle_root].
  pose proof (ct_target _ _ _ _ Hct) as Htarget. rewrite last_hash_served in Htarget by done.
  cbn in Htarget. by rewrite Htarget.
Qed.

(** The rotate hint finds the epoch end block and its log. *)
Lemma last_justified_u64 (He : epochs c) id n :
  last_justified c id n → 0 < n ≤ ch_head c ∧ 0 ≤ id ∧ id + 1 < 2 ^ 64.
Proof.
  intros (Hn & _ & <-). pose proof (sv_range c Hc).
  pose proof (set_id_bound c He (n - 1)). pose proof (set_id_nonneg c He (n - 1)). lia.
Qed.

Lemma rotate_hint_run MAX (He : epochs c) (Hlog : log_format) id n :
  last_justified c id n → rotates MAX c n → 40 * Z.of_nat MAX < 2 ^ 31 →
  ∃ p, RotateHint L MAX id = Ret (rotation L MAX c n p)
    ∧ log_layout (header_bytes (padded_header L (header_at c n))) p (authorities_of c n)
    ∧ (p ≤ length (encode (header_at c n)))%nat.
Proof.
  intros Hlast Hro HM. destruct (last_justified_u64 He id n Hlast) as (Hn & ? & ?).
  by apply (RotateHint_run L MAX c Hc He Hf Hlog).
Qed.

(** The circuit on the data of a rotation. *)
Lemma rotate_circuit_run MAX (He : epochs c) jh id sh n p rotate_hint new_hash :
  last_justified c id n → rotates MAX c n → length DUMMY_PUBLIC_KEY = PUBKEY_LENGTH →
  (length (encode (header_at c n)) + MAX_PREFIX_LENGTH + (MAX * VALIDATOR_LENGTH + DELAY_LENGTH)
     ≤ L)%nat → 40 * Z.of_nat MAX < 2 ^ 31 → justification_bounds MAX (jh n id) →
  log_layout (header_bytes (padded_header L (header_at c n))) p (authorities_of c n) →
  (p ≤ length (encode (header_at c n)))%nat → rotate_hint id = rotation L MAX c n p →
  RotateCircuit.define MAX (MAX * VALIDATOR_LENGTH + DELAY_LENGTH) rotate_hint jh id sh
    = Some new_hash
  ↔ justification_valid (jh n id) n (hash (header_at c n)) id sh
    ∧ new_hash = compute_authority_set_hash (authorities_of c n).
Proof.
  intros Hlast Hro Hdummy Hroom HM Hjb Hlay Hp Hrh. pose proof (sv_range c Hc).
  pose proof (cf_array L c Hf). destruct (last_justified_u64 He id n Hlast) as (Hn & ? & ?).
  pose proof (cf_fits L c Hf n ltac:(lia)) as Hfit.
  pose proof (rotation_bounds L MAX c Hf n p Hro Hdummy ltac:(lia)) as Hbounds. cbv zeta in Hbounds.
  assert (hash (header_at c n) = blake2_256 (take (Z.to_nat (header_size (padded_header L (header_at c n))))
    (header_bytes (padded_header L (header_at c n))))) as Ehash.
  { rewrite (hf_hash _ (cf_header L c Hf n ltac:(lia))). cbn.
    by rewrite Nat2Z.id, take_app_length. }
  unfold RotateCircuit.define. rewrite Hrh, rotate_run; try done.
  2: { cbn. unfold is_u32. lia. }
  2: { unfold is_u64. lia. }
  2: { cbn. rewrite length_app, length_replicate. lia. }
  change (target_header_num_authorities _) with (Z.of_nat (length (authorities_of c n))).
  change (epoch_end_block_number _) with n. change (target_header _) with (padded_header L (header_at c n)).
  change (next_authority_set_start_position _) with (Z.of_nat p). destruct Hro.
  assert (take (length (authorities_of c n)) (new_pubkeys (rotation L MAX c n p)) = authorities_of c n)
    as Etake by apply take_app_length.
  rewrite !Nat2Z.id, Etake, <- Ehash. split; [naive_solver|]. intros [Hj ->].
  split_and!; [done| | |done].
  - destruct (authorities_of c n); simpl; [done|lia].
  - apply log_layout_prefix; try done; [apply Hbounds| |unfold is_u32; lia].
    unfold is_u32, scheduled_change_message. rewrite !length_app, length_encode_authorities by done.
    pose proof (length_compact_encode (Z.of_nat (length (authorities_of c n)))).
    consts. simpl. lia.
Qed.

Lemma dummy_rotate_run (He : epochs c) id sh n MAX :
  last_justified c id n → rotates MAX c n → length sh = 32%nat →
  DummyRotate.run (rotate_input id sh) = Ret (compute_authority_set_hash (authorities_of c n)).
Proof.
  intros Hlast Hro Hsh. destruct (last_justified_u64 He id n Hlast) as (Hn & ? & ?).
  rewrite dummy_rotate_input by (done || (unfold is_u64; lia)).
  rewrite (last_justified_block_found c Hc He id n) by (done || lia).
  cbn [mbind outcome_bind]. unfold fetch_authority_set_hash.
  rewrite (get_authorities_run c Hc) by lia. cbn [mbind outcome_bind].
  rewrite bool_decide_eq_true_2; [done|].
  rewrite length_authority_set_hash, decide_False by apply Hro. done.
Qed.
End Served.

(** The chain and the justification behind an accepted range. *)
Section Behind.
Context `{CircuitBuilderLaws}.

Lemma header_range_behind MA MAX hh jh trusted th id sh target h sr dr :
  subchain_bounds MAX hh trusted target → trusted < target →
  justification_bounds MA (jh target id) → is_u64 id →
  HeaderRangeCircuit.define MA MAX hh jh trusted th id sh target = Some (h, sr, dr) →
  (∃ used, Forall authentic used ∧ linked trusted th used
    ∧ Z.of_nat (length used) = target - trusted
    ∧ commits_to MAX {| target_header_hash := h; state_root_merkle_root := sr;
                        data_root_merkle_root := dr |} th used
    ∧ Forall (λ b, from_hint hh (bk_header b)) used)
  ∧ justification_valid (jh target id) target h id sh.
Proof.
  intros Hb Hlt Hjb Hid Hrun. unfold HeaderRangeCircuit.define in Hrun.
  apply bind_Some in Hrun as (o & Ho & Hrun). apply bind_Some in Hrun as ([] & Hj & [= <- <- <-]).
  apply verify_subchain_chain in Ho as (used & Ha & Hl & Hlen & _ & Hct & Hin); [|done..].
  split; [exists used; split_and!; try done; by destruct o|].
  by apply verify_simple_justification_run in Hj; [|done|apply Hb|].
Qed.
End Behind.

(** ** Properties *)
Section Properties.
Context `{CircuitBuilderLaws, !HashingLaws, DummyValues, AvailNode}.

(** C3: soundness of the header range circuit for a target ahead of the trusted
    block, and for every pair of hints whose data has the sizes of the circuit's
    types.  Behind its outputs is a chain of exactly [target - trusted] headers,
    linked from the trusted hash, whose last hash is justified as block [target]
    under the trusted authority set hash, and the roots are those of the chain.
    The justification carries valid signatures from more than two thirds of a set
    with that hash, unless it is one whose votes the threshold does not count. *)
Theorem header_range_sound MA MAX hh jh trusted th id sh target h sr dr :
  let j := jh target id in
  subchain_bounds MAX hh trusted target → trusted < target →
  justification_bounds MA j → is_u64 id →
  HeaderRangeCircuit.define MA MAX hh jh trusted th id sh target = Some (h, sr, dr) →
  (∃ used, Forall authentic used ∧ linked trusted th used
    ∧ Z.of_nat (length used) = target - trusted
    ∧ commits_to MAX {| target_header_hash := h; state_root_merkle_root := sr;
                        data_root_merkle_root := dr |} th used)
  ∧ justification_valid j target h id sh
  ∧ ((∃ auths, compute_authority_set_hash auths = sh
       ∧ supermajority_signed auths (encoded_precommit j) (validator_signed j) (signatures j))
     ∨ miscounted j).
Proof.
  intros j Hb Hlt Hjb Hid Hrun.
  destruct (header_range_behind MA MAX hh jh trusted th id sh target h sr dr)
    as [(used & ? & ? & ? & ? & _) Hv]; [done..|]. split_and!; [by exists used|done|].
  destruct (decide (miscounted j)) as [Hmis|Hmis]; [by right|left].
  exists (take (Z.to_nat (num_authorities j)) (pubkeys j)).
  split; [by rewrite (valid_commitment _ _ _ _ _ Hv)|by eapply valid_supermajority].
Qed.

(** On a chain that the node serves, with the header range hint, the circuit
    accepts a reachable range from the hash of its trusted block exactly when the
    target block is justified, and then it outputs the target's hash and the roots
    of the range. *)
Theorem header_range_served L c MA MAX jh trusted id sh target h sr dr :
  serves c → chain_format L c → MIN_HEADER_SIZE ≤ Z.of_nat L →
  0 ≤ trusted < target → target ≤ ch_head c →
  trusted + Z.of_nat (HEADERS_PER_MAP * jobs MAX) < 2 ^ 32 →
  target - trusted ≤ Z.of_nat (HEADERS_PER_MAP * jobs MAX) →
  justification_bounds MA (jh target id) → is_u64 id →
  let th := hash (header_at c trusted) in
  HeaderRangeCircuit.define MA MAX (range_hint L) jh trusted th id sh target = Some (h, sr, dr)
  ↔ justification_valid (jh target id) target (hash (header_at c target)) id sh
    ∧ commits_to MAX {| target_header_hash := h; state_root_merkle_root := sr;
                        data_root_merkle_root := dr |} th (served_chain L c trusted target).
Proof. intros. by apply header_range_run. Qed.

(** C17: the dummy computes what the circuit outputs.  When the header range
    circuit accepts a range of a served chain, [DummyHeaderRange::run] on the same
    packed inputs, for the tree size of the circuit, returns the same bytes. *)
Theorem dummy_header_range_agrees L c MA MAX jh trusted id sh target h sr dr :
  serves c → chain_format L c → MIN_HEADER_SIZE ≤ Z.of_nat L →
  0 ≤ trusted < target → target ≤ ch_head c → (3 + jobs_depth MAX < 31)%nat →
  trusted + Z.of_nat (HEADERS_PER_MAP * jobs MAX) < 2 ^ 32 →
  target - trusted ≤ Z.of_nat (HEADERS_PER_MAP * jobs MAX) →
  justification_bounds MA (jh target id) → is_u64 id → length sh = 32%nat →
  let th := hash (header_at c trusted) in
  HeaderRangeCircuit.define MA MAX (range_hint L) jh trusted th id sh target = Some (h, sr, dr) →
  DummyHeaderRange.run (2 ^ Z.of_nat (3 + jobs_depth MAX)) (header_range_input trusted th id sh target)
  = Ret (h ++ sr ++ dr).
Proof.
  intros Hc Hf HL Ht Htg Hd Hroom Hfit Hjb Hid Hsh th Hrun.
  apply header_range_run in Hrun as [_ Hct]; try done. fold th in Hct.
  by apply (dummy_header_range_run L c Hc Hf).
Qed.

(** C18: the rotate circuit on a served chain.  The rotate hint returns data with
    which the circuit accepts exactly when the epoch end block of the set is
    justified under the current set; it outputs the authority set hash of the
    authorities that the block's state holds, and [DummyRotate::run] on the same
    inputs returns that hash. *)
Theorem rotate_served L MAX c jh id sh n :
  serves c → epochs c → chain_format L c → log_format →
  last_justified c id n → rotates MAX c n → length DUMMY_PUBLIC_KEY = PUBKEY_LENGTH →
  (length (encode (header_at c n)) + MAX_PREFIX_LENGTH + (MAX * VALIDATOR_LENGTH + DELAY_LENGTH)
     ≤ L)%nat → 40 * Z.of_nat MAX < 2 ^ 31 →
  justification_bounds MAX (jh n id) → length sh = 32%nat →
  ∃ r, RotateHint L MAX id = Ret r
    ∧ (∀ rotate_hint new_hash, rotate_hint id = r →
        RotateCircuit.define MAX (MAX * VALIDATOR_LENGTH + DELAY_LENGTH) rotate_hint jh id sh
          = Some new_hash
        ↔ justification_valid (jh n id) n (hash (header_at c n)) id sh
          ∧ new_hash = compute_authority_set_hash (authorities_of c n))
    ∧ DummyRotate.run (rotate_input id sh)
      = Ret (compute_authority_set_hash (authorities_of c n)).
Proof.
  intros Hc He Hf Hlog Hlast Hro Hdummy Hroom HM Hjb Hsh.
  destruct (rotate_hint_run L c Hc Hf MAX He Hlog id n) as (p & Hrun & Hlay & Hp); [done..|].
  exists (rotation L MAX c n p). split_and!; [done| |by apply (dummy_rotate_run c Hc He id sh n MAX)].
  intros. by apply (rotate_circuit_run L c Hc Hf MAX He jh id sh n p).
Qed.
End Properties.

(** ** Witnesses *)
Import Ref RefNode RefRedis Sample.
#[local] Instance sample_node : AvailNode := node_of old_keys.

(** Justifications of the sample chain: every authority of the set signs. *)
Definition signed_by (keys : list Bytes32) (n : U32) (id : U64) : Vars.Justification :=
  let message := encode_precommit {| pc_block_hash := hash (header_at (chain_of old_keys) n);
    pc_block_number := n; pc_justification_round := 9; pc_authority_set_id := id |} in
  {| encoded_precommit := message; validator_signed := map (λ _, true) keys;
     signatures := map (λ pk, sign pk message) keys; pubkeys := keys;
     num_authorities := Z.of_nat (length keys) |}.

Lemma range_hint_sample : subchain_bounds 16 (range_hint 400) 0 3.
Proof.
  apply (range_hint_bounds 400 (chain_of old_keys)); try by_decide.
  - apply chain_serves.
  - apply chain_formatted.
Qed.

(** The hash of block 3 and the roots of blocks 1 to 3. *)
Definition hash3 : Bytes32 := hash (header_at (chain_of old_keys) 3).
Definition roots3 (root : header → Bytes32) : Bytes32 :=
  merkle_root 4 (padded 16 (map (λ n, root (header_at (chain_of old_keys) n)) [1; 2; 3])).
Definition state3 : Bytes32 := roots3 h_state_root.
Definition data3 : Bytes32 := roots3 h_data_root.

Lemma header_range_sound_witness :
  (∃ used, Forall authentic used
    ∧ linked 0 (hash (header_at (chain_of old_keys) 0)) used
    ∧ Z.of_nat (length used) = 3 - 0
    ∧ commits_to 16 {| target_header_hash := hash3;
        state_root_merkle_root := state3; data_root_merkle_root := data3 |}
        (hash (header_at (chain_of old_keys) 0)) used)
  ∧ ∃ auths, compute_authority_set_hash auths = compute_authority_set_hash new_keys
      ∧ let j := signed_by new_keys 3 1 in
        supermajority_signed auths (encoded_precommit j) (validator_signed j) (signatures j).
Proof.
  destruct (header_range_sound 2 16 (range_hint 400) (signed_by new_keys) 0
    (hash (header_at (chain_of old_keys) 0)) 1
    (compute_authority_set_hash new_keys) 3 hash3 state3 data3) as (Hused & _ & [Hsup|Hmis]);
    [exact range_hint_sample|lia| |by_decide|vm_compute; reflexivity|by split|].
  - split; try by_decide. split; by_decide.
  - exfalso. revert Hmis. by_decide.
Defined.

Lemma header_range_served_witness :
  HeaderRangeCircuit.define 2 16 (range_hint 400) (signed_by new_keys) 0
    (hash (header_at (chain_of old_keys) 0)) 1 (compute_authority_set_hash new_keys) 3
    = Some (hash3, state3, data3)
  ↔ justification_valid (signed_by new_keys 3 1) 3 (hash (header_at (chain_of old_keys) 3)) 1
      (compute_authority_set_hash new_keys)
    ∧ commits_to 16 {| target_header_hash := hash3;
        state_root_merkle_root := state3; data_root_merkle_root := data3 |}
        (hash (header_at (chain_of old_keys) 0)) (served_chain 400 (chain_of old_keys) 0 3).
Proof.
  apply (header_range_served 400 (chain_of old_keys) 2 16 (signed_by new_keys) 0 1
    (compute_authority_set_hash new_keys) 3 hash3 state3 data3); try by_decide.
  - apply chain_serves.
  - apply chain_formatted.
  - split; try by_decide. split; by_decide.
Defined.

Lemma dummy_header_range_agrees_witness :
  DummyHeaderRange.run 16 (header_range_input 0 (hash (header_at (chain_of old_keys) 0)) 1
    (compute_authority_set_hash new_keys) 3)
  = Ret (hash3 ++ state3 ++ data3).
Proof.
  assert (16 = 2 ^ Z.of_nat (3 + jobs_depth 16)) as -> by (vm_compute; reflexivity).
  apply (dummy_header_range_agrees 400 (chain_of old_keys) 2 16 (signed_by new_keys) 0 1
    (compute_authority_set_hash new_keys) 3 hash3 state3 data3);
    try by_decide.
  - apply chain_serves.
  - apply chain_formatted.
  - split; try by_decide. split; by_decide.
Defined.

Lemma sample_rotates : rotates 3 (chain_of old_keys) 2.
Proof.
  split; try by_decide. eexists [OtherItem [6; 66; 65; 66; 69; 4; 1]], [].
  split_and!; [vm_compute; reflexivity|by constructor|by_decide].
Qed.

Lemma rotate_served_witness :
  ∃ r, RotateHint 400 3 0 = Ret r
    ∧ (∀ rotate_hint new_hash, rotate_hint 0 = r →
        RotateCircuit.define 3 (3 * VALIDATOR_LENGTH + DELAY_LENGTH) rotate_hint
          (signed_by old_keys) 0 (compute_authority_set_hash old_keys) = Some new_hash
        ↔ justification_valid (signed_by old_keys 2 0) 2 (hash (header_at (chain_of old_keys) 2)) 0
            (compute_authority_set_hash old_keys)
          ∧ new_hash = compute_authority_set_hash new_keys)
    ∧ DummyRotate.run (rotate_input 0 (compute_authority_set_hash old_keys))
      = Ret (compute_authority_set_hash new_keys).
Proof.
  apply (rotate_served 400 3 (chain_of old_keys) (signed_by old_keys) 0
    (compute_authority_set_hash old_keys) 2); try by_decide.
  - apply chain_serves.
  - apply chain_epochs.
  - apply chain_formatted.
  - apply ref_log_format.
  - exact sample_rotates.
  - split; try by_decide. split; by_decide.
Defined.
