(* ===== verification/Finality.v ===== *)
(** * Finality proofs of honest nodes

    What the justification hint and the circuits do with the finality proof that
    a node serves for the last block of an epoch. *)

From stdpp Require Import gmap.
From S2P Require Import Prelude Consts Vars Builder Reference Decoder Offchain Justification.
From S2P Require Import Rotate Subchain Types Redis Fetcher Hints Circuits.

(** ** Finality proofs *)
Section Finalized.
Context `{Hashing, AvailNode} (c : chain).

(** What voters of a round sign for block [n]: the set id is that of the block
    before. *)
Definition vote_for (n : U32) : Vote :=
  {| target_hash := hash (header_at c n); target_number := n |}.
Definition vote_message (n : U32) (round : U64) : bytes :=
  encode_signed_message (PrecommitMessage (vote_for n)) round (set_id c (n - 1)).

Definition voters (proof : GrandpaJustification AvailHeader) : list Bytes32 :=
  map sp_id (cm_precommits (gj_commit proof)).
Definition voted (proof : GrandpaJustification AvailHeader) (pk : Bytes32) : bool :=
  bool_decide (pk ∈ voters proof).

Record valid_vote (n : U32) (round : U64) (sp : SignedPrecommit) : Prop := {
  vv_vote : sp_precommit sp = vote_for n;
  vv_key : ed25519_valid_key (sp_id sp) = true;
  vv_signature : ed25519_verify (sp_id sp) (vote_message n round) (sp_signature sp) = true;
  vv_length : length (sp_signature sp) = 64%nat;
  vv_u8 : Forall is_u8 (sp_signature sp);
}.

(** Valid votes for block [n], by more than two thirds of the authorities of the
    block before, who fit the circuit. *)
Record justifies (MAX : nat) (n : U32) (proof : GrandpaJustification AvailHeader) : Prop := {
  ju_block : 0 < n ≤ ch_head c;
  ju_round : is_u64 (gj_round proof);
  ju_votes : Forall (valid_vote n (gj_round proof)) (cm_precommits (gj_commit proof));
  ju_supermajority : 2 * Z.of_nat (length (authorities_of c (n - 1)))
    < 3 * Z.of_nat (count_true (map (voted proof) (authorities_of c (n - 1))));
  ju_max : (length (authorities_of c (n - 1)) ≤ MAX)%nat;
  ju_max_u32 : 3 * Z.of_nat MAX < 2 ^ 32;
  ju_hash : length (hash (header_at c n)) = HASH_SIZE;
  ju_hash_u8 : Forall is_u8 (hash (header_at c n));
}.

(** The node proves the last block of an epoch final. *)
Record final_epoch_end (MAX : nat) (n : U32) (proof : GrandpaJustification AvailHeader) : Prop := {
  fe_epoch_end : epoch_end c n;
  fe_proof : grandpa_proveFinality n = Some proof;
  fe_justifies : justifies MAX n proof;
}.

(** The dummy signature and keys are well sized. *)
Record dummies_ok `{DummyValues} : Prop := {
  do_key : length DUMMY_PUBLIC_KEY = PUBKEY_LENGTH;
  do_signature : length DUMMY_SIGNATURE = 64%nat;
  do_signature_u8 : Forall is_u8 DUMMY_SIGNATURE;
}.
End Finalized.

(** ** The justification of a final block *)
Section FinalityHint.
Context `{Hashing, DummyValues, AvailNode, RedisServer} (avail_chain_id : string).
Context (c : chain) (Hc : serves c).

Lemma valid_vote_verifies n round sp :
  valid_vote c n round sp →
  verify_signature (sp_id sp) (vote_message c n round) (sp_signature sp) = Ret ().
Proof. intros [_ Hk Hs _ _]. unfold verify_signature. by rewrite Hk, Hs. Qed.

(** Collecting valid votes keeps a signature for each voter. *)
Lemma collect_votes (n : U32) (round : U64) (l : list SignedPrecommit) (acc : gmap Bytes32 bytes) :
  Forall (valid_vote c n round) l →
  ∃ m : gmap Bytes32 bytes, foldM (λ signatures precommit,
      _ ← verify_signature (sp_id precommit) (vote_message c n round) (sp_signature precommit);
      Ret (<[sp_id precommit := sp_signature precommit]> signatures)) l acc = Ret m
    ∧ (∀ k, is_Some (m !! k) ↔ is_Some (acc !! k) ∨ k ∈ map sp_id l)
    ∧ ∀ k sig, m !! k = Some sig → acc !! k = Some sig
        ∨ ∃ sp, valid_vote c n round sp ∧ sp_id sp = k ∧ sp_signature sp = sig.
Proof.
  intros Hl. revert acc; induction Hl as [|sp l Hsp _ IH]; intros acc.
  { exists acc. split; [done|]. split; [|by left]. intros k. cbn. set_solver. }
  cbn [foldM]. rewrite (valid_vote_verifies n round sp Hsp). cbn [mbind outcome_bind].
  destruct (IH (<[sp_id sp := sp_signature sp]> acc)) as (m & -> & Hdom & Hsig).
  exists m. split; [done|]. split.
  - intros k. rewrite Hdom. cbn [map]. rewrite elem_of_cons, lookup_insert_is_Some'. naive_solver.
  - intros k sig Hk. destruct (Hsig k sig Hk) as [Hi|]; [|by right].
    apply lookup_insert_Some in Hi as [[<- <-]|[_ ?]]; [right; by exists sp|by left].
Qed.

(** The slots of the authorities of block [n - 1]: their keys in order, whether
    each voted, and a signature of 64 bytes that verifies where one voted. *)
Record vote_slots (n : U32) (proof : GrandpaJustification AvailHeader) (slots : list slot) : Prop := {
  vs_keys : map (λ s : slot, snd (fst s)) slots = authorities_of c (n - 1);
  vs_signed : map (λ s : slot, fst (fst s)) slots = map (voted proof) (authorities_of c (n - 1));
  vs_sizes : Forall (λ s : slot, length (snd s) = 64%nat ∧ Forall is_u8 (snd s)) slots;
  vs_verified : Forall (λ s : slot, fst (fst s) = true →
    verify_signature (snd (fst s)) (vote_message c n (gj_round proof)) (snd s) = Ret ()) slots;
}.

Lemma authority_slots (n : U32) (proof : GrandpaJustification AvailHeader) (m : gmap Bytes32 bytes) :
  dummies_ok → (∀ k, is_Some (m !! k) ↔ k ∈ voters proof) →
  (∀ k sig, m !! k = Some sig →
     ∃ sp, valid_vote c n (gj_round proof) sp ∧ sp_id sp = k ∧ sp_signature sp = sig) →
  vote_slots n proof (map (authority_slot m) (authorities_of c (n - 1))).
Proof.
  intros [_ Hd Hdu8] Hdom Hsig.
  assert (∀ k, authority_slot m k = (voted proof k, k, default DUMMY_SIGNATURE (m !! k))) as E.
  { intros k. unfold authority_slot, voted. destruct (m !! k) as [sig|] eqn:Ek.
    - rewrite bool_decide_eq_true_2; [done|]. apply Hdom. by eexists.
    - rewrite bool_decide_eq_false_2; [done|]. rewrite <- Hdom, Ek. by intros []. }
  split; rewrite ?map_map.
  - erewrite map_ext; [apply map_id|]. intros k. by rewrite E.
  - apply map_ext. intros k. by rewrite E.
  - apply Forall_map, Forall_true. intros k. rewrite E. cbn.
    destruct (m !! k) as [sig|] eqn:Ek; [|done].
    destruct (Hsig k sig Ek) as (sp & [] & _ & <-). done.
  - apply Forall_map, Forall_true. intros k. rewrite E. cbn. intros Hv.
    apply bool_decide_eq_true, Hdom in Hv as [sig Ek]. rewrite Ek.
    destruct (Hsig k sig Ek) as (sp & Hsp & <- & <-). by apply valid_vote_verifies.
Qed.

(** Some authority votes for a justified block. *)
Lemma justifies_nonempty MAX n proof :
  justifies c MAX n proof →
  length (authorities_of c (n - 1)) ≠ 0%nat ∧ cm_precommits (gj_commit proof) ≠ [].
Proof.
  intros [_ _ _ Hmaj _ _ _ _]. split; intros E.
  { pose proof (count_true_bound (map (voted proof) (authorities_of c (n - 1)))) as Hb.
    rewrite length_map in Hb. lia. }
  assert (count_true (map (voted proof) (authorities_of c (n - 1))) = 0%nat) as E0; [|lia].
  apply count_true_none. intros i. rewrite lookup_map. destruct (_ !! i) as [k|]; [|done]. cbn.
  unfold voted, voters. by rewrite E.
Qed.

(** The data that the fetcher builds from slots. *)
Definition slots_data (n : U32) (round : U64) (slots : list slot) : SimpleJustificationData := {|
  sd_pubkeys := map (λ s, snd (fst s)) slots;
  sd_signatures := map snd slots;
  sd_validator_signed := map (λ s, fst (fst s)) slots;
  sd_signed_message := vote_message c n round;
  sd_voting_weight := Z.of_nat (count_true (map (λ s, fst (fst s)) slots));
  sd_num_authorities := Z.of_nat (length slots) |}.

Lemma vote_slots_length n proof slots :
  vote_slots n proof slots → length slots = length (authorities_of c (n - 1)).
Proof. intros Hs. rewrite <- (vs_keys _ _ _ Hs). symmetry. apply length_map. Qed.

Lemma finality_justification_run MAX n proof :
  justifies c MAX n proof → grandpa_proveFinality n = Some proof → dummies_ok →
  ∃ slots, vote_slots n proof slots
    ∧ finality_justification MAX n = Ret (slots_data n (gj_round proof) slots).
Proof.
  intros Hju Hp Hd. destruct (justifies_nonempty MAX n proof Hju) as [_ Hne].
  pose proof Hju as [Hn _ Hv _ Hmax _ _ _]. unfold finality_justification.
  rewrite Hp. cbn [expect mbind outcome_bind].
  rewrite checked_sub_Ret by lia. cbn [mbind outcome_bind].
  rewrite (get_authority_set_id_run c Hc) by lia. cbn [mbind outcome_bind].
  rewrite (get_authorities_run c Hc) by lia. cbn [mbind outcome_bind].
  rewrite bool_decide_eq_true_2 by done. cbn [assert mbind outcome_bind].
  destruct (cm_precommits (gj_commit proof)) as [|first rest] eqn:El; [done|].
  cbn [lookup list_lookup expect mbind outcome_bind].
  rewrite (vv_vote _ _ _ _ (Forall_inv Hv)). fold (vote_message c n (gj_round proof)).
  destruct (collect_votes n (gj_round proof) (first :: rest) ∅ Hv) as (m & Hm & Hdom & Hsig).
  unfold collect_signatures. rewrite Hm. cbn [mbind outcome_bind].
  exists (map (authority_slot m) (authorities_of c (n - 1))). unfold slots_data. rewrite length_map.
  split; [|done]. apply authority_slots; [done| |].
  - intros k. unfold voters. rewrite El, Hdom, lookup_empty, is_Some_alt. tauto.
  - intros k sig Hk. by destruct (Hsig k sig Hk).
Qed.

(** The dispatch of [get_justification_data]: finality proofs at epoch ends, the
    store elsewhere. *)
Lemma get_justification_data_run MAX n s :
  epochs c → 0 < n ≤ ch_head c →
  get_justification_data avail_chain_id MAX n s =
  if decide (set_id c n = set_id c (n - 1) + 1)
  then finality_justification MAX n else stored_justification avail_chain_id n s.
Proof.
  intros He Hn. pose proof (sv_range c Hc). unfold get_justification_data.
  rewrite (sv_connected c Hc). cbn [unwrap mbind outcome_bind].
  rewrite (get_authority_set_id_run c Hc n) by lia. cbn [mbind outcome_bind].
  rewrite (checked_sub_Ret n 1) by lia. cbn [mbind outcome_bind].
  rewrite (get_authority_set_id_run c Hc (n - 1)) by lia. cbn [mbind outcome_bind].
  pose proof (set_id_bound c He (n - 1) ltac:(lia)).
  by rewrite checked_add_Ret by lia.
Qed.

(** A block inside an epoch without a readable justification is an error. *)
Lemma unjustified_block MAX n s msg :
  epochs c → 0 < n ≤ ch_head c → ¬ epoch_end c n → get_justification avail_chain_id n s = Err msg →
  get_justification_from_block avail_chain_id MAX n s = Err msg.
Proof.
  intros He Hn Hne Hget. unfold get_justification_from_block.
  rewrite get_justification_data_run by done.
  rewrite decide_False by (intros E; apply Hne; split; [done|split; [lia|done]]).
  unfold stored_justification. by rewrite Hget.
Qed.

Lemma epoch_end_data MAX n proof s :
  epochs c → final_epoch_end c MAX n proof → dummies_ok →
  ∃ slots, vote_slots n proof slots
    ∧ get_justification_data avail_chain_id MAX n s = Ret (slots_data n (gj_round proof) slots).
Proof.
  intros He [(Hn & Hid & _) Hp Hju] Hd.
  destruct (finality_justification_run MAX n proof Hju Hp Hd) as (slots & Hs & Hrun).
  exists slots. rewrite get_justification_data_run, decide_True by done. done.
Qed.

Lemma foldM_unit {A} (f : A → outcome unit) l :
  Forall (λ i, f i = Ret ()) l → foldM (λ _ i, f i) l () = Ret ().
Proof. induction 1 as [|x l Hx _ IH]; [done|]. cbn [foldM]. by rewrite Hx. Qed.

(** Copying the slots of well-sized data gives them back. *)
Lemma copy_slots slots message weight num :
  Forall (λ s : slot, length (snd s) = 64%nat) slots →
  traverse (copy_slot {| sd_pubkeys := map (λ s, snd (fst s)) slots;
      sd_signatures := map snd slots; sd_validator_signed := map (λ s, fst (fst s)) slots;
      sd_signed_message := message; sd_voting_weight := weight; sd_num_authorities := num |})
    (seq 0 (length slots)) = Ret slots.
Proof.
  intros Hs. apply traverse_Ret, Forall2_same_length_lookup. rewrite length_seq. split; [done|].
  intros i j s [-> Hi]%lookup_seq Hl. cbn in Hl. unfold copy_slot.
  cbn [sd_pubkeys sd_signatures sd_validator_signed].
  rewrite !lookup_map. rewrite Nat.add_0_l. rewrite Hl.
  cbn [fmap option_fmap option_map expect mbind outcome_bind].
  rewrite bool_decide_eq_true_2 by (rewrite Forall_lookup in Hs; by eapply Hs).
  cbn. by destruct s as [[]].
Qed.

(** The circuit's data, from the slots. *)
Definition padded_slots (MAX : nat) (slots : list slot) : list slot :=
  slots ++ replicate (MAX - length slots) (false, DUMMY_PUBLIC_KEY, DUMMY_SIGNATURE).

Lemma slots_block MAX n proof slots s :
  justifies c MAX n proof → vote_slots n proof slots →
  get_justification_data avail_chain_id MAX n s = Ret (slots_data n (gj_round proof) slots) →
  get_justification_from_block avail_chain_id MAX n s = Ret {|
    cj_authority_set_id := set_id c (n - 1);
    cj_signed_message := vote_message c n (gj_round proof);
    cj_validator_signed := map (λ s, fst (fst s)) (padded_slots MAX slots);
    cj_pubkeys := map (λ s, snd (fst s)) (padded_slots MAX slots);
    cj_signatures := map snd (padded_slots MAX slots);
    cj_num_authorities := length slots;
    cj_current_authority_set_hash := compute_authority_set_hash (authorities_of c (n - 1)) |}.
Proof.
  intros [Hn _ _ Hmaj Hmax HM _ _] Hs Hrun. pose proof (vote_slots_length n proof slots Hs) as Hlen.
  unfold get_justification_from_block. rewrite Hrun. cbn [mbind outcome_bind].
  rewrite (checked_sub_Ret n 1) by lia. cbn [mbind outcome_bind].
  rewrite (get_authority_set_id_run c Hc (n - 1)) by lia. cbn [mbind outcome_bind].
  rewrite <- (vs_signed _ _ _ Hs) in Hmaj.
  pose proof (count_true_bound (map (λ s : slot, fst (fst s)) slots)) as Hb. rewrite length_map in Hb.
  cbn [slots_data sd_pubkeys sd_signatures sd_validator_signed sd_voting_weight sd_num_authorities
    sd_signed_message].
  rewrite checked_mul_Ret by lia. cbn [mbind outcome_bind].
  rewrite checked_mul_Ret by lia. cbn [mbind outcome_bind].
  rewrite bool_decide_eq_true_2 by lia. cbn [assert mbind outcome_bind].
  rewrite Nat2Z.id. unfold slots_data. rewrite copy_slots.
  2: { eapply Forall_impl; [apply Hs|]. by intros ? []. }
  cbn [mbind outcome_bind]. by rewrite (vs_keys _ _ _ Hs).
Qed.
End FinalityHint.

(** ** The hint on a final block *)
Section FinalBlock.
Context `{CircuitBuilderLaws, !HashingLaws, DummyValues, AvailNode, RedisServer}.
Context (avail_chain_id : string) (c : chain) (Hc : serves c) (He : epochs c).

Lemma vote_message_precommit n round :
  vote_message c n round = encode_precommit {|
    pc_block_hash := hash (header_at c n); pc_block_number := n;
    pc_justification_round := round; pc_authority_set_id := set_id c (n - 1) |}.
Proof.
  unfold vote_message, encode_signed_message, encode_precommit. cbn. by rewrite <- app_assoc.
Qed.

(** The value that the hint returns. *)
Definition final_justification (MAX : nat) (n : U32) (round : U64) (slots : list slot)
    : Vars.Justification := {|
  encoded_precommit := vote_message c n round;
  validator_signed := map (λ s, fst (fst s)) (padded_slots MAX slots);
  signatures := map eddsa_signature (map snd (padded_slots MAX slots));
  pubkeys := map (λ s, snd (fst s)) (padded_slots MAX slots);
  num_authorities := Z.of_nat (length slots) |}.

Lemma slots_hint_returns MAX n proof slots s :
  justifies c MAX n proof → vote_slots c n proof slots →
  get_justification_data avail_chain_id MAX n s = Ret (slots_data c n (gj_round proof) slots) →
  HintSimpleJustification avail_chain_id MAX s n (set_id c (n - 1))
    = Ret (final_justification MAX n (gj_round proof) slots).
Proof.
  intros Hju Hs Hdata. unfold HintSimpleJustification.
  rewrite (slots_block avail_chain_id c Hc MAX n proof slots s) by done.
  pose proof Hju as [_ _ _ _ Hmax HM Hh _].
  cbn [unwrap mbind outcome_bind cj_authority_set_id cj_signed_message
    cj_validator_signed cj_pubkeys cj_signatures cj_num_authorities].
  rewrite (bool_decide_eq_true_2 (set_id c (n - 1) = _)) by done. cbn [assert mbind outcome_bind].
  rewrite (bool_decide_eq_true_2 (length _ = _))
    by (rewrite vote_message_precommit; by apply length_encode_precommit).
  cbn [assert mbind outcome_bind]. pose proof (vote_slots_length c n proof slots Hs) as Hlen.
  rewrite foldM_unit; [cbn [mbind outcome_bind]; by rewrite as_u32_id by (unfold is_u32; lia)|].
  apply Forall_forall. intros i Hi%elem_of_seq. destruct Hi as [_ Hi]. cbn in Hi.
  apply lookup_lt_is_Some_2 in Hi as [sl Hsl].
  assert (padded_slots MAX slots !! i = Some sl) as Hp by by apply lookup_app_l_Some.
  cbn beta. rewrite !lookup_map, Hp. cbn [fmap option_fmap option_map expect mbind outcome_bind].
  pose proof (vs_verified _ _ _ _ Hs) as Hv. rewrite Forall_lookup in Hv. specialize (Hv i sl Hsl).
  destruct sl as [[[] k] sig]; [by apply Hv|done].
Qed.

(** What the hint returns for a justified block satisfies the circuit. *)
Lemma slots_hint_valid MAX n proof slots s :
  justifies c MAX n proof → vote_slots c n proof slots → dummies_ok →
  get_justification_data avail_chain_id MAX n s = Ret (slots_data c n (gj_round proof) slots) →
  ∃ j, HintSimpleJustification avail_chain_id MAX s n (set_id c (n - 1)) = Ret j
    ∧ justification_bounds MAX j
    ∧ justification_valid j n (hash (header_at c n)) (set_id c (n - 1))
        (compute_authority_set_hash (authorities_of c (n - 1))).
Proof.
  intros Hju Hs Hdo Hdata. pose proof Hju as [Hn Hround _ Hmaj Hmax HM Hh Hhu8].
  pose proof (sv_range c Hc). pose proof (set_id_bound c He (n - 1)).
  pose proof (set_id_nonneg c He (n - 1)).
  pose proof (slots_hint_returns MAX n proof slots s Hju Hs Hdata) as Hrun.
  pose proof Hrun as (cj & Hcj & Hj)%HintSimpleJustification_run.
  rewrite (slots_block avail_chain_id c Hc MAX n proof slots s) in Hcj by done.
  injection Hcj as <-. cbn [cj_signatures] in Hj.
  pose proof (vote_slots_length c n proof slots Hs) as Hlen.
  destruct (justifies_nonempty c MAX n proof Hju) as [Hne _].
  set (j := final_justification MAX n (gj_round proof) slots) in *.
  assert (length (validator_signed j) = MAX) as Hvs.
  { cbn. rewrite length_map. unfold padded_slots. rewrite length_app, length_replicate. lia. }
  specialize (Hj ltac:(lia)). pose proof (vote_message_precommit n (gj_round proof)) as Hmsg.
  assert (0 < num_authorities j ≤ Z.of_nat MAX) as Hnum by (cbn; lia).
  assert (Forall is_u8 (encoded_precommit j)) as Hu8
    by (cbn [encoded_precommit j final_justification]; rewrite Hmsg; by apply encode_precommit_u8).
  exists j. split; [done|]. split; [eapply hinted_bounds; try done; lia|].
  assert (compute_authority_set_hash (authorities_of c (n - 1))
    = compute_authority_set_hash (take (Z.to_nat (num_authorities j)) (pubkeys j))) as ->.
  { cbn. rewrite Nat2Z.id. unfold padded_slots. rewrite map_app, take_app_length'.
    - by rewrite (vs_keys _ _ _ _ Hs).
    - by rewrite length_map. }
  apply (hinted_accepted MAX j (map snd (padded_slots MAX slots)) n _ _ (gj_round proof)); try done.
  - lia.
  - apply Forall_map. unfold padded_slots. apply Forall_app_2; [|by apply Forall_replicate, Hdo].
    eapply Forall_impl; [apply Hs|]. by intros ? [].
  - unfold is_u32. lia.
  - unfold is_u64. lia.
  - cbn [validator_signed num_authorities j final_justification]. unfold padded_slots.
    rewrite map_app, count_true_app, (vs_signed _ _ _ _ Hs), Hlen. lia.
Qed.

Lemma final_block_hint MAX n proof s :
  final_epoch_end c MAX n proof → dummies_ok →
  ∃ j, HintSimpleJustification avail_chain_id MAX s n (set_id c (n - 1)) = Ret j
    ∧ justification_bounds MAX j
    ∧ justification_valid j n (hash (header_at c n)) (set_id c (n - 1))
        (compute_authority_set_hash (authorities_of c (n - 1))).
Proof.
  intros Hfe Hdo.
  destruct (epoch_end_data avail_chain_id c Hc MAX n proof s He Hfe Hdo) as (slots & Hs & Hdata).
  by apply (slots_hint_valid MAX n proof slots s (fe_justifies _ _ _ _ Hfe)).
Qed.

(** The header range circuit on a justified target of a served chain. *)
Lemma header_range_justified L MA MAX jh trusted target (Hf : chain_format L c) :
  MIN_HEADER_SIZE ≤ Z.of_nat L → 0 ≤ trusted < target → target ≤ ch_head c →
  trusted + Z.of_nat (HEADERS_PER_MAP * jobs MAX) < 2 ^ 32 →
  target - trusted ≤ Z.of_nat (HEADERS_PER_MAP * jobs MAX) →
  let id := set_id c (target - 1) in
  let sh := compute_authority_set_hash (authorities_of c (target - 1)) in
  justification_bounds MA (jh target id) →
  justification_valid (jh target id) target (hash (header_at c target)) id sh →
  ∃ state data,
    HeaderRangeCircuit.define MA MAX (range_hint L) jh trusted (hash (header_at c trusted)) id sh target
      = Some (hash (header_at c target), state, data)
    ∧ commits_to MAX {| target_header_hash := hash (header_at c target);
        state_root_merkle_root := state; data_root_merkle_root := data |}
        (hash (header_at c trusted)) (served_chain L c trusted target).
Proof.
  intros HL Ht Htg Hroom Hfit id sh Hjb Hjv. pose proof (sv_range c Hc).
  assert (is_u64 id) as Hid.
  { unfold id, is_u64. pose proof (set_id_bound c He (target - 1)).
    pose proof (set_id_nonneg c He (target - 1)). lia. }
  destruct (served_outputs L c Hc Hf MAX trusted target HL Ht Htg Hroom Hfit) as (state & data & Hct).
  exists state, data. split; [|done].
  by apply (header_range_run L c Hc Hf).
Qed.
End FinalBlock.

(** ** Properties *)
Section Properties.
Context `{CircuitBuilderLaws, !HashingLaws, DummyValues, AvailNode, RedisServer}.
Context (avail_chain_id : string).

(** At the end of an epoch the rotation goes through.  From a node that serves
    a well-formed chain and a finality proof for the last block of set [id], the
    rotate and justification hints return data with which the rotate circuit
    accepts the hash of the current authorities and outputs that of the next. *)
Theorem rotation_accepted L MAX c id n proof s :
  serves c → epochs c → chain_format L c → log_format →
  last_justified c id n → rotates MAX c n → final_epoch_end c MAX n proof → dummies_ok →
  (length (encode (header_at c n)) + MAX_PREFIX_LENGTH + (MAX * VALIDATOR_LENGTH + DELAY_LENGTH)
     ≤ L)%nat → 40 * Z.of_nat MAX < 2 ^ 31 →
  ∃ r j, RotateHint L MAX id = Ret r
    ∧ HintSimpleJustification avail_chain_id MAX s n id = Ret j
    ∧ ∀ rotate_hint justification_hint, rotate_hint id = r → justification_hint n id = j →
      RotateCircuit.define MAX (MAX * VALIDATOR_LENGTH + DELAY_LENGTH) rotate_hint
        justification_hint id (compute_authority_set_hash (authorities_of c (n - 1)))
      = Some (compute_authority_set_hash (authorities_of c n)).
Proof.
  intros Hc He Hf Hlog Hlast Hro Hfe Hdo Hroom HM.
  destruct (rotate_hint_run L c Hc Hf MAX He Hlog id n) as (p & Hrun & Hlay & Hp); [done..|].
  destruct (final_block_hint avail_chain_id c Hc He MAX n proof s) as (j & Hj & Hjb & Hjv);
    [done..|].
  pose proof Hlast as (_ & _ & Hid). rewrite Hid in Hj, Hjv.
  exists (rotation L MAX c n p), j. split_and!; [done..|]. intros rh jh Hrh Hjh.
  apply (rotate_circuit_run L c Hc Hf MAX He jh id _ n p); try done; [apply Hdo| |];
    by rewrite Hjh.
Qed.

(** C13: a header range that ends with the last block of an epoch goes through.
    From a node that serves a well-formed chain and a finality proof of the target,
    the hints return data with which the header range circuit outputs the hash of
    the target and the roots of every block after the trusted one. *)
Theorem header_range_accepted L MA MAX c trusted target proof s :
  serves c → epochs c → chain_format L c → MIN_HEADER_SIZE ≤ Z.of_nat L →
  0 ≤ trusted < target → final_epoch_end c MA target proof → dummies_ok →
  trusted + Z.of_nat (HEADERS_PER_MAP * jobs MAX) < 2 ^ 32 →
  target - trusted ≤ Z.of_nat (HEADERS_PER_MAP * jobs MAX) →
  let id := set_id c (target - 1) in
  ∃ j, HintSimpleJustification avail_chain_id MA s target id = Ret j
    ∧ ∀ justification_hint, justification_hint target id = j → ∃ state data,
      HeaderRangeCircuit.define MA MAX (range_hint L) justification_hint trusted
        (hash (header_at c trusted)) id
        (compute_authority_set_hash (authorities_of c (target - 1))) target
      = Some (hash (header_at c target), state, data)
      ∧ commits_to MAX {| target_header_hash := hash (header_at c target);
          state_root_merkle_root := state; data_root_merkle_root := data |}
          (hash (header_at c trusted)) (served_chain L c trusted target).
Proof.
  intros Hc He Hf HL Ht Hfe Hdo Hroom Hfit id.
  destruct (final_block_hint avail_chain_id c Hc He MA target proof s) as (j & Hj & Hjb & Hjv);
    [done..|]. exists j. split; [done|]. intros jh Hjh.
  apply (header_range_justified c Hc He L MA MAX jh trusted target Hf); try done;
    [apply (fe_justifies _ _ _ _ Hfe)|fold id; by rewrite Hjh..].
Qed.
End Properties.

(** ** Witnesses *)
Import Ref RefNode RefRedis Sample.
#[local] Instance sample_node : AvailNode := node_of old_keys.

Definition sample_proof : GrandpaJustification RefNode.header :=
  default {| gj_round := 0; gj_commit := {| cm_target_hash := []; cm_target_number := 0;
    cm_precommits := [] |}; gj_votes_ancestries := [] |} (proof2 old_keys 2).

Lemma sample_justifies : justifies (chain_of old_keys) 3 2 sample_proof.
Proof.
  split; [by_decide..| |by_decide|by_decide|by_decide|by_decide|by_decide].
  repeat constructor; by_decide || (vm_compute; reflexivity).
Qed.

Lemma sample_final : final_epoch_end (chain_of old_keys) 3 2 sample_proof.
Proof. split; [by_decide|vm_compute; reflexivity|exact sample_justifies]. Qed.

Lemma sample_dummies_ok : dummies_ok.
Proof. split; by_decide. Qed.

Lemma rotation_accepted_witness :
  ∃ r j, RotateHint 400 3 0 = Ret r
    ∧ HintSimpleJustification "avail" 3 empty 2 0 = Ret j
    ∧ ∀ rotate_hint justification_hint, rotate_hint 0 = r → justification_hint 2 0 = j →
      RotateCircuit.define 3 (3 * VALIDATOR_LENGTH + DELAY_LENGTH) rotate_hint
        justification_hint 0 (compute_authority_set_hash old_keys)
      = Some (compute_authority_set_hash new_keys).
Proof.
  apply (rotation_accepted "avail" 400 3 (chain_of old_keys) 0 2 sample_proof empty);
    try by_decide.
  - apply chain_serves.
  - apply chain_epochs.
  - apply chain_formatted.
  - apply ref_log_format.
  - exact sample_rotates.
  - exact sample_final.
  - exact sample_dummies_ok.
Defined.

Lemma header_range_accepted_witness :
  ∃ j, HintSimpleJustification "avail" 3 empty 2 0 = Ret j
    ∧ ∀ justification_hint, justification_hint 2 0 = j → ∃ state data,
      HeaderRangeCircuit.define 3 16 (range_hint 400) justification_hint 0
        (hash (header_at (chain_of old_keys) 0)) 0 (compute_authority_set_hash old_keys) 2
      = Some (hash (header_at (chain_of old_keys) 2), state, data)
      ∧ commits_to 16 {| target_header_hash := hash (header_at (chain_of old_keys) 2);
          state_root_merkle_root := state; data_root_merkle_root := data |}
          (hash (header_at (chain_of old_keys) 0)) (served_chain 400 (chain_of old_keys) 0 2).
Proof.
  apply (header_range_accepted "avail" 400 3 16 (chain_of old_keys) 0 2 sample_proof empty);
    try by_decide.
  - apply chain_serves.
  - apply chain_epochs.
  - apply chain_formatted.
  - exact sample_final.
  - exact sample_dummies_ok.
Defined.
