(* ===== verification/GadgetTests.v ===== *)
(** * The unit tests of the gadgets

    The test modules of circuits/builder/decoder.rs, header.rs, rotate.rs,
    justification.rs and subchain_verification.rs, as programs over the same node and
    builder as the code they test.  Blocks, hashes and sizes that a test fixes to data
    of Avail's networks are arguments here.  A test that ends, with every circuit
    proved and every assertion true, returns. *)

From stdpp Require Import gmap.
From S2P Require Import Prelude Parse Environment Consts Vars Builder Reference Decoder Offchain.
From S2P Require Import Justification Rotate Subchain Types Redis Fetcher Hints Circuits Finality.

(** ** What the tests share *)

(** [circuit.prove(&input)], which panics when the circuit is not satisfied. *)
Definition prove {A} (circuit : option A) : outcome A := expect circuit "Failed to generate proof".

Definition assert_eq `{EqDecision A} (left right : A) : outcome unit :=
  assert (bool_decide (left = right)) "assertion `left == right` failed".

(** [Vec::resize] with zeros. *)
Definition resize (n : nat) (l : bytes) : bytes := take n l ++ replicate (n - length l) 0.

Section Shared.
Context `{Environment, Clients, AvailNode}.

(** The headers from [HEAD_BLOCK_NUM] on, of which the tests take [NUM_BLOCKS]. *)
Definition fetch_headers (HEAD_BLOCK_NUM : U32) (NUM_BLOCKS : nat) : outcome (list AvailHeader) :=
  _ ← RpcDataFetcher_new;
  last ← checked_add 32 HEAD_BLOCK_NUM (Z.of_nat NUM_BLOCKS);
  get_block_headers_range HEAD_BLOCK_NUM last.

Definition encoded_header_value (header : AvailHeader) : EncodedHeader :=
  {| header_bytes := resize MAX_HEADER_SIZE (encode header);
     header_size := as_u32 (Z.of_nat (length (encode header))) |}.
End Shared.

(** ** decoder.rs *)
Section DecoderTests.
Context `{CircuitBuilder}.

Definition compact_test_cases : list (U32 * Felt) :=
  [(0, 0); (1, 0); (63, 0); (64, 1); (16383, 1); (16384, 2); (1073741823, 2); (1073741824, 3);
   (4294967295, 3); (2 ^ 32 - 1, 3)].

Definition test_decode_compact_int : outcome unit :=
  foldM (λ _ '(n, mode),
      let encoded_block_num := resize MAX_COMPACT_UINT_BYTES (Scale.compact_encode n) in
      '(value, compress_mode) ← prove (decode_compact_int encoded_block_num);
      _ ← assert_eq value n;
      assert_eq compress_mode mode)
    compact_test_cases ().

(** The circuit of [test_decode_headers], for one header. *)
Definition check_decoded (encoded_header : EncodedHeader) (header_hash : Bytes32) (expected : Header)
    : option unit :=
  decoded_header ← decode_header encoded_header header_hash;
  _ ← assert_is_equal (block_number decoded_header) (block_number expected);
  _ ← assert_is_equal (parent_hash decoded_header) (parent_hash expected);
  _ ← assert_is_equal (state_root decoded_header) (state_root expected);
  assert_is_equal (data_root decoded_header) (data_root expected).

Definition test_decode_headers `{Environment, Clients, AvailNode} (HEAD_BLOCK_NUM : U32)
    (NUM_BLOCKS : nat) : outcome unit :=
  headers ← fetch_headers HEAD_BLOCK_NUM NUM_BLOCKS;
  headers ← slice_checked headers 0 NUM_BLOCKS;
  _ ← prove (mapM (λ '(n, x),
        check_decoded (encoded_header_value x) (hash x)
          {| block_number := n; parent_hash := av_parent_hash x; state_root := av_state_root x;
             data_root := av_data_root x |})
      (zip (seqZ HEAD_BLOCK_NUM (Z.of_nat NUM_BLOCKS)) headers));
  Ret ().

Definition test_decode_precommit : outcome unit :=
  decoded_precommit ← prove (decode_precommit
    [1; 38; 27; 45; 113; 196; 242; 16; 36; 228; 137; 117; 93; 79; 157; 136; 222; 239; 71;
     241; 37; 152; 13; 194; 159; 190; 169; 38; 234; 124; 89; 223; 233; 161; 217; 4; 0; 75;
     58; 0; 0; 0; 0; 0; 0; 42; 1; 0; 0; 0; 0; 0; 0]);
  _ ← assert_eq (pc_block_number decoded_precommit) 317857;
  assert_eq (pc_authority_set_id decoded_precommit) 298.
End DecoderTests.

(** ** header.rs *)
Section HeaderTests.
Context `{CircuitBuilder, Environment, Clients, Hashing, AvailNode}.

Definition test_hash_headers (HEAD_BLOCK_NUM : U32) (NUM_HEADERS : nat) : outcome unit :=
  headers ← fetch_headers HEAD_BLOCK_NUM NUM_HEADERS;
  headers ← slice_checked headers 0 NUM_HEADERS;
  calculated_hashes ← prove (mapM (λ x, hash_encoded_header (encoded_header_value x)) headers);
  foldM (λ _ '(calculated_hash, x), assert_eq calculated_hash (hash x))
    (zip calculated_hashes headers) ().

(** The same with another message for a hash that differs. *)
Definition test_hash_output_check : outcome unit := test_hash_headers 397857 1.

(** The size that [test_max_header_len] prints. *)
Definition test_max_header_len (START_BLOCK_NUM : U32) (NUM_BLOCKS : nat) : outcome nat :=
  headers ← fetch_headers START_BLOCK_NUM NUM_BLOCKS;
  Ret (foldl (λ max_size header,
    if decide (max_size < length (encode header))%nat then length (encode header) else max_size)
    0%nat headers).

Definition test_blake2b_correctness (block_nbr : U32) (HEADER_SIZE : nat) : outcome unit :=
  _ ← RpcDataFetcher_new;
  header ← get_header block_nbr;
  let header_bytes := encode header in
  let expected_hash := blake2_256 header_bytes in
  _ ← assert_eq expected_hash (hash header);
  _ ← assert_eq (length header_bytes) HEADER_SIZE;
  calculated_hash ← prove (curta_blake2b_variable header_bytes (Z.of_nat HEADER_SIZE));
  assert_eq expected_hash calculated_hash.
End HeaderTests.

(** ** rotate.rs, justification.rs, subchain_verification.rs *)
Section CircuitTests.
Context `{CircuitBuilder, Hashing, DummyValues, AvailNode, RedisServer} (avail_chain_id : string).

(** The three tests of rotate.rs differ in the number of authorities. *)
Definition test_verify_prefix_epoch_end_header (NUM_AUTHORITIES : nat) (authority_set_id : U64)
    : outcome unit :=
  rotate_var ← RotateHint MAX_HEADER_SIZE NUM_AUTHORITIES authority_set_id;
  let header_bytes := header_bytes (target_header rotate_var) in
  prove (prefix_subarray ← get_fixed_subarray MAX_PREFIX_LENGTH header_bytes
           (next_authority_set_start_position rotate_var) (take 32 header_bytes);
         verify_consensus_log prefix_subarray).
Definition test_verify_epoch_end_header_small_authority_set : outcome unit :=
  test_verify_prefix_epoch_end_header 16 1.
Definition test_verify_epoch_end_header_large_authority_set : outcome unit :=
  test_verify_prefix_epoch_end_header 100 1.

Definition test_verify_simple_justification (NUM_AUTHORITIES : nat) (st : store) (target_block : U32)
    (target_header : Bytes32) (authority_set_id : U64) (authority_set_hash : Bytes32) : outcome unit :=
  justification ←
    HintSimpleJustification avail_chain_id NUM_AUTHORITIES st target_block authority_set_id;
  prove (verify_simple_justification NUM_AUTHORITIES (λ _ _, justification) target_block target_header
           authority_set_id authority_set_hash).

(** [TestSubchainVerificationCircuit::define] and [test_verify_subchain]. *)
Definition TestSubchainVerificationCircuit (MAX_HEADER_SIZE MAX_NUM_HEADERS : nat)
    (trusted_block : U32) (trusted_header_hash : Bytes32) (target_block : U32) : option unit :=
  _ ← verify_subchain MAX_NUM_HEADERS (range_hint MAX_HEADER_SIZE) trusted_block trusted_header_hash
        target_block;
  Some ().

Definition test_verify_subchain (MAX_NUM_HEADERS : nat) (trusted_block : U32) (trusted_header : Bytes32)
    (target_block : U32) : outcome unit :=
  prove (TestSubchainVerificationCircuit (MAX_HEADER_CHUNK_SIZE * BLAKE2B_CHUNK_SIZE_BYTES)
           MAX_NUM_HEADERS trusted_block trusted_header target_block).
End CircuitTests.

(** ** Helper lemmas *)
Lemma assert_eq_same `{EqDecision A} (x : A) : assert_eq x x = Ret ().
Proof. unfold assert_eq. by rewrite bool_decide_eq_true_2. Qed.

Lemma assert_eq_Ret `{EqDecision A} (x y : A) {B} (k : outcome B) r :
  (_ ← assert_eq x y; k) = Ret r ↔ x = y ∧ k = Ret r.
Proof. unfold assert_eq. by rewrite assert_Ret, bool_decide_eq_true. Qed.

Lemma foldM_tests {A} (f : A → outcome unit) l :
  Forall (λ x, f x = Ret ()) l → foldM (λ _ x, f x) l () = Ret ().
Proof. induction 1 as [|x l Hx _ IH]; [done|]. cbn [foldM]. by rewrite Hx. Qed.

Section GadgetFacts.
Context `{CircuitBuilderLaws}.

Lemma compact_case n :
  is_u32 n →
  decode_compact_int (resize MAX_COMPACT_UINT_BYTES (Scale.compact_encode n))
  = Some (n, Scale.compact_mode n).
Proof.
  intros Hn. pose proof (length_compact_encode n). unfold resize. rewrite take_ge by lia.
  apply decode_compact_int_prefix; [done|by apply Forall_replicate|].
  rewrite length_app, length_replicate. lia.
Qed.

Lemma check_decoded_same h hh f :
  decode_header h hh = Some f → check_decoded h hh f = Some ().
Proof.
  intros Hd. unfold check_decoded. rewrite Hd. cbn. by rewrite !assert_is_equal_spec, !decide_True.
Qed.
End GadgetFacts.

Section ServedFacts.
Context `{Environment, Clients, CircuitBuilderLaws, !HashingLaws, AvailNode} (c : chain) (Hc : serves c).
Context (Hf : chain_format MAX_HEADER_SIZE c) (fetcher : string * string).
Context (Hnew : RpcDataFetcher_new = Ret fetcher).

Lemma fetch_headers_run first num :
  0 ≤ first → first + Z.of_nat num ≤ ch_head c →
  fetch_headers first num = Ret (map (header_at c) (seqZ first (Z.of_nat num + 1))).
Proof.
  intros Hfirst Hlast. pose proof (sv_range c Hc). unfold fetch_headers. rewrite Hnew.
  cbn [mbind outcome_bind]. rewrite checked_add_Ret by lia. cbn [mbind outcome_bind].
  rewrite (get_block_headers_range_run c Hc) by lia. do 3 f_equal. lia.
Qed.

(** The first ones. *)
Lemma slice_headers_run first num :
  slice_checked (map (header_at c) (seqZ first (Z.of_nat num + 1))) 0 num
  = Ret (map (header_at c) (seqZ first (Z.of_nat num))).
Proof.
  unfold slice_checked. rewrite decide_True by (rewrite length_map, length_seqZ; lia).
  unfold slice. rewrite drop_0, Nat.sub_0_r, firstn_map, take_seqZ. by rewrite Z.min_l by lia.
Qed.

Lemma encoded_header_value_run n :
  0 ≤ n ≤ ch_head c →
  encoded_header_value (header_at c n) = padded_header MAX_HEADER_SIZE (header_at c n).
Proof.
  intros Hn. pose proof (cf_fits _ c Hf n Hn) as Hfit. unfold encoded_header_value, padded_header, resize.
  rewrite take_ge by done. f_equal. apply (as_u32_length _ MAX_HEADER_SIZE); [done|apply Hf].
Qed.

Lemma header_decodes n :
  0 ≤ n ≤ ch_head c →
  hash_encoded_header (encoded_header_value (header_at c n)) = Some (hash (header_at c n))
  ∧ decode_header (encoded_header_value (header_at c n)) (hash (header_at c n))
    = Some (header_fields (header_at c n)).
Proof.
  intros Hn. rewrite encoded_header_value_run by done.
  pose proof (served_block_decodes _ c Hf n Hn) as Hd. unfold decode_block in Hd.
  apply bind_Some in Hd as (h & Hh & Hd). apply bind_Some in Hd as (f & Hdec & [= <- <-]). done.
Qed.

Lemma zip_seqZ {A} (f : Z → A) a n :
  zip (seqZ a n) (map f (seqZ a n)) = map (λ i, (i, f i)) (seqZ a n).
Proof. generalize (seqZ a n). intros l. induction l as [|x l IH]; cbn; [done|by rewrite IH]. Qed.

Lemma mapM_served {A B} (f : A → option B) (g : A → B) l :
  Forall (λ x, f x = Some (g x)) l → mapM f l = Some (map g l).
Proof. induction 1 as [|x l Hx _ IH]; [done|]. cbn. by rewrite Hx, IH. Qed.

Lemma max_header_len_bound hs m0 :
  (m0 ≤ MAX_HEADER_SIZE)%nat → Forall (λ h, (length (encode h) ≤ MAX_HEADER_SIZE)%nat) hs →
  (foldl (λ max_size header,
    if decide (max_size < length (encode header)) then length (encode header) else max_size)
    m0 hs ≤ MAX_HEADER_SIZE)%nat.
Proof.
  intros Hm Hhs. revert m0 Hm. induction Hhs; intros m0 Hm; cbn [foldl]; [done|].
  apply IHHhs. by case_decide.
Qed.
End ServedFacts.

(** ** Properties *)
Section Properties.
Context `{Environment, Clients, CircuitBuilderLaws, !HashingLaws, AvailNode}.

(** C40: the unit tests of the decoders and of the header hash pass, with every
    circuit builder, and against every node that serves a chain with the blocks they
    ask for; the header hash test for a fixed size passes for headers of that size
    only. *)
Theorem header_tests_pass c fetcher first num size :
  serves c → chain_format MAX_HEADER_SIZE c → RpcDataFetcher_new = Ret fetcher →
  0 ≤ first → first + Z.of_nat num ≤ ch_head c →
  test_decode_compact_int = Ret () ∧ test_decode_precommit = Ret ()
  ∧ test_decode_headers first num = Ret () ∧ test_hash_headers first num = Ret ()
  ∧ (∃ m, test_max_header_len first num = Ret m ∧ (m ≤ MAX_HEADER_SIZE)%nat)
  ∧ (test_blake2b_correctness first size = Ret () ↔ length (encode (header_at c first)) = size).
Proof.
  intros Hc Hf Hnew Hfirst Hlast.
  assert (∀ n, n ∈ seqZ first (Z.of_nat num) → 0 ≤ n ≤ ch_head c) as Hin
    by (intros n Hn%elem_of_seqZ; lia).
  split_and!.
  - apply foldM_tests. unfold compact_test_cases.
    repeat constructor; rewrite compact_case by by_decide; cbn [prove expect mbind outcome_bind];
      by rewrite assert_eq_same.
  - unfold test_decode_precommit. rewrite decode_precommit_run by by_decide. vm_compute. reflexivity.
  - unfold test_decode_headers. rewrite (fetch_headers_run c Hc fetcher Hnew) by done.
    cbn [mbind outcome_bind]. rewrite slice_headers_run. cbn [mbind outcome_bind].
    rewrite zip_seqZ. erewrite (mapM_served _ (λ _, ())); [done|].
    apply Forall_map, Forall_forall. intros n Hn%Hin. cbn.
    apply check_decoded_same. destruct (header_decodes c Hf n Hn) as [_ ->].
    unfold header_fields. by rewrite (sv_number c Hc).
  - unfold test_hash_headers. rewrite (fetch_headers_run c Hc fetcher Hnew) by done.
    cbn [mbind outcome_bind]. rewrite slice_headers_run. cbn [mbind outcome_bind].
    rewrite (mapM_served _ hash).
    2: { apply Forall_map, Forall_forall. intros n Hn%Hin. by destruct (header_decodes c Hf n Hn). }
    cbn [prove expect mbind outcome_bind]. apply (foldM_tests (λ '(calculated_hash, x), _)).
    generalize (map (header_at c) (seqZ first (Z.of_nat num))). intros l.
    induction l; constructor; [apply assert_eq_same|done].
  - unfold test_max_header_len. rewrite (fetch_headers_run c Hc fetcher Hnew) by done.
    eexists. split; [reflexivity|]. apply max_header_len_bound; [lia|].
    apply Forall_map, Forall_forall. intros n Hn%elem_of_seqZ. apply (cf_fits _ c Hf). lia.
  - pose proof (hf_hash _ (cf_header MAX_HEADER_SIZE c Hf first ltac:(lia))) as Hhash.
    unfold test_blake2b_correctness. rewrite Hnew. cbn [mbind outcome_bind].
    rewrite (get_header_run c Hc) by lia. cbn [mbind outcome_bind].
    rewrite <- Hhash, assert_eq_same. cbn [mbind outcome_bind].
    rewrite assert_eq_Ret. split; [by intros [? _]|]. intros <-. split; [done|].
    rewrite curta_blake2b_variable_spec by lia. cbn [prove expect mbind outcome_bind].
    rewrite Nat2Z.id, take_ge by lia. by rewrite <- Hhash, assert_eq_same.
Qed.
End Properties.

(** *** Logs, justifications and ranges *)
Section CircuitFacts.
Context `{CircuitBuilderLaws}.

(** The prefix of a log that announces authorities. *)
Lemma layout_consensus_log hb start keys :
  log_layout hb start keys → (start + MAX_PREFIX_LENGTH ≤ length hb)%nat →
  verify_consensus_log hb.[start to start + MAX_PREFIX_LENGTH] = Some ().
Proof.
  intros (before & skipped & after & -> & <-) Hlen. apply verify_consensus_log_run.
  unfold slice. rewrite drop_app_length. unfold consensus_log. cbn [app].
  consts. replace (length before + _ - length before)%nat with 17%nat by lia. done.
Qed.

(** The trusted header is the one that the first header of the range names. *)
Lemma verify_subchain_trusted MAX hint trusted th th' target out :
  verify_subchain MAX hint trusted th target = Some out →
  is_Some (verify_subchain MAX hint trusted th' target) ↔ th' = th.
Proof.
  unfold verify_subchain. intros (o & -> & Hrest)%bind_Some. cbn [mbind option_bind].
  rewrite !assert_is_equal_spec in *.
  destruct (decide (th = start_parent o)) as [->|]; [|done].
  destruct (decide (target = end_block o)) as [_|]; [|done].
  case_decide; cbn; [by split; [|eexists]|by split; [intros []|]].
Qed.
End CircuitFacts.

Section CircuitProperties.
Context `{CircuitBuilderLaws, !HashingLaws, DummyValues, AvailNode, RedisServer}.
Context (avail_chain_id : string).

(** C39: the unit tests of the circuits' gadgets pass against a node that serves a
    chain.  The prefix test passes for an epoch that has ended; the justification
    test, for the last block of an epoch with a finality proof; the subchain test,
    exactly for the hash of the trusted block. *)
Theorem gadget_tests_pass c MAX MAX_NUM_HEADERS n proof st trusted target th :
  let id := set_id c (n - 1) in
  serves c → epochs c → chain_format MAX_HEADER_SIZE c → log_format →
  rotates MAX c n → (length (encode (header_at c n)) + MAX_PREFIX_LENGTH ≤ MAX_HEADER_SIZE)%nat →
  40 * Z.of_nat MAX < 2 ^ 31 → final_epoch_end c MAX n proof → dummies_ok →
  0 ≤ trusted < target → target ≤ ch_head c →
  target - trusted ≤ Z.of_nat (HEADERS_PER_MAP * jobs MAX_NUM_HEADERS) →
  trusted + Z.of_nat (HEADERS_PER_MAP * jobs MAX_NUM_HEADERS) < 2 ^ 32 →
  test_verify_prefix_epoch_end_header MAX id = Ret ()
  ∧ test_verify_simple_justification avail_chain_id MAX st n (hash (header_at c n)) id
      (compute_authority_set_hash (authorities_of c (n - 1))) = Ret ()
  ∧ (test_verify_subchain MAX_NUM_HEADERS trusted th target = Ret () ↔ th = hash (header_at c trusted)).
Proof.
  intros id Hc He Hf Hlog Hro Hroom HM Hfe Hd Ht Htg Hfit Hsize. split_and!.
  - unfold test_verify_prefix_epoch_end_header.
    destruct (rotate_hint_run MAX_HEADER_SIZE c Hc Hf MAX He Hlog id n) as (p & -> & Hlay & Hp);
      [apply Hro|done|done|].
    cbn [mbind outcome_bind rotation target_header next_authority_set_start_position].
    assert (length (header_bytes (padded_header MAX_HEADER_SIZE (header_at c n)))
      = MAX_HEADER_SIZE) as Hlen
      by (apply padded_header_bytes, (cf_fits _ c Hf); destruct (ro_epoch_end _ _ _ Hro); lia).
    rewrite get_fixed_subarray_spec, Nat2Z.id by (rewrite ?Hlen; lia). cbn [mbind option_bind].
    rewrite (layout_consensus_log _ _ (authorities_of c n)) by (done || lia). done.
  - unfold test_verify_simple_justification.
    destruct (final_block_hint avail_chain_id c Hc He MAX n proof st Hfe Hd) as (j & Hj & Hjb & Hjv).
    fold id in Hj, Hjv. rewrite Hj. cbn [mbind outcome_bind].
    pose proof (ju_block _ _ _ _ (fe_justifies _ _ _ _ Hfe)). pose proof (sv_range c Hc).
    pose proof (set_id_bound c He (n - 1) ltac:(lia)) as Hid.
    pose proof (set_id_nonneg c He (n - 1) ltac:(lia)) as Hid0. fold id in Hid, Hid0.
    rewrite (proj2 (verify_simple_justification_run MAX (λ _ _, j) n (hash (header_at c n)) id _ Hjb
      ltac:(unfold is_u32; lia) ltac:(unfold is_u64; lia))) by done. done.
  - unfold test_verify_subchain, TestSubchainVerificationCircuit.
    destruct (verify_subchain_served MAX_HEADER_SIZE c Hc Hf ltac:(by_decide) MAX_NUM_HEADERS
      trusted target) as (out & Hout & _); [done..|].
    rewrite <- (verify_subchain_trusted _ _ _ _ th _ _ Hout).
    change (MAX_HEADER_CHUNK_SIZE * BLAKE2B_CHUNK_SIZE_BYTES)%nat with MAX_HEADER_SIZE.
    destruct (verify_subchain MAX_NUM_HEADERS (range_hint MAX_HEADER_SIZE) trusted th target); cbn.
    + split; [by eexists|done].
    + split; [done|by intros []].
Qed.
End CircuitProperties.

(** ** Witnesses *)
Import Ref RefNode RefRedis Sample.
#[local] Existing Instance sample_node.

#[local] Instance test_environment : Environment := {|
  env_var name := if decide (name = "AVAIL_CHAIN_ID") then Some "avail" else Some "value"
|}.
#[local] Instance test_clients : Clients := {|
  avail_client_new _ := true;
  redis_client_open _ := true;
  provider_try_from _ := true;
  parse_address _ := Some (replicate 20 7);
  wallet_from_str _ := Some 1;
|}.

Lemma sample_format : chain_format MAX_HEADER_SIZE (chain_of old_keys).
Proof. apply ref_chain_format; [done|by_decide|by_decide]. Qed.

Lemma header_tests_pass_witness :
  test_decode_compact_int = Ret () ∧ test_decode_precommit = Ret ()
  ∧ test_decode_headers 1 3 = Ret () ∧ test_hash_headers 1 3 = Ret ()
  ∧ (∃ m, test_max_header_len 1 3 = Ret m ∧ (m ≤ MAX_HEADER_SIZE)%nat)
  ∧ (test_blake2b_correctness 1 100 = Ret ()
     ↔ length (encode (header_at (chain_of old_keys) 1)) = 100%nat).
Proof.
  apply (header_tests_pass (chain_of old_keys) ("value", "avail")); try by_decide.
  - apply chain_serves.
  - exact sample_format.
Defined.

Lemma gadget_tests_pass_witness :
  test_verify_prefix_epoch_end_header 3 0 = Ret ()
  ∧ test_verify_simple_justification "avail" 3 empty 2 (hash (header_at (chain_of old_keys) 2)) 0
      (compute_authority_set_hash old_keys) = Ret ()
  ∧ (test_verify_subchain 16 0 (replicate 32 0) 3 = Ret ()
     ↔ replicate 32 0 = hash (header_at (chain_of old_keys) 0)).
Proof.
  apply (gadget_tests_pass "avail" (chain_of old_keys) 3 16 2 sample_proof empty); try by_decide.
  - apply chain_serves.
  - apply chain_epochs.
  - exact sample_format.
  - apply ref_log_format.
  - exact sample_rotates.
  - exact sample_final.
  - exact sample_dummies_ok.
Defined.
