(* ===== verification/CircuitTests.v ===== *)
(** * The unit tests of the circuits and of the data fetcher

    The test modules of circuits/header_range.rs, rotate.rs, dummy_header_range.rs,
    dummy_rotate.rs and input/mod.rs, as programs.  As in [GadgetTests], what a test
    fixes to data of Avail's networks is an argument, and a test returns what it
    prints. *)

From stdpp Require Import gmap sorting.
From S2P Require Import Prelude Parse Environment Consts Vars Builder Reference Decoder Offchain.
From S2P Require Import Justification Rotate Subchain Types Redis Fetcher Hints Circuits Finality.
From S2P Require Import GadgetTests.

(** ** The circuits *)
Section CircuitTests.
Context `{CircuitBuilder, Hashing, DummyValues, AvailNode, RedisServer} (avail_chain_id : string).

(** The tests of header_range.rs, which differ in the sizes of the circuit and in the
    block that they step to. *)
Definition prove_header_range (NUM_AUTHORITIES NUM_HEADERS : nat) (st : store)
    (trusted_block : U32) (trusted_header : Bytes32) (target_block : U32)
    (authority_set_id : U64) (authority_set_hash : Bytes32) : outcome (Bytes32 * Bytes32 * Bytes32) :=
  justification ←
    HintSimpleJustification avail_chain_id NUM_AUTHORITIES st target_block authority_set_id;
  prove (HeaderRangeCircuit.define NUM_AUTHORITIES NUM_HEADERS (range_hint MAX_HEADER_SIZE)
           (λ _ _, justification) trusted_block trusted_header authority_set_id authority_set_hash
           target_block).

Definition test_header_range_small := prove_header_range 5 32.
Definition test_header_range := prove_header_range 76 100.
Definition test_header_range_large := prove_header_range MAX_AUTHORITY_SET_SIZE 256.

(** The tests of rotate.rs. *)
Definition prove_rotate (NUM_AUTHORITIES : nat) (st : store) (authority_set_id : U64)
    (authority_set_hash : Bytes32) : outcome Bytes32 :=
  let MAX_SUBARRAY_SIZE := (NUM_AUTHORITIES * VALIDATOR_LENGTH + DELAY_LENGTH)%nat in
  rotate_var ← RotateHint MAX_HEADER_SIZE NUM_AUTHORITIES authority_set_id;
  justification ← HintSimpleJustification avail_chain_id NUM_AUTHORITIES st
                    (epoch_end_block_number rotate_var) authority_set_id;
  prove (RotateCircuit.define NUM_AUTHORITIES MAX_SUBARRAY_SIZE (λ _, rotate_var)
           (λ _ _, justification) authority_set_id authority_set_hash).

Definition test_rotate_small_authority_set := prove_rotate 8.
Definition test_rotate_medium_authority_set := prove_rotate 100.
Definition test_rotate_large_authority_set := prove_rotate 300.

Definition test_dummy_header_range (input_bytes expected_output : bytes) : outcome unit :=
  output ← DummyHeaderRange.run 256 input_bytes;
  assert_eq output expected_output.

Definition test_dummy_rotate (input_bytes expected_output : bytes) : outcome unit :=
  output ← DummyRotate.run input_bytes;
  assert_eq output expected_output.
End CircuitTests.

(** ** The data fetcher *)
Section FetcherTests.
Context `{Environment, Clients, Hashing, DummyValues, AvailNode, RedisServer}.

Definition test_get_block_headers_range (start_block end_block first last : U32) : outcome bytes :=
  _ ← RpcDataFetcher_new;
  _ ← get_block_headers_range start_block end_block;
  '(_, data_root_commitment) ← get_merkle_root_commitments 256 first last;
  Ret data_root_commitment.

Definition test_get_block_hash (block_number : U32) : outcome Bytes32 :=
  _ ← RpcDataFetcher_new;
  get_block_hash block_number.

(** The hash of the header, and the hash and the id of the set that justifies it. *)
Definition test_get_header_hash (target_block : U32) : outcome (Bytes32 * bytes * U64) :=
  _ ← RpcDataFetcher_new;
  header ← get_header target_block;
  before ← checked_sub target_block 1;
  authority_set_id ← get_authority_set_id before;
  authority_set_hash ← fetch_authority_set_hash before;
  Ret (hash header, authority_set_hash, authority_set_id).

(** The body of the loop of [test_get_authority_set_id]: it breaks with the genesis
    of the contract, where the number of authorities changes. *)
Definition genesis_step (block : U32) : outcome (U32 + U64 * bytes * U32 * Bytes32) :=
  authority_set_id ← get_authority_set_id block;
  previous_id ← checked_sub authority_set_id 1;
  prev_epoch_end_block ← last_justified_block previous_id;
  curr_authorities ← get_authorities prev_epoch_end_block;
  epoch_end_block ← last_justified_block authority_set_id;
  next_authorities ← get_authorities epoch_end_block;
  if decide (length curr_authorities ≠ length next_authorities) then
    genesis_header ← get_header epoch_end_block;
    Ret (inr (authority_set_id, compute_authority_set_hash curr_authorities, epoch_end_block,
              hash genesis_header))
  else
    block ← checked_add 32 block 1000;
    Ret (inl block).

(** The loop, cut off after [fuel] iterations. *)
Definition test_get_authority_set_id (fuel : nat) (block : U32)
    : outcome (U64 * bytes * U32 * Bytes32) :=
  _ ← RpcDataFetcher_new;
  loop fuel genesis_step block.

(** [let _ = f().await]: an [Err] is dropped, a panic is not. *)
Definition discard {A} (o : outcome A) : outcome unit :=
  match o with
  | Ret _ | Err _ => Ret ()
  | Panic msg => Panic msg
  | OutOfFuel => OutOfFuel
  end.

Definition test_get_simple_justification_change_authority_set (block : U32) (st : store)
    : outcome (U64 * bytes * Bytes32) :=
  '(_, avail_chain_id) ← RpcDataFetcher_new;
  before ← checked_sub block 1;
  authority_set_id ← get_authority_set_id before;
  authority_set_hash ← fetch_authority_set_hash before;
  header ← get_header block;
  _ ← discard (get_justification_from_block avail_chain_id 100 block st);
  Ret (authority_set_id, authority_set_hash, hash header).

Definition test_get_new_authority_set (target_authority_set_id : U64) : outcome bytes :=
  _ ← RpcDataFetcher_new;
  epoch_end_block_number ← last_justified_block target_authority_set_id;
  _ ← assert (negb (bool_decide (epoch_end_block_number = 0))) "assertion `left != right` failed";
  before ← checked_sub epoch_end_block_number 1;
  previous_authority_set_id ← get_authority_set_id before;
  authority_set_id ← get_authority_set_id epoch_end_block_number;
  next_id ← checked_add 64 previous_authority_set_id 1;
  _ ← assert_eq next_id authority_set_id;
  _ ← assert_eq previous_authority_set_id target_authority_set_id;
  rotate_data ← get_header_rotate MAX_HEADER_SIZE MAX_AUTHORITY_SET_SIZE epoch_end_block_number;
  Ret (hr_new_authority_set_hash rotate_data).

(** The block number in the message that the first voter of the proof signed. *)
Definition test_grandpa_prove_finality (block_number : U32) : outcome U32 :=
  _ ← RpcDataFetcher_new;
  before ← checked_sub block_number 1;
  authority_set_id ← get_authority_set_id before;
  last_justified_block ← last_justified_block authority_set_id;
  _ ← get_header last_justified_block;
  _ ← fetch_authority_set_hash before;
  _ ← get_authority_set_id last_justified_block;
  next_block ← checked_add 32 last_justified_block 1;
  justification ← expect (grandpa_proveFinality next_block)
    "called `Result::unwrap()` on an `Err` value";
  authority_set_id ← get_authority_set_id before;
  first ← expect (cm_precommits (gj_commit justification) !! 0%nat) "index out of bounds";
  let signed_message :=
    encode_signed_message (PrecommitMessage (sp_precommit first)) (gj_round justification)
      authority_set_id in
  '(_, block_number, _, _) ← Input.decode_precommit signed_message;
  Ret block_number.

Definition test_query_redis_block_range (first second : U64) (st : store) : outcome (list U32) :=
  '(_, avail_chain_id) ← RpcDataFetcher_new;
  prev_last_justified_block ← last_justified_block first;
  last_justified_block ← last_justified_block second;
  find_justifications_in_range avail_chain_id prev_last_justified_block last_justified_block st.

(** The body of the loop of [test_get_header_rotate]: it breaks at the first epoch
    that has not ended. *)
Definition rotate_step (start_epoch : U64) : outcome (U64 + U64) :=
  epoch_end_block ← last_justified_block start_epoch;
  if decide (epoch_end_block = 0) then Ret (inr start_epoch) else
  rotate_data ← get_header_rotate MAX_HEADER_SIZE MAX_AUTHORITY_SET_SIZE epoch_end_block;
  _ ← get_authorities epoch_end_block;
  _ ← expect (hr_header_bytes rotate_data !! hr_start_position rotate_data) "index out of bounds";
  start_epoch ← checked_add 64 start_epoch 1;
  Ret (inl start_epoch).

Definition test_get_header_rotate (fuel : nat) : outcome U64 :=
  _ ← RpcDataFetcher_new;
  loop fuel rotate_step 1.
End FetcherTests.

(** ** Helper lemmas *)

Lemma assert_eq_iff {A} `{EqDecision A} (left right : A) : assert_eq left right = Ret () ↔ right = left.
Proof. unfold assert_eq. rewrite bool_decide_decide. case_decide; naive_solver. Qed.

Lemma slice_checked_prefix {A} (l s : list A) a b :
  (b ≤ length l)%nat → slice_checked (l ++ s) a b = slice_checked l a b.
Proof.
  intros Hb. unfold slice_checked. rewrite length_app.
  destruct (decide (a ≤ b ≤ length l)%nat).
  - rewrite decide_True by lia. f_equal. unfold slice. rewrite drop_app_le by lia.
    rewrite take_app_le; [done|]. rewrite length_drop. lia.
  - by rewrite decide_False by lia.
Qed.

(** The dummy reads 40 bytes. *)
Lemma dummy_rotate_prefix `{Hashing, AvailNode} l s :
  (40 ≤ length l)%nat → DummyRotate.run (l ++ s) = DummyRotate.run l.
Proof. intros Hl. unfold DummyRotate.run. by rewrite !slice_checked_prefix by lia. Qed.

(** *** The data fetcher *)
Section FetcherFacts.
Context `{AvailNode} (c : chain) (Hc : serves c) (He : epochs c).

(** What the search finds for any set: its last block, or 0 if it has not ended. *)
Lemma last_justified_pending id :
  0 ≤ id → id + 1 < 2 ^ 64 → set_id c (ch_head c) ≤ id → last_justified_block id = Ret 0.
Proof.
  intros H0 H1 Hid. destruct (last_justified_block_run c Hc He id H0 H1) as (n & -> & Hn).
  unfold search_result in Hn. rewrite decide_False in Hn by lia. by subst.
Qed.

Lemma fetch_authority_set_hash_run `{HashingLaws} n :
  0 ≤ n ≤ ch_head c → authorities_of c n ≠ [] →
  fetch_authority_set_hash n = Ret (compute_authority_set_hash (authorities_of c n)).
Proof.
  intros Hn Hne. unfold fetch_authority_set_hash. rewrite (get_authorities_run c Hc) by done.
  cbn [mbind outcome_bind]. rewrite bool_decide_eq_true_2; [done|].
  by rewrite length_authority_set_hash, decide_False.
Qed.

(** The epoch ends from one to the next are these two. *)
Lemma consecutive_epoch_ends id p n m :
  last_justified c id p → last_justified c (id + 1) n →
  (p ≤ m ≤ n ∧ epoch_end c m) ↔ m = p ∨ m = n.
Proof.
  intros Hp Hn. pose proof Hp as (? & Ep & Ep'). pose proof Hn as (? & En & En').
  assert (p < n) as Hpn by (pose proof (last_justified_order c He (id + 1) n p Hn); lia). split.
  - intros [Hm Hend]. destruct (decide (m = p)); [by left|]. destruct (decide (m = n)); [by right|].
    exfalso. apply (no_epoch_end c He p (n - 1) m) in Hend; lia.
  - intros [-> | ->]; (split; [lia|]); unfold epoch_end; [by rewrite Ep'|by rewrite En'].
Qed.
End FetcherFacts.

(** *** The loops *)
Section Loops.
Context `{HashingLaws, AvailNode} (c : chain) (Hc : serves c) (He : epochs c).

(** The last blocks of the set before that of [block], and of the set of [block]. *)
Record ended_around (block prev next : U32) : Prop := {
  ea_block : 0 ≤ block ≤ ch_head c;
  ea_prev : last_justified c (set_id c block - 1) prev;
  ea_next : last_justified c (set_id c block) next;
}.

Lemma genesis_step_run block prev next :
  ended_around block prev next →
  genesis_step block =
    if decide (length (authorities_of c prev) ≠ length (authorities_of c next)) then
      Ret (inr (set_id c block, compute_authority_set_hash (authorities_of c prev), next,
                hash (header_at c next)))
    else block' ← checked_add 32 block 1000; Ret (inl block').
Proof.
  intros [Hb Hp Hn]. destruct (last_justified_u64 c Hc He _ _ Hp) as (Hp1 & ? & ?).
  destruct (last_justified_u64 c Hc He _ _ Hn) as (Hn1 & ? & ?). unfold genesis_step.
  rewrite (get_authority_set_id_run c Hc block) by done. cbn [mbind outcome_bind].
  rewrite checked_sub_Ret by lia. cbn [mbind outcome_bind].
  rewrite (last_justified_block_found c Hc He _ prev Hp) by lia. cbn [mbind outcome_bind].
  rewrite (get_authorities_run c Hc prev) by lia. cbn [mbind outcome_bind].
  rewrite (last_justified_block_found c Hc He _ next Hn) by lia. cbn [mbind outcome_bind].
  rewrite (get_authorities_run c Hc next) by lia. cbn [mbind outcome_bind].
  case_decide; [|done]. by rewrite (get_header_run c Hc) by lia.
Qed.

(** The loop stops at the first probe around which the number changes. *)
Lemma genesis_loop_run k fuel block :
  (k < fuel)%nat →
  (∀ i, (i < k)%nat → ∃ prev next, ended_around (block + 1000 * Z.of_nat i) prev next
    ∧ length (authorities_of c prev) = length (authorities_of c next)) →
  ∀ prev next, ended_around (block + 1000 * Z.of_nat k) prev next →
  length (authorities_of c prev) ≠ length (authorities_of c next) →
  loop fuel genesis_step block
  = Ret (set_id c (block + 1000 * Z.of_nat k), compute_authority_set_hash (authorities_of c prev), next,
         hash (header_at c next)).
Proof.
  revert fuel block. induction k as [|k IH]; intros [|fuel] block Hf Hsame prev next Hea Hne; try lia;
    cbn [loop].
  - rewrite Z.add_0_r in Hea |- *. rewrite (genesis_step_run block prev next Hea), decide_True by done.
    done.
  - destruct (Hsame 0%nat) as (p & n & Hpn & E); [lia|]. rewrite Z.add_0_r in Hpn.
    rewrite (genesis_step_run block p n Hpn), decide_False by (intros Hd; by apply Hd).
    pose proof (ea_block _ _ _ Hea) as Hb. pose proof (sv_range c Hc).
    rewrite checked_add_Ret by lia. cbn [mbind outcome_bind].
    replace (block + 1000 * Z.of_nat (S k)) with (block + 1000 + 1000 * Z.of_nat k) in * by lia.
    apply IH; [lia| |done|done]. intros i Hi. destruct (Hsame (S i)) as (p' & n' & Hpn' & E'); [lia|].
    exists p', n'.
    by replace (block + 1000 + 1000 * Z.of_nat i) with (block + 1000 * Z.of_nat (S i)) by lia.
Qed.

Context `{DummyValues} (Hf : chain_format MAX_HEADER_SIZE c) (Hlog : log_format).

Lemma rotate_step_run id :
  0 ≤ id < 2 ^ 63 →
  (∀ n, last_justified c id n → rotates MAX_AUTHORITY_SET_SIZE c n
    ∧ (length (encode (header_at c n)) < MAX_HEADER_SIZE)%nat) →
  rotate_step id = Ret (if decide (set_id c (ch_head c) ≤ id) then inr id else inl (id + 1)).
Proof.
  intros Hid Hro. unfold rotate_step. case_decide as Hend.
  { by rewrite (last_justified_pending c Hc He) by lia. }
  pose proof (sv_range c Hc).
  destruct (set_id_crossing c He id (ch_head c)) as (n & Hn & _); [lia..|].
  destruct (Hro n Hn) as [Hrot Hroom].
  rewrite (last_justified_block_found c Hc He id n Hn) by lia. cbn [mbind outcome_bind].
  pose proof Hn as (Hnr & _). rewrite decide_False by lia.
  destruct (get_header_rotate_run MAX_HEADER_SIZE MAX_AUTHORITY_SET_SIZE c Hc He Hf Hlog n Hrot
    ltac:(by_decide)) as (d & p & -> & E & _ & _ & Ep & _ & _ & _ & Hp).
  cbn [mbind outcome_bind]. rewrite (get_authorities_run c Hc n) by lia. cbn [mbind outcome_bind].
  destruct (lookup_lt_is_Some_2 (hr_header_bytes d) (hr_start_position d)) as (b & Hbyte).
  { rewrite E, Ep, padded_header_bytes by lia. lia. }
  rewrite Hbyte. cbn [expect mbind outcome_bind]. by rewrite checked_add_Ret by lia.
Qed.

Lemma rotate_loop_run fuel id :
  0 ≤ id → (0 < fuel)%nat → set_id c (ch_head c) < id + Z.of_nat fuel →
  (∀ n, epoch_end c n → rotates MAX_AUTHORITY_SET_SIZE c n
    ∧ (length (encode (header_at c n)) < MAX_HEADER_SIZE)%nat) →
  id < 2 ^ 63 → loop fuel rotate_step id = Ret (Z.max id (set_id c (ch_head c))).
Proof.
  intros Hid Hpos Hfuel Hro Hmax. pose proof (sv_range c Hc) as Hr.
  pose proof (set_id_bound c He (ch_head c) ltac:(lia)) as Hb.
  revert id Hid Hpos Hfuel Hmax.
  induction fuel as [|fuel IH]; intros id Hid Hpos Hfuel Hmax; cbn [loop]; [lia|].
  rewrite rotate_step_run; [|done|].
  2: { intros n Hn. apply Hro. unfold epoch_end. pose proof Hn as (_ & _ & E). by rewrite E. }
  case_decide; cbn [mbind outcome_bind]; [f_equal; lia|]. rewrite IH by lia. f_equal. lia.
Qed.
End Loops.

(** *** The tests of the circuits *)
Section CircuitFacts.
Context `{CircuitBuilderLaws, !HashingLaws, DummyValues, AvailNode, RedisServer}.
Context (avail_chain_id : string) (c : chain) (Hc : serves c) (He : epochs c).
Context (Hf : chain_format MAX_HEADER_SIZE c) (Hd : dummies_ok).

Lemma justified_set_hash MA n proof :
  justifies c MA n proof →
  length (compute_authority_set_hash (authorities_of c (n - 1))) = 32%nat.
Proof.
  intros [Hne _]%justifies_nonempty. rewrite length_authority_set_hash, decide_False; [done|].
  intros E. by rewrite E in Hne.
Qed.

(** What the tests of the header range circuit return at the end of an epoch. *)
Lemma prove_header_range_run MA MAX st trusted target proof :
  0 ≤ trusted < target → final_epoch_end c MA target proof →
  trusted + Z.of_nat (HEADERS_PER_MAP * jobs MAX) < 2 ^ 32 →
  target - trusted ≤ Z.of_nat (HEADERS_PER_MAP * jobs MAX) →
  let th := hash (header_at c trusted) in
  ∃ sr dr, prove_header_range avail_chain_id MA MAX st trusted th target (set_id c (target - 1))
        (compute_authority_set_hash (authorities_of c (target - 1)))
      = Ret (hash (header_at c target), sr, dr)
    ∧ commits_to MAX {| target_header_hash := hash (header_at c target);
        state_root_merkle_root := sr; data_root_merkle_root := dr |} th
        (served_chain MAX_HEADER_SIZE c trusted target).
Proof.
  intros Ht Hfe Hroom Hfit th. pose proof (ju_block _ _ _ _ (fe_justifies _ _ _ _ Hfe)).
  destruct (final_block_hint avail_chain_id c Hc He MA target proof st Hfe Hd) as (j & Hj & Hjb & Hjv).
  destruct (header_range_justified c Hc He MAX_HEADER_SIZE MA MAX (λ _ _, j) trusted target Hf)
    as (sr & dr & Hrun & Hct); [by_decide|done|lia|done..|].
  exists sr, dr. split; [|done]. unfold prove_header_range. rewrite Hj. cbn [mbind outcome_bind].
  unfold prove. fold th in Hrun. by rewrite Hrun.
Qed.

Lemma prove_rotate_run MAX st id n proof (Hlog : log_format) :
  last_justified c id n → rotates MAX c n → final_epoch_end c MAX n proof →
  (length (encode (header_at c n)) + MAX_PREFIX_LENGTH + (MAX * VALIDATOR_LENGTH + DELAY_LENGTH)
     ≤ MAX_HEADER_SIZE)%nat → 40 * Z.of_nat MAX < 2 ^ 31 →
  prove_rotate avail_chain_id MAX st id (compute_authority_set_hash (authorities_of c (n - 1)))
  = Ret (compute_authority_set_hash (authorities_of c n)).
Proof.
  intros Hlast Hro Hfe Hroom HM. unfold prove_rotate.
  destruct (rotate_hint_run MAX_HEADER_SIZE c Hc Hf MAX He Hlog id n Hlast Hro HM)
    as (p & -> & Hlay & Hp).
  cbn [mbind outcome_bind epoch_end_block_number rotation].
  destruct (final_block_hint avail_chain_id c Hc He MAX n proof st Hfe Hd) as (j & Hj & Hjb & Hjv).
  pose proof Hlast as (_ & _ & Hid). rewrite Hid in Hj, Hjv. rewrite Hj. cbn [mbind outcome_bind].
  rewrite (proj2 (rotate_circuit_run MAX_HEADER_SIZE c Hc Hf MAX He (λ _ _, j) id _ n p
    (λ _, rotation MAX_HEADER_SIZE MAX c n p) _ Hlast Hro (do_key Hd) Hroom HM Hjb Hlay Hp eq_refl))
    by by split. done.
Qed.
End CircuitFacts.

(** *** The tests of the data fetcher *)
Section FetcherRuns.
Context `{Environment, Clients, CircuitBuilderLaws, !HashingLaws, DummyValues, AvailNode, RedisServer}.
Context (url avail_chain_id : string) (Hnew : RpcDataFetcher_new = Ret (url, avail_chain_id)).
Context (c : chain) (Hc : serves c) (He : epochs c).

Lemma headers_range_test a b first last :
  0 ≤ a → b ≤ ch_head c → 0 ≤ first ≤ last → last ≤ ch_head c → last - first ≤ 256 →
  test_get_block_headers_range a b first last
  = Ret (merkle_root 8 (padded 256 (map av_data_root
           (map (header_at c) (seqZ (first + 1) (last - first)))))).
Proof.
  intros Ha Hb Hfirst Hlast Hfit. unfold test_get_block_headers_range.
  rewrite Hnew. cbn [mbind outcome_bind].
  rewrite (get_block_headers_range_run c Hc) by done. cbn [mbind outcome_bind].
  change 256 with (2 ^ Z.of_nat 8) at 1.
  by rewrite (get_merkle_root_commitments_run c Hc 8 first last) by (done || lia).
Qed.

Lemma header_hash_test n :
  0 < n ≤ ch_head c → authorities_of c (n - 1) ≠ [] →
  test_get_header_hash n = Ret (hash (header_at c n),
    compute_authority_set_hash (authorities_of c (n - 1)), set_id c (n - 1)).
Proof.
  intros Hn Hne. unfold test_get_header_hash. rewrite Hnew. cbn [mbind outcome_bind].
  rewrite (get_header_run c Hc) by lia. cbn [mbind outcome_bind].
  rewrite checked_sub_Ret by lia. cbn [mbind outcome_bind].
  rewrite (get_authority_set_id_run c Hc) by lia. cbn [mbind outcome_bind].
  by rewrite (fetch_authority_set_hash_run c Hc) by (done || lia).
Qed.

(** The test returns unless the fetcher panics; an error is dropped. *)
Lemma change_authority_set_test n st :
  0 < n ≤ ch_head c → authorities_of c (n - 1) ≠ [] →
  discard (get_justification_from_block avail_chain_id 100 n st) = Ret () →
  test_get_simple_justification_change_authority_set n st
  = Ret (set_id c (n - 1), compute_authority_set_hash (authorities_of c (n - 1)), hash (header_at c n)).
Proof.
  intros Hn Hne Hget.
  unfold test_get_simple_justification_change_authority_set. rewrite Hnew. cbn [mbind outcome_bind].
  rewrite checked_sub_Ret by lia. cbn [mbind outcome_bind].
  rewrite (get_authority_set_id_run c Hc) by lia. cbn [mbind outcome_bind].
  rewrite (fetch_authority_set_hash_run c Hc) by (done || lia).
  cbn [mbind outcome_bind]. rewrite (get_header_run c Hc) by lia. cbn [mbind outcome_bind].
  by rewrite Hget.
Qed.

Lemma new_authority_set_test (Hf : chain_format MAX_HEADER_SIZE c) (Hlog : log_format) id n :
  last_justified c id n → rotates MAX_AUTHORITY_SET_SIZE c n →
  test_get_new_authority_set id = Ret (compute_authority_set_hash (authorities_of c n)).
Proof.
  intros Hn Hro. destruct (last_justified_u64 c Hc He _ _ Hn) as (Hnr & ? & ?).
  pose proof Hn as (_ & E1 & E2). unfold test_get_new_authority_set.
  rewrite Hnew. cbn [mbind outcome_bind].
  rewrite (last_justified_block_found c Hc He id n Hn) by done. cbn [mbind outcome_bind].
  rewrite bool_decide_eq_false_2 by lia. cbn [negb assert mbind outcome_bind].
  pose proof (sv_range c Hc).
  rewrite checked_sub_Ret by lia. cbn [mbind outcome_bind].
  rewrite (get_authority_set_id_run c Hc (n - 1)) by lia. cbn [mbind outcome_bind].
  rewrite (get_authority_set_id_run c Hc n) by lia. cbn [mbind outcome_bind].
  rewrite E1, E2, checked_add_Ret by lia. cbn [mbind outcome_bind].
  rewrite !assert_eq_same. cbn [mbind outcome_bind].
  destruct (get_header_rotate_run MAX_HEADER_SIZE MAX_AUTHORITY_SET_SIZE c Hc He Hf Hlog n Hro
    ltac:(by_decide)) as (d & p & -> & _ & _ & _ & _ & _ & Ehash & _).
  cbn [mbind outcome_bind]. by rewrite Ehash.
Qed.

(** The message carries the number that the first voter voted for. *)
Lemma signed_message_number v round id :
  length (target_hash v) = 32%nat → is_u32 (target_number v) →
  ∃ hash' round' id', Input.decode_precommit (encode_signed_message (PrecommitMessage v) round id)
    = Ret (hash', target_number v, round', id').
Proof.
  intros Hlen Hn. unfold Input.decode_precommit, encode_signed_message.
  cbn [encode_signer_message encode_vote app]. unfold encode_vote.
  rewrite <- app_assoc. cbn [lookup list_lookup expect mbind outcome_bind].
  rewrite bool_decide_eq_true_2 by done. cbn [assert mbind outcome_bind].
  set (m := _ :: _).
  assert (∀ p l s a b, m = p ++ l ++ s → a = length p → b = (length p + length l)%nat →
    slice_checked m a b = Ret l) as Hat by (intros p l s a b ->; apply slice_checked_at).
  rewrite (Hat [1] (target_hash v) _ 1%nat 33%nat eq_refl eq_refl) by (cbn; lia).
  cbn [mbind outcome_bind].
  rewrite (Hat (1 :: target_hash v) (le_encode 4 (target_number v)) _ 33%nat 37%nat eq_refl)
    by (cbn [length]; rewrite ?length_le_encode; lia).
  cbn [mbind outcome_bind].
  rewrite (Hat (1 :: target_hash v ++ le_encode 4 (target_number v)) (le_encode 8 round)
    (le_encode 8 id) 37%nat 45%nat)
    by (unfold m; cbn [length app]; rewrite ?length_app, ?length_le_encode, <- ?app_assoc; done || lia).
  cbn [mbind outcome_bind].
  rewrite (Hat (1 :: target_hash v ++ le_encode 4 (target_number v) ++ le_encode 8 round) (le_encode 8 id)
    [] 45%nat 53%nat)
    by (unfold m; cbn [length app]; rewrite ?app_nil_r, ?length_app, ?length_le_encode, <- ?app_assoc;
        done || lia).
  cbn [mbind outcome_bind]. rewrite le_decode_encode, (Z.mod_small (target_number v)) by (apply Hn).
  by eexists _, _, _.
Qed.

Lemma prove_finality_test n e proof sp rest :
  0 < n ≤ ch_head c → last_justified c (set_id c (n - 1)) e → authorities_of c (n - 1) ≠ [] →
  grandpa_proveFinality (e + 1) = Some proof → cm_precommits (gj_commit proof) = sp :: rest →
  length (target_hash (sp_precommit sp)) = 32%nat →
  is_u32 (target_number (sp_precommit sp)) →
  test_grandpa_prove_finality n = Ret (target_number (sp_precommit sp)).
Proof.
  intros Hn Hlast Hne Hproof Hvotes Hlen Hnum. unfold test_grandpa_prove_finality.
  destruct (last_justified_u64 c Hc He _ _ Hlast) as (Her & ? & ?). pose proof (sv_range c Hc).
  rewrite Hnew. cbn [mbind outcome_bind]. rewrite checked_sub_Ret by lia. cbn [mbind outcome_bind].
  rewrite (get_authority_set_id_run c Hc (n - 1)) by lia. cbn [mbind outcome_bind].
  rewrite (last_justified_block_found c Hc He _ e Hlast) by done. cbn [mbind outcome_bind].
  rewrite (get_header_run c Hc) by lia. cbn [mbind outcome_bind].
  rewrite (fetch_authority_set_hash_run c Hc) by (done || lia). cbn [mbind outcome_bind].
  rewrite (get_authority_set_id_run c Hc e) by lia. cbn [mbind outcome_bind].
  rewrite checked_add_Ret by lia. cbn [mbind outcome_bind].
  rewrite Hproof. cbn [expect mbind outcome_bind].
  rewrite Hvotes. cbn [lookup list_lookup expect mbind outcome_bind].
  destruct (signed_message_number (sp_precommit sp) (gj_round proof) (set_id c (n - 1)))
    as (h & r & i & ->); done.
Qed.

(** Between the ends of two epochs in a row, the blocks of Redis and these two. *)
Lemma query_redis_test id p n st redis_blocks :
  last_justified c id p → last_justified c (id + 1) n →
  get_blocks_in_range avail_chain_id p n st = Ret redis_blocks →
  ∃ l, test_query_redis_block_range id (id + 1) st = Ret l
    ∧ Sorted Z.le l ∧ l ≡ₚ redis_blocks ++ [p; n].
Proof.
  intros Hp Hn Hredis. destruct (last_justified_u64 c Hc He _ _ Hp) as (Hpr & ? & ?).
  destruct (last_justified_u64 c Hc He _ _ Hn) as (Hnr & ? & ?). pose proof (sv_range c Hc).
  assert (p < n) as Hpn.
  { pose proof (last_justified_order c He (id + 1) n p Hn). destruct Hp as (? & ? & ?). lia. }
  unfold test_query_redis_block_range. rewrite Hnew. cbn [mbind outcome_bind].
  rewrite (last_justified_block_found c Hc He id p Hp) by done. cbn [mbind outcome_bind].
  rewrite (last_justified_block_found c Hc He (id + 1) n Hn) by done. cbn [mbind outcome_bind].
  pose proof (set_id_bound c He (ch_head c)).
  destruct (find_justifications_run c Hc avail_chain_id p n st redis_blocks He)
    as (l & ends & Hl & Hsorted & Hperm & Hnd & Hends); [lia|lia|lia|done|].
  exists l. split; [done|]. split; [done|]. rewrite Hperm. f_equiv.
  apply NoDup_Permutation; [done| |].
  - apply NoDup_cons. split; [rewrite list_elem_of_singleton; lia|apply NoDup_singleton].
  - intros m. rewrite Hends, (consecutive_epoch_ends c He id p n m) by done.
    rewrite !elem_of_cons, elem_of_nil. tauto.
Qed.
End FetcherRuns.

(** ** Properties *)
Section CircuitProperties.
Context `{CircuitBuilderLaws, !HashingLaws, DummyValues, AvailNode, RedisServer}.
Context (avail_chain_id : string).

(** C37: the unit tests of the rotate circuit and of its dummy pass against a node that
    serves a chain: at the end of an epoch with a finality proof the circuit is proved
    and outputs the hash of the next authorities, and the test of the dummy passes
    exactly when it expects that hash, whatever follows the input it reads. *)
Theorem rotate_tests_pass MAX c id n proof st :
  serves c → epochs c → chain_format MAX_HEADER_SIZE c → log_format → dummies_ok →
  last_justified c id n → rotates MAX c n → final_epoch_end c MAX n proof →
  (length (encode (header_at c n)) + MAX_PREFIX_LENGTH + (MAX * VALIDATOR_LENGTH + DELAY_LENGTH)
     ≤ MAX_HEADER_SIZE)%nat → 40 * Z.of_nat MAX < 2 ^ 31 →
  let sh := compute_authority_set_hash (authorities_of c (n - 1)) in
  let next := compute_authority_set_hash (authorities_of c n) in
  prove_rotate avail_chain_id MAX st id sh = Ret next
  ∧ ∀ rest expected, test_dummy_rotate (rotate_input id sh ++ rest) expected = Ret () ↔ expected = next.
Proof.
  intros Hc He Hf Hlog Hd Hlast Hro Hfe Hroom HM sh next.
  split; [by apply (prove_rotate_run avail_chain_id c Hc He Hf Hd MAX st id n proof Hlog)|].
  intros rest expected. unfold test_dummy_rotate.
  assert (length sh = 32%nat) as Hsh
    by (apply (justified_set_hash c MAX n proof), Hfe).
  rewrite dummy_rotate_prefix
    by (unfold rotate_input; rewrite length_app, length_be_encode, Hsh; lia).
  rewrite (dummy_rotate_run c Hc He id sh n MAX Hlast Hro Hsh). cbn [mbind outcome_bind].
  apply assert_eq_iff.
Qed.
End CircuitProperties.

Section FetcherProperties.
Context `{Environment, Clients, CircuitBuilderLaws, !HashingLaws, DummyValues, AvailNode, RedisServer}.

(** The unit tests of the data fetcher pass against a node that serves a chain
    and return what they are meant to show: around the last block [p] of a set, the
    root of a range, the hashes and ids of the set that justifies [p] and of the next,
    the number of the block that a proof after [p] finalizes, and the justified blocks
    from [p] to the end [n] of the next set.  The test of a block [m] in the middle
    of an era passes whether its justification is in the store or, since the test
    drops the error, is not.  For a set that has not ended, the test of the new
    authority set fails at its first assertion. *)
Theorem fetcher_tests_pass url avail_chain_id c st id p n m after vote rest redis_blocks
    first last :
  RpcDataFetcher_new = Ret (url, avail_chain_id) →
  serves c → epochs c → chain_format MAX_HEADER_SIZE c → log_format →
  last_justified c id p → last_justified c (id + 1) n →
  rotates MAX_AUTHORITY_SET_SIZE c p → authorities_of c (p - 1) ≠ [] →
  grandpa_proveFinality (p + 1) = Some after → cm_precommits (gj_commit after) = vote :: rest →
  sp_precommit vote = vote_for c (p + 1) →
  get_blocks_in_range avail_chain_id p n st = Ret redis_blocks →
  0 ≤ first ≤ last → last ≤ ch_head c → last - first ≤ 256 →
  0 < m ≤ ch_head c → ¬ epoch_end c m → authorities_of c (m - 1) ≠ [] →
  (∃ msg, get_justification avail_chain_id m st = Err msg)
  ∨ (∃ cj, get_justification_from_block avail_chain_id 100 m st = Ret cj) →
  let set_hash := compute_authority_set_hash (authorities_of c (p - 1)) in
  test_get_block_headers_range 0 p first last
    = Ret (merkle_root 8 (padded 256 (map av_data_root
             (map (header_at c) (seqZ (first + 1) (last - first))))))
  ∧ (∃ h, test_get_block_hash p = Ret h ∧ chain_get_header h = Some (header_at c p))
  ∧ test_get_header_hash p = Ret (hash (header_at c p), set_hash, id)
  ∧ test_get_simple_justification_change_authority_set m st
    = Ret (set_id c (m - 1), compute_authority_set_hash (authorities_of c (m - 1)), hash (header_at c m))
  ∧ test_get_new_authority_set id = Ret (compute_authority_set_hash (authorities_of c p))
  ∧ test_get_new_authority_set (set_id c (ch_head c)) = Panic "assertion `left != right` failed"
  ∧ test_grandpa_prove_finality p = Ret (p + 1)
  ∧ ∃ l, test_query_redis_block_range id (id + 1) st = Ret l
      ∧ Sorted Z.le l ∧ l ≡ₚ redis_blocks ++ [p; n].
Proof.
  intros Hnew Hc He Hf Hlog Hp Hn Hro Hne' Hafter Hvotes Hvote Hredis Hfirst Hlast Hfit Hm Hmid Hmne Hstored set_hash.
  destruct (last_justified_u64 c Hc He _ _ Hp) as (Hpr & _ & _). pose proof Hp as (_ & E1 & E2).
  destruct (last_justified_u64 c Hc He _ _ Hn) as (Hnr & _ & _). pose proof (sv_range c Hc).
  assert (p < n) as Hpn by (pose proof (last_justified_order c He (id + 1) n p Hn); lia).
  pose proof (cf_header MAX_HEADER_SIZE c Hf (p + 1) ltac:(lia)) as Hh.
  split_and!.
  - apply (headers_range_test url avail_chain_id Hnew c Hc); lia.
  - unfold test_get_block_hash. rewrite Hnew. cbn [mbind outcome_bind].
    destruct (get_block_hash_run c Hc p ltac:(lia)) as (h & -> & Hhd & _). by exists h.
  - rewrite <- E2. by apply (header_hash_test url avail_chain_id Hnew c Hc).
  - apply (change_authority_set_test url avail_chain_id Hnew c Hc); [done|done|].
    destruct Hstored as [[msg Hmsg]|[cj ->]]; [|done].
    by rewrite (unjustified_block avail_chain_id c Hc 100 m st msg He Hm Hmid Hmsg).
  - by apply (new_authority_set_test url avail_chain_id Hnew c Hc He Hf Hlog id p).
  - unfold test_get_new_authority_set. rewrite Hnew. cbn [mbind outcome_bind].
    pose proof (set_id_bound c He (ch_head c)). pose proof (set_id_nonneg c He (ch_head c)).
    by rewrite (last_justified_pending c Hc He) by lia.
  - rewrite (prove_finality_test url avail_chain_id Hnew c Hc He p p after vote rest); try done;
      rewrite ?E2, ?Hvote; cbn; try done.
    + rewrite (hf_hash _ Hh). apply length_blake2_256.
    + unfold is_u32. lia.
  - by apply (query_redis_test url avail_chain_id Hnew c Hc He id p n st redis_blocks).
Qed.

(** C38: the two tests that walk over epochs end.  The search for a genesis stops at
    the first probe around which the number of authorities changes, with the data of
    the set that ends there; the walk over the rotations stops at the set of the head,
    after it has found the log of every epoch that has ended. *)
Theorem epoch_tests_end url avail_chain_id c fuel block k prev next :
  RpcDataFetcher_new = Ret (url, avail_chain_id) →
  serves c → epochs c → chain_format MAX_HEADER_SIZE c → log_format →
  (∀ n, epoch_end c n → rotates MAX_AUTHORITY_SET_SIZE c n
    ∧ (length (encode (header_at c n)) < MAX_HEADER_SIZE)%nat) →
  (k < fuel)%nat → set_id c (ch_head c) ≤ Z.of_nat fuel →
  (∀ i, (i < k)%nat → ∃ prev next, ended_around c (block + 1000 * Z.of_nat i) prev next
    ∧ length (authorities_of c prev) = length (authorities_of c next)) →
  let probe := block + 1000 * Z.of_nat k in
  ended_around c probe prev next →
  length (authorities_of c prev) ≠ length (authorities_of c next) →
  test_get_authority_set_id fuel block
    = Ret (set_id c probe, compute_authority_set_hash (authorities_of c prev), next,
           hash (header_at c next))
  ∧ test_get_header_rotate fuel = Ret (Z.max 1 (set_id c (ch_head c))).
Proof.
  intros Hnew Hc He Hf Hlog Hro Hk Hfuel Hsame probe Hea Hne. split.
  - unfold test_get_authority_set_id. rewrite Hnew. cbn [mbind outcome_bind].
    by apply (genesis_loop_run c Hc He k fuel block).
  - unfold test_get_header_rotate. rewrite Hnew. cbn [mbind outcome_bind].
    apply (rotate_loop_run c Hc He Hf Hlog); [lia..|done|lia].
Qed.
End FetcherProperties.

(** ** Witnesses *)
Import Ref RefNode RefRedis Sample.

(** Three sets: the first ends at block 2, the second at block 4. *)
Module ThreeSets.
Definition third_keys : list Bytes32 := map (λ i, replicate 32 (Z.of_nat i)) [6; 7; 8]%nat.
Definition announcement (keys : list Bytes32) : list DigestItem :=
  [Consensus [70; 82; 78; 75] (scheduled_change_message keys)].
Definition blocks : list block_data :=
  build zero32 0 [(0, old_keys, []); (0, old_keys, []); (1, new_keys, announcement new_keys);
    (1, new_keys, []); (2, third_keys, announcement third_keys); (2, third_keys, [])].

(** The votes of a set for a block. *)
Definition proof_of (keys : list Bytes32) (id : U64) (n : U32) : GrandpaJustification RefNode.header :=
  let vote := {|
    target_hash := header_hash (bd_header (blocks !!! Z.to_nat n));
    target_number := n |} in
  let message := encode_signed_message (PrecommitMessage vote) 5 id in
  {| gj_round := 5; gj_commit := {|
    cm_target_hash := target_hash vote; cm_target_number := n;
    cm_precommits := map (λ pk, {| sp_precommit := vote;
      sp_signature := signature_bytes (sign pk message); sp_id := pk |}) keys |};
    gj_votes_ancestries := [] |}.
Definition proofs (n : U32) : option (GrandpaJustification RefNode.header) :=
  if decide (n = 2) then Some (proof_of old_keys 0 2)
  else if decide (n = 3) then Some (proof_of new_keys 1 3) else None.

#[export] Instance three_sets : AvailNode := node blocks proofs.
Definition the_chain : chain := ref_chain blocks proofs.

Lemma sets_serve : serves the_chain.
Proof. apply ref_serves; [|by_decide|by_decide]. change (length blocks) with 6%nat. lia. Qed.
Lemma sets_epochs : epochs the_chain.
Proof. apply ref_epochs; [done|by_decide]. Qed.
Lemma sets_formatted : chain_format MAX_HEADER_SIZE the_chain.
Proof. apply ref_chain_format; [done|by_decide|by_decide]. Qed.

Lemma final_2 MAX : (3 ≤ MAX)%nat → 3 * Z.of_nat MAX < 2 ^ 32 →
  final_epoch_end the_chain MAX 2 (proof_of old_keys 0 2).
Proof.
  intros Hmin Hmax. split; [by_decide|vm_compute; reflexivity|].
  split; [by_decide..| |by_decide|exact Hmin|exact Hmax|by_decide|by_decide].
  repeat constructor; by_decide || (vm_compute; reflexivity).
Qed.

Lemma rotates_at MAX n keys :
  epoch_end the_chain n → authorities_of the_chain n = keys → keys ≠ [] → (length keys ≤ MAX)%nat →
  Forall (λ k, length k = PUBKEY_LENGTH) keys →
  digest_logs (header_at the_chain n) = announcement keys →
  rotates MAX the_chain n.
Proof.
  intros Hend <- Hne Hmax Hkeys Hlogs. split; [done| |done|done|done].
  exists [], []. rewrite Hlogs. split; [done|]. split; [constructor|]. cbn. lia.
Qed.

Lemma rotates_2 MAX : (2 ≤ MAX)%nat → rotates MAX the_chain 2.
Proof.
  intros HM. apply (rotates_at MAX 2 new_keys); [by_decide|done|done|exact HM|by_decide|done].
Qed.
Lemma rotates_4 MAX : (3 ≤ MAX)%nat → rotates MAX the_chain 4.
Proof.
  intros HM. apply (rotates_at MAX 4 third_keys); [by_decide|done|done|exact HM|by_decide|done].
Qed.

Lemma rotations n :
  epoch_end the_chain n → rotates MAX_AUTHORITY_SET_SIZE the_chain n
    ∧ (length (encode (header_at the_chain n)) < MAX_HEADER_SIZE)%nat.
Proof.
  intros (Hn & Hid & _). change (ch_head the_chain) with 5 in Hn.
  assert (n = 1 ∨ n = 2 ∨ n = 3 ∨ n = 4 ∨ n = 5) as [->|[->|[->|[->| ->]]]] by lia.
  - discriminate Hid.
  - split; [apply rotates_2; by_decide|by_decide].
  - discriminate Hid.
  - split; [apply rotates_4; by_decide|by_decide].
  - discriminate Hid.
Qed.

Lemma dummies : dummies_ok.
Proof. split; by_decide. Qed.
End ThreeSets.
Import ThreeSets.

#[local] Instance test_environment : Environment := {|
  env_var name := if decide (name = "AVAIL_CHAIN_ID") then Some "avail" else Some "value"
|}.
#[local] Instance test_clients : Clients := {|
  avail_client_new _ := true;
  redis_client_open _ := true;
  provider_try_from _ := true;
  parse_address _ := Some (replicate 20 7);
  wallet_from_str _ := Some 1;
|}.

Lemma rotate_tests_pass_witness :
  test_rotate_small_authority_set "avail" empty 0 (compute_authority_set_hash old_keys)
    = Ret (compute_authority_set_hash new_keys)
  ∧ ∀ rest expected, test_dummy_rotate (rotate_input 0 (compute_authority_set_hash old_keys) ++ rest)
      expected = Ret () ↔ expected = compute_authority_set_hash new_keys.
Proof.
  unfold test_rotate_small_authority_set.
  apply (rotate_tests_pass "avail" 8 the_chain 0 2 (proof_of old_keys 0 2) empty); try by_decide.
  - exact sets_serve.
  - exact sets_epochs.
  - exact sets_formatted.
  - by apply ref_log_format.
  - exact dummies.
  - apply rotates_2. lia.
  - apply final_2; by_decide.
Defined.

Lemma fetcher_tests_pass_witness :
  test_get_block_headers_range 0 2 0 3
    = Ret (merkle_root 8 (padded 256 (map av_data_root (map (header_at the_chain) (seqZ 1 3)))))
  ∧ (∃ h, test_get_block_hash 2 = Ret h ∧ chain_get_header h = Some (header_at the_chain 2))
  ∧ test_get_header_hash 2 = Ret (hash (header_at the_chain 2), compute_authority_set_hash old_keys, 0)
  ∧ test_get_simple_justification_change_authority_set 3 empty
    = Ret (1, compute_authority_set_hash new_keys, hash (header_at the_chain 3))
  ∧ test_get_new_authority_set 0 = Ret (compute_authority_set_hash new_keys)
  ∧ test_get_new_authority_set 2 = Panic "assertion `left != right` failed"
  ∧ test_grandpa_prove_finality 2 = Ret 3
  ∧ ∃ l, test_query_redis_block_range 0 1 empty = Ret l ∧ Sorted Z.le l ∧ l ≡ₚ [] ++ [2; 4].
Proof.
  assert (grandpa_proveFinality 3 = Some (proof_of new_keys 1 3)) as Hafter
    by (vm_compute; reflexivity).
  destruct (cm_precommits (gj_commit (proof_of new_keys 1 3))) as [|vote rest] eqn:E; [discriminate E|].
  apply (fetcher_tests_pass "value" "avail" the_chain empty 0 2 4 3
    (proof_of new_keys 1 3) vote rest [] 0 3); try by_decide.
  - exact sets_serve.
  - exact sets_epochs.
  - exact sets_formatted.
  - apply ref_log_format.
  - apply rotates_2. by_decide.
  - exact Hafter.
  - exact E.
  - injection E as <- _. vm_compute. reflexivity.
  - left. by eexists.
Defined.

Lemma epoch_tests_end_witness :
  test_get_authority_set_id 5 2
    = Ret (1, compute_authority_set_hash new_keys, 4, hash (header_at the_chain 4))
  ∧ test_get_header_rotate 5 = Ret 2.
Proof.
  apply (epoch_tests_end "value" "avail" the_chain 5 2 0 2 4); try by_decide.
  - exact sets_serve.
  - exact sets_epochs.
  - exact sets_formatted.
  - apply ref_log_format.
  - exact rotations.
  - intros i Hi. lia.
  - split; by_decide.
Defined.
