(* ===== verification/Indexer.v ===== *)
(** * The justification indexer

    [listen_for_justifications] of bin/indexer.rs: every justification that the
    node broadcasts is checked, laid out by authority and stored in Redis, where
    the justification hint finds it. *)

From stdpp Require Import gmap.
From S2P Require Import Prelude Consts Vars Builder Reference Decoder Offchain Justification.
From S2P Require Import Rotate Subchain Types Codec Redis Fetcher Hints Circuits Finality.

(** sp_core's signature check, [<ed25519::Pair as Pair>::verify]. *)
Class SpCore := { pair_verify : bytes → bytes → Bytes32 → bool }.

(** ** One justification *)
Section Operations.
Context `{Hashing, SpCore, DummyValues, AvailNode, RedisServer} (avail_chain_id : string).

(** The keys and signatures of the votes that verify. *)
Definition valid_votes (signed_message : bytes) (precommits : list SignedPrecommit)
    : list (Bytes32 * bytes) :=
  omap (λ precommit,
      if pair_verify (sp_signature precommit) signed_message (sp_id precommit)
      then Some (sp_id precommit, sp_signature precommit) else None) precommits.

(** The map from keys to signatures; a later vote replaces an earlier one. *)
Definition signatures_by_key (validators : list (Bytes32 * bytes)) : gmap Bytes32 bytes :=
  foldl (λ m v, <[fst v := snd v]> m) ∅ validators.

(** The body of the loop. *)
Definition process_justification (justification : GrandpaJustification AvailHeader) (s : store)
    : outcome store :=
  let commit := gj_commit justification in
  header ← expect (chain_get_header (cm_target_hash commit))
             "called `Option::unwrap()` on a `None` value";
  let block_hash := cm_target_hash commit in
  let header_hash := hash header in
  let calculated_hash := blake2_256 (encode header) in
  _ ← assert (negb (negb (bool_decide (header_hash = calculated_hash))
                    || negb (bool_decide (block_hash = calculated_hash))))
        "Header hash does not match block hash, avail-subxt crate is out of sync.";
  authority_set_id ← expect (current_set_id block_hash)
                       "called `Option::unwrap()` on a `None` value";
  first ← expect (cm_precommits commit !! 0%nat) "index out of bounds";
  let signed_message := encode_signed_message (PrecommitMessage (sp_precommit first))
    (gj_round justification) authority_set_id in
  let validators := valid_votes signed_message (cm_precommits commit) in
  let pubkey_to_signature := signatures_by_key validators in
  before ← checked_sub (number header) 1;
  authorities ← get_authorities before;
  let num_authorities := Z.of_nat (length authorities) in
  let signed_count := Z.of_nat (length validators) in
  twice ← checked_mul 64 num_authorities 2;
  let required_signatures := twice / 3 in
  if decide (signed_count ≤ required_signatures) then Ret s else
  let slots := map (authority_slot pubkey_to_signature) authorities in
  add_justification avail_chain_id {|
    st_block_number := number header;
    st_signed_message := signed_message;
    st_pubkeys := map (λ s, snd (fst s)) slots;
    st_signatures := map snd slots;
    st_validator_signed := map (λ s, fst (fst s)) slots;
    st_num_authorities := length authorities |} s.

(** The loop, over the justifications that the subscription yields. *)
Definition listen_for_justifications (subscription : list (GrandpaJustification AvailHeader)) (s : store)
    : outcome store :=
  foldM (λ s justification, process_justification justification s) subscription s.
End Operations.

(** ** The subscription

    A notification holds the bytes of a justification in hexadecimal, which
    [sp_core::bytes::deserialize] reads. *)
Class Subscription := {
  notification : Type;
  bytes_deserialize : notification → option bytes;
}.

Section Notifications.
Context `{Subscription, AvailNode}.

(** [<GrandpaJustification as Deserialize>::deserialize]. *)
Definition deserialize (n : notification) : option (GrandpaJustification AvailHeader) :=
  encoded ← bytes_deserialize n;
  decode_slice (decode_justification decode_avail_header) encoded.

(** [while let Some(Ok(justification)) = sub.next()]: the loop ends with the first
    notification that is not a justification. *)
Fixpoint received (sub : list notification) : list (GrandpaJustification AvailHeader) :=
  match sub with
  | [] => []
  | n :: sub' => match deserialize n with
                 | Some justification => justification :: received sub'
                 | None => []
                 end
  end.
End Notifications.

(** ** What the indexer stores *)
Section Facts.
Context `{Hashing, SpCore, DummyValues, AvailNode, RedisServer} (avail_chain_id : string).

Lemma signatures_by_key_spec validators :
  (∀ k : Bytes32, is_Some (signatures_by_key validators !! k) ↔ k ∈ map fst validators)
  ∧ ∀ (k : Bytes32) (sig : bytes), signatures_by_key validators !! k = Some sig → (k, sig) ∈ validators.
Proof.
  unfold signatures_by_key.
  induction validators as [|[k' sig'] l [IHd IHs]] using rev_ind.
  { split; intros k; cbn [foldl map]; rewrite lookup_empty; [|done].
    split; [by intros []|]. by intros ?%not_elem_of_nil. }
  rewrite foldl_app. cbn [foldl fst snd]. split.
  - intros k. rewrite lookup_insert_is_Some', IHd, map_app, elem_of_app. cbn. set_solver.
  - intros k sig [[<- <-]|[_ Hk]]%lookup_insert_Some; rewrite elem_of_app; [right; by left|].
    left. by apply IHs.
Qed.

Lemma elem_of_valid_votes message precommits k sig :
  (k, sig) ∈ valid_votes message precommits
  ↔ pair_verify sig message k = true
    ∧ ∃ sp, sp ∈ precommits ∧ sp_id sp = k ∧ sp_signature sp = sig.
Proof.
  unfold valid_votes. rewrite list_elem_of_omap. split.
  - intros (sp & Hsp & E). destruct (pair_verify _ _ _) eqn:Ev; [|done].
    injection E as <- <-. split; [done|]. by exists sp.
  - intros (Hv & sp & Hsp & <- & <-). exists sp. by rewrite Hv.
Qed.

(** What [process_justification] stores for the header. *)
Definition indexed_data (block_number : U32) (signed_message : bytes) (slots : list slot)
    : StoredJustificationData := {|
  st_block_number := block_number;
  st_signed_message := signed_message;
  st_pubkeys := map (λ s, snd (fst s)) slots;
  st_signatures := map snd slots;
  st_validator_signed := map (λ s, fst (fst s)) slots;
  st_num_authorities := length slots |}.

(** Whatever the node broadcasts, the store stays or gains one entry, for the
    block of the header, with more votes than two thirds of the authorities. *)
Lemma process_justification_inv justification s s' :
  process_justification avail_chain_id justification s = Ret s' →
  s' = s ∨ ∃ header first id authorities,
    let message := encode_signed_message (PrecommitMessage (sp_precommit first))
      (gj_round justification) id in
    let validators := valid_votes message (cm_precommits (gj_commit justification)) in
    chain_get_header (cm_target_hash (gj_commit justification)) = Some header
    ∧ current_set_id (cm_target_hash (gj_commit justification)) = Some id
    ∧ cm_precommits (gj_commit justification) !! 0%nat = Some first
    ∧ get_authorities (number header - 1) = Ret authorities
    ∧ 2 * Z.of_nat (length authorities) < 3 * Z.of_nat (length validators)
    ∧ add_justification avail_chain_id (indexed_data (number header) message
        (map (authority_slot (signatures_by_key validators)) authorities)) s = Ret s'.
Proof.
  unfold process_justification. intros Hrun.
  apply expect_Ret in Hrun as (header & Hh & Hrun). apply assert_Ret in Hrun as [_ Hrun].
  apply expect_Ret in Hrun as (id & Hid & Hrun). apply expect_Ret in Hrun as (first & Hf & Hrun).
  apply bind_Ret in Hrun as (before & [-> _]%checked_sub_inv & Hrun).
  apply bind_Ret in Hrun as (auths & Ha & Hrun).
  apply bind_Ret in Hrun as (twice & [-> _]%checked_mul_inv & Hrun). case_decide as Hthr; [left; by injection Hrun as <-|right].
  exists header, first, id, auths. split_and!; try done; [zarith|].
  unfold indexed_data. by rewrite length_map.
Qed.
End Facts.

(** ** A broadcast justification of a served block *)
Section Broadcast.
Context `{Hashing, SpCore, DummyValues, AvailNode, !RedisServer, !RedisLaws} (avail_chain_id : string).
Context (c : chain) (Hc : serves c).

(** The justification targets block [n], under its own hash. *)
Record broadcast (n : U32) (justification : GrandpaJustification AvailHeader) : Prop := {
  bc_block : 0 < n ≤ ch_head c;
  bc_target : cm_target_hash (gj_commit justification) = hash (header_at c n);
  bc_served : chain_get_block_hash n = Some (hash (header_at c n));
  bc_hash : hash (header_at c n) = blake2_256 (encode (header_at c n));
}.

Lemma broadcast_served n justification :
  broadcast n justification →
  chain_get_header (cm_target_hash (gj_commit justification)) = Some (header_at c n)
  ∧ current_set_id (cm_target_hash (gj_commit justification)) = Some (set_id c n)
  ∧ number (header_at c n) = n.
Proof.
  intros [Hn -> Hs _]. destruct (sv_block c Hc n) as (h & Hh & Hhd & Hid & _); [lia|].
  rewrite Hs in Hh. injection Hh as <-. split_and!; [done|done|]. apply (sv_number c Hc). lia.
Qed.

(** Processing a broadcast whose votes all verify. *)
Lemma process_justification_run n justification first s :
  broadcast n justification → cm_precommits (gj_commit justification) !! 0%nat = Some first →
  2 * Z.of_nat (length (authorities_of c (n - 1))) < 2 ^ 64 →
  let message := encode_signed_message (PrecommitMessage (sp_precommit first))
    (gj_round justification) (set_id c n) in
  let validators := valid_votes message (cm_precommits (gj_commit justification)) in
  process_justification avail_chain_id justification s =
  if decide (3 * Z.of_nat (length validators) ≤ 2 * Z.of_nat (length (authorities_of c (n - 1))))
  then Ret s
  else add_justification avail_chain_id (indexed_data n message
         (map (authority_slot (signatures_by_key validators)) (authorities_of c (n - 1)))) s.
Proof.
  intros Hb Hf Hu message validators. pose proof (bc_block _ _ Hb).
  destruct (broadcast_served n justification Hb) as (Hh & Hid & Hnum).
  unfold process_justification. rewrite Hh. cbn [expect mbind outcome_bind].
  rewrite (bc_target _ _ Hb) in *. rewrite <- (bc_hash _ _ Hb).
  rewrite !bool_decide_eq_true_2 by done. cbn [negb orb assert mbind outcome_bind].
  rewrite Hid. cbn [expect mbind outcome_bind]. rewrite Hf. cbn [expect mbind outcome_bind].
  rewrite Hnum, checked_sub_Ret by lia. cbn [mbind outcome_bind].
  rewrite (get_authorities_run c Hc) by lia. cbn [mbind outcome_bind].
  rewrite checked_mul_Ret by lia. cbn [mbind outcome_bind].
  fold message. fold validators. unfold indexed_data. rewrite length_map.
  repeat case_decide; [done|zarith|zarith|done].
Qed.

(** Justifications of other blocks leave the entry of block [n]. *)
Lemma process_other m n justification s s' :
  broadcast m justification → m ≠ n → process_justification avail_chain_id justification s = Ret s' →
  get_justification avail_chain_id n s' = get_justification avail_chain_id n s.
Proof.
  intros Hb Hne Hrun. destruct (broadcast_served m justification Hb) as (Hh & _ & Hnum).
  apply process_justification_inv in Hrun as [->|(header & first & id & auths & E & _ & _ & _ & _ & Hadd)];
    [done|].
  rewrite Hh in E. injection E as <-. rewrite Hnum in Hadd. pose proof (bc_block _ _ Hb).
  pose proof (sv_range c Hc). apply add_justification_added in Hadd as [Hconn Hadded];
    [|cbn; unfold is_u32; lia].
  unfold get_justification. rewrite Hconn. cbn [mbind outcome_bind].
  by rewrite (added_other _ _ _ _ Hadded).
Qed.

Lemma listen_other n l s s' :
  Forall (λ j, ∃ m, m ≠ n ∧ broadcast m j) l →
  listen_for_justifications avail_chain_id l s = Ret s' →
  get_justification avail_chain_id n s' = get_justification avail_chain_id n s.
Proof.
  intros Hl. revert s; induction Hl as [|j l (m & Hne & Hb) _ IH]; intros s Hrun.
  { by injection Hrun as <-. }
  apply bind_Ret in Hrun as (s1 & Hj & Hrun). rewrite (IH s1 Hrun).
  by apply (process_other m n j).
Qed.

Lemma listen_app l1 l2 s :
  listen_for_justifications avail_chain_id (l1 ++ l2) s =
  (s ← listen_for_justifications avail_chain_id l1 s; listen_for_justifications avail_chain_id l2 s).
Proof.
  unfold listen_for_justifications. revert s; induction l1 as [|j l1 IH]; intros s; [done|].
  cbn [app foldM]. destruct (process_justification _ j s); cbn; [apply IH|done..].
Qed.

Lemma valid_votes_all message precommits :
  Forall (λ sp, pair_verify (sp_signature sp) message (sp_id sp) = true) precommits →
  valid_votes message precommits = map (λ sp, (sp_id sp, sp_signature sp)) precommits.
Proof.
  unfold valid_votes. induction 1 as [|sp l Hsp _ IH]; [done|]. cbn. by rewrite Hsp, IH.
Qed.

(** sp_core accepts the votes too. *)
Definition pair_verified (n : U32) (j : GrandpaJustification AvailHeader) : Prop :=
  Forall (λ sp, pair_verify (sp_signature sp) (vote_message c n (gj_round j)) (sp_id sp) = true)
    (cm_precommits (gj_commit j)).

Definition indexed_slots (n : U32) (j : GrandpaJustification AvailHeader) : list slot :=
  map (authority_slot (signatures_by_key
      (valid_votes (vote_message c n (gj_round j)) (cm_precommits (gj_commit j)))))
    (authorities_of c (n - 1)).

Lemma indexed_slots_keys n j :
  map (λ s : slot, snd (fst s)) (indexed_slots n j) = authorities_of c (n - 1).
Proof.
  unfold indexed_slots. rewrite map_map. etransitivity; [|apply map_id].
  apply map_ext. intros k. unfold authority_slot. by destruct (_ !! k).
Qed.

Lemma indexed_vote_slots MAX n j :
  justifies c MAX n j → pair_verified n j → dummies_ok → vote_slots c n j (indexed_slots n j).
Proof.
  intros Hju Hp Hd. unfold indexed_slots. rewrite valid_votes_all by done.
  destruct (signatures_by_key_spec
    (map (λ sp, (sp_id sp, sp_signature sp)) (cm_precommits (gj_commit j)))) as [Hdom Hsig].
  rewrite map_map in Hdom. apply authority_slots; [done|exact Hdom|].
  intros k sig Hk%Hsig. apply list_elem_of_fmap in Hk as (sp & [= -> ->] & Hsp).
  exists sp. split; [|done]. pose proof (ju_votes _ _ _ _ Hju) as Hv.
  rewrite Forall_forall in Hv. by apply Hv.
Qed.

(** More than two thirds of distinct authorities pass the indexer's count. *)
Lemma supermajority_votes MAX n j :
  justifies c MAX n j → NoDup (authorities_of c (n - 1)) →
  2 * Z.of_nat (length (authorities_of c (n - 1)))
    < 3 * Z.of_nat (length (cm_precommits (gj_commit j))).
Proof.
  intros [_ _ _ Hmaj _ _ _ _] Hnd.
  assert (count_true (map (voted j) (authorities_of c (n - 1)))
    ≤ length (cm_precommits (gj_commit j)))%nat; [|lia].
  rewrite <- (length_map sp_id). fold (voters j).
  transitivity (length (filter (λ k, k ∈ voters j) (authorities_of c (n - 1)))).
  - clear. induction (authorities_of c (n - 1)) as [|k l IH]; [done|].
    cbn [map]. rewrite count_true_cons, filter_cons. unfold voted at 1.
    case_bool_decide; case_decide; cbn [length]; (done || lia).
  - apply submseteq_length, NoDup_submseteq; [by apply NoDup_filter|].
    intros k [Hk _]%list_elem_of_filter. done.
Qed.
End Broadcast.

(** ** Invariant of the store *)
Section Invariant.
Context `{Hashing, SpCore, DummyValues, AvailNode, !RedisServer, !RedisLaws} (avail_chain_id : string).

(** An entry for block [n]: one slot per authority of the block before, and every
    slot marked as signed holds a signature of the entry's message under its key. *)
Record entry_ok (n : U32) (d : StoredJustificationData) : Prop := {
  eo_block : st_block_number d = n;
  eo_authorities : get_authorities (n - 1) = Ret (st_pubkeys d);
  eo_signatures : length (st_signatures d) = st_num_authorities d;
  eo_pubkeys : length (st_pubkeys d) = st_num_authorities d;
  eo_validator_signed : length (st_validator_signed d) = st_num_authorities d;
  eo_verified i pk sig : st_validator_signed d !! i = Some true →
    st_pubkeys d !! i = Some pk → st_signatures d !! i = Some sig →
    pair_verify sig (st_signed_message d) pk = true;
}.

Definition index_ok (s : store) : Prop :=
  ∀ n r l, json_get (justification_key avail_chain_id n) s = Some r →
    serde_from_slice r = Some l → ∃ d, l = [d] ∧ entry_ok n d.

Lemma indexed_entry_ok n message precommits authorities :
  get_authorities (n - 1) = Ret authorities →
  entry_ok n (indexed_data n message
    (map (authority_slot (signatures_by_key (valid_votes message precommits))) authorities)).
Proof.
  intros Hauth. split; cbn; rewrite ?length_map; try done.
  { rewrite map_map, Hauth. f_equal. symmetry. etransitivity; [|apply map_id].
    apply map_ext. intros k. unfold authority_slot. by destruct (_ !! k). }
  intros i pk sig.
  rewrite !lookup_map. destruct (authorities !! i) as [k|]; [|done]. cbn.
  unfold authority_slot. destruct (_ !! k) as [sig'|] eqn:E; cbn; [|done].
  intros _ [= <-] [= <-]. apply signatures_by_key_spec, elem_of_valid_votes in E as [? _]. done.
Qed.

Lemma add_index_ok d s s' :
  is_u32 (st_block_number d) → entry_ok (st_block_number d) d → index_ok s →
  add_justification avail_chain_id d s = Ret s' → index_ok s'.
Proof.
  intros Hn Hd Hs Hadd. apply add_justification_added in Hadd as [_ [(r' & Hr' & Hs') Ho _ _]]; [|done].
  intros n r l Hr Hl. destruct (decide (n = st_block_number d)) as [->|Hne].
  - rewrite Hr' in Hr. injection Hr as <-. rewrite Hs' in Hl. injection Hl as <-. by exists d.
  - rewrite Ho in Hr by done. by eapply Hs.
Qed.

Lemma process_index_ok (Hu32 : ∀ h hd, chain_get_header h = Some hd → is_u32 (number hd)) j s s' :
  index_ok s → process_justification avail_chain_id j s = Ret s' → index_ok s'.
Proof.
  intros Hs Hrun.
  apply process_justification_inv in Hrun as [->|(hd & first & id & auths & Hh & _ & _ & Ha & _ & Hadd)];
    [done|].
  eapply add_index_ok; [| |done|done]; [cbn; by eapply Hu32|]. by apply indexed_entry_ok.
Qed.

(** The index stays good along a subscription, and its readable entries are good. *)
Lemma listen_index_ok (Hu32 : ∀ h hd, chain_get_header h = Some hd → is_u32 (number hd))
    subscription s0 s :
  index_ok s0 → listen_for_justifications avail_chain_id subscription s0 = Ret s → index_ok s.
Proof.
  revert s0; induction subscription as [|j l IH]; intros s0 Hs0 Hrun; [by injection Hrun as <-|].
  apply bind_Ret in Hrun as (s1 & Hj & Hrun). eapply IH; [|exact Hrun]. by eapply process_index_ok.
Qed.

Lemma empty_index_ok s : (∀ n, absent avail_chain_id n s) → index_ok s.
Proof. intros Hempty n r l Hr Hl. by rewrite (Hempty n r Hr) in Hl. Qed.

Lemma index_ok_read s n d :
  index_ok s → get_justification avail_chain_id n s = Ret d → entry_ok n d.
Proof.
  intros Hs. unfold get_justification. intros (? & _ & Hget)%bind_Ret.
  apply expect_Ret in Hget as (r & Hr & Hget). destruct (serde_from_slice r) as [l|] eqn:Hl; [|done].
  destruct (Hs n r l Hr Hl) as (d' & -> & Hok). cbn in Hget. by injection Hget as <-.
Qed.

(** C14: starting from an empty index, whatever the subscription yields, every
    justification that can be read was stored under its own block number, has a
    slot for each authority of the block before it, and a verified signature in every
    slot marked as signed. *)
Theorem index_invariant subscription s0 s n d :
  (∀ h hd, chain_get_header h = Some hd → is_u32 (number hd)) →
  (∀ n, absent avail_chain_id n s0) →
  listen_for_justifications avail_chain_id subscription s0 = Ret s →
  get_justification avail_chain_id n s = Ret d → entry_ok n d.
Proof.
  intros Hu32 Hempty Hrun. apply index_ok_read, (listen_index_ok Hu32 subscription s0); [|done].
  by apply empty_index_ok.
Qed.
End Invariant.

(** ** Decoding what the node sends *)
Section Decoding.
Context `{Subscription, AvailNode}.

(** A notification with a justification. *)
Record notifies (n : notification) (j : GrandpaJustification AvailHeader) : Prop := {
  nt_bytes : bytes_deserialize n = Some (encode_justification encode j);
  nt_justification : wf_grandpa_justification j;
  nt_ancestries : decodable decode_avail_header encode (gj_votes_ancestries j);
}.

Lemma deserialize_notifies n j : notifies n j → deserialize n = Some j.
Proof.
  intros [Hbytes Hj Hhs]. unfold deserialize. rewrite Hbytes.
  by eapply takes_slice, decode_justification_takes.
Qed.

(** C33: justifications arrive as they were sent.  The finality proof of a node decodes
    to the justification inside it; the subscription gives the justifications of its
    notifications, in order, up to the first that is not one. *)
Theorem justifications_decoded block j p sub js bad more :
  wf_grandpa_justification j → decodable decode_avail_header encode (gj_votes_ancestries j) →
  request_finality_proof block = Some (encode_finality_proof encode p) →
  length (fp_block p) = 32%nat → fp_justification p = encode_justification encode j →
  is_u32 (Z.of_nat (length (fp_justification p))) →
  decodable decode_avail_header encode (fp_unknown_headers p) →
  Forall2 notifies sub js → deserialize bad = None →
  grandpa_proveFinality block = Some j ∧ received sub = js ∧ received (sub ++ bad :: more) = js.
Proof.
  intros Hj Hhs Hrpc Hb Ep Hlen Hun Hsub Hbad. split.
  - unfold grandpa_proveFinality. rewrite Hrpc. cbn [mbind option_bind]. unfold proof_justification.
    rewrite (takes_slice _ _ p) by by apply decode_finality_proof_takes.
    cbn [mbind option_bind]. rewrite Ep. by eapply takes_slice, decode_justification_takes.
  - induction Hsub as [|n j' sub js Hn _ [IH IHbad]]; cbn [received app]; [by rewrite Hbad|].
    rewrite (deserialize_notifies _ _ Hn). by rewrite IH, IHbad.
Qed.
End Decoding.

(** ** Properties *)
Section Properties.
Context `{CircuitBuilderLaws, !HashingLaws, SpCore, DummyValues, AvailNode, !RedisServer, !RedisLaws}.
Context (avail_chain_id : string).

(** The entry of an indexed block is what the hint reads. *)
Lemma indexed_data_read c (Hc : serves c) (He : epochs c) MAX n j s :
  0 < n ≤ ch_head c → set_id c n = set_id c (n - 1) →
  Forall (λ k, length k = 32%nat) (authorities_of c (n - 1)) →
  get_justification avail_chain_id n s
    = Ret (indexed_data n (vote_message c n (gj_round j)) (indexed_slots c n j)) →
  get_justification_data avail_chain_id MAX n s
    = Ret (slots_data c n (gj_round j) (indexed_slots c n j)).
Proof.
  intros Hn Hid Hk Hget. rewrite (get_justification_data_run avail_chain_id c Hc) by done.
  rewrite decide_False by lia. unfold stored_justification. rewrite Hget. cbn [mbind outcome_bind].
  cbn [indexed_data st_pubkeys st_signatures st_validator_signed st_signed_message
    st_num_authorities]. rewrite indexed_slots_keys.
  rewrite (traverse_map _ id), map_id.
  2: { eapply Forall_impl; [exact Hk|]. intros k E. unfold key_from_slice. by rewrite decide_True. }
  cbn [mbind outcome_bind]. unfold slots_data. by rewrite indexed_slots_keys.
Qed.

(** What the store holds for [n] after the indexer has seen its justification. *)
Lemma listen_indexed c (Hc : serves c) MAX n j before after s0 s :
  broadcast c n j → justifies c MAX n j → pair_verified c n j →
  NoDup (authorities_of c (n - 1)) → set_id c n = set_id c (n - 1) →
  Forall (λ j', ∃ m, m ≠ n ∧ broadcast c m j') after →
  listen_for_justifications avail_chain_id (before ++ j :: after) s0 = Ret s →
  get_justification avail_chain_id n s
    = Ret (indexed_data n (vote_message c n (gj_round j)) (indexed_slots c n j)).
Proof.
  intros Hb Hju Hp Hnd Hid Hafter Hrun. rewrite listen_app in Hrun.
  apply bind_Ret in Hrun as (s1 & _ & Hrun). apply bind_Ret in Hrun as (s2 & Hj & Hrun).
  rewrite (listen_other avail_chain_id c Hc n after s2 s Hafter Hrun).
  destruct (justifies_nonempty c MAX n j Hju) as [_ Hne].
  destruct (cm_precommits (gj_commit j)) as [|first rest] eqn:El; [done|].
  pose proof (ju_votes _ _ _ _ Hju) as Hv. rewrite El in Hv.
  assert (sp_precommit first = vote_for c n) as Hfirst by apply (Forall_inv Hv).
  pose proof (ju_max _ _ _ _ Hju). pose proof (ju_max_u32 _ _ _ _ Hju).
  rewrite (process_justification_run avail_chain_id c Hc n j first) in Hj; [|done|by rewrite El|lia].
  rewrite Hfirst, Hid in Hj. fold (vote_message c n (gj_round j)) in Hj.
  pose proof (supermajority_votes c MAX n j Hju Hnd) as Hmaj.
  rewrite decide_False in Hj by (rewrite valid_votes_all, length_map by done; lia).
  fold (indexed_slots c n j) in Hj. pose proof (bc_block _ _ _ Hb). pose proof (sv_range c Hc).
  apply add_justification_added in Hj as [Hconn [(r & Hr & Hd) _ _ _]]; [|cbn; unfold is_u32; lia].
  by eapply get_justification_stored.
Qed.

(** C15: a block that the indexer has seen justified can be stepped to.  After the
    indexer processed a stream of broadcasts in which [target], not an epoch end,
    was justified by more than two thirds of its authorities and no later one was
    for [target], the hint finds a justification with which the header range
    circuit outputs the hash of the target and the roots of the range. *)
Theorem indexed_range_accepted L MA MAX c trusted target j before after s0 s :
  serves c → epochs c → chain_format L c → MIN_HEADER_SIZE ≤ Z.of_nat L → dummies_ok →
  0 ≤ trusted < target → trusted + Z.of_nat (HEADERS_PER_MAP * jobs MAX) < 2 ^ 32 →
  target - trusted ≤ Z.of_nat (HEADERS_PER_MAP * jobs MAX) →
  broadcast c target j → justifies c MA target j → pair_verified c target j →
  NoDup (authorities_of c (target - 1)) →
  Forall (λ k, length k = 32%nat) (authorities_of c (target - 1)) →
  set_id c target = set_id c (target - 1) →
  Forall (λ j', ∃ m, m ≠ target ∧ broadcast c m j') after →
  listen_for_justifications avail_chain_id (before ++ j :: after) s0 = Ret s →
  let id := set_id c (target - 1) in
  ∃ jv, HintSimpleJustification avail_chain_id MA s target id = Ret jv
    ∧ ∀ justification_hint, justification_hint target id = jv → ∃ state data,
      HeaderRangeCircuit.define MA MAX (range_hint L) justification_hint trusted
        (hash (header_at c trusted)) id
        (compute_authority_set_hash (authorities_of c (target - 1))) target
      = Some (hash (header_at c target), state, data)
      ∧ commits_to MAX {| target_header_hash := hash (header_at c target);
          state_root_merkle_root := state; data_root_merkle_root := data |}
          (hash (header_at c trusted)) (served_chain L c trusted target).
Proof.
  intros Hc He Hf HL Hd Ht Hroom Hfit Hb Hju Hp Hnd Hk Hid Hafter Hrun id.
  pose proof (bc_block _ _ _ Hb) as Htg.
  pose proof (listen_indexed c Hc MA target j before after s0 s Hb Hju Hp Hnd Hid Hafter Hrun) as Hget.
  pose proof (indexed_vote_slots c MA target j Hju Hp Hd) as Hs.
  pose proof (indexed_data_read c Hc He MA target j s Htg Hid Hk Hget) as Hdata.
  destruct (slots_hint_valid avail_chain_id c Hc He MA target j _ s Hju Hs Hd Hdata)
    as (jv & Hjv & Hjb & Hvalid). exists jv. split; [done|]. intros jh Hjh.
  apply (header_range_justified c Hc He L MA MAX jh trusted target Hf); try done;
    [lia|fold id; by rewrite Hjh..].
Qed.

(** The indexer counts every vote that verifies, whoever cast it.  Enough votes
    by keys outside the authority set make it store, over what it held for the
    block, an entry without any signer, which the fetcher then panics on. *)
Theorem indexer_counts_foreign_votes c MAX n j first s s' :
  serves c → epochs c → broadcast c n j → pair_verified c n j →
  cm_precommits (gj_commit j) !! 0%nat = Some first → sp_precommit first = vote_for c n →
  set_id c n = set_id c (n - 1) → authorities_of c (n - 1) ≠ [] →
  Forall (λ k, length k = 32%nat ∧ k ∉ voters j) (authorities_of c (n - 1)) →
  2 * Z.of_nat (length (authorities_of c (n - 1)))
    < 3 * Z.of_nat (length (cm_precommits (gj_commit j))) →
  2 * Z.of_nat (length (authorities_of c (n - 1))) < 2 ^ 64 →
  process_justification avail_chain_id j s = Ret s' →
  (∃ d, get_justification avail_chain_id n s' = Ret d
    ∧ st_validator_signed d = replicate (length (authorities_of c (n - 1))) false)
  ∧ get_justification_from_block avail_chain_id MAX n s' = Panic "Not enough voting power".
Proof.
  intros Hc He Hb Hp Hf Hvote Hid Hne Hk Hmaj Hu64 Hrun. pose proof (bc_block _ _ _ Hb) as Hn.
  pose proof (sv_range c Hc).
  rewrite (process_justification_run avail_chain_id c Hc n j first) in Hrun by done.
  rewrite Hvote, Hid in Hrun. fold (vote_message c n (gj_round j)) in Hrun.
  rewrite decide_False in Hrun by (rewrite valid_votes_all, length_map by done; lia).
  fold (indexed_slots c n j) in Hrun.
  apply add_justification_added in Hrun as [Hconn [(r & Hr & Hd) _ _ _]]; [|cbn; unfold is_u32; lia].
  assert (get_justification avail_chain_id n s'
    = Ret (indexed_data n (vote_message c n (gj_round j)) (indexed_slots c n j))) as Hget
    by by eapply get_justification_stored.
  assert (map (λ s : slot, fst (fst s)) (indexed_slots c n j)
    = replicate (length (authorities_of c (n - 1))) false) as Hsigned.
  { unfold indexed_slots. rewrite valid_votes_all, map_map by done.
    destruct (signatures_by_key_spec
      (map (λ sp, (sp_id sp, sp_signature sp)) (cm_precommits (gj_commit j)))) as [Hdom _].
    rewrite map_map in Hdom. cbn in Hdom. fold (voters j) in Hdom.
    clear -Hk Hdom. induction Hk as [|k l [_ Hk] _ IH]; [done|]. cbn [map length replicate].
    f_equal; [|exact IH]. unfold authority_slot. rewrite <- Hdom in Hk.
    destruct (_ !! k); [|done]. by destruct Hk. }
  split; [by eexists|]. unfold get_justification_from_block.
  rewrite (indexed_data_read c Hc He MAX n j s'); [|done|done| |done].
  2: { eapply Forall_impl; [exact Hk|]. by intros k []. }
  cbn [mbind outcome_bind]. rewrite checked_sub_Ret by lia. cbn [mbind outcome_bind].
  rewrite (get_authority_set_id_run c Hc) by lia. cbn [mbind outcome_bind].
  unfold slots_data. cbn [sd_voting_weight sd_num_authorities]. rewrite Hsigned.
  rewrite count_true_replicate_false.
  assert (length (indexed_slots c n j) = length (authorities_of c (n - 1))) as -> by apply length_map.
  rewrite checked_mul_Ret by lia. cbn [mbind outcome_bind].
  rewrite checked_mul_Ret by lia. cbn [mbind outcome_bind].
  rewrite bool_decide_eq_false_2; [done|]. destruct (authorities_of c (n - 1)); [done|cbn; lia].
Qed.
End Properties.

(** ** Witnesses *)
Import Ref RefNode RefRedis Sample.
#[local] Instance sample_node : AvailNode := node_of old_keys.
#[local] Instance sample_sp_core : SpCore :=
  {| pair_verify sig m pk := ed25519_valid_key pk && ed25519_verify pk m sig |}.

(** A broadcast of round 6 with the votes of some keys for a block. *)
Definition broadcast_by (keys : list Bytes32) (n : U32) : GrandpaJustification AvailHeader :=
  {| gj_round := 6; gj_commit := {|
    cm_target_hash := hash (header_at (chain_of old_keys) n); cm_target_number := n;
    cm_precommits := map (λ pk, {| sp_precommit := vote_for (chain_of old_keys) n;
      sp_signature := signature_bytes (sign pk (vote_message (chain_of old_keys) n 6));
      sp_id := pk |}) keys |};
    gj_votes_ancestries := [] |}.

Definition indexed_store (subscription : list (GrandpaJustification AvailHeader)) : store :=
  match listen_for_justifications "avail" subscription empty with
  | Ret s => s
  | _ => empty
  end.

(** Blocks 1, 3 and 4, then the end of the stream. *)
Definition sample_stream : list (GrandpaJustification AvailHeader) :=
  [broadcast_by old_keys 1; broadcast_by new_keys 3; broadcast_by new_keys 4].

Lemma broadcast_sample keys n :
  0 < n ≤ 4 → broadcast (chain_of old_keys) n (broadcast_by keys n).
Proof.
  intros Hn. assert (n = 1 ∨ n = 2 ∨ n = 3 ∨ n = 4) as [->|[->|[->| ->]]] by lia;
    split; by_decide || (vm_compute; reflexivity).
Qed.

Lemma sample_listened :
  listen_for_justifications "avail" sample_stream empty = Ret (indexed_store sample_stream).
Proof. vm_compute. reflexivity. Qed.

Lemma block3_justified : justifies (chain_of old_keys) 3 3 (broadcast_by new_keys 3).
Proof.
  split; [by_decide..| |by_decide|by_decide|by_decide|by_decide|by_decide].
  repeat constructor; by_decide || (vm_compute; reflexivity).
Qed.

Definition entry3 : StoredJustificationData :=
  indexed_data 3 (vote_message (chain_of old_keys) 3 6)
    (indexed_slots (chain_of old_keys) 3 (broadcast_by new_keys 3)).

Lemma index_invariant_witness : entry_ok 3 entry3.
Proof.
  apply (index_invariant "avail" sample_stream empty (indexed_store sample_stream)).
  - apply ref_number_u32. by_decide.
  - intros n r [= <-]. done.
  - exact sample_listened.
  - vm_compute. reflexivity.
Defined.

Lemma indexed_range_accepted_witness :
  ∃ jv, HintSimpleJustification "avail" 3 (indexed_store sample_stream) 3 1 = Ret jv
    ∧ ∀ justification_hint, justification_hint 3 1 = jv → ∃ state data,
      HeaderRangeCircuit.define 3 16 (range_hint 400) justification_hint 0
        (hash (header_at (chain_of old_keys) 0)) 1 (compute_authority_set_hash new_keys) 3
      = Some (hash (header_at (chain_of old_keys) 3), state, data)
      ∧ commits_to 16 {| target_header_hash := hash (header_at (chain_of old_keys) 3);
          state_root_merkle_root := state; data_root_merkle_root := data |}
          (hash (header_at (chain_of old_keys) 0)) (served_chain 400 (chain_of old_keys) 0 3).
Proof.
  apply (indexed_range_accepted "avail" 400 3 16 (chain_of old_keys) 0 3 (broadcast_by new_keys 3)
    [broadcast_by old_keys 1] [broadcast_by new_keys 4] empty); try by_decide.
  - apply chain_serves.
  - apply chain_epochs.
  - apply chain_formatted.
  - exact sample_dummies_ok.
  - by apply broadcast_sample.
  - exact block3_justified.
  - constructor; [|done]. exists 4. split; [done|]. by apply broadcast_sample.
  - exact sample_listened.
Defined.

(** Three foreign votes for block 3 replace the entry of its two authorities. *)
Lemma indexer_counts_foreign_votes_witness :
  let s := indexed_store (sample_stream ++ [broadcast_by old_keys 3]) in
  (∃ d, get_justification "avail" 3 s = Ret d ∧ st_validator_signed d = [false; false])
  ∧ get_justification_from_block "avail" 3 3 s = Panic "Not enough voting power".
Proof.
  intros s.
  apply (indexer_counts_foreign_votes "avail" (chain_of old_keys) 3 3 (broadcast_by old_keys 3)
    (default {| sp_precommit := {| target_hash := []; target_number := 0 |}; sp_signature := [];
                sp_id := [] |} (cm_precommits (gj_commit (broadcast_by old_keys 3)) !! 0%nat))
    (indexed_store sample_stream)); try by_decide.
  - apply chain_serves.
  - apply chain_epochs.
  - by apply broadcast_sample.
  - vm_compute. reflexivity.
  - vm_compute. reflexivity.
Defined.

(** Notifications of plain bytes. *)
#[local] Instance sample_subscription : Subscription :=
  {| notification := bytes; bytes_deserialize := Some |}.

Definition notification_of (j : GrandpaJustification AvailHeader) : notification :=
  encode_justification header_encode j.
Definition broadcast2 : GrandpaJustification AvailHeader := broadcast_by old_keys 2.
Definition proof_of_2 : GrandpaJustification AvailHeader :=
  default broadcast2 (proof2 old_keys 2).

Lemma justifications_decoded_witness :
  grandpa_proveFinality 2 = Some proof_of_2
  ∧ received (map notification_of sample_stream) = sample_stream
  ∧ received (map notification_of sample_stream ++ [7] :: [notification_of broadcast2]) = sample_stream.
Proof.
  assert (∀ j : GrandpaJustification AvailHeader, gj_votes_ancestries j = [] →
    wf_grandpa_justification j → notifies (notification_of j) j) as Hn
    by (intros j Ej Hj; split; [done|done|rewrite Ej; by split]).
  assert (Forall wf_grandpa_justification [proof_of_2; broadcast_by old_keys 1;
    broadcast_by new_keys 3; broadcast_by new_keys 4]) as Hwf
    by (repeat constructor; by_decide).
  destruct (proj1 (Forall_cons _ _ _) Hwf) as [H2 Hstream].
  apply (justifications_decoded 2 proof_of_2
    {| fp_block := cm_target_hash (gj_commit proof_of_2);
       fp_justification := notification_of proof_of_2; fp_unknown_headers := [] |}
    (map notification_of sample_stream) sample_stream [7] [notification_of broadcast2]).
  - done.
  - by split.
  - vm_compute. reflexivity.
  - by_decide.
  - done.
  - by_decide.
  - by split.
  - unfold sample_stream. apply Forall_cons in Hstream as [H1 [H3 [H4 _]%Forall_cons]%Forall_cons].
    apply Forall2_cons; split; [by apply Hn|]. apply Forall2_cons; split; [by apply Hn|].
    apply Forall2_cons; split; [by apply Hn|constructor].
  - vm_compute. reflexivity.
Defined.
