(* ===== verification/HintTypes.v ===== *)
(** * The types of the hints' results

    A circuit's variables have fixed sizes, and a hint that answers with other sizes
    cannot be assigned.  Whatever a node or the Redis store answers, a hint that
    returns respects the sizes of circuits/vars.rs, as long as the stored
    justifications have no more authorities than the circuit has slots, which the code
    leaves to the indexer. *)

From stdpp Require Import gmap.
From S2P Require Import Prelude Consts Vars Builder Reference Decoder Offchain Justification.
From S2P Require Import Rotate Subchain Types Redis Fetcher Hints Indexer.

(** The stored justifications fit [M] slots. *)
Definition stored_fits `{RedisServer} (avail_chain_id : string) (M : nat) (s : store) : Prop :=
  ∀ n d, get_justification avail_chain_id n s = Ret d → (st_num_authorities d ≤ M)%nat.

Lemma is_u32_as_u32 n : is_u32 (as_u32 n).
Proof. unfold as_u32, is_u32. apply Z.mod_pos_bound. lia. Qed.
#[export] Hint Resolve is_u32_as_u32 : vectorx.

Section Headers.
Context `{AvailNode}.

Lemma headers_batch_length b fuel headers a r :
  loop fuel (headers_batch b) (headers, a) = Ret r →
  length r = (length headers + Z.to_nat (b + 1 - a))%nat.
Proof.
  revert headers a. induction fuel as [|fuel IH]; intros headers a Hrun; [discriminate Hrun|].
  cbn [loop] in Hrun. apply bind_Ret in Hrun as (st & Hbatch & Hrun). unfold headers_batch in Hbatch.
  case_decide as Hle.
  - apply bind_Ret in Hbatch as (next & Hnext & Hbatch). apply bind_Ret in Hbatch as (last & Hlast & Hbatch).
    apply bind_Ret in Hbatch as (batch & Htr & [= <-]). apply IH in Hrun. rewrite Hrun, length_app.
    apply traverse_Ret, Forall2_length in Htr. rewrite length_seqZ in Htr. rewrite <- Htr.
    apply checked_add_inv in Hnext as [-> _], Hlast as [-> _]. unfold MAX_CONCURRENT_WS_REQUESTS. lia.
  - injection Hbatch as <-. injection Hrun as <-. lia.
Qed.

Lemma get_block_headers_range_length a b headers :
  get_block_headers_range a b = Ret headers → length headers = Z.to_nat (b + 1 - a).
Proof.
  unfold get_block_headers_range. intros (u & _ & Hrun)%bind_Ret. by apply headers_batch_length in Hrun.
Qed.

Lemma encoded_header_wf L h eh : encoded_header L h = Ret eh → wf_header L eh.
Proof.
  unfold encoded_header. intros [Hlen [= <-]]%assert_Ret. apply bool_decide_eq_true in Hlen.
  split; cbn [header_bytes header_size]; [|auto with vectorx].
  rewrite length_app, length_replicate. lia.
Qed.

Lemma HeaderRangeFetcherHint_wf L N a b m headers :
  HeaderRangeFetcherHint L N a b m = Ret headers →
  length headers = max N (Z.to_nat (Z.min b m + 1 - a)) ∧ Forall (wf_header L) headers.
Proof.
  unfold HeaderRangeFetcherHint. intros (hs & Hhs & (vars & Hvars & [= <-])%bind_Ret)%bind_Ret.
  apply traverse_Ret in Hvars.
  assert (length hs = Z.to_nat (Z.min b m + 1 - a)) as Hlen.
  { case_decide; [by apply get_block_headers_range_length|]. injection Hhs as <-. cbn. lia. }
  rewrite length_app, length_replicate, <- (Forall2_length _ _ _ Hvars). split; [lia|].
  apply Forall_app. split.
  - apply Forall_lookup. intros i v Hi. destruct (Forall2_lookup_r _ _ _ _ _ Hvars Hi) as (h & _ & Hh).
    by eapply encoded_header_wf.
  - apply Forall_replicate. split; cbn [header_bytes header_size]; [apply length_replicate|].
    unfold is_u32. lia.
Qed.
End Headers.

Section Rotations.
Context `{Hashing, DummyValues, AvailNode}.

Lemma get_header_rotate_sizes L M n d :
  get_header_rotate L M n = Ret d →
  length (hr_header_bytes d) = L
  ∧ length (hr_padded_pubkeys d) = max M (hr_num_authorities d).
Proof.
  unfold get_header_rotate. intros Hrun.
  apply bind_Ret in Hrun as (? & _ & Hrun). apply bind_Ret in Hrun as (? & _ & Hrun).
  apply bind_Ret in Hrun as (? & _ & Hrun). apply bind_Ret in Hrun as (? & _ & Hrun).
  apply assert_Ret in Hrun as [_ Hrun]. apply bind_Ret in Hrun as (h & _ & Hrun).
  apply assert_Ret in Hrun as [Hlen%bool_decide_eq_true Hrun].
  apply bind_Ret in Hrun as (keys & _ & Hrun). apply bind_Ret in Hrun as (? & _ & Hrun).
  apply expect_Ret in Hrun as (position & _ & [= <-]).
  cbn [hr_header_bytes hr_padded_pubkeys hr_num_authorities].
  rewrite !length_app, !length_replicate. lia.
Qed.

Lemma RotateHint_wf L M id r : RotateHint L M id = Ret r → wf_rotate L M r.
Proof.
  unfold RotateHint. intros (n & _ & (d & Hd & Hrun)%bind_Ret)%bind_Ret.
  apply assert_Ret in Hrun as [Hfit%bool_decide_eq_true [= <-]].
  apply get_header_rotate_sizes in Hd as [Hbytes Hkeys].
  split; cbn [target_header new_pubkeys]; [|lia].
  split; cbn [header_bytes header_size]; auto with vectorx.
Qed.
End Rotations.

Section Justifications.
Context `{Hashing, DummyValues, AvailNode, RedisServer} (avail_chain_id : string).

(** Both sources of a justification stay within the circuit's slots. *)
Lemma get_justification_data_fits M n s d :
  stored_fits avail_chain_id M s →
  get_justification_data avail_chain_id M n s = Ret d → sd_num_authorities d ≤ Z.of_nat M.
Proof.
  intros Hfits. unfold get_justification_data. intros (? & _ & Hrun)%bind_Ret.
  apply bind_Ret in Hrun as (? & _ & Hrun). apply bind_Ret in Hrun as (? & _ & Hrun).
  apply bind_Ret in Hrun as (? & _ & Hrun). apply bind_Ret in Hrun as (? & _ & Hrun). case_decide.
  - unfold finality_justification in Hrun. apply expect_Ret in Hrun as (? & _ & Hrun).
    apply bind_Ret in Hrun as (? & _ & Hrun). apply bind_Ret in Hrun as (? & _ & Hrun).
    apply bind_Ret in Hrun as (keys & _ & Hrun). apply assert_Ret in Hrun as [Hlen%bool_decide_eq_true Hrun].
    apply expect_Ret in Hrun as (? & _ & Hrun). apply bind_Ret in Hrun as (? & _ & [= <-]).
    cbn [sd_num_authorities]. lia.
  - unfold stored_justification in Hrun. apply bind_Ret in Hrun as (stored & Hst & Hrun).
    apply bind_Ret in Hrun as (? & _ & [= <-]). apply Hfits in Hst. cbn [sd_num_authorities]. lia.
Qed.

Lemma get_justification_from_block_fits M n s cj :
  stored_fits avail_chain_id M s →
  get_justification_from_block avail_chain_id M n s = Ret cj → (cj_num_authorities cj ≤ M)%nat.
Proof.
  intros Hfits. unfold get_justification_from_block. intros (d & Hd & Hrun)%bind_Ret.
  apply (get_justification_data_fits _ _ _ _ Hfits) in Hd.
  apply bind_Ret in Hrun as (? & _ & Hrun). apply bind_Ret in Hrun as (? & _ & Hrun).
  apply bind_Ret in Hrun as (? & _ & Hrun). apply bind_Ret in Hrun as (? & _ & Hrun).
  apply assert_Ret in Hrun as [_ Hrun]. apply bind_Ret in Hrun as (? & _ & [= <-]).
  cbn [cj_num_authorities]. lia.
Qed.

Lemma HintSimpleJustification_wf M n s id j :
  stored_fits avail_chain_id M s →
  HintSimpleJustification avail_chain_id M s n id = Ret j → wf_justification M j.
Proof.
  intros Hfits. unfold HintSimpleJustification. intros (cj & Hcj & Hrun)%bind_Ret.
  assert (get_justification_from_block avail_chain_id M n s = Ret cj) as Hcj'
    by (by destruct (get_justification_from_block _ _ _ _)). clear Hcj.
  apply assert_Ret in Hrun as [_ Hrun]. apply assert_Ret in Hrun as [Hmsg%bool_decide_eq_true Hrun].
  apply bind_Ret in Hrun as (? & _ & [= <-]).
  pose proof (get_justification_from_block_fits _ _ _ _ Hfits Hcj') as Hnum.
  destruct (get_justification_from_block_run _ _ _ _ _ Hcj') as (slots & En & _ & Evs & Epk & Esig).
  assert (length (slots ++ replicate (M - length slots) (false, DUMMY_PUBLIC_KEY, DUMMY_SIGNATURE)) = M)
    by (rewrite length_app, length_replicate; lia).
  split; cbn [encoded_precommit validator_signed signatures pubkeys num_authorities];
    rewrite ?Evs, ?Epk, ?Esig, ?length_map; auto with vectorx.
Qed.
End Justifications.

(** ** Property *)
Section Properties.
Context `{Hashing, SpCore, DummyValues, AvailNode, !RedisServer, !RedisLaws} (avail_chain_id : string).

(** What the indexer stores fits the slots when the authority sets do. *)
Lemma index_fits M s :
  index_ok avail_chain_id s → (∀ n keys, get_authorities n = Ret keys → (length keys ≤ M)%nat) →
  stored_fits avail_chain_id M s.
Proof.
  intros Hs HM n d Hd. apply index_ok_read in Hd as [_ Hkeys _ Hlen _ _]; [|done].
  rewrite <- Hlen. by eapply HM.
Qed.

(** C21: the hints are well typed.  Whatever the node answers and broadcasts, as long as
    its authority sets fit the slots: a header range hint that returns gives the number of
    headers of the circuit, each in an array of the maximal size; a rotate hint, a header
    and keys of the maximal sizes; a justification hint over the indexer's store, the
    maximal number of slots. *)
Theorem hints_well_typed L M N subscription s0 s :
  (∀ h hd, chain_get_header h = Some hd → is_u32 (number hd)) →
  (∀ n, absent avail_chain_id n s0) →
  listen_for_justifications avail_chain_id subscription s0 = Ret s →
  (∀ n keys, get_authorities n = Ret keys → (length keys ≤ M)%nat) →
  (∀ a b m headers, HeaderRangeFetcherHint L N a b m = Ret headers →
     Z.min b m + 1 - a ≤ Z.of_nat N → length headers = N ∧ Forall (wf_header L) headers)
  ∧ (∀ id r, RotateHint L M id = Ret r → wf_rotate L M r)
  ∧ (∀ n id j, HintSimpleJustification avail_chain_id M s n id = Ret j → wf_justification M j).
Proof.
  intros Hu32 Hempty Hrun HM. split_and!.
  - intros a b m headers [Hlen Hwf]%HeaderRangeFetcherHint_wf Hn. split; [lia|done].
  - apply RotateHint_wf.
  - intros n id j. apply HintSimpleJustification_wf, index_fits; [|done].
    eapply listen_index_ok; [exact Hu32| |exact Hrun]. by apply empty_index_ok.
Qed.
End Properties.

(** ** Witness: the hints on the sample chain, after three broadcasts *)
Import Ref RefNode RefRedis Sample.
#[local] Existing Instance sample_node.
#[local] Existing Instance sample_sp_core.

Lemma sample_sets_fit n keys : get_authorities n = Ret keys → (length keys ≤ 3)%nat.
Proof.
  intros Hrun. assert (0 ≤ n ≤ ch_head (chain_of old_keys)) as Hn.
  { apply bind_Ret in Hrun as (? & _ & (h & Hh & _)%bind_Ret).
    unfold get_block_hash in Hh. change (chain_get_block_hash n) with
      (if decide (0 ≤ n) then (λ b, header_hash (bd_header b)) <$> blocks !! Z.to_nat n else None) in Hh.
    case_decide; [|discriminate Hh].
    destruct (blocks !! Z.to_nat n) as [b|] eqn:Hb; [|discriminate Hh]. apply lookup_lt_Some in Hb.
    change (length blocks) with 5%nat in Hb. change (ch_head _) with 4. lia. }
  pose proof (eq_trans (eq_sym Hrun) (get_authorities_run _ (chain_serves old_keys) n Hn)) as Hk.
  assert (keys = authorities_of (chain_of old_keys) n) as -> by congruence.
  change (ch_head _) with 4 in Hn.
  assert (n = 0 ∨ n = 1 ∨ n = 2 ∨ n = 3 ∨ n = 4) as [->|[->|[->|[->| ->]]]] by lia; by_decide.
Qed.

Lemma hints_well_typed_witness :
  (∀ headers, HeaderRangeFetcherHint 400 16 1 3 10 = Ret headers →
     length headers = 16%nat ∧ Forall (wf_header 400) headers)
  ∧ (∀ r, RotateHint 400 3 0 = Ret r → wf_rotate 400 3 r)
  ∧ (∀ j, HintSimpleJustification "avail" 3 (indexed_store sample_stream) 3 1 = Ret j →
     wf_justification 3 j).
Proof.
  destruct (hints_well_typed "avail" 400 3 16 sample_stream empty (indexed_store sample_stream))
    as (Hrange & Hrotate & Hjust).
  - apply ref_number_u32. by_decide.
  - intros n r [= <-]. done.
  - exact sample_listened.
  - exact sample_sets_fit.
  - split_and!; [|apply Hrotate|apply Hjust].
    intros headers Hrun. apply (Hrange 1 3 10 headers Hrun). lia.
Defined.
