(* ===== verification/Operator.v ===== *)
(** * The operator: [VectorXOperator] of bin/vectorx.rs

    Reads the light client's state from the contract and the chain's from the
    node, and decides which proofs to request: a rotation when the next authority
    set is not known yet, and a header range to the furthest block it can justify. *)

From stdpp Require Import gmap.
From S2P Require Import Prelude Consts Vars Builder Reference Decoder Offchain Justification.
From S2P Require Import Rotate Subchain Types Redis Fetcher Hints Circuits Finality Indexer.

(** ** The contract, as [abigen!] exposes it, and the encoders *)
Class VectorX := {
  header_range_function_id : option Bytes32;
  rotate_function_id : option Bytes32;
  latest_block : option U32;
  header_range_commitment_tree_size : option U32;
  block_height_to_header_hash : U32 → option Bytes32;
  authority_set_id_to_hash : U64 → option Bytes32;

  (** The calldata of [commitHeaderRange] and [rotate]. *)
  encode_commit_header_range : U64 → U32 → bytes;
  encode_rotate : U64 → bytes;
  (** alloy's [abi_encode_packed] of the two input tuples. *)
  abi_encode_packed_header_range : U32 → Bytes32 → U64 → Bytes32 → U32 → bytes;
  abi_encode_packed_rotate : U64 → Bytes32 → bytes;
}.

(** Packed encoding puts integers in big-endian order, next to each other. *)
Class PackedEncoding `{VectorX} := {
  packed_header_range t th id sh n :
    abi_encode_packed_header_range t th id sh n = header_range_input t th id sh n;
  packed_rotate id sh : abi_encode_packed_rotate id sh = rotate_input id sh;
}.

(** ** Data *)
Record VectorXConfig := { cfg_address : bytes; cfg_chain_id : U32 }.

Record HeaderRangeContractData := {
  hd_vectorx_latest_block : U32;
  hd_avail_current_block : U32;
  hd_header_range_commitment_tree_size : U32;
  hd_next_authority_set_hash_exists : bool;
  hd_header_range_function_id : Bytes32;
}.

Record RotateContractData := {
  rd_current_block : U32;
  rd_next_authority_set_hash_exists : bool;
  rd_rotate_function_id : Bytes32;
}.

(** What [submit_platform_request] is called with. *)
Record Request := {
  rq_chain_id : U32;
  rq_address : bytes;
  rq_function_data : bytes;
  rq_function_id : Bytes32;
  rq_input : bytes;
}.

(** ** Operations *)
Section Operations.
Context `{Hashing, DummyValues, AvailNode, RedisServer, VectorX}.
Context (config : VectorXConfig) (is_dummy_operator : bool) (avail_chain_id : string).

Definition unwrap_error : string := "called `Result::unwrap()` on an `Err` value".
Definition B256_ZERO : Bytes32 := replicate 32 0.

Definition get_header_range_input_data (trusted_block : U32) (trusted_authority_set_id : U64)
    : outcome (Bytes32 * Bytes32) :=
  trusted_header_hash ← expect (block_height_to_header_hash trusted_block) unwrap_error;
  trusted_authority_set_hash ←
    expect (authority_set_id_to_hash trusted_authority_set_id) unwrap_error;
  Ret (trusted_header_hash, trusted_authority_set_hash).

Definition get_rotate_input_data (current_authority_set_id : U64) : outcome Bytes32 :=
  expect (authority_set_id_to_hash current_authority_set_id) unwrap_error.

(** The request that is submitted; the client's answer is only logged. *)
Definition request_header_range (trusted_block : U32) (trusted_authority_set_id : U64)
    (target_block : U32) (header_range_function_id : Bytes32) : outcome Request :=
  '(trusted_header_hash, trusted_authority_set_hash) ←
    get_header_range_input_data trusted_block trusted_authority_set_id;
  let input := abi_encode_packed_header_range trusted_block trusted_header_hash
    trusted_authority_set_id trusted_authority_set_hash target_block in
  Ret {| rq_chain_id := cfg_chain_id config;
         rq_address := cfg_address config;
         rq_function_data := encode_commit_header_range trusted_authority_set_id target_block;
         rq_function_id := header_range_function_id;
         rq_input := input |}.

Definition request_rotate (current_authority_set_id : U64) (rotate_function_id : Bytes32)
    : outcome Request :=
  current_authority_set_hash ← get_rotate_input_data current_authority_set_id;
  let input := abi_encode_packed_rotate current_authority_set_id current_authority_set_hash in
  Ret {| rq_chain_id := cfg_chain_id config;
         rq_address := cfg_address config;
         rq_function_data := encode_rotate current_authority_set_id;
         rq_function_id := rotate_function_id;
         rq_input := input |}.

Definition get_contract_data_for_header_range : outcome HeaderRangeContractData :=
  header_range_function_id ← expect header_range_function_id unwrap_error;
  vectorx_latest_block ← expect latest_block unwrap_error;
  header_range_commitment_tree_size ← expect header_range_commitment_tree_size unwrap_error;
  head ← get_head;
  before ← checked_sub vectorx_latest_block 1;
  vectorx_current_authority_set_id ← get_authority_set_id before;
  next_authority_set_id ← checked_add 64 vectorx_current_authority_set_id 1;
  next_authority_set_hash ← expect (authority_set_id_to_hash next_authority_set_id) unwrap_error;
  Ret {| hd_vectorx_latest_block := vectorx_latest_block;
         hd_avail_current_block := number head;
         hd_header_range_commitment_tree_size := header_range_commitment_tree_size;
         hd_next_authority_set_hash_exists :=
           negb (bool_decide (next_authority_set_hash = B256_ZERO));
         hd_header_range_function_id := header_range_function_id |}.

Definition get_contract_data_for_rotate : outcome RotateContractData :=
  rotate_function_id ← expect rotate_function_id unwrap_error;
  current_block ← expect latest_block unwrap_error;
  before ← checked_sub current_block 1;
  current_authority_set_id ← get_authority_set_id before;
  next_authority_set_id ← checked_add 64 current_authority_set_id 1;
  next_authority_set_hash ← expect (authority_set_id_to_hash next_authority_set_id) unwrap_error;
  Ret {| rd_current_block := current_block;
         rd_next_authority_set_hash_exists :=
           negb (bool_decide (next_authority_set_hash = B256_ZERO));
         rd_rotate_function_id := rotate_function_id |}.

Definition find_and_request_rotate : outcome (option Request) :=
  rotate_contract_data ← get_contract_data_for_rotate;
  head ← get_head;
  before_head ← checked_sub (number head) 1;
  head_authority_set_id ← get_authority_set_id before_head;
  before ← checked_sub (rd_current_block rotate_contract_data) 1;
  current_authority_set_id ← get_authority_set_id before;
  if bool_decide (current_authority_set_id < head_authority_set_id)
     && negb (rd_next_authority_set_hash_exists rotate_contract_data)
  then
    _ ← checked_add 64 current_authority_set_id 1;
    request ← request_rotate current_authority_set_id (rd_rotate_function_id rotate_contract_data);
    Ret (Some request)
  else Ret None.

(** One iteration of the search for a justified block; [inr] leaves the loop.
    The message that is logged when the search fails computes a sum too. *)
Definition step_search (ideal_block_interval tree_size current_block : U32) (s : store)
    (block_to_step_to : U32) : outcome (U32 + option U32) :=
  limit ← checked_add 32 current_block tree_size;
  if decide (limit < block_to_step_to) then
    _ ← checked_add 32 current_block ideal_block_interval;
    Ret (inr None)
  else
    match get_justification_from_block avail_chain_id MAX_AUTHORITY_SET_SIZE block_to_step_to s with
    | Ret _ => Ret (inr (Some block_to_step_to))
    | Err _ => next ← checked_add 32 block_to_step_to 1; Ret (inl next)
    | Panic m => Panic m
    | OutOfFuel => OutOfFuel
    end.

(** [a % b], which panics on zero. *)
Definition checked_rem (a b : Z) : outcome Z :=
  if decide (b = 0)
  then Panic "attempt to calculate the remainder with a divisor of zero" else Ret (a mod b).

(** The search moves at most [tree_size + 1] blocks ahead. *)
Definition find_block_to_step_to (ideal_block_interval header_range_commitment_tree_size
    vectorx_current_block avail_current_block : U32) (authority_set_id : U64) (s : store)
    : outcome (option U32) :=
  last_justified_block ← last_justified_block authority_set_id;
  limit ← (if decide (last_justified_block = 0) then Ret 0
           else checked_add 32 vectorx_current_block header_range_commitment_tree_size);
  if bool_decide (last_justified_block ≠ 0) && bool_decide (last_justified_block ≤ limit)
  then Ret (Some last_justified_block) else
  limit ← checked_add 32 vectorx_current_block header_range_commitment_tree_size;
  let max_valid_block_to_step_to := Z.min limit avail_current_block in
  rem ← checked_rem max_valid_block_to_step_to ideal_block_interval;
  block_to_step_to ← checked_sub max_valid_block_to_step_to rem;
  if decide (block_to_step_to ≤ vectorx_current_block) then Ret None else
  if is_dummy_operator then Ret (Some block_to_step_to) else
  loop (Z.to_nat header_range_commitment_tree_size + 2)
    (step_search ideal_block_interval header_range_commitment_tree_size vectorx_current_block s)
    block_to_step_to.

Definition find_and_request_header_range (ideal_block_interval : U32) (s : store)
    : outcome (option Request) :=
  data ← get_contract_data_for_header_range;
  before ← checked_sub (hd_vectorx_latest_block data) 1;
  current_authority_set_id ← get_authority_set_id before;
  last_justified_block ← last_justified_block current_authority_set_id;
  request_authority_set_id ←
    (if decide (hd_vectorx_latest_block data = last_justified_block) then
       next_authority_set_id ← checked_add 64 current_authority_set_id 1;
       Ret (if negb (hd_next_authority_set_hash_exists data) then None
            else Some next_authority_set_id)
     else Ret (Some current_authority_set_id));
  match request_authority_set_id with
  | None => Ret None
  | Some request_authority_set_id =>
      block_to_step_to ← find_block_to_step_to ideal_block_interval
        (hd_header_range_commitment_tree_size data) (hd_vectorx_latest_block data)
        (hd_avail_current_block data) request_authority_set_id s;
      match block_to_step_to with
      | None => Ret None
      | Some block_to_step_to =>
          request ← request_header_range (hd_vectorx_latest_block data) request_authority_set_id
            block_to_step_to (hd_header_range_function_id data);
          Ret (Some request)
      end
  end.

(** One round of [run]: the requests that it submits, in order. *)
Definition run_round (block_interval : U32) (s : store) : outcome (list Request) :=
  rotate ← find_and_request_rotate;
  header_range ← find_and_request_header_range block_interval s;
  Ret (option_list rotate ++ option_list header_range).
End Operations.

(** ** Helper lemmas *)

(** None of the calls behind a justification loops. *)
Section Fuel.
Context `{Hashing, DummyValues, AvailNode, RedisServer} (avail_chain_id : string).

Lemma refresh_in_fuel : in_fuel refresh_ws_connection.
Proof.
  unfold refresh_ws_connection. induction (seq 0 MAX_RECONNECT_ATTEMPTS) as [|i l IH]; [done|].
  cbn [refresh_loop]. by repeat case_match.
Qed.

Lemma connection_in_fuel : in_fuel get_connection.
Proof.
  unfold get_connection. induction (seq 0 Redis.MAX_RECONNECT_ATTEMPTS) as [|i l IH]; [done|].
  cbn [connect_loop]. by case_match.
Qed.
#[local] Hint Resolve refresh_in_fuel connection_in_fuel : fuel.

Lemma block_hash_in_fuel n : in_fuel (get_block_hash n).
Proof. apply in_fuel_expect. Qed.
#[local] Hint Resolve block_hash_in_fuel : fuel.

Lemma authority_set_id_in_fuel n : in_fuel (get_authority_set_id n).
Proof. unfold get_authority_set_id. in_fuel. Qed.
Lemma authorities_in_fuel n : in_fuel (get_authorities n).
Proof. unfold get_authorities. in_fuel. Qed.
Lemma verify_signature_in_fuel pk m sig : in_fuel (verify_signature pk m sig).
Proof. unfold verify_signature. in_fuel. Qed.
#[local] Hint Resolve authority_set_id_in_fuel authorities_in_fuel verify_signature_in_fuel : fuel.

Lemma justification_in_fuel MAX n s :
  in_fuel (get_justification_from_block avail_chain_id MAX n s).
Proof.
  unfold get_justification_from_block, get_justification_data, finality_justification,
    stored_justification, get_justification, collect_signatures, copy_slot, key_from_slice.
  in_fuel.
Qed.
End Fuel.

(** The search for a justified block. *)
Section Search.
Context `{Hashing, DummyValues, AvailNode, RedisServer} (avail_chain_id : string).
Context (interval size cur : U32) (s : store).

Lemma step_search_inl b b' :
  step_search avail_chain_id interval size cur s b = Ret (inl b') → b' = b + 1 ∧ b ≤ cur + size.
Proof.
  unfold step_search. intros (limit & [-> _]%checked_add_inv & Hrun)%bind_Ret.
  case_decide; [by apply bind_Ret in Hrun as (? & _ & ?)|].
  destruct (get_justification_from_block _ _ _ _); try done.
  apply bind_Ret in Hrun as (? & [-> _]%checked_add_inv & [= <-]). lia.
Qed.

Lemma step_search_inr b r :
  step_search avail_chain_id interval size cur s b = Ret (inr r) →
  r = None ∨ r = Some b ∧ b ≤ cur + size
    ∧ ∃ cj, get_justification_from_block avail_chain_id MAX_AUTHORITY_SET_SIZE b s = Ret cj.
Proof.
  unfold step_search. intros (limit & [-> _]%checked_add_inv & Hrun)%bind_Ret.
  case_decide; [apply bind_Ret in Hrun as (? & _ & [= <-]); by left|].
  destruct (get_justification_from_block _ _ _ _) as [cj| | |] eqn:E; try done.
  - injection Hrun as <-. right. split_and!; [done|lia|by exists cj].
  - by apply bind_Ret in Hrun as (? & _ & ?).
Qed.

(** The search ends, within the fuel of the model. *)
Lemma search_in_fuel b :
  cur ≤ b → in_fuel (loop (Z.to_nat size + 2) (step_search avail_chain_id interval size cur s) b).
Proof.
  intros Hb. apply (in_fuel_loop (λ b, Z.to_nat (cur + size + 1 - b))).
  - lia.
  - intros b'. unfold step_search. pose proof (justification_in_fuel avail_chain_id).
    apply in_fuel_bind; [apply in_fuel_add|]. intros limit. case_decide; [in_fuel|].
    specialize (H3 MAX_AUTHORITY_SET_SIZE b' s).
    destruct (get_justification_from_block _ _ _ _); [done| |done|done]. in_fuel.
  - intros b1 b2 [-> ?]%step_search_inl. lia.
Qed.

Lemma search_found b r :
  loop (Z.to_nat size + 2) (step_search avail_chain_id interval size cur s) b = Ret (Some r) →
  b ≤ r ≤ cur + size
  ∧ ∃ cj, get_justification_from_block avail_chain_id MAX_AUTHORITY_SET_SIZE r s = Ret cj.
Proof.
  intros Hrun. apply (loop_inv (λ b', b ≤ b')) in Hrun as (b' & Hb & Hstep); [|lia|].
  - apply step_search_inr in Hstep as [|(Er & Hle & Hcj)]; [done|]. injection Er as ->. by split.
  - intros b1 b2 Hb1 [-> _]%step_search_inl. lia.
Qed.
End Search.

(** ** Served chains *)
Section Served.
Context `{Hashing, DummyValues, AvailNode, RedisServer} (is_dummy_operator : bool).
Context (avail_chain_id : string) (c : chain) (Hc : serves c) (He : epochs c).

(** A block that the contract can step to from [cur] with set [id]: ahead, in
    reach, in the epoch of the set, and justified unless the proofs are dummies. *)
Record good_target (cur size : U32) (id : U64) (target : U32) (s : store) : Prop := {
  gt_ahead : cur < target;
  gt_reach : target ≤ cur + size;
  gt_set : target ≤ ch_head c → set_id c (target - 1) = id;
  gt_justified : is_dummy_operator = false → epoch_end c target
    ∨ ∃ cj, get_justification_from_block avail_chain_id MAX_AUTHORITY_SET_SIZE target s = Ret cj;
}.

(** Up to the end of an epoch, and for the whole latest one, the set stays. *)
Lemma set_id_within cur n target :
  0 ≤ cur < target → target ≤ ch_head c → search_result c (set_id c cur) n →
  (n ≠ 0 → target ≤ n) → set_id c (target - 1) = set_id c cur.
Proof.
  intros Ht Hhead Hres Hn. pose proof (set_id_mono c He cur (target - 1)).
  unfold search_result in Hres. case_decide.
  - pose proof Hres as (? & ? & ?). pose proof (set_id_mono c He (target - 1) (n - 1)).
    specialize (Hn ltac:(lia)). lia.
  - pose proof (set_id_mono c He (target - 1) (ch_head c)). lia.
Qed.

Lemma set_id_u64 n : 0 ≤ n ≤ ch_head c → 0 ≤ set_id c n ∧ set_id c n + 1 < 2 ^ 64.
Proof.
  intros Hn. pose proof (set_id_nonneg c He n Hn). pose proof (set_id_bound c He n Hn).
  pose proof (sv_range c Hc). lia.
Qed.

Lemma find_block_found interval size cur id s target :
  0 < cur ≤ ch_head c → id = set_id c cur → 0 ≤ interval →
  find_block_to_step_to is_dummy_operator avail_chain_id interval size cur (ch_head c) id s
    = Ret (Some target) →
  good_target cur size id target s.
Proof.
  intros Hcur Hid Hint Hrun. destruct (set_id_u64 cur ltac:(lia)) as [Hid0 Hid64].
  destruct (last_justified_block_run c Hc He id) as (n & Hn & Hres); [lia..|].
  unfold find_block_to_step_to in Hrun. rewrite Hn in Hrun. cbn [mbind outcome_bind] in Hrun.
  assert (n ≠ 0 → last_justified c id n ∧ cur < n) as Hlast.
  { intros Hn0. pose proof Hres as Hres'. unfold search_result in Hres'. case_decide; [|done].
    split; [done|]. destruct Hres' as (? & ? & _).
    destruct (decide (cur < n)); [done|]. pose proof (set_id_mono c He n cur). lia. }
  rewrite Hid in Hres. apply bind_Ret in Hrun as (limit & Hlimit & Hrun).
  destruct (bool_decide (n ≠ 0) && bool_decide (n ≤ limit)) eqn:Hend.
  - apply andb_true_iff in Hend as [Hn0%bool_decide_eq_true Hle%bool_decide_eq_true].
    rewrite decide_False in Hlimit by done. apply checked_add_inv in Hlimit as [-> _].
    injection Hrun as <-. destruct (Hlast Hn0) as [Hl Hahead]. split; [done|done| |].
    + intros _. by destruct Hl as (_ & _ & ?).
    + intros _. left. unfold epoch_end. destruct Hl as (Hr & E1 & E2). by rewrite E2.
  - assert (∀ b, cur < b → b ≤ cur + size → b ≤ ch_head c → set_id c (b - 1) = id) as Hset.
    { intros b ???. rewrite Hid. apply (set_id_within cur n b); [lia|done|done|]. intros Hn0.
      rewrite bool_decide_eq_true_2 in Hend by done.
      rewrite decide_False in Hlimit by done. apply checked_add_inv in Hlimit as [-> _].
      cbn in Hend. apply bool_decide_eq_false in Hend. lia. }
    clear Hlimit Hend limit. apply bind_Ret in Hrun as (limit & [-> _]%checked_add_inv & Hrun).
    apply bind_Ret in Hrun as (rem & Hrem & Hrun). unfold checked_rem in Hrem.
    case_decide as Hz; [done|]. injection Hrem as <-.
    apply bind_Ret in Hrun as (b & [Hb _]%checked_sub_inv & Hrun).
    case_decide as Hahead; [done|]. destruct is_dummy_operator eqn:Hd.
    + injection Hrun as <-. assert (b ≤ cur + size) as Hle.
      { pose proof (Z.mod_pos_bound (Z.min (cur + size) (ch_head c)) interval). lia. }
      split; [lia|done|intros; apply Hset; lia|congruence].
    + apply search_found in Hrun as [Hr Hcj].
      split; [lia|lia|intros; apply Hset; lia|]. intros _. by right.
Qed.

(** ** The contract at a block of the chain *)
Context `{VectorX} (config : VectorXConfig).

Record contract_at (cur size : U32) : Prop := {
  ca_latest : latest_block = Some cur;
  ca_size : header_range_commitment_tree_size = Some size;
  ca_range : 0 < cur ≤ ch_head c;
}.

Lemma get_contract_data_for_header_range_inv cur size d :
  contract_at cur size → get_contract_data_for_header_range = Ret d →
  hd_vectorx_latest_block d = cur ∧ hd_avail_current_block d = ch_head c
  ∧ hd_header_range_commitment_tree_size d = size
  ∧ header_range_function_id = Some (hd_header_range_function_id d)
  ∧ ∃ next, authority_set_id_to_hash (set_id c (cur - 1) + 1) = Some next
      ∧ hd_next_authority_set_hash_exists d = negb (bool_decide (next = B256_ZERO)).
Proof.
  intros [Hl Hs Hr] Hrun. unfold get_contract_data_for_header_range in Hrun.
  apply expect_Ret in Hrun as (fid & Hfid & Hrun). rewrite Hl, Hs in Hrun.
  cbn [expect mbind outcome_bind] in Hrun.
  rewrite (get_head_run c Hc) in Hrun. cbn [mbind outcome_bind] in Hrun.
  rewrite (sv_number c Hc) in Hrun by lia. rewrite checked_sub_Ret in Hrun by lia.
  cbn [mbind outcome_bind] in Hrun. rewrite (get_authority_set_id_run c Hc) in Hrun by lia.
  cbn [mbind outcome_bind] in Hrun. apply bind_Ret in Hrun as (? & [-> _]%checked_add_inv & Hrun).
  apply expect_Ret in Hrun as (next & Hnext & [= <-]). cbn. split_and!; try done. by exists next.
Qed.

(** The set of the next block: the current one, unless the contract stands at the
    last block of its epoch. *)
Lemma next_set cur n :
  0 < cur ≤ ch_head c → search_result c (set_id c (cur - 1)) n →
  set_id c cur = if decide (cur = n) then set_id c (cur - 1) + 1 else set_id c (cur - 1).
Proof.
  intros Hcur Hres. unfold search_result in Hres. pose proof (set_id_mono c He (cur - 1) cur).
  pose proof (set_id_mono c He cur (ch_head c)). case_decide.
  - pose proof Hres as (? & E1 & E2). case_decide; [by subst|].
    destruct (decide (n < cur)).
    + pose proof (set_id_mono c He n (cur - 1)). lia.
    + pose proof (set_id_mono c He cur (n - 1)). lia.
  - rewrite decide_False by lia. lia.
Qed.

Lemma header_range_request_run cur size interval s rq :
  contract_at cur size → 0 ≤ interval →
  find_and_request_header_range config is_dummy_operator avail_chain_id interval s = Ret (Some rq) →
  ∃ target th sh fid, let id := set_id c cur in
    good_target cur size id target s
    ∧ block_height_to_header_hash cur = Some th
    ∧ authority_set_id_to_hash id = Some sh
    ∧ header_range_function_id = Some fid
    ∧ (epoch_end c cur → sh ≠ B256_ZERO)
    ∧ rq = {| rq_chain_id := cfg_chain_id config; rq_address := cfg_address config;
              rq_function_data := encode_commit_header_range id target; rq_function_id := fid;
              rq_input := abi_encode_packed_header_range cur th id sh target |}.
Proof.
  intros Hca Hint Hrun. pose proof (ca_range _ _ Hca) as Hcur.
  unfold find_and_request_header_range in Hrun. apply bind_Ret in Hrun as (d & Hd & Hrun).
  destruct (get_contract_data_for_header_range_inv cur size d Hca Hd)
    as (E1 & E2 & E3 & Hfid & next & Hnext & Hex).
  rewrite E1, E2, E3, Hex in Hrun. rewrite checked_sub_Ret in Hrun by lia.
  cbn [mbind outcome_bind] in Hrun. rewrite (get_authority_set_id_run c Hc) in Hrun by lia.
  cbn [mbind outcome_bind] in Hrun.
  destruct (set_id_u64 (cur - 1)) as [Hid0 Hid64]; [lia|].
  destruct (last_justified_block_run c Hc He (set_id c (cur - 1))) as (n & Hn & Hres); [lia..|].
  rewrite Hn in Hrun. cbn [mbind outcome_bind] in Hrun. pose proof (next_set cur n Hcur Hres) as Hset.
  assert (∃ req, (if decide (cur = n) then
      next_authority_set_id ← checked_add 64 (set_id c (cur - 1)) 1;
      Ret (if negb (negb (bool_decide (next = B256_ZERO))) then None else Some next_authority_set_id)
    else Ret (Some (set_id c (cur - 1)))) = Ret req
    ∧ ∀ r, req = Some r → r = set_id c cur ∧ (cur = n → next ≠ B256_ZERO)) as (req & Hreq & Hr).
  { case_decide.
    - rewrite checked_add_Ret by lia. eexists. split; [reflexivity|]. intros r.
      case_bool_decide; cbn; [done|]. intros [= <-]. by split.
    - eexists. split; [reflexivity|]. intros r [= <-]. by split. }
  rewrite Hreq in Hrun. cbn [mbind outcome_bind] in Hrun. destruct req as [id|]; [|done].
  destruct (Hr id eq_refl) as [-> Hzero].
  apply bind_Ret in Hrun as (found & Hfound & Hrun). destruct found as [target|]; [|done].
  apply bind_Ret in Hrun as (rq' & Hreq' & [= ->]). unfold request_header_range in Hreq'.
  apply bind_Ret in Hreq' as ([th sh] & Hin & [= <-]). unfold get_header_range_input_data in Hin.
  apply expect_Ret in Hin as (th' & Hth & Hin). apply expect_Ret in Hin as (sh' & Hsh & [= <- <-]).
  exists target, th', sh', (hd_header_range_function_id d). split_and!; try done.
  - by apply (find_block_found interval size cur).
  - intros (_ & Ee & _). case_decide as Ecur; [|lia].
    rewrite Hset, Hnext in Hsh. injection Hsh as <-. by apply Hzero.
Qed.

Lemma contract_data_in_fuel : in_fuel get_contract_data_for_header_range.
Proof.
  unfold get_contract_data_for_header_range, get_head, get_authority_set_id, get_block_hash.
  pose proof refresh_in_fuel. in_fuel; done.
Qed.

Lemma find_block_in_fuel interval size cur s :
  0 < cur ≤ ch_head c → 0 ≤ size →
  in_fuel (find_block_to_step_to is_dummy_operator avail_chain_id interval size cur (ch_head c)
    (set_id c cur) s).
Proof.
  intros Hcur Hsize. destruct (set_id_u64 cur) as [Hid0 Hid64]; [lia|].
  destruct (last_justified_block_run c Hc He (set_id c cur)) as (n & Hn & _); [lia..|].
  unfold find_block_to_step_to, checked_rem. rewrite Hn. cbn [mbind outcome_bind].
  apply in_fuel_bind; [in_fuel|]. intros limit. destruct (_ && _); [done|].
  apply in_fuel_bind; [in_fuel|]. intros limit'. apply in_fuel_bind; [in_fuel|]. intros rem.
  apply in_fuel_bind; [in_fuel|]. intros b.
  case_decide; [done|]. destruct is_dummy_operator; [done|].
  apply search_in_fuel. lia.
Qed.

(** The decision to rotate. *)
Lemma find_and_request_rotate_run cur size fid next sh :
  contract_at cur size → rotate_function_id = Some fid →
  let id := set_id c (cur - 1) in
  authority_set_id_to_hash (id + 1) = Some next → authority_set_id_to_hash id = Some sh →
  0 < ch_head c →
  find_and_request_rotate config =
  Ret (if decide (id < set_id c (ch_head c - 1) ∧ next = B256_ZERO) then
         Some {| rq_chain_id := cfg_chain_id config; rq_address := cfg_address config;
                 rq_function_data := encode_rotate id; rq_function_id := fid;
                 rq_input := abi_encode_packed_rotate id sh |}
       else None).
Proof.
  intros [Hl Hs Hr] Hfid id Hnext Hsh Hhead. unfold find_and_request_rotate, get_contract_data_for_rotate.
  rewrite Hfid, Hl. cbn [expect mbind outcome_bind].
  rewrite (checked_sub_Ret cur 1) by lia. cbn [mbind outcome_bind].
  rewrite (get_authority_set_id_run c Hc) by lia. cbn [mbind outcome_bind]. fold id.
  destruct (set_id_u64 (cur - 1)) as [Hid0 Hid64]; [lia|]. fold id in Hid0, Hid64.
  rewrite checked_add_Ret by lia. cbn [mbind outcome_bind]. rewrite Hnext.
  cbn [expect mbind outcome_bind]. rewrite (get_head_run c Hc). cbn [mbind outcome_bind].
  rewrite (sv_number c Hc) by lia. rewrite (checked_sub_Ret (ch_head c) 1) by lia.
  cbn [mbind outcome_bind].
  rewrite (get_authority_set_id_run c Hc) by lia. cbn [mbind outcome_bind rd_current_block].
  rewrite checked_sub_Ret by lia. cbn [mbind outcome_bind].
  rewrite (get_authority_set_id_run c Hc) by lia. cbn [mbind outcome_bind rd_next_authority_set_hash_exists
    rd_rotate_function_id]. fold id. rewrite negb_involutive.
  case_decide as Hcase.
  - rewrite !bool_decide_eq_true_2 by apply Hcase. cbn [andb].
    rewrite checked_add_Ret by lia. cbn [mbind outcome_bind].
    unfold request_rotate, get_rotate_input_data. by rewrite Hsh.
  - destruct (bool_decide (id < _)) eqn:E; [|done]. apply bool_decide_eq_true in E.
    rewrite bool_decide_eq_false_2; [done|]. naive_solver.
Qed.
End Served.

(** ** Properties *)
Section Properties.
Context `{CircuitBuilderLaws, !HashingLaws, DummyValues, AvailNode, RedisServer, VectorX}.
Context (config : VectorXConfig) (is_dummy_operator : bool) (avail_chain_id : string).

(** C16: what the operator requests.  A header range request starts at the contract's
    block, is for the set that justifies the block after it, and its target is
    ahead and within the commitment tree.  A target that the chain has reached is in
    that set's epoch.  Unless the operator is a dummy, the target is the end of an
    epoch or has a justification that the fetcher returns.  The hashes in the input
    are the contract's, and past an epoch end the next set is known. *)
Theorem header_range_request_sound c cur size interval s rq :
  serves c → epochs c → contract_at c cur size → 0 ≤ interval →
  find_and_request_header_range config is_dummy_operator avail_chain_id interval s = Ret (Some rq) →
  ∃ target th sh fid, let id := set_id c cur in
    good_target is_dummy_operator avail_chain_id c cur size id target s
    ∧ block_height_to_header_hash cur = Some th
    ∧ authority_set_id_to_hash id = Some sh
    ∧ header_range_function_id = Some fid
    ∧ (epoch_end c cur → sh ≠ B256_ZERO)
    ∧ rq = {| rq_chain_id := cfg_chain_id config; rq_address := cfg_address config;
              rq_function_data := encode_commit_header_range id target; rq_function_id := fid;
              rq_input := abi_encode_packed_header_range cur th id sh target |}.
Proof. intros Hc He. by apply header_range_request_run. Qed.

(** C26: the operator requests a rotation exactly when the chain has moved past the
    contract's set and the contract does not know the next set; the set it asks to
    rotate has then ended, so that the rotate hint has a block to read. *)
Theorem rotate_request_iff c cur size fid next sh :
  serves c → epochs c → contract_at c cur size → rotate_function_id = Some fid →
  let id := set_id c (cur - 1) in
  authority_set_id_to_hash (id + 1) = Some next → authority_set_id_to_hash id = Some sh →
  0 < ch_head c →
  find_and_request_rotate config =
  Ret (if decide (id < set_id c (ch_head c - 1) ∧ next = B256_ZERO) then
         Some {| rq_chain_id := cfg_chain_id config; rq_address := cfg_address config;
                 rq_function_data := encode_rotate id; rq_function_id := fid;
                 rq_input := abi_encode_packed_rotate id sh |}
       else None)
  ∧ (id < set_id c (ch_head c - 1) → ∃ n, last_justified c id n ∧ n ≤ ch_head c - 1).
Proof.
  intros Hc He Hca Hfid id Hnext Hsh Hhead. pose proof (ca_range _ _ _ Hca). split.
  - by apply (find_and_request_rotate_run c Hc He config cur size).
  - intros Hlt. destruct (set_id_u64 c Hc He (cur - 1)) as [Hid _]; [lia|]. fold id in Hid.
    destruct (set_id_crossing c He id (ch_head c - 1)) as (n & Hn & ?); [lia|lia|done|].
    by exists n.
Qed.

(** C27: the decision terminates: on a served chain the search for a block to step
    to never runs out of the fuel of the model. *)
Theorem header_range_decision_terminates c cur size interval s :
  serves c → epochs c → contract_at c cur size → 0 ≤ size →
  find_and_request_header_range config is_dummy_operator avail_chain_id interval s ≠ OutOfFuel.
Proof.
  intros Hc He Hca Hsize. pose proof (ca_range _ _ _ Hca) as Hcur.
  unfold find_and_request_header_range.
  destruct get_contract_data_for_header_range as [d| | |] eqn:Hd; [|done|done|].
  2: { exfalso. revert Hd. apply contract_data_in_fuel. }
  cbn [mbind outcome_bind].
  destruct (get_contract_data_for_header_range_inv c Hc cur size d Hca Hd)
    as (-> & -> & -> & _ & next & _ & ->).
  rewrite checked_sub_Ret by lia. cbn [mbind outcome_bind].
  rewrite (get_authority_set_id_run c Hc) by lia. cbn [mbind outcome_bind].
  destruct (set_id_u64 c Hc He (cur - 1)) as [Hid0 Hid64]; [lia|].
  destruct (last_justified_block_run c Hc He (set_id c (cur - 1))) as (n & -> & Hres); [lia..|].
  cbn [mbind outcome_bind].
  pose proof (next_set c He cur n Hcur Hres) as Hset.
  assert (∀ id, id = set_id c cur → in_fuel (find_block_to_step_to is_dummy_operator
    avail_chain_id interval size cur (ch_head c) id s)) as Hfind
    by (intros id ->; by apply find_block_in_fuel).
  assert (∀ o, in_fuel o → in_fuel (block_to_step_to ← o;
      match block_to_step_to with
      | None => Ret None
      | Some block_to_step_to =>
          request ← request_header_range config cur (set_id c cur) block_to_step_to
            (hd_header_range_function_id d);
          Ret (Some request)
      end)) as Hrest.
  { intros o Ho. apply in_fuel_bind; [done|]. intros [target|]; [|done].
    unfold request_header_range, get_header_range_input_data. in_fuel. }
  case_decide; [rewrite checked_add_Ret by lia|]; cbn [mbind outcome_bind]; rewrite <- Hset.
  - destruct (negb (negb _)); [done|]. by apply Hrest, Hfind.
  - by apply Hrest, Hfind.
Qed.

(** What the operator requests can be proved.  While the contract holds the
    chain's hash of its block and the hash of the set's authorities, and the target
    is not past the head, any valid justification of the target makes the header
    range circuit accept the request, and the dummy program, run on the request's
    input, returns the circuit's outputs. *)
Theorem requested_range_provable `{!PackedEncoding} L MAX c cur interval s rq :
  let size := Z.of_nat (HEADERS_PER_MAP * jobs MAX) in
  serves c → epochs c → chain_format L c → MIN_HEADER_SIZE ≤ Z.of_nat L →
  contract_at c cur size → 0 ≤ interval → cur + size < 2 ^ 32 → (3 + jobs_depth MAX < 31)%nat →
  block_height_to_header_hash cur = Some (hash (header_at c cur)) →
  (∀ n, cur ≤ n ≤ ch_head c → set_id c n = set_id c cur →
     authority_set_id_to_hash (set_id c cur) = Some (compute_authority_set_hash (authorities_of c n))
     ∧ authorities_of c n ≠ []) →
  find_and_request_header_range config is_dummy_operator avail_chain_id interval s = Ret (Some rq) →
  ∃ target, let id := set_id c cur in
    let sh := compute_authority_set_hash (authorities_of c (target - 1)) in
    good_target is_dummy_operator avail_chain_id c cur size id target s
    ∧ (target ≤ ch_head c → ∀ justification_hint,
        justification_bounds MAX_AUTHORITY_SET_SIZE (justification_hint target id) →
        justification_valid (justification_hint target id) target (hash (header_at c target)) id sh →
        ∃ state data,
          HeaderRangeCircuit.define MAX_AUTHORITY_SET_SIZE MAX (range_hint L) justification_hint
            cur (hash (header_at c cur)) id sh target
            = Some (hash (header_at c target), state, data)
          ∧ DummyHeaderRange.run size (rq_input rq)
            = Ret (hash (header_at c target) ++ state ++ data)).
Proof.
  intros size Hc He Hf HL Hca Hint Hroom Hd Hth Hsync Hrun.
  pose proof (ca_range _ _ _ Hca) as Hcur.
  destruct (header_range_request_run is_dummy_operator avail_chain_id c Hc He config cur size
    interval s rq Hca Hint Hrun) as (target & th & sh & fid & Hgood & Eth & Esh & _ & _ & ->).
  exists target. split; [done|]. intros Htg jh Hjb Hjv.
  pose proof Hgood as [Hahead Hreach Hset _]. specialize (Hset Htg).
  rewrite Hth in Eth. injection Eth as <-. destruct (Hsync (target - 1)) as [Hauth Hne]; [lia|done|].
  rewrite Hauth in Esh. injection Esh as <-. rewrite <- Hset in Hjb, Hjv |- *.
  destruct (header_range_justified c Hc He L MAX_AUTHORITY_SET_SIZE MAX jh cur target Hf HL)
    as (state & data & Hdef & Hct); [lia|done|done|unfold size in *; lia|done|done|].
  assert (target - cur ≤ Z.of_nat (HEADERS_PER_MAP * jobs MAX)) as Hfit
    by (unfold size in Hreach; lia).
  exists state, data. split; [done|]. cbn [rq_input]. rewrite packed_header_range.
  assert (size = 2 ^ Z.of_nat (3 + jobs_depth MAX)) as ->
    by (unfold size; rewrite jobs_pow, Nat2Z.inj_pow; done).
  apply (dummy_header_range_run L c Hc Hf MAX); try done; try lia.
  rewrite length_authority_set_hash, decide_False by done. done.
Qed.
End Properties.

(** ** Witnesses *)
Import Ref RefNode RefRedis Sample.
#[local] Existing Instance sample_node.
#[local] Existing Instance sample_sp_core.

(** A contract at block [latest] of the sample chain, which knows set 0 only, or
    both sets. *)
Definition contract_of (latest : U32) (both : bool) : VectorX := {|
  header_range_function_id := Some (replicate 32 1);
  rotate_function_id := Some (replicate 32 2);
  latest_block := Some latest;
  header_range_commitment_tree_size := Some 16;
  block_height_to_header_hash n := Some (hash (header_at (chain_of old_keys) n));
  authority_set_id_to_hash id :=
    Some (if decide (id = 0) then compute_authority_set_hash old_keys
          else if decide (id = 1 ∧ both = true) then compute_authority_set_hash new_keys
          else B256_ZERO);
  encode_commit_header_range id n := be_encode 8 id ++ be_encode 4 n;
  encode_rotate id := be_encode 8 id;
  abi_encode_packed_header_range := header_range_input;
  abi_encode_packed_rotate := rotate_input;
|}.
#[local] Instance contract_of_packed latest both : PackedEncoding (H := contract_of latest both).
Proof. by split. Qed.
Definition sample_config : VectorXConfig := {| cfg_address := replicate 20 7; cfg_chain_id := 5 |}.

Lemma contract_of_at latest both :
  0 < latest ≤ 4 → contract_at (H3 := contract_of latest both) (chain_of old_keys) latest 16.
Proof. intros. by split. Qed.

(** At block 3, with justifications up to block 4 indexed, the operator asks for
    the range up to block 4. *)
Definition request_at_3 : Request := {|
  rq_chain_id := 5; rq_address := replicate 20 7;
  rq_function_data := be_encode 8 1 ++ be_encode 4 4;
  rq_function_id := replicate 32 1;
  rq_input := header_range_input 3 (hash (header_at (chain_of old_keys) 3)) 1
    (compute_authority_set_hash new_keys) 4 |}.

Lemma header_range_request_sound_witness :
  ∃ target th sh fid, let id := set_id (chain_of old_keys) 3 in
    good_target false "avail" (chain_of old_keys) 3 16 id target (indexed_store sample_stream)
    ∧ block_height_to_header_hash (VectorX := contract_of 3 true) 3 = Some th
    ∧ authority_set_id_to_hash (VectorX := contract_of 3 true) id = Some sh
    ∧ header_range_function_id (VectorX := contract_of 3 true) = Some fid
    ∧ (epoch_end (chain_of old_keys) 3 → sh ≠ B256_ZERO)
    ∧ request_at_3 = {| rq_chain_id := 5; rq_address := replicate 20 7;
              rq_function_data := be_encode 8 id ++ be_encode 4 target; rq_function_id := fid;
              rq_input := header_range_input 3 th id sh target |}.
Proof.
  apply (header_range_request_sound (H6 := contract_of 3 true) sample_config false "avail"
    (chain_of old_keys) 3 16 2 (indexed_store sample_stream) request_at_3).
  - apply chain_serves.
  - apply chain_epochs.
  - by apply contract_of_at.
  - lia.
  - vm_compute. reflexivity.
Defined.

Lemma rotate_request_iff_witness :
  find_and_request_rotate (H3 := contract_of 1 false) sample_config =
  Ret (Some {| rq_chain_id := 5; rq_address := replicate 20 7; rq_function_data := be_encode 8 0;
               rq_function_id := replicate 32 2;
               rq_input := rotate_input 0 (compute_authority_set_hash old_keys) |})
  ∧ ∃ n, last_justified (chain_of old_keys) 0 n ∧ n ≤ 3.
Proof.
  destruct (rotate_request_iff (H6 := contract_of 1 false) sample_config (chain_of old_keys) 1 16
    (replicate 32 2) B256_ZERO (compute_authority_set_hash old_keys)) as [Hrun Hlast];
    try by_decide.
  - apply chain_serves.
  - apply chain_epochs.
  - by apply contract_of_at.
  - split; [|by apply Hlast]. etransitivity; [exact Hrun|vm_compute; reflexivity].
Defined.

Lemma header_range_decision_terminates_witness :
  find_and_request_header_range (H3 := contract_of 3 true) sample_config false "avail" 2 empty
  ≠ OutOfFuel.
Proof.
  apply (header_range_decision_terminates (H6 := contract_of 3 true) sample_config false "avail"
    (chain_of old_keys) 3 16).
  - apply chain_serves.
  - apply chain_epochs.
  - by apply contract_of_at.
  - lia.
Defined.

Lemma requested_range_provable_witness :
  ∃ target, let id := set_id (chain_of old_keys) 3 in
    let sh := compute_authority_set_hash (authorities_of (chain_of old_keys) (target - 1)) in
    good_target false "avail" (chain_of old_keys) 3 16 id target (indexed_store sample_stream)
    ∧ (target ≤ 4 → ∀ justification_hint,
        justification_bounds MAX_AUTHORITY_SET_SIZE (justification_hint target id) →
        justification_valid (justification_hint target id) target
          (hash (header_at (chain_of old_keys) target)) id sh →
        ∃ state data,
          HeaderRangeCircuit.define MAX_AUTHORITY_SET_SIZE 16 (range_hint 400) justification_hint
            3 (hash (header_at (chain_of old_keys) 3)) id sh target
            = Some (hash (header_at (chain_of old_keys) target), state, data)
          ∧ DummyHeaderRange.run 16 (rq_input request_at_3)
            = Ret (hash (header_at (chain_of old_keys) target) ++ state ++ data)).
Proof.
  apply (requested_range_provable (H6 := contract_of 3 true) sample_config false "avail" 400 16
    (chain_of old_keys) 3 2 (indexed_store sample_stream)); try by_decide.
  - apply chain_serves.
  - apply chain_epochs.
  - apply chain_formatted.
  - by apply contract_of_at.
  - intros n Hn _. change (ch_head (chain_of old_keys)) with 4 in Hn.
    assert (n = 3 ∨ n = 4) as [-> | ->] by lia; split; (done || (vm_compute; reflexivity)).
  - vm_compute. reflexivity.
Defined.
