(* ===== verification/Search.v ===== *)
(** * The operator's search at the head of the chain

    [find_block_to_step_to] of bin/vectorx.rs computes how far it may step, at most to
    Avail's latest block, but lets its search for a justification go on to the size of
    the commitment tree.  When the blocks up to the head have no justification in
    Redis, the search asks the node for a block that does not exist. *)

From stdpp Require Import gmap.
From S2P Require Import Prelude Consts Vars Builder Reference Decoder Offchain Justification.
From S2P Require Import Rotate Subchain Types Redis Fetcher Hints Circuits Finality Indexer Operator.

(** ** Helper lemmas *)
Section PastHead.
Context `{Hashing, DummyValues, AvailNode, RedisServer} (avail_chain_id : string).
Context (c : chain) (Hc : serves c) (He : epochs c) (s : store).

(** A block that does not exist is a panic, not an error. *)
Lemma missing_block MAX n :
  chain_get_block_hash n = None →
  get_justification_from_block avail_chain_id MAX n s = Panic "called `Option::unwrap()` on a `None` value".
Proof.
  intros Hnone. unfold get_justification_from_block, get_justification_data, get_authority_set_id.
  rewrite (sv_connected c Hc). cbn [unwrap mbind outcome_bind].
  unfold get_block_hash. by rewrite Hnone.
Qed.

Lemma search_past_head interval size cur b fuel :
  0 ≤ cur < b → b ≤ ch_head c + 1 → ch_head c < cur + size → cur + size < 2 ^ 32 →
  (Z.to_nat (ch_head c + 1 - b) < fuel)%nat → chain_get_block_hash (ch_head c + 1) = None →
  (∀ n, b ≤ n ≤ ch_head c → ¬ epoch_end c n ∧ ∃ msg, get_justification avail_chain_id n s = Err msg) →
  loop fuel (step_search avail_chain_id interval size cur s) b
  = Panic "called `Option::unwrap()` on a `None` value".
Proof.
  intros Hcur Hb Hsize Hu32 Hfuel Hnone. revert b Hcur Hb Hfuel.
  induction fuel as [|fuel IH]; intros b Hcur Hb Hfuel Hun; [lia|].
  assert (step_search avail_chain_id interval size cur s b
    = match get_justification_from_block avail_chain_id MAX_AUTHORITY_SET_SIZE b s with
      | Ret _ => Ret (inr (Some b))
      | Err _ => next ← checked_add 32 b 1; Ret (inl next)
      | Panic m => Panic m
      | OutOfFuel => OutOfFuel
      end) as Hstep.
  { unfold step_search. rewrite (checked_add_Ret 32 cur size) by lia. cbn [mbind outcome_bind].
    by rewrite decide_False by lia. }
  cbn [loop]. rewrite Hstep.
  destruct (decide (b = ch_head c + 1)) as [->|Hne]; [by rewrite missing_block|].
  destruct (Hun b) as [Hend [msg Hmsg]]; [lia|]. rewrite (unjustified_block avail_chain_id c Hc _ b s msg He) by (done || lia).
  rewrite (checked_add_Ret 32 b 1) by lia. cbn [mbind outcome_bind].
  apply IH; [lia|lia|lia|]. intros n Hn. apply Hun. lia.
Qed.
End PastHead.

(** ** Property *)
Section Properties.
Context `{Hashing, DummyValues, AvailNode, RedisServer} (avail_chain_id : string).

(** C29: the search runs past the head of the chain.  In the latest epoch, with the
    head in reach and no justification in Redis from the last multiple of the
    interval on, the operator's decision does not end without a target, as it does
    when the head is out of reach, but panics at the block after the head. *)
Theorem search_past_head_panics c cur interval size s :
  serves c → epochs c → 0 < cur ≤ ch_head c → set_id c cur = set_id c (ch_head c) →
  ch_head c < cur + size → cur + size < 2 ^ 32 → 0 < interval →
  chain_get_block_hash (ch_head c + 1) = None →
  let last := ch_head c - ch_head c mod interval in
  cur < last →
  (∀ n, last ≤ n ≤ ch_head c → ∃ msg, get_justification avail_chain_id n s = Err msg) →
  find_block_to_step_to false avail_chain_id interval size cur (ch_head c) (set_id c cur) s
  = Panic "called `Option::unwrap()` on a `None` value".
Proof.
  intros Hc He Hcur Hid Hsize Hu32 Hint Hnone last Hlast Hun.
  pose proof (set_id_nonneg c He cur ltac:(lia)). pose proof (set_id_bound c He cur ltac:(lia)).
  pose proof (sv_range c Hc).
  destruct (last_justified_block_run c Hc He (set_id c cur)) as (n & Hn & Hres); [lia..|].
  unfold search_result in Hres. rewrite decide_False in Hres by lia. subst n.
  pose proof (Z.mod_pos_bound (ch_head c) interval Hint) as Hmod.
  unfold find_block_to_step_to. rewrite Hn. cbn [mbind outcome_bind].
  rewrite decide_True by done. cbn [mbind outcome_bind].
  rewrite bool_decide_eq_false_2 by lia. cbn [andb].
  rewrite checked_add_Ret by lia. cbn [mbind outcome_bind]. rewrite Z.min_r by lia.
  unfold checked_rem. rewrite decide_False by lia. cbn [mbind outcome_bind].
  rewrite checked_sub_Ret by lia. cbn [mbind outcome_bind]. fold last. rewrite decide_False by lia.
  apply (search_past_head avail_chain_id c Hc He); try done; [lia|unfold last; lia|unfold last; lia|].
  intros n Hr. split; [|by apply Hun].
  apply (no_epoch_end c He cur (ch_head c)); [lia|done|lia|lia].
Qed.
End Properties.

(** ** Witness: an empty store, and the operator one block into the second epoch *)
Import Ref RefNode RefRedis Sample.
#[local] Existing Instance sample_node.

Lemma search_past_head_panics_witness :
  find_block_to_step_to false "avail" 2 16 2 4 1 empty
  = Panic "called `Option::unwrap()` on a `None` value".
Proof.
  apply (search_past_head_panics "avail" (chain_of old_keys) 2 2 16 empty); try by_decide.
  - apply chain_serves.
  - apply chain_epochs.
  - intros n _. eexists. vm_compute. reflexivity.
Defined.
