(* ===== verification/Contract.v ===== *)
(** * The light client contract: contracts/src/VectorX.sol

    The state of the contract, its entry points as functions on it that succeed
    with a new state and events or revert, and the invariants of what it stores. *)

From stdpp Require Import gmap sorting.
From S2P Require Import Prelude Consts Circuits.

Abbreviation address := Z (only parsing).

(** The code outside the contract: the gateway that verifies proofs, the guardian
    of the upgradeable base contract, and the hash of the EVM. *)
Class Chain := {
  verifiedCall : address → Bytes32 → bytes → option bytes;
  requestCall : address → Bytes32 → bytes → bytes → bool;
  is_guardian : address → bool;
  keccak256 : bytes → Bytes32;
  commitHeaderRange_selector : bytes;
  rotate_selector : bytes;
}.

(** ** State *)
Record state := {
  frozen : bool;
  gateway : address;
  latestBlock : U32;
  latestAuthoritySetId : U64;
  headerRangeFunctionId : Bytes32;
  rotateFunctionId : Bytes32;
  blockHeightToHeaderHash : gmap Z Bytes32;
  authoritySetIdToHash : gmap Z Bytes32;
  dataRootCommitments : gmap (list Z) Bytes32;
  stateRootCommitments : gmap (list Z) Bytes32;
  rangeStartBlocks : gmap (list Z) Z;
  headerRangeCommitmentTreeSize : U32;
}.

Record InitParameters := {
  ip_guardian : address;
  ip_gateway : address;
  ip_height : U32;
  ip_header : Bytes32;
  ip_authoritySetId : U64;
  ip_authoritySetHash : Bytes32;
  ip_headerRangeFunctionId : Bytes32;
  ip_rotateFunctionId : Bytes32;
  ip_headerRangeCommitmentTreeSize : U32;
}.

Inductive event :=
  | HeaderRangeRequested (trustedBlock : U32) (trustedHeader : Bytes32) (authoritySetId : U64)
      (authoritySetHash : Bytes32) (targetBlock : U32)
  | RotateRequested (currentAuthoritySetId : U64) (currentAuthoritySetHash : Bytes32)
  | HeadUpdate (blockNumber : U32) (headerHash : Bytes32)
  | HeaderRangeCommitmentStored (startBlock endBlock : U32) (dataCommitment stateCommitment : Bytes32)
      (headerRangeCommitmentTreeSize : U32)
  | AuthoritySetStored (authoritySetId : U64) (authoritySetHash : Bytes32).

Inductive error :=
  | NextAuthoritySetExists
  | ContractFrozen
  | TrustedHeaderNotFound
  | AuthoritySetNotFound
  | OldAuthoritySetId
  | OnlyGuardian
  | Requirement   (** [require] without a reason *)
  | Overflow      (** checked arithmetic and [assert] *)
  | GatewayCall.  (** the gateway reverts, or its output does not decode *)

(** A call: the new state with the events, or a revert. *)
Definition result (A : Type) : Type := error + A.
#[export] Instance result_ret : MRet result := λ A a, inr a.
#[export] Instance result_bind : MBind result := λ A B f r,
  match r with inl e => inl e | inr a => f a end.

Definition revert_if (c : bool) (e : error) : result unit := if c then inl e else inr ().
Definition require (c : bool) : result unit := revert_if (negb c) Requirement.
Definition or_revert {A} (o : option A) (e : error) : result A :=
  match o with Some a => inr a | None => inl e end.

(** Mappings are total: a missing entry is zero. *)
Definition bytes32_0 : Bytes32 := replicate 32 0.
Definition at_bytes32 `{Countable K} (m : gmap K Bytes32) (k : K) : Bytes32 :=
  default bytes32_0 (m !! k).
Definition is_zero32 (h : Bytes32) : bool := bool_decide (h = bytes32_0).

(** [abi.encode(uint32, uint32)]: words of 32 bytes. *)
Definition abi_encode_range (startBlock endBlock : U32) : bytes :=
  be_encode 32 startBlock ++ be_encode 32 endBlock.

(** [abi.decode] of [n] words: trailing bytes are ignored. *)
Definition abi_decode_words (n : nat) (output : bytes) : result (list Bytes32) :=
  if decide (32 * n ≤ length output)%nat
  then inr (take n (chunks 32 output)) else inl GatewayCall.

(** ** Assignments to the storage variables

    [setter f] is the function that replaces the field [f] of a state: the state
    written out field by field, with the projection [f] abstracted. *)
Definition rebuild (s : state) : state := {|
  frozen := frozen s; gateway := gateway s; latestBlock := latestBlock s;
  latestAuthoritySetId := latestAuthoritySetId s;
  headerRangeFunctionId := headerRangeFunctionId s; rotateFunctionId := rotateFunctionId s;
  blockHeightToHeaderHash := blockHeightToHeaderHash s;
  authoritySetIdToHash := authoritySetIdToHash s; dataRootCommitments := dataRootCommitments s;
  stateRootCommitments := stateRootCommitments s; rangeStartBlocks := rangeStartBlocks s;
  headerRangeCommitmentTreeSize := headerRangeCommitmentTreeSize s |}.

Ltac setter field :=
  let body := eval cbv delta [rebuild] in rebuild in
  lazymatch eval pattern field in body with
  | ?with_field _ =>
      let set := constr:(λ v, with_field (λ _, v)) in
      let set := eval cbv beta in set in exact set
  end.

Definition set_frozen : bool → state → state := ltac:(setter frozen).
Definition set_gateway : address → state → state := ltac:(setter gateway).
Definition set_latestBlock : U32 → state → state := ltac:(setter latestBlock).
Definition set_latestAuthoritySetId : U64 → state → state := ltac:(setter latestAuthoritySetId).
Definition set_headerRangeFunctionId : Bytes32 → state → state := ltac:(setter headerRangeFunctionId).
Definition set_rotateFunctionId : Bytes32 → state → state := ltac:(setter rotateFunctionId).
Definition set_blockHeightToHeaderHash : gmap Z Bytes32 → state → state := ltac:(setter blockHeightToHeaderHash).
Definition set_authoritySetIdToHash : gmap Z Bytes32 → state → state := ltac:(setter authoritySetIdToHash).
Definition set_dataRootCommitments : gmap (list Z) Bytes32 → state → state := ltac:(setter dataRootCommitments).
Definition set_stateRootCommitments : gmap (list Z) Bytes32 → state → state := ltac:(setter stateRootCommitments).
Definition set_rangeStartBlocks : gmap (list Z) Z → state → state := ltac:(setter rangeStartBlocks).
Definition set_headerRangeCommitmentTreeSize : U32 → state → state := ltac:(setter headerRangeCommitmentTreeSize).

(** ** Entry points *)
Section Entry.
Context `{Chain}.

Definition range_key (startBlock endBlock : U32) : Bytes32 :=
  keccak256 (abi_encode_range startBlock endBlock).

Definition onlyGuardian (sender : address) : result unit :=
  revert_if (negb (is_guardian sender)) OnlyGuardian.

Definition initialize (params : InitParameters) : state := {|
  frozen := false;
  gateway := ip_gateway params;
  latestBlock := ip_height params;
  latestAuthoritySetId := ip_authoritySetId params;
  headerRangeFunctionId := ip_headerRangeFunctionId params;
  rotateFunctionId := ip_rotateFunctionId params;
  blockHeightToHeaderHash := {[ ip_height params := ip_header params ]};
  authoritySetIdToHash := {[ ip_authoritySetId params := ip_authoritySetHash params ]};
  dataRootCommitments := ∅;
  stateRootCommitments := ∅;
  rangeStartBlocks := ∅;
  headerRangeCommitmentTreeSize := ip_headerRangeCommitmentTreeSize params |}.

Definition updateFreeze (sender : address) (freeze : bool) (s : state)
    : result (state * list event) :=
  _ ← onlyGuardian sender;
  inr (set_frozen freeze s, []).

Definition updateFunctionIds (sender : address) (headerRangeFunctionId' rotateFunctionId' : Bytes32)
    (headerRangeCommitmentTreeSize' : U32) (s : state) : result (state * list event) :=
  _ ← onlyGuardian sender;
  inr (set_headerRangeCommitmentTreeSize headerRangeCommitmentTreeSize'
         (set_rotateFunctionId rotateFunctionId'
           (set_headerRangeFunctionId headerRangeFunctionId' s)), []).

Definition updateGateway (sender : address) (gateway' : address) (s : state)
    : result (state * list event) :=
  _ ← onlyGuardian sender;
  inr (set_gateway gateway' s, []).

(** Assignments to one entry of a mapping. *)
Definition store_header (height : U32) (header : Bytes32) (s : state) : state :=
  set_blockHeightToHeaderHash (<[height := header]> (blockHeightToHeaderHash s)) s.
Definition store_authorities (id : U64) (h : Bytes32) (s : state) : state :=
  set_authoritySetIdToHash (<[id := h]> (authoritySetIdToHash s)) s.

Definition updateGenesisState (sender : address) (height : U32) (header : Bytes32)
    (authoritySetId : U64) (authoritySetHash : Bytes32) (s : state)
    : result (state * list event) :=
  _ ← onlyGuardian sender;
  let s := set_latestBlock height (store_header height header s) in
  inr (set_latestAuthoritySetId authoritySetId (store_authorities authoritySetId authoritySetHash s), []).

(** The commitments of the range [(start, end]], keyed by the range. *)
Definition store_range (startBlock endBlock : U32) (dataRoot stateRoot : Bytes32) (s : state) : state :=
  let key := range_key startBlock endBlock in
  let s := set_dataRootCommitments (<[key := dataRoot]> (dataRootCommitments s)) s in
  let s := set_stateRootCommitments (<[key := stateRoot]> (stateRootCommitments s)) s in
  set_rangeStartBlocks (<[key := startBlock]> (rangeStartBlocks s)) s.

(** One iteration of the loop of [updateBlockRangeData]. *)
Definition update_range (startBlocks endBlocks : list U32)
    (headerHashes dataRoots stateRoots : list Bytes32) (acc : state * list event) (i : nat)
    : result (state * list event) :=
  let '(s, events) := acc in
  let start := startBlocks !!! i in
  let finish := endBlocks !!! i in
  _ ← (if decide (i < length startBlocks - 1)%nat
       then require (bool_decide (finish = startBlocks !!! S i)) else inr ());
  let s := store_range start finish (dataRoots !!! i) (stateRoots !!! i) s in
  let s := store_header finish (headerHashes !!! i) s in
  inr (s, events ++ [HeadUpdate finish (headerHashes !!! i);
    HeaderRangeCommitmentStored start finish (dataRoots !!! i) (stateRoots !!! i)
      (headerRangeCommitmentTreeSize s)]).

Fixpoint result_foldM {A S} (f : S → A → result S) (l : list A) (s : S) : result S :=
  match l with
  | [] => inr s
  | x :: l' => s' ← f s x; result_foldM f l' s'
  end.

Definition updateBlockRangeData (sender : address) (startBlocks endBlocks : list U32)
    (headerHashes dataRoots stateRoots : list Bytes32) (endAuthoritySetId : U64)
    (endAuthoritySetHash : Bytes32) (s : state) : result (state * list event) :=
  _ ← onlyGuardian sender;
  _ ← revert_if (negb (bool_decide (0 < length startBlocks)%nat
        && bool_decide (length startBlocks = length endBlocks)
        && bool_decide (length endBlocks = length headerHashes)
        && bool_decide (length headerHashes = length dataRoots)
        && bool_decide (length dataRoots = length stateRoots))) Overflow;
  _ ← require (bool_decide (startBlocks !!! 0%nat = latestBlock s));
  '(s, events) ← result_foldM (update_range startBlocks endBlocks headerHashes dataRoots stateRoots)
    (seq 0 (length startBlocks)) (s, []);
  let s := set_latestBlock (endBlocks !!! (length endBlocks - 1)%nat) s in
  let s := store_authorities endAuthoritySetId endAuthoritySetHash s in
  inr (set_latestAuthoritySetId endAuthoritySetId s, events).

(** The value sent along and the callback's gas limit go to the gateway unread. *)
Definition requestHeaderRange (authoritySetId : U64) (requestedBlock : U32) (s : state)
    : result (state * list event) :=
  let trustedHeader := at_bytes32 (blockHeightToHeaderHash s) (latestBlock s) in
  _ ← revert_if (is_zero32 trustedHeader) AuthoritySetNotFound;
  let authoritySetHash := at_bytes32 (authoritySetIdToHash s) authoritySetId in
  _ ← revert_if (is_zero32 authoritySetHash) AuthoritySetNotFound;
  _ ← require (bool_decide (latestBlock s < requestedBlock));
  let input :=
    header_range_input (latestBlock s) trustedHeader authoritySetId authoritySetHash requestedBlock in
  let data := commitHeaderRange_selector ++ be_encode 32 authoritySetId ++ be_encode 32 requestedBlock in
  _ ← revert_if (negb (requestCall (gateway s) (headerRangeFunctionId s) input data)) GatewayCall;
  inr (s, [HeaderRangeRequested (latestBlock s) trustedHeader authoritySetId authoritySetHash
             requestedBlock]).

Definition commitHeaderRange (authoritySetId : U64) (targetBlock : U32) (s : state)
    : result (state * list event) :=
  _ ← revert_if (frozen s) ContractFrozen;
  let trustedHeader := at_bytes32 (blockHeightToHeaderHash s) (latestBlock s) in
  _ ← revert_if (is_zero32 trustedHeader) TrustedHeaderNotFound;
  let authoritySetHash := at_bytes32 (authoritySetIdToHash s) authoritySetId in
  _ ← revert_if (is_zero32 authoritySetHash) AuthoritySetNotFound;
  _ ← revert_if (bool_decide (authoritySetId < latestAuthoritySetId s)) OldAuthoritySetId;
  let s := if decide (latestAuthoritySetId s < authoritySetId)
           then set_latestAuthoritySetId authoritySetId s else s in
  _ ← require (bool_decide (latestBlock s < targetBlock));
  let input :=
    header_range_input (latestBlock s) trustedHeader authoritySetId authoritySetHash targetBlock in
  output ← or_revert (verifiedCall (gateway s) (headerRangeFunctionId s) input) GatewayCall;
  words ← abi_decode_words 3 output;
  let targetHeaderHash := words !!! 0%nat in
  let stateRootCommitment := words !!! 1%nat in
  let dataRootCommitment := words !!! 2%nat in
  let s := store_header targetBlock targetHeaderHash s in
  let s := store_range (latestBlock s) targetBlock dataRootCommitment stateRootCommitment s in
  inr (set_latestBlock targetBlock s,
       [HeadUpdate targetBlock targetHeaderHash;
        HeaderRangeCommitmentStored (latestBlock s) targetBlock dataRootCommitment
          stateRootCommitment (headerRangeCommitmentTreeSize s)]).

(** [a + b] on uint64, checked. *)
Definition add64 (a b : U64) : result U64 :=
  if decide (a + b < 2 ^ 64) then inr (a + b) else inl Overflow.

Definition requestRotate (currentAuthoritySetId : U64) (s : state) : result (state * list event) :=
  let currentAuthoritySetHash := at_bytes32 (authoritySetIdToHash s) currentAuthoritySetId in
  _ ← revert_if (is_zero32 currentAuthoritySetHash) AuthoritySetNotFound;
  nextId ← add64 currentAuthoritySetId 1;
  let nextAuthoritySetHash := at_bytes32 (authoritySetIdToHash s) nextId in
  _ ← revert_if (negb (is_zero32 nextAuthoritySetHash)) NextAuthoritySetExists;
  let input := rotate_input currentAuthoritySetId currentAuthoritySetHash in
  let data := rotate_selector ++ be_encode 32 currentAuthoritySetId in
  _ ← revert_if (negb (requestCall (gateway s) (rotateFunctionId s) input data)) GatewayCall;
  inr (s, [RotateRequested currentAuthoritySetId currentAuthoritySetHash]).

Definition rotate (currentAuthoritySetId : U64) (s : state) : result (state * list event) :=
  _ ← revert_if (frozen s) ContractFrozen;
  let currentAuthoritySetHash := at_bytes32 (authoritySetIdToHash s) currentAuthoritySetId in
  _ ← revert_if (is_zero32 currentAuthoritySetHash) AuthoritySetNotFound;
  nextId ← add64 currentAuthoritySetId 1;
  let nextAuthoritySetHash := at_bytes32 (authoritySetIdToHash s) nextId in
  _ ← revert_if (negb (is_zero32 nextAuthoritySetHash)) NextAuthoritySetExists;
  let input := rotate_input currentAuthoritySetId currentAuthoritySetHash in
  output ← or_revert (verifiedCall (gateway s) (rotateFunctionId s) input) GatewayCall;
  words ← abi_decode_words 1 output;
  let newAuthoritySetHash := words !!! 0%nat in
  inr (store_authorities nextId newAuthoritySetHash s,
       [AuthoritySetStored nextId newAuthoritySetHash]).
End Entry.

(** ** Transactions *)
Inductive call :=
  | UpdateFreeze (freeze : bool)
  | UpdateFunctionIds (headerRange rotate : Bytes32) (treeSize : U32)
  | UpdateGateway (gateway : address)
  | UpdateGenesisState (height : U32) (header : Bytes32) (id : U64) (h : Bytes32)
  | UpdateBlockRangeData (starts ends : list U32) (headers dataRoots stateRoots : list Bytes32)
      (id : U64) (h : Bytes32)
  | RequestHeaderRange (id : U64) (requested : U32)
  | CommitHeaderRange (id : U64) (target : U32)
  | RequestRotate (id : U64)
  | DoRotate (id : U64).

Definition exec `{Chain} (sender : address) (c : call) : state → result (state * list event) :=
  match c with
  | UpdateFreeze b => updateFreeze sender b
  | UpdateFunctionIds h r n => updateFunctionIds sender h r n
  | UpdateGateway g => updateGateway sender g
  | UpdateGenesisState n h id a => updateGenesisState sender n h id a
  | UpdateBlockRangeData ss es hs ds rs id a => updateBlockRangeData sender ss es hs ds rs id a
  | RequestHeaderRange id n => requestHeaderRange id n
  | CommitHeaderRange id n => commitHeaderRange id n
  | RequestRotate id => requestRotate id
  | DoRotate id => rotate id
  end.

(** One transaction; a revert leaves the state. *)
Definition transact `{Chain} (sender : address) (c : call) (s : state) : state :=
  match exec sender c s with
  | inr (s', _) => s'
  | inl _ => s
  end.

(** The transactions that only the guardian may send. *)
Definition guarded (c : call) : bool :=
  match c with
  | UpdateFreeze _ | UpdateFunctionIds _ _ _ | UpdateGateway _ | UpdateGenesisState _ _ _ _
  | UpdateBlockRangeData _ _ _ _ _ _ _ => true
  | _ => false
  end.

(** ** Reverts *)
Lemma result_bind_inr {A B} (r : result A) (f : A → result B) b :
  r ≫= f = inr b ↔ ∃ a, r = inr a ∧ f a = inr b.
Proof. destruct r; cbn; naive_solver. Qed.

Lemma revert_if_inr c e u : revert_if c e = inr u ↔ c = false.
Proof. destruct u, c; cbn; naive_solver. Qed.

Lemma require_inr c u : require c = inr u ↔ c = true.
Proof. destruct u, c; cbn; naive_solver. Qed.

Lemma or_revert_inr {A} (o : option A) e a : or_revert o e = inr a ↔ o = Some a.
Proof. destruct o; cbn; naive_solver. Qed.

Lemma is_zero32_false h : is_zero32 h = false ↔ h ≠ bytes32_0.
Proof. apply bool_decide_eq_false. Qed.

Lemma add64_inr a b c : add64 a b = inr c ↔ c = a + b ∧ a + b < 2 ^ 64.
Proof. unfold add64. case_decide; naive_solver. Qed.

Lemma abi_decode_words_inr n output words :
  abi_decode_words n output = inr words ↔
  (32 * n ≤ length output)%nat ∧ words = take n (chunks 32 output).
Proof. unfold abi_decode_words. case_decide; naive_solver. Qed.

(** Words of 32 bytes. *)
Lemma words1 (w rest : bytes) : length w = 32%nat → take 1 (chunks 32 (w ++ rest)) = [w].
Proof. intros. by rewrite chunks_app by (lia || done). Qed.

Lemma words3 (h sr dr rest : bytes) :
  length h = 32%nat → length sr = 32%nat → length dr = 32%nat →
  take 3 (chunks 32 (h ++ sr ++ dr ++ rest)) = [h; sr; dr].
Proof. intros. by rewrite !chunks_app by (lia || done). Qed.

Lemma split_word (l : bytes) :
  (32 ≤ length l)%nat → ∃ w rest, l = w ++ rest ∧ length w = 32%nat.
Proof.
  intros. exists (take 32 l), (drop 32 l). rewrite take_drop, length_take. split; [done|lia].
Qed.

Lemma split_words (l : bytes) :
  (96 ≤ length l)%nat → ∃ h sr dr rest, l = h ++ sr ++ dr ++ rest
    ∧ length h = 32%nat ∧ length sr = 32%nat ∧ length dr = 32%nat.
Proof.
  intros Hl. destruct (split_word l) as (h & l1 & -> & Hh); [lia|].
  rewrite length_app in Hl. destruct (split_word l1) as (sr & l2 & -> & Hsr); [lia|].
  rewrite length_app in Hl. destruct (split_word l2) as (dr & rest & -> & Hdr); [lia|].
  by exists h, sr, dr, rest.
Qed.

(** Splits a successful call into its guards and its result. *)
Ltac inv_call H :=
  repeat match type of H with
  | mbind (M := result) _ _ = inr _ =>
      let a := fresh "r" in let E := fresh "E" in
      apply result_bind_inr in H as (a & E & H);
      first [apply require_inr in E | apply revert_if_inr in E | apply or_revert_inr in E
            | apply add64_inr in E | apply abi_decode_words_inr in E | idtac]
  end.

(** ** What a successful commit or rotation does *)
Section Effects.
Context `{Chain}.

(** The outputs of the circuit for a range, as the contract reads them. *)
Record range_output (s : state) (id : U64) (target : U32) (h sr dr : Bytes32) : Prop := {
  ro_call : ∃ rest, verifiedCall (gateway s) (headerRangeFunctionId s)
    (header_range_input (latestBlock s) (at_bytes32 (blockHeightToHeaderHash s) (latestBlock s))
       id (at_bytes32 (authoritySetIdToHash s) id) target) = Some (h ++ sr ++ dr ++ rest);
  ro_h : length h = 32%nat;
  ro_sr : length sr = 32%nat;
  ro_dr : length dr = 32%nat;
}.

Record commit_guards (id : U64) (target : U32) (s : state) : Prop := {
  cg_active : frozen s = false;
  cg_trusted : at_bytes32 (blockHeightToHeaderHash s) (latestBlock s) ≠ bytes32_0;
  cg_set : at_bytes32 (authoritySetIdToHash s) id ≠ bytes32_0;
  cg_recent : latestAuthoritySetId s ≤ id;
  cg_past : latestBlock s < target;
}.

(** The state after a commit. *)
Definition committed (id : U64) (target : U32) (h sr dr : Bytes32) (s : state) : state := {|
  frozen := frozen s; gateway := gateway s; latestBlock := target; latestAuthoritySetId := id;
  headerRangeFunctionId := headerRangeFunctionId s; rotateFunctionId := rotateFunctionId s;
  blockHeightToHeaderHash := <[target := h]> (blockHeightToHeaderHash s);
  authoritySetIdToHash := authoritySetIdToHash s;
  dataRootCommitments := <[range_key (latestBlock s) target := dr]> (dataRootCommitments s);
  stateRootCommitments := <[range_key (latestBlock s) target := sr]> (stateRootCommitments s);
  rangeStartBlocks := <[range_key (latestBlock s) target := latestBlock s]> (rangeStartBlocks s);
  headerRangeCommitmentTreeSize := headerRangeCommitmentTreeSize s |}.

Lemma raise_set id s :
  latestAuthoritySetId s ≤ id →
  (if decide (latestAuthoritySetId s < id) then set_latestAuthoritySetId id s else s)
  = set_latestAuthoritySetId id s.
Proof.
  intros Hle. case_decide as Hlt; [done|].
  assert (id = latestAuthoritySetId s) as -> by (apply Z.le_antisymm; [by apply Z.nlt_ge|done]).
  by destruct s.
Qed.

Lemma commitHeaderRange_run id target s s' evs :
  commitHeaderRange id target s = inr (s', evs) ↔
  commit_guards id target s ∧ ∃ h sr dr, range_output s id target h sr dr
    ∧ s' = committed id target h sr dr s
    ∧ evs = [HeadUpdate target h;
             HeaderRangeCommitmentStored (latestBlock s) target dr sr
               (headerRangeCommitmentTreeSize s)].
Proof.
  unfold commitHeaderRange. split.
  - intros Hrun. inv_call Hrun. apply is_zero32_false in E0, E1.
    apply bool_decide_eq_false in E2.
    rewrite raise_set in E3, E4, Hrun by lia. apply bool_decide_eq_true in E3. cbn in E3, E4.
    destruct E5 as [Hl ->].
    destruct (split_words r4) as (h & sr & dr & rest & -> & Hh & Hsr & Hdr); [lia|].
    rewrite words3 in Hrun by done. cbn in Hrun. injection Hrun as <- <-.
    split; [by split; try lia|]. exists h, sr, dr. split_and!; [split; by eauto|done..].
  - intros [[Ha Ht Hs Hr Hp] (h & sr & dr & [[rest Hc] Hh Hsr Hdr] & -> & ->)].
    apply is_zero32_false in Ht, Hs. rewrite Ha, Ht, Hs. cbn [revert_if mbind result_bind].
    rewrite (bool_decide_eq_false_2 (id < latestAuthoritySetId s)) by lia.
    cbn [revert_if mbind result_bind]. rewrite raise_set by done. cbn.
    rewrite (bool_decide_eq_true_2 (latestBlock s < target)) by done. cbn. rewrite Hc. cbn.
    unfold abi_decode_words. rewrite decide_True by (rewrite !length_app; lia).
    cbn [mbind result_bind]. by rewrite words3.
Qed.

Record rotate_guards (id : U64) (s : state) : Prop := {
  rg_active : frozen s = false;
  rg_set : at_bytes32 (authoritySetIdToHash s) id ≠ bytes32_0;
  rg_next : at_bytes32 (authoritySetIdToHash s) (id + 1) = bytes32_0;
  rg_range : id + 1 < 2 ^ 64;
}.

Lemma rotate_call_run id s s' evs :
  rotate id s = inr (s', evs) ↔
  rotate_guards id s ∧ ∃ new_hash rest,
    verifiedCall (gateway s) (rotateFunctionId s)
      (rotate_input id (at_bytes32 (authoritySetIdToHash s) id)) = Some (new_hash ++ rest)
    ∧ length new_hash = 32%nat
    ∧ s' = store_authorities (id + 1) new_hash s
    ∧ evs = [AuthoritySetStored (id + 1) new_hash].
Proof.
  unfold rotate. split.
  - intros Hrun. inv_call Hrun. apply is_zero32_false in E0. destruct E1 as [-> Hr].
    apply negb_false_iff, bool_decide_eq_true in E2. destruct E4 as [Hl ->].
    destruct (split_word r3) as (w & rest & -> & Hw); [lia|].
    rewrite words1 in Hrun by done. injection Hrun as <- <-. split; [done|]. by exists w, rest.
  - intros [[Ha Hs Hn Hr] (w & rest & Hc & Hl & -> & ->)].
    apply is_zero32_false in Hs. rewrite Ha, Hs. cbn [revert_if mbind result_bind].
    unfold add64. rewrite decide_True by done. cbn [mbind result_bind].
    rewrite Hn. cbn. rewrite Hc. cbn. unfold abi_decode_words.
    rewrite decide_True by (rewrite length_app; lia). cbn [mbind result_bind]. by rewrite words1.
Qed.
End Effects.

(** ** Histories without the guardian

    Anyone may call; the calls that need the guardian revert for anyone else. *)
Definition well_typed (c : call) : Prop :=
  match c with
  | CommitHeaderRange id n => is_u64 id ∧ is_u32 n
  | DoRotate id => is_u64 id
  | _ => True
  end.

Inductive public_step `{Chain} (s : state) : state → Prop :=
  | Public sender c : well_typed c → guarded c = false ∨ is_guardian sender = false →
      public_step s (transact sender c s).

(** The hash does not collide on the encoded ranges. *)
Definition keys_distinct `{Chain} : Prop := ∀ a b a' b',
  is_u32 a → is_u32 b → is_u32 a' → is_u32 b' →
  range_key a b = range_key a' b' → a = a' ∧ b = b'.

(** Nothing that is stored changes. *)
Record keeps `{Chain} (s s' : state) : Prop := {
  kp_block : latestBlock s ≤ latestBlock s';
  kp_set : latestAuthoritySetId s ≤ latestAuthoritySetId s';
  kp_headers n : n ≤ latestBlock s →
    blockHeightToHeaderHash s' !! n = blockHeightToHeaderHash s !! n;
  kp_authorities id : at_bytes32 (authoritySetIdToHash s) id ≠ bytes32_0 →
    authoritySetIdToHash s' !! id = authoritySetIdToHash s !! id;
  kp_commitments a b : is_u32 a → is_u32 b → b ≤ latestBlock s →
    dataRootCommitments s' !! range_key a b = dataRootCommitments s !! range_key a b
    ∧ stateRootCommitments s' !! range_key a b = stateRootCommitments s !! range_key a b
    ∧ rangeStartBlocks s' !! range_key a b = rangeStartBlocks s !! range_key a b;
  kp_config : (frozen s', gateway s', headerRangeFunctionId s', rotateFunctionId s',
               headerRangeCommitmentTreeSize s')
            = (frozen s, gateway s, headerRangeFunctionId s, rotateFunctionId s,
               headerRangeCommitmentTreeSize s);
}.

(** Two heights between which one commit stepped. *)
Definition consecutive (cuts : list U32) (a b : U32) : Prop :=
  ∃ i, cuts !! i = Some a ∧ cuts !! S i = Some b.

(** The heights the contract stopped at, from the genesis height on. *)
Record tiles `{Chain} (genesis : U32) (cuts : list U32) (s : state) : Prop := {
  ti_first : head cuts = Some genesis;
  ti_last : last cuts = Some (latestBlock s);
  ti_sorted : StronglySorted Z.lt cuts;
  ti_u32 : Forall is_u32 cuts;
  ti_headers n : is_Some (blockHeightToHeaderHash s !! n) ↔ n ∈ cuts;
  ti_ranges key a : rangeStartBlocks s !! key = Some a
    ↔ ∃ b, consecutive cuts a b ∧ key = range_key a b;
  ti_data : dom (dataRootCommitments s) = dom (rangeStartBlocks s);
  ti_state : dom (stateRootCommitments s) = dom (rangeStartBlocks s);
}.

(** The authority sets the contract knows. *)
Record contiguous (genesis : U64) (latest : U64) (s : state) : Prop := {
  co_known id : at_bytes32 (authoritySetIdToHash s) id ≠ bytes32_0 ↔ genesis ≤ id ≤ latest;
  co_latest : genesis ≤ latestAuthoritySetId s ≤ latest;
}.

Section Histories.
Context `{Chain}.

Lemma public_step_effect s s' :
  public_step s s' → s' = s
  ∨ (∃ id target h sr dr, is_u64 id ∧ is_u32 target ∧ commit_guards id target s
      ∧ range_output s id target h sr dr ∧ s' = committed id target h sr dr s)
  ∨ (∃ id new_hash rest, is_u64 id ∧ rotate_guards id s
      ∧ verifiedCall (gateway s) (rotateFunctionId s)
          (rotate_input id (at_bytes32 (authoritySetIdToHash s) id)) = Some (new_hash ++ rest)
      ∧ length new_hash = 32%nat ∧ s' = store_authorities (id + 1) new_hash s).
Proof.
  intros [sender c Hwt Hpub]. unfold transact.
  destruct (exec sender c s) as [e|[s1 evs]] eqn:Hrun; [by left|].
  assert (is_guardian sender = false → guarded c = true → exec sender c s = inr (s1, evs) → False)
    as Hguard.
  { intros Hg Hc. destruct c; try done; cbn [exec];
      unfold updateFreeze, updateFunctionIds, updateGateway, updateGenesisState,
        updateBlockRangeData, onlyGuardian; by rewrite Hg. }
  destruct c; try (exfalso; destruct Hpub as [|Hg]; [done|by apply (Hguard Hg)]);
    cbn [exec] in Hrun; clear Hguard.
  - unfold requestHeaderRange in Hrun. inv_call Hrun. injection Hrun as <- <-. by left.
  - apply commitHeaderRange_run in Hrun as (Hg & h & sr & dr & Ho & -> & _).
    destruct Hwt. right; left. by exists id, target, h, sr, dr.
  - unfold requestRotate in Hrun. inv_call Hrun. injection Hrun as <- <-. by left.
  - apply rotate_call_run in Hrun as (Hg & h & rest & Hcall & Hlen & -> & _).
    right; right. by exists id, h, rest.
Qed.

#[export] Instance keeps_refl : Reflexive keeps.
Proof. done. Qed.
#[export] Instance keeps_trans : Transitive keeps.
Proof.
  intros s1 s2 s3 [B1 S1 H1 A1 C1 E1] [B2 S2 H2 A2 C2 E2]. split; try lia.
  - intros n Hn. rewrite H2, H1 by lia. done.
  - intros id Hid. rewrite A2, A1; [done|done|]. unfold at_bytes32 in *. by rewrite A1.
  - intros a b Ha Hb Hle. destruct (C2 a b) as (-> & -> & ->); [done|done|lia|].
    by apply C1.
  - by rewrite E2.
Qed.

Lemma commit_keeps id target h sr dr s :
  keys_distinct → is_u32 (latestBlock s) → is_u32 target →
  commit_guards id target s → keeps s (committed id target h sr dr s).
Proof.
  intros Hk Hs Ht [_ _ _ Hr Hp]. split; try done; cbn; try lia.
  - intros n Hn. by rewrite lookup_insert_ne by lia.
  - intros a b Ha Hb Hle. rewrite !lookup_insert_ne; [done|..];
      intros E; apply Hk in E as [_ ->]; done || lia.
Qed.

Lemma rotate_keeps id h s :
  rotate_guards id s → keeps s (store_authorities (id + 1) h s).
Proof.
  intros [_ _ Hn _]. split; try done; cbn.
  intros i Hi. rewrite lookup_insert_ne; [done|]. intros <-. done.
Qed.

Lemma public_step_u32 s s' : is_u32 (latestBlock s) → public_step s s' → is_u32 (latestBlock s').
Proof.
  intros Hs Hst. apply public_step_effect in Hst as
    [->|[(id & target & h & sr & dr & _ & Ht & _ & _ & ->)|(id & h & rest & _ & _ & _ & _ & ->)]]; done.
Qed.

Lemma history_keeps s s' :
  keys_distinct → is_u32 (latestBlock s) → rtc public_step s s' → keeps s s'.
Proof.
  intros Hk Hs Hst. induction Hst as [|s s1 s2 Hstep _ IH]; [done|].
  pose proof (public_step_u32 _ _ Hs Hstep). transitivity s1; [|by apply IH].
  apply public_step_effect in Hstep as
    [->|[(id & target & h & sr & dr & _ & Ht & Hg & _ & ->)|(id & h & rest & _ & Hg & _ & _ & ->)]].
  - done.
  - by apply commit_keeps.
  - by apply rotate_keeps.
Qed.

(** *** Tiling *)
Lemma consecutive_snoc cuts t a b :
  consecutive (cuts ++ [t]) a b ↔ consecutive cuts a b ∨ (last cuts = Some a ∧ b = t).
Proof.
  unfold consecutive. split.
  - intros (i & Ha & Hb). apply lookup_snoc_Some in Hb as [[Hlt Hb]|[Hi <-]].
    + left. exists i. rewrite lookup_app_l in Ha by lia. done.
    + right. rewrite lookup_app_l in Ha by lia. split; [|done].
      rewrite last_lookup, <- Hi. done.
  - intros [(i & Ha & Hb)|[Hl ->]].
    + exists i. by rewrite !lookup_app_l by (eapply lookup_lt_Some; eauto).
    + rewrite last_lookup in Hl. pose proof (lookup_lt_Some _ _ _ Hl).
      exists (pred (length cuts)). rewrite lookup_app_l by done. split; [done|].
      rewrite Nat.succ_pred by lia. by rewrite lookup_app_r, Nat.sub_diag by lia.
Qed.

Lemma consecutive_elem cuts a b : consecutive cuts a b → a ∈ cuts ∧ b ∈ cuts.
Proof. intros (i & Ha & Hb). split; by eapply list_elem_of_lookup_2. Qed.

(** The last of a sorted list is its maximum. *)
Lemma sorted_last cuts m n :
  StronglySorted Z.lt cuts → last cuts = Some m → n ∈ cuts → n ≤ m.
Proof.
  intros Hs Hl Hn. apply last_Some in Hl as [l ->].
  apply elem_of_app in Hn as [Hn|Hn%list_elem_of_singleton]; [|lia].
  apply Z.lt_le_incl. apply (StronglySorted_app_1_elem_of Z.lt l [m] n m Hs Hn). by left.
Qed.

Lemma tiles_init params :
  is_u32 (ip_height params) →
  tiles (ip_height params) [ip_height params] (initialize params).
Proof.
  intros Hh. split; try done; cbn.
  - by repeat constructor.
  - by constructor.
  - intros n. rewrite lookup_singleton_is_Some, list_elem_of_singleton. done.
  - intros key a. rewrite lookup_empty. split; [done|]. intros (b & (i & _ & Hi) & _).
    by apply lookup_lt_Some in Hi; cbn in Hi; lia.
Qed.

Lemma tiles_commit genesis cuts id target h sr dr s :
  keys_distinct → is_u32 target → commit_guards id target s → tiles genesis cuts s →
  tiles genesis (cuts ++ [target]) (committed id target h sr dr s).
Proof.
  intros Hk Ht [_ _ _ _ Hp] [Hf Hl Hso Hu Hh Hr Hd Hst].
  assert (∀ n, n ∈ cuts → n ≤ latestBlock s) as Hmax by (intros; by eapply sorted_last).
  assert (latestBlock s ∈ cuts) as Hin by by apply last_Some_elem_of.
  split; cbn.
  - destruct cuts; [done|]. done.
  - apply last_snoc.
  - apply StronglySorted_app_2; [|done|by repeat constructor].
    intros x y Hx Hy%list_elem_of_singleton. subst y. specialize (Hmax x Hx). lia.
  - apply Forall_app. split; [done|]. by constructor.
  - intros n. rewrite lookup_insert_is_Some', Hh, elem_of_app, list_elem_of_singleton. naive_solver.
  - intros key a. rewrite lookup_insert_Some. setoid_rewrite consecutive_snoc.
    setoid_rewrite Hr. rewrite Hl. split.
    + intros [[<- <-]|[_ (b & Hc & ->)]]; [exists target|exists b]; naive_solver.
    + intros (b & [Hc|[[= <-] ->]] & ->); [right|by left].
      split; [|by exists b]. destruct (consecutive_elem _ _ _ Hc) as [Ha Hb].
      pose proof (Hmax b Hb). rewrite Forall_forall in Hu. intros E.
      apply Hk in E as [_ ->]; auto. lia.
  - by rewrite !dom_insert_L, Hd.
  - by rewrite !dom_insert_L, Hst.
Qed.

Lemma history_tiles genesis s s' cuts :
  keys_distinct → rtc public_step s s' → tiles genesis cuts s →
  ∃ more, tiles genesis (cuts ++ more) s'.
Proof.
  intros Hk Hst. revert cuts. induction Hst as [|s s1 s2 Hstep _ IH]; intros cuts Hti.
  { exists []. by rewrite app_nil_r. }
  apply public_step_effect in Hstep as
    [->|[(id & target & h & sr & dr & _ & Ht & Hg & _ & ->)|(id & h & rest & _ & Hg & _ & _ & ->)]].
  - by apply IH.
  - destruct (IH (cuts ++ [target])) as [more Hm]; [by apply tiles_commit|].
    exists (target :: more). by rewrite <- app_assoc in Hm.
  - apply IH. by destruct Hti.
Qed.

(** *** Authority sets *)
Lemma at_bytes32_insert (m : gmap Z Bytes32) i j h :
  at_bytes32 (<[i := h]> m) j = if decide (i = j) then h else at_bytes32 m j.
Proof.
  unfold at_bytes32. case_decide as E; [subst; by rewrite lookup_insert_eq|].
  by rewrite lookup_insert_ne.
Qed.

Lemma contiguous_rotate genesis latest id h s :
  rotate_guards id s → contiguous genesis latest s →
  contiguous genesis (if decide (h = bytes32_0) then latest else latest + 1)
    (store_authorities (id + 1) h s).
Proof.
  intros [_ Hs Hn _] [Hk Hl]. pose proof (proj1 (Hk id) Hs).
  assert (id = latest) as ->.
  { destruct (decide (id = latest)); [done|]. exfalso. apply (proj2 (Hk (id + 1))); [lia|done]. }
  split; cbn; [|case_decide; lia]. intros i. rewrite at_bytes32_insert.
  case_decide as Ei; [subst i|rewrite Hk]; case_decide; naive_solver lia.
Qed.

Lemma history_contiguous genesis latest s s' :
  rtc public_step s s' → contiguous genesis latest s →
  ∃ latest', latest ≤ latest' ∧ contiguous genesis latest' s'.
Proof.
  intros Hst. revert latest. induction Hst as [|s s1 s2 Hstep _ IH]; intros latest Hco.
  { by exists latest. }
  apply public_step_effect in Hstep as
    [->|[(id & target & h & sr & dr & _ & Ht & Hg & _ & ->)|(id & h & rest & _ & Hg & _ & _ & ->)]].
  - by apply IH.
  - apply IH. destruct Hg as [_ _ Hid Hr _], Hco as [Hk Hl]. apply Hk in Hid.
    split; cbn; [done|lia].
  - destruct (IH _ (contiguous_rotate _ _ _ h _ Hg Hco)) as (l & Hl & Hco').
    exists l. split; [|done]. case_decide; lia.
Qed.

Lemma contiguous_init params :
  ip_authoritySetHash params ≠ bytes32_0 →
  contiguous (ip_authoritySetId params) (ip_authoritySetId params) (initialize params).
Proof.
  intros Hh. split; [|done]. intros id. cbn. unfold at_bytes32.
  destruct (decide (id = ip_authoritySetId params)) as [->|].
  - rewrite lookup_singleton_eq. naive_solver lia.
  - rewrite lookup_singleton_ne by done. naive_solver lia.
Qed.
End Histories.

(** ** The guardian's bulk update *)
Section BulkUpdate.
Context `{Chain} (ss es : list U32) (hs ds rs : list Bytes32).

Definition fill_range (s : state) (i : nat) : state :=
  store_header (es !!! i) (hs !!! i) (store_range (ss !!! i) (es !!! i) (ds !!! i) (rs !!! i) s).
Definition fill_events (size : U32) (i : nat) : list event :=
  [HeadUpdate (es !!! i) (hs !!! i);
   HeaderRangeCommitmentStored (ss !!! i) (es !!! i) (ds !!! i) (rs !!! i) size].
Definition fill_key (i : nat) : Bytes32 := range_key (ss !!! i) (es !!! i).

(** Each range starts where the one before it ends. *)
Definition abut (i : nat) : Prop := (i < length ss - 1)%nat → es !!! i = ss !!! S i.

Lemma update_range_run s evs i s' evs' :
  update_range ss es hs ds rs (s, evs) i = inr (s', evs') ↔
  abut i ∧ s' = fill_range s i ∧ evs' = evs ++ fill_events (headerRangeCommitmentTreeSize s) i.
Proof.
  unfold update_range, abut. case_decide as Hi; cbn [mbind result_bind].
  - rewrite result_bind_inr. setoid_rewrite require_inr. setoid_rewrite bool_decide_eq_true. split.
    + intros ([] & E & [= <- <-]). done.
    + intros (E & -> & ->). exists (). by split; [apply E|].
  - split; [intros [= <- <-]; done|]. by intros (_ & -> & ->).
Qed.

Lemma update_ranges_run l s evs s' evs' :
  result_foldM (update_range ss es hs ds rs) l (s, evs) = inr (s', evs') ↔
  Forall abut l ∧ s' = foldl fill_range s l
  ∧ evs' = evs ++ concat (map (fill_events (headerRangeCommitmentTreeSize s)) l).
Proof.
  revert s evs. induction l as [|i l IH]; intros s evs; cbn [result_foldM foldl map concat].
  { rewrite app_nil_r. split; [intros [= <- <-]; done|by intros (_ & -> & ->)]. }
  rewrite result_bind_inr, Forall_cons. split.
  - intros ([s1 evs1] & (Hi & -> & ->)%update_range_run & (Hl & -> & ->)%IH).
    rewrite <- app_assoc. done.
  - intros ([Hi Hl] & -> & ->). eexists (_, _). rewrite update_range_run, IH.
    split; [done|]. cbn. rewrite <- app_assoc. done.
Qed.

(** A fill changes three maps and nothing else. *)
Lemma fill_maps s l :
  let s' := foldl fill_range s l in
  blockHeightToHeaderHash s' =
    foldl (λ m i, <[es !!! i := hs !!! i]> m) (blockHeightToHeaderHash s) l
  ∧ dataRootCommitments s' = foldl (λ m i, <[fill_key i := ds !!! i]> m) (dataRootCommitments s) l
  ∧ stateRootCommitments s' = foldl (λ m i, <[fill_key i := rs !!! i]> m) (stateRootCommitments s) l
  ∧ rangeStartBlocks s' = foldl (λ m i, <[fill_key i := ss !!! i]> m) (rangeStartBlocks s) l
  ∧ authoritySetIdToHash s' = authoritySetIdToHash s.
Proof. revert s. induction l as [|i l IH]; intros s; [done|]. apply (IH (fill_range s i)). Qed.

(** What the guards of the call ask for. *)
Record bulk_guards (sender : address) (s : state) : Prop := {
  bg_guardian : is_guardian sender = true;
  bg_some : (0 < length ss)%nat;
  bg_lengths : length es = length ss ∧ length hs = length ss ∧ length ds = length ss
    ∧ length rs = length ss;
  bg_start : ss !!! 0%nat = latestBlock s;
  bg_abut : Forall abut (seq 0 (length ss));
}.

Lemma updateBlockRangeData_run sender id sh s s' evs :
  updateBlockRangeData sender ss es hs ds rs id sh s = inr (s', evs) ↔
  bulk_guards sender s
  ∧ s' = set_latestAuthoritySetId id (store_authorities id sh
      (set_latestBlock (es !!! (length ss - 1)%nat) (foldl fill_range s (seq 0 (length ss)))))
  ∧ evs = concat (map (fill_events (headerRangeCommitmentTreeSize s)) (seq 0 (length ss))).
Proof.
  unfold updateBlockRangeData, onlyGuardian. rewrite result_bind_inr.
  setoid_rewrite result_bind_inr. setoid_rewrite result_bind_inr.
  setoid_rewrite result_bind_inr. setoid_rewrite revert_if_inr.
  setoid_rewrite negb_false_iff. repeat setoid_rewrite andb_true_iff.
  repeat setoid_rewrite bool_decide_eq_true. split.
  - intros (_ & Hg & _ & [[[[H0 H1] H2] H3] H4] & _ & Hs & [s1 evs1] & Hrun & Hend).
    apply update_ranges_run in Hrun as (Ha & -> & ->). injection Hend as <- <-.
    split; [by split; [..|split_and!; congruence|done|done]|]. by rewrite H1.
  - intros ([Hg H0 (H1 & H2 & H3 & H4) Hs Ha] & -> & ->).
    exists (). split; [done|]. exists (). split; [split_and!; congruence|].
    exists (). split; [done|]. eexists (_, _). rewrite update_ranges_run.
    split; [done|]. by rewrite H1.
Qed.
End BulkUpdate.

Lemma foldl_insert_other {K V} `{Countable K} (k : nat → K) (v : nat → V) l (m : gmap K V) key :
  (∀ i, i ∈ l → k i ≠ key) → foldl (λ m i, <[k i := v i]> m) m l !! key = m !! key.
Proof.
  revert m. induction l as [|j l IH]; intros m Hk; [done|]. cbn.
  rewrite IH by (intros; apply Hk; by right). apply lookup_insert_ne, Hk. by left.
Qed.

Lemma foldl_insert_lookup {K V} `{Countable K} (k : nat → K) (v : nat → V) l (m : gmap K V) i :
  i ∈ l → (∀ j, j ∈ l → k j = k i → j = i) →
  foldl (λ m i, <[k i := v i]> m) m l !! k i = Some (v i).
Proof.
  intros Hi Hk. apply list_elem_of_split in Hi as (l1 & l2 & ->).
  destruct (decide (i ∈ l2)) as [Hin|Hout].
  - (* the last write of the entry *)
    apply list_elem_of_split_r in Hin as (l3 & l4 & -> & Hl4).
    rewrite app_comm_cons, app_assoc, foldl_app. cbn.
    rewrite foldl_insert_other; [by rewrite lookup_insert_eq|].
    intros j Hj E. apply Hk in E; [by subst|]. set_solver.
  - rewrite foldl_app. cbn. rewrite foldl_insert_other; [by rewrite lookup_insert_eq|].
    intros j Hj E. apply Hk in E; [by subst|]. set_solver.
Qed.

(** *** What a bulk update stores *)
Section BulkStores.
Context `{Chain}.

Lemma bulk_stores ss es hs ds rs sender id sh s s' evs :
  keys_distinct → Forall is_u32 ss → Forall is_u32 es → NoDup es →
  updateBlockRangeData sender ss es hs ds rs id sh s = inr (s', evs) →
  bulk_guards ss es hs ds rs sender s
  ∧ latestBlock s' = es !!! (length ss - 1)%nat
  ∧ latestAuthoritySetId s' = id ∧ authoritySetIdToHash s' !! id = Some sh
  ∧ (∀ i, (i < length ss)%nat →
      blockHeightToHeaderHash s' !! (es !!! i) = Some (hs !!! i)
      ∧ dataRootCommitments s' !! range_key (ss !!! i) (es !!! i) = Some (ds !!! i)
      ∧ stateRootCommitments s' !! range_key (ss !!! i) (es !!! i) = Some (rs !!! i)
      ∧ rangeStartBlocks s' !! range_key (ss !!! i) (es !!! i) = Some (ss !!! i))
  ∧ ∀ n, n ∉ es → blockHeightToHeaderHash s' !! n = blockHeightToHeaderHash s !! n.
Proof.
  intros Hk Hss Hes Hnd (Hg & -> & _)%updateBlockRangeData_run. split; [done|].
  pose proof (bg_lengths _ _ _ _ _ _ _ Hg) as (Hl & _). cbn.
  destruct (fill_maps ss es hs ds rs s (seq 0 (length ss))) as (-> & -> & -> & -> & _).
  split; [done|]. split; [done|]. split; [by rewrite lookup_insert_eq|].
  assert (∀ i l, (i < length ss)%nat → length l = length ss → Forall is_u32 l → is_u32 (l !!! i))
    as Hu.
  { intros i l Hi Hll Hf. rewrite Forall_lookup in Hf. apply (Hf i), list_lookup_lookup_total_lt. lia. }
  assert (∀ i j, (i < length ss)%nat → (j < length ss)%nat → es !!! j = es !!! i → j = i) as Hinj.
  { intros i j Hi Hj E. apply (NoDup_lookup es j i (es !!! i)); [done| |];
      rewrite list_lookup_lookup_total_lt by lia; congruence. }
  assert (∀ i j, (i < length ss)%nat → (j < length ss)%nat →
    fill_key ss es j = fill_key ss es i → j = i) as Hkey.
  { intros i j Hi Hj [_ E]%Hk; [by apply Hinj|..]; apply Hu; done || lia. }
  split; intros i Hi.
  - assert (i ∈ seq 0 (length ss)) as Hin by (apply elem_of_seq; lia).
    split_and!; [apply (foldl_insert_lookup (λ i, es !!! i) (λ i, hs !!! i))|
      apply (foldl_insert_lookup (fill_key ss es) (λ i, ds !!! i))|
      apply (foldl_insert_lookup (fill_key ss es) (λ i, rs !!! i))|
      apply (foldl_insert_lookup (fill_key ss es) (λ i, ss !!! i))]; try done;
      intros j Hj%elem_of_seq; [apply Hinj|apply Hkey..]; lia.
  - rewrite (foldl_insert_other (λ i, es !!! i)); [done|]. intros j Hj%elem_of_seq <-.
    apply Hi, (list_elem_of_lookup_2 _ j), list_lookup_lookup_total_lt. lia.
Qed.
End BulkStores.

(** ** Properties *)
Section Properties.
Context `{Chain}.

(** C11: the contract is append only for everyone but the guardian.  Along any
    history of calls that the guardian does not send, the latest block and set only
    grow, and every header hash at or below the latest block, every known authority
    set hash, every commitment to a range below and the configuration stay. *)
Theorem history_append_only s s' :
  keys_distinct → is_u32 (latestBlock s) → rtc public_step s s' → keeps s s'.
Proof. apply history_keeps. Qed.

(** C12: from initialization on, the committed ranges tile the chain.  After any
    public history there are increasing heights, from the genesis height to the
    latest block, such that the header hashes stored are those at these heights, and
    the ranges with commitments are those between two consecutive heights. *)
Theorem committed_ranges_tile params s :
  keys_distinct → is_u32 (ip_height params) → rtc public_step (initialize params) s →
  ∃ cuts, tiles (ip_height params) cuts s.
Proof.
  intros Hk Hh Hst.
  destruct (history_tiles (ip_height params) _ _ [ip_height params] Hk Hst) as [more Hm];
    [by apply tiles_init|]. by eexists.
Qed.

(** C25: the known authority sets are contiguous.  After any public history the ids
    with a hash are exactly those from the genesis set to some last one, and the set
    of the latest commit is among them. *)
Theorem known_sets_contiguous params s :
  ip_authoritySetHash params ≠ bytes32_0 → rtc public_step (initialize params) s →
  ∃ latest, contiguous (ip_authoritySetId params) latest s.
Proof.
  intros Hh Hst. destruct (history_contiguous _ _ _ _ Hst (contiguous_init _ Hh)) as (l & _ & Hl).
  by exists l.
Qed.

(** A commit cannot be replayed or rolled back.  After a commit up to a block
    with a set, a call for a block that is not past it, or with an older set,
    reverts and changes nothing. *)
Theorem commit_not_replayed id target s s' evs id' target' :
  commitHeaderRange id target s = inr (s', evs) → target' ≤ target ∨ id' < id →
  (∃ e, commitHeaderRange id' target' s' = inl e)
  ∧ ∀ sender, transact sender (CommitHeaderRange id' target') s' = s'.
Proof.
  intros (Hg & h & sr & dr & Ho & -> & _)%commitHeaderRange_run Hold.
  assert (∃ e, commitHeaderRange id' target' (committed id target h sr dr s) = inl e) as [e He].
  { destruct (commitHeaderRange _ _ (committed _ _ _ _ _ _)) as [e|[s2 evs2]] eqn:E; [by exists e|].
    apply commitHeaderRange_run in E as ([_ _ _ Hr Hp] & _). cbn in Hr, Hp. lia. }
  split; [by exists e|]. intros sender. unfold transact. cbn [exec]. by rewrite He.
Qed.

(** The guardian's bulk update stores its data.  When it succeeds on distinct
    ends, its ranges start at the latest block and abut, every one of them has its
    header hash and commitments stored, other heights keep theirs, and the contract
    ends at the last end with the given authority set. *)
Theorem bulk_update_stores ss es hs ds rs sender id sh s s' evs :
  keys_distinct → Forall is_u32 ss → Forall is_u32 es → NoDup es →
  updateBlockRangeData sender ss es hs ds rs id sh s = inr (s', evs) →
  bulk_guards ss es hs ds rs sender s
  ∧ latestBlock s' = es !!! (length ss - 1)%nat
  ∧ latestAuthoritySetId s' = id ∧ authoritySetIdToHash s' !! id = Some sh
  ∧ (∀ i, (i < length ss)%nat →
      blockHeightToHeaderHash s' !! (es !!! i) = Some (hs !!! i)
      ∧ dataRootCommitments s' !! range_key (ss !!! i) (es !!! i) = Some (ds !!! i)
      ∧ stateRootCommitments s' !! range_key (ss !!! i) (es !!! i) = Some (rs !!! i)
      ∧ rangeStartBlocks s' !! range_key (ss !!! i) (es !!! i) = Some (ss !!! i))
  ∧ ∀ n, n ∉ es → blockHeightToHeaderHash s' !! n = blockHeightToHeaderHash s !! n.
Proof. apply bulk_stores. Qed.
End Properties.

(** ** Witnesses *)

(** A gateway that answers every call with three words of 5, a hash that keeps its
    input, and the guardian at address 1. *)
#[local] Instance sample_chain : Chain := {|
  verifiedCall _ _ _ := Some (replicate 96 5);
  requestCall _ _ _ _ := true;
  is_guardian a := bool_decide (a = 1);
  keccak256 l := l;
  commitHeaderRange_selector := [1; 2; 3; 4];
  rotate_selector := [5; 6; 7; 8];
|}.

Definition sample_params : InitParameters := {|
  ip_guardian := 1; ip_gateway := 2; ip_height := 10; ip_header := replicate 32 3;
  ip_authoritySetId := 4; ip_authoritySetHash := replicate 32 4;
  ip_headerRangeFunctionId := replicate 32 6; ip_rotateFunctionId := replicate 32 7;
  ip_headerRangeCommitmentTreeSize := 16 |}.

Lemma be_encode_inj k a b :
  0 ≤ a < 2 ^ (8 * Z.of_nat k) → 0 ≤ b < 2 ^ (8 * Z.of_nat k) →
  be_encode k a = be_encode k b → a = b.
Proof. intros Ha Hb E. by rewrite <- (be_decode_encode k a), <- (be_decode_encode k b), E. Qed.

Lemma sample_keys_distinct : keys_distinct.
Proof.
  intros a b a' b' Ha Hb Ha' Hb' E. unfold range_key, abi_encode_range in E. cbn [keccak256] in E.
  unfold is_u32 in *. assert (2 ^ 32 ≤ 2 ^ (8 * Z.of_nat 32)) by by_decide.
  apply app_inj_1 in E as [E1 E2]; [|by rewrite !length_be_encode].
  split; eapply be_encode_inj; eauto; lia.
Qed.

(** Someone rotates to set 5, someone else commits blocks 11 to 20 with it. *)
Definition sample_rotated : state := transact 8 (DoRotate 4) (initialize sample_params).
Definition sample_committed : state := transact 9 (CommitHeaderRange 5 20) sample_rotated.

Lemma sample_history : rtc public_step (initialize sample_params) sample_committed.
Proof.
  eapply rtc_l; [exact (Public _ 8 (DoRotate 4) ltac:(by_decide) (or_introl eq_refl))|].
  eapply rtc_l; [exact (Public _ 9 (CommitHeaderRange 5 20) ltac:(split; by_decide)
    (or_introl eq_refl))|]. constructor.
Qed.

Lemma history_append_only_witness :
  latestBlock sample_committed = 20
  ∧ keeps (initialize sample_params) sample_committed.
Proof.
  split; [vm_compute; reflexivity|].
  apply (history_append_only _ _ sample_keys_distinct); [by_decide|exact sample_history].
Defined.

Lemma committed_ranges_tile_witness : ∃ cuts, tiles 10 cuts sample_committed.
Proof.
  apply (committed_ranges_tile sample_params _ sample_keys_distinct);
    [by_decide|exact sample_history].
Defined.

Lemma known_sets_contiguous_witness : ∃ latest, contiguous 4 latest sample_committed.
Proof. apply (known_sets_contiguous sample_params); [by_decide|exact sample_history]. Defined.

Lemma commit_not_replayed_witness :
  (∃ e, commitHeaderRange 5 20 sample_committed = inl e)
  ∧ ∀ sender, transact sender (CommitHeaderRange 5 20) sample_committed = sample_committed.
Proof.
  apply (commit_not_replayed 5 20 sample_rotated sample_committed
    [HeadUpdate 20 (replicate 32 5);
     HeaderRangeCommitmentStored 10 20 (replicate 32 5) (replicate 32 5) 16]);
    [vm_compute; reflexivity|by left].
Defined.

(** The guardian fills blocks 11 to 30 in two ranges. *)
Definition sample_fill : result (state * list event) :=
  updateBlockRangeData 1 [10; 26] [26; 30] [replicate 32 1; replicate 32 2]
    [replicate 32 3; replicate 32 4] [replicate 32 5; replicate 32 6] 9 (replicate 32 7)
    (initialize sample_params).
Definition sample_filled : state :=
  match sample_fill with inr (s, _) => s | inl _ => initialize sample_params end.

Lemma bulk_update_stores_witness :
  latestBlock sample_filled = 30
  ∧ blockHeightToHeaderHash sample_filled !! 26 = Some (replicate 32 1)
  ∧ dataRootCommitments sample_filled !! range_key 26 30 = Some (replicate 32 4)
  ∧ blockHeightToHeaderHash sample_filled !! 10 = Some (replicate 32 3).
Proof.
  destruct (bulk_update_stores [10; 26] [26; 30] [replicate 32 1; replicate 32 2]
    [replicate 32 3; replicate 32 4] [replicate 32 5; replicate 32 6] 1 9 (replicate 32 7)
    (initialize sample_params) sample_filled
    (match sample_fill with inr (_, evs) => evs | inl _ => [] end) sample_keys_distinct)
    as (_ & Hlast & _ & _ & Hstored & Hother).
  - by_decide.
  - by_decide.
  - by_decide.
  - vm_compute. reflexivity.
  - destruct (Hstored 0%nat) as (H0 & _); [simpl; lia|].
    destruct (Hstored 1%nat) as (_ & H1 & _); [simpl; lia|].
    split_and!; [exact Hlast|exact H0|exact H1|]. rewrite Hother by by_decide. reflexivity.
Defined.
