(* ===== verification/Events.v ===== *)
(** * The event indexer: bin/events.rs

    Follows the contracts of a list of deployments and stores the data commitment
    ranges that they emit in Redis, from a cursor per contract to the current block
    of its chain. *)

From stdpp Require Import pretty gmap list.
From S2P Require Import Prelude Parse Environment Redis.

(** ** The Ethereum side

    What the provider of an RPC URL answers ... *)
Class Ethereum := {
  get_chainid : string → option U64;
  get_block_number : string → option U64;
  get_logs : string → bytes → string → U64 → U64 → option (list bytes);
}.

(** ... and alloy's decoder of the log data as a (uint32, uint32, bytes32, bytes32). *)
Class Abi := {
  abi_decode_commitment : bytes → option (U32 * U32 * Bytes32 * Bytes32);
}.

(** serde_json's values, the files of the working directory, and the uppercase of a
    string by Unicode's tables. *)
Class Json := {
  value : Type;
  json_index : value → string → value;
  as_array : value → option (list value);
  as_str : value → option string;
  as_u64 : value → option U64;
  json_from_file : string → option value;
  to_uppercase : string → string;
}.

Record Deployment := {
  source_chain_name : string;
  contract_chain_id : U64;
  contract_address : bytes;
  cursor_start_block : U64;
}.

(** ** Operations *)
Definition event_signature : string :=
  "HeaderRangeCommitmentStored(uint32,uint32,bytes32,bytes32)".

(** [get_deployments]. *)
Section Deployments.
Context `{Clients, Json}.

Definition unwrap_none : string := "called `Option::unwrap()` on a `None` value".

Definition read_deployment (d : value) : outcome Deployment :=
  source_chain_name ← expect (as_str (json_index d "sourceChainName")) unwrap_none;
  contract_chain_id ← expect (as_u64 (json_index d "contractChainId")) unwrap_none;
  contract_address ← expect (as_str (json_index d "contractAddress")) unwrap_none;
  contract_address ← expect (parse_address contract_address)
    "called `Result::unwrap()` on an `Err` value";
  cursor_start_block ← expect (as_u64 (json_index d "cursorStartBlock")) unwrap_none;
  Ret {| source_chain_name := to_uppercase source_chain_name;
         contract_chain_id := contract_chain_id; contract_address := contract_address;
         cursor_start_block := cursor_start_block |}.

Definition get_deployments : outcome (list Deployment) :=
  deployments_json ← expect (json_from_file "deployments.json")
    "called `Result::unwrap()` on an `Err` value";
  deployments_array ← expect (as_array (json_index deployments_json "deployments")) unwrap_none;
  foldM (λ ds d, deployment ← read_deployment d; Ret (ds ++ [deployment])) deployments_array [].
End Deployments.

Section Operations.
Context `{RedisServer, Environment, Clients, Abi, Ethereum}.

Definition store_log (chain_id : U64) (address : bytes) (s : store) (log : bytes)
    : outcome store :=
  decoded ← expect (abi_decode_commitment log) "called `Result::unwrap()` on an `Err` value";
  let '(trusted_block, end_block, expected_data_commitment, _) := decoded in
  _ ← assert (bool_decide (length expected_data_commitment = 32%nat))
    "called `Result::unwrap()` on an `Err` value";
  add_data_commitment_range chain_id address
    {| range_start := trusted_block; range_end := end_block;
       range_data_commitment := expected_data_commitment |} s.

(** One iteration of the loop over batches of blocks. *)
Definition store_batch (rpc_url : string) (chain_id : U64) (address : bytes) (end_block : U64)
    (st : U64 * store) : outcome (U64 * store + store) :=
  let '(curr_start_block, s) := st in
  if decide (curr_start_block < end_block) then
    batch_end_block ← checked_add 64 curr_start_block 50000;
    let batch_end_block :=
      if decide (end_block < batch_end_block) then end_block else batch_end_block in
    logs ← expect (get_logs rpc_url address event_signature curr_start_block batch_end_block)
      "called `Result::unwrap()` on an `Err` value";
    s ← foldM (store_log chain_id address) logs s;
    Ret (inl (batch_end_block, s))
  else Ret (inr s).

Definition store_events (rpc_url : string) (address : bytes) (start_block end_block : U64)
    (s : store) : outcome store :=
  _ ← assert (provider_try_from rpc_url) "could not connect to client";
  chain_id ← expect (get_chainid rpc_url) "called `Result::unwrap()` on an `Err` value";
  loop (S (Z.to_nat (end_block - start_block)))
    (store_batch rpc_url chain_id address end_block) (start_block, s).

(** The body of the loop over deployments. *)
Definition index_deployment (s : store) (deployment : Deployment) : outcome store :=
  rpc_url ← expect (get_ethereum_rpc (contract_chain_id deployment))
    "Ethereum RPC URL not found for chain ID";
  _ ← assert (provider_try_from rpc_url) "could not connect to client";
  current_block ← expect (get_block_number rpc_url)
    "called `Result::unwrap()` on an `Err` value";
  cursor ← get_contract_cursor (contract_chain_id deployment) (contract_address deployment) s;
  let cursor := default (cursor_start_block deployment) cursor in
  if decide (cursor < current_block) then
    s ← store_events rpc_url (contract_address deployment) cursor current_block s;
    set_contract_cursor (contract_chain_id deployment) (contract_address deployment)
      current_block s
  else Ret s.

(** One round of the program: every deployment once. *)
Definition index_round (deployments : list Deployment) (s : store) : outcome store :=
  foldM index_deployment deployments s.
End Operations.

(** Rounds, each with what the Ethereum side answers at its time. *)
Definition index_rounds `{RedisServer, Environment, Clients, Abi} (deployments : list Deployment) (rounds : list Ethereum)
    (s : store) : outcome store :=
  foldM (λ s (R : Ethereum),
    _ ← RedisClient_new;
    index_round deployments s) rounds s.

(** The program, for some rounds. *)
Definition events_main `{RedisServer, Environment, Clients, Abi, Json} (rounds : list Ethereum) (s : store)
    : outcome store :=
  deployments ← get_deployments;
  index_rounds deployments rounds s.

(** ** What the chains emitted *)
Abbreviation commitment := (U32 * U32 * Bytes32 * Bytes32)%type (only parsing).

Section Emitted.
Context `{RedisServer, Environment, Abi}.
(* The logs of a deployment's contract in a block: signatures and data. *)
Context (emits : Deployment → U64 → list (string * bytes)).

(** The logs that a filter finds: those with its signature, in its blocks. *)
Definition filtered (d : Deployment) (signature : string) (a b : U64) : list bytes :=
  map snd (filter (λ l, fst l = signature) (concat (map (emits d) (seqZ a (b - a + 1))))).

(** A provider that knows the chain of a deployment up to its current block. *)
Record serves_events (R : Ethereum) (d : Deployment) : Prop := {
  se_chain url : get_ethereum_rpc (contract_chain_id d) = Some url →
    get_chainid url = Some (contract_chain_id d);
  se_logs url current signature a b logs :
    get_ethereum_rpc (contract_chain_id d) = Some url → get_block_number url = Some current →
    a ≤ b ≤ current → get_logs url (contract_address d) signature a b = Some logs →
    logs = filtered d signature a b;
}.

(** A commitment of the signature that the indexer looks for. *)
Definition emitted (d : Deployment) (b : U64) (e : commitment) : Prop :=
  ∃ data, (event_signature, data) ∈ emits d b ∧ abi_decode_commitment data = Some e.

(** The member of the sorted set for a range. *)
Definition range_member (e : commitment) : string :=
  let '(a, b, data, _) := e in hex_encode (abi_encode_packed_range a b data).
Definition commitment_end (e : commitment) : U32 := let '(_, b, _, _) := e in b.

Definition deployment_ranges (d : Deployment) : string :=
  ranges_key (contract_chain_id d) (contract_address d).
Definition deployment_cursor (d : Deployment) : string :=
  cursor_key (contract_chain_id d) (contract_address d).

(** Members determine the end of their range, among the events that are emitted. *)
Definition is_emitted (e : commitment) : Prop := ∃ d b, emitted d b e.
Definition members_faithful : Prop := ∀ e e', is_emitted e → is_emitted e' →
  range_member e = range_member e' → commitment_end e = commitment_end e'.

Definition stored_event (d : Deployment) (s : store) (e : commitment) : Prop :=
  zscore (deployment_ranges d) (range_member e) s = Some (commitment_end e).

(** The commitment in a log's data is stored. *)
Definition stored_log (d : Deployment) (s : store) (data : bytes) : Prop :=
  ∃ e, abi_decode_commitment data = Some e ∧ stored_event d s e.

(** Every log of the indexer's signature from the start block to the cursor is stored. *)
Definition indexed_to_cursor (d : Deployment) (s : store) : Prop :=
  ∀ cursor, get (deployment_cursor d) s = Some cursor →
    ∀ b data, cursor_start_block d ≤ b ≤ cursor → (event_signature, data) ∈ emits d b →
      stored_log d s data.
End Emitted.

(** ** Helper lemmas *)

(** The cursors and the ranges live under different keys: they end differently. *)
Fixpoint last_char (s : string) : option Ascii.ascii :=
  match s with
  | EmptyString => None
  | String c EmptyString => Some c
  | String _ s' => last_char s'
  end.

Lemma append_nonempty s t : t ≠ EmptyString → s +:+ t ≠ EmptyString.
Proof. by destruct s. Qed.

Lemma last_char_app s t : t ≠ EmptyString → last_char (s +:+ t) = last_char t.
Proof.
  intros Ht. induction s as [|c s IH]; [done|].
  pose proof (append_nonempty s t Ht) as Hst.
  transitivity (last_char (s +:+ t)); [|done].
  change (String c s +:+ t) with (String c (s +:+ t)). by destruct (s +:+ t).
Qed.

Lemma cursor_not_ranges `{RedisServer} id a id' a' : cursor_key id a ≠ ranges_key id' a'.
Proof.
  intros E%(f_equal last_char). unfold cursor_key, ranges_key in E.
  rewrite (last_char_app (pretty id)), (last_char_app ":"), last_char_app,
    (last_char_app (pretty id')), (last_char_app ":"), last_char_app in E;
    try done; repeat apply append_nonempty; done.
Qed.

(** An invariant of a loop over a list whose steps each establish a fact. *)
Lemma foldM_facts {A S} (K : S → S → Prop) (Q : A → S → Prop) (f : S → A → outcome S) l s s' :
  PreOrder K → (∀ a s s', Q a s → K s s' → Q a s') →
  (∀ a s s', a ∈ l → f s a = Ret s' → K s s' ∧ Q a s') →
  foldM f l s = Ret s' → K s s' ∧ ∀ a, a ∈ l → Q a s'.
Proof.
  intros HK HQ. revert s. induction l as [|a l IH]; intros s Hf Hrun.
  { injection Hrun as <-. split; [done|]. by intros a ?%elem_of_nil. }
  cbn in Hrun. apply bind_Ret in Hrun as (s1 & Ha & Hrun).
  apply Hf in Ha as [HK1 HQ1]; [|by left].
  apply IH in Hrun as [HK2 HQ2]; [|intros; apply Hf; [by right|done]].
  split; [by transitivity s1|]. intros b [->|Hb]%elem_of_cons; [by eapply HQ|by apply HQ2].
Qed.

Section Facts.
Context `{RedisLaws, Environment, Clients, Abi} (emits : Deployment → U64 → list (string * bytes)).
Context (Hmem : members_faithful emits).

(** What the store keeps when events are added. *)
Record grows (s s' : store) : Prop := {
  gr_events d e : is_emitted emits e → stored_event d s e → stored_event d s' e;
  gr_cursors d : get (deployment_cursor d) s' = get (deployment_cursor d) s;
}.
#[local] Instance grows_preorder : PreOrder grows.
Proof.
  split; [done|]. intros s1 s2 s3 [E1 C1] [E2 C2]. split; [by eauto|]. intros d. by rewrite C2, C1.
Qed.

Lemma zadd_grows d e s s' :
  is_emitted emits e → zadd (deployment_ranges d) (range_member e) (commitment_end e) s = Some s' →
  grows s s' ∧ stored_event d s' e.
Proof.
  intros Hem Hz. split; [split|].
  - intros d' e' Hem' He. unfold stored_event in *.
    destruct (decide (deployment_ranges d = deployment_ranges d')) as [E|].
    2: by rewrite (zadd_zscore_key _ _ _ _ _ _ _ Hz).
    destruct (decide (range_member e = range_member e')) as [Em|].
    + rewrite <- E, <- Em, (zadd_zscore _ _ _ _ _ Hz), (Hmem e e'); done.
    + rewrite <- E in *. by rewrite (zadd_zscore_other _ _ _ _ _ _ Hz).
  - intros d'. apply (zadd_get _ _ _ _ _ _ Hz). intros E. by apply (cursor_not_ranges _ _ _ _ (eq_sym E)).
  - by eapply zadd_zscore.
Qed.

Lemma store_log_run `{Ethereum} d s log s' :
  store_log (contract_chain_id d) (contract_address d) s log = Ret s' →
  ∃ e, abi_decode_commitment log = Some e
    ∧ (is_emitted emits e → grows s s' ∧ stored_event d s' e).
Proof.
  intros ([[[a b] data] state] & He & Hrun)%expect_Ret. apply bind_Ret in Hrun as ([] & _ & Hrun).
  exists (a, b, data, state). split; [done|]. intros Hem. unfold add_data_commitment_range in Hrun.
  apply bind_Ret in Hrun as ([] & _ & Hrun). apply bind_Ret in Hrun as (data' & Hd & Hrun).
  cbn in Hd. case_decide; [|done]. injection Hd as <-. cbn in Hrun.
  destruct (zadd _ _ _ s) as [s1|] eqn:Hz; [|done]. injection Hrun as <-.
  by apply (zadd_grows d (a, b, data, state)).
Qed.

Lemma store_logs_run `{Ethereum} d s logs s' :
  (∀ log, log ∈ logs → ∃ b, (event_signature, log) ∈ emits d b) →
  foldM (store_log (contract_chain_id d) (contract_address d)) logs s = Ret s' →
  grows s s' ∧ ∀ log, log ∈ logs → stored_log d s' log.
Proof.
  intros Hem Hrun.
  apply (foldM_facts grows (λ log s, (∃ b, (event_signature, log) ∈ emits d b) ∧ stored_log d s log))
    in Hrun as [Hk Hq].
  - split; [done|]. intros log Hlog. by apply Hq.
  - apply _.
  - intros log s1 s2 [[b Hb] (e & He & Hst)] [Hg _]. split; [by exists b|]. exists e.
    split; [done|]. apply Hg; [by exists d, b, log|done].
  - intros log s1 s2 Hin Hlog. destruct (Hem log Hin) as [b Hb].
    destruct (store_log_run d s1 log s2 Hlog) as (e & He & Hst).
    destruct Hst as [Hg Hst]; [by exists d, b, log|].
    split; [done|]. split; [by exists b|by exists e].
Qed.

Lemma elem_of_filtered d signature a b data :
  data ∈ filtered emits d signature a b ↔ ∃ n, a ≤ n ≤ b ∧ (signature, data) ∈ emits d n.
Proof.
  unfold filtered. change (map snd ?l) with (snd <$> l). rewrite list_elem_of_fmap. split.
  - intros ([sig data'] & -> & [Hs (l & Hl & Hin)%list_elem_of_In%in_concat]%list_elem_of_filter).
    cbn in Hs. subst sig. apply in_map_iff in Hl as (n & <- & Hn%list_elem_of_In%elem_of_seqZ).
    exists n. split; [lia|by apply list_elem_of_In].
  - intros (n & Hn & Hin). exists (signature, data). split; [done|]. apply list_elem_of_filter.
    split; [done|]. apply list_elem_of_In, in_concat. exists (emits d n).
    split; [|by apply list_elem_of_In]. apply in_map, list_elem_of_In, elem_of_seqZ. lia.
Qed.

(** After the batches from [start] to [curr], their events are stored. *)
Definition batch_inv (d : Deployment) (start finish : U64) (s0 : store) (st : U64 * store) : Prop :=
  let '(curr, s) := st in
  start ≤ curr ≤ finish ∧ grows s0 s
  ∧ (start < curr → ∀ b data, start ≤ b ≤ curr → (event_signature, data) ∈ emits d b →
       stored_log d s data).

Lemma stored_log_grows d b s s' data :
  grows s s' → (event_signature, data) ∈ emits d b → stored_log d s data → stored_log d s' data.
Proof.
  intros [Hg _] Hb (e & He & Hst). exists e. split; [done|]. apply Hg; [by exists d, b, data|done].
Qed.

Lemma store_batch_step (R : Ethereum) d url current start s0 st st' :
  serves_events emits R d → get_ethereum_rpc (contract_chain_id d) = Some url →
  get_block_number url = Some current →
  batch_inv d start current s0 st →
  store_batch url (contract_chain_id d) (contract_address d) current st = Ret (inl st') →
  batch_inv d start current s0 st'.
Proof.
  destruct st as [curr s]. intros HR Henv Hcur (Hb & Hg & Hst) Hrun. unfold store_batch in Hrun.
  case_decide as Hlt; [|done]. apply bind_Ret in Hrun as (batch & [-> _]%checked_add_inv & Hrun).
  set (stop := if decide _ then _ else _) in *.
  assert (curr ≤ stop ≤ current ∧ curr < stop) as Hstop by (unfold stop; case_decide; lia).
  clearbody stop. apply expect_Ret in Hrun as (logs & Hlogs & Hrun).
  apply bind_Ret in Hrun as (s1 & Hs1 & [= <-]).
  pose proof (se_logs _ _ _ HR url current _ curr stop logs Henv Hcur ltac:(lia) Hlogs) as ->.
  destruct (store_logs_run d s (filtered emits d event_signature curr stop) s1) as [Hg1 Hall]; [|exact Hs1|].
  { intros log (n & _ & Hn)%elem_of_filtered. by exists n. }
  split; [lia|]. split; [by transitivity s|]. intros _ b data Hbe Hd.
  destruct (decide (curr ≤ b)).
  - apply Hall, elem_of_filtered. exists b. split; [lia|done].
  - apply (stored_log_grows d b s); [done|done|]. apply (Hst ltac:(lia) b); [lia|done].
Qed.

Lemma store_events_run (R : Ethereum) d url current start s s' :
  serves_events emits R d → get_ethereum_rpc (contract_chain_id d) = Some url →
  get_block_number url = Some current → start < current →
  store_events url (contract_address d) start current s = Ret s' →
  grows s s' ∧ ∀ b data, start ≤ b ≤ current → (event_signature, data) ∈ emits d b →
    stored_log d s' data.
Proof.
  intros HR Henv Hcur Hlt Hrun. unfold store_events in Hrun.
  apply bind_Ret in Hrun as ([] & _ & Hrun). apply expect_Ret in Hrun as (id & Hid & Hrun).
  rewrite (se_chain _ _ _ HR url Henv) in Hid. injection Hid as <-.
  apply (loop_inv (batch_inv d start current s)) in Hrun as ([curr s1] & Hinv & Hend).
  - destruct Hinv as (Hb & Hg & Hst). unfold store_batch in Hend. case_decide as Hc.
    { by repeat (apply bind_Ret in Hend as (? & _ & Hend)). }
    injection Hend as <-. split; [done|]. intros b data Hbe. apply Hst; lia.
  - split; [lia|]. split; [done|lia].
  - intros st st'. by apply store_batch_step.
Qed.

Lemma index_deployment_run (R : Ethereum) d s s' :
  serves_events emits R d → indexed_to_cursor emits d s → index_deployment s d = Ret s' →
  indexed_to_cursor emits d s'
  ∧ (∀ d b data, (event_signature, data) ∈ emits d b → stored_log d s data → stored_log d s' data)
  ∧ ∀ d', deployment_cursor d' ≠ deployment_cursor d →
      get (deployment_cursor d') s' = get (deployment_cursor d') s.
Proof.
  intros HR Hd Hrun. unfold index_deployment in Hrun.
  apply expect_Ret in Hrun as (url & Henv & Hrun). apply bind_Ret in Hrun as ([] & _ & Hrun).
  apply expect_Ret in Hrun as (current & Hcur & Hrun).
  apply bind_Ret in Hrun as (cursor & Hcursor & Hrun).
  unfold get_contract_cursor in Hcursor. apply bind_Ret in Hcursor as ([] & _ & [= Hcursor]).
  case_decide as Hlt; [|by injection Hrun as <-].
  apply bind_Ret in Hrun as (s1 & Hs1 & Hrun).
  destruct (store_events_run R d url current _ s s1 HR Henv Hcur Hlt Hs1) as [Hg Hnew].
  unfold set_contract_cursor in Hrun. apply bind_Ret in Hrun as ([] & _ & Hrun).
  destruct (set _ _ s1) as [s2|] eqn:Hset; [|done]. injection Hrun as <-.
  assert (∀ d data, stored_log d s1 data → stored_log d s2 data) as Hst.
  { intros d' data (e & He & Hse). exists e. split; [done|].
    unfold stored_event. rewrite (set_zscore _ _ _ _ _ _ Hset); [done|]. apply cursor_not_ranges. }
  split_and!.
  - intros c Hc b data Hb Hem. pose proof (set_get _ _ _ _ Hset) as Hc'.
    unfold deployment_cursor in Hc. rewrite Hc' in Hc. injection Hc as <-. apply Hst.
    destruct (decide (default (cursor_start_block d) cursor ≤ b)).
    + apply (Hnew b); [lia|done].
    + destruct cursor as [c|]; cbn in *; [|lia].
      apply (stored_log_grows d b s); [done|done|]. apply (Hd c Hcursor b); [lia|done].
  - intros d' b data Hb Hlog. by apply Hst, (stored_log_grows d' b s).
  - intros d' Hd'. rewrite (set_get_other _ _ _ _ _ Hset) by done. apply Hg.
Qed.

(** Every deployment has its own cursor. *)
Definition own_cursors (deployments : list Deployment) : Prop :=
  ∀ d d', d ∈ deployments → d' ∈ deployments → deployment_cursor d = deployment_cursor d' → d = d'.

Lemma index_round_run (R : Ethereum) all deployments s s' :
  own_cursors all → deployments ⊆ all → (∀ d, d ∈ deployments → serves_events emits R d) →
  (∀ d, d ∈ all → indexed_to_cursor emits d s) → index_round deployments s = Ret s' →
  ∀ d, d ∈ all → indexed_to_cursor emits d s'.
Proof.
  intros Hown. revert s. induction deployments as [|d l IH]; intros s Hsub HR Hall Hrun.
  { by injection Hrun as <-. }
  cbn in Hrun. apply bind_Ret in Hrun as (s1 & Hd & Hrun).
  assert (d ∈ all) as Hin by (apply Hsub; by left).
  apply (index_deployment_run R) in Hd as (Hd & Hst & Hc);
    [|apply HR; by left|by apply Hall].
  apply (IH s1); [by intros ??; apply Hsub; right|by intros; apply HR; right| |done].
  intros d' Hd'. destruct (decide (deployment_cursor d' = deployment_cursor d)) as [E|].
  - by rewrite (Hown d' d).
  - intros cursor Hcur b data Hb Hem. rewrite Hc in Hcur by done. apply (Hst d' b); [done|].
    by apply (Hall d' Hd' cursor Hcur b).
Qed.
End Facts.

(** *** Contracts that emit events of another signature *)

(** What VectorX.sol emits when it stores a commitment. *)
Definition contract_event_signature : string :=
  "HeaderRangeCommitmentStored(uint32,uint32,bytes32,bytes32,uint32)".

Section Missed.
Context `{RedisLaws, Environment, Clients, Abi} (emits : Deployment → U64 → list (string * bytes)).

Definition emits_contract_events (d : Deployment) : Prop :=
  ∀ b l, l ∈ emits d b → fst l = contract_event_signature.

Lemma filtered_none d a b : emits_contract_events d → filtered emits d event_signature a b = [].
Proof.
  intros Hother. destruct (filtered emits d event_signature a b) as [|data l] eqn:E; [done|exfalso].
  assert (data ∈ filtered emits d event_signature a b) as Hin by (rewrite E; by left).
  apply elem_of_filtered in Hin as (n & _ & Hn). by apply Hother in Hn.
Qed.

Lemma store_events_missed (R : Ethereum) d url current start s s' :
  serves_events emits R d → emits_contract_events d →
  get_ethereum_rpc (contract_chain_id d) = Some url → get_block_number url = Some current →
  start < current → store_events url (contract_address d) start current s = Ret s' → s' = s.
Proof.
  intros HR Hother Henv Hcur Hlt Hrun. unfold store_events in Hrun.
  apply bind_Ret in Hrun as ([] & _ & Hrun). apply expect_Ret in Hrun as (id & _ & Hrun).
  apply (loop_inv (λ st, start ≤ fst st ≤ current ∧ snd st = s)) in Hrun
    as ([curr s1] & [_ Hs] & Hend); [|split; [cbn; lia|done]|].
  - unfold store_batch in Hend. case_decide.
    { by repeat (apply bind_Ret in Hend as (? & _ & Hend)). }
    injection Hend as <-. done.
  - intros [curr s1] [next s2] [Hb Hs] Hstep. cbn in Hb, Hs. subst s1. unfold store_batch in Hstep.
    case_decide; [|done]. apply bind_Ret in Hstep as (batch & [-> _]%checked_add_inv & Hstep).
    set (stop := if decide _ then _ else _) in *.
    assert (curr ≤ stop ≤ current) as Hstop by (unfold stop; case_decide; lia).
    clearbody stop. apply expect_Ret in Hstep as (logs & Hlogs & Hstep).
    pose proof (se_logs _ _ _ HR url current _ curr stop logs Henv Hcur ltac:(lia) Hlogs) as ->.
    rewrite filtered_none in Hstep by done. cbn [foldM mbind outcome_bind] in Hstep.
    injection Hstep as <- <-. cbn. split; [lia|done].
Qed.

(** The cursor of [d] has reached the current block of its chain. *)
Definition cursor_caught_up (R : Ethereum) (d : Deployment) (s : store) : Prop :=
  ∀ url current, get_ethereum_rpc (contract_chain_id d) = Some url →
    get_block_number url = Some current →
    current ≤ default (cursor_start_block d) (get (deployment_cursor d) s).

Definition same_ranges (s s' : store) : Prop :=
  ∀ d m, zscore (deployment_ranges d) m s' = zscore (deployment_ranges d) m s.

Lemma index_deployment_missed (R : Ethereum) d s s' :
  serves_events emits R d → emits_contract_events d → index_deployment s d = Ret s' →
  same_ranges s s' ∧ cursor_caught_up R d s'
  ∧ ∀ d', deployment_cursor d' ≠ deployment_cursor d →
      get (deployment_cursor d') s' = get (deployment_cursor d') s.
Proof.
  intros HR Hother Hrun. unfold index_deployment in Hrun.
  apply expect_Ret in Hrun as (url & Henv & Hrun). apply bind_Ret in Hrun as ([] & _ & Hrun).
  apply expect_Ret in Hrun as (current & Hcur & Hrun).
  apply bind_Ret in Hrun as (cursor & Hcursor & Hrun).
  unfold get_contract_cursor in Hcursor. apply bind_Ret in Hcursor as ([] & _ & [= Hcursor]).
  unfold cursor_caught_up, deployment_cursor. rewrite Henv.
  case_decide as Hlt.
  - apply bind_Ret in Hrun as (s1 & Hs1 & Hrun).
    apply (store_events_missed R d url current) in Hs1 as ->; [|done..].
    unfold set_contract_cursor in Hrun. apply bind_Ret in Hrun as ([] & _ & Hrun).
    destruct (set _ _ s) as [s2|] eqn:Hset; [|done]. injection Hrun as <-. split_and!.
    + intros d' m. apply (set_zscore _ _ _ _ _ _ Hset), cursor_not_ranges.
    + intros ? current' [= <-] Hc. rewrite Hcur in Hc. injection Hc as <-.
      rewrite (set_get _ _ _ _ Hset). cbn. lia.
    + intros d' Hd'. by apply (set_get_other _ _ _ _ _ Hset).
  - injection Hrun as <-. split_and!; [done| |done].
    intros ? current' [= <-] Hc. rewrite Hcur in Hc. injection Hc as <-. rewrite Hcursor. lia.
Qed.

Lemma index_round_missed (R : Ethereum) deployments s s' :
  own_cursors deployments → (∀ d, d ∈ deployments → serves_events emits R d) →
  (∀ d, d ∈ deployments → emits_contract_events d) → index_round deployments s = Ret s' →
  same_ranges s s' ∧ ∀ d, d ∈ deployments → cursor_caught_up R d s'.
Proof.
  intros Hown HR Hother Hrun.
  apply (foldM_facts (λ s s', same_ranges s s' ∧ ∀ d, d ∈ deployments →
    cursor_caught_up R d s → cursor_caught_up R d s')
    (λ d s, d ∈ deployments ∧ cursor_caught_up R d s)) in Hrun as [[Hs _] Hq].
  - split; [done|]. intros d Hd. by apply Hq.
  - split; [done|]. intros s1 s2 s3 [E1 C1] [E2 C2]. split; [|by auto].
    intros d m. by rewrite E2, E1.
  - intros d s1 s2 [Hd Hc] [_ Hk]. auto.
  - intros d s1 s2 Hd Hstep.
    apply (index_deployment_missed R) in Hstep as (Hs & Hc & Hk); [|by apply HR|by apply Hother].
    split; [split; [done|]|done]. intros d' Hd' Hc'.
    destruct (decide (deployment_cursor d' = deployment_cursor d)) as [E|Hne].
    + by rewrite (Hown d' d Hd' Hd E).
    + intros url current. rewrite (Hk d' Hne). apply Hc'.
Qed.
End Missed.

(** ** Properties *)
Section Properties.
Context `{RedisLaws, Environment, Clients, Abi} (emits : Deployment → U64 → list (string * bytes)).

(** C23: no log of the indexer's signature is skipped.  Whatever rounds the indexer
    completes, against providers that know the chains up to their current blocks and
    filter their logs by signature, afterwards every log that a deployment's contract
    emitted under the four-parameter signature, from the start block to the cursor,
    decodes, and its range is in the sorted set of the deployment, with the end of
    the range as score. *)
Theorem events_indexed_to_cursor deployments rounds s s' :
  members_faithful emits → own_cursors deployments →
  (∀ R d, R ∈ rounds → d ∈ deployments → serves_events emits R d) →
  (∀ d, d ∈ deployments → indexed_to_cursor emits d s) →
  index_rounds deployments rounds s = Ret s' →
  ∀ d, d ∈ deployments → indexed_to_cursor emits d s'.
Proof.
  intros Hmem Hown. revert s. induction rounds as [|R l IH]; intros s HR Hall Hrun.
  { by injection Hrun as <-. }
  cbn in Hrun. apply bind_Ret in Hrun as (s1 & Hd & Hrun). apply bind_Ret in Hd as ([] & _ & Hd).
  apply (IH s1); [by intros; apply HR; [right|]| |done].
  eapply (index_round_run emits Hmem R deployments deployments s); try done.
  intros d Hin. by apply HR; [left|].
Qed.

(** C30: the events of VectorX.sol are missed.  When the contracts emit only events
    of the five-parameter signature that VectorX.sol declares, the rounds that the
    indexer completes leave every sorted set of ranges as it was, and yet move each
    cursor up to the current block, so that the events are not looked for again. *)
Theorem contract_events_missed deployments rounds R s s' :
  own_cursors deployments →
  (∀ R' d, R' ∈ rounds ++ [R] → d ∈ deployments → serves_events emits R' d) →
  (∀ d, d ∈ deployments → emits_contract_events emits d) →
  index_rounds deployments (rounds ++ [R]) s = Ret s' →
  same_ranges s s' ∧ ∀ d, d ∈ deployments → cursor_caught_up R d s'.
Proof.
  intros Hown HR Hother. revert s. induction rounds as [|R1 l IH]; intros s Hrun; cbn in Hrun;
    apply bind_Ret in Hrun as (s1 & Hd & Hrun); apply bind_Ret in Hd as ([] & _ & Hd).
  - injection Hrun as <-. apply (index_round_missed emits R deployments s); try done.
    intros d. apply HR. by left.
  - apply (index_round_missed emits R1 deployments s) in Hd as [Hs _]; try done.
    2: { intros d. apply HR. by left. }
    destruct (IH (λ R' d Hin, HR R' d ltac:(by right)) s1 Hrun) as [Hs1 Hc].
    split; [|done]. intros d m. by rewrite Hs1, Hs.
Qed.

(** A round ends.  The batches of a deployment move past its current block in
    the fuel of the model, whatever the providers answer. *)
Theorem index_round_terminates `{Ethereum} deployments s :
  index_round deployments s ≠ OutOfFuel.
Proof.
  apply in_fuel_foldM. intros s1 d. unfold index_deployment. apply in_fuel_bind; [by in_fuel|].
  intros url. apply in_fuel_bind; [by in_fuel|]. intros _. apply in_fuel_bind; [by in_fuel|].
  intros current.
  assert (in_fuel get_connection) as Hconn
    by (unfold get_connection; induction (seq 0 _); cbn; [done|by case_match]).
  assert (∀ id a r s, in_fuel (add_data_commitment_range id a r s)) as Hadd.
  { intros. unfold add_data_commitment_range. apply in_fuel_bind; [by apply in_fuel_unwrap|].
    intros _. apply in_fuel_bind; [by case_decide|]. intros. apply in_fuel_expect. }
  apply in_fuel_bind.
  { unfold get_contract_cursor. apply in_fuel_bind; [by apply in_fuel_unwrap|done]. }
  intros cursor. case_decide; [|done]. apply in_fuel_bind.
  - unfold store_events. apply in_fuel_bind; [by in_fuel|]. intros _.
    apply in_fuel_bind; [by in_fuel|]. intros id.
    apply (in_fuel_loop (λ st, Z.to_nat (current - fst st))); [cbn; lia| |].
    + intros [curr s2]. unfold store_batch. case_decide; [|done].
      apply in_fuel_bind; [by in_fuel|]. intros b. apply in_fuel_bind; [by in_fuel|].
      intros logs. apply in_fuel_bind; [|done]. apply in_fuel_foldM. intros s3 log.
      unfold store_log. apply in_fuel_bind; [by in_fuel|]. intros [[[??]?]?].
      apply in_fuel_bind; [by in_fuel|]. done.
    + intros [curr s2] st Hrun. unfold store_batch in Hrun. case_decide; [|done].
      apply bind_Ret in Hrun as (b & [-> _]%checked_add_inv & Hrun).
      apply expect_Ret in Hrun as (logs & _ & Hrun). apply bind_Ret in Hrun as (s3 & _ & [= <-]).
      cbn. case_decide; lia.
  - intros s2. unfold set_contract_cursor. apply in_fuel_bind; [by apply in_fuel_unwrap|].
    intros _. apply in_fuel_expect.
Qed.
End Properties.

(** ** Witnesses *)
Import RefRedis.

Definition sample_deployment : Deployment :=
  {| source_chain_name := "TURING"; contract_chain_id := 1; contract_address := [65; 66];
     cursor_start_block := 100 |}.

(** One log at block 105, of either signature; its data holds a tag. *)
Definition sample_emits (signature : string) (_ : Deployment) (b : U64) : list (string * bytes) :=
  if decide (b = 105) then [(signature, [1])] else [].
Definition sample_event : commitment := (10, 20, replicate 32 7, replicate 32 8).
#[local] Instance sample_abi : Abi :=
  {| abi_decode_commitment l := if decide (l = [1]) then Some sample_event else None |}.

Lemma sample_emits_inv signature d b l :
  l ∈ sample_emits signature d b → l = (signature, [1]).
Proof.
  unfold sample_emits. destruct (decide (b = 105)).
  - by intros ->%list_elem_of_singleton.
  - by intros ?%elem_of_nil.
Qed.

(** An environment in which every variable is a URL that every client takes. *)
#[local] Instance sample_environment : Environment := {| env_var _ := Some "http" |}.
#[local] Instance sample_clients : Clients := {|
  avail_client_new _ := true;
  redis_client_open _ := true;
  provider_try_from _ := true;
  parse_address _ := Some [65; 66];
  wallet_from_str _ := None;
|}.

(** A provider whose chain is at block [current]. *)
Definition sample_ethereum (emitted_signature : string) (current : U64) : Ethereum := {|
  get_chainid _ := Some 1;
  get_block_number _ := Some current;
  get_logs _ _ signature a b :=
    Some (filtered (sample_emits emitted_signature) sample_deployment signature a b);
|}.

Lemma sample_serves signature current :
  serves_events (sample_emits signature) (sample_ethereum signature current) sample_deployment.
Proof. split; [done|]. by intros url cur sig a b logs _ _ _ [= <-]. Qed.

Lemma sample_rounds_serve signature R d :
  R ∈ [sample_ethereum signature 103; sample_ethereum signature 160] → d ∈ [sample_deployment] →
  serves_events (sample_emits signature) R d.
Proof.
  intros HR ->%list_elem_of_singleton.
  repeat (apply elem_of_cons in HR as [->|HR]; [apply sample_serves|]). by apply elem_of_nil in HR.
Qed.

Lemma sample_own_cursors : own_cursors [sample_deployment].
Proof. by intros d d' ->%list_elem_of_singleton ->%list_elem_of_singleton _. Qed.

(** Two rounds, at blocks 103 and 160. *)
Definition indexed_twice (signature : string) : outcome db :=
  index_rounds [sample_deployment]
    [sample_ethereum signature 103; sample_ethereum signature 160] RefRedis.empty.
Definition or_empty (o : outcome db) : db :=
  match o with Ret s => s | _ => RefRedis.empty end.
Definition indexed_store2 : db := or_empty (indexed_twice event_signature).

Lemma events_indexed_to_cursor_witness :
  get (deployment_cursor sample_deployment) indexed_store2 = Some 160
  ∧ stored_log sample_deployment indexed_store2 [1].
Proof.
  split; [vm_compute; reflexivity|].
  refine (events_indexed_to_cursor (sample_emits event_signature) [sample_deployment]
    [sample_ethereum event_signature 103; sample_ethereum event_signature 160] empty indexed_store2
    _ sample_own_cursors (sample_rounds_serve event_signature) _ _
    sample_deployment _ 160 _ 105 [1] _ _).
  - intros e e' (d & b & l & Hl & He) (d' & b' & l' & Hl' & He') _.
    apply sample_emits_inv in Hl, Hl'. injection Hl as ->. injection Hl' as ->.
    rewrite He in He'. by injection He' as <-.
  - intros d _ cursor Hc. vm_compute in Hc. discriminate.
  - vm_compute. reflexivity.
  - by left.
  - vm_compute. reflexivity.
  - split; by_decide.
  - by left.
Defined.

(** With the signature of the contract, the cursor is at 160 and nothing is stored. *)
Definition missed_store : db := or_empty (indexed_twice contract_event_signature).

Lemma contract_events_missed_witness :
  same_ranges empty missed_store
  ∧ ∀ d, d ∈ [sample_deployment] →
      cursor_caught_up (sample_ethereum contract_event_signature 160) d missed_store.
Proof.
  apply (contract_events_missed (sample_emits contract_event_signature) [sample_deployment]
    [sample_ethereum contract_event_signature 103] (sample_ethereum contract_event_signature 160)
    empty missed_store).
  - exact sample_own_cursors.
  - apply sample_rounds_serve.
  - intros d _ b l Hl. by apply sample_emits_inv in Hl as ->.
  - vm_compute. reflexivity.
Defined.
