(* ===== verification/Tools.v ===== *)
(** * The command line tools: bin/fill_block_range.rs and bin/genesis.rs

    [get_block_range_data] collects what the guardian posts to move the contract
    over many ranges at once, and [genesis] the parameters that the contract
    starts from. *)

From stdpp Require Import gmap sorting.
From S2P Require Import Prelude Consts Vars Builder Reference Decoder Offchain Justification.
From S2P Require Import Rotate Subchain Types Redis Fetcher Hints Circuits Contract.

(** ** Filling a range of blocks *)
Record BlockRangeData := {
  start_blocks : list U32;
  end_blocks : list U32;
  header_hashes : list Bytes32;
  data_root_commitments : list Bytes32;
  state_root_commitments : list Bytes32;
  end_authority_set_id : U64;
  end_authority_set_hash : Bytes32;
}.

(** [(start..stop).step_by(step)]; a step of zero panics. *)
Definition step_by (start stop : U32) (step : Z) : outcome (list U32) :=
  _ ← assert (bool_decide (step ≠ 0)) "assertion failed: step != 0";
  Ret (map (λ i, start + step * i) (seqZ 0 ((stop - start + step - 1) / step))).

(** The five vectors that the loop pushes to. *)
Abbreviation vectors :=
  (list U32 * list U32 * list Bytes32 * list Bytes32 * list Bytes32)%type (only parsing).

Section Operations.
Context `{Hashing, AvailNode}.

Definition try_into_32 (l : bytes) : outcome Bytes32 :=
  _ ← assert (bool_decide (length l = 32%nat)) "called `Result::unwrap()` on an `Err` value";
  Ret l.

(** One iteration of the loop of [get_block_range_data]. *)
Definition push_range (header_range_commitment_tree_size : U32) (end_block : U32)
    (acc : vectors) (i : U32) : outcome vectors :=
  let '(starts, ends, headers, datas, states) := acc in
  next ← checked_add 32 i header_range_commitment_tree_size;
  let block_range_end := Z.min next end_block in
  header ← get_header block_range_end;
  '(state_root_commitment, data_root_commitment) ←
    get_merkle_root_commitments header_range_commitment_tree_size i block_range_end;
  data_root_commitment ← try_into_32 data_root_commitment;
  state_root_commitment ← try_into_32 state_root_commitment;
  Ret (starts ++ [i], ends ++ [block_range_end], headers ++ [hash header],
       datas ++ [data_root_commitment], states ++ [state_root_commitment]).

Definition get_block_range_data (header_range_commitment_tree_size start_block end_block : U32)
    : outcome BlockRangeData :=
  blocks ← step_by start_block end_block header_range_commitment_tree_size;
  '(starts, ends, headers, datas, states) ←
    foldM (push_range header_range_commitment_tree_size end_block) blocks ([], [], [], [], []);
  end_authority_set_id ← get_authority_set_id end_block;
  end_authority_set_hash ← fetch_authority_set_hash end_block;
  Ret {| start_blocks := starts; end_blocks := ends; header_hashes := headers;
         data_root_commitments := datas; state_root_commitments := states;
         end_authority_set_id := end_authority_set_id;
         end_authority_set_hash := end_authority_set_hash |}.

(** ** Genesis parameters: height, header hash, authority set id and hash *)
Definition genesis (block : option U32) : outcome (U32 * Bytes32 * U64 * Bytes32) :=
  header ← match block with
           | Some block => get_header block
           | None => get_head
           end;
  authority_set_id ← get_authority_set_id (number header);
  authority_set_hash ← fetch_authority_set_hash (number header);
  Ret (number header, hash header, authority_set_id, authority_set_hash).
End Operations.

(** ** Helper lemmas *)
Section Served.
Context `{!Hashing, !HashingLaws, DummyValues, AvailNode}.
Context (L : nat) (c : chain) (Hc : serves c) (Hf : chain_format L c).

(** The roots of the headers after [a], up to [b], in a tree of depth [d]. *)
Definition range_root (root : AvailHeader → Bytes32) (d : nat) (a b : U32) : Bytes32 :=
  merkle_root d (padded (2 ^ d)%nat (map root (map (header_at c) (seqZ (a + 1) (b - a))))).

Lemma length_merkle_root d l :
  length l = (2 ^ d)%nat → Forall (λ x : bytes, length x = 32%nat) l →
  length (merkle_root d l) = 32%nat.
Proof.
  intros Hl Hall. destruct d as [|d]; cbn [merkle_root]; [|apply length_Sha256].
  destruct l as [|x [|y l]]; simpl in Hl; try lia. by inversion Hall.
Qed.

Lemma length_range_root root d a b :
  (∀ h, header_format h → length (root h) = 32%nat) → 0 ≤ a ≤ b → b ≤ ch_head c →
  b - a ≤ 2 ^ Z.of_nat d → length (range_root root d a b) = 32%nat.
Proof.
  intros Hroot Hab Hb Hd. apply length_merkle_root.
  - apply length_padded. rewrite !length_map, length_seqZ. apply Nat2Z.inj_le.
    rewrite Nat2Z.inj_pow, Z2Nat.id by lia. lia.
  - unfold padded. apply Forall_app. split.
    + apply Forall_forall. intros x (h & -> & (n & -> & Hn%elem_of_seqZ)%list_elem_of_fmap)%list_elem_of_fmap.
      apply Hroot, (cf_header L c Hf). lia.
    + apply Forall_replicate. done.
Qed.

(** The end of the range that starts at [i]. *)
Definition range_end (d : nat) (stop i : U32) : U32 := Z.min (i + 2 ^ Z.of_nat d) stop.

Lemma try_into_32_run l : length l = 32%nat → try_into_32 l = Ret l.
Proof. intros. unfold try_into_32. by rewrite bool_decide_eq_true_2. Qed.

Lemma pow_31 d : (d < 31)%nat → 0 < 2 ^ Z.of_nat d ≤ 2 ^ 30.
Proof. intros. split; [lia|]. apply Z.pow_le_mono_r; lia. Qed.

Lemma push_range_run d stop i ss es hs ds rs :
  (d < 31)%nat → 0 ≤ i < stop → stop ≤ ch_head c →
  push_range (2 ^ Z.of_nat d) stop (ss, es, hs, ds, rs) i
  = Ret (ss ++ [i], es ++ [range_end d stop i], hs ++ [hash (header_at c (range_end d stop i))],
         ds ++ [range_root av_data_root d i (range_end d stop i)],
         rs ++ [range_root av_state_root d i (range_end d stop i)]).
Proof.
  intros Hd Hi Hstop. pose proof (sv_range c Hc). pose proof (pow_31 d Hd).
  unfold push_range. rewrite checked_add_Ret by lia. cbn [mbind outcome_bind].
  fold (range_end d stop i).
  assert (i < range_end d stop i ≤ stop ∧ range_end d stop i - i ≤ 2 ^ Z.of_nat d) as [He Hfit]
    by (unfold range_end; lia).
  rewrite (get_header_run c Hc) by lia. cbn [mbind outcome_bind].
  rewrite (get_merkle_root_commitments_run c Hc d) by lia. cbn [mbind outcome_bind].
  fold (range_root av_state_root d i (range_end d stop i)).
  fold (range_root av_data_root d i (range_end d stop i)).
  rewrite (try_into_32_run (range_root av_data_root _ _ _)), (try_into_32_run
    (range_root av_state_root _ _ _)).
  - done.
  - apply length_range_root; try lia. apply hf_state_root.
  - apply length_range_root; try lia. apply hf_data_root.
Qed.

Lemma push_ranges_run d stop l ss es hs ds rs :
  (d < 31)%nat → (∀ i, i ∈ l → 0 ≤ i < stop) → stop ≤ ch_head c →
  foldM (push_range (2 ^ Z.of_nat d) stop) l (ss, es, hs, ds, rs)
  = Ret (ss ++ l, es ++ map (range_end d stop) l,
         hs ++ map (λ i, hash (header_at c (range_end d stop i))) l,
         ds ++ map (λ i, range_root av_data_root d i (range_end d stop i)) l,
         rs ++ map (λ i, range_root av_state_root d i (range_end d stop i)) l).
Proof.
  intros Hd Hl Hstop. revert ss es hs ds rs Hl.
  induction l as [|i l IH]; intros ss es hs ds rs Hl; cbn [foldM map]; [by rewrite !app_nil_r|].
  rewrite push_range_run by (try done; apply Hl; by left). cbn [mbind outcome_bind].
  rewrite IH by (intros; apply Hl; by right). by rewrite <- !app_assoc.
Qed.

(** The starts of the ranges. *)
Definition range_starts (d : nat) (start stop : U32) : list U32 :=
  map (λ i, start + 2 ^ Z.of_nat d * i)
    (seqZ 0 ((stop - start + 2 ^ Z.of_nat d - 1) / 2 ^ Z.of_nat d)).

Definition filled (d : nat) (start stop : U32) : BlockRangeData :=
  let l := range_starts d start stop in {|
  start_blocks := l;
  end_blocks := map (range_end d stop) l;
  header_hashes := map (λ i, hash (header_at c (range_end d stop i))) l;
  data_root_commitments := map (λ i, range_root av_data_root d i (range_end d stop i)) l;
  state_root_commitments := map (λ i, range_root av_state_root d i (range_end d stop i)) l;
  end_authority_set_id := set_id c stop;
  end_authority_set_hash := compute_authority_set_hash (authorities_of c stop) |}.

Lemma range_starts_lookup d start stop i x :
  0 ≤ start < stop → range_starts d start stop !! i = Some x →
  x = start + 2 ^ Z.of_nat d * Z.of_nat i ∧ start ≤ x < stop.
Proof.
  unfold range_starts. rewrite lookup_map. intros Hs (j & Hj & ->)%fmap_Some.
  apply lookup_seqZ in Hj as [-> Hi]. rewrite Z.add_0_l. split; [done|].
  set (k := 2 ^ Z.of_nat d) in *. assert (0 < k) by (unfold k; lia).
  assert (Z.of_nat i + 1 ≤ (stop - start + k - 1) / k) as Hle by lia.
  assert (k * ((stop - start + k - 1) / k) ≤ stop - start + k - 1) by (apply Z.mul_div_le; lia).
  nia.
Qed.

Lemma length_range_starts d start stop :
  Z.of_nat (length (range_starts d start stop)) =
  Z.max 0 ((stop - start + 2 ^ Z.of_nat d - 1) / 2 ^ Z.of_nat d).
Proof. unfold range_starts. rewrite length_map, length_seqZ. lia. Qed.

Lemma fetch_hash_run n :
  0 ≤ n ≤ ch_head c → authorities_of c n ≠ [] →
  fetch_authority_set_hash n = Ret (compute_authority_set_hash (authorities_of c n)).
Proof.
  intros Hn Hne. unfold fetch_authority_set_hash. rewrite (get_authorities_run c Hc) by done.
  cbn [mbind outcome_bind]. rewrite bool_decide_eq_true_2; [done|].
  by rewrite length_authority_set_hash, decide_False.
Qed.

Lemma get_block_range_data_run d start stop :
  (d < 31)%nat → 0 ≤ start < stop → stop ≤ ch_head c → authorities_of c stop ≠ [] →
  get_block_range_data (2 ^ Z.of_nat d) start stop = Ret (filled d start stop).
Proof.
  intros Hd Hs Hstop Hne. pose proof (pow_31 d Hd). unfold get_block_range_data, step_by.
  rewrite bool_decide_eq_true_2 by lia. cbn [assert mbind outcome_bind].
  fold (range_starts d start stop). rewrite push_ranges_run; [|done| |done].
  2: { intros x [i Hi]%list_elem_of_lookup_1. apply range_starts_lookup in Hi; lia. }
  cbn [mbind outcome_bind app]. rewrite (get_authority_set_id_run c Hc) by lia.
  cbn [mbind outcome_bind]. by rewrite fetch_hash_run by (done || lia).
Qed.
End Served.

(** ** The tool's data in the contract *)
Section Posted.
Context `{!Hashing, !HashingLaws, DummyValues, AvailNode, Chain}.
Context (L : nat) (c : chain) (Hc : serves c) (Hf : chain_format L c).
Context (d : nat) (start stop : U32) (Hd : (d < 31)%nat) (Hs : 0 ≤ start < stop).
Context (Hstop : stop ≤ ch_head c).
Let data := filled c d start stop.

Lemma starts_facts i x :
  start_blocks data !! i = Some x → x = start + 2 ^ Z.of_nat d * Z.of_nat i ∧ start ≤ x < stop.
Proof. by apply range_starts_lookup. Qed.

Lemma starts_nonempty : (0 < length (start_blocks data))%nat.
Proof.
  pose proof (pow_31 d Hd). pose proof (length_range_starts d start stop) as Hl.
  change (range_starts d start stop) with (start_blocks data) in Hl.
  assert (1 ≤ (stop - start + 2 ^ Z.of_nat d - 1) / 2 ^ Z.of_nat d)
    by (apply Z.div_le_lower_bound; lia). lia.
Qed.

(** The last range is the one that reaches [stop]. *)
Lemma last_start :
  let k := 2 ^ Z.of_nat d in
  stop ≤ start + k * (Z.of_nat (length (start_blocks data) - 1)) + k.
Proof.
  pose proof (pow_31 d Hd). pose proof (length_range_starts d start stop) as Hl.
  change (range_starts d start stop) with (start_blocks data) in Hl.
  pose proof starts_nonempty. cbv zeta. set (k := 2 ^ Z.of_nat d) in *.
  assert (stop - start ≤ k * ((stop - start + k - 1) / k)).
  { pose proof (Z.div_mod (stop - start + k - 1) k ltac:(lia)).
    pose proof (Z.mod_pos_bound (stop - start + k - 1) k ltac:(lia)). lia. }
  nia.
Qed.

Lemma starts_total i :
  (i < length (start_blocks data))%nat →
  start_blocks data !!! i = start + 2 ^ Z.of_nat d * Z.of_nat i
  ∧ end_blocks data !!! i = range_end d stop (start + 2 ^ Z.of_nat d * Z.of_nat i)
  ∧ start ≤ start + 2 ^ Z.of_nat d * Z.of_nat i < stop.
Proof.
  intros [x Hx]%lookup_lt_is_Some_2. destruct (starts_facts i x Hx) as [-> ?].
  split_and!; [by apply list_lookup_total_correct| |lia..].
  apply list_lookup_total_correct. cbn. rewrite lookup_map.
  change (range_starts d start stop) with (start_blocks data). by rewrite Hx.
Qed.

Lemma posted_guards sender s :
  is_guardian sender = true → latestBlock s = start →
  bulk_guards (start_blocks data) (end_blocks data) (header_hashes data)
    (data_root_commitments data) (state_root_commitments data) sender s.
Proof.
  intros Hg Hl. pose proof starts_nonempty as Hne. pose proof (pow_31 d Hd). split.
  - done.
  - done.
  - cbn. by rewrite !length_map.
  - destruct (starts_total 0 Hne) as [-> _]. rewrite Hl. lia.
  - apply Forall_forall. intros i _ Hi. destruct (starts_total i) as (_ & -> & _); [lia|].
    destruct (starts_total (S i)) as (-> & _ & ?); [lia|]. unfold range_end. lia.
Qed.

Lemma posted_ends_nodup : NoDup (end_blocks data).
Proof.
  pose proof (pow_31 d Hd). apply NoDup_alt. intros i j x Hi Hj.
  assert (length (end_blocks data) = length (start_blocks data)) as Hl by by (cbn; rewrite !length_map).
  pose proof (lookup_lt_Some _ _ _ Hi). pose proof (lookup_lt_Some _ _ _ Hj).
  apply list_lookup_total_correct in Hi, Hj.
  destruct (starts_total i) as (_ & Ei & Hbi); [lia|]. destruct (starts_total j) as (_ & Ej & Hbj); [lia|].
  rewrite Ei in Hi. rewrite Ej in Hj. unfold range_end in Hi, Hj.
  set (k := 2 ^ Z.of_nat d) in *.
  assert (∀ i j, (i < j)%nat → k * Z.of_nat i + k ≤ k * Z.of_nat j) as Hstep by (intros; nia).
  pose proof (Hstep i j). pose proof (Hstep j i). lia.
Qed.

Lemma posted_u32 : Forall is_u32 (start_blocks data) ∧ Forall is_u32 (end_blocks data).
Proof.
  pose proof (sv_range c Hc). pose proof (pow_31 d Hd).
  assert (∀ x, x ∈ start_blocks data → start ≤ x < stop) as Hx
    by (intros x [i Hi]%list_elem_of_lookup_1; apply starts_facts in Hi; lia).
  split; apply Forall_forall.
  - intros x ?%Hx. unfold is_u32. lia.
  - intros x (y & -> & Hy)%list_elem_of_fmap. apply Hx in Hy. unfold is_u32, range_end. lia.
Qed.
End Posted.

(** ** The genesis parameters *)
Section Genesis.
Context `{!Hashing, !HashingLaws, DummyValues, AvailNode}.
Context (c : chain) (Hc : serves c).

Lemma genesis_run block :
  let n := default (ch_head c) block in
  0 ≤ n ≤ ch_head c → authorities_of c n ≠ [] →
  genesis block = Ret (n, hash (header_at c n), set_id c n,
                       compute_authority_set_hash (authorities_of c n)).
Proof.
  intros n Hn Hne. unfold genesis.
  assert (match block with Some b => get_header b | None => get_head end = Ret (header_at c n)) as ->.
  { destruct block; cbn in n; [by apply (get_header_run c Hc)|by apply (get_head_run c Hc)]. }
  cbn [mbind outcome_bind]. rewrite (sv_number c Hc) by done.
  rewrite (get_authority_set_id_run c Hc) by done. cbn [mbind outcome_bind].
  by rewrite (fetch_hash_run c Hc).
Qed.
End Genesis.

(** ** The tool against the contract *)
Section Filled.
Context `{!Hashing, !HashingLaws, DummyValues, AvailNode, Chain}.

(** The tool's data posted by the guardian. *)
Lemma fill_posted L c d stop sender s :
  serves c → chain_format L c → (d < 31)%nat → 0 ≤ latestBlock s < stop → stop ≤ ch_head c →
  authorities_of c stop ≠ [] → is_guardian sender = true → keys_distinct →
  ∃ data s' evs,
    get_block_range_data (2 ^ Z.of_nat d) (latestBlock s) stop = Ret data
    ∧ updateBlockRangeData sender (start_blocks data) (end_blocks data) (header_hashes data)
        (data_root_commitments data) (state_root_commitments data) (end_authority_set_id data)
        (end_authority_set_hash data) s = inr (s', evs)
    ∧ latestBlock s' = stop ∧ latestAuthoritySetId s' = set_id c stop
    ∧ authoritySetIdToHash s' !! set_id c stop
      = Some (compute_authority_set_hash (authorities_of c stop))
    ∧ ∀ i, let a := latestBlock s + 2 ^ Z.of_nat d * Z.of_nat i in let b := range_end d stop a in
        a < stop →
        blockHeightToHeaderHash s' !! b = Some (hash (header_at c b))
        ∧ dataRootCommitments s' !! range_key a b = Some (range_root c av_data_root d a b)
        ∧ stateRootCommitments s' !! range_key a b = Some (range_root c av_state_root d a b).
Proof.
  intros Hc Hf Hd Hs Hstop Hne Hg Hk. set (start := latestBlock s) in *.
  pose proof (pow_31 d Hd). set (data := filled c d start stop).
  pose proof (posted_guards c d start stop Hd Hs sender s Hg eq_refl) as Hbg. fold data in Hbg.
  destruct (posted_u32 c Hc d start stop Hd Hs Hstop) as [Hss Hes].
  assert (∃ s' evs, updateBlockRangeData sender (start_blocks data) (end_blocks data)
    (header_hashes data) (data_root_commitments data) (state_root_commitments data)
    (end_authority_set_id data) (end_authority_set_hash data) s = inr (s', evs))
    as (s' & evs & Hrun) by (eexists _, _; by apply updateBlockRangeData_run).
  exists data, s', evs. split; [by apply (get_block_range_data_run L)|]. split; [done|].
  destruct (bulk_stores (start_blocks data) (end_blocks data) (header_hashes data)
    (data_root_commitments data) (state_root_commitments data) sender (end_authority_set_id data)
    (end_authority_set_hash data) s s' evs Hk Hss Hes (posted_ends_nodup c d start stop Hd Hs)
    Hrun) as (_ & Hlast & Hid & Hhash & Hall & _).
  pose proof (starts_nonempty c d start stop Hd Hs) as Hn. fold data in Hn.
  pose proof (last_start c d start stop Hd Hs) as Hreach. cbv zeta in Hreach. fold data in Hreach.
  split_and!; [|exact Hid|exact Hhash|].
  - rewrite Hlast. destruct (starts_total c d start stop Hd Hs (length (start_blocks data) - 1))
      as (_ & Hend & _); [fold data; lia|]. fold data in Hend. rewrite Hend. unfold range_end. lia.
  - intros i a b Ha.
    assert (i < length (start_blocks data))%nat as Hi by (unfold a in Ha; nia).
    destruct (starts_total c d start stop Hd Hs i Hi) as (Ea & Eb & _).
    fold data a in Ea, Eb. fold b in Eb.
    assert (start_blocks data !! i = Some a) as Hla
      by (rewrite <- Ea; by apply list_lookup_lookup_total_lt).
    assert (∀ {V} `{Inhabited V} (f : Z → V), map f (start_blocks data) !!! i = f a) as Hmap
      by (intros V ? f; apply list_lookup_total_correct; by rewrite lookup_map, Hla).
    destruct (Hall i Hi) as (Eh & Ed & Es & _). rewrite Ea, Eb in *.
    split_and!; [rewrite Eh|rewrite Ed|rewrite Es]; f_equal; apply Hmap.
Qed.

End Filled.

(** ** Properties *)
Section Properties.
Context `{!Hashing, !HashingLaws, DummyValues, AvailNode, Chain}.

(** What the tool collects, the contract takes.  On a served chain
    [get_block_range_data] returns, for a tree of a power of two, and when the
    guardian posts its data the contract moves from its latest block to the end of
    the range; each of the ranges in between, of the size of the tree but for the
    last, has the chain's header hash and the roots of its headers stored. *)
Theorem fill_block_range_accepted L c d stop sender s :
  serves c → chain_format L c → (d < 31)%nat → 0 ≤ latestBlock s < stop → stop ≤ ch_head c →
  authorities_of c stop ≠ [] → is_guardian sender = true → keys_distinct →
  ∃ data s' evs,
    get_block_range_data (2 ^ Z.of_nat d) (latestBlock s) stop = Ret data
    ∧ updateBlockRangeData sender (start_blocks data) (end_blocks data) (header_hashes data)
        (data_root_commitments data) (state_root_commitments data) (end_authority_set_id data)
        (end_authority_set_hash data) s = inr (s', evs)
    ∧ latestBlock s' = stop ∧ latestAuthoritySetId s' = set_id c stop
    ∧ authoritySetIdToHash s' !! set_id c stop
      = Some (compute_authority_set_hash (authorities_of c stop))
    ∧ ∀ i, let a := latestBlock s + 2 ^ Z.of_nat d * Z.of_nat i in let b := range_end d stop a in
        a < stop →
        blockHeightToHeaderHash s' !! b = Some (hash (header_at c b))
        ∧ dataRootCommitments s' !! range_key a b = Some (range_root c av_data_root d a b)
        ∧ stateRootCommitments s' !! range_key a b = Some (range_root c av_state_root d a b).
Proof. apply fill_posted. Qed.

(** [genesis] prints the parameters of a block: its height and hash, the set
    that justifies the blocks after it, and the hash of that set's authorities;
    without a block, those of the finalized head. *)
Theorem genesis_spec c block :
  serves c → let n := default (ch_head c) block in
  0 ≤ n ≤ ch_head c → authorities_of c n ≠ [] →
  genesis block = Ret (n, hash (header_at c n), set_id c n,
                       compute_authority_set_hash (authorities_of c n)).
Proof.
  intros Hc n Hn Hne. by apply genesis_run.
Qed.
End Properties.

(** ** Witnesses *)
Import Ref RefNode RefRedis Sample.
#[local] Existing Instance sample_node.
#[local] Existing Instance Contract.sample_chain.

(** A contract at genesis of the sample chain. *)
Definition genesis_contract : state := initialize {|
  ip_guardian := 1; ip_gateway := 2; ip_height := 0;
  ip_header := hash (header_at (chain_of old_keys) 0); ip_authoritySetId := 0;
  ip_authoritySetHash := compute_authority_set_hash old_keys;
  ip_headerRangeFunctionId := replicate 32 6; ip_rotateFunctionId := replicate 32 7;
  ip_headerRangeCommitmentTreeSize := 2 |}.

(** With trees of two leaves, blocks 1 to 3 take two ranges. *)
Lemma fill_block_range_accepted_witness :
  ∃ data s' evs,
    get_block_range_data 2 0 3 = Ret data
    ∧ updateBlockRangeData 1 (start_blocks data) (end_blocks data) (header_hashes data)
        (data_root_commitments data) (state_root_commitments data) (end_authority_set_id data)
        (end_authority_set_hash data) genesis_contract = inr (s', evs)
    ∧ latestBlock s' = 3
    ∧ blockHeightToHeaderHash s' !! 2 = Some (hash (header_at (chain_of old_keys) 2)).
Proof.
  destruct (fill_block_range_accepted 400 (chain_of old_keys) 1 3 1 genesis_contract)
    as (data & s' & evs & Hdata & Hrun & Hlast & _ & _ & Hall); try by_decide.
  - apply chain_serves.
  - apply chain_formatted.
  - apply sample_keys_distinct.
  - exists data, s', evs. split_and!; [exact Hdata|exact Hrun|exact Hlast|].
    destruct (Hall 0%nat) as (Hh & _); [by_decide|]. exact Hh.
Defined.

Lemma genesis_spec_witness :
  genesis (Some 3) = Ret (3, hash (header_at (chain_of old_keys) 3), 1,
                          compute_authority_set_hash new_keys).
Proof.
  apply (genesis_spec (chain_of old_keys) (Some 3)); [apply chain_serves|by_decide|by_decide].
Defined.
