(* ===== verification/System.v ===== *)
(** * The light client as a whole

    The contract, the circuits that its gateway verifies, the chain they are about
    and the operator, together: what a public history of calls can make the
    contract believe, and that a request of the operator moves it forward. *)

From stdpp Require Import gmap.
From S2P Require Import Prelude Consts Vars Builder Reference Decoder Offchain Justification.
From S2P Require Import Rotate Subchain Types Redis Fetcher Hints Announcements Circuits.
From S2P Require Import Finality Indexer.
From S2P Require Import Operator Contract Tools.

(** ** What is assumed of the world *)
Section World.
Context `{CircuitBuilder, Hashing, DummyValues, AvailNode, Chain}.
Context (MA MAX : nat) (c : chain).

(** The data that provers have used: justifications, headers and rotations. *)
Record evidence := {
  ev_justification : Vars.Justification → Prop;
  ev_header : EncodedHeader → Prop;
  ev_rotation : Vars.Rotate → Prop;
}.

(** GRANDPA is safe for the sets of the chain: a justification that has been used
    and is signed by more than two thirds of a set of the chain is for a block of
    the chain, in the epoch of the set.  No second preimages of the chain's headers
    and authority sets have been used. *)
Record sound_evidence (E : evidence) : Prop := {
  so_keys j m : ev_justification E j → 0 ≤ m ≤ ch_head c →
    let keys := take (Z.to_nat (num_authorities j)) (pubkeys j) in
    compute_authority_set_hash keys = compute_authority_set_hash (authorities_of c m) →
    keys = authorities_of c m;
  so_final j n h round m : ev_justification E j → 0 ≤ m ≤ ch_head c → is_u32 n →
    encoded_precommit j = encode_precommit {| pc_block_hash := h; pc_block_number := n;
      pc_justification_round := round; pc_authority_set_id := set_id c m |} →
    supermajority_signed (authorities_of c m) (encoded_precommit j) (validator_signed j)
      (signatures j) →
    0 < n ≤ ch_head c ∧ h = hash (header_at c n) ∧ set_id c (n - 1) = set_id c m;
  so_header h n : ev_header E h → 0 ≤ n ≤ ch_head c →
    let bs := take (Z.to_nat (header_size h)) (header_bytes h) in
    blake2_256 bs = hash (header_at c n) → bs = encode (header_at c n);
}.

(** What provers can do beyond that, because the circuits let them.  They have used
    a justification whose votes the threshold does not count
    ([Justification.padding_slots_are_counted],
    [Justification.full_set_one_signature]), or a rotation at a block of the chain
    that reads its keys where the header has no GRANDPA log
    ([Rotate.log_in_padding_accepted]). *)
Inductive exploited (E : evidence) : Prop :=
  | Miscounted j : ev_justification E j → miscounted j → exploited E
  | Misread r :
      let n := epoch_end_block_number r in
      let h := target_header r in
      ev_rotation E r → 0 ≤ n ≤ ch_head c →
      take (Z.to_nat (header_size h)) (header_bytes h) = encode (header_at c n) →
      reads_log (header_at c n) (Z.to_nat (next_authority_set_start_position r)) = false →
      exploited E.

(** The gateway answers only for proofs of the circuits, made with hints from the
    evidence; the outputs come first in its answer. *)
Record sound_gateway (E : evidence) (g : address) (header_range_id rotate_id : Bytes32) : Prop := {
  sg_header_range t th id sh n out :
    is_u32 t → is_u32 n → is_u64 id → length th = 32%nat →
    verifiedCall g header_range_id (header_range_input t th id sh n) = Some out →
    ∃ hh jh h sr dr rest,
      HeaderRangeCircuit.define MA MAX hh jh t th id sh n = Some (h, sr, dr)
      ∧ subchain_bounds MAX hh t n ∧ (∀ hd, from_hint hh hd → ev_header E hd)
      ∧ justification_bounds MA (jh n id) ∧ ev_justification E (jh n id)
      ∧ length h = 32%nat ∧ length sr = 32%nat ∧ length dr = 32%nat
      ∧ out = h ++ sr ++ dr ++ rest;
  sg_rotate id sh out :
    is_u64 id → verifiedCall g rotate_id (rotate_input id sh) = Some out →
    ∃ rh jh new_hash rest, let r := rh id in
      RotateCircuit.define MA (MA * VALIDATOR_LENGTH + DELAY_LENGTH) rh jh id sh = Some new_hash
      ∧ is_u32 (epoch_end_block_number r) ∧ ev_rotation E r ∧ ev_header E (target_header r)
      ∧ rotate_bounds MA (target_header r) (next_authority_set_start_position r)
          (target_header_num_authorities r) (new_pubkeys r)
      ∧ 0 ≤ header_size (target_header r) ≤ Z.of_nat (length (header_bytes (target_header r)))
      ∧ justification_bounds MA (jh (epoch_end_block_number r) id)
      ∧ ev_justification E (jh (epoch_end_block_number r) id)
      ∧ length new_hash = 32%nat ∧ out = new_hash ++ rest;
}.

(** Everything that the contract stores is the chain's. *)
Record canonical (s : state) : Prop := {
  cn_block : 0 ≤ latestBlock s ≤ ch_head c;
  cn_headers n h : blockHeightToHeaderHash s !! n = Some h →
    0 ≤ n ≤ ch_head c ∧ h = hash (header_at c n);
  cn_sets id h : authoritySetIdToHash s !! id = Some h → h ≠ bytes32_0 →
    ∃ m, 0 ≤ m ≤ ch_head c ∧ set_id c m = id ∧ h = compute_authority_set_hash (authorities_of c m);
  cn_latest_set : latestAuthoritySetId s ≤ set_id c (latestBlock s);
  cn_data a b r : is_u32 a → is_u32 b → dataRootCommitments s !! range_key a b = Some r →
    r = range_root c av_data_root (3 + jobs_depth MAX) a b;
  cn_state a b r : is_u32 a → is_u32 b → stateRootCommitments s !! range_key a b = Some r →
    r = range_root c av_state_root (3 + jobs_depth MAX) a b;
}.
End World.

(** The authorities of a set stay the same while it is the current one. *)
Definition same_authorities `{AvailNode} (c : chain) : Prop :=
  ∀ m n, 0 ≤ m ≤ ch_head c → 0 ≤ n ≤ ch_head c → set_id c m = set_id c n →
    authorities_of c m = authorities_of c n.

(** ** Helper lemmas *)
Section Safety.
Context `{CircuitBuilderLaws, !HashingLaws, DummyValues, AvailNode, Chain}.
Context (L MA MAX : nat) (c : chain) (Hc : serves c) (He : epochs c) (Hf : chain_format L c).
Context (E : evidence) (HE : sound_evidence c E) (Han : announcing MA c) (Hlog : log_format).

(** A valid justification for a set of the chain is for a block of the chain, or
    its votes are not counted. *)
Lemma justified_canonical j n h m :
  ev_justification E j → justification_bounds MA j → 0 ≤ m ≤ ch_head c → is_u32 n →
  justification_valid j n h (set_id c m) (compute_authority_set_hash (authorities_of c m)) →
  exploited c E
  ∨ 0 < n ≤ ch_head c ∧ h = hash (header_at c n) ∧ set_id c (n - 1) = set_id c m.
Proof.
  intros Hj Hb Hm Hn Hv.
  destruct (decide (miscounted j)) as [Hmis|Hmis]; [left; by eapply Miscounted|right].
  pose proof (valid_supermajority MA j n h _ _ Hb Hv Hmis) as Hsup.
  rewrite (so_keys _ _ HE j m Hj Hm) in Hsup by (symmetry; apply (valid_commitment _ _ _ _ _ Hv)).
  destruct (valid_message _ _ _ _ _ Hv) as (round & _ & Hmsg).
  by apply (so_final _ _ HE j n h round m).
Qed.

Lemma served_long n : 0 ≤ n ≤ ch_head c → long (served_block L c n).
Proof.
  intros Hn. unfold long. cbn. pose proof (cf_header L c Hf n Hn) as Hh.
  destruct (hf_layout _ Hh) as (er & ext & -> & Her).
  rewrite !length_app, (hf_parent _ Hh), (hf_state_root _ Hh), (hf_data_root _ Hh).
  unfold MIN_HEADER_SIZE. consts. lia.
Qed.

(** Headers that link up to a block of the chain are the chain's. *)
Lemma linked_canonical trusted target used MR out :
  0 ≤ trusted < target → target ≤ ch_head c →
  Forall authentic used → Forall (λ b, ev_header E (bk_header b)) used →
  linked trusted (hash (header_at c trusted)) used → Z.of_nat (length used) = target - trusted →
  target_header_hash out = hash (header_at c target) →
  commits_to MR out (hash (header_at c trusted)) used →
  commits_to MR out (hash (header_at c trusted)) (served_chain L c trusted target).
Proof.
  intros Ht Htg Hau Hev Hl Hlen Hh Hct.
  assert (Forall authentic (served_chain L c trusted target)) as Has
    by (apply (served_chain_decodes L c Hf); lia).
  assert (linked trusted (hash (header_at c trusted)) (served_chain L c trusted target)) as Hls.
  { unfold served_chain. replace (target - trusted) with (Z.of_nat (Z.to_nat (target - trusted))) by lia.
    apply (served_linked L c Hc Hf); lia. }
  assert (last_hash (hash (header_at c trusted)) used
    = last_hash (hash (header_at c trusted)) (served_chain L c trusted target)) as Hlast.
  { rewrite (last_hash_served L c) by done. by rewrite <- Hh, (ct_target _ _ _ _ Hct). }
  destruct (chain_binding trusted (hash (header_at c trusted)) (hash (header_at c trusted)) used
    (served_chain L c trusted target)) as [Ef|(b1 & b2 & Hb1 & Hb2 & Hne & Hcol)]; try done.
  - apply Nat2Z.inj. rewrite Hlen, (length_served_chain L c). lia.
  - unfold served_chain. apply Forall_map, Forall_forall. intros n Hn%elem_of_seqZ.
    apply served_long. lia.
  - by apply (commits_to_fields _ _ _ used).
  - exfalso. apply Hne. unfold served_chain in Hb2. apply list_elem_of_fmap in Hb2 as (n & -> & Hn%elem_of_seqZ).
    rewrite Forall_forall in Hev. pose proof (cf_header L c Hf n ltac:(lia)) as Hhd.
    assert (preimage (served_block L c n) = encode (header_at c n)) as E2
      by (unfold preimage; cbn; by rewrite Nat2Z.id, take_app_length).
    rewrite E2. apply (so_header _ _ HE _ n); [by apply Hev|lia|].
    by rewrite (hf_hash _ Hhd), <- E2.
Qed.

(** The roots of the chain, as the contract's view names them. *)
Lemma served_roots trusted target MR out h :
  commits_to MR out h (served_chain L c trusted target) →
  state_root_merkle_root out = range_root c av_state_root (3 + jobs_depth MR) trusted target
  ∧ data_root_merkle_root out = range_root c av_data_root (3 + jobs_depth MR) trusted target.
Proof.
  intros [_ Hs Hd]. rewrite jobs_pow in Hs, Hd. rewrite Hs, Hd. unfold range_root, served_chain.
  by rewrite !map_map.
Qed.

(** *** The steps of a public history *)
Context (Hkeys : keys_distinct).
Context (g : address) (hr ro : Bytes32) (HG : sound_gateway MA MAX E g hr ro).

Lemma canonical_set s id :
  canonical MAX c s → at_bytes32 (authoritySetIdToHash s) id ≠ bytes32_0 →
  ∃ m, 0 ≤ m ≤ ch_head c ∧ set_id c m = id
    ∧ at_bytes32 (authoritySetIdToHash s) id = compute_authority_set_hash (authorities_of c m).
Proof.
  intros Hs Hne. unfold at_bytes32 in *.
  destruct (authoritySetIdToHash s !! id) as [h|] eqn:Eh; [|done].
  by apply (cn_sets _ _ _ Hs id h).
Qed.

Lemma canonical_header s :
  canonical MAX c s → at_bytes32 (blockHeightToHeaderHash s) (latestBlock s) ≠ bytes32_0 →
  at_bytes32 (blockHeightToHeaderHash s) (latestBlock s) = hash (header_at c (latestBlock s)).
Proof.
  intros Hs Hne. unfold at_bytes32 in *.
  destruct (blockHeightToHeaderHash s !! latestBlock s) as [h|] eqn:Eh; [|done].
  by apply (cn_headers _ _ _ Hs).
Qed.

Lemma committed_canonical s id target h sr dr :
  0 ≤ latestBlock s < target → target ≤ ch_head c → set_id c (target - 1) = id →
  h = hash (header_at c target) →
  sr = range_root c av_state_root (3 + jobs_depth MAX) (latestBlock s) target →
  dr = range_root c av_data_root (3 + jobs_depth MAX) (latestBlock s) target →
  canonical MAX c s → canonical MAX c (committed id target h sr dr s).
Proof.
  intros Ht Htg Hid Hh Hsr Hdr [Hb Hhd Hsets Hl Hd Hst]. pose proof (sv_range c Hc).
  assert (∀ a b, is_u32 a → is_u32 b → range_key (latestBlock s) target = range_key a b →
    latestBlock s = a ∧ target = b) as Hk.
  { intros a b Ha Hb' Ek. apply Hkeys; [unfold is_u32; lia|unfold is_u32; lia|done..]. }
  split; cbn.
  - lia.
  - intros n hn [[<- <-]|[_ Hn]]%lookup_insert_Some; [split; [lia|done]|by apply Hhd].
  - done.
  - rewrite <- Hid. apply (set_id_mono c He); lia.
  - intros a b r Ha Hb' [[Ek <-]|[_ Hr]]%lookup_insert_Some; [|by apply Hd].
    by destruct (Hk a b Ha Hb' Ek) as [<- <-].
  - intros a b r Ha Hb' [[Ek <-]|[_ Hr]]%lookup_insert_Some; [|by apply Hst].
    by destruct (Hk a b Ha Hb' Ek) as [<- <-].
Qed.

Lemma commit_canonical s id target h sr dr :
  gateway s = g → headerRangeFunctionId s = hr → is_u64 id → is_u32 target →
  commit_guards id target s → range_output s id target h sr dr →
  canonical MAX c s → exploited c E ∨ canonical MAX c (committed id target h sr dr s).
Proof.
  intros Hg Hhr Hid Htg [_ Hth Hset _ Hpast] [[rest Hcall] Hlh Hlsr Hldr] Hs.
  pose proof (cn_block _ _ _ Hs) as Hb. pose proof (sv_range c Hc).
  rewrite (canonical_header s Hs Hth) in Hcall.
  destruct (canonical_set s id Hs Hset) as (m & Hm & <- & Eset). rewrite Eset, Hg, Hhr in Hcall.
  destruct (sg_header_range _ _ _ _ _ _ HG (latestBlock s) (hash (header_at c (latestBlock s)))
    (set_id c m) (compute_authority_set_hash (authorities_of c m)) target (h ++ sr ++ dr ++ rest)
    ltac:(unfold is_u32; lia) Htg Hid)
    as (hh & jh & h' & sr' & dr' & rest' & Hdef & Hsb & Hhh & Hjb & Hj & Hlh' & Hlsr' & Hldr' & Eout);
    [rewrite (hf_hash _ (cf_header L c Hf _ Hb)); apply length_blake2_256|exact Hcall|].
  apply app_inj_1 in Eout as [<- Eout]; [|congruence].
  apply app_inj_1 in Eout as [<- Eout]; [|congruence].
  apply app_inj_1 in Eout as [<- _]; [|congruence].
  destruct (header_range_behind MA MAX hh jh (latestBlock s) (hash (header_at c (latestBlock s)))
    (set_id c m) (compute_authority_set_hash (authorities_of c m)) target h sr dr)
    as [(used & Hau & Hl & Hlen & Hct & Hin) Hv]; [done..|].
  destruct (justified_canonical _ _ _ m Hj Hjb Hm Htg Hv) as [Hex|(Hn & Eh & Esid)];
    [by left|right].
  apply (linked_canonical (latestBlock s) target) in Hct; try done; try lia.
  2: { apply (Forall_impl _ _ _ Hin). intros b. apply Hhh. }
  destruct (served_roots _ _ _ _ _ Hct) as [Esr Edr].
  apply committed_canonical; done || lia.
Qed.

Lemma stored_set_canonical s m h :
  0 ≤ m ≤ ch_head c → h = compute_authority_set_hash (authorities_of c m) →
  canonical MAX c s → canonical MAX c (store_authorities (set_id c m) h s).
Proof.
  intros Hm Eh [Hb Hhd Hsets Hl Hd Hst]. split; try done. cbn.
  intros i h' [[<- <-]|[_ Hi]]%lookup_insert_Some Hne; [by exists m|by apply Hsets].
Qed.

Lemma rotate_canonical s id new_hash rest :
  gateway s = g → rotateFunctionId s = ro → is_u64 id → rotate_guards id s →
  verifiedCall (gateway s) (rotateFunctionId s)
    (rotate_input id (at_bytes32 (authoritySetIdToHash s) id)) = Some (new_hash ++ rest) →
  length new_hash = 32%nat →
  canonical MAX c s → exploited c E ∨ canonical MAX c (store_authorities (id + 1) new_hash s).
Proof.
  intros Hg Hro Hid [_ Hset _ _] Hcall Hlen Hs.
  destruct (canonical_set s id Hs Hset) as (m & Hm & <- & Eset). rewrite Eset, Hg, Hro in Hcall.
  destruct (sg_rotate _ _ _ _ _ _ HG _ _ _ Hid Hcall)
    as (rh & jh & new_hash' & rest' & Hdef & Hn & Her & Hev & Hrb & Hsize & Hjb & Hj & Hlen' & Eout).
  apply app_inj_1 in Eout as [<- _]; [|congruence]. unfold RotateCircuit.define in Hdef.
  apply rotate_run in Hdef as (Hv & _ & (pos & Hprefix & Hat) & ->); [|done..].
  set (r := rh (set_id c m)) in *. set (n := epoch_end_block_number r) in *.
  destruct (justified_canonical _ _ _ m Hj Hjb Hm Hn Hv) as [Hex|(Hnb & Eh & Esid)]; [by left|].
  apply (so_header _ _ HE _ n Hev) in Eh; [|lia].
  destruct (reads_log (header_at c n) (Z.to_nat (next_authority_set_start_position r))) eqn:Hreads.
  2: { left. by apply (Misread c E r); [|lia|..]. }
  right. destruct (announced_rotation L MA c n _ _ _ _ _ _ Hlog Hf Han ltac:(lia)
    (rb_u8 _ _ _ _ _ Hrb) (rb_size _ _ _ _ _ Hrb) Eh Hreads (rb_keys _ _ _ _ _ Hrb)
    (rb_keys_length _ _ _ _ _ Hrb) Hprefix Hat) as [(_ & Enext & _) ->].
  rewrite Esid in Enext. rewrite <- Enext. by apply stored_set_canonical; [lia|..].
Qed.

(** The configuration stays, so that the gateway does. *)
Lemma history_canonical s s' :
  is_u32 (latestBlock s) → gateway s = g → headerRangeFunctionId s = hr → rotateFunctionId s = ro →
  rtc public_step s s' → canonical MAX c s → exploited c E ∨ canonical MAX c s'.
Proof.
  intros Hu Hg Hhr Hro Hst. induction Hst as [|s s1 s2 Hstep _ IH]; [by right|]. intros Hs.
  pose proof (public_step_u32 _ _ Hu Hstep) as Hu1.
  apply public_step_effect in Hstep as
    [->|[(id & target & h & sr & dr & Hid & Ht & Hgd & Ho & ->)|(id & h & rest & Hid & Hgd & Hcall & Hlen & ->)]].
  - by apply IH.
  - destruct (commit_canonical s id target h sr dr) as [Hex|Hs1]; [done..|by left|]. by apply IH.
  - destruct (rotate_canonical s id h rest) as [Hex|Hs1]; [done..|by left|]. by apply IH.
Qed.
End Safety.

(** ** The operator's view of the contract

    What the bindings of [abigen!] read from the contract in state [s]. *)
Definition view `{Chain} (s : state) : VectorX := {|
  header_range_function_id := Some (headerRangeFunctionId s);
  rotate_function_id := Some (rotateFunctionId s);
  latest_block := Some (latestBlock s);
  header_range_commitment_tree_size := Some (headerRangeCommitmentTreeSize s);
  block_height_to_header_hash n := Some (at_bytes32 (blockHeightToHeaderHash s) n);
  authority_set_id_to_hash id := Some (at_bytes32 (authoritySetIdToHash s) id);
  encode_commit_header_range id n := commitHeaderRange_selector ++ be_encode 32 id ++ be_encode 32 n;
  encode_rotate id := rotate_selector ++ be_encode 32 id;
  abi_encode_packed_header_range := header_range_input;
  abi_encode_packed_rotate := rotate_input;
|}.

(** The gateway serves what the circuit outputs, on the hints' headers and
    justifications, for the requests that the contract in state [s] allows. *)
Definition serves_proofs `{CircuitBuilder, AvailNode, Chain} (L MA MAX : nat)
    (jh : U32 → U64 → Vars.Justification) (s : state) : Prop :=
  ∀ id n h sr dr, is_u64 id → is_u32 n →
    let t := latestBlock s in
    let th := at_bytes32 (blockHeightToHeaderHash s) t in
    let sh := at_bytes32 (authoritySetIdToHash s) id in
    HeaderRangeCircuit.define MA MAX (range_hint L) jh t th id sh n = Some (h, sr, dr) →
    verifiedCall (gateway s) (headerRangeFunctionId s) (header_range_input t th id sh n)
    = Some (h ++ sr ++ dr).

(** ** A proved range in the contract *)
Section Commits.
Context `{CircuitBuilderLaws, !HashingLaws, DummyValues, AvailNode, Chain}.
Context (L MA MAX : nat) (c : chain) (Hc : serves c) (He : epochs c) (Hf : chain_format L c).
Context (HL : MIN_HEADER_SIZE ≤ Z.of_nat L) (Hk : keys_distinct).
Context (Hauth : same_authorities c).

(** The hash that the contract knows for a set is that of its authorities. *)
Lemma canonical_authorities s n :
  canonical MAX c s → 0 ≤ n ≤ ch_head c → at_bytes32 (authoritySetIdToHash s) (set_id c n) ≠ bytes32_0 →
  at_bytes32 (authoritySetIdToHash s) (set_id c n) = compute_authority_set_hash (authorities_of c n).
Proof.
  intros Hs Hn Hne. destruct (canonical_set MAX c s _ Hs Hne) as (m & Hm & Em & ->).
  by rewrite (Hauth m n).
Qed.

(** A range of the chain up to a justified block is committed, once the gateway
    answers with the outputs of the circuit. *)
Lemma range_commits jh s target :
  let cur := latestBlock s in let id := set_id c cur in
  canonical MAX c s → frozen s = false →
  at_bytes32 (blockHeightToHeaderHash s) cur ≠ bytes32_0 →
  at_bytes32 (authoritySetIdToHash s) id ≠ bytes32_0 →
  cur < target ≤ ch_head c → target ≤ cur + Z.of_nat (HEADERS_PER_MAP * jobs MAX) →
  cur + Z.of_nat (HEADERS_PER_MAP * jobs MAX) < 2 ^ 32 → set_id c (target - 1) = id →
  justification_bounds MA (jh target id) →
  justification_valid (jh target id) target (hash (header_at c target)) id
    (compute_authority_set_hash (authorities_of c cur)) →
  (∀ h sr dr, let th := at_bytes32 (blockHeightToHeaderHash s) cur in
     let sh := at_bytes32 (authoritySetIdToHash s) id in
     HeaderRangeCircuit.define MA MAX (range_hint L) jh cur th id sh target = Some (h, sr, dr) →
     verifiedCall (gateway s) (headerRangeFunctionId s) (header_range_input cur th id sh target)
     = Some (h ++ sr ++ dr)) →
  ∃ sr dr evs, let s' := committed id target (hash (header_at c target)) sr dr s in
    commitHeaderRange id target s = inr (s', evs) ∧ canonical MAX c s'.
Proof.
  intros cur id Hs Hfr Hth Hset Ht Hreach Hroom Hsid Hjb Hjv Hproofs.
  pose proof (cn_block _ _ _ Hs) as Hb. fold cur in Hb. pose proof (sv_range c Hc).
  rewrite (Hauth cur (target - 1)) in Hjv by lia.
  destruct (header_range_justified c Hc He L MA MAX jh cur target Hf HL)
    as (sr & dr & Hdef & Hct); [lia|lia|done|lia|by rewrite Hsid..|].
  destruct (served_roots L c cur target _ _ _ Hct) as [Esr Edr].
  cbn [state_root_merkle_root data_root_merkle_root] in Esr, Edr.
  assert (target - cur ≤ 2 ^ Z.of_nat (3 + jobs_depth MAX)) as Hfit
    by (rewrite jobs_pow, Nat2Z.inj_pow in Hreach; lia).
  pose proof (canonical_authorities s cur Hs Hb Hset) as Eset.
  rewrite (Hauth cur (target - 1)) in Eset by lia. rewrite Hsid in Hdef.
  pose proof (canonical_header MAX c s Hs Hth) as Ehd. fold cur in Ehd.
  rewrite <- Ehd, <- Eset in Hdef. apply Hproofs in Hdef as Hcall.
  exists sr, dr. eexists. split; [apply commitHeaderRange_run|].
  - split; [split; try done; [apply (cn_latest_set _ _ _ Hs)|lia]|].
    eexists _, _, _. split; [|done]. split.
    + exists []. by rewrite app_nil_r.
    + rewrite (hf_hash _ (cf_header L c Hf target ltac:(lia))). apply length_blake2_256.
    + rewrite Esr. apply (length_range_root L c Hf); try lia. apply hf_state_root.
    + rewrite Edr. apply (length_range_root L c Hf); try lia. apply hf_data_root.
  - apply (committed_canonical MAX c Hc He Hk); done || lia.
Qed.
End Commits.

(** ** Properties *)
Section Properties.
Context `{CircuitBuilderLaws, !HashingLaws, DummyValues, AvailNode, RedisServer, Chain}.
Context (L MAX : nat) (c : chain).

(** What the genesis tool prints is a canonical start. *)
Lemma genesis_canonical block params :
  serves c → 0 ≤ default (ch_head c) block ≤ ch_head c →
  authorities_of c (default (ch_head c) block) ≠ [] →
  genesis block = Ret (ip_height params, ip_header params, ip_authoritySetId params,
                       ip_authoritySetHash params) →
  canonical MAX c (initialize params).
Proof.
  intros Hc Hn Hne Hrun. set (n := default (ch_head c) block) in *.
  rewrite (genesis_run c Hc) in Hrun by done. fold n in Hrun. injection Hrun as En Eh Ei Ea.
  split; cbn; rewrite <- ?En, <- ?Eh, <- ?Ei, <- ?Ea.
  - done.
  - by intros m h [<- <-]%lookup_singleton_Some.
  - intros id h [<- <-]%lookup_singleton_Some _. by exists n.
  - done.
  - intros a b r _ _. by rewrite lookup_empty.
  - intros a b r _ _. by rewrite lookup_empty.
Qed.

(** C1: the light client is safe unless a prover exploits one of the circuits'
    gaps.  From a canonical state, whatever anyone but the guardian calls, in any
    order, every header hash that the contract stores is that of the chain's block
    at the height, every authority set hash that of the chain's set with the id, and
    the commitments are the roots of the chain's headers in the range; or else a
    proof was made with a justification whose votes the threshold does not count,
    or with a rotation that reads its keys where the chain's header has no GRANDPA
    log.  Assumed are a chain that announces its sets, which fit the circuit, in
    headers of the documented format; a gateway that answers only for proofs of the
    circuits; GRANDPA's safety; and that no second preimages, and no collisions of
    the contract's range keys, have been found. *)
Theorem light_client_safe MA E s s' :
  serves c → epochs c → chain_format L c → log_format → announcing MA c →
  sound_evidence c E →
  sound_gateway MA MAX E (gateway s) (headerRangeFunctionId s) (rotateFunctionId s) →
  keys_distinct → canonical MAX c s → rtc public_step s s' →
  canonical MAX c s' ∨ exploited c E.
Proof.
  intros Hc He Hf Hlog Ha HE HG Hk Hs Hst. pose proof (cn_block _ _ _ Hs). pose proof (sv_range c Hc).
  destruct (history_canonical L MA MAX c Hc He Hf E HE Ha Hlog Hk _ _ _ HG s s'); auto.
  unfold is_u32. lia.
Qed.

(** C4: a request of the operator moves the light client.  When the operator, who
    reads a canonical contract that knows the set of the next block, requests a
    range whose target is on the chain and justified, then the call that it attaches
    succeeds once the gateway serves the proof, moves the contract to the target,
    which is ahead, and leaves a canonical state. *)
Theorem requested_range_committed config dummy avail_chain_id MA jh interval st s rq :
  let size := Z.of_nat (HEADERS_PER_MAP * jobs MAX) in
  serves c → epochs c → chain_format L c → MIN_HEADER_SIZE ≤ Z.of_nat L → keys_distinct →
  canonical MAX c s → frozen s = false → 0 < latestBlock s → latestBlock s + size < 2 ^ 32 →
  headerRangeCommitmentTreeSize s = size →
  at_bytes32 (blockHeightToHeaderHash s) (latestBlock s) ≠ bytes32_0 →
  at_bytes32 (authoritySetIdToHash s) (set_id c (latestBlock s)) ≠ bytes32_0 →
  same_authorities c → 0 ≤ interval →
  find_and_request_header_range (H3 := view s) config dummy avail_chain_id interval st = Ret (Some rq) →
  (∀ target, good_target dummy avail_chain_id c (latestBlock s) size (set_id c (latestBlock s)) target st →
     let id := set_id c (latestBlock s) in
     target ≤ ch_head c ∧ justification_bounds MA (jh target id)
     ∧ justification_valid (jh target id) target (hash (header_at c target)) id
         (compute_authority_set_hash (authorities_of c (latestBlock s)))) →
  serves_proofs L MA MAX jh s →
  ∃ target s' evs, let id := set_id c (latestBlock s) in
    rq_function_data rq = commitHeaderRange_selector ++ be_encode 32 id ++ be_encode 32 target
    ∧ commitHeaderRange id target s = inr (s', evs)
    ∧ latestBlock s < target ∧ latestBlock s' = target ∧ canonical MAX c s'.
Proof.
  intros size Hc He Hf HL Hk Hs Hfr Hpos Hroom Hsize Hth Hset Hauth Hint Hrun Hjust Hproofs.
  pose proof (cn_block _ _ _ Hs) as Hb. pose proof (sv_range c Hc).
  destruct (header_range_request_run (H3 := view s) dummy avail_chain_id c Hc He config
    (latestBlock s) size interval st rq)
    as (target & th & sh & fid & Hgood & _ & _ & _ & _ & ->); [|done|done|].
  { split; [done|by cbn; rewrite Hsize|lia]. }
  destruct (Hjust target Hgood) as (Htg & Hjb & Hjv). pose proof Hgood as [Hahead Hreach Hsid _].
  specialize (Hsid Htg). pose proof (set_id_u64 c Hc He (latestBlock s) ltac:(lia)) as Hid.
  destruct (range_commits L MA MAX c Hc He Hf HL Hk Hauth jh s target)
    as (sr & dr & evs & Hcommit & Hcan); try done.
  - intros h sr dr th' sh'. apply Hproofs; [unfold is_u64; lia|unfold is_u32; lia].
  - exists target. by eexists _, evs.
Qed.
End Properties.

(** ** Witnesses *)
Import Ref RefNode RefRedis Sample.
#[local] Existing Instance sample_node.
#[local] Existing Instance sample_sp_core.

Abbreviation the_chain := (chain_of old_keys).
Definition header_range_id : Bytes32 := replicate 32 6.
Definition rotate_id : Bytes32 := replicate 32 7.
Definition block_hash (n : Z) : Bytes32 := hash (header_at the_chain n).
Definition old_set : Bytes32 := compute_authority_set_hash old_keys.
Definition new_set : Bytes32 := compute_authority_set_hash new_keys.

(** The proofs that have been made: of the range from genesis to the end of the
    first epoch, block 2, and of the rotation there. *)
Definition proof_headers (first last max : U32) : list EncodedHeader :=
  if decide (first = 1) then range_hint 400 1 8 2 else range_hint 400 9 16 2.
Definition proof_justification : U32 → U64 → Vars.Justification :=
  λ _ _, signed_by old_keys 2 0.
Definition proof_rotate : Vars.Rotate :=
  match RotateHint 400 3 0 with
  | Ret r => r
  | _ => {| epoch_end_block_number := 0; target_header := {| header_bytes := []; header_size := 0 |};
            target_header_num_authorities := 0; next_authority_set_start_position := 0;
            new_pubkeys := [] |}
  end.
Definition range_input : bytes := header_range_input 0 (block_hash 0) 0 old_set 2.
Definition range_state : Bytes32 := range_root the_chain av_state_root (3 + jobs_depth 16) 0 2.
Definition range_data : Bytes32 := range_root the_chain av_data_root (3 + jobs_depth 16) 0 2.

(** A gateway that knows these two proofs. *)
#[local] Instance proof_chain : Chain := {|
  verifiedCall _ id input :=
    if decide (id = header_range_id ∧ input = range_input)
    then Some (block_hash 2 ++ range_state ++ range_data)
    else if decide (id = rotate_id ∧ input = rotate_input 0 old_set) then Some new_set else None;
  requestCall _ _ _ _ := true;
  is_guardian a := bool_decide (a = 1);
  keccak256 l := l;
  commitHeaderRange_selector := [1; 2; 3; 4];
  rotate_selector := [5; 6; 7; 8];
|}.
Definition proof_evidence : evidence := {|
  ev_justification j := j = signed_by old_keys 2 0;
  ev_header h := h ∈ remove_dups (target_header proof_rotate
    :: range_hint 400 1 8 2 ++ range_hint 400 9 16 2);
  ev_rotation r := r = proof_rotate;
|}.

Lemma proof_range_run :
  HeaderRangeCircuit.define 3 16 proof_headers proof_justification 0 (block_hash 0) 0 old_set 2
  = Some (block_hash 2, range_state, range_data).
Proof. vm_compute. reflexivity. Qed.

Lemma proof_rotate_run :
  RotateCircuit.define 3 (3 * VALIDATOR_LENGTH + DELAY_LENGTH) (λ _, proof_rotate)
    proof_justification 0 old_set = Some new_set.
Proof. vm_compute. reflexivity. Qed.

Lemma proof_range_bounds : subchain_bounds 16 proof_headers 0 2.
Proof.
  assert (∀ i, (i < jobs 16)%nat → i = 0%nat ∨ i = 1%nat) as Hjobs
    by (intros i Hi; change (i < 2)%nat in Hi; lia).
  split; [by_decide..| |]; intros i [-> | ->]%Hjobs; by_decide.
Qed.

Lemma proof_rotate_bounds :
  rotate_bounds 3 (target_header proof_rotate) (next_authority_set_start_position proof_rotate)
    (target_header_num_authorities proof_rotate) (new_pubkeys proof_rotate).
Proof. split; by_decide. Qed.

Lemma proof_justification_bounds : justification_bounds 3 (signed_by old_keys 2 0).
Proof. split; try by_decide. split; by_decide. Qed.

(** *** The evidence is sound *)
Lemma below_head n : 0 ≤ n ≤ ch_head the_chain → n ∈ seqZ 0 5.
Proof. intros Hn. change (ch_head the_chain) with 4 in Hn. apply elem_of_seqZ. lia. Qed.

Ltac each_block n H := apply below_head in H; revert n H; refine (proj1 (Forall_forall _ _) _).

Lemma proof_evidence_sound : sound_evidence the_chain proof_evidence.
Proof.
  split.
  - intros ? m [= ->] Hm. cbv zeta. each_block m Hm. by_decide.
  - intros ? n h round m [= ->] Hm Hn E _. cbn [encoded_precommit signed_by] in E.
    apply (f_equal tail) in E. unfold encode_precommit in E.
    cbn [tail pc_block_hash pc_block_number pc_justification_round pc_authority_set_id] in E.
    apply app_inj_2 in E as [Eh E]; [|by rewrite !length_app, !length_le_encode].
    apply app_inj_1 in E as [En E]; [|by rewrite !length_le_encode].
    apply app_inj_1 in E as [_ Ei]; [|by rewrite !length_le_encode].
    apply (f_equal le_decode) in En, Ei. rewrite !le_decode_encode in En, Ei.
    rewrite (Z.mod_small n) in En by done. vm_compute in En. subst n h.
    revert Ei. each_block m Hm. by_decide.
  - intros h n Hh Hn. cbv zeta. revert h Hh. refine (proj1 (Forall_forall _ _) _).
    each_block n Hn. by_decide.
Qed.

(** The chain announces its sets, and the evidence exploits no gap. *)
Lemma the_chain_announces : announcing 3 the_chain.
Proof. split; intros n Hn; each_block n Hn; by_decide. Qed.

Lemma proof_evidence_fair : ¬ exploited the_chain proof_evidence.
Proof.
  intros [j Ej Hm|r n h Er _ _ Hr]; unfold ev_justification, ev_rotation, proof_evidence in *.
  - revert Hm. rewrite Ej. by_decide.
  - revert Hr. unfold n. rewrite Er. vm_compute. discriminate.
Qed.

Lemma header_range_input_inj t th id sh n t' th' id' sh' n' :
  is_u32 t → is_u32 t' → is_u64 id → is_u64 id' → is_u32 n → is_u32 n' → length th = length th' →
  header_range_input t th id sh n = header_range_input t' th' id' sh' n' →
  t = t' ∧ th = th' ∧ id = id' ∧ sh = sh' ∧ n = n'.
Proof.
  intros Ht Ht' Hid Hid' Hn Hn' Hth E. unfold header_range_input in E.
  apply app_inj_1 in E as [Et E]; [|by rewrite !length_be_encode].
  apply app_inj_1 in E as [-> E]; [|done].
  apply app_inj_1 in E as [Eid E]; [|by rewrite !length_be_encode].
  apply app_inj_2 in E as [-> En]; [|by rewrite !length_be_encode].
  apply be_encode_inj in Et as ->, Eid as ->, En as ->; done.
Qed.

Lemma rotate_input_inj id sh id' sh' :
  is_u64 id → is_u64 id' → rotate_input id sh = rotate_input id' sh' → id = id' ∧ sh = sh'.
Proof.
  intros Hid Hid' E. unfold rotate_input in E.
  apply app_inj_1 in E as [Eid ->]; [|by rewrite !length_be_encode].
  by apply be_encode_inj in Eid as ->.
Qed.

(** What the gateway answers, as an equivalence. *)
Lemma proof_gateway_answers g id input out :
  verifiedCall g id input = Some out ↔
  (id = header_range_id ∧ input = range_input ∧ out = block_hash 2 ++ range_state ++ range_data)
  ∨ (id = rotate_id ∧ input = rotate_input 0 old_set ∧ out = new_set).
Proof.
  cbn [verifiedCall proof_chain]. assert (header_range_id ≠ rotate_id) as Hne by by_decide.
  generalize dependent header_range_id. generalize dependent rotate_id.
  generalize range_input (rotate_input 0 old_set) (block_hash 2 ++ range_state ++ range_data) new_set.
  intros i o ans set a Ha b. split.
  - case_decide as E1; [intros [= <-]; left; by destruct E1|].
    case_decide as E2; [intros [= <-]; right; by destruct E2|done].
  - intros [(-> & -> & ->)|(-> & -> & ->)]; [by rewrite decide_True|].
    rewrite decide_False by (intros [? _]; congruence). by rewrite decide_True.
Qed.

Lemma proof_gateway_sound g : sound_gateway 3 16 proof_evidence g header_range_id rotate_id.
Proof.
  assert (header_range_id ≠ rotate_id) as Hne by by_decide. split.
  - intros t th id sh n out Ht Hn Hid Hth [(_ & E & ->)|[E _]]%proof_gateway_answers; [|done].
    apply header_range_input_inj in E as (-> & -> & -> & -> & ->);
      [|exact Ht|by_decide|exact Hid|by_decide|exact Hn|by_decide|rewrite Hth; by_decide].
    exists proof_headers, proof_justification, (block_hash 2), range_state, range_data, [].
    refine (conj proof_range_run (conj proof_range_bounds (conj _ (conj proof_justification_bounds
      (conj eq_refl (conj _ (conj _ (conj _ _)))))))); [|by_decide..|].
    + intros hd (first & last & max & Hhd). apply elem_of_remove_dups.
      right. apply elem_of_app. unfold proof_headers in Hhd. case_decide; [by left|by right].
    + by rewrite (app_nil_r range_data).
  - intros id sh out Hid [(E & _)|(_ & E & ->)]%proof_gateway_answers; [by symmetry in E|].
    apply rotate_input_inj in E as [-> ->]; [|exact Hid|by_decide].
    exists (λ _, proof_rotate), proof_justification, new_set, [].
    refine (conj proof_rotate_run (conj _ (conj eq_refl (conj _ (conj proof_rotate_bounds
      (conj _ (conj proof_justification_bounds (conj eq_refl (conj _ _))))))))).
    1, 3, 4: by_decide.
    + apply elem_of_remove_dups. by left.
    + by rewrite (app_nil_r new_set).
Qed.

(** *** A history *)
Definition genesis_params : InitParameters := {|
  ip_guardian := 1; ip_gateway := 2; ip_height := 0; ip_header := block_hash 0;
  ip_authoritySetId := 0; ip_authoritySetHash := old_set;
  ip_headerRangeFunctionId := header_range_id; ip_rotateFunctionId := rotate_id;
  ip_headerRangeCommitmentTreeSize := 16 |}.

(** Someone commits the first epoch, someone else rotates. *)
Definition second_epoch : state :=
  transact 9 (DoRotate 0) (transact 8 (CommitHeaderRange 0 2) (initialize genesis_params)).

Lemma second_epoch_reached : rtc public_step (initialize genesis_params) second_epoch.
Proof.
  eapply rtc_l; [exact (Public _ 8 (CommitHeaderRange 0 2) ltac:(split; by_decide) (or_introl eq_refl))|].
  eapply rtc_l; [exact (Public _ 9 (DoRotate 0) ltac:(by_decide) (or_introl eq_refl))|]. constructor.
Qed.

Lemma proof_keys_distinct : keys_distinct.
Proof. exact sample_keys_distinct. Qed.

Lemma genesis_is_canonical : canonical 16 the_chain (initialize genesis_params).
Proof.
  apply (genesis_canonical 16 the_chain (Some 0)); [apply chain_serves|by_decide|by_decide|].
  vm_compute. reflexivity.
Qed.

Lemma light_client_safe_witness :
  latestBlock second_epoch = 2 ∧ authoritySetIdToHash second_epoch !! 1 = Some new_set
  ∧ canonical 16 the_chain second_epoch.
Proof.
  split; [vm_compute; reflexivity|]. split; [vm_compute; reflexivity|].
  destruct (light_client_safe 400 16 the_chain 3 proof_evidence (initialize genesis_params) second_epoch)
    as [Hcan|Hex]; [..|exact Hcan|by destruct proof_evidence_fair].
  - apply chain_serves.
  - apply chain_epochs.
  - apply chain_formatted.
  - apply ref_log_format.
  - exact the_chain_announces.
  - exact proof_evidence_sound.
  - apply proof_gateway_sound.
  - exact proof_keys_distinct.
  - exact genesis_is_canonical.
  - exact second_epoch_reached.
Defined.

(** *** A request *)

(** A gateway that runs the circuit on the fields of the input. *)
Definition prove_range (MA : nat) (jh : U32 → U64 → Vars.Justification) (input : bytes) : option bytes :=
  let n := length input in
  '(h, sr, dr) ← HeaderRangeCircuit.define MA 16 (range_hint 400) jh (be_decode (take 4 input))
    input.[4 to 36] (be_decode input.[36 to 44]) input.[44 to n - 4] (be_decode (drop (n - 4) input));
  Some (h ++ sr ++ dr).

Lemma prove_range_fields MA jh t th id sh n :
  is_u32 t → length th = 32%nat → is_u64 id → is_u32 n →
  prove_range MA jh (header_range_input t th id sh n) =
  ('(h, sr, dr) ← HeaderRangeCircuit.define MA 16 (range_hint 400) jh t th id sh n;
   Some (h ++ sr ++ dr)).
Proof.
  intros Ht Hth Hid Hn. unfold prove_range, header_range_input. rewrite !length_app, !length_be_encode, Hth.
  replace (4 + (32 + (8 + (length sh + 4))) - 4)%nat with (44 + length sh)%nat by lia.
  rewrite take_app_length' by (by rewrite length_be_encode).
  rewrite (slice_at (be_encode 4 t) th) by (rewrite ?length_be_encode; lia).
  rewrite (app_assoc (be_encode 4 t) th).
  rewrite (slice_at (be_encode 4 t ++ th) (be_encode 8 id))
    by (rewrite ?length_app, ?length_be_encode; lia).
  rewrite (app_assoc (be_encode 4 t ++ th) (be_encode 8 id)).
  rewrite (slice_at ((be_encode 4 t ++ th) ++ be_encode 8 id) sh)
    by (rewrite ?length_app, ?length_be_encode; lia).
  rewrite (app_assoc _ sh), drop_app_length'
    by (rewrite ?length_app, ?length_be_encode; lia).
  by rewrite !be_decode_encode by done.
Qed.

Section Request.
#[local] Instance prover_chain : Chain := {|
  verifiedCall _ _ := prove_range 2 (signed_by new_keys);
  requestCall _ _ _ _ := true;
  is_guardian a := bool_decide (a = 1);
  keccak256 l := l;
  commitHeaderRange_selector := [1; 2; 3; 4];
  rotate_selector := [5; 6; 7; 8];
|}.

(** The contract at block 3, in the second epoch. *)
Definition contract3 : state := initialize {|
  ip_guardian := 1; ip_gateway := 2; ip_height := 3; ip_header := block_hash 3;
  ip_authoritySetId := 1; ip_authoritySetHash := new_set;
  ip_headerRangeFunctionId := header_range_id; ip_rotateFunctionId := rotate_id;
  ip_headerRangeCommitmentTreeSize := 16 |}.

Lemma contract3_canonical : canonical 16 the_chain contract3.
Proof.
  apply (genesis_canonical 16 the_chain (Some 3)); [apply chain_serves|by_decide|by_decide|].
  vm_compute. reflexivity.
Qed.

(** What the operator requests: the range up to block 4. *)
Definition request4 : Request := {|
  rq_chain_id := 5; rq_address := replicate 20 7;
  rq_function_data := [1; 2; 3; 4] ++ be_encode 32 1 ++ be_encode 32 4;
  rq_function_id := header_range_id;
  rq_input := header_range_input 3 (block_hash 3) 1 new_set 4 |}.

(** Block 4 is the only one with an indexed justification past block 3. *)
Lemma target4 target :
  good_target false "avail" the_chain 3 16 1 target (indexed_store sample_stream) → target = 4.
Proof.
  intros [Hahead Hreach _ [Hend|[cj Hcj]]]; [done|destruct Hend as (Hh & _)|].
  - change (ch_head the_chain) with 4 in Hh. lia.
  - assert (target ∈ seqZ 4 16) as Hin by (apply elem_of_seqZ; lia).
    assert (forallb (λ n, match get_justification_from_block "avail" MAX_AUTHORITY_SET_SIZE n
      (indexed_store sample_stream) with Ret _ => bool_decide (n = 4) | _ => true end) (seqZ 4 16)
      = true) as Hall by (vm_compute; reflexivity).
    rewrite forallb_forall in Hall. apply list_elem_of_In, Hall in Hin.
    change sample_node with (node_of old_keys) in Hin. rewrite Hcj in Hin.
    by apply bool_decide_eq_true in Hin.
Qed.

Lemma requested_range_committed_witness :
  ∃ target s' evs, let id := set_id the_chain 3 in
    rq_function_data request4 = commitHeaderRange_selector ++ be_encode 32 id ++ be_encode 32 target
    ∧ commitHeaderRange id target contract3 = inr (s', evs)
    ∧ 3 < target ∧ latestBlock s' = target ∧ canonical 16 the_chain s'.
Proof.
  apply (requested_range_committed 400 16 the_chain sample_config false "avail" 2
    (signed_by new_keys) 2 (indexed_store sample_stream) contract3 request4); try by_decide.
  - apply chain_serves.
  - apply chain_epochs.
  - apply chain_formatted.
  - exact sample_keys_distinct.
  - exact contract3_canonical.
  - intros m n Hm Hn. each_block n Hn. each_block m Hm. by_decide.
  - vm_compute. reflexivity.
  - intros target ->%target4. split; [by_decide|]. split.
    + split; try by_decide. split; by_decide.
    + split; [by_decide|by_decide|exists 9; split; [by_decide|reflexivity]| |by_decide].
      intros i s pk _. apply sign_all_verifies.
  - intros id n h sr dr Hid Hn t th sh Hdef. cbn [verifiedCall prover_chain].
    rewrite prove_range_fields; [|by_decide|by_decide|exact Hid|exact Hn].
    change sample_node with (node_of old_keys). fold t th sh. by rewrite Hdef.
Defined.
End Request.
