(* ===== verification/Progress.v ===== *)
(** * Progress: rounds of the operator bring the contract to the latest epoch

    The operator's rounds against the contract, with a gateway that proves what the
    circuits accept and calls the contract back.  Every round moves the contract
    while the chain is in a later epoch than the contract's next block. *)

From stdpp Require Import gmap.
From S2P Require Import Prelude Consts Vars Builder Reference Decoder Offchain Justification.
From S2P Require Import Rotate Subchain Types Redis Fetcher Hints Circuits Finality Indexer.
From S2P Require Import Operator Contract Tools System.

(** ** The contract's dispatcher

    The entry point of a calldata is found by its first four bytes; an integer that
    does not fit its type makes the call revert. *)
Section Dispatch.
Context `{Chain}.

Definition decode_call (data : bytes) : option call :=
  let args := drop 4 data in
  let id := be_decode args.[0 to 32] in
  let n := be_decode args.[32 to 64] in
  if decide (take 4 data = commitHeaderRange_selector) then
    if decide (64 ≤ length args ∧ is_u64 id ∧ is_u32 n)%nat
    then Some (CommitHeaderRange id n) else None
  else if decide (take 4 data = rotate_selector) then
    if decide (32 ≤ length args ∧ is_u64 id)%nat then Some (DoRotate id) else None
  else None.

(** A transaction with some calldata. *)
Definition deliver (sender : address) (s : state) (data : bytes) : state :=
  match decode_call data with
  | Some c => transact sender c s
  | None => s
  end.

Record selectors_distinct : Prop := {
  sl_commit : length commitHeaderRange_selector = 4%nat;
  sl_rotate : length rotate_selector = 4%nat;
  sl_distinct : commitHeaderRange_selector ≠ rotate_selector;
}.
End Dispatch.

(** ** Rounds *)
Section Rounds.
Context `{Hashing, DummyValues, AvailNode, RedisServer, Chain}.
Context (config : VectorXConfig) (is_dummy_operator : bool) (avail_chain_id : string).
Context (block_interval : U32) (relayer : address).

(** A round of [VectorXOperator::run], whose requests the gateway fulfils in order. *)
Definition operator_round (s : state) (st : store) : outcome state :=
  requests ← run_round (H3 := view s) config is_dummy_operator avail_chain_id block_interval st;
  Ret (foldl (λ s rq, deliver relayer s (rq_function_data rq)) s requests).

(** Rounds one after the other, each with the Redis store of its time. *)
Definition operator_rounds (s : state) (stores : list store) : outcome state :=
  foldM operator_round stores s.
End Rounds.

(** ** A world in which proofs are made *)
Section World.
Context `{CircuitBuilder, Hashing, DummyValues, AvailNode, Chain}.
Context (L MA MAX : nat) (c : chain) (jh : U32 → U64 → Vars.Justification).

(** The gateway proves what the circuits accept on the hints' data. *)
Record proves (g : address) (header_range_id rotate_id : Bytes32) : Prop := {
  pv_range t th id sh n h sr dr :
    is_u32 t → length th = 32%nat → is_u64 id → is_u32 n →
    HeaderRangeCircuit.define MA MAX (range_hint L) jh t th id sh n = Some (h, sr, dr) →
    verifiedCall g header_range_id (header_range_input t th id sh n) = Some (h ++ sr ++ dr);
  pv_rotate id sh r new_hash :
    is_u64 id → RotateHint L MA id = Ret r →
    RotateCircuit.define MA (MA * VALIDATOR_LENGTH + DELAY_LENGTH) (λ _, r) jh id sh = Some new_hash →
    verifiedCall g rotate_id (rotate_input id sh) = Some new_hash;
}.

(** The blocks that the operator steps to: the last ones of the epochs, and the
    multiples of the interval. *)
Definition stop_block (interval n : U32) : Prop := epoch_end c n ∨ (interval | n).

(** The chain announces its authority sets where its epochs end; no hash of it is
    zero. *)
Record prepared : Prop := {
  pr_format : chain_format L c;
  pr_array : MIN_HEADER_SIZE ≤ Z.of_nat L;
  pr_logs : log_format;
  pr_dummy : length DUMMY_PUBLIC_KEY = PUBKEY_LENGTH;
  pr_authorities : same_authorities c;
  pr_rotates n : epoch_end c n → rotates MA c n;
  pr_room n : epoch_end c n → (length (encode (header_at c n)) + MAX_PREFIX_LENGTH
    + (MA * VALIDATOR_LENGTH + DELAY_LENGTH) ≤ L)%nat;
  pr_max : 40 * Z.of_nat MA < 2 ^ 31;
  pr_header n : 0 ≤ n ≤ ch_head c → hash (header_at c n) ≠ bytes32_0;
  pr_set n : 0 ≤ n ≤ ch_head c → compute_authority_set_hash (authorities_of c n) ≠ bytes32_0;
}.

(** Its stop blocks are justified too. *)
Record provable (interval : U32) : Prop := {
  pr_prepared : prepared;
  pr_justified n : 0 < n ≤ ch_head c → stop_block interval n →
    let id := set_id c (n - 1) in
    justification_bounds MA (jh n id)
    ∧ justification_valid (jh n id) n (hash (header_at c n)) id
        (compute_authority_set_hash (authorities_of c (n - 1)));
}.

(** A set that the contract knows. *)
Definition known (s : state) (id : U64) : Prop := at_bytes32 (authoritySetIdToHash s) id ≠ bytes32_0.

#[export] Instance known_dec s id : Decision (known s id).
Proof. unfold known. apply _. Defined.
#[export] Instance epoch_end_dec n : Decision (epoch_end c n).
Proof. unfold epoch_end, last_justified. apply _. Defined.

(** A contract that follows the chain and can go on. *)
Record in_step (g : address) (header_range_id rotate_id : Bytes32) (s : state) : Prop := {
  st_canonical : canonical MAX c s;
  st_active : frozen s = false;
  st_started : 0 < latestBlock s;
  st_header : at_bytes32 (blockHeightToHeaderHash s) (latestBlock s) ≠ bytes32_0;
  st_known : known s (set_id c (latestBlock s - 1));
  st_config : gateway s = g ∧ headerRangeFunctionId s = header_range_id
    ∧ rotateFunctionId s = rotate_id
    ∧ headerRangeCommitmentTreeSize s = Z.of_nat (HEADERS_PER_MAP * jobs MAX);
}.
End World.

(** ** Helper lemmas *)

(** Calldata of the operator's requests. *)
Section DispatchFacts.
Context `{Chain} (Hsel : selectors_distinct).

Lemma decode_commit id n :
  is_u64 id → is_u32 n →
  decode_call (commitHeaderRange_selector ++ be_encode 32 id ++ be_encode 32 n)
  = Some (CommitHeaderRange id n).
Proof.
  intros Hid Hn. destruct Hsel as [Hl _ _]. unfold decode_call.
  rewrite take_app_length', drop_app_length' by done. cbv zeta. rewrite decide_True by done.
  rewrite slice_prefix by (by rewrite length_be_encode).
  rewrite <- (app_nil_r (be_encode 32 n)).
  rewrite (slice_at (be_encode 32 id) (be_encode 32 n)) by (rewrite ?length_be_encode; done).
  unfold is_u64, is_u32 in *. rewrite !be_decode_encode by lia.
  rewrite decide_True; [done|]. rewrite !length_app, !length_be_encode. split; [lia|done].
Qed.

Lemma decode_rotate id :
  is_u64 id → decode_call (rotate_selector ++ be_encode 32 id) = Some (DoRotate id).
Proof.
  intros Hid. destruct Hsel as [_ Hl Hne]. unfold decode_call.
  rewrite take_app_length', drop_app_length' by done. cbv zeta.
  rewrite decide_False by congruence. rewrite (decide_True (P := rotate_selector = _)) by done.
  rewrite <- (app_nil_r (be_encode 32 id)).
  rewrite slice_prefix by (by rewrite length_be_encode).
  unfold is_u64 in *. rewrite !be_decode_encode by lia.
  rewrite decide_True; [done|]. rewrite !length_app, !length_be_encode. split; [simpl; lia|done].
Qed.
End DispatchFacts.

(** *** What the operator asks for *)
Section Decision.
Context `{Hashing, DummyValues, AvailNode, RedisServer}.
Context (is_dummy_operator : bool) (avail_chain_id : string).
Context (c : chain) (Hc : serves c) (He : epochs c).
Context (interval size : U32) (Hint : 0 < interval ≤ size).

(** A store with the justifications of the multiples of the interval; those of the
    last blocks of epochs come from finality proofs. *)
Definition indexed_multiples (s : store) : Prop := ∀ n,
  0 < n ≤ ch_head c → (interval | n) → ¬ epoch_end c n →
  ∃ cj, get_justification_from_block avail_chain_id MAX_AUTHORITY_SET_SIZE n s = Ret cj.
Definition ready (s : store) : Prop := is_dummy_operator = true ∨ indexed_multiples s.

(** A block to step to from [cur]. *)
Record next_stop (cur target : U32) : Prop := {
  ns_ahead : cur < target ≤ ch_head c;
  ns_reach : target ≤ cur + size;
  ns_set : set_id c (target - 1) = set_id c cur;
  ns_stop : stop_block c interval target;
}.

(** Before the latest epoch there is always one: the last block of the epoch, or
    else the last multiple of the interval in reach. *)
Lemma find_block_stops cur s :
  0 < cur ≤ ch_head c → set_id c cur < set_id c (ch_head c) → cur + size < 2 ^ 32 → ready s →
  ∃ target, find_block_to_step_to is_dummy_operator avail_chain_id interval size cur (ch_head c)
      (set_id c cur) s = Ret (Some target) ∧ next_stop cur target.
Proof.
  intros Hcur Hlt Hroom Hready. destruct (set_id_u64 c Hc He cur ltac:(lia)) as [Hid0 Hid64].
  destruct (last_justified_block_run c Hc He (set_id c cur)) as (n & Hn & Hres); [lia..|].
  pose proof Hres as Hlast. unfold search_result in Hlast. rewrite decide_True in Hlast by done.
  pose proof Hlast as (Hr & E1 & E2).
  assert (cur < n) as Hahead.
  { destruct (decide (cur < n)); [done|]. pose proof (set_id_mono c He n cur). lia. }
  unfold find_block_to_step_to. rewrite Hn. cbn [mbind outcome_bind].
  rewrite decide_False by lia. rewrite checked_add_Ret by lia. cbn [mbind outcome_bind].
  rewrite bool_decide_eq_true_2 by lia. cbn [andb]. case_bool_decide as Hle.
  { exists n. split; [done|]. split; [lia|done|done|]. left. unfold epoch_end. by rewrite E2. }
  cbn [mbind outcome_bind]. rewrite Z.min_l by lia. unfold checked_rem.
  rewrite decide_False by lia. cbn [mbind outcome_bind].
  pose proof (Z.mod_pos_bound (cur + size) interval ltac:(lia)) as Hmod.
  rewrite checked_sub_Ret by lia. cbn [mbind outcome_bind].
  set (b := cur + size - (cur + size) mod interval) in *.
  assert (interval | b) as Hdiv.
  { exists ((cur + size) / interval). unfold b. pose proof (Z.div_mod (cur + size) interval ltac:(lia)). lia. }
  rewrite decide_False by lia. exists b. split.
  - destruct is_dummy_operator eqn:Hd; [done|]. destruct Hready as [|Hidx]; [congruence|].
    assert (set_id c (b - 1) = set_id c b) as Hin.
    { pose proof (set_id_mono c He cur (b - 1) ltac:(lia) ltac:(lia)).
      pose proof (set_id_mono c He (b - 1) b ltac:(lia) ltac:(lia)).
      pose proof (set_id_mono c He b (n - 1) ltac:(lia) ltac:(lia)). lia. }
    destruct (Hidx b ltac:(lia) Hdiv) as (cj & Hcj); [intros (_ & Hnext & _); lia|].
    assert (step_search avail_chain_id interval size cur s b = Ret (inr (Some b))) as Hhit.
    { unfold step_search. rewrite (checked_add_Ret 32 cur size) by lia. cbn [mbind outcome_bind].
      rewrite decide_False by lia. by rewrite Hcj. }
    rewrite Nat.add_comm. cbn [Nat.add loop]. by rewrite Hhit.
  - split; [lia|lia| |by right]. apply (set_id_within c He cur n b); [lia|lia|done|lia].
Qed.
End Decision.

(** *** The operator's requests in a round *)
Section Requests.
Context `{CircuitBuilderLaws, !HashingLaws, DummyValues, AvailNode, RedisServer, Chain}.
Context (config : VectorXConfig) (is_dummy_operator : bool) (avail_chain_id : string).
Context (MAX : nat) (c : chain) (Hc : serves c) (He : epochs c).
Context (interval : U32) (g : address) (header_range_id rotate_id : Bytes32).
Let size := Z.of_nat (HEADERS_PER_MAP * jobs MAX).

Lemma view_at s :
  in_step MAX c g header_range_id rotate_id s → contract_at (H3 := view s) c (latestBlock s) size.
Proof.
  intros [Hs _ Hpos _ _ (_ & _ & _ & Hsz)]. pose proof (cn_block _ _ _ Hs).
  split; [done|by cbn; rewrite Hsz|lia].
Qed.

(** What the operator reads from the contract. *)
Lemma view_data s :
  in_step MAX c g header_range_id rotate_id s → let cur := latestBlock s in
  get_contract_data_for_header_range (H3 := view s) = Ret {|
    hd_vectorx_latest_block := cur; hd_avail_current_block := ch_head c;
    hd_header_range_commitment_tree_size := size;
    hd_next_authority_set_hash_exists := negb (bool_decide
      (at_bytes32 (authoritySetIdToHash s) (set_id c (cur - 1) + 1) = B256_ZERO));
    hd_header_range_function_id := headerRangeFunctionId s |}.
Proof.
  intros Hst cur. pose proof (ca_range _ _ _ (view_at s Hst)) as Hcur. fold cur in Hcur.
  destruct (set_id_u64 c Hc He (cur - 1)) as [Hid0 Hid64]; [lia|].
  unfold get_contract_data_for_header_range. cbn [header_range_function_id latest_block
    header_range_commitment_tree_size view expect mbind outcome_bind].
  rewrite (get_head_run c Hc). cbn [mbind outcome_bind]. fold cur.
  rewrite checked_sub_Ret by lia. cbn [mbind outcome_bind].
  rewrite (get_authority_set_id_run c Hc) by lia. cbn [mbind outcome_bind].
  rewrite checked_add_Ret by lia. cbn [mbind outcome_bind authority_set_id_to_hash view expect].
  pose proof (sv_range c Hc). rewrite (sv_number c Hc) by lia.
  by destruct Hst as [_ _ _ _ _ (_ & _ & _ & ->)].
Qed.

(** The header range request is for the set of the next block. *)
Lemma find_header_range_run s st :
  in_step MAX c g header_range_id rotate_id s → let cur := latestBlock s in
  find_and_request_header_range (H3 := view s) config is_dummy_operator avail_chain_id interval st
  = if decide (epoch_end c cur ∧ ¬ known s (set_id c cur)) then Ret None else
    block_to_step_to ← find_block_to_step_to is_dummy_operator avail_chain_id interval size cur
      (ch_head c) (set_id c cur) st;
    Ret (target ← block_to_step_to; Some {|
      rq_chain_id := cfg_chain_id config; rq_address := cfg_address config;
      rq_function_data := commitHeaderRange_selector ++ be_encode 32 (set_id c cur)
        ++ be_encode 32 target;
      rq_function_id := headerRangeFunctionId s;
      rq_input := header_range_input cur (at_bytes32 (blockHeightToHeaderHash s) cur) (set_id c cur)
        (at_bytes32 (authoritySetIdToHash s) (set_id c cur)) target |}).
Proof.
  intros Hst cur. pose proof (ca_range _ _ _ (view_at s Hst)) as Hcur. fold cur in Hcur.
  destruct (set_id_u64 c Hc He (cur - 1)) as [Hid0 Hid64]; [lia|].
  destruct (last_justified_block_run c Hc He (set_id c (cur - 1))) as (n & Hn & Hres); [lia..|].
  pose proof (next_set c He cur n Hcur Hres) as Hset.
  assert (epoch_end c cur ↔ cur = n) as Hend.
  { unfold epoch_end, last_justified. case_decide as E; split; try done; lia. }
  unfold find_and_request_header_range. rewrite view_data by done. cbn [mbind outcome_bind
    hd_vectorx_latest_block hd_next_authority_set_hash_exists hd_header_range_commitment_tree_size
    hd_avail_current_block hd_header_range_function_id]. fold cur.
  rewrite checked_sub_Ret by lia. cbn [mbind outcome_bind].
  rewrite (get_authority_set_id_run c Hc) by lia. cbn [mbind outcome_bind]. rewrite Hn.
  cbn [mbind outcome_bind]. unfold known. rewrite Hset.
  destruct (decide (cur = n)) as [E|E].
  - rewrite checked_add_Ret by lia. cbn [mbind outcome_bind].
    change B256_ZERO with bytes32_0.
    destruct (decide (at_bytes32 (authoritySetIdToHash s) (set_id c (cur - 1) + 1) = bytes32_0))
      as [Ez|Ez].
    + rewrite bool_decide_eq_true_2 by done. rewrite decide_True by naive_solver. done.
    + rewrite bool_decide_eq_false_2 by done. cbn [negb]. rewrite decide_False by naive_solver.
      by destruct (find_block_to_step_to _ _ _ _ _ _ _ _) as [[]| | |].
  - cbn [mbind outcome_bind]. rewrite decide_False by naive_solver.
    by destruct (find_block_to_step_to _ _ _ _ _ _ _ _) as [[]| | |].
Qed.
End Requests.

(** *** What the gateway's calls do to the contract *)
Section Steps.
Context `{CircuitBuilderLaws, !HashingLaws, DummyValues, AvailNode, RedisServer, Chain}.
Context (L MA MAX : nat) (c : chain) (Hc : serves c) (He : epochs c) (Hk : keys_distinct).
Context (jh : U32 → U64 → Vars.Justification) (interval : U32).
Context (Hpr : provable L MA c jh interval).
Let Hpre := pr_prepared L MA c jh interval Hpr.
Context (g : address) (header_range_id rotate_id : Bytes32).
Context (Hpv : proves L MA MAX jh g header_range_id rotate_id).
Let size := Z.of_nat (HEADERS_PER_MAP * jobs MAX).
Context (Hroom : ch_head c + size < 2 ^ 32).
Let going := in_step MAX c g header_range_id rotate_id.

Lemma known_canonical s n :
  going s → 0 ≤ n ≤ ch_head c → known s (set_id c n) →
  at_bytes32 (authoritySetIdToHash s) (set_id c n) = compute_authority_set_hash (authorities_of c n).
Proof.
  intros Hs Hn Hkn. apply (canonical_authorities MAX c (pr_authorities _ _ _ Hpre)); try done.
  apply Hs.
Qed.

Lemma length_set_hash n :
  epoch_end c n → length (compute_authority_set_hash (authorities_of c n)) = 32%nat.
Proof.
  intros Hn. rewrite length_authority_set_hash, decide_False; [done|].
  apply (ro_nonempty _ _ _ (pr_rotates _ _ _ Hpre n Hn)).
Qed.

(** A rotation for an epoch that has ended goes through. *)
Lemma rotation_relayed s n :
  let id := set_id c (latestBlock s - 1) in
  going s → last_justified c id n → ¬ known s (id + 1) →
  ∃ evs, let s' := store_authorities (id + 1) (compute_authority_set_hash (authorities_of c n)) s in
    rotate id s = inr (s', evs) ∧ going s' ∧ known s' (id + 1)
    ∧ ∀ i, i ≠ id + 1 → at_bytes32 (authoritySetIdToHash s') i = at_bytes32 (authoritySetIdToHash s) i.
Proof.
  intros id Hs Hn Hunk. pose proof (last_justified_u64 c Hc He id n Hn) as (Hr & Hid0 & Hid64).
  pose proof Hn as (_ & Enext & Eid). pose proof (cn_block _ _ _ (st_canonical _ _ _ _ _ _ Hs)) as Hb.
  pose proof (st_started _ _ _ _ _ _ Hs) as Hpos.
  assert (epoch_end c n) as Hend by (unfold epoch_end; by rewrite Eid).
  assert (at_bytes32 (authoritySetIdToHash s) id = compute_authority_set_hash (authorities_of c (n - 1)))
    as Eset.
  { rewrite <- Eid. apply known_canonical; [done|lia|]. rewrite Eid. apply Hs. }
  set (new := compute_authority_set_hash (authorities_of c n)).
  assert (verifiedCall (gateway s) (rotateFunctionId s)
    (rotate_input id (at_bytes32 (authoritySetIdToHash s) id)) = Some new) as Hcall.
  { destruct (st_config _ _ _ _ _ _ Hs) as (-> & _ & -> & _). rewrite Eset.
    pose proof (pr_rotates _ _ _ Hpre n Hend) as Hro. pose proof (pr_max _ _ _ Hpre).
    destruct (rotate_hint_run L c Hc (pr_format _ _ _ Hpre) MA He (pr_logs _ _ _ Hpre) id n Hn Hro)
      as (p & Hhint & Hlay & Hp); [done|].
    apply (pv_rotate _ _ _ _ _ _ _ Hpv id _ (rotation L MA c n p) new);
      [unfold is_u64; lia|done|].
    destruct (pr_justified _ _ _ _ _ Hpr n ltac:(lia) (or_introl Hend)) as [Hjb Hjv].
    rewrite Eid in Hjb, Hjv.
    apply (rotate_circuit_run L c Hc (pr_format _ _ _ Hpre) MA He jh id _ n p); try done.
    - apply Hpre.
    - by apply Hpre. }
  eexists. split; [|split; [|split]].
  - apply rotate_call_run. split; [split; [apply Hs|by apply Hs| |done]|].
    { destruct (decide (at_bytes32 (authoritySetIdToHash s) (id + 1) = bytes32_0)); [done|].
      by destruct Hunk. }
    exists new, []. rewrite app_nil_r. split_and!; [done|by apply length_set_hash|done|done].
  - assert (known (store_authorities (id + 1) new s) id) as Hkn.
    { unfold known, at_bytes32. cbn. rewrite lookup_insert_ne by lia. apply Hs. }
    destruct Hs as [Hcan Hact Hst Hhd Hkn0 Hcfg]. split; try done.
    rewrite <- Enext. by apply stored_set_canonical; [lia|..].
  - unfold known, at_bytes32. cbn. rewrite lookup_insert_eq. apply Hpre. lia.
  - intros i Hi. unfold at_bytes32. cbn. by rewrite lookup_insert_ne.
Qed.

(** So does a commit up to the next stop block. *)
Lemma range_relayed s target :
  let cur := latestBlock s in
  going s → known s (set_id c cur) → next_stop c interval size cur target →
  ∃ s' evs, commitHeaderRange (set_id c cur) target s = inr (s', evs)
    ∧ going s' ∧ latestBlock s' = target.
Proof.
  intros cur Hs Hkn [Hahead Hreach Hset Hstop]. pose proof (sv_range c Hc).
  pose proof (st_started _ _ _ _ _ _ Hs) as Hpos. fold cur in Hpos.
  destruct (pr_justified _ _ _ _ _ Hpr target ltac:(lia) Hstop) as [Hjb Hjv]. rewrite Hset in Hjb, Hjv.
  rewrite (pr_authorities _ _ _ Hpre (target - 1) cur) in Hjv by (done || lia).
  destruct (set_id_u64 c Hc He cur) as [Hid0 Hid64]; [lia|].
  destruct (range_commits L MA MAX c Hc He (pr_format _ _ _ Hpre) (pr_array _ _ _ Hpre) Hk
    (pr_authorities _ _ _ Hpre) jh s target) as (sr & dr & evs & Hcommit & Hcan);
    try done; try apply Hs; [unfold size in *; lia| |].
  - intros h sr dr th sh Hdef. destruct (st_config _ _ _ _ _ _ Hs) as (-> & -> & _ & _).
    apply (pv_range _ _ _ _ _ _ _ Hpv); try done; fold cur;
      [unfold is_u32; lia| |unfold is_u64; lia|unfold is_u32; lia].
    unfold th. rewrite (canonical_header MAX c s) by apply Hs. fold cur.
    rewrite (hf_hash _ (cf_header L c (pr_format _ _ _ Hpre) cur ltac:(lia))).
    apply length_blake2_256.
  - eexists _, evs. split; [exact Hcommit|]. split; [|done].
    destruct Hs as [_ Hact _ _ _ Hcfg]. split; try done; cbn.
    + lia.
    + unfold at_bytes32. rewrite lookup_insert_eq. apply Hpre. lia.
    + by rewrite Hset.
Qed.
End Steps.

(** *** A round *)
Section Round.
Context `{CircuitBuilderLaws, !HashingLaws, DummyValues, AvailNode, RedisServer, Chain}.
Context (config : VectorXConfig) (is_dummy_operator : bool) (avail_chain_id : string).
Context (relayer : address) (Hsel : selectors_distinct).
Context (L MA MAX : nat) (c : chain) (Hc : serves c) (He : epochs c) (Hk : keys_distinct).
Context (jh : U32 → U64 → Vars.Justification) (interval : U32).
Context (Hpr : provable L MA c jh interval).
Context (g : address) (header_range_id rotate_id : Bytes32).
Context (Hpv : proves L MA MAX jh g header_range_id rotate_id).
Let size := Z.of_nat (HEADERS_PER_MAP * jobs MAX).
Context (Hroom : ch_head c + size < 2 ^ 32) (Hint : 0 < interval ≤ size).
Let going := in_step MAX c g header_range_id rotate_id.
Let round := operator_round config is_dummy_operator avail_chain_id interval relayer.

(** The set of the next block is missing. *)
Definition waiting (s : state) : Prop :=
  epoch_end c (latestBlock s) ∧ ¬ known s (set_id c (latestBlock s)).
#[export] Instance waiting_dec s : Decision (waiting s).
Proof. unfold waiting. apply _. Defined.

(** Rounds to go, at most. *)
Definition rounds_left (s : state) : Z :=
  2 * (ch_head c - latestBlock s) + (if decide (waiting s) then 1 else 0).

Lemma next_set_id s :
  going s → let cur := latestBlock s in
  set_id c cur = if decide (epoch_end c cur) then set_id c (cur - 1) + 1 else set_id c (cur - 1).
Proof.
  intros Hs cur. pose proof (cn_block _ _ _ (st_canonical _ _ _ _ _ _ Hs)) as Hb.
  pose proof (st_started _ _ _ _ _ _ Hs) as Hpos. fold cur in Hb, Hpos.
  pose proof (ep_step c He (cur - 1) ltac:(lia)) as Hstep. replace (cur - 1 + 1) with cur in Hstep by lia.
  unfold epoch_end, last_justified. case_decide; lia.
Qed.

Lemma ready_known s : going s → ¬ waiting s → known s (set_id c (latestBlock s)).
Proof.
  intros Hs Hw. destruct (decide (known s (set_id c (latestBlock s)))) as [|Hun]; [done|].
  pose proof (next_set_id s Hs) as Hset. cbv zeta in Hset. case_decide; [by destruct Hw|].
  rewrite Hset. apply Hs.
Qed.

(** The rotation of a round, once delivered. *)
Lemma rotate_delivered s :
  going s → set_id c (latestBlock s) < set_id c (ch_head c) →
  ∃ rq s1, find_and_request_rotate (H3 := view s) config = Ret rq
    ∧ foldl (λ s rq, deliver relayer s (rq_function_data rq)) s (option_list rq) = s1
    ∧ going s1 ∧ latestBlock s1 = latestBlock s ∧ known s1 (set_id c (latestBlock s)).
Proof.
  intros Hs Hlt. set (cur := latestBlock s) in *. set (id := set_id c (cur - 1)).
  pose proof (view_at MAX c g header_range_id rotate_id s Hs) as Hat. fold cur in Hat.
  pose proof (ca_range _ _ _ Hat) as Hcur. destruct (set_id_u64 c Hc He (cur - 1)) as [Hid0 Hid64]; [lia|].
  fold id in Hid0, Hid64. eexists _, _. split.
  { by eapply (find_and_request_rotate_run (H3 := view s) c Hc He config cur size); [|done..|lia]. }
  split; [reflexivity|]. fold id. change B256_ZERO with bytes32_0.
  destruct (decide (id < _ ∧ _)) as [[Hid Hun]|Hno]; cbn [option_list option_rect foldl rq_function_data].
  - destruct (set_id_crossing c He id (ch_head c - 1)) as (n & Hn & _); [lia|lia|done|].
    destruct (rotation_relayed L MA MAX c Hc He jh interval Hpr g header_range_id rotate_id Hpv s n
      Hs Hn) as (evs & Hrun & Hs1 & Hnext & Hother); [by intros Hkn; apply Hkn|].
    unfold deliver. cbn [encode_rotate view]. rewrite decode_rotate by (done || (unfold is_u64; lia)).
    unfold transact. cbn [exec]. fold cur id in Hrun. rewrite Hrun. split; [done|]. split; [done|].
    pose proof (next_set_id s Hs) as Hset. cbv zeta in Hset. fold cur id in Hset. rewrite Hset.
    case_decide; [done|]. unfold known. rewrite Hother by (fold cur id; lia). apply Hs.
  - split; [done|]. split; [done|]. apply ready_known; [done|]. intros [Hend Hun].
    pose proof (next_set_id s Hs) as Hset. cbv zeta in Hset. fold cur id in Hset, Hun.
    rewrite decide_True in Hset by done. apply Hno. split.
    + pose proof (ep_step c He (ch_head c - 1) ltac:(lia)) as Hstep.
      replace (ch_head c - 1 + 1) with (ch_head c) in Hstep by lia. lia.
    + rewrite <- Hset. destruct (decide (at_bytes32 (authoritySetIdToHash s) (set_id c cur) = bytes32_0));
        [done|by destruct Hun].
Qed.

(** Before the latest epoch a round returns and leaves fewer of them. *)
Lemma round_progress s st :
  going s → set_id c (latestBlock s) < set_id c (ch_head c) → ready is_dummy_operator avail_chain_id c interval st →
  ∃ s', round s st = Ret s' ∧ going s' ∧ rounds_left s' < rounds_left s.
Proof.
  intros Hs Hlt Hready. set (cur := latestBlock s) in *.
  pose proof (ca_range _ _ _ (view_at MAX c g header_range_id rotate_id s Hs)) as Hcur. fold cur in Hcur.
  destruct (rotate_delivered s Hs Hlt) as (rq & s1 & Hrot & Hdel & Hs1 & Hl1 & Hkn1).
  fold cur in Hl1, Hkn1. unfold round, operator_round, run_round. rewrite Hrot. cbn [mbind outcome_bind].
  rewrite (find_header_range_run config is_dummy_operator avail_chain_id MAX c Hc He interval g
    header_range_id rotate_id s st Hs). fold cur size.
  change (epoch_end c cur ∧ ¬ known s (set_id c cur)) with (waiting s).
  destruct (decide (waiting s)) as [Hw|Hw]; cbn [mbind outcome_bind].
  - exists s1. rewrite app_nil_r, Hdel. split; [done|]. split; [done|]. unfold rounds_left.
    rewrite Hl1, (decide_True (P := waiting s)) by done. rewrite decide_False; [unfold cur; lia|].
    intros [_ Hun]. rewrite Hl1 in Hun. by destruct Hun.
  - destruct (find_block_stops is_dummy_operator avail_chain_id c Hc He interval size Hint cur st)
      as (target & Hfind & Hstop); [lia|done|lia|done|].
    rewrite Hfind. cbn [mbind outcome_bind option_bind option_list option_rect].
    rewrite foldl_app, Hdel. cbn [foldl rq_function_data].
    pose proof Hstop as [Hahead _ _ _]. destruct (set_id_u64 c Hc He cur) as [Hid0 Hid64]; [lia|].
    unfold deliver. rewrite decode_commit by (done || (unfold is_u64, is_u32; lia)).
    unfold transact. cbn [exec]. rewrite <- Hl1 in Hkn1, Hstop |- *.
    destruct (range_relayed L MA MAX c Hc He Hk jh interval Hpr g header_range_id rotate_id Hpv Hroom
      s1 target Hs1 Hkn1 Hstop) as (s' & evs & Hrun & Hs' & Hl'). rewrite Hrun.
    exists s'. split; [done|]. split; [done|]. unfold rounds_left. rewrite Hl'.
    rewrite (decide_False (P := waiting s)) by done. fold cur. case_decide; lia.
Qed.

(** From a contract that follows the chain the rounds reach the latest epoch. *)
Lemma rounds_catch_up stores s :
  going s → Forall (ready is_dummy_operator avail_chain_id c interval) stores →
  rounds_left s ≤ Z.of_nat (length stores) →
  ∃ k s', (k ≤ length stores)%nat
    ∧ operator_rounds config is_dummy_operator avail_chain_id interval relayer s (take k stores) = Ret s'
    ∧ going s' ∧ set_id c (latestBlock s') = set_id c (ch_head c).
Proof.
  revert s. induction stores as [|st stores IH]; intros s Hs Hst Hleft.
  all: pose proof (cn_block _ _ _ (st_canonical _ _ _ _ _ _ Hs)) as Hb.
  all: pose proof (set_id_mono c He (latestBlock s) (ch_head c) ltac:(lia) ltac:(lia)) as Hmono.
  - exists 0%nat, s. split_and!; [done..|]. unfold rounds_left in Hleft. cbn in Hleft.
    assert (latestBlock s = ch_head c) as -> by (case_decide; lia). done.
  - destruct (decide (set_id c (latestBlock s) = set_id c (ch_head c))) as [E|E].
    { exists 0%nat, s. split_and!; [lia|done..]. }
    apply Forall_cons in Hst as [Hready Hst].
    destruct (round_progress s st Hs ltac:(lia) Hready) as (s1 & Hrun & Hs1 & Hlt).
    destruct (IH s1 Hs1 Hst) as (k & s' & Hkl & Hrest & Hgo & Hend); [cbn in Hleft; lia|].
    exists (S k), s'. split; [cbn; lia|]. split; [|done].
    cbn [take]. unfold operator_rounds in *. cbn [foldM].
    unfold round in Hrun. rewrite Hrun. cbn [mbind outcome_bind]. exact Hrest.
Qed.
End Round.

(** ** Properties *)
Section Properties.
Context `{CircuitBuilderLaws, !HashingLaws, DummyValues, AvailNode, RedisServer, Chain}.

(** C5: the operator brings the contract to the latest epoch.  Assumed are a
    canonical contract at a block of the chain whose set it knows; a gateway that
    proves what the circuits accept; a chain that announces its sets where its
    epochs end, and in which every stop block, the end of an epoch or a multiple of
    the interval, is justified; and stores in which every multiple of the interval
    has a readable justification, unless the operator is a dummy.  Then some number
    of rounds, at most two for each block that the contract is behind, plus one,
    all return without a panic and leave a canonical contract whose next block is
    in the latest epoch.  Nothing is said of the rounds after these, which may
    search past the head of the chain and panic. *)
Theorem operator_catches_up config dummy avail_chain_id relayer L MA MAX c jh interval stores g
    header_range_id rotate_id s :
  let size := Z.of_nat (HEADERS_PER_MAP * jobs MAX) in
  serves c → epochs c → keys_distinct → selectors_distinct → provable L MA c jh interval →
  proves L MA MAX jh g header_range_id rotate_id → ch_head c + size < 2 ^ 32 → 0 < interval ≤ size →
  in_step MAX c g header_range_id rotate_id s →
  Forall (ready dummy avail_chain_id c interval) stores →
  2 * (ch_head c - latestBlock s) + 1 ≤ Z.of_nat (length stores) →
  ∃ k s', (k ≤ length stores)%nat
    ∧ operator_rounds config dummy avail_chain_id interval relayer s (take k stores) = Ret s'
    ∧ set_id c (latestBlock s') = set_id c (ch_head c)
    ∧ in_step MAX c g header_range_id rotate_id s'.
Proof.
  intros size Hc He Hk Hsel Hpr Hpv Hroom Hint Hs Hst Hlen.
  destruct (rounds_catch_up config dummy avail_chain_id relayer Hsel L MA MAX c Hc He Hk jh interval Hpr
    g header_range_id rotate_id Hpv Hroom Hint stores s Hs Hst) as (k & s' & Hkl & Hrun & Hgo & Hend).
  - unfold rounds_left. case_decide; lia.
  - by exists k, s'.
Qed.
End Properties.

(** ** Witnesses *)
Import Ref RefNode RefRedis Sample.
#[local] Existing Instance sample_node.
#[local] Existing Instance sample_sp_core.

(** The authorities of a set, of which there are at most three, sign whatever the
    operator asks for. *)
Definition sample_justifications (n : U32) (id : U64) : Vars.Justification :=
  let keys := if decide (id = 0) then old_keys else new_keys in
  let padding := (3 - length keys)%nat in
  let j := signed_by (keys ++ replicate padding zero32) n id in
  {| encoded_precommit := encoded_precommit j;
     validator_signed := map (λ _, true) keys ++ replicate padding false;
     signatures := signatures j; pubkeys := pubkeys j;
     num_authorities := Z.of_nat (length keys) |}.

Section Proving.
Context (jh : U32 → U64 → Vars.Justification).

Definition prove_rotation (input : bytes) : option bytes :=
  match RotateHint 400 3 (be_decode (take 8 input)) with
  | Ret r => RotateCircuit.define 3 (3 * VALIDATOR_LENGTH + DELAY_LENGTH) (λ _, r) jh
      (be_decode (take 8 input)) (drop 8 input)
  | _ => None
  end.

(** A gateway that proves both circuits, on the justifications of some hint. *)
Definition proving_chain : Chain := {|
  verifiedCall _ fid input :=
    if decide (fid = System.header_range_id) then prove_range 3 jh input
    else prove_rotation input;
  requestCall _ _ _ _ := true;
  is_guardian a := bool_decide (a = 1);
  keccak256 l := l;
  commitHeaderRange_selector := [1; 2; 3; 4];
  rotate_selector := [5; 6; 7; 8];
|}.

#[local] Existing Instance proving_chain.

Lemma proving_gateway g :
  proves 400 3 16 jh g System.header_range_id System.rotate_id.
Proof.
  split.
  - intros t th id sh n h sr dr Ht Hth Hid Hn Hdef. cbn [verifiedCall proving_chain].
    rewrite decide_True by done. rewrite prove_range_fields by done.
    change sample_node with (node_of old_keys) in *. by rewrite Hdef.
  - intros id sh r new_hash Hid Hhint Hdef. cbn [verifiedCall proving_chain].
    rewrite decide_False by by_decide. unfold prove_rotation, rotate_input.
    rewrite take_app_length', drop_app_length' by (by rewrite length_be_encode).
    rewrite be_decode_encode by done. by rewrite Hhint.
Qed.
End Proving.

Lemma sample_epoch_end n : epoch_end the_chain n → n = 2.
Proof.
  intros Hn. assert (n ∈ seqZ 0 5) as Hin by (apply below_head; destruct Hn; lia).
  revert n Hin Hn. refine (proj1 (Forall_forall _ _) _). by_decide.
Qed.

Lemma sample_prepared : prepared 400 3 the_chain.
Proof.
  split.
  - apply chain_formatted.
  - by_decide.
  - apply ref_log_format.
  - by_decide.
  - intros m n Hm Hn. each_block n Hn. each_block m Hm. by_decide.
  - intros n ->%sample_epoch_end. exact sample_rotates.
  - intros n ->%sample_epoch_end. by_decide.
  - by_decide.
  - intros n Hn. each_block n Hn. by_decide.
  - intros n Hn. each_block n Hn. by_decide.
Qed.

Lemma sample_provable : provable 400 3 the_chain sample_justifications 3.
Proof.
  split; [exact sample_prepared|].
  intros n Hn Hstop. change (ch_head the_chain) with 4 in Hn.
  assert (n = 2 ∨ n = 3) as [->| ->]
    by (destruct Hstop as [->%sample_epoch_end|[k Hk]]; [by left|right; lia]).
  all: split.
  3, 1: split; try by_decide; split; by_decide.
  all: split; [by_decide|by_decide|exists 9; split; [by_decide|reflexivity]| |by_decide].
  all: intros i s pk _; apply sign_all_verifies.
Qed.

(** The contract at block 1, in the first epoch. *)
Definition contract1 : state := initialize {|
  ip_guardian := 1; ip_gateway := 2; ip_height := 1; ip_header := block_hash 1;
  ip_authoritySetId := 0; ip_authoritySetHash := old_set;
  ip_headerRangeFunctionId := System.header_range_id; ip_rotateFunctionId := System.rotate_id;
  ip_headerRangeCommitmentTreeSize := 16 |}.

Lemma contract1_in_step (jh : U32 → U64 → Vars.Justification) :
  in_step (H3 := proving_chain jh) 16 the_chain 2 System.header_range_id System.rotate_id contract1.
Proof.
  split; [|by_decide..| |by_decide].
  - apply (genesis_canonical 16 the_chain (Some 1)); [apply chain_serves|by_decide|by_decide|].
    vm_compute. reflexivity.
  - unfold known. by_decide.
Qed.

#[local] Instance sample_proving : Chain := proving_chain sample_justifications.

Lemma operator_catches_up_witness :
  ∃ k s', (k ≤ 7)%nat
    ∧ operator_rounds sample_config true "avail" 3 9 contract1 (take k (replicate 7 empty)) = Ret s'
    ∧ set_id the_chain (latestBlock s') = 1
    ∧ in_step 16 the_chain 2 System.header_range_id System.rotate_id s'.
Proof.
  apply (operator_catches_up sample_config true "avail" 9 400 3 16 the_chain sample_justifications 3
    (replicate 7 empty)).
  - apply chain_serves.
  - apply chain_epochs.
  - exact sample_keys_distinct.
  - split; by_decide.
  - exact sample_provable.
  - apply proving_gateway.
  - by_decide.
  - by_decide.
  - apply contract1_in_step.
  - apply Forall_forall. intros st _. by left.
  - by_decide.
Defined.
