(* ===== verification/Programs.v ===== *)
(** * The binaries: src/bin

    The circuits and programs with the constants that they are built with, and the
    [main] functions of the operator, the indexer and the tool that fills ranges,
    on the environment of Environment. *)

From stdpp Require Import gmap.
From S2P Require Import Prelude Parse Environment Consts Vars Builder Reference Decoder Offchain.
From S2P Require Import Justification Rotate Subchain Types Redis Fetcher Hints Circuits Finality.
From S2P Require Import Indexer Operator Contract Tools System Progress.

(** ** The circuits as built *)
Section Circuits.
Context `{CircuitBuilder}.
Definition header_range_256 := HeaderRangeCircuit.define MAX_AUTHORITY_SET_SIZE 256.
Definition header_range_512 := HeaderRangeCircuit.define MAX_AUTHORITY_SET_SIZE 512.
Definition rotate_300 := RotateCircuit.define MAX_AUTHORITY_SET_SIZE MAX_SUBARRAY_SIZE.
End Circuits.

Section Dummies.
Context `{Hashing, AvailNode}.
Definition dummy_header_range_256 := DummyHeaderRange.run 256.
Definition dummy_header_range_512 := DummyHeaderRange.run 512.
Definition dummy_rotate := DummyRotate.run.
End Dummies.

(** What a header range program promises on a chain, together with the dummy of the
    same size: it takes the justified ranges of at most [size] blocks and no others,
    and the dummy returns the bytes of its outputs. *)
Definition range_program_spec `{CircuitBuilder, Hashing, AvailNode} (c : chain)
    (jh : U32 → U64 → Vars.Justification) (size : nat)
    (program : (U32 → U32 → U32 → list EncodedHeader) → (U32 → U64 → Vars.Justification) →
       U32 → Bytes32 → U64 → Bytes32 → U32 → option (Bytes32 * Bytes32 * Bytes32))
    (dummy : bytes → outcome bytes) : Prop :=
  ∀ trusted id sh target h sr dr,
    0 ≤ trusted < target → target ≤ ch_head c → is_u64 id → length sh = 32%nat →
    justification_bounds MAX_AUTHORITY_SET_SIZE (jh target id) →
    let th := hash (header_at c trusted) in
    let run := program (range_hint MAX_HEADER_SIZE) jh trusted th id sh target in
    (run = Some (h, sr, dr)
     ↔ target - trusted ≤ Z.of_nat size
       ∧ justification_valid (jh target id) target (hash (header_at c target)) id sh
       ∧ commits_to size {| target_header_hash := h; state_root_merkle_root := sr;
           data_root_merkle_root := dr |} th (served_chain MAX_HEADER_SIZE c trusted target))
    ∧ (run = Some (h, sr, dr) → dummy (header_range_input trusted th id sh target) = Ret (h ++ sr ++ dr)).

(** ** The operator *)

(** A program that submits requests as it goes; they stay submitted when it panics. *)
Definition traced (A : Type) : Type := list Request * outcome A.
#[export] Instance traced_ret : MRet traced := λ A a, ([], Ret a).
#[export] Instance traced_bind : MBind traced := λ A B f m,
  let '(requests, o) := m in
  match o with
  | Ret a => let '(more, o') := f a in (requests ++ more, o')
  | Err msg => (requests, Err msg)
  | Panic msg => (requests, Panic msg)
  | OutOfFuel => (requests, OutOfFuel)
  end.
Definition run_outcome {A} (o : outcome A) : traced A := ([], o).
Definition submit (request : option Request) : traced unit := (option_list request, Ret ()).

Section Operator.
Context `{Environment, Clients}.

(** [VectorXOperator::new]: the configuration, and whether the operator is a dummy. *)
Definition VectorXOperator_new : outcome (VectorXConfig * bool) :=
  contract_address ← expect (env_var "CONTRACT_ADDRESS") "CONTRACT_ADDRESS must be set";
  chain_id ← expect (env_var "CHAIN_ID") "CHAIN_ID must be set";
  address ← expect (parse_address contract_address) "invalid address";
  ethereum_rpc_url ← expect (env_var "ETHEREUM_RPC_URL") "ETHEREUM_RPC_URL must be set";
  _ ← assert (provider_try_from ethereum_rpc_url) "could not connect to client";
  chain_id ← expect (parse_uint 32 chain_id) "invalid chain id";
  _ ← expect (env_var "SUCCINCT_RPC_URL") "SUCCINCT_RPC_URL must be set";
  _ ← expect (env_var "SUCCINCT_API_KEY") "SUCCINCT_API_KEY must be set";
  is_dummy_operator ← expect (parse_bool (default "false" (env_var "IS_DUMMY_OPERATOR")))
    unwrap_error;
  Ret ({| cfg_address := address; cfg_chain_id := chain_id |}, is_dummy_operator).

(** The body of the loop of [run]; returns the seconds that it sleeps. *)
Definition run_iteration `{Hashing, DummyValues, AvailNode, RedisServer, VectorX}
    (config : VectorXConfig) (is_dummy_operator : bool) (st : store) : traced U64 :=
  '(_, avail_chain_id) ← run_outcome RpcDataFetcher_new;
  loop_delay_mins ← run_outcome get_loop_delay_mins;
  block_interval ← run_outcome get_update_delay_blocks;
  rotate_request ← run_outcome (find_and_request_rotate config);
  _ ← submit rotate_request;
  header_range_request ← run_outcome
    (find_and_request_header_range config is_dummy_operator avail_chain_id block_interval st);
  _ ← submit header_range_request;
  run_outcome (checked_mul 64 60 loop_delay_mins).

(** What an iteration finds: a node, a contract and a Redis store. *)
Record surroundings `{RedisServer} := {
  sr_node : AvailNode;
  sr_contract : VectorX;
  sr_store : store;
}.

(** The loop, for some iterations. *)
Fixpoint run_iterations `{Hashing, DummyValues, RedisServer} (config : VectorXConfig)
    (is_dummy_operator : bool) (l : list surroundings) : traced unit :=
  match l with
  | [] => mret ()
  | w :: l' =>
      _ ← run_iteration (H3 := sr_node w) (H5 := sr_contract w) config is_dummy_operator (sr_store w);
      run_iterations config is_dummy_operator l'
  end.

(** [main] of bin/vectorx.rs. *)
Definition operator_main `{Hashing, DummyValues, RedisServer} (l : list surroundings) : traced unit :=
  _ ← run_outcome RpcDataFetcher_new;
  '(config, is_dummy_operator) ← run_outcome VectorXOperator_new;
  run_iterations config is_dummy_operator l.
End Operator.

(** ** The indexer: [main] of bin/indexer.rs *)
Section IndexerMain.
Context `{Environment, Clients, Subscription, Hashing, SpCore, DummyValues, AvailNode, RedisServer}.

Definition indexer_main (subscription : list notification) (s : store) : outcome store :=
  avail_url ← expect (env_var "AVAIL_URL") unwrap_error;
  avail_chain_id ← expect (env_var "AVAIL_CHAIN_ID") unwrap_error;
  _ ← assert (avail_client_new avail_url) unwrap_error;
  _ ← RedisClient_new;
  listen_for_justifications avail_chain_id (received subscription) s.
End IndexerMain.

(** ** The genesis parameters: [main] of bin/genesis.rs, which prints them *)
Definition genesis_main `{Environment, Clients, Hashing, AvailNode} (block : option U32)
    : outcome (U32 * Bytes32 * U64 * Bytes32) :=
  _ ← RpcDataFetcher_new;
  genesis block.

(** ** Filling a range: [main] of bin/fill_block_range.rs *)

(** A transaction that is sent, or a call whose calldata is printed. *)
Inductive fill_output :=
  | Sent (sender : Contract.address) (c : call)
  | Printed (c : call).

Section FillMain.
Context `{Environment, Clients, Hashing, AvailNode, VectorX}.

Definition fill_main (end_block : U32) (post : bool) : outcome fill_output :=
  contract_address ← expect (env_var "CONTRACT_ADDRESS") "CONTRACT_ADDRESS must be set";
  _ ← expect (parse_address contract_address) "invalid address";
  ethereum_rpc_url ← expect (env_var "ETHEREUM_RPC_URL") "ETHEREUM_RPC_URL must be set";
  let private_key := default "0x00000000000000000000000000000000" (env_var "PRIVATE_KEY") in
  chain_id ← expect (env_var "CHAIN_ID") "CHAIN_ID must be set";
  wallet ← expect (wallet_from_str private_key) "invalid private key";
  _ ← expect (parse_uint 64 chain_id) unwrap_error;
  _ ← assert (provider_try_from ethereum_rpc_url) "could not connect to client";
  header_range_commitment_tree_size ← expect header_range_commitment_tree_size unwrap_error;
  latest_block ← expect latest_block unwrap_error;
  _ ← RpcDataFetcher_new;
  data ← get_block_range_data header_range_commitment_tree_size latest_block end_block;
  let c := UpdateBlockRangeData (start_blocks data) (end_blocks data) (header_hashes data)
    (data_root_commitments data) (state_root_commitments data) (end_authority_set_id data)
    (end_authority_set_hash data) in
  Ret (if post then Sent wallet c else Printed c).
End FillMain.

(** ** Helper lemmas *)
Section Deployed.
Context `{CircuitBuilderLaws, !HashingLaws, DummyValues, AvailNode}.

(** A program for a number of headers that its jobs fill exactly. *)
Lemma range_program_run c jh size :
  serves c → chain_format MAX_HEADER_SIZE c →
  (HEADERS_PER_MAP * jobs size)%nat = size → Z.of_nat size < 2 ^ 31 →
  range_program_spec c jh size (HeaderRangeCircuit.define MAX_AUTHORITY_SET_SIZE size)
    (DummyHeaderRange.run (Z.of_nat size)).
Proof.
  intros Hc Hf Hjobs Hsize trusted id sh target h sr dr Ht Htg Hid Hsh Hjb th run.
  pose proof (sv_range c Hc). pose proof (jobs_pow size) as Hpow. rewrite Hjobs in Hpow.
  assert (MIN_HEADER_SIZE ≤ Z.of_nat MAX_HEADER_SIZE) as HL by by_decide.
  assert (trusted + Z.of_nat (HEADERS_PER_MAP * jobs size) < 2 ^ 32) as Hroom by (rewrite Hjobs; lia).
  assert (run = Some (h, sr, dr) → target - trusted ≤ Z.of_nat size) as Hcap.
  { intros (o & Ho & _)%bind_Some. apply verify_subchain_chain in Ho as (used & _ & _ & Hl & Hmax & _);
      [lia| |lia]. apply (range_hint_bounds MAX_HEADER_SIZE c Hc Hf); lia. }
  assert (target - trusted ≤ Z.of_nat size → run = Some (h, sr, dr) ↔
    justification_valid (jh target id) target (hash (header_at c target)) id sh
    ∧ commits_to size {| target_header_hash := h; state_root_merkle_root := sr;
        data_root_merkle_root := dr |} th (served_chain MAX_HEADER_SIZE c trusted target)) as Hrun.
  { intros Hfit. apply (header_range_run MAX_HEADER_SIZE c Hc Hf); try done. by rewrite Hjobs. }
  split.
  { split; [intros Hsome; split; [exact (Hcap Hsome)|exact (proj1 (Hrun (Hcap Hsome)) Hsome)]|].
    intros [Hfit Hv]. exact (proj2 (Hrun Hfit) Hv). }
  intros Hsome. destruct (proj1 (Hrun (Hcap Hsome)) Hsome) as [_ Hct].
  assert ((3 + jobs_depth size < 31)%nat) as Hdepth.
  { apply (Nat.pow_lt_mono_r_iff 2); [lia|]. rewrite <- Hpow. apply Nat2Z.inj_lt.
    rewrite Nat2Z.inj_pow. lia. }
  rewrite Hpow, Nat2Z.inj_pow. apply (dummy_header_range_run MAX_HEADER_SIZE c Hc Hf); try done.
  rewrite Hjobs. by apply Hcap.
Qed.
End Deployed.

(** A run of the operator, a request at a time. *)
Section Runs.
Context `{Environment, Clients, Hashing, DummyValues, RedisServer}.

Lemma run_iteration_run (N : AvailNode) (V : VectorX) config dummy st url chain_id minutes blocks requests :
  RpcDataFetcher_new = Ret (url, chain_id) → get_loop_delay_mins = Ret minutes →
  get_update_delay_blocks = Ret blocks → minutes * 60 < 2 ^ 64 →
  run_round config dummy chain_id blocks st = Ret requests →
  run_iteration config dummy st = (requests, Ret (60 * minutes)).
Proof.
  intros Hnew Hmin Hblocks Hfit Hround. unfold run_iteration. rewrite Hnew, Hmin, Hblocks.
  unfold run_round in Hround. apply bind_Ret in Hround as (rotate & Hrot & Hround).
  apply bind_Ret in Hround as (range & Hrange & [= <-]). cbn [run_outcome mbind traced_bind app].
  rewrite Hrot. cbn [run_outcome mbind traced_bind app submit]. rewrite Hrange.
  cbn [run_outcome mbind traced_bind app submit]. rewrite checked_mul_Ret by lia.
  cbn. by rewrite !app_nil_r.
Qed.

(** Every iteration of a run with the requests of its round. *)
Definition rounds_return (config : VectorXConfig) (dummy : bool) (chain_id : string) (blocks : U32)
    (l : list surroundings) (requests : list (list Request)) : Prop :=
  Forall2 (λ w r, run_round (H1 := sr_node w) (H3 := sr_contract w) config dummy chain_id blocks
    (sr_store w) = Ret r) l requests.

Lemma run_iterations_run config dummy url chain_id minutes blocks l requests :
  RpcDataFetcher_new = Ret (url, chain_id) → get_loop_delay_mins = Ret minutes →
  get_update_delay_blocks = Ret blocks → minutes * 60 < 2 ^ 64 →
  rounds_return config dummy chain_id blocks l requests →
  run_iterations config dummy l = (concat requests, Ret ()).
Proof.
  intros Hnew Hmin Hblocks Hfit. induction 1 as [|w r l requests Hround _ IH]; [done|].
  cbn [run_iterations]. rewrite (run_iteration_run _ _ _ _ _ _ _ _ _ _ Hnew Hmin Hblocks Hfit Hround).
  cbn [mbind traced_bind]. by rewrite IH.
Qed.
End Runs.

(** ** Properties *)
Section Properties.
Context `{CircuitBuilderLaws, !HashingLaws, DummyValues, AvailNode}.

(** C9: the circuits as built.  On a chain whose headers fit the arrays, the header
    range circuits of 256 and 512 blocks take the justified ranges of up to 256 and
    512 blocks, no longer ones, and output the roots of their headers; the dummy
    programs of the same sizes return the same bytes. *)
Theorem deployed_range_circuits c jh :
  serves c → chain_format MAX_HEADER_SIZE c →
  range_program_spec c jh 256 header_range_256 dummy_header_range_256
  ∧ range_program_spec c jh 512 header_range_512 dummy_header_range_512.
Proof. intros Hc Hf. split; apply range_program_run; by_decide || done. Qed.

(** What the operator submits.  When its environment is complete and each round
    of its loop returns, the program submits the requests of the rounds, in order,
    and nothing else. *)
Theorem operator_main_requests `{Environment, Clients, RedisServer} config dummy url chain_id minutes
    blocks l requests :
  RpcDataFetcher_new = Ret (url, chain_id) → VectorXOperator_new = Ret (config, dummy) →
  get_loop_delay_mins = Ret minutes → get_update_delay_blocks = Ret blocks → minutes * 60 < 2 ^ 64 →
  rounds_return config dummy chain_id blocks l requests →
  operator_main l = (concat requests, Ret ()).
Proof.
  intros Hnew Hop Hmin Hblocks Hfit Hl. unfold operator_main. rewrite Hnew, Hop.
  cbn [run_outcome mbind traced_bind app].
  by rewrite (run_iterations_run config dummy url chain_id minutes blocks l requests).
Qed.

(** A rotation is never lost.  Once the operator has decided to rotate, the
    request is submitted first, even when the header range decision, or the sleep,
    then panics. *)
Theorem rotation_submitted `{Environment, Clients, RedisServer, VectorX} config dummy st url chain_id
    minutes blocks rq :
  RpcDataFetcher_new = Ret (url, chain_id) → get_loop_delay_mins = Ret minutes →
  get_update_delay_blocks = Ret blocks → find_and_request_rotate config = Ret (Some rq) →
  ∃ more o, run_iteration config dummy st = (rq :: more, o).
Proof.
  intros Hnew Hmin Hblocks Hrot. unfold run_iteration. rewrite Hnew, Hmin, Hblocks.
  cbn [run_outcome mbind traced_bind app]. rewrite Hrot. cbn [run_outcome mbind traced_bind app submit].
  destruct (find_and_request_header_range _ _ _ _ _); cbn; by eexists _, _.
Qed.

(** C20: running the tool moves the contract.  With the guardian's key, the program
    sends the call that takes the contract from its latest block to [end_block], with
    the chain's header hash there; without [--post] it prints the same call. *)
Theorem fill_main_moves_contract `{Environment, Clients, Chain} L c d end_block s sender url chain_id
    address rpc key id :
  serves c → chain_format L c → (d < 31)%nat → 0 ≤ latestBlock s < end_block → end_block ≤ ch_head c →
  authorities_of c end_block ≠ [] → is_guardian sender = true → keys_distinct →
  headerRangeCommitmentTreeSize s = 2 ^ Z.of_nat d →
  RpcDataFetcher_new = Ret (url, chain_id) → env_var "CONTRACT_ADDRESS" = Some address →
  is_Some (parse_address address) → env_var "ETHEREUM_RPC_URL" = Some rpc →
  provider_try_from rpc = true → env_var "PRIVATE_KEY" = Some key → wallet_from_str key = Some sender →
  env_var "CHAIN_ID" = Some id → is_Some (parse_uint 64 id) →
  ∃ call, fill_main (H3 := view s) end_block true = Ret (Sent sender call)
    ∧ fill_main (H3 := view s) end_block false = Ret (Printed call)
    ∧ let s' := transact sender call s in latestBlock s' = end_block
      ∧ latestAuthoritySetId s' = set_id c end_block
      ∧ blockHeightToHeaderHash s' !! end_block = Some (hash (header_at c end_block)).
Proof.
  intros Hc Hf Hd Hs Hend Hne Hg Hk Hsize Hnew Haddr [a Ha] Hrpc Hprov Hkey Hwallet Hid [n Hn].
  destruct (fill_posted L c d end_block sender s) as (data & s' & evs & Hdata & Hrun & Hl & Hset & _ & Hall);
    try done.
  set (call := UpdateBlockRangeData (start_blocks data) (end_blocks data) (header_hashes data)
    (data_root_commitments data) (state_root_commitments data) (end_authority_set_id data)
    (end_authority_set_hash data)).
  assert (∀ post, fill_main (H3 := view s) end_block post
    = Ret (if post then Sent sender call else Printed call)) as Hmain.
  { intros post. unfold fill_main. rewrite Haddr. cbn [expect mbind outcome_bind]. rewrite Ha, Hrpc.
    cbn [expect mbind outcome_bind]. rewrite Hid. cbn [expect mbind outcome_bind].
    rewrite Hkey. cbn [from_option Datatypes.id]. rewrite Hwallet. cbn [expect mbind outcome_bind].
    rewrite Hn, Hprov, Hnew. cbn [expect assert mbind outcome_bind header_range_commitment_tree_size
      latest_block view]. by rewrite Hsize, Hdata. }
  exists call. split; [apply Hmain|]. split; [apply Hmain|]. cbv zeta.
  unfold transact. cbn [exec call]. rewrite Hrun. split; [done|]. split; [done|].
  set (k := 2 ^ Z.of_nat d) in *. assert (0 < k) as Hk0 by (unfold k; lia).
  set (i := (end_block - latestBlock s - 1) / k).
  assert (0 ≤ i) as Hi by (apply Z.div_pos; lia).
  pose proof (Z.div_mod (end_block - latestBlock s - 1) k ltac:(lia)) as Hdm. fold i in Hdm.
  pose proof (Z.mod_pos_bound (end_block - latestBlock s - 1) k Hk0) as Hmod.
  destruct (Hall (Z.to_nat i)) as (Hh & _); [rewrite Z2Nat.id by done; lia|].
  assert (range_end d end_block (latestBlock s + k * Z.of_nat (Z.to_nat i)) = end_block) as Elast
    by (unfold range_end; fold k; rewrite Z2Nat.id by done; lia).
  by rewrite Elast in Hh.
Qed.
End Properties.

(** ** Witnesses *)
Import Ref RefNode RefRedis Sample.
#[local] Existing Instance sample_node.
#[local] Existing Instance sample_sp_core.
#[local] Existing Instance Contract.sample_chain.

(** An environment with the settings that differ from their defaults. *)
#[local] Instance operator_environment : Environment := {|
  env_var name :=
    if decide (name = "CHAIN_ID") then Some "5"
    else if decide (name = "AVAIL_CHAIN_ID") then Some "avail"
    else if decide (name = "UPDATE_DELAY_BLOCKS") then Some "2"
    else if decide (name = "LOOP_DELAY_MINS") then None
    else if decide (name = "IS_DUMMY_OPERATOR") then None
    else Some "value"
|}.
#[local] Instance operator_clients : Clients := {|
  avail_client_new _ := true;
  redis_client_open _ := true;
  provider_try_from _ := true;
  parse_address _ := Some (replicate 20 7);
  wallet_from_str _ := Some 1;
|}.

(** The justification of block 3 by the second set, in the arrays of the circuits. *)
Definition deployed_justification (n : U32) (id : U64) : Vars.Justification :=
  let j := signed_by new_keys n id in
  let rest := (MAX_AUTHORITY_SET_SIZE - length new_keys)%nat in
  {| encoded_precommit := encoded_precommit j;
     validator_signed := validator_signed j ++ replicate rest false;
     signatures := signatures j ++ replicate rest {| sig_r := zero32; sig_s := 0 |};
     pubkeys := pubkeys j ++ replicate rest zero32;
     num_authorities := num_authorities j |}.

Lemma deployed_bounds :
  justification_bounds MAX_AUTHORITY_SET_SIZE (deployed_justification 3 1).
Proof. split; [by_decide|by_decide|split; by_decide|by_decide]. Qed.

Lemma deployed_valid : justification_valid (deployed_justification 3 1) 3 (block_hash 3) 1 new_set.
Proof.
  split; [by_decide|by_decide|exists 9; split; [by_decide|reflexivity]| |by_decide].
  intros i s pk Hi Hs Hpk. cbn [deployed_justification validator_signed signatures pubkeys] in Hi, Hs, Hpk.
  apply lookup_app_Some in Hi as [Hi|[_ Hi]]; [|by apply lookup_replicate in Hi as [? _]].
  apply lookup_lt_Some in Hi. rewrite lookup_app_l in Hs by done. rewrite lookup_app_l in Hpk by done.
  by apply (sign_all_verifies new_keys _ i).
Qed.

Lemma deployed_format : chain_format MAX_HEADER_SIZE the_chain.
Proof. apply ref_chain_format; [done|by_decide|by_decide]. Qed.

(** A program that meets its specification takes blocks 1 to 3. *)
Lemma deployed_run size program dummy :
  range_program_spec the_chain deployed_justification size program dummy →
  Z.of_nat (HEADERS_PER_MAP * jobs size) < 2 ^ 32 → 3 ≤ Z.of_nat (HEADERS_PER_MAP * jobs size) →
  3 ≤ Z.of_nat size →
  ∃ sr dr,
    program (range_hint MAX_HEADER_SIZE) deployed_justification 0 (block_hash 0) 1 new_set 3
      = Some (block_hash 3, sr, dr)
    ∧ dummy (header_range_input 0 (block_hash 0) 1 new_set 3) = Ret (block_hash 3 ++ sr ++ dr).
Proof.
  intros Hspec Hroom Hfit Hsize.
  destruct (served_outputs MAX_HEADER_SIZE the_chain (chain_serves old_keys) deployed_format size 0 3
    ltac:(by_decide) ltac:(by_decide) ltac:(by_decide) Hroom Hfit) as (sr & dr & Hct).
  exists sr, dr.
  destruct (Hspec 0 1 new_set 3 (block_hash 3) sr dr ltac:(by_decide) ltac:(by_decide)
    ltac:(by_decide) ltac:(by_decide) deployed_bounds) as [Hrun Hdummy].
  assert (program (range_hint MAX_HEADER_SIZE) deployed_justification 0 (block_hash 0) 1 new_set 3
    = Some (block_hash 3, sr, dr)) as Hsome
    by (apply Hrun; exact (conj Hsize (conj deployed_valid Hct))).
  split; [exact Hsome|exact (Hdummy Hsome)].
Qed.

Lemma deployed_range_circuits_witness :
  let input := header_range_input 0 (block_hash 0) 1 new_set 3 in
  (∃ sr dr,
    header_range_256 (range_hint MAX_HEADER_SIZE) deployed_justification 0 (block_hash 0) 1 new_set 3
      = Some (block_hash 3, sr, dr)
    ∧ dummy_header_range_256 input = Ret (block_hash 3 ++ sr ++ dr))
  ∧ ∃ sr dr,
    header_range_512 (range_hint MAX_HEADER_SIZE) deployed_justification 0 (block_hash 0) 1 new_set 3
      = Some (block_hash 3, sr, dr)
    ∧ dummy_header_range_512 input = Ret (block_hash 3 ++ sr ++ dr).
Proof.
  intros input.
  destruct (deployed_range_circuits the_chain deployed_justification (chain_serves old_keys) deployed_format)
    as [H256 H512].
  split; [apply (deployed_run 256 _ _ H256)|apply (deployed_run 512 _ _ H512)]; by_decide.
Defined.

(** One iteration, which finds the contract at block 3, with a later justification. *)
Definition at_block_3 : surroundings :=
  {| sr_node := node_of old_keys; sr_contract := contract_of 3 true;
     sr_store := indexed_store sample_stream |}.

Lemma operator_main_requests_witness :
  operator_main [at_block_3; at_block_3] = ([request_at_3; request_at_3], Ret ()).
Proof.
  apply (operator_main_requests sample_config false "value" "avail" 15 2 [at_block_3; at_block_3]
    [[request_at_3]; [request_at_3]]).
  1-4: vm_compute; reflexivity.
  - lia.
  - assert (run_round (H1 := sample_node) (H3 := contract_of 3 true) sample_config false "avail" 2
      (indexed_store sample_stream) = Ret [request_at_3]) as Hround by (vm_compute; reflexivity).
    by repeat constructor.
Defined.

Lemma rotation_submitted_witness :
  ∃ more o, run_iteration (H5 := contract_of 1 false) sample_config false empty =
    ({| rq_chain_id := 5; rq_address := replicate 20 7; rq_function_data := be_encode 8 0;
        rq_function_id := replicate 32 2; rq_input := rotate_input 0 old_set |} :: more, o).
Proof.
  apply (rotation_submitted (H8 := contract_of 1 false) sample_config false empty "value" "avail" 15 2);
    vm_compute; reflexivity.
Defined.

Lemma fill_main_moves_contract_witness :
  ∃ call, fill_main (H3 := view genesis_contract) 3 true = Ret (Sent 1 call)
    ∧ fill_main (H3 := view genesis_contract) 3 false = Ret (Printed call)
    ∧ let s' := transact 1 call genesis_contract in latestBlock s' = 3
      ∧ latestAuthoritySetId s' = set_id the_chain 3
      ∧ blockHeightToHeaderHash s' !! 3 = Some (hash (header_at the_chain 3)).
Proof.
  apply (fill_main_moves_contract 400 the_chain 1 3 genesis_contract 1 "value" "avail" "value" "value"
    "value" "5"); try by_decide.
  - apply chain_serves.
  - apply chain_formatted.
  - exact sample_keys_distinct.
Defined.
