(* ===== verification/Pipeline.v ===== *)
(** * The pipeline: indexer, operator, prover, gateway and contract

    The programs of Programs run against each other.  The indexer fills Redis; the
    operator finds its store and the contract as the requests so far have left it;
    the prover's hints read the same kind of store, the gateway relays what the
    circuits accept, and the contract moves. *)

From stdpp Require Import gmap.
From S2P Require Import Prelude Parse Environment Consts Vars Builder Reference Decoder Offchain.
From S2P Require Import Justification Rotate Subchain Types Codec Redis Fetcher Hints Circuits Finality.
From S2P Require Import Indexer Operator Contract Tools System Progress Programs.

(** ** The contract and the operator's program in a loop *)
Section ClosedLoop.
Context `{Environment, Clients, Hashing, DummyValues, AvailNode, RedisServer, Chain}.
Context (config : VectorXConfig) (is_dummy_operator : bool) (relayer : address).

(** The gateway fulfils requests in order. *)
Definition relay (s : state) (requests : list Request) : state :=
  foldl (λ s rq, deliver relayer s (rq_function_data rq)) s requests.

(** What the iterations find, when the requests of each are fulfilled before the next;
    [stores] are the Redis stores of their times. *)
Fixpoint closed_loop (s : state) (stores : list store) : list surroundings :=
  match stores with
  | [] => []
  | st :: stores' =>
      let requests := fst (run_iteration (H5 := view s) config is_dummy_operator st) in
      {| sr_node := _; sr_contract := view s; sr_store := st |} :: closed_loop (relay s requests) stores'
  end.
End ClosedLoop.

(** ** The indexer's store *)
Section Indexed.
Context `{Environment, Clients, Subscription, Hashing, SpCore, DummyValues, AvailNode, RedisServer}.
Context (MA : nat) (c : chain) (interval : U32).

(** A stream of broadcasts with a supermajority for every multiple of the interval
    that does not end an epoch, and none for the same block later. *)
Definition covers (js : list (GrandpaJustification AvailHeader)) : Prop := ∀ n,
  0 < n ≤ ch_head c → (interval | n) → ¬ epoch_end c n →
  ∃ before j after, js = before ++ j :: after
    ∧ broadcast c n j ∧ justifies c MA n j ∧ pair_verified c n j
    ∧ Forall (λ j', ∃ m, m ≠ n ∧ broadcast c m j') after.

(** A store that the indexer has made of such a stream. *)
Definition indexed (st : store) : Prop := ∃ subscription s0,
  indexer_main subscription s0 = Ret st ∧ covers (received subscription).
End Indexed.

(** What the prover is given for a block, from some store. *)
Definition hinted_by `{Hashing, DummyValues, AvailNode, RedisServer} (avail_chain_id : string)
    (MA : nat) (st : store) (n : U32) (id : U64) : Vars.Justification :=
  match HintSimpleJustification avail_chain_id MA st n id with
  | Ret j => j
  | _ => {| encoded_precommit := []; validator_signed := []; signatures := []; pubkeys := [];
            num_authorities := 0 |}
  end.

(** Authorities with distinct keys of 32 bytes, and a finality proof for the last
    block of every epoch. *)
Record finalizes `{Hashing, DummyValues, AvailNode} (MA : nat) (c : chain) : Prop := {
  fz_distinct n : 0 ≤ n ≤ ch_head c → NoDup (authorities_of c n);
  fz_keys n : 0 ≤ n ≤ ch_head c → Forall (λ k, length k = 32%nat) (authorities_of c n);
  fz_proofs n : epoch_end c n → ∃ proof, final_epoch_end c MA n proof;
  fz_dummies : dummies_ok;
}.

(** ** Helper lemmas *)
Section LoopFacts.
Context `{Environment, Clients, Hashing, DummyValues, AvailNode, RedisServer, Chain}.
Context (config : VectorXConfig) (is_dummy_operator : bool) (relayer : address).

(** Rounds of the operator are iterations of its program in the loop. *)
Lemma rounds_closed_loop url avail_chain_id minutes interval stores s s' :
  RpcDataFetcher_new = Ret (url, avail_chain_id) → get_loop_delay_mins = Ret minutes →
  get_update_delay_blocks = Ret interval → minutes * 60 < 2 ^ 64 →
  operator_rounds config is_dummy_operator avail_chain_id interval relayer s stores = Ret s' →
  ∃ requests, run_iterations config is_dummy_operator
      (closed_loop config is_dummy_operator relayer s stores) = (requests, Ret ())
    ∧ relay relayer s requests = s'.
Proof.
  intros Hnew Hmin Hint Hfit. revert s. induction stores as [|st stores IH]; intros s Hrun.
  { injection Hrun as <-. by exists []. }
  unfold operator_rounds in Hrun. cbn [foldM] in Hrun.
  apply bind_Ret in Hrun as (s1 & Hround & Hrun). unfold operator_round in Hround.
  apply bind_Ret in Hround as (requests & Hround & [= <-]).
  pose proof (run_iteration_run _ (view s) _ _ _ _ _ _ _ _ Hnew Hmin Hint Hfit Hround) as Hiter.
  cbn [closed_loop run_iterations sr_node sr_contract sr_store]. rewrite Hiter.
  destruct (IH _ Hrun) as (more & Hmore & <-).
  cbn [fst mbind traced_bind]. unfold relay in Hmore |- *. rewrite Hmore.
  exists (requests ++ more). by rewrite foldl_app.
Qed.
End LoopFacts.

Section IndexedFacts.
Context `{Environment, Clients, Subscription, CircuitBuilderLaws, !HashingLaws, SpCore, DummyValues,
  AvailNode, !RedisServer, !RedisLaws}.
Context (url avail_chain_id : string) (Hnew : RpcDataFetcher_new = Ret (url, avail_chain_id)).
Context (MA : nat) (c : chain) (Hc : serves c) (He : epochs c) (Hfz : finalizes MA c) (interval : U32).

Lemma inside_epoch n : 0 < n ≤ ch_head c → ¬ epoch_end c n → set_id c n = set_id c (n - 1).
Proof.
  intros Hn Hne. pose proof (ep_step c He (n - 1) ltac:(lia)) as Hstep.
  replace (n - 1 + 1) with n in Hstep by lia.
  destruct (decide (set_id c n = set_id c (n - 1))) as [|E]; [done|].
  destruct Hne. split; [done|]. split; [lia|done].
Qed.

(** The indexer's program listens for the operator's chain. *)
Lemma indexer_main_listens subscription s0 st :
  indexer_main subscription s0 = Ret st →
  listen_for_justifications avail_chain_id (received subscription) s0 = Ret st.
Proof.
  unfold indexer_main. intros (u & Hu & Hrun)%expect_Ret. apply expect_Ret in Hrun as (i & Hi & Hrun).
  apply assert_Ret in Hrun as [_ Hrun]. apply bind_Ret in Hrun as (? & _ & Hrun).
  unfold RpcDataFetcher_new in Hnew. apply expect_Ret in Hnew as (u' & _ & Hid).
  apply assert_Ret in Hid as [_ Hid]. apply bind_Ret in Hid as (? & _ & Hid).
  apply expect_Ret in Hid as (i' & Hi' & [= _ <-]). congruence.
Qed.

(** The entry of a covered block, with its votes laid out. *)
Lemma indexed_entry MAX st n :
  (MA ≤ MAX)%nat → 3 * Z.of_nat MAX < 2 ^ 32 → indexed MA c interval st →
  0 < n ≤ ch_head c → (interval | n) → ¬ epoch_end c n →
  ∃ j slots, justifies c MAX n j ∧ vote_slots c n j slots
    ∧ get_justification_data avail_chain_id MAX n st = Ret (slots_data c n (gj_round j) slots).
Proof.
  intros HM HMAX (subscription & s0 & Hrun & Hcov) Hn Hdiv Hne.
  destruct (Hcov n Hn Hdiv Hne) as (before & j & after & Ejs & Hb & Hju & Hp & Hafter).
  apply indexer_main_listens in Hrun. rewrite Ejs in Hrun. pose proof (inside_epoch n Hn Hne) as Hid.
  assert (justifies c MAX n j) as HjuM by (destruct Hju; split; done || lia).
  exists j, (indexed_slots c n j). split; [done|].
  split; [apply (indexed_vote_slots c MAX); [done|done|apply Hfz]|].
  apply indexed_data_read; try done; [apply Hfz; lia|].
  apply (listen_indexed avail_chain_id c Hc MAX n j before after s0 st); try done. apply Hfz. lia.
Qed.

(** So the operator finds every multiple of the interval justified ... *)
Lemma indexed_ready is_dummy_operator st :
  (MA ≤ MAX_AUTHORITY_SET_SIZE)%nat → indexed MA c interval st →
  ready is_dummy_operator avail_chain_id c interval st.
Proof.
  intros HM Hst. right. intros n Hn Hdiv Hne.
  destruct (indexed_entry MAX_AUTHORITY_SET_SIZE st n HM) as (j & slots & Hju & Hs & Hdata); try done.
  eexists. by eapply slots_block.
Qed.

(** ... and the prover a valid justification of every block where the operator stops. *)
Lemma indexed_provable L st :
  prepared L MA c → 3 * Z.of_nat MA < 2 ^ 32 → indexed MA c interval st →
  provable L MA c (hinted_by avail_chain_id MA st) interval.
Proof.
  intros Hpre HM Hst. split; [done|]. intros n Hn Hstop id. unfold hinted_by.
  destruct (decide (epoch_end c n)) as [Hend|Hne].
  - destruct (fz_proofs _ _ Hfz n Hend) as [proof Hproof].
    destruct (final_block_hint avail_chain_id c Hc He MA n proof st Hproof (fz_dummies _ _ Hfz))
      as (j & Hj & Hb & Hv). fold id in Hj, Hv. by rewrite Hj.
  - destruct Hstop as [|Hdiv]; [done|].
    destruct (indexed_entry MA st n) as (j & slots & Hju & Hs & Hdata); try done.
    destruct (slots_hint_valid avail_chain_id c Hc He MA n j slots st Hju Hs (fz_dummies _ _ Hfz) Hdata)
      as (jv & Hj & Hb & Hv). fold id in Hj, Hv. by rewrite Hj.
Qed.
End IndexedFacts.

(** ** Property *)
Section Properties.
Context `{Environment, Clients, Subscription, CircuitBuilderLaws, !HashingLaws, SpCore, DummyValues,
  AvailNode, !RedisServer, !RedisLaws, Chain}.

(** C6: the programs together keep the contract up to date.  On a chain that proves
    the ends of its epochs final, let the indexer store a stream with a supermajority
    for the other blocks where the operator stops, let the prover take its
    justifications from such a store and the gateway prove what the circuits accept.
    Then the operator's program, run against the contract that its own requests move,
    never panics before the contract's next block is in the latest epoch; it is so
    after at most two iterations for each block that the contract is behind, plus
    one, and the contract then holds data of the chain only. *)
Theorem pipeline_catches_up config dummy relayer L MA MAX c url avail_chain_id minutes interval
    prover_store stores g header_range_id rotate_id s :
  let size := Z.of_nat (HEADERS_PER_MAP * jobs MAX) in
  let jh := hinted_by avail_chain_id MA prover_store in
  serves c → epochs c → finalizes MA c → prepared L MA c → (MA ≤ MAX_AUTHORITY_SET_SIZE)%nat →
  keys_distinct → selectors_distinct →
  RpcDataFetcher_new = Ret (url, avail_chain_id) → VectorXOperator_new = Ret (config, dummy) →
  get_loop_delay_mins = Ret minutes → get_update_delay_blocks = Ret interval → minutes * 60 < 2 ^ 64 →
  Forall (indexed MA c interval) (prover_store :: stores) →
  proves L MA MAX jh g header_range_id rotate_id →
  ch_head c + size < 2 ^ 32 → 0 < interval ≤ size →
  in_step MAX c g header_range_id rotate_id s →
  2 * (ch_head c - latestBlock s) + 1 ≤ Z.of_nat (length stores) →
  ∃ k requests, (k ≤ length stores)%nat
    ∧ operator_main (closed_loop config dummy relayer s (take k stores)) = (requests, Ret ())
    ∧ let s' := relay relayer s requests in
      set_id c (latestBlock s') = set_id c (ch_head c)
      ∧ in_step MAX c g header_range_id rotate_id s'.
Proof.
  intros size jh Hc He Hfz Hpre HMA Hk Hsel Hnew Hop Hmin Hblocks Hfit [Hprover Hstores]%Forall_cons Hpv
    Hroom Hint Hs Hlen.
  assert (3 * Z.of_nat MA < 2 ^ 32) as HM by (pose proof (pr_max _ _ _ Hpre); lia).
  destruct (rounds_catch_up config dummy avail_chain_id relayer Hsel L MA MAX c Hc He Hk jh interval
    (indexed_provable url avail_chain_id Hnew MA c Hc He Hfz interval L prover_store Hpre HM Hprover)
    g header_range_id rotate_id Hpv Hroom Hint stores s Hs) as (k & s' & Hkl & Hrun & Hgo & Hend).
  - eapply Forall_impl; [exact Hstores|]. intros st. by eapply indexed_ready.
  - unfold rounds_left. case_decide; lia.
  - destruct (rounds_closed_loop config dummy relayer url avail_chain_id minutes interval _ s s' Hnew Hmin
      Hblocks Hfit Hrun) as (requests & Hmain & <-).
    exists k, requests. split; [done|]. split; [|done].
    unfold operator_main. rewrite Hnew, Hop. cbn [run_outcome mbind traced_bind]. by rewrite Hmain.
Qed.
End Properties.

(** ** Witness: the sample chain, whose third block only the indexer knows justified *)
Import Ref RefNode RefRedis Sample.
#[local] Existing Instance sample_node.
#[local] Existing Instance sample_sp_core.
#[local] Existing Instance sample_subscription.
#[local] Existing Instance operator_clients.

#[local] Instance pipeline_environment : Environment := {|
  env_var name :=
    if decide (name = "CHAIN_ID") then Some "5"
    else if decide (name = "AVAIL_CHAIN_ID") then Some "avail"
    else if decide (name = "UPDATE_DELAY_BLOCKS") then Some "3"
    else if decide (name = "LOOP_DELAY_MINS") then None
    else if decide (name = "IS_DUMMY_OPERATOR") then None
    else Some "value"
|}.

Definition sample_store : store := indexed_store sample_stream.
Definition sample_hints : U32 → U64 → Vars.Justification := hinted_by "avail" 3 sample_store.
#[local] Instance pipeline_chain : Chain := proving_chain sample_hints.

Lemma sample_covers : covers 3 the_chain 3 sample_stream.
Proof.
  intros n Hn [k Hk] _. change (ch_head the_chain) with 4 in Hn. assert (n = 3) as -> by lia.
  exists [broadcast_by old_keys 1], (broadcast_by new_keys 3), [broadcast_by new_keys 4].
  split; [done|]. split; [by apply broadcast_sample|]. split; [exact block3_justified|].
  split; [by_decide|]. constructor; [|done]. exists 4. split; [done|]. by apply broadcast_sample.
Qed.

Lemma sample_indexed : indexed 3 the_chain 3 sample_store.
Proof.
  exists (map notification_of sample_stream), empty. split; [vm_compute; reflexivity|].
  refine (eq_rect_r (covers 3 the_chain 3) sample_covers _). vm_compute. reflexivity.
Qed.

Lemma sample_finalizes : finalizes 3 the_chain.
Proof.
  split.
  - intros n Hn. each_block n Hn. by_decide.
  - intros n Hn. each_block n Hn. by_decide.
  - intros n ->%sample_epoch_end. eexists. exact sample_final.
  - exact sample_dummies_ok.
Qed.

Lemma pipeline_catches_up_witness :
  ∃ k requests, (k ≤ 7)%nat
    ∧ operator_main (closed_loop sample_config false 9 contract1 (take k (replicate 7 sample_store)))
      = (requests, Ret ())
    ∧ let s' := relay 9 contract1 requests in
      set_id the_chain (latestBlock s') = 1
      ∧ in_step 16 the_chain 2 System.header_range_id System.rotate_id s'.
Proof.
  apply (pipeline_catches_up sample_config false 9 400 3 16 the_chain "value" "avail" 15 3 sample_store
    (replicate 7 sample_store)).
  - apply chain_serves.
  - apply chain_epochs.
  - exact sample_finalizes.
  - exact sample_prepared.
  - by_decide.
  - exact sample_keys_distinct.
  - split; by_decide.
  - vm_compute. reflexivity.
  - vm_compute. reflexivity.
  - vm_compute. reflexivity.
  - vm_compute. reflexivity.
  - lia.
  - constructor; [exact sample_indexed|]. by apply Forall_replicate, sample_indexed.
  - apply proving_gateway.
  - by_decide.
  - by_decide.
  - apply contract1_in_step.
  - by_decide.
Defined.
